(* ===== verification/_CoqProject ===== *)
-Q . S2P
Prelude.v
Bytes.v
Buffer.v
BufferSpec.v
BufferTheorems.v
Kernel.v
World.v
Poller.v
EventLoop.v
Channel.v
Callbacks.v
Socket.v
TcpServer.v
Reactor.v
Main.v
ScriptKernel.v
Scenarios.v
WorldSpec.v
PollerTheorems.v
Registration.v
LoopTheorems.v
SocketTheorems.v
OutputStream.v
ConnectionTheorems.v
ServerTheorems.v
Iteration.v
NetHost.v
Serv2.v
Myser.v
NetTheorems.v
WorkQueue.v
WorkQueueTheorems.v
QueueProgram.v
QueueProgramTheorems.v
RefCount.v
RefCountTheorems.v
Objects.v
ObjectsTheorems.v
Safety.v
Serv2Theorems.v
BufferTyping.v
ServerSafety.v
JoinThreads.v
JoinThreadsTheorems.v
SysVSem.v
SysVSemTheorems.v
MsgQueue.v
MsgQueueTheorems.v
Processes.v
ProcessPrograms.v
PipeProtocol.v
PipeTheorems.v
ProcessBounds.v
ForkTheorems.v
SharedSemTheorems.v
Stl.v
StlTheorems.v
Datagram.v
DatagramTheorems.v
Daemon.v
DaemonTheorems.v
Serv.v
ServTheorems.v
Signals.v
SignalsTheorems.v
Copying.v
CopyingTheorems.v
Unixdomain.v
UnixdomainTheorems.v
Virtual.v
VirtualTheorems.v
Features.v
FeaturesTheorems.v
SharedMem.v
SharedMemTheorems.v
