(* ===== verification/Prelude.v ===== *)
(** * c_test: a verified model of its network library and servers

    The repository is a collection of C and C++ experiments.  Its one library is
    [src/netlib], an event loop for TCP servers in the style of muduo; around it
    stand single-file programs.  This development models the library whole, the
    servers [src/net/test/serv2.cpp], [src/net/myser2] and
    [src/net/test/serv.cpp], the threads of [src/net/pthread], the processes of
    [src/net/pipe], [src/net/fork.cpp], [src/net/semaphore/a.c],
    [src/net/semaphores] and [src/net/messagequeue], the UDP programs, the daemon,
    the Unix domain socket, the signals of [src/net/sig], and seven of the C++ exercises under [src/c++].

    ** How the program is modelled

    - C++ code is a [prog S A] (this file): a function from a state to a result
      and a new state, or to a [fault].  Faults are what can go wrong in the
      sources: a failed [assert], undefined behaviour of a named kind, an
      exception of the standard library, an aborting [LOG(FATAL)], a SIGPIPE that
      nobody handles.  So
      [runs m s Q] says that [m] ends from [s] without a fault and in [Q], and
      [ends m s f] that it ends in the fault [f].
    - [size_t], [int], [uint32_t] and the like are [Z] with their conversions
      written out ([size_t], [int32], [uint32], ...): [size_t] sums and
      differences wrap at 2^64, [int] results of conversions at 2^31.
    - Memory of buffers is a list of bytes; copies out of its bounds are faults
      (Bytes).  The byte order of the host is the parameter [Host].
    - Objects of the library live in one [World] (World): heaps of channels and
      sockets, the loop with its poller, the server, the kernel, [errno].  An
      access to an address no longer in its heap is a use after free.  A socket
      counts the [std::shared_ptr]s that own it; releasing the last one destroys
      it and its channel.  [std::function]s are data naming the bound function.
    - The operating system is not in the repository.  [Kernel] (Kernel) is a
      parameter that answers system calls, [KernelLaws] the documented behaviour
      the proofs use: what epoll remembers, which descriptors are open, what a
      descriptor has accepted for sending, that reads fit their buffers.
      [law_close] speaks of descriptors that are not shared with another process,
      as those of one server are.  ScriptKernel is a kernel that runs: it
      satisfies every law, and the witnesses compute with it.  [inet_addr],
      [inet_aton] and what an uninitialised address holds ([stale_peer]) are
      parameters without laws, and so is whether [cerr] flushes [cout] ([tied],
      Daemon), which depends on the standard the library follows.
    - User callbacks are a parameter ([UserCode], Callbacks); a theorem that
      needs one to behave says how.  Main gives those of main.cpp.
    - Threads (WorkQueue, RefCount, JoinThreads) are step relations: one program
      counter per thread, one step per access to shared memory or call of a
      synchronisation function, every interleaving, spurious wake-ups included.
    - Processes: SysVSem is a step relation of the same kind.  The programs that
      fork are written in a small language of calls ([code], Processes), a tree
      whose nodes are the next call and whose branches its results; the machine
      makes one call of one process in a step, and any call that can fail for
      lack of resources may.
    - Single processes against an operating system of their own (MsgQueue,
      Datagram, Daemon, Unixdomain) are [prog]s again.  A variable that is read
      before it is set holds a value that the theorems leave open.

    ** The files and what they correspond to

    - Prelude: faults, the monad, [runs] and [ends], integer conversions.
      Bytes: storage, byte order.
    - Buffer: [Buffer.hpp], [Buffer.cpp], every operation.
      BufferSpec: the invariant [wf], the contents, the specification of each
      operation and of a byte queue.  BufferTheorems: the refinement of the queue
      by the buffer, integers between hosts, growing, searching, [readFd].
      BufferTyping: what the asserts guard, for arguments of any value.
    - Kernel, World, WorldSpec, Callbacks: as above, with proof rules.
    - Poller: [Poller.cpp].  EventLoop and Reactor: [EventLoop.cpp]; Reactor also
      holds [TcpServer::start], because it runs the loop, and ties the callback
      names to the functions.  Channel: [Channel.cpp].  Socket: [Socket.cpp].
      TcpServer: [TcpServer.cpp].  Main: [main.cpp].
    - PollerTheorems, Registration: [epoll_sound], which ties the interest list
      of epoll to the live channels, kept by every channel operation and by
      [poll]; which [epoll_ctl] each operation makes; what [poll] reports.
      LoopTheorems: the dispatch of [handleEvent], for callbacks that destroy the
      channel too, the queue of pending functors, when [loop] returns, and that the
      hang-up of the listening socket makes it.  SocketTheorems: the byte stream through [Send] and
      [handleWrite]; OutputStream: any sequence of the two, as an abstract
      machine.  ConnectionTheorems: reading, closing, destruction, and the
      example server from its first line.  ServerTheorems: parsing the host
      string, [bind], [accept].  Iteration: one pass of the loop of the example
      server, from [poll] through the dispatch of every reported client to its
      answer.  Scenarios: the concrete worlds of the witnesses.
    - NetHost, Serv2, Myser, NetTheorems: [serv2.cpp], and [net.h], [net.cpp],
      [main.cpp], [global.cpp] of myser2: registrations, [readn], what a failed
      wait leads to, the block queue.  Serv2Theorems: what serv2 keeps registered
      over any number of rounds, and the only ways in which it can stop.
    - WorkQueue, WorkQueueTheorems: [process_msg], [enqueue_msg] and the sending
      loop of [main]: safety, refinement of a stack, delivery, a bound on the
      length of executions.  QueueProgram, QueueProgramTheorems: the program
      around them, with the creation of the threads.  RefCount, RefCountTheorems: [foo_alloc],
      [foo_hold], [foo_rele]: safety, and when the object is freed.
    - Objects, ObjectsTheorems: [src/c++/test_constructor_sequence.cpp] as
      classes of a model of construction and destruction, whose lifetimes nest;
      [src/c++/singeleton.cpp] with its function-local statics.
    - Safety, ServerSafety: the judgement [safe], which says what faults a program
      may end in, and its proof for the whole server from its start, against an
      interface to user code ([SafeUser]) that main.cpp implements.
    - JoinThreads, JoinThreadsTheorems: [src/net/pthread/main.c].
    - SysVSem, SysVSemTheorems: [src/net/semaphores/main.c].
      MsgQueue, MsgQueueTheorems: [src/net/messagequeue/main.c].
    - Processes: the machine; ProcessPrograms: pipe.cpp, pipe2.cpp, fork.cpp and
      semaphore/a.c as code for it.  PipeProtocol: what a parent and children that
      talk through pipes may do, as predicates on code, and that the system then
      delivers; PipeTheorems: that both pipe programs keep to it.  ProcessBounds:
      loop-free code ends.  ForkTheorems, SharedSemTheorems: the other two.
    - Datagram, DatagramTheorems: [src/net/udp/udpconnectcli.cpp], udpcli.cpp,
      udpserv.cpp.  Daemon, DaemonTheorems: [src/net/daemon/daemon.cpp] and
      udpservdaemon.cpp.  Serv, ServTheorems: [src/net/test/serv.cpp] and the
      first lines of cli.cpp.  Unixdomain, UnixdomainTheorems:
      [src/net/unixdomain/unixdomain.cpp].
    - Signals, SignalsTheorems: signal masks and handlers; [src/net/sig/main.c]
      and the handlers of myser2, taken as installed: [init_proc] does not come to
      that as it stands.
    - Stl, StlTheorems: [src/c++/stl.cpp].
      Virtual, VirtualTheorems: [test_virtual_constructor_destructor.cpp],
      [test_c++_constructor.cpp] and [test_dynamic_virtual.cpp] of [src/c++].
      Copying, CopyingTheorems: [c++_copy_constructor.cpp].
      Features, FeaturesTheorems: [c++11_test.cpp].
    - SharedMem, SharedMemTheorems: [src/net/semaphore/b.c].

    ** What the theorems show

    The buffer is a byte queue for every sequence of calls inside its
    preconditions, and outside of them it refuses; registrations stay
    sound whatever is called; the dispatch, sending, reading, closing and
    accepting do what they say on every branch; one pass of the example server's
    loop answers every client that sent something and leaves the others alone;
    the thread queue delivers every message once, in every interleaving, and stops
    only then or at a null pointer from [malloc].  The threads of
    pthread/main.c never touch dead memory and print in order; the pipe programs
    deliver to every child and nobody is killed; the semaphores exclude as long as
    nobody misuses them, and the misuses are named; the forking server leaks no
    descriptor; serv2 goes on whatever its clients do, short of SIGPIPE, a receive
    that fills its buffer and a failed wait; a blocked signal is never handled;
    myser2's handlers wait for every child; the UDP client stays inside its
    buffers.  The example server as a whole ends only in the faults that [main_faults_are_few] lists.  Where the code
    does not do what it means to, the theorem says what it does: an orderly close
    destroys the channel whose handler is running
    ([peer_close_is_use_after_free]; the example server crashes at its first
    disconnect), [accept] admits a connection after a failure, [Send] overtakes,
    forgets to watch or drops, the message queue program never receives its own
    message, the daemon's output goes into its UDP socket, which refuses it, the semaphore of a.c is
    used after its destruction, pending functors run for ever, [findEOL(start)]
    reads past the data, a failed [epoll_wait] walks off the event array of
    serv2 and myser2, the block queue of myser2 returns one block for ever.

    ** Fuel and bounds

    Loops that need not end take fuel and end in [OutOfFuel], which is no outcome
    of the program.  [loop_returns_iff_quit] and [readn_reads_the_stream] say
    exactly when some fuel suffices, [acceptor_hangup_ends_loop] how much does;
    invariants hold for every fuel.  The buffer theorem asks that at most 2^61 bytes are put in, so that sizes stay below
    [max_size()] ([fits]); without that, growing ends in [LengthError].  The
    asserts of the buffer protect it against every other argument but one
    ([asserts_keep_buffer_typed]).  The thread
    theorems bound nothing but the [int] of the reference count.  Addresses of
    freed messages are not used again by [malloc].  The process
    theorems need no fuel: they bound the number of steps of every execution.

    ** Not modelled

    Logging, except where it aborts or reads; destructors at process exit; the
    death of the netlib server by SIGPIPE, which it does not handle and which a
    write to a client that has gone brings about (serv.cpp, serv2.cpp and myser2
    have it, as the fault [SigPipe]); sleeping; what does not compile: a function of net.cpp, and taxi.c; the layout
    of virtual tables, which is the compiler's.  Process and thread identifiers
    that are only printed.  The first lines of cli.cpp are undefined; its rest is
    left out.  Of c++11_test.cpp the templates that nothing instantiates and the
    values that nothing uses.  A functor that queues another while it runs may be
    moved by [pendingFunctors_]; the model lets it finish. *)

From Stdlib Require Import ZArith Lia.
From Stdlib Require Export Strings.Byte.
From stdpp Require Export base list strings gmap.

#[global] Open Scope Z_scope.

(** ** Faults and results

    A C++ computation ends normally or in one of the ways in which the sources
    can go wrong: a failed [assert], undefined behaviour, an exception of the
    standard library, an aborting log call, a deadly signal.  [OutOfFuel] is not an outcome of
    the program; it marks an execution the model did not follow to its end. *)

Inductive ub_kind :=
  | OutOfBounds      (* access outside the storage of a vector or an array *)
  | UseAfterFree     (* access to an object whose lifetime has ended *)
  | NullDeref        (* dereference of a null pointer *)
  | OtherUB.

Inductive fault :=
  | AssertionFailed
  | Undefined (k : ub_kind)
  | LengthError      (* std::length_error *)
  | BadFunctionCall  (* std::bad_function_call *)
  | FatalLog         (* LOG(FATAL) aborts the process *)
  | SigPipe          (* SIGPIPE, whose action nobody changed, ends the process *)
  | OutOfFuel.

#[export] Instance ub_kind_eq_dec : EqDecision ub_kind.
Proof. solve_decision. Defined.
#[export] Instance fault_eq_dec : EqDecision fault.
Proof. solve_decision. Defined.
#[export] Instance byte_eq_dec : EqDecision byte := Byte.byte_eq_dec.

Inductive result (A : Type) :=
  | Ok (a : A)
  | Err (f : fault).
Arguments Ok {A} a.
Arguments Err {A} f.

(** The result of a system call: a value, or -1 with [errno] set. *)
Inductive sysres (A : Type) :=
  | SysOk (a : A)
  | SysErr (errno : Z).
Arguments SysOk {A} a.
Arguments SysErr {A} errno.

(** ** The state-and-fault monad *)

Definition prog (S A : Type) : Type := S -> result (A * S).

Definition mk_prog {S A} (f : S -> result (A * S)) : prog S A := f.

#[export] Instance prog_ret S : MRet (prog S) := fun A a s => Ok (a, s).
#[export] Instance prog_bind S : MBind (prog S) := fun A B k m s =>
  match m s with
  | Ok (a, s') => k a s'
  | Err f => Err f
  end.

Section Combinators.
Context {S : Type}.

Definition get_st : prog S S := fun s => Ok (s, s).
Definition gets {A} (f : S -> A) : prog S A := fun s => Ok (f s, s).
Definition modify (f : S -> S) : prog S unit := fun s => Ok (tt, f s).
Definition fail {A} (f : fault) : prog S A := fun _ => Err f.
Definition assert_ (b : bool) : prog S unit :=
  if b then mret tt else fail AssertionFailed.
(** Accesses outside an array are undefined, not checked. *)
Definition assert_storage (b : bool) : prog S unit :=
  if b then mret tt else fail (Undefined OutOfBounds).
Definition lift {A} (r : result A) : prog S A := fun s =>
  match r with Ok a => Ok (a, s) | Err f => Err f end.
Definition unwrap {A} (f : fault) (o : option A) : prog S A :=
  match o with Some a => mret a | None => fail f end.
Definition when_ (b : bool) (m : prog S unit) : prog S unit :=
  if b then m else mret tt.

Fixpoint for_each {A} (body : A -> prog S unit) (l : list A) : prog S unit :=
  match l with
  | [] => mret tt
  | x :: l' => body x ;; for_each body l'
  end.
End Combinators.

(** Runs a computation on a component of a larger state. *)
Definition zoom {S T A} (get : S -> T) (put : T -> S -> S) (m : prog T A) : prog S A :=
  fun s => match m (get s) with
           | Ok (a, t) => Ok (a, put t s)
           | Err f => Err f
           end.

(** ** Total-correctness assertions

    [runs m s Q]: [m] started in [s] ends without a fault, in a result and a
    state that satisfy [Q]. *)

Definition runs {S A} (m : prog S A) (s : S) (Q : A -> S -> Prop) : Prop :=
  match m s with
  | Ok (a, s') => Q a s'
  | Err _ => False
  end.

(** [ends m s f]: [m] started in [s] ends in the fault [f]. *)
Definition ends {S A} (m : prog S A) (s : S) (f : fault) : Prop := m s = Err f.

Section Runs.
Context {S : Type}.

Lemma runs_ret {A} (a : A) (s : S) (Q : A -> S -> Prop) : runs (mret a) s Q <-> Q a s.
Proof. done. Qed.

Lemma runs_bind {A B} (m : prog S A) (k : A -> prog S B) s (Q : B -> S -> Prop) :
  runs (m ≫= k) s Q <-> runs m s (fun a s' => runs (k a) s' Q).
Proof. unfold runs, mbind, prog_bind. by destruct (m s) as [[a s']|f]. Qed.

Lemma runs_gets {A} (f : S -> A) s (Q : A -> S -> Prop) : runs (gets f) s Q <-> Q (f s) s.
Proof. done. Qed.

Lemma runs_get s (Q : S -> S -> Prop) : runs get_st s Q <-> Q s s.
Proof. done. Qed.

Lemma runs_modify f s (Q : unit -> S -> Prop) : runs (modify f) s Q <-> Q tt (f s).
Proof. done. Qed.

Lemma runs_fail {A} f s (Q : A -> S -> Prop) : runs (fail f) s Q <-> False.
Proof. done. Qed.

Lemma runs_assert b s (Q : unit -> S -> Prop) :
  runs (assert_ b) s Q <-> b = true /\ Q tt s.
Proof. destruct b; cbn; split; [done|by intros [_ ?]|done|by intros [? _]]. Qed.

Lemma runs_assert_storage b s (Q : unit -> S -> Prop) :
  runs (assert_storage b) s Q <-> b = true /\ Q tt s.
Proof. destruct b; cbn; split; [done|by intros [_ ?]|done|by intros [? _]]. Qed.

Lemma runs_lift_Ok {A} (a : A) s (Q : A -> S -> Prop) : runs (lift (Ok a)) s Q <-> Q a s.
Proof. done. Qed.

Lemma runs_lift {A} (r : result A) s (Q : A -> S -> Prop) :
  runs (lift r) s Q <-> exists a, r = Ok a /\ Q a s.
Proof. destruct r; cbn; naive_solver. Qed.

Lemma runs_unwrap {A} f (o : option A) s (Q : A -> S -> Prop) :
  runs (unwrap f o) s Q <-> exists a, o = Some a /\ Q a s.
Proof. destruct o; cbn; naive_solver. Qed.

Lemma runs_when b m s (Q : unit -> S -> Prop) :
  runs (when_ b m) s Q <-> (if b then runs m s Q else Q tt s).
Proof. by destruct b. Qed.

Lemma runs_mono {A} (m : prog S A) s (Q Q' : A -> S -> Prop) :
  runs m s Q -> (forall a s', Q a s' -> Q' a s') -> runs m s Q'.
Proof. unfold runs. destruct (m s) as [[a s']|f]; naive_solver. Qed.

Lemma runs_Ok {A} (m : prog S A) s a s' (Q : A -> S -> Prop) :
  m s = Ok (a, s') -> runs m s Q <-> Q a s'.
Proof. unfold runs. by intros ->. Qed.

Lemma runs_inv {A} (m : prog S A) s Q :
  runs m s Q -> exists a s', m s = Ok (a, s') /\ Q a s'.
Proof. unfold runs. destruct (m s) as [[a s']|f]; naive_solver. Qed.

(** Two postconditions of one run hold together. *)
Lemma runs_and {A} (m : prog S A) s (Q Q' : A -> S -> Prop) :
  runs m s Q -> runs m s Q' -> runs m s (fun a s' => Q a s' /\ Q' a s').
Proof. unfold runs. destruct (m s) as [[a s']|f]; naive_solver. Qed.

(** A loop over a list keeps an invariant indexed by the elements left. *)
Lemma runs_for_each {A} (body : A -> prog S unit) (I : list A -> S -> Prop) l s :
  I l s ->
  (forall x l' s0, I (x :: l') s0 -> runs (body x) s0 (fun _ s1 => I l' s1)) ->
  runs (for_each body l) s (fun _ s' => I [] s').
Proof.
  intros Hl Hstep. revert s Hl. induction l as [|x l IH]; intros s Hl; cbn; [done|].
  apply runs_bind. eapply runs_mono; [by apply Hstep|]. cbn. naive_solver.
Qed.
End Runs.

Lemma runs_zoom {S T A} (get : S -> T) put (m : prog T A) s Q :
  runs (zoom get put m) s Q <-> runs m (get s) (fun a t => Q a (put t s)).
Proof. unfold runs, zoom. by destruct (m (get s)) as [[a t]|f]. Qed.

(** Postconditions that agree pointwise are interchangeable under [runs]. *)
#[export] Instance runs_proper {S A} (m : prog S A) (s : S) :
  Proper (pointwise_relation A (pointwise_relation S iff) ==> iff) (runs m s).
Proof. intros Q Q' HQ. unfold runs. destruct (m s) as [[a s']|f]; [apply HQ|done]. Qed.

#[export] Instance runs_proper_impl {S A} (m : prog S A) (s : S) :
  Proper (pointwise_relation A (pointwise_relation S impl) ==> impl) (runs m s).
Proof. intros Q Q' HQ. unfold runs. destruct (m s) as [[a s']|f]; [apply HQ|done]. Qed.

Create Rewrite HintDb prog_db.
#[export] Hint Rewrite @runs_bind @runs_ret @runs_gets @runs_get @runs_modify
  @runs_assert @runs_lift_Ok @runs_when @runs_fail @runs_zoom : prog_db.

(** [run_step] pushes [runs] through one layer of monadic structure. *)
Ltac run_step :=
  first [ rewrite runs_bind | rewrite runs_ret | rewrite runs_gets | rewrite runs_get
        | rewrite runs_modify | rewrite runs_zoom | rewrite runs_lift_Ok ]; cbn beta.
Ltac run_steps := repeat run_step.

(** [run_using L]: the next statement is covered by the specification [L]. *)
Tactic Notation "run_using" uconstr(L) :=
  try rewrite runs_bind; eapply runs_mono; [eapply L|cbn beta].

(** ** Machine integers

    [size_t] is 64 bits wide on the target (x86-64 Linux); its values are
    integers reduced modulo 2^64 after every operation. *)

Abbreviation two64 := 18446744073709551616.
Abbreviation two63 := 9223372036854775808.
Abbreviation two32 := 4294967296.
Abbreviation two31 := 2147483648.
Abbreviation two16 := 65536.
Abbreviation two15 := 32768.

Definition size_t (z : Z) : Z := z mod two64.
Definition uint32 (z : Z) : Z := z mod two32.
Definition uint16 (z : Z) : Z := z mod two16.

(** Two's-complement conversion to a signed type of [2 * half] values. *)
Definition signed (half z : Z) : Z := (z + half) mod (2 * half) - half.
Definition int64 (z : Z) : Z := signed two63 z.
Definition int32 (z : Z) : Z := signed two31 z.
Definition int16 (z : Z) : Z := signed two15 z.
Definition int8 (z : Z) : Z := signed 128 z.

Declare Scope cxx_scope.
Delimit Scope cxx_scope with cxx.
Notation "a ⊕ b" := (size_t (a + b)) (at level 50, left associativity) : cxx_scope.
Notation "a ⊖ b" := (size_t (a - b)) (at level 50, left associativity) : cxx_scope.
#[global] Open Scope cxx_scope.

Lemma size_t_small z : 0 <= z < two64 -> size_t z = z.
Proof. apply Z.mod_small. Qed.

Lemma size_t_range z : 0 <= size_t z < two64.
Proof. by apply Z.mod_pos_bound. Qed.

Lemma signed_small half z : 0 < half -> - half <= z < half -> signed half z = z.
Proof. intros. unfold signed. rewrite Z.mod_small; lia. Qed.

Lemma signed_range half z : 0 < half -> - half <= signed half z < half.
Proof.
  intros. unfold signed. pose proof (Z.mod_pos_bound (z + half) (2 * half)). lia.
Qed.

(** A signed conversion only looks at its argument modulo the width. *)
Lemma signed_mod half z : 0 < half -> signed half (z mod (2 * half)) = signed half z.
Proof. intros. unfold signed. by rewrite Zplus_mod_idemp_l. Qed.

Lemma signed_uint half z :
  0 < half -> - half <= z < half -> signed half (z mod (2 * half)) = z.
Proof. intros. rewrite signed_mod by done. by apply signed_small. Qed.

(** [size_t_lia] discharges goals whose [size_t] terms do not wrap. *)
Ltac size_t_norm :=
  repeat match goal with
  | |- context [size_t ?z] => rewrite (size_t_small z) by lia
  | H : context [size_t ?z] |- _ => rewrite (size_t_small z) in H by lia
  end.
Ltac size_t_lia := size_t_norm; lia.

(** ** Updating one place of a list *)

Lemma insert_lookup_Some {A} (l : list A) i j x y :
  <[i := x]> l !! j = Some y -> (j = i /\ y = x) \/ (j <> i /\ l !! j = Some y).
Proof.
  intros Hl. destruct (decide (j = i)) as [->|Hne].
  - left. split; [done|]. apply list_lookup_insert_Some in Hl. naive_solver.
  - right. by rewrite list_lookup_insert_ne in Hl.
Qed.

Lemma insert_is_Some {A} (l : list A) i j x : is_Some (l !! j) -> is_Some (<[i := x]> l !! j).
Proof. rewrite !lookup_lt_is_Some, length_insert. done. Qed.

Lemma lookup_insert_by {A} (P : A -> Prop) (l : list A) i j new :
  (exists x, l !! j = Some x /\ P x) -> (j = i -> P new) ->
  exists x, <[i := new]> l !! j = Some x /\ P x.
Proof.
  intros (x & Hj & Hx) Hnew. destruct (decide (i = j)) as [->|Hne].
  - exists new. split; [|by apply Hnew]. apply list_lookup_insert_eq. by eapply lookup_lt_Some.
  - exists x. by rewrite list_lookup_insert_ne.
Qed.

Lemma sum_update {A} (f : A -> nat) l i old new :
  l !! i = Some old -> (sum_list_with f (<[i := new]> l) + f old = sum_list_with f l + f new)%nat.
Proof.
  revert i. induction l as [|x l IH]; intros i Hi; [done|].
  destruct i as [|i]; simpl in *; [simplify_eq; lia|]. specialize (IH i Hi). lia.
Qed.

(** ** Flat maps and sums over a list *)

Lemma list_bind_ext {A B} (f g : A -> list B) l : (forall x, x ∈ l -> f x = g x) -> l ≫= f = l ≫= g.
Proof.
  induction l as [|x l IH]; intros H; [done|]. cbn. rewrite (H x) by left. f_equal.
  apply IH. intros y Hy. apply H. by right.
Qed.

Lemma list_bind_nil {A B} (f : A -> list B) l : (forall x, x ∈ l -> f x = []) -> l ≫= f = [].
Proof.
  induction l as [|x l IH]; intros H; [done|]. cbn. rewrite (H x) by left.
  apply IH. intros y Hy. apply H. by right.
Qed.

(** Replacing the element at [i], and the function at every other place by one
    that agrees with it there. *)
Lemma bind_update {A B} (f g : A -> list B) l i old new :
  l !! i = Some old -> (forall j x, l !! j = Some x -> j <> i -> g x = f x) ->
  exists rest, l ≫= f ≡ₚ f old ++ rest /\ <[i := new]> l ≫= g ≡ₚ g new ++ rest.
Proof.
  revert i. induction l as [|x l IH]; intros i Hi Hfg; [done|].
  destruct i as [|i]; cbn in Hi.
  - injection Hi as <-. exists (l ≫= f). split; [done|]. cbn. f_equiv.
    rewrite (list_bind_ext g f l); [done|]. intros y [j Hy]%list_elem_of_lookup. by apply (Hfg (S j)).
  - destruct (IH i Hi) as (rest & H1 & H2); [intros j y Hy Hne; apply (Hfg (S j)); [done|lia]|].
    exists (f x ++ rest). cbn. rewrite (Hfg 0%nat x) by done. rewrite H1, H2.
    by rewrite !(Permutation_app_swap_app (f x)).
Qed.
