(* ===== verification/Bytes.v ===== *)
(** * Bytes: raw storage and network byte order

    A [char] array is a list of bytes addressed by integer offsets.  Reads and
    writes outside the storage are undefined behaviour.  The second half is the
    byte-order conversion ([htonl], [htons] and their inverses) and the memory
    image of an integer, for a host of either endianness. *)

From S2P Require Import Prelude.

(** ** Storage *)

Definition zlen {A} (l : list A) : Z := Z.of_nat (length l).

Definition slice {A} (off len : Z) (m : list A) : list A :=
  take (Z.to_nat len) (drop (Z.to_nat off) m).

Definition splice {A} (off : Z) (data m : list A) : list A :=
  take (Z.to_nat off) m ++ data ++ drop (Z.to_nat off + length data) m.

Definition in_bounds {A} (off len : Z) (m : list A) : bool :=
  (0 <=? off) && (0 <=? len) && (off + len <=? zlen m).

Definition mem_read {A} (off len : Z) (m : list A) : result (list A) :=
  if in_bounds off len m then Ok (slice off len m) else Err (Undefined OutOfBounds).

Definition mem_write {A} (off : Z) (data m : list A) : result (list A) :=
  if in_bounds off (zlen data) m then Ok (splice off data m)
  else Err (Undefined OutOfBounds).

Section Storage.
Context {A : Type}.
Implicit Types (m l data : list A).

Lemma zlen_nonneg l : 0 <= zlen l.
Proof. unfold zlen. lia. Qed.

Lemma zlen_app l l' : zlen (l ++ l') = zlen l + zlen l'.
Proof. unfold zlen. rewrite length_app. lia. Qed.

Lemma zlen_nil : zlen (@nil A) = 0.
Proof. done. Qed.

Lemma zlen_0_nil l : zlen l = 0 -> l = [].
Proof. destruct l; [done|unfold zlen; cbn; lia]. Qed.

Lemma zlen_replicate n (a : A) : zlen (replicate n a) = Z.of_nat n.
Proof. unfold zlen. by rewrite length_replicate. Qed.

Lemma in_bounds_spec off len m :
  in_bounds off len m = true <-> 0 <= off /\ 0 <= len /\ off + len <= zlen m.
Proof. unfold in_bounds. rewrite !andb_true_iff, !Z.leb_le. tauto. Qed.

Lemma mem_read_Ok off len m :
  0 <= off -> 0 <= len -> off + len <= zlen m -> mem_read off len m = Ok (slice off len m).
Proof. intros. unfold mem_read. by rewrite (proj2 (in_bounds_spec off len m)). Qed.

Lemma mem_write_Ok off data m :
  0 <= off -> off + zlen data <= zlen m -> mem_write off data m = Ok (splice off data m).
Proof.
  intros. unfold mem_write. rewrite (proj2 (in_bounds_spec off (zlen data) m)); [done|].
  pose proof (zlen_nonneg data). lia.
Qed.

Lemma zlen_slice off len m :
  0 <= off -> 0 <= len -> off + len <= zlen m -> zlen (slice off len m) = len.
Proof. unfold zlen, slice. intros. rewrite length_take, length_drop. lia. Qed.

Lemma zlen_splice off data m :
  0 <= off -> off + zlen data <= zlen m -> zlen (splice off data m) = zlen m.
Proof.
  unfold zlen, splice. intros. rewrite !length_app, length_take, length_drop. lia.
Qed.

Lemma slice_nil off m : slice off 0 m = [].
Proof. done. Qed.

(** A slice splits at any inner point. *)
Lemma slice_split off k len m :
  0 <= off -> 0 <= k <= len -> slice off len m = slice off k m ++ slice (off + k) (len - k) m.
Proof.
  intros. unfold slice.
  replace (Z.to_nat (off + k)) with (Z.to_nat off + Z.to_nat k)%nat by lia.
  rewrite <- drop_drop. replace (Z.to_nat len) with (Z.to_nat k + Z.to_nat (len - k))%nat by lia.
  by rewrite <- take_take_drop.
Qed.

Lemma take_slice k off len m :
  0 <= k <= len -> take (Z.to_nat k) (slice off len m) = slice off k m.
Proof. intros. unfold slice. rewrite take_take. f_equal. lia. Qed.

Lemma drop_slice k off len m :
  0 <= off -> 0 <= k <= len -> drop (Z.to_nat k) (slice off len m) = slice (off + k) (len - k) m.
Proof.
  intros. unfold slice. rewrite skipn_firstn_comm, drop_drop. f_equal; [lia|].
  f_equal. lia.
Qed.

Lemma slice_app_l off len m l :
  0 <= off -> off + len <= zlen m -> slice off len (m ++ l) = slice off len m.
Proof.
  unfold slice, zlen. intros. destruct (decide (len <= 0)).
  { by replace (Z.to_nat len) with 0%nat by lia. }
  rewrite drop_app_le by lia. apply take_app_le. rewrite length_drop. lia.
Qed.

Lemma slice_take_l off len k m :
  0 <= off -> off + len <= k -> slice off len (take (Z.to_nat k) m) = slice off len m.
Proof.
  intros. unfold slice. rewrite skipn_firstn_comm, take_take. f_equal. lia.
Qed.

(** Reading what was just written. *)
Lemma slice_splice_same off data m :
  0 <= off -> off + zlen data <= zlen m -> slice off (zlen data) (splice off data m) = data.
Proof.
  unfold slice, splice, zlen. intros.
  rewrite drop_app_length' by (rewrite length_take; lia).
  rewrite Nat2Z.id. by apply take_app_length.
Qed.

(** A read below a write does not see it. *)
Lemma slice_splice_below off len w data m :
  0 <= off -> off + len <= w -> w <= zlen m ->
  slice off len (splice w data m) = slice off len m.
Proof.
  intros. unfold splice. rewrite slice_app_l.
  - by apply slice_take_l.
  - done.
  - unfold zlen in *. rewrite length_take. lia.
Qed.

(** A read above a write does not see it. *)
Lemma slice_splice_above off len w data m :
  0 <= w -> w + zlen data <= off -> w + zlen data <= zlen m ->
  slice off len (splice w data m) = slice off len m.
Proof.
  unfold slice, splice, zlen. intros. f_equal.
  rewrite drop_app_ge by (rewrite length_take; lia).
  rewrite drop_app_ge by (rewrite length_take; lia).
  rewrite drop_drop. f_equal. rewrite length_take. lia.
Qed.

(** Writing right after a region extends it. *)
Lemma slice_splice_extend off data w m :
  0 <= off <= w -> w + zlen data <= zlen m ->
  slice off (w - off + zlen data) (splice w data m) = slice off (w - off) m ++ data.
Proof.
  intros. pose proof (zlen_nonneg data).
  rewrite (slice_split off (w - off)) by lia.
  rewrite slice_splice_below by lia.
  replace (off + (w - off)) with w by lia.
  replace (w - off + zlen data - (w - off)) with (zlen data) by lia.
  by rewrite slice_splice_same by lia.
Qed.

(** Writing right before a region extends it downwards. *)
Lemma slice_splice_prepend off data w m :
  0 <= off -> off + zlen data <= w -> w <= zlen m -> 0 <= w ->
  slice off (w - off) (splice off data m)
  = data ++ slice (off + zlen data) (w - off - zlen data) m.
Proof.
  intros. pose proof (zlen_nonneg data).
  rewrite (slice_split off (zlen data)) by lia.
  by rewrite slice_splice_same, slice_splice_above by lia.
Qed.
End Storage.

(** ** Bytes and integers *)

Definition Z_of_byte (b : byte) : Z := Z.of_N (Byte.to_N b).

Definition byte_of_Z (z : Z) : byte :=
  match Byte.of_N (Z.to_N (z mod 256)) with
  | Some b => b
  | None => Byte.x00
  end.

Fixpoint le_bytes (n : nat) (z : Z) : list byte :=
  match n with
  | O => []
  | S n' => byte_of_Z z :: le_bytes n' (z / 256)
  end.

Fixpoint le_value (bs : list byte) : Z :=
  match bs with
  | [] => 0
  | b :: bs' => Z_of_byte b + 256 * le_value bs'
  end.

(** Most significant byte first: the order of bytes on the wire. *)
Definition be_bytes (n : nat) (z : Z) : list byte := rev (le_bytes n z).

Lemma Z_of_byte_range b : 0 <= Z_of_byte b < 256.
Proof. unfold Z_of_byte. pose proof (Byte.to_N_bounded b). lia. Qed.

Lemma Z_of_byte_of_Z z : Z_of_byte (byte_of_Z z) = z mod 256.
Proof.
  unfold Z_of_byte, byte_of_Z. pose proof (Z.mod_pos_bound z 256 eq_refl).
  destruct (Byte.of_N (Z.to_N (z mod 256))) as [b|] eqn:E.
  - apply Byte.to_of_N in E. rewrite E. lia.
  - apply Byte.of_N_None_iff in E. lia.
Qed.

Lemma byte_of_Z_of_byte b : byte_of_Z (Z_of_byte b) = b.
Proof.
  unfold byte_of_Z. pose proof (Z_of_byte_range b). rewrite Z.mod_small by lia.
  unfold Z_of_byte. by rewrite N2Z.id, Byte.of_to_N.
Qed.

Lemma length_le_bytes n z : length (le_bytes n z) = n.
Proof. revert z. induction n; cbn; auto. Qed.

Lemma le_value_range bs : 0 <= le_value bs < 256 ^ zlen bs.
Proof.
  induction bs as [|b bs IH]; [done|]. cbn [le_value]. pose proof (Z_of_byte_range b).
  unfold zlen in *. cbn [length]. rewrite Nat2Z.inj_succ, Z.pow_succ_r by lia. lia.
Qed.

Lemma le_value_bytes n z : le_value (le_bytes n z) = z mod 256 ^ Z.of_nat n.
Proof.
  revert z. induction n as [|n IH]; intros z; cbn [le_bytes le_value].
  { by rewrite Z.mod_1_r. }
  rewrite IH, Z_of_byte_of_Z, Nat2Z.inj_succ, Z.pow_succ_r by lia.
  by rewrite Z.rem_mul_r by lia.
Qed.

Lemma le_bytes_value bs : le_bytes (length bs) (le_value bs) = bs.
Proof.
  induction bs as [|b bs IH]; [done|]. cbn [length le_bytes le_value].
  pose proof (Z_of_byte_range b). f_equal.
  - rewrite <- (byte_of_Z_of_byte b) at 2. unfold byte_of_Z.
    replace ((Z_of_byte b + 256 * le_value bs) mod 256) with (Z_of_byte b mod 256); [done|].
    by rewrite Z.mul_comm, Z_mod_plus_full.
  - rewrite Z.mul_comm, Z.div_add, Z.div_small by lia. done.
Qed.

Lemma le_bytes_mod n z : le_bytes n (z mod 256 ^ Z.of_nat n) = le_bytes n z.
Proof.
  rewrite <- le_value_bytes. rewrite <- (length_le_bytes n z) at 1. apply le_bytes_value.
Qed.

(** ** The host and the byte-order functions of <arpa/inet.h> *)

Inductive endianness := LittleEndian | BigEndian.
Class Host := host_order : endianness.

Section ByteOrder.
Context `{H : Host}.

(** The memory image of an [n]-byte integer, and the integer of an image. *)
Definition mem_image (n : nat) (z : Z) : list byte :=
  match host_order with LittleEndian => le_bytes n z | BigEndian => be_bytes n z end.

Definition image_value (bs : list byte) : Z :=
  match host_order with LittleEndian => le_value bs | BigEndian => le_value (rev bs) end.

(** [hton n] converts an [n]-byte host integer to network order: it swaps
    the bytes on a little-endian host and is the identity on the other. *)
Definition hton (n : nat) (z : Z) : Z :=
  match host_order with
  | LittleEndian => le_value (rev (le_bytes n z))
  | BigEndian => le_value (le_bytes n z)
  end.

Definition htonl : Z -> Z := hton 4.
Definition htons : Z -> Z := hton 2.
Definition ntohl : Z -> Z := hton 4.
Definition ntohs : Z -> Z := hton 2.

Lemma length_mem_image n z : length (mem_image n z) = n.
Proof.
  unfold mem_image, be_bytes. destruct host_order; rewrite ?length_rev; apply length_le_bytes.
Qed.

Lemma zlen_mem_image n z : zlen (mem_image n z) = Z.of_nat n.
Proof. unfold zlen. by rewrite length_mem_image. Qed.

(** Whatever the host, the image of a converted integer is big-endian. *)
Lemma mem_image_hton n z : mem_image n (hton n z) = be_bytes n z.
Proof.
  unfold mem_image, hton, be_bytes. destruct host_order.
  - rewrite <- (length_le_bytes n z) at 1. rewrite <- length_rev. apply le_bytes_value.
  - f_equal. rewrite <- (length_le_bytes n z) at 1. apply le_bytes_value.
Qed.

Lemma hton_image_value n bs :
  length bs = n -> hton n (image_value bs) = le_value (rev bs).
Proof.
  intros <-. unfold hton, image_value. destruct host_order.
  - by rewrite le_bytes_value.
  - rewrite <- length_rev at 1. by rewrite le_bytes_value.
Qed.

(** The conversions only depend on the low [n] bytes. *)
Lemma mem_image_signed n half z :
  0 < half -> 2 * half = 256 ^ Z.of_nat n -> mem_image n (signed half z) = mem_image n z.
Proof.
  intros Hh Hn. assert (le_bytes n (signed half z) = le_bytes n z) as E.
  { rewrite <- (le_bytes_mod n (signed half z)), <- (le_bytes_mod n z), <- Hn.
    unfold signed. f_equal. rewrite Zminus_mod_idemp_l. f_equal. lia. }
  unfold mem_image, be_bytes. by rewrite E.
Qed.
End ByteOrder.

(** Decoding a big-endian image gives the integer back, modulo its width. *)
Lemma be_value_bytes n z : le_value (rev (be_bytes n z)) = z mod 256 ^ Z.of_nat n.
Proof. unfold be_bytes. by rewrite rev_involutive, le_value_bytes. Qed.

Lemma length_be_bytes n z : length (be_bytes n z) = n.
Proof. unfold be_bytes. by rewrite length_rev, length_le_bytes. Qed.

Lemma zlen_be_bytes n z : zlen (be_bytes n z) = Z.of_nat n.
Proof. unfold zlen. by rewrite length_be_bytes. Qed.

(** ** C strings *)

(** What [printf("%s")] and [strdup] read of a buffer: the bytes before its first
    zero, which it must hold. *)
Fixpoint c_string (buf : list byte) : option (list byte) :=
  match buf with
  | [] => None
  | b :: buf' => if decide (b = Byte.x00) then Some [] else cons b <$> c_string buf'
  end.

Definition nonzero (l : list byte) : Prop := Forall (fun b => b <> Byte.x00) l.

Lemma c_string_nonzero l r : nonzero l -> c_string (l ++ Byte.x00 :: r) = Some l.
Proof.
  induction 1 as [|b l Hb _ IH]; cbn; [done|]. rewrite decide_False by done. by rewrite IH.
Qed.

Lemma c_string_unterminated l : nonzero l -> c_string l = None.
Proof. induction 1 as [|b l Hb _ IH]; cbn; [done|]. rewrite decide_False by done. by rewrite IH. Qed.

Lemma c_string_last pre : exists t, c_string (pre ++ [Byte.x00]) = Some t.
Proof.
  induction pre as [|b pre [t IH]]; cbn; [by eexists|]. case_decide; [by eexists|]. rewrite IH. by eexists.
Qed.

(** Writing at the front leaves the last byte. *)
Lemma splice_front {A} (data pre : list A) x :
  zlen data <= zlen pre -> splice 0 data (pre ++ [x]) = (data ++ drop (length data) pre) ++ [x].
Proof.
  intros Hd. unfold splice. change (Z.to_nat 0) with 0%nat. cbn [take Nat.add app].
  rewrite drop_app_le by (unfold zlen in *; lia). by rewrite <- app_assoc.
Qed.
