(* ===== verification/Buffer.v ===== *)
(** * Buffer: the byte buffer of netlib (Buffer.hpp, Buffer.cpp)

    A vector of bytes with a read index and a write index.  Pointers into the
    vector are offsets from [begin()].  Every operation is a [prog Buffer]:
    its asserts and the bounds of its copies are checked, so that a proof of
    [runs] shows that none of them fails. *)

From S2P Require Import Prelude Bytes.

(** ** Data *)

Record Buffer := mkBuffer {
  buffer_ : list byte;
  readerIndex_ : Z;
  writerIndex_ : Z
}.

Definition kCheapPrepend : Z := 8.
Definition kInitialSize : Z := 1024.
Definition kCRLF : list byte := [Byte.x0d; Byte.x0a].

Definition with_buffer (m : list byte) (b : Buffer) : Buffer :=
  mkBuffer m (readerIndex_ b) (writerIndex_ b).
Definition with_readerIndex (r : Z) (b : Buffer) : Buffer :=
  mkBuffer (buffer_ b) r (writerIndex_ b).
Definition with_writerIndex (w : Z) (b : Buffer) : Buffer :=
  mkBuffer (buffer_ b) (readerIndex_ b) w.

(** ** The part of std::vector and <cstring> the class uses *)

Definition vector_max_size : Z := two63 - 1.

(** [vector::resize]: new elements are zero. *)
Definition vector_resize (n : Z) (m : list byte) : result (list byte) :=
  if vector_max_size <? n then Err LengthError
  else Ok (take (Z.to_nat n) m ++ replicate (Z.to_nat n - length m) Byte.x00).

Fixpoint starts_with (pat l : list byte) : bool :=
  match pat, l with
  | [], _ => true
  | p :: pat', x :: l' => bool_decide (p = x) && starts_with pat' l'
  | _ :: _, [] => false
  end.

(** [std::search]: the offset of the first occurrence, or the length. *)
Fixpoint std_search (pat l : list byte) : Z :=
  if starts_with pat l then 0
  else match l with
       | [] => 0
       | _ :: l' => 1 + std_search pat l'
       end.

(** [memchr]: scans [n] bytes from the start of [l], stopping at a match;
    leaving the storage before a match is undefined. *)
Fixpoint memchr (c : byte) (n : nat) (l : list byte) : result (option Z) :=
  match n with
  | O => Ok None
  | S n' =>
      match l with
      | [] => Err (Undefined OutOfBounds)
      | x :: l' =>
          if decide (x = c) then Ok (Some 0)
          else match memchr c n' l' with
               | Ok o => Ok (Z.add 1 <$> o)
               | Err f => Err f
               end
      end
  end.

(** ** Queries *)

Definition size (b : Buffer) : Z := zlen (buffer_ b).
Definition readableBytes (b : Buffer) : Z := writerIndex_ b ⊖ readerIndex_ b.
Definition writableBytes (b : Buffer) : Z := size b ⊖ writerIndex_ b.
Definition prependableBytes (b : Buffer) : Z := readerIndex_ b.
Definition peek (b : Buffer) : Z := readerIndex_ b.
Definition beginWrite (b : Buffer) : Z := writerIndex_ b.

Definition Buffer_init : Buffer :=
  mkBuffer (replicate (Z.to_nat (kCheapPrepend + kInitialSize)) Byte.x00)
    kCheapPrepend kCheapPrepend.

(** [Buffer::Buffer()] *)
Definition Buffer_ctor : result Buffer :=
  let b := Buffer_init in
  if (readableBytes b =? 0) && (writableBytes b =? kInitialSize)
     && (prependableBytes b =? kCheapPrepend)
  then Ok b else Err AssertionFailed.

Definition swap : prog (Buffer * Buffer) unit :=
  modify (fun '(b, rhs) =>
    (mkBuffer (buffer_ rhs) (readerIndex_ rhs) (writerIndex_ rhs),
     mkBuffer (buffer_ b) (readerIndex_ b) (writerIndex_ b))).

Definition read_at (off len : Z) : prog Buffer (list byte) :=
  b ← get_st; lift (mem_read off len (buffer_ b)).

Definition write_at (off : Z) (data : list byte) : prog Buffer unit :=
  b ← get_st; m ← lift (mem_write off data (buffer_ b)); modify (with_buffer m).

(** [findCRLF(start)]; a null result is [None]. *)
Definition findCRLF_from (start : Z) : prog Buffer (option Z) :=
  b ← get_st;
  assert_ (peek b <=? start) ;;
  assert_ (start <=? beginWrite b) ;;
  bs ← read_at start (beginWrite b - start);
  let crlf := start + std_search kCRLF bs in
  mret (if crlf =? beginWrite b then None else Some crlf).

Definition findCRLF : prog Buffer (option Z) :=
  b ← get_st;
  bs ← read_at (peek b) (beginWrite b - peek b);
  let crlf := peek b + std_search kCRLF bs in
  mret (if crlf =? beginWrite b then None else Some crlf).

Definition kEOL : byte := Byte.x0a.

Definition findEOL : prog Buffer (option Z) :=
  b ← get_st;
  o ← lift (memchr kEOL (Z.to_nat (readableBytes b)) (drop (Z.to_nat (peek b)) (buffer_ b)));
  mret (Z.add (peek b) <$> o).

Definition findEOL_from (start : Z) : prog Buffer (option Z) :=
  b ← get_st;
  assert_ (peek b <=? start) ;;
  assert_ (start <=? beginWrite b) ;;
  o ← lift (memchr kEOL (Z.to_nat (readableBytes b)) (drop (Z.to_nat start) (buffer_ b)));
  mret (Z.add start <$> o).

(** ** Consuming *)

Definition retrieveAll : prog Buffer unit :=
  modify (fun b => with_writerIndex kCheapPrepend (with_readerIndex kCheapPrepend b)).

Definition retrieve (len : Z) : prog Buffer unit :=
  b ← get_st;
  assert_ (len <=? readableBytes b) ;;
  if len <? readableBytes b
  then modify (fun b => with_readerIndex (readerIndex_ b ⊕ len) b)
  else retrieveAll.

Definition retrieveUntil (end_ : Z) : prog Buffer unit :=
  b ← get_st;
  assert_ (peek b <=? end_) ;;
  assert_ (end_ <=? beginWrite b) ;;
  retrieve (end_ ⊖ peek b).

Definition retrieveInt32 : prog Buffer unit := retrieve 4.
Definition retrieveInt16 : prog Buffer unit := retrieve 2.
Definition retrieveInt8 : prog Buffer unit := retrieve 1.

Definition retrieveAsString (len : Z) : prog Buffer (list byte) :=
  b ← get_st;
  assert_ (len <=? readableBytes b) ;;
  result ← read_at (peek b) len;
  retrieve len ;;
  mret result.

Definition retrieveAllAsString : prog Buffer (list byte) :=
  b ← get_st; retrieveAsString (readableBytes b).

(** ** Producing *)

Definition makeSpace (len : Z) : prog Buffer unit :=
  b ← get_st;
  if writableBytes b ⊕ prependableBytes b <? len ⊕ kCheapPrepend
  then m ← lift (vector_resize (writerIndex_ b ⊕ len) (buffer_ b));
       modify (with_buffer m)
  else
    assert_ (kCheapPrepend <? readerIndex_ b) ;;
    let readable := readableBytes b in
    moved ← read_at (readerIndex_ b) (writerIndex_ b - readerIndex_ b);
    write_at kCheapPrepend moved ;;
    modify (fun b => with_writerIndex (kCheapPrepend ⊕ readable)
                       (with_readerIndex kCheapPrepend b)) ;;
    b' ← get_st;
    assert_ (readable =? readableBytes b').

Definition ensureWritableBytes (len : Z) : prog Buffer unit :=
  b ← get_st;
  when_ (writableBytes b <? len) (makeSpace len) ;;
  b' ← get_st;
  assert_ (len <=? writableBytes b').

Definition hasWritten (len : Z) : prog Buffer unit :=
  b ← get_st;
  assert_ (len <=? writableBytes b) ;;
  modify (fun b => with_writerIndex (writerIndex_ b ⊕ len) b).

Definition unwrite (len : Z) : prog Buffer unit :=
  b ← get_st;
  assert_ (len <=? readableBytes b) ;;
  modify (fun b => with_writerIndex (writerIndex_ b ⊖ len) b).

(** [append(data, len)]: [data] is the storage the pointer points to. *)
Definition append (data : list byte) (len : Z) : prog Buffer unit :=
  ensureWritableBytes len ;;
  b ← get_st;
  src ← lift (mem_read 0 len data);
  write_at (beginWrite b) src ;;
  hasWritten len.

Definition prepend (data : list byte) (len : Z) : prog Buffer unit :=
  b ← get_st;
  assert_ (len <=? prependableBytes b) ;;
  modify (fun b => with_readerIndex (readerIndex_ b ⊖ len) b) ;;
  b' ← get_st;
  src ← lift (mem_read 0 len data);
  write_at (readerIndex_ b') src.

(** ** Integers in network byte order *)

Section Integers.
Context `{Host}.

Definition appendInt32 (x : Z) : prog Buffer unit :=
  let be32 := int32 (htonl (uint32 x)) in append (mem_image 4 be32) 4.
Definition appendInt16 (x : Z) : prog Buffer unit :=
  let be16 := int16 (htons (uint16 x)) in append (mem_image 2 be16) 2.
Definition appendInt8 (x : Z) : prog Buffer unit := append (mem_image 1 x) 1.

Definition peekInt32 : prog Buffer Z :=
  b ← get_st;
  assert_ (4 <=? readableBytes b) ;;
  bs ← read_at (peek b) 4;
  let be32 := int32 (image_value bs) in
  mret (int32 (ntohl (uint32 be32))).
Definition peekInt16 : prog Buffer Z :=
  b ← get_st;
  assert_ (2 <=? readableBytes b) ;;
  bs ← read_at (peek b) 2;
  let be16 := int16 (image_value bs) in
  mret (int16 (ntohs (uint16 be16))).
Definition peekInt8 : prog Buffer Z :=
  b ← get_st;
  assert_ (1 <=? readableBytes b) ;;
  bs ← read_at (peek b) 1;
  mret (int8 (image_value bs)).

Definition readInt32 : prog Buffer Z :=
  result ← peekInt32; retrieveInt32 ;; mret result.
Definition readInt16 : prog Buffer Z :=
  result ← peekInt16; retrieveInt16 ;; mret result.
Definition readInt8 : prog Buffer Z :=
  result ← peekInt8; retrieveInt8 ;; mret result.

Definition prependInt32 (x : Z) : prog Buffer unit :=
  let be32 := int32 (htonl (uint32 x)) in prepend (mem_image 4 be32) 4.
Definition prependInt16 (x : Z) : prog Buffer unit :=
  let be16 := int16 (htons (uint16 x)) in prepend (mem_image 2 be16) 2.
Definition prependInt8 (x : Z) : prog Buffer unit := prepend (mem_image 1 x) 1.
End Integers.

(** ** Reading from a descriptor (Buffer.cpp)

    [readv fd lens k] is the system call on buffers of the given lengths; its
    bytes fill the buffers in order.  [readFd] returns the result of the call
    and, on an error, the value stored through [savedErrno]. *)

Definition extrabuf_size : Z := 65536.

Definition readFd_iov (writable : Z) : list Z :=
  if writable <? extrabuf_size then [writable; extrabuf_size] else [writable].

Definition readFd {K} (readv : Z -> list Z -> K -> sysres (list byte) * K) (fd : Z)
  : prog (Buffer * K) (Z * option Z) :=
  '(b, k) ← get_st;
  let writable := writableBytes b in
  let '(r, k') := readv fd (readFd_iov writable) k in
  modify (fun '(b, _) => (b, k')) ;;
  match r with
  | SysErr errno => mret (-1, Some errno)
  | SysOk data =>
      let n := zlen data in
      zoom fst (fun b '(_, k) => (b, k)) (
        write_at (writerIndex_ b) (take (Z.to_nat writable) data) ;;
        if n <=? writable
        then modify (fun b => with_writerIndex (writerIndex_ b ⊕ n) b)
        else modify (fun b => with_writerIndex (size b) b) ;;
             append (drop (Z.to_nat writable) data) (n ⊖ writable)) ;;
      mret (n, None)
  end.
