(* ===== verification/BufferSpec.v ===== *)
(** * BufferSpec: correctness of the buffer

    The invariant [wf], the abstraction [contents] (the readable bytes), the
    specification of every operation as a [runs] judgement, and the refinement
    of a plain byte queue. *)

From S2P Require Import Prelude Bytes Buffer.

(** ** Invariant and abstraction *)

Record wf (b : Buffer) : Prop := mkWf {
  wf_reader : 0 <= readerIndex_ b;
  wf_order : readerIndex_ b <= writerIndex_ b;
  wf_writer : writerIndex_ b <= size b;
  wf_min : kCheapPrepend + kInitialSize <= size b;
  wf_max : size b <= vector_max_size
}.

Create HintDb buffer_db.
#[export] Hint Constructors wf : buffer_db.

Definition contents (b : Buffer) : list byte :=
  slice (readerIndex_ b) (writerIndex_ b - readerIndex_ b) (buffer_ b).

(** Opens [wf] hypotheses and the constants they mention. *)
Ltac open_wf :=
  repeat match goal with H : wf _ |- _ => destruct H end;
  unfold readableBytes, writableBytes, prependableBytes, peek, beginWrite, size,
    vector_max_size, kCheapPrepend, kInitialSize in *; cbn in *.
Ltac wf_lia := open_wf; size_t_lia.

Lemma readableBytes_wf b : wf b -> readableBytes b = writerIndex_ b - readerIndex_ b.
Proof. intros Hb. wf_lia. Qed.

Lemma writableBytes_wf b : wf b -> writableBytes b = size b - writerIndex_ b.
Proof. intros Hb. wf_lia. Qed.

Lemma zlen_contents b : wf b -> zlen (contents b) = readableBytes b.
Proof. intros Hb. unfold contents. rewrite zlen_slice; wf_lia. Qed.

Lemma readableBytes_zlen b : wf b -> readableBytes b = zlen (contents b).
Proof. intros. by rewrite zlen_contents. Qed.

Lemma runs_read_at off len b (Q : list byte -> Buffer -> Prop) :
  0 <= off -> 0 <= len -> off + len <= size b ->
  runs (read_at off len) b Q <-> Q (slice off len (buffer_ b)) b.
Proof.
  intros. unfold read_at. rewrite runs_bind, runs_get.
  rewrite mem_read_Ok by done. by rewrite runs_lift_Ok.
Qed.

Lemma runs_write_at off data b (Q : unit -> Buffer -> Prop) :
  0 <= off -> off + zlen data <= size b ->
  runs (write_at off data) b Q <-> Q tt (with_buffer (splice off data (buffer_ b)) b).
Proof.
  intros. unfold write_at. rewrite runs_bind, runs_get, mem_write_Ok by done.
  by rewrite runs_bind, runs_lift_Ok, runs_modify.
Qed.

Lemma size_with_splice off data b :
  0 <= off -> off + zlen data <= size b ->
  size (with_buffer (splice off data (buffer_ b)) b) = size b.
Proof. intros. unfold size. cbn. by apply zlen_splice. Qed.

(** ** Construction *)

Lemma wf_init : wf Buffer_init.
Proof. constructor; vm_compute; congruence. Qed.

Lemma contents_init : contents Buffer_init = [].
Proof. reflexivity. Qed.

Lemma size_init : size Buffer_init = 1032.
Proof. reflexivity. Qed.
#[export] Hint Resolve wf_init : buffer_db.

(** ** Consuming operations *)

Lemma contents_drop b k :
  wf b -> 0 <= k <= readableBytes b ->
  contents (with_readerIndex (readerIndex_ b + k) b) = drop (Z.to_nat k) (contents b).
Proof.
  intros Hb Hk. rewrite readableBytes_wf in Hk by done. unfold contents. cbn.
  destruct Hb. rewrite drop_slice by lia. f_equal. lia.
Qed.

Lemma contents_take b k :
  wf b -> 0 <= k <= readableBytes b ->
  contents (with_writerIndex (readerIndex_ b + k) b) = take (Z.to_nat k) (contents b).
Proof.
  intros Hb Hk. rewrite readableBytes_wf in Hk by done. unfold contents. cbn.
  destruct Hb. rewrite take_slice by lia. f_equal. lia.
Qed.

Lemma retrieveAll_spec b :
  wf b -> runs retrieveAll b (fun _ b' =>
    wf b' /\ contents b' = [] /\ buffer_ b' = buffer_ b /\ readerIndex_ b' = kCheapPrepend).
Proof.
  intros Hb. unfold retrieveAll. rewrite runs_modify. repeat split; try done; wf_lia.
Qed.

Lemma retrieve_spec len b :
  wf b -> 0 <= len <= readableBytes b ->
  runs (retrieve len) b (fun _ b' =>
    wf b' /\ contents b' = drop (Z.to_nat len) (contents b) /\ buffer_ b' = buffer_ b
    /\ readerIndex_ b' = if len <? readableBytes b then readerIndex_ b + len else kCheapPrepend).
Proof.
  intros Hb Hlen. unfold retrieve. run_step. run_step. run_step. rewrite runs_assert.
  rewrite Z.leb_le. split; [lia|]. destruct (Z.ltb_spec len (readableBytes b)).
  - rewrite runs_modify. rewrite size_t_small by (wf_lia).
    rewrite contents_drop by (done || lia).
    split; [|done]. rewrite readableBytes_wf in * by done. destruct Hb.
    constructor; unfold size in *; cbn; lia.
  - eapply runs_mono; [by apply retrieveAll_spec|]. cbn. intros _ b' (Hwf & -> & Hbuf & ->).
    repeat split; [apply Hwf..| |done]. symmetry. apply drop_ge.
    pose proof (zlen_contents b Hb). unfold zlen in *. lia.
Qed.

Lemma retrieve_fails len b : readableBytes b < len -> ends (retrieve len) b AssertionFailed.
Proof.
  intros. unfold ends, retrieve, mbind, prog_bind, get_st, assert_.
  by rewrite (proj2 (Z.leb_gt _ _)).
Qed.

Lemma retrieveUntil_spec e b :
  wf b -> readerIndex_ b <= e <= writerIndex_ b ->
  runs (retrieveUntil e) b (fun _ b' =>
    wf b' /\ contents b' = drop (Z.to_nat (e - readerIndex_ b)) (contents b)
    /\ buffer_ b' = buffer_ b).
Proof.
  intros Hb He. unfold retrieveUntil. run_steps. rewrite runs_assert. run_steps.
  rewrite runs_assert. rewrite !Z.leb_le. unfold peek, beginWrite.
  repeat split; [lia..|]. rewrite size_t_small by wf_lia.
  eapply runs_mono; [apply retrieve_spec; [done|]|cbn; tauto].
  rewrite readableBytes_wf by done. lia.
Qed.

Lemma retrieveAsString_spec len b :
  wf b -> 0 <= len <= readableBytes b ->
  runs (retrieveAsString len) b (fun s b' =>
    wf b' /\ s = take (Z.to_nat len) (contents b)
    /\ contents b' = drop (Z.to_nat len) (contents b) /\ buffer_ b' = buffer_ b
    /\ readerIndex_ b' = if len <? readableBytes b then readerIndex_ b + len else kCheapPrepend).
Proof.
  intros Hb Hlen. pose proof (readableBytes_wf b Hb). unfold retrieveAsString. run_steps.
  rewrite runs_assert, Z.leb_le. split; [lia|]. run_steps.
  rewrite runs_read_at by (destruct Hb; unfold peek; lia). cbn beta.
  run_using (retrieve_spec len b); [done..|].
  intros _ b' (Hwf & Hc & Hbuf). rewrite runs_ret. split; [done|]. split; [|done].
  unfold contents, peek. destruct Hb. by rewrite take_slice by lia.
Qed.

Lemma retrieveAllAsString_spec b :
  wf b -> runs retrieveAllAsString b (fun s b' =>
    wf b' /\ s = contents b /\ contents b' = [] /\ buffer_ b' = buffer_ b).
Proof.
  intros Hb. unfold retrieveAllAsString. run_steps.
  pose proof (zlen_contents b Hb) as Hz. pose proof (zlen_nonneg (contents b)).
  run_using (retrieveAsString_spec (readableBytes b) b); [done|lia|].
  intros s b' (Hwf & -> & -> & Hbuf & _). unfold zlen in Hz.
  rewrite take_ge, drop_ge by lia. done.
Qed.

(** ** Producing operations *)

(** The request fits: room is made without growing, or the vector can grow. *)
Definition fits (b : Buffer) (len : Z) : Prop :=
  writableBytes b + readerIndex_ b < len + kCheapPrepend -> writerIndex_ b + len <= vector_max_size.

(** [makeSpace] keeps the data and leaves [len] writable bytes: by growing the
    vector when the free space at both ends is too small, and otherwise by
    moving the data to the front. *)
Lemma makeSpace_spec len b :
  wf b -> writableBytes b < len <= vector_max_size -> fits b len ->
  runs (makeSpace len) b (fun _ b' =>
    wf b' /\ contents b' = contents b /\ len <= writableBytes b'
    /\ writerIndex_ b' <= writerIndex_ b
    /\ if decide (writableBytes b + readerIndex_ b < len + kCheapPrepend)
       then readerIndex_ b' = readerIndex_ b /\ size b' = writerIndex_ b + len
       else readerIndex_ b' = kCheapPrepend /\ size b' = size b).
Proof.
  intros Hb Hlen Hmax. unfold fits in Hmax. pose proof (writableBytes_wf b Hb) as Hw. pose proof Hb as [].
  unfold makeSpace. run_steps. unfold prependableBytes.
  assert (vector_max_size = two63 - 1) as Hvm by done. assert (kCheapPrepend = 8) as Hk by done.
  assert (kInitialSize = 1024) as Hi by done.
  rewrite !size_t_small by lia.
  destruct (Z.ltb_spec (writableBytes b + readerIndex_ b) (len + kCheapPrepend)) as [Hlt|Hge].
  - unfold vector_resize. rewrite (proj2 (Z.ltb_ge _ _)) by lia. run_steps.
    destruct (decide _) as [_|]; [|lia].
    set (m := take _ _ ++ _).
    assert (zlen m = writerIndex_ b + len) as Hm.
    { unfold m, size, zlen in *. rewrite length_app, length_take, length_replicate. lia. }
    assert (wf (with_buffer m b)) as Hwf.
    { unfold size in *. constructor; unfold size; cbn; lia. }
    repeat split; [apply Hwf..| | |cbn; lia|by unfold size; cbn].
    + unfold contents. cbn. unfold m. unfold size, zlen in *.
      rewrite take_ge by lia. rewrite slice_app_l; [done|lia|unfold zlen; lia].
    + rewrite writableBytes_wf by done. unfold size. cbn. lia.
  - destruct (decide _) as [|_]; [lia|]. run_steps. rewrite runs_assert, Z.ltb_lt.
    split; [lia|]. run_steps. rewrite runs_read_at by lia. cbn beta.
    fold (contents b). pose proof (zlen_contents b Hb) as Hc.
    rewrite readableBytes_wf in * by done.
    rewrite runs_bind, runs_write_at by lia. run_steps. rewrite runs_assert.
    rewrite size_t_small by lia.
    set (b' := with_writerIndex _ _).
    assert (size b' = size b) as Hs by (unfold size; cbn; rewrite zlen_splice; [done|lia|unfold size in *; lia]).
    assert (wf b') as Hwf by (constructor; rewrite ?Hs; cbn; lia).
    rewrite (readableBytes_wf b') by done. rewrite Z.eqb_eq. cbn [b' readerIndex_ writerIndex_ with_writerIndex with_readerIndex].
    repeat split; try (cbn; lia); [apply Hwf..| |].
    + unfold contents at 1. cbn.
      replace (kCheapPrepend + (writerIndex_ b - readerIndex_ b) - kCheapPrepend)
        with (zlen (contents b)) by lia.
      apply slice_splice_same; unfold size in *; lia.
    + rewrite writableBytes_wf, Hs by done. cbn. lia.
Qed.

#[export] Instance fits_dec b len : Decision (fits b len).
Proof. unfold fits. apply _. Defined.

(** A vector that cannot grow throws. *)
Lemma makeSpace_too_long len b :
  wf b -> 0 <= len <= vector_max_size -> ~ fits b len -> ends (makeSpace len) b LengthError.
Proof.
  intros Hb Hlen Hfit. pose proof (writableBytes_wf b Hb) as Hw. pose proof Hb as [].
  unfold ends, makeSpace, mbind, prog_bind, get_st. unfold prependableBytes.
  assert (vector_max_size = two63 - 1) as Hvm by done. assert (kCheapPrepend = 8) as Hk by done.
  unfold fits in Hfit. rewrite !size_t_small by lia.
  rewrite (proj2 (Z.ltb_lt _ _)) by lia. unfold vector_resize.
  by rewrite (proj2 (Z.ltb_lt _ _)) by lia.
Qed.

(** A sum that wraps around shrinks the vector below the write index; the last
    assert does not notice. *)
Lemma ensure_wraps len b :
  wf b -> 0 <= len < two64 -> two64 <= writerIndex_ b + len ->
  writableBytes b + prependableBytes b < len ⊕ kCheapPrepend ->
  runs (ensureWritableBytes len) b (fun _ b' =>
    size b' = writerIndex_ b + len - two64 /\ size b' < writerIndex_ b' /\
    writableBytes b' = len /\ ~ wf b').
Proof.
  intros Hb Hlen Hsum Hroom. pose proof (writableBytes_wf b Hb) as Hw. pose proof Hb as [].
  unfold vector_max_size, kInitialSize, prependableBytes in *.
  unfold ensureWritableBytes. run_steps. rewrite runs_when, (proj2 (Z.ltb_lt _ _)) by lia.
  unfold makeSpace. run_steps. unfold prependableBytes. rewrite (size_t_small (writableBytes b + _)) by lia.
  rewrite (proj2 (Z.ltb_lt _ _)) by lia.
  assert (writerIndex_ b ⊕ len = writerIndex_ b + len - two64) as ->.
  { unfold size_t. rewrite <- (Z.mod_add _ (-1)) by lia. rewrite Z.mod_small; lia. }
  unfold vector_resize, vector_max_size. rewrite (proj2 (Z.ltb_ge _ _)) by lia. run_steps.
  set (b' := with_buffer _ b).
  assert (size b' = writerIndex_ b + len - two64) as Hs.
  { unfold size, zlen in *. cbn. rewrite length_app, length_take, length_replicate. lia. }
  assert (writableBytes b' = len) as Hw'.
  { unfold writableBytes. rewrite Hs. cbn.
    replace (writerIndex_ b + len - two64 - writerIndex_ b) with (len + -1 * two64) by lia.
    unfold size_t. rewrite Z.mod_add by lia. rewrite Z.mod_small; lia. }
  rewrite runs_assert, Z.leb_le. repeat split; try (cbn; lia).
  intros []. cbn in *. lia.
Qed.

(** The bound on the size of the vector after an append of [len] bytes. *)
Definition grown_size (b : Buffer) (len : Z) : Z :=
  Z.max (size b) (readableBytes b + 2 * len + kCheapPrepend).

(** An append may move the data down to [kCheapPrepend], but not below. *)
Definition headroom_kept (b b' : Buffer) : Prop :=
  Z.min (readerIndex_ b) kCheapPrepend <= readerIndex_ b'.

(** Either there is room already or it can be made. *)
Record roomy (b : Buffer) (len : Z) : Prop := mkRoomy {
  room_len : 0 <= len <= vector_max_size;
  room_fits : writableBytes b < len -> fits b len
}.

Lemma roomy_short b len : wf b -> 0 <= len -> writerIndex_ b + len <= vector_max_size -> roomy b len.
Proof. intros [] **. split; [lia|]. intros _ _. lia. Qed.

Lemma ensureWritableBytes_spec len b :
  wf b -> roomy b len ->
  runs (ensureWritableBytes len) b (fun _ b' =>
    wf b' /\ contents b' = contents b /\ len <= writableBytes b'
    /\ size b' <= grown_size b len /\ headroom_kept b b').
Proof.
  intros Hb [Hlen Hfit]. unfold ensureWritableBytes. run_steps. rewrite runs_when.
  pose proof (writableBytes_wf b Hb). pose proof (readableBytes_wf b Hb).
  unfold grown_size, headroom_kept.
  destruct (Z.ltb_spec (writableBytes b) len).
  - eapply runs_mono; [apply makeSpace_spec; [done|lia|by apply Hfit]|].
    cbn beta. intros _ b' (Hwf & Hc & Hl & _ & Hd).
    run_steps. rewrite runs_assert, Z.leb_le.
    do 4 (split; [done|]). pose proof Hb as []. case_decide; lia.
  - run_steps. rewrite runs_assert, Z.leb_le. repeat split; try done; try apply Hb; lia.
Qed.

Lemma hasWritten_runs len b (Q : unit -> Buffer -> Prop) :
  wf b -> 0 <= len <= writableBytes b ->
  runs (hasWritten len) b Q <-> Q tt (with_writerIndex (writerIndex_ b + len) b).
Proof.
  intros Hb Hlen. unfold hasWritten. run_steps. rewrite runs_assert, runs_modify.
  rewrite size_t_small by (wf_lia). rewrite Z.leb_le. intuition lia.
Qed.

(** Storing right after the readable bytes and advancing the write index. *)
Lemma extend_spec data b :
  wf b -> zlen data <= writableBytes b ->
  let b' := with_writerIndex (writerIndex_ b + zlen data)
              (with_buffer (splice (writerIndex_ b) data (buffer_ b)) b) in
  wf b' /\ contents b' = contents b ++ data /\ size b' = size b.
Proof.
  intros Hb Hlen. rewrite writableBytes_wf in Hlen by done. pose proof (zlen_nonneg data).
  pose proof Hb as []. cbn zeta. set (b' := with_writerIndex _ _).
  assert (size b' = size b) as Hs by (unfold size; cbn; apply zlen_splice; unfold size in *; lia).
  split; [constructor; rewrite ?Hs; cbn; lia|]. split; [|done].
  unfold contents. cbn.
  replace (writerIndex_ b + zlen data - readerIndex_ b)
    with (writerIndex_ b - readerIndex_ b + zlen data) by lia.
  apply slice_splice_extend; unfold size in *; lia.
Qed.

Lemma append_roomy data len b :
  wf b -> len <= zlen data -> roomy b len ->
  runs (append data len) b (fun _ b' =>
    wf b' /\ contents b' = contents b ++ take (Z.to_nat len) data
    /\ size b' <= grown_size b len /\ headroom_kept b b').
Proof.
  intros Hb Hdata Hroom. pose proof (room_len b len Hroom) as Hlen.
  unfold append. run_using (ensureWritableBytes_spec len b); [done|done|].
  intros _ b1 (Hb1 & Hc1 & Hw1 & Hs1 & Hh1). run_steps.
  rewrite mem_read_Ok by lia. run_steps.
  set (d := slice 0 len data).
  assert (zlen d = len) as Hd by (apply zlen_slice; lia).
  assert (d = take (Z.to_nat len) data) as Hd' by done.
  pose proof (writableBytes_wf b1 Hb1). pose proof (extend_spec d b1 Hb1) as Hext.
  unfold beginWrite. pose proof Hb1 as [].
  rewrite runs_write_at by lia.
  destruct Hext as (Hb2 & Hc2 & Hs2); [lia|]. rewrite Hd in *.
  rewrite hasWritten_runs.
  - rewrite Hc1 in Hc2. rewrite Hd' in *. repeat split; [apply Hb2..|done| |done].
    etrans; [apply Z.eq_le_incl, Hs2|done].
  - constructor; unfold size in *; cbn; rewrite ?zlen_splice by lia; lia.
  - split; [lia|]. unfold writableBytes. cbn [writerIndex_ with_buffer].
    rewrite size_with_splice by lia. fold (writableBytes b1). done.
Qed.

Lemma append_spec data len b :
  wf b -> 0 <= len <= zlen data -> writerIndex_ b + len <= vector_max_size ->
  runs (append data len) b (fun _ b' =>
    wf b' /\ contents b' = contents b ++ take (Z.to_nat len) data
    /\ size b' <= grown_size b len /\ headroom_kept b b').
Proof. intros Hb Hlen Hmax. apply append_roomy; [done|lia|]. apply roomy_short; [done|lia|done]. Qed.

(** The common case: the whole of [data] is appended. *)
Lemma append_all_spec data b :
  wf b -> writerIndex_ b + zlen data <= vector_max_size ->
  runs (append data (zlen data)) b (fun _ b' =>
    wf b' /\ contents b' = contents b ++ data /\ size b' <= grown_size b (zlen data)
    /\ headroom_kept b b').
Proof.
  intros Hb Hmax. pose proof (zlen_nonneg data). eapply runs_mono; [apply append_spec; [done|lia|done]|].
  cbn beta. intros _ b'. rewrite take_ge; [done|unfold zlen; lia].
Qed.

Lemma unwrite_spec len b :
  wf b -> 0 <= len <= readableBytes b ->
  runs (unwrite len) b (fun _ b' =>
    wf b' /\ contents b' = take (Z.to_nat (readableBytes b - len)) (contents b)
    /\ buffer_ b' = buffer_ b /\ readerIndex_ b' = readerIndex_ b).
Proof.
  intros Hb Hlen. unfold unwrite. run_steps. rewrite runs_assert, Z.leb_le, runs_modify.
  split; [lia|]. pose proof (readableBytes_wf b Hb). pose proof Hb as [].
  rewrite size_t_small by wf_lia.
  rewrite <- contents_take by (done || lia).
  replace (readerIndex_ b + (readableBytes b - len)) with (writerIndex_ b - len) by lia.
  repeat split; try done; unfold size in *; cbn; lia.
Qed.

Lemma prepend_spec data len b :
  wf b -> 0 <= len <= zlen data -> len <= prependableBytes b ->
  runs (prepend data len) b (fun _ b' =>
    wf b' /\ contents b' = take (Z.to_nat len) data ++ contents b
    /\ size b' = size b /\ readerIndex_ b' = readerIndex_ b - len).
Proof.
  intros Hb Hlen Hpre. unfold prepend. run_steps. rewrite runs_assert, Z.leb_le.
  split; [done|]. run_steps. rewrite mem_read_Ok by lia. run_steps.
  unfold prependableBytes in Hpre. rewrite size_t_small by wf_lia. pose proof Hb as [].
  set (d := slice 0 len data).
  assert (zlen d = len) as Hd by (apply zlen_slice; lia).
  rewrite runs_write_at by (unfold size in *; cbn; lia).
  set (b' := with_buffer _ _).
  assert (size b' = size b) as Hs.
  { unfold size. cbn. apply zlen_splice; unfold size in *; lia. }
  split; [constructor; rewrite ?Hs; cbn; lia|]. split; [|done].
  unfold contents at 1. cbn.
  rewrite slice_splice_prepend by (unfold size in *; lia). fold d.
  unfold contents. f_equal. rewrite Hd. f_equal; lia.
Qed.

(** ** Integers in network order *)

Section IntegerSpecs.
Context `{Host}.

(** What [append] stores for an integer of [n] bytes is its big-endian image. *)
Lemma encode_image n half x :
  0 < half -> 2 * half = 256 ^ Z.of_nat n ->
  mem_image n (signed half (hton n (x mod (2 * half)))) = be_bytes n x.
Proof.
  intros Hh Hn. rewrite mem_image_signed, mem_image_hton by done.
  unfold be_bytes. by rewrite Hn, le_bytes_mod.
Qed.

(** What [peek] computes from [n] bytes is their big-endian value. *)
Lemma decode_image n half bs :
  0 < half -> 2 * half = 256 ^ Z.of_nat n -> length bs = n ->
  hton n (signed half (image_value bs) mod (2 * half)) = le_value (rev bs).
Proof.
  intros Hh Hn Hl. replace (signed half (image_value bs) mod (2 * half)) with (image_value bs).
  { by apply hton_image_value. }
  assert (0 <= image_value bs < 2 * half) as Hr.
  { rewrite Hn, <- Hl. unfold image_value. destruct host_order.
    - apply le_value_range.
    - pose proof (le_value_range (rev bs)) as Hv. unfold zlen in Hv. by rewrite length_rev in Hv. }
  unfold signed. rewrite Zminus_mod_idemp_l. rewrite Z.mod_small; lia.
Qed.

(** One proof for the three widths: appending, prepending and peeking. *)
Lemma append_image_spec n img x b :
  img = be_bytes n x -> wf b -> writerIndex_ b + Z.of_nat n <= vector_max_size ->
  runs (append img (Z.of_nat n)) b (fun _ b' =>
    wf b' /\ contents b' = contents b ++ be_bytes n x /\ size b' <= grown_size b (Z.of_nat n)
    /\ headroom_kept b b').
Proof.
  intros -> Hb Hmax. pose proof (append_all_spec (be_bytes n x) b Hb) as Happ.
  rewrite zlen_be_bytes in Happ. auto.
Qed.

Lemma prepend_image_spec n img x b :
  img = be_bytes n x -> wf b -> Z.of_nat n <= prependableBytes b ->
  runs (prepend img (Z.of_nat n)) b (fun _ b' =>
    wf b' /\ contents b' = be_bytes n x ++ contents b /\ size b' = size b
    /\ readerIndex_ b' = readerIndex_ b - Z.of_nat n).
Proof.
  intros -> Hb Hpre. pose proof (zlen_be_bytes n x) as Hz.
  eapply runs_mono; [apply prepend_spec; [done|lia|done]|]. cbn beta. intros _ b'.
  unfold zlen in Hz. rewrite take_ge by lia. done.
Qed.

Lemma appendInt32_spec x b :
  wf b -> writerIndex_ b + 4 <= vector_max_size ->
  runs (appendInt32 x) b (fun _ b' =>
    wf b' /\ contents b' = contents b ++ be_bytes 4 x /\ size b' <= grown_size b 4
    /\ headroom_kept b b').
Proof. intros. apply (append_image_spec 4); [by apply (encode_image 4 two31)|done..]. Qed.

Lemma appendInt16_spec x b :
  wf b -> writerIndex_ b + 2 <= vector_max_size ->
  runs (appendInt16 x) b (fun _ b' =>
    wf b' /\ contents b' = contents b ++ be_bytes 2 x /\ size b' <= grown_size b 2
    /\ headroom_kept b b').
Proof. intros. apply (append_image_spec 2); [by apply (encode_image 2 two15)|done..]. Qed.

Lemma mem_image_1 x : mem_image 1 x = be_bytes 1 x.
Proof. unfold mem_image, be_bytes. by destruct host_order. Qed.

Lemma appendInt8_spec x b :
  wf b -> writerIndex_ b + 1 <= vector_max_size ->
  runs (appendInt8 x) b (fun _ b' =>
    wf b' /\ contents b' = contents b ++ be_bytes 1 x /\ size b' <= grown_size b 1
    /\ headroom_kept b b').
Proof. intros. apply (append_image_spec 1); [apply mem_image_1|done..]. Qed.

Lemma prependInt32_spec x b :
  wf b -> 4 <= prependableBytes b ->
  runs (prependInt32 x) b (fun _ b' =>
    wf b' /\ contents b' = be_bytes 4 x ++ contents b /\ size b' = size b
    /\ readerIndex_ b' = readerIndex_ b - 4).
Proof. intros. apply (prepend_image_spec 4); [by apply (encode_image 4 two31)|done..]. Qed.

Lemma prependInt16_spec x b :
  wf b -> 2 <= prependableBytes b ->
  runs (prependInt16 x) b (fun _ b' =>
    wf b' /\ contents b' = be_bytes 2 x ++ contents b /\ size b' = size b
    /\ readerIndex_ b' = readerIndex_ b - 2).
Proof. intros. apply (prepend_image_spec 2); [by apply (encode_image 2 two15)|done..]. Qed.

Lemma prependInt8_spec x b :
  wf b -> 1 <= prependableBytes b ->
  runs (prependInt8 x) b (fun _ b' =>
    wf b' /\ contents b' = be_bytes 1 x ++ contents b /\ size b' = size b
    /\ readerIndex_ b' = readerIndex_ b - 1).
Proof. intros. apply (prepend_image_spec 1); [apply mem_image_1|done..]. Qed.

(** The first [n] readable bytes, as read by the peek operations. *)
Lemma peek_slice n b :
  wf b -> Z.of_nat n <= readableBytes b ->
  slice (peek b) (Z.of_nat n) (buffer_ b) = take n (contents b)
  /\ length (take n (contents b)) = n
  /\ 0 <= peek b /\ peek b + Z.of_nat n <= size b.
Proof.
  intros Hb Hn. pose proof (zlen_contents b Hb) as Hz. rewrite readableBytes_wf in * by done.
  pose proof Hb as []. unfold contents in *. unfold peek.
  rewrite <- (Nat2Z.id n) at 2. rewrite take_slice by lia. rewrite length_take.
  unfold zlen in Hz. repeat split; try done; lia.
Qed.

Lemma peekInt32_runs b (Q : Z -> Buffer -> Prop) :
  wf b -> 4 <= readableBytes b ->
  runs peekInt32 b Q <-> Q (int32 (le_value (rev (take 4 (contents b))))) b.
Proof.
  intros Hb Hn. destruct (peek_slice 4 b Hb Hn) as (Hs & Hl & Hp1 & Hp2).
  change (Z.of_nat 4) with 4 in *. unfold peekInt32. run_steps. rewrite runs_assert, Z.leb_le. run_steps.
  rewrite runs_read_at by lia. cbn beta zeta. rewrite Hs. run_steps.
  pose proof (decode_image 4 two31 (take 4 (contents b)) eq_refl eq_refl Hl
    : ntohl (uint32 (int32 (image_value (take 4 (contents b))))) = _) as ->. tauto.
Qed.

Lemma peekInt16_runs b (Q : Z -> Buffer -> Prop) :
  wf b -> 2 <= readableBytes b ->
  runs peekInt16 b Q <-> Q (int16 (le_value (rev (take 2 (contents b))))) b.
Proof.
  intros Hb Hn. destruct (peek_slice 2 b Hb Hn) as (Hs & Hl & Hp1 & Hp2).
  change (Z.of_nat 2) with 2 in *. unfold peekInt16. run_steps. rewrite runs_assert, Z.leb_le. run_steps.
  rewrite runs_read_at by lia. cbn beta zeta. rewrite Hs. run_steps.
  pose proof (decode_image 2 two15 (take 2 (contents b)) eq_refl eq_refl Hl
    : ntohs (uint16 (int16 (image_value (take 2 (contents b))))) = _) as ->. tauto.
Qed.

Lemma peekInt8_runs b (Q : Z -> Buffer -> Prop) :
  wf b -> 1 <= readableBytes b ->
  runs peekInt8 b Q <-> Q (int8 (le_value (rev (take 1 (contents b))))) b.
Proof.
  intros Hb Hn. destruct (peek_slice 1 b Hb Hn) as (Hs & Hl & Hp1 & Hp2).
  change (Z.of_nat 1) with 1 in *. unfold peekInt8. run_steps. rewrite runs_assert, Z.leb_le. run_steps.
  rewrite runs_read_at by lia. cbn beta zeta. rewrite Hs. run_steps.
  destruct (take 1 (contents b)) as [|x [|y l]]; [done| |done].
  unfold image_value. destruct host_order; cbn [rev app]; tauto.
Qed.

(** Reading consumes exactly the bytes that were peeked. *)
Lemma readInt_spec n (pk : prog Buffer Z) v b :
  (forall Q : Z -> Buffer -> Prop, runs pk b Q <-> Q v b) ->
  wf b -> Z.of_nat n <= readableBytes b ->
  runs (r ← pk; retrieve (Z.of_nat n) ;; mret r) b (fun r b' =>
    r = v /\ wf b' /\ contents b' = drop n (contents b) /\ buffer_ b' = buffer_ b
    /\ readerIndex_ b' = if Z.of_nat n <? readableBytes b
                         then readerIndex_ b + Z.of_nat n else kCheapPrepend).
Proof.
  intros Hpk Hb Hn. rewrite runs_bind, Hpk. run_using (retrieve_spec (Z.of_nat n) b); [done|lia|].
  intros _ b' (Hwf & Hc & Hbuf & Hr). rewrite runs_ret. by rewrite Hc, Nat2Z.id.
Qed.

Lemma readInt32_spec b :
  wf b -> 4 <= readableBytes b ->
  runs readInt32 b (fun r b' =>
    r = int32 (le_value (rev (take 4 (contents b)))) /\ wf b'
    /\ contents b' = drop 4 (contents b) /\ buffer_ b' = buffer_ b
    /\ readerIndex_ b' = if 4 <? readableBytes b
                         then readerIndex_ b + 4 else kCheapPrepend).
Proof. intros. apply (readInt_spec 4); [intros; by apply peekInt32_runs|done..]. Qed.

Lemma readInt16_spec b :
  wf b -> 2 <= readableBytes b ->
  runs readInt16 b (fun r b' =>
    r = int16 (le_value (rev (take 2 (contents b)))) /\ wf b'
    /\ contents b' = drop 2 (contents b) /\ buffer_ b' = buffer_ b
    /\ readerIndex_ b' = if 2 <? readableBytes b
                         then readerIndex_ b + 2 else kCheapPrepend).
Proof. intros. apply (readInt_spec 2); [intros; by apply peekInt16_runs|done..]. Qed.

Lemma readInt8_spec b :
  wf b -> 1 <= readableBytes b ->
  runs readInt8 b (fun r b' =>
    r = int8 (le_value (rev (take 1 (contents b)))) /\ wf b'
    /\ contents b' = drop 1 (contents b) /\ buffer_ b' = buffer_ b
    /\ readerIndex_ b' = if 1 <? readableBytes b
                         then readerIndex_ b + 1 else kCheapPrepend).
Proof. intros. apply (readInt_spec 1); [intros; by apply peekInt8_runs|done..]. Qed.
End IntegerSpecs.

(** Decoding the image of a value that fits its signed type. *)
Lemma decode_be_bytes n half x rest :
  0 < half -> 2 * half = 256 ^ Z.of_nat n -> - half <= x < half ->
  signed half (le_value (rev (take n (be_bytes n x ++ rest)))) = x.
Proof.
  intros Hh Hn Hx. rewrite take_app_length' by (by rewrite length_be_bytes).
  rewrite be_value_bytes, <- Hn. by apply signed_uint.
Qed.

Lemma drop_be_bytes n x rest : drop n (be_bytes n x ++ rest) = rest.
Proof. apply drop_app_length'. by rewrite length_be_bytes. Qed.

(** ** Searching *)

Lemma starts_with_app pat l : starts_with pat l = true <-> exists l', l = pat ++ l'.
Proof.
  revert l. induction pat as [|p pat IH]; intros l; cbn.
  { split; [by exists l|done]. }
  destruct l as [|x l]; [split; [done|by intros [? ?]]|].
  rewrite andb_true_iff, bool_decide_eq_true, IH. split.
  - intros [-> [l' ->]]. by exists l'.
  - intros [l' [= -> ->]]. eauto.
Qed.

(** The position returned is in range, and it is the first occurrence. *)
Lemma std_search_spec pat l (Hpat : pat <> []) :
  let n := std_search pat l in
  0 <= n <= zlen l
  /\ (n < zlen l -> starts_with pat (drop (Z.to_nat n) l) = true)
  /\ (forall i, (Z.of_nat i < n) -> starts_with pat (drop i l) = false).
Proof.
  cbn zeta. induction l as [|x l (IH1 & IH2 & IH3)].
  { destruct pat; [done|]. change (zlen (@nil byte)) with 0. cbn. repeat split; intros; lia. }
  cbn [std_search]. destruct (starts_with pat (x :: l)) eqn:E.
  { pose proof (zlen_nonneg (x :: l)). repeat split; [lia..|done|lia]. }
  assert (zlen (x :: l) = 1 + zlen l) as Hz by (unfold zlen; cbn [length]; lia).
  rewrite Hz. repeat split; [lia..| |].
  - intros Hlt. replace (Z.to_nat (1 + std_search pat l)) with (S (Z.to_nat (std_search pat l))) by lia.
    cbn. apply IH2. lia.
  - intros [|i] Hi; [done|]. cbn. apply IH3. lia.
Qed.

Lemma memchr_in_storage c n l :
  (n <= length l)%nat ->
  exists o, memchr c n l = Ok o /\
  match o with
  | Some i => 0 <= i < Z.of_nat n /\ l !! Z.to_nat i = Some c
              /\ forall j, (Z.of_nat j < i) -> l !! j <> Some c
  | None => forall j, (j < n)%nat -> l !! j <> Some c
  end.
Proof.
  revert l. induction n as [|n IH]; intros l Hl; cbn [memchr]; [exists None; split; [done|lia]|].
  destruct l as [|x l]; [cbn in *; lia|]. destruct (decide (x = c)) as [->|Hne].
  { exists (Some 0). repeat split; [lia..| ]. intros j ?. lia. }
  destruct (IH l) as (o & -> & Ho); [cbn in *; lia|]. exists (Z.add 1 <$> o). split; [done|].
  destruct o as [i|]; cbn.
  - destruct Ho as (Hi & Hl' & Hj).
    repeat split; [lia..| |].
    + by replace (Z.to_nat (1 + i)) with (S (Z.to_nat i)) by lia.
    + intros [|j] ?; cbn; [congruence|]. apply Hj. lia.
  - intros [|j] ?; cbn; [congruence|]. apply Ho. lia.
Qed.

(** ** Reading from a descriptor *)

Definition sum_Z (l : list Z) : Z := foldr Z.add 0 l.

(** [readv] never stores more than the buffers it was given can hold. *)
Definition readv_bounded {K} (readv : Z -> list Z -> K -> sysres (list byte) * K) : Prop :=
  forall fd lens k data k', Forall (Z.le 0) lens ->
    readv fd lens k = (SysOk data, k') -> zlen data <= sum_Z lens.

Lemma readFd_iov_nonneg w : 0 <= w -> Forall (Z.le 0) (readFd_iov w).
Proof. intros. unfold readFd_iov. destruct (w <? extrabuf_size); repeat constructor; done. Qed.

Lemma readFd_iov_sum w :
  sum_Z (readFd_iov w) = if w <? extrabuf_size then w + extrabuf_size else w.
Proof. unfold readFd_iov, sum_Z. destruct (w <? extrabuf_size); cbn; lia. Qed.

(** The part of [readFd] after the system call has stored [data]. *)
Lemma readFd_commit_spec data b :
  wf b -> zlen data <= writableBytes b + extrabuf_size ->
  size b + extrabuf_size <= vector_max_size ->
  runs (write_at (writerIndex_ b) (take (Z.to_nat (writableBytes b)) data) ;;
        if zlen data <=? writableBytes b
        then modify (fun b => with_writerIndex (writerIndex_ b ⊕ zlen data) b)
        else modify (fun b => with_writerIndex (size b) b) ;;
             append (drop (Z.to_nat (writableBytes b)) data) (zlen data ⊖ writableBytes b)) b
    (fun _ b' => wf b' /\ contents b' = contents b ++ data /\ headroom_kept b b'
       /\ size b' <= Z.max (size b) (readableBytes b + 2 * zlen data + kCheapPrepend)).
Proof.
  intros Hb Hlen Hmax. pose proof (writableBytes_wf b Hb) as Hw. pose proof Hb as [].
  pose proof (zlen_nonneg data). unfold extrabuf_size, vector_max_size in *.
  assert (zlen (take (Z.to_nat (writableBytes b)) data) = Z.min (writableBytes b) (zlen data)) as Ht.
  { unfold zlen. rewrite length_take. lia. }
  pose proof (extend_spec (take (Z.to_nat (writableBytes b)) data) b Hb) as Hext.
  rewrite Ht in Hext. destruct Hext as (Hwf & Hc & Hs); [lia|].
  rewrite runs_bind, runs_write_at by lia.
  destruct (Z.leb_spec (zlen data) (writableBytes b)).
  - rewrite runs_modify. cbn [writerIndex_ with_buffer]. rewrite size_t_small by lia.
    replace (Z.min (writableBytes b) (zlen data)) with (zlen data) in * by lia.
    rewrite take_ge in * by (unfold zlen in *; lia).
    repeat split; try apply Hwf; [done|unfold headroom_kept; cbn; lia|lia].
  - rewrite runs_bind, runs_modify. rewrite size_with_splice by lia.
    replace (Z.min (writableBytes b) (zlen data)) with (writableBytes b) in * by lia.
    replace (writerIndex_ b + writableBytes b) with (size b) in * by lia.
    rewrite size_t_small by lia. set (b1 := with_writerIndex (size b) _) in *.
    assert (zlen (drop (Z.to_nat (writableBytes b)) data) = zlen data - writableBytes b) as Hd.
    { unfold zlen in *. rewrite length_drop. lia. }
    rewrite <- Hd.
    eapply runs_mono; [apply append_all_spec; [done|]|].
    { rewrite Hd. unfold vector_max_size. subst b1. cbn. lia. }
    cbn beta. intros _ b' (Hwf' & Hc' & Hs' & Hh'). split; [done|].
    rewrite Hc', Hc, <- app_assoc, take_drop. split; [done|].
    split; [done|]. unfold grown_size in Hs'. rewrite Hd, Hs in Hs'.
    pose proof (readableBytes_wf b1 Hwf) as Hr1. pose proof (readableBytes_wf b Hb).
    cbn in Hr1. lia.
Qed.

Lemma readFd_spec {K} (readv : Z -> list Z -> K -> sysres (list byte) * K) fd b k r k' :
  wf b -> readv_bounded readv -> size b + extrabuf_size <= vector_max_size ->
  readv fd (readFd_iov (writableBytes b)) k = (r, k') ->
  runs (readFd readv fd) (b, k) (fun '(n, saved) '(b', k'') =>
    k'' = k' /\
    match r with
    | SysErr e => n = -1 /\ saved = Some e /\ b' = b
    | SysOk data =>
        n = zlen data /\ saved = None /\ wf b' /\ contents b' = contents b ++ data
        /\ headroom_kept b b'
        /\ size b' <= Z.max (size b) (readableBytes b + 2 * zlen data + kCheapPrepend)
    end).
Proof.
  intros Hb Hbound Hmax Hr. unfold readFd. rewrite runs_bind, runs_get, Hr.
  rewrite runs_bind, runs_modify. destruct r as [data|e]; [|by rewrite runs_ret].
  pose proof (writableBytes_wf b Hb). pose proof Hb as [].
  assert (zlen data <= writableBytes b + extrabuf_size) as Hd.
  { apply Hbound in Hr; [|apply readFd_iov_nonneg; lia]. rewrite readFd_iov_sum in Hr. unfold extrabuf_size in *.
    destruct (_ <? _); lia. }
  rewrite runs_bind, runs_zoom. cbn [fst].
  eapply runs_mono; [by apply readFd_commit_spec|]. cbn beta.
  intros _ b' (Hwf & Hc & Hh & Hs). by rewrite runs_ret.
Qed.
