(* ===== verification/BufferTheorems.v ===== *)
(** * BufferTheorems: the properties of the buffer

    The refinement of a byte queue with headroom by [Buffer], and the
    properties of the single operations a user of the class relies on. *)

From S2P Require Import Prelude Bytes Buffer BufferSpec.

(** ** The abstract byte queue

    Its state is the bytes queued, a headroom the buffer is guaranteed to have
    for [prepend], and the number of bytes that have entered it so far. *)

Record queue := mkQueue { q_bytes : list byte; q_headroom : Z; q_entered : Z }.

Inductive op :=
  | OpAppend (d : list byte)
  | OpAppendInt32 (x : Z)
  | OpPrepend (d : list byte)
  | OpRetrieve (n : Z)
  | OpRetrieveAsString (n : Z)
  | OpRetrieveAll
  | OpUnwrite (n : Z)
  | OpPeekInt32
  | OpReadInt32
  | OpFindCRLF
  | OpFindEOL.

Inductive obs :=
  | ONone
  | OBytes (l : list byte)
  | OInt (z : Z)
  | OPos (o : option Z).   (* distance from the first readable byte *)

Definition q_enter (n : Z) (q : queue) (l : list byte) (h : Z) : queue :=
  mkQueue l h (q_entered q + n).

Definition q_drop (n : Z) (q : queue) : queue :=
  mkQueue (drop (Z.to_nat n) (q_bytes q))
    (if n <? zlen (q_bytes q) then q_headroom q + n else kCheapPrepend) (q_entered q).

Definition q_append (d : list byte) (q : queue) : queue :=
  q_enter (zlen d) q (q_bytes q ++ d) (Z.min (q_headroom q) kCheapPrepend).

(** The first position in [l] from which [f] holds. *)
Fixpoint first_pos (f : list byte -> bool) (l : list byte) : option Z :=
  match l with
  | [] => None
  | _ :: l' => if f l then Some 0 else Z.add 1 <$> first_pos f l'
  end.

Definition at_crlf (l : list byte) : bool :=
  match l with x :: y :: _ => bool_decide (x = Byte.x0d /\ y = Byte.x0a) | _ => false end.
Definition at_eol (l : list byte) : bool :=
  match l with x :: _ => bool_decide (x = Byte.x0a) | _ => false end.

(** [None]: the operation is used outside its precondition. *)
Definition spec_step (o : op) (q : queue) : option (obs * queue) :=
  let l := q_bytes q in
  let in_range n := (0 <=? n) && (n <=? zlen l) in
  match o with
  | OpAppend d => Some (ONone, q_append d q)
  | OpAppendInt32 x => Some (ONone, q_append (be_bytes 4 x) q)
  | OpPrepend d =>
      if zlen d <=? q_headroom q
      then Some (ONone, q_enter (zlen d) q (d ++ l) (q_headroom q - zlen d)) else None
  | OpRetrieve n => if in_range n then Some (ONone, q_drop n q) else None
  | OpRetrieveAsString n =>
      if in_range n then Some (OBytes (take (Z.to_nat n) l), q_drop n q) else None
  | OpRetrieveAll => Some (OBytes l, mkQueue [] kCheapPrepend (q_entered q))
  | OpUnwrite n =>
      if in_range n
      then Some (ONone, mkQueue (take (Z.to_nat (zlen l - n)) l) (q_headroom q) (q_entered q))
      else None
  | OpPeekInt32 =>
      if in_range 4 then Some (OInt (int32 (le_value (rev (take 4 l)))), q) else None
  | OpReadInt32 =>
      if in_range 4 then Some (OInt (int32 (le_value (rev (take 4 l)))), q_drop 4 q) else None
  | OpFindCRLF => Some (OPos (first_pos at_crlf l), q)
  | OpFindEOL => Some (OPos (first_pos at_eol l), q)
  end.

Fixpoint spec_run (os : list op) (q : queue) : option (list obs * queue) :=
  match os with
  | [] => Some ([], q)
  | o :: os' =>
      '(x, q') ← spec_step o q; '(xs, q'') ← spec_run os' q'; Some (x :: xs, q'')
  end.

Section Refinement.
Context `{Host}.

Definition run_op (o : op) : prog Buffer obs :=
  match o with
  | OpAppend d => append d (zlen d) ;; mret ONone
  | OpAppendInt32 x => appendInt32 x ;; mret ONone
  | OpPrepend d => prepend d (zlen d) ;; mret ONone
  | OpRetrieve n => retrieve n ;; mret ONone
  | OpRetrieveAsString n => s ← retrieveAsString n; mret (OBytes s)
  | OpRetrieveAll => s ← retrieveAllAsString; mret (OBytes s)
  | OpUnwrite n => unwrite n ;; mret ONone
  | OpPeekInt32 => x ← peekInt32; mret (OInt x)
  | OpReadInt32 => x ← readInt32; mret (OInt x)
  | OpFindCRLF => b ← get_st; o ← findCRLF; mret (OPos ((fun p => p - peek b) <$> o))
  | OpFindEOL => b ← get_st; o ← findEOL; mret (OPos ((fun p => p - peek b) <$> o))
  end.

Fixpoint run_ops (os : list op) : prog Buffer (list obs) :=
  match os with
  | [] => mret []
  | o :: os' => x ← run_op o; xs ← run_ops os'; mret (x :: xs)
  end.

Record represents (q : queue) (b : Buffer) : Prop := mkRep {
  rep_wf : wf b;
  rep_bytes : contents b = q_bytes q;
  rep_headroom : q_headroom q <= readerIndex_ b;
  rep_entered : zlen (q_bytes q) <= q_entered q;
  rep_size : size b <= 1032 + 2 * q_entered q
}.

(** *** Searching *)

Lemma std_search_first_pos l :
  first_pos at_crlf l
  = (if std_search kCRLF l =? zlen l then None else Some (std_search kCRLF l))
  /\ 0 <= std_search kCRLF l <= zlen l.
Proof.
  split; [|by apply (std_search_spec kCRLF l)].
  induction l as [|x l IH]; [done|]. cbn [first_pos std_search].
  assert (starts_with kCRLF (x :: l) = at_crlf (x :: l)) as E.
  { cbn. destruct l as [|y l]; cbn; [by rewrite andb_false_r|].
    rewrite andb_true_r. repeat case_bool_decide; naive_solver. }
  rewrite E. assert (zlen (x :: l) = 1 + zlen l) as Hz by (unfold zlen; cbn [length]; lia).
  rewrite Hz. pose proof (zlen_nonneg l). destruct (at_crlf (x :: l)).
  { destruct (Z.eqb_spec 0 (1 + zlen l)); [lia|done]. }
  rewrite IH. destruct (Z.eqb_spec (std_search kCRLF l) (zlen l)) as [Heq|Hne].
  - rewrite Heq, Z.eqb_refl. done.
  - destruct (Z.eqb_spec (1 + std_search kCRLF l) (1 + zlen l)); [lia|done].
Qed.

Lemma memchr_first_pos l rest :
  memchr kEOL (length l) (l ++ rest) = Ok (first_pos at_eol l).
Proof.
  induction l as [|x l IH]; [done|]. cbn [length app memchr first_pos at_eol]. rewrite IH.
  unfold kEOL in *. case_decide; case_bool_decide; done.
Qed.

(** [findCRLF] returns the first CRLF of the readable bytes, or null. *)
Lemma findCRLF_runs b (Q : option Z -> Buffer -> Prop) :
  wf b -> runs findCRLF b Q <-> Q (Z.add (peek b) <$> first_pos at_crlf (contents b)) b.
Proof.
  intros Hb. unfold findCRLF. run_steps. pose proof Hb as [].
  rewrite runs_read_at by (unfold peek, beginWrite; lia). cbn beta zeta.
  unfold peek, beginWrite. fold (contents b). rewrite runs_ret.
  destruct (std_search_first_pos (contents b)) as [-> Hr].
  pose proof (zlen_contents b Hb). rewrite readableBytes_wf in * by done.
  destruct (Z.eqb_spec (std_search kCRLF (contents b)) (zlen (contents b)));
    destruct (Z.eqb_spec (readerIndex_ b + std_search kCRLF (contents b)) (writerIndex_ b));
    done || lia.
Qed.

Lemma storage_split b :
  wf b -> drop (Z.to_nat (peek b)) (buffer_ b)
          = contents b ++ drop (Z.to_nat (writerIndex_ b)) (buffer_ b).
Proof.
  intros []. unfold contents, slice, peek. unfold size, zlen in *.
  rewrite <- (take_drop (Z.to_nat (writerIndex_ b - readerIndex_ b))
                (drop (Z.to_nat (readerIndex_ b)) (buffer_ b))) at 1.
  f_equal. rewrite drop_drop. f_equal. lia.
Qed.

Lemma findEOL_runs b (Q : option Z -> Buffer -> Prop) :
  wf b -> runs findEOL b Q <-> Q (Z.add (peek b) <$> first_pos at_eol (contents b)) b.
Proof.
  intros Hb. unfold findEOL. run_steps. rewrite storage_split by done.
  rewrite <- zlen_contents by done. unfold zlen. rewrite Nat2Z.id, memchr_first_pos.
  by run_steps.
Qed.

Lemma fmap_sub_add (p : Z) (o : option Z) :
  (fun q => q - p) <$> (Z.add p <$> o) = o.
Proof. destruct o as [z|]; cbn; [f_equal; lia|done]. Qed.

(** *** Every operation is simulated *)

Lemma append_represents q b d b' :
  represents q b -> wf b' -> contents b' = contents b ++ d ->
  size b' <= grown_size b (zlen d) -> headroom_kept b b' ->
  represents (q_append d q) b'.
Proof.
  intros [Hb Hc Hh He Hs] Hwf Hc' Hs' Hh'. unfold grown_size, headroom_kept in *.
  rewrite readableBytes_zlen, Hc in Hs' by done. pose proof (zlen_nonneg d).
  pose proof (zlen_nonneg (q_bytes q)).
  change kCheapPrepend with 8 in *.
  constructor; cbn; rewrite ?zlen_app; [done|congruence|change kCheapPrepend with 8; lia|lia|lia].
Qed.

Lemma drop_represents q b n b' :
  represents q b -> 0 <= n <= zlen (q_bytes q) ->
  wf b' -> contents b' = drop (Z.to_nat n) (contents b) -> buffer_ b' = buffer_ b ->
  readerIndex_ b' = (if n <? readableBytes b then readerIndex_ b + n else kCheapPrepend) ->
  represents (q_drop n q) b'.
Proof.
  intros [Hb Hc Hh He Hs] Hn Hwf Hc' Hbuf Hr. rewrite readableBytes_zlen, Hc in Hr by done.
  constructor; cbn; [done|congruence| | |].
  - rewrite Hr. destruct (n <? _); lia.
  - unfold zlen in *. rewrite length_drop. lia.
  - unfold size in *. by rewrite Hbuf.
Qed.

(** A step of the specification with a budget is matched by the buffer. *)
Lemma run_op_represents o q x q' b :
  represents q b -> spec_step o q = Some (x, q') -> q_entered q' <= 2 ^ 61 ->
  runs (run_op o) b (fun y b' => y = x /\ represents q' b').
Proof.
  intros Hrep Hstep Hbudget. pose proof Hrep as [Hb Hc Hh He Hs].
  pose proof (zlen_contents b Hb) as Hz. rewrite Hc in Hz.
  pose proof (zlen_nonneg (q_bytes q)) as Hn0. pose proof Hb as [].
  assert (vector_max_size = two63 - 1) as Hvm by done.
  destruct o; cbn [run_op spec_step] in *;
    repeat match type of Hstep with
    | (if ?c then _ else _) = _ => destruct c eqn:Hcond; [|done]
    end;
    simplify_eq; cbn [q_append q_enter q_entered] in Hbudget;
    try rewrite andb_true_iff, !Z.leb_le in Hcond.
  - pose proof (zlen_nonneg d). run_using (append_all_spec d b); [done|lia|].
    intros _ b' (?&?&?&?). rewrite runs_ret. split; [done|]. by eapply append_represents.
  - rewrite zlen_be_bytes in Hbudget. run_using (appendInt32_spec x0 b); [done|lia|].
    intros _ b' (?&?&?&?). rewrite runs_ret. split; [done|].
    eapply append_represents; [done..|by rewrite zlen_be_bytes|done].
  - apply Z.leb_le in Hcond. pose proof (zlen_nonneg d).
    run_using (prepend_spec d (zlen d) b); [done|lia|unfold prependableBytes; lia|].
    intros _ b' (Hwf & Hc' & Hs' & Hr'). rewrite runs_ret. split; [done|].
    rewrite take_ge in Hc' by (unfold zlen; lia).
    constructor; cbn; rewrite ?zlen_app; [done|congruence|lia|lia|lia].
  - run_using (retrieve_spec n b); [done|lia|].
    intros _ b' (?&?&?&?). rewrite runs_ret. split; [done|]. eapply drop_represents; eauto; lia.
  - run_using (retrieveAsString_spec n b); [done|lia|].
    intros s b' (?&->&?&?&?). rewrite runs_ret. rewrite Hc. split; [done|].
    eapply drop_represents; eauto; lia.
  - unfold retrieveAllAsString. run_steps.
    run_using (retrieveAsString_spec (readableBytes b) b); [done|lia|].
    intros s b' (Hwf&->&Hc'&Hbuf&Hr). rewrite runs_ret. rewrite Hc in *. rewrite <- Hz in *.
    unfold zlen in Hc' |- *. rewrite take_ge by lia. rewrite drop_ge in Hc' by lia.
    rewrite Z.ltb_irrefl in Hr. split; [done|].
    constructor; cbn; [done|done|by rewrite Hr|unfold zlen in *; cbn; lia|unfold size in *; by rewrite Hbuf].
  - run_using (unwrite_spec n b); [done|lia|].
    intros _ b' (Hwf&Hc'&Hbuf&Hr). rewrite runs_ret. split; [done|].
    constructor; cbn; [done|congruence|by rewrite Hr| |unfold size in *; by rewrite Hbuf].
    unfold zlen in *. rewrite length_take. lia.
  - rewrite runs_bind, peekInt32_runs by (done || lia). rewrite runs_ret. by rewrite Hc.
  - run_using (readInt32_spec b); [done|lia|]. intros r b' (->&?&?&?&?).
    rewrite runs_ret, Hc. split; [done|]. eapply drop_represents; eauto; lia.
  - run_steps. rewrite findCRLF_runs by done. by rewrite runs_ret, fmap_sub_add, Hc.
  - run_steps. rewrite findEOL_runs by done. by rewrite runs_ret, fmap_sub_add, Hc.
Qed.

Lemma spec_step_entered o q x q' : spec_step o q = Some (x, q') -> q_entered q <= q_entered q'.
Proof.
  destruct o; cbn [spec_step]; repeat case_match; intros; simplify_eq; cbn; try lia;
    match goal with |- context [zlen ?l] => pose proof (zlen_nonneg l); lia end.
Qed.

Lemma spec_run_entered os q xs q' : spec_run os q = Some (xs, q') -> q_entered q <= q_entered q'.
Proof.
  revert q xs. induction os as [|o os IH]; intros q xs; cbn; intros Hrun; simplify_eq; [lia|].
  apply bind_Some in Hrun as ([x q1] & Hstep & Hrun).
  apply bind_Some in Hrun as ([ys q2] & Hrun & [= <- <-]).
  apply spec_step_entered in Hstep. apply IH in Hrun. lia.
Qed.

Lemma run_ops_represents os q xs q' b :
  represents q b -> spec_run os q = Some (xs, q') -> q_entered q' <= 2 ^ 61 ->
  runs (run_ops os) b (fun ys b' => ys = xs /\ represents q' b').
Proof.
  revert q xs b. induction os as [|o os IH]; intros q xs b Hrep; cbn; intros Hrun Hbudget.
  { simplify_eq. by split. }
  apply bind_Some in Hrun as ([x q1] & Hstep & Hrun).
  apply bind_Some in Hrun as ([ys q2] & Hrun & [= <- <-]).
  pose proof (spec_run_entered _ _ _ _ Hrun).
  run_using run_op_represents; [done..|lia|]. intros y b' [-> Hrep'].
  run_using IH; [done..|]. intros zs b'' [-> Hrep'']. by rewrite runs_ret.
Qed.
End Refinement.

Definition q_init : queue := mkQueue [] kCheapPrepend 0.

Lemma represents_init : represents q_init Buffer_init.
Proof. constructor; [apply wf_init|done..]. Qed.

(** ** Properties *)

(** C1: the buffer refines the byte queue.  Every sequence of operations that
    the queue specification allows (each operation inside its precondition, at
    most 2^61 bytes in total) runs on a fresh [Buffer] without a failed assert,
    an out-of-bounds copy or an exception, gives the results of the
    specification, and ends in a well-formed buffer that holds its bytes and
    whose storage is at most 1032 bytes plus twice what was put in. *)
Theorem buffer_refines_queue `{Host} os xs q :
  spec_run os q_init = Some (xs, q) -> q_entered q <= 2 ^ 61 ->
  runs (run_ops os) Buffer_init (fun ys b =>
    ys = xs /\ wf b /\ contents b = q_bytes q /\ size b <= 1032 + 2 * q_entered q).
Proof.
  intros Hrun Hbudget. eapply runs_mono; [by eapply run_ops_represents; [apply represents_init|..]|].
  cbn beta. by intros ys b [-> []].
Qed.

Lemma buffer_refines_queue_witness :
  let _ : Host := LittleEndian in
  runs (run_ops [OpAppendInt32 7; OpAppend kCRLF; OpFindCRLF; OpReadInt32; OpRetrieveAll])
    Buffer_init (fun ys b =>
      ys = [ONone; ONone; OPos (Some 4); OInt 7; OBytes kCRLF] /\ wf b
      /\ contents b = [] /\ size b <= 1032 + 2 * 6).
Proof.
  apply (buffer_refines_queue (H := LittleEndian) _ _ (mkQueue [] 8 6)); [reflexivity|].
  cbn. lia.
Defined.

(** C36: reading from a descriptor appends exactly what the kernel delivered.
    For any [readv] that respects the lengths it is given, [readFd] ends without
    a fault; on an error it returns -1, saves [errno] and leaves the buffer as it
    was; otherwise it returns the number of bytes and they follow the old
    contents, whether they fitted the free space or spilled into [extrabuf]. *)
Theorem readFd_appends_received {K} (readv : Z -> list Z -> K -> sysres (list byte) * K) fd b k :
  wf b -> readv_bounded readv -> size b + extrabuf_size <= vector_max_size ->
  runs (readFd readv fd) (b, k) (fun '(n, saved) '(b', k') =>
    match readv fd (readFd_iov (writableBytes b)) k with
    | (SysErr e, k1) => k' = k1 /\ n = -1 /\ saved = Some e /\ b' = b
    | (SysOk data, k1) =>
        k' = k1 /\ n = zlen data /\ saved = None /\ wf b' /\ contents b' = contents b ++ data
        /\ size b' <= Z.max (size b) (readableBytes b + 2 * zlen data + kCheapPrepend)
    end).
Proof.
  intros Hb Hbound Hmax. destruct (readv fd (readFd_iov (writableBytes b)) k) as [r k1] eqn:Hr.
  eapply runs_mono; [by apply (readFd_spec readv fd b k r k1)|]. cbn beta.
  intros [n saved] [b' k']. destruct r; tauto.
Qed.

(** A descriptor that delivers the bytes it holds, up to the space offered. *)
Definition readv_stream (fd : Z) (lens : list Z) (k : list byte) : sysres (list byte) * list byte :=
  (SysOk (take (Z.to_nat (sum_Z lens)) k), drop (Z.to_nat (sum_Z lens)) k).

Lemma zlen_take_sum lens (k : list byte) :
  Forall (Z.le 0) lens -> zlen (take (Z.to_nat (sum_Z lens)) k) <= sum_Z lens.
Proof.
  intros Hl. assert (0 <= sum_Z lens) by (unfold sum_Z; induction Hl; cbn; lia).
  unfold zlen. rewrite length_take. lia.
Qed.

Lemma readFd_appends_received_witness :
  runs (readFd readv_stream 3) (Buffer_init, replicate 3000 Byte.x41) (fun '(n, saved) '(b', k') =>
    k' = [] /\ n = 3000 /\ saved = None /\ wf b'
    /\ contents b' = contents Buffer_init ++ replicate 3000 Byte.x41
    /\ size b' <= Z.max (size Buffer_init)
                    (readableBytes Buffer_init + 2 * 3000 + kCheapPrepend)).
Proof.
  apply (readFd_appends_received readv_stream 3 Buffer_init (replicate 3000 Byte.x41)).
  - apply wf_init.
  - intros fd lens k data k' Hl [= <- <-]. by apply zlen_take_sum.
  - vm_compute. congruence.
Defined.

(** Several integers in a row. *)
Section IntegerStream.
Definition appendInt32s `{Host} (xs : list Z) : prog Buffer unit := for_each appendInt32 xs.

Fixpoint readInt32s `{Host} (n : nat) : prog Buffer (list Z) :=
  match n with
  | O => mret []
  | S n' => x ← readInt32; xs ← readInt32s n'; mret (x :: xs)
  end.

Definition int32_range (x : Z) : Prop := - two31 <= x < two31.

Lemma appendInt32s_spec `{Host} xs b :
  wf b -> size b <= 1032 + 2 * (2 ^ 61 - 4 * zlen xs) -> readableBytes b <= 2 ^ 61 - 4 * zlen xs ->
  runs (appendInt32s xs) b (fun _ b' =>
    wf b' /\ contents b' = contents b ++ concat (be_bytes 4 <$> xs)).
Proof.
  revert b. induction xs as [|x xs IH]; intros b Hb Hs Hr.
  { cbn. by rewrite app_nil_r. }
  assert (zlen (x :: xs) = 1 + zlen xs) as Hz by (unfold zlen; cbn [length]; lia).
  rewrite Hz in *. pose proof (zlen_nonneg xs). pose proof Hb as [].
  unfold appendInt32s in *. cbn [for_each]. unfold vector_max_size in *.
  run_using (appendInt32_spec x b); [done|unfold vector_max_size; lia|].
  intros _ b' (Hwf & Hc & Hs' & _). unfold grown_size in Hs'.
  eapply runs_mono; [apply IH; [done| |]|].
  - rewrite readableBytes_zlen in * by done. change kCheapPrepend with 8 in *. lia.
  - rewrite readableBytes_zlen in * by done. rewrite Hc, zlen_app, zlen_be_bytes. lia.
  - cbn beta. intros _ b'' [Hwf'' ->]. by rewrite Hc, <- app_assoc.
Qed.

Lemma readInt32s_spec `{Host} xs rest b :
  wf b -> Forall int32_range xs -> contents b = concat (be_bytes 4 <$> xs) ++ rest ->
  runs (readInt32s (length xs)) b (fun ys b' => ys = xs /\ wf b' /\ contents b' = rest).
Proof.
  revert b. induction xs as [|x xs IH]; intros b Hb Hx Hc; [done|].
  inversion_clear Hx as [|? ? Hx0 Hxs]. change (concat (be_bytes 4 <$> x :: xs)) with (be_bytes 4 x ++ concat (be_bytes 4 <$> xs)) in Hc. rewrite <- app_assoc in Hc.
  cbn [length readInt32s]. run_using (readInt32_spec b); [done| |].
  { rewrite readableBytes_zlen, Hc, zlen_app, zlen_be_bytes by done.
    pose proof (zlen_nonneg (concat (be_bytes 4 <$> xs) ++ rest)). lia. }
  intros r b' (-> & Hwf & Hc' & _). rewrite Hc in *. rewrite drop_be_bytes in Hc'.
  unfold int32. rewrite (decode_be_bytes 4 two31) by done.
  run_using IH; [done..|]. intros ys b'' (-> & ? & ?). by rewrite runs_ret.
Qed.
End IntegerStream.

(** C37: integers travel between hosts of any byte order.  What one host appends
    with [appendInt32], another reads back with [readInt32] in the same order
    and with the same values, leaving the bytes that follow them. *)
Theorem int32_stream_roundtrip (sender receiver : Host) xs :
  Forall int32_range xs -> zlen xs <= 2 ^ 58 ->
  runs (appendInt32s (H := sender) xs) Buffer_init (fun _ b =>
    forall b2 rest, wf b2 -> contents b2 = contents b ++ rest ->
    runs (readInt32s (H := receiver) (length xs)) b2 (fun ys b3 =>
      ys = xs /\ wf b3 /\ contents b3 = rest)).
Proof.
  intros Hxs Hlen. eapply runs_mono.
  - apply appendInt32s_spec; [apply wf_init|rewrite size_init; lia|].
    change (readableBytes Buffer_init) with 0. lia.
  - cbn beta. intros _ b [Hb Hc] b2 rest Hb2 Hc2. rewrite contents_init in Hc.
    apply readInt32s_spec; [done..|]. by rewrite Hc2, Hc.
Qed.

Lemma int32_stream_roundtrip_witness :
  runs (appendInt32s (H := LittleEndian) [-1; 305419896]) Buffer_init (fun _ b =>
    forall b2 rest, wf b2 -> contents b2 = contents b ++ rest ->
    runs (readInt32s (H := BigEndian) 2) b2 (fun ys b3 =>
      ys = [-1; 305419896] /\ wf b3 /\ contents b3 = rest)).
Proof.
  apply (int32_stream_roundtrip LittleEndian BigEndian [-1; 305419896]).
  - repeat constructor; unfold int32_range; lia.
  - vm_compute. congruence.
Defined.

(** [ensureWritableBytes] keeps the readable bytes and makes room.  It leaves
    the storage alone when the room is there; it moves the data to the front,
    without growing, when the free bytes at both ends beyond the reserved eight
    suffice; and only otherwise grows the vector, to exactly the space needed, or
    throws [std::length_error] when that is more than [max_size()]. *)
Theorem ensureWritableBytes_moves_or_grows len b :
  wf b -> 0 <= len <= vector_max_size ->
  let free := writableBytes b + prependableBytes b in
  if (writableBytes b <? len) && (free <? len + kCheapPrepend)
     && (vector_max_size <? writerIndex_ b + len)
  then ends (ensureWritableBytes len) b LengthError
  else runs (ensureWritableBytes len) b (fun _ b' =>
    wf b' /\ contents b' = contents b /\ len <= writableBytes b' /\
    size b' = (if (len <=? writableBytes b) || (len + kCheapPrepend <=? free)
               then size b else writerIndex_ b + len) /\
    readerIndex_ b' = (if (writableBytes b <? len) && (len + kCheapPrepend <=? free)
                       then kCheapPrepend else readerIndex_ b)).
Proof.
  intros Hb Hlen free. subst free. unfold ensureWritableBytes, prependableBytes.
  destruct (_ && _ && _) eqn:E.
  { apply andb_prop in E as [[Hlt%Z.ltb_lt Hfree%Z.ltb_lt]%andb_prop Hbig%Z.ltb_lt].
    unfold ends, mbind, prog_bind, get_st. rewrite (proj2 (Z.ltb_lt _ _)) by done. cbn [when_].
    rewrite (makeSpace_too_long len b); [done..|]. unfold fits. lia. }
  assert (writableBytes b < len -> fits b len) as Hfits.
  { intros Hlt Hfree. rewrite !andb_false_iff, !Z.ltb_ge in E. lia. }
  clear E. run_steps. rewrite runs_when. destruct (Z.ltb_spec (writableBytes b) len) as [Hlt|Hge].
  - eapply runs_mono; [apply makeSpace_spec; [done|lia|by apply Hfits]|]. cbn beta.
    intros _ b' (Hwf & Hc & Hw & _ & Hd). run_steps. rewrite runs_assert, Z.leb_le.
    rewrite (proj2 (Z.leb_gt len _)) by done. cbn [orb andb]. do 4 (split; [done|]).
    case_decide; destruct (Z.leb_spec (len + kCheapPrepend) (writableBytes b + readerIndex_ b));
      destruct Hd; try lia; done.
  - run_steps. rewrite runs_assert, Z.leb_le. rewrite (proj2 (Z.leb_le len _)) by done. done.
Qed.

Definition half_read : Buffer := mkBuffer (replicate 1032 Byte.x00) 900 1000.

Lemma ensureWritableBytes_moves_or_grows_witness :
  wf half_read /\
  runs (ensureWritableBytes 800) half_read (fun _ b' =>
    wf b' /\ contents b' = contents half_read /\ 800 <= writableBytes b' /\
    size b' = 1032 /\ readerIndex_ b' = kCheapPrepend).
Proof.
  assert (wf half_read) as Hwf by (constructor; vm_compute; congruence).
  split; [exact Hwf|].
  assert (0 <= 800 <= vector_max_size) as Hlen by (split; vm_compute; congruence).
  exact (ensureWritableBytes_moves_or_grows 800 half_read Hwf Hlen).
Defined.

(** A request close to 2^64 defeats the final assert.  When [writerIndex_ +
    len] wraps around, [resize] shrinks the vector below the write index, the
    unsigned [writableBytes()] then equals [len], and [ensureWritableBytes]
    returns normally with a buffer that is no longer well-formed. *)
Theorem ensureWritableBytes_wraps len b :
  wf b -> two64 - writerIndex_ b <= len < two64 - kCheapPrepend ->
  runs (ensureWritableBytes len) b (fun _ b' =>
    size b' = writerIndex_ b + len - two64 /\ size b' < writerIndex_ b' /\
    writableBytes b' = len /\ ~ wf b').
Proof.
  intros Hb Hlen. pose proof (writableBytes_wf b Hb). pose proof Hb as [].
  unfold vector_max_size in *. unfold kCheapPrepend in Hlen.
  apply ensure_wraps; [done|lia|lia|]. unfold prependableBytes. change kCheapPrepend with 8.
  rewrite size_t_small; lia.
Qed.

Lemma ensureWritableBytes_wraps_witness :
  runs (ensureWritableBytes (two64 - 900)) half_read (fun _ b' =>
    size b' = 100 /\ size b' < writerIndex_ b' /\ writableBytes b' = two64 - 900 /\ ~ wf b').
Proof.
  apply (ensureWritableBytes_wraps (two64 - 900) half_read).
  - constructor; vm_compute; congruence.
  - vm_compute. split; congruence.
Defined.

(** The two-argument request checks.  Asking for more readable bytes than
    there are, for more prepend space than is left, or committing more bytes
    than are writable is stopped by an assert before any byte moves. *)
Theorem oversized_requests_assert b len data :
  (readableBytes b < len ->
     ends (retrieve len) b AssertionFailed /\ ends (retrieveAsString len) b AssertionFailed
     /\ ends (unwrite len) b AssertionFailed) /\
  (prependableBytes b < len -> ends (prepend data len) b AssertionFailed) /\
  (writableBytes b < len -> ends (hasWritten len) b AssertionFailed) /\
  (forall e, e < peek b \/ beginWrite b < e -> ends (retrieveUntil e) b AssertionFailed).
Proof.
  unfold ends, retrieve, retrieveAsString, unwrite, prepend, hasWritten, retrieveUntil,
    mbind, prog_bind, get_st, assert_, fail, mret, prog_ret.
  repeat split; intros; rewrite ?(proj2 (Z.leb_gt _ _)) by done; try done.
  destruct (Z.leb_spec (peek b) e); [|done]. rewrite (proj2 (Z.leb_gt _ _)); [done|lia].
Qed.

Lemma oversized_requests_assert_witness :
  ends (retrieve 1) Buffer_init AssertionFailed /\
  ends (prepend [Byte.x00] 9) Buffer_init AssertionFailed.
Proof.
  split.
  - apply (oversized_requests_assert Buffer_init 1 []). reflexivity.
  - apply (oversized_requests_assert Buffer_init 9 [Byte.x00]). reflexivity.
Defined.

(** A length header can be put in front of data already written.  With four
    bytes of headroom, [prependInt32] leaves the data in place behind the
    header, and a peer of any byte order peeks the same value, reads it off and
    is left with the original data. *)
Theorem prependInt32_header (sender receiver : Host) x b :
  wf b -> int32_range x -> 4 <= prependableBytes b ->
  runs (prependInt32 (H := sender) x) b (fun _ b1 =>
    wf b1 /\ size b1 = size b /\
    runs (peekInt32 (H := receiver)) b1 (fun y b2 => y = x /\ b2 = b1) /\
    runs (readInt32 (H := receiver)) b1 (fun y b2 =>
      y = x /\ wf b2 /\ contents b2 = contents b)).
Proof.
  intros Hb Hx Hpre. eapply runs_mono; [by apply prependInt32_spec|]. cbn beta.
  intros _ b1 (Hwf & Hc & Hs & _). do 2 (split; [done|]).
  assert (4 <= readableBytes b1) as Hr.
  { rewrite readableBytes_zlen, Hc, zlen_app, zlen_be_bytes by done.
    pose proof (zlen_nonneg (contents b)). lia. }
  split.
  - rewrite peekInt32_runs, Hc by done. unfold int32. by rewrite (decode_be_bytes 4 two31).
  - eapply runs_mono; [by apply readInt32_spec|]. cbn beta. intros y b2 (-> & ? & Hc2 & _).
    rewrite Hc in *. rewrite drop_be_bytes in Hc2. unfold int32.
    by rewrite (decode_be_bytes 4 two31).
Qed.

Lemma prependInt32_header_witness :
  runs (prependInt32 (H := LittleEndian) (-5)) Buffer_init (fun _ b1 =>
    wf b1 /\ size b1 = size Buffer_init /\
    runs (peekInt32 (H := BigEndian)) b1 (fun y b2 => y = -5 /\ b2 = b1) /\
    runs (readInt32 (H := BigEndian)) b1 (fun y b2 =>
      y = -5 /\ wf b2 /\ contents b2 = contents Buffer_init)).
Proof.
  apply (prependInt32_header LittleEndian BigEndian (-5) Buffer_init).
  - apply wf_init.
  - unfold int32_range. lia.
  - vm_compute. congruence.
Defined.

(** ** Searching *)

Lemma first_pos_spec f l :
  match first_pos f l with
  | Some i => 0 <= i < zlen l /\ f (drop (Z.to_nat i) l) = true
              /\ forall j, (Z.of_nat j < i) -> f (drop j l) = false
  | None => forall j, (j < length l)%nat -> f (drop j l) = false
  end.
Proof.
  induction l as [|x l IH]; [intros j Hj; cbn in Hj; lia|]. cbn [first_pos].
  assert (zlen (x :: l) = 1 + zlen l) as Hz by (unfold zlen; cbn [length]; lia).
  pose proof (zlen_nonneg l). destruct (f (x :: l)) eqn:E; [repeat split; [lia..|done|lia]|].
  destruct (first_pos f l) as [i|]; cbn.
  - destruct IH as (Hi & Hf & Hj). rewrite Hz. repeat split; [lia..| |].
    + by replace (Z.to_nat (1 + i)) with (S (Z.to_nat i)) by lia.
    + intros [|j] ?; [done|]. apply Hj. lia.
  - intros [|j] ?; [done|]. apply IH. cbn in *. lia.
Qed.

(** The meaning of the pointer a search returns. *)
Definition found_first (b : Buffer) (f : list byte -> bool) (o : option Z) : Prop :=
  match o with
  | Some p => peek b <= p < beginWrite b
              /\ f (drop (Z.to_nat (p - peek b)) (contents b)) = true
              /\ forall j, (peek b + Z.of_nat j < p) -> f (drop j (contents b)) = false
  | None => forall j, (j < length (contents b))%nat -> f (drop j (contents b)) = false
  end.

Lemma found_first_pos b f :
  wf b -> found_first b f (Z.add (peek b) <$> first_pos f (contents b)).
Proof.
  intros Hb. pose proof (zlen_contents b Hb) as Hz. rewrite readableBytes_wf in Hz by done.
  pose proof (first_pos_spec f (contents b)) as Hp. unfold found_first.
  destruct (first_pos f (contents b)) as [i|]; cbn; [|done].
  destruct Hp as (Hi & Hm & Hj). unfold peek, beginWrite in *. pose proof Hb as [].
  replace (readerIndex_ b + i - readerIndex_ b) with i by lia.
  repeat split; [lia..|done|]. intros j ?. apply Hj. lia.
Qed.

(** [findCRLF] and [findEOL] return the first match of the readable bytes or
    null when there is none: the pointer lies inside the readable bytes, what it
    points to matches, and no earlier readable position does. *)
Theorem find_first_match b :
  wf b ->
  runs findCRLF b (fun o b' => b' = b /\ found_first b at_crlf o) /\
  runs findEOL b (fun o b' => b' = b /\ found_first b at_eol o).
Proof.
  intros Hb. rewrite findCRLF_runs, findEOL_runs by done.
  auto using found_first_pos.
Qed.

Lemma find_first_match_witness :
  runs findCRLF half_read (fun o b' => b' = half_read /\ found_first half_read at_crlf o) /\
  runs findEOL half_read (fun o b' => b' = half_read /\ found_first half_read at_eol o).
Proof. apply (find_first_match half_read). constructor; vm_compute; congruence. Defined.

Lemma memchr_overrun c n l :
  Forall (fun x => x <> c) l -> (length l < n)%nat -> memchr c n l = Err (Undefined OutOfBounds).
Proof.
  intros Hl. revert n. induction Hl as [|x l Hx Hl IH]; intros [|n] Hn; cbn in *; [lia|done|lia|].
  rewrite decide_False by done. by rewrite IH by lia.
Qed.

Lemma memchr_at c n l post :
  Forall (fun x => x <> c) l -> (length l < n)%nat ->
  memchr c n (l ++ c :: post) = Ok (Some (zlen l)).
Proof.
  intros Hl. revert n. induction Hl as [|x l Hx Hl IH]; intros [|n] Hn; cbn in *; try lia.
  - by rewrite decide_True.
  - rewrite decide_False by done. rewrite IH by lia. cbn. do 2 f_equal. unfold zlen. cbn [length]. lia.
Qed.

(** [findEOL(start)] scans [readableBytes()] bytes from [start], not up to
    the write index.  On a full buffer without an end of line after [start] it
    leaves the storage of the vector, and on any buffer it can return a pointer
    to a stale byte past the write index. *)
Theorem findEOL_from_overreads b start :
  wf b -> readerIndex_ b < start <= writerIndex_ b ->
  (writerIndex_ b = size b ->
   Forall (fun x => x <> kEOL) (drop (Z.to_nat start) (buffer_ b)) ->
   ends (findEOL_from start) b (Undefined OutOfBounds)) /\
  (forall p, writerIndex_ b <= p < size b -> p < start + readableBytes b ->
   Forall (fun x => x <> kEOL) (slice start (p - start) (buffer_ b)) ->
   buffer_ b !! Z.to_nat p = Some kEOL ->
   runs (findEOL_from start) b (fun o _ => o = Some p)).
Proof.
  intros Hb Hs. pose proof (readableBytes_wf b Hb) as Hr. pose proof Hb as [].
  assert (forall Q : option Z -> Buffer -> Prop, runs (findEOL_from start) b Q <->
    runs (lift (memchr kEOL (Z.to_nat (readableBytes b)) (drop (Z.to_nat start) (buffer_ b)))) b
      (fun o b' => Q (Z.add start <$> o) b')) as Hrun.
  { intros Q. unfold findEOL_from. run_steps. rewrite runs_assert. run_steps.
    rewrite runs_assert, !Z.leb_le. run_steps. unfold peek, beginWrite. intuition lia. }
  split.
  - intros Hfull Hno. unfold ends, findEOL_from, mbind, prog_bind, get_st, peek, beginWrite.
    rewrite !(proj2 (Z.leb_le _ _)) by lia. cbn. rewrite memchr_overrun; [done..|].
    rewrite length_drop. unfold size, zlen in *. lia.
  - intros p Hp Hp2 Hno Hc. apply Hrun.
    assert (drop (Z.to_nat start) (buffer_ b)
      = slice start (p - start) (buffer_ b) ++ kEOL :: drop (S (Z.to_nat p)) (buffer_ b)) as ->.
    { rewrite <- (take_drop (Z.to_nat (p - start)) (drop _ _)). unfold slice. f_equal.
      rewrite drop_drop. replace (Z.to_nat start + Z.to_nat (p - start))%nat with (Z.to_nat p) by lia.
      by apply drop_S. }
    assert (zlen (slice start (p - start) (buffer_ b)) = p - start) as Hz.
    { apply zlen_slice; unfold size in *; lia. }
    rewrite memchr_at; [|done|unfold zlen in Hz; lia]. rewrite runs_lift_Ok, Hz. cbn. f_equal. lia.
Qed.

(** The readable bytes end at the end of the storage, with no end of line. *)
Definition full_buffer : Buffer := mkBuffer (replicate 1032 Byte.x41) 8 1032.

Lemma findEOL_from_overreads_witness :
  wf full_buffer /\ ends (findEOL_from 9) full_buffer (Undefined OutOfBounds).
Proof.
  assert (wf full_buffer) as Hwf by (constructor; vm_compute; congruence).
  split; [exact Hwf|].
  refine (proj1 (findEOL_from_overreads full_buffer 9 Hwf _) _ _).
  - vm_compute. split; congruence.
  - reflexivity.
  - apply Forall_drop. unfold full_buffer. cbn [buffer_].
    apply (Forall_replicate _ 1032 Byte.x41). discriminate.
Defined.
