(* ===== verification/Kernel.v ===== *)
(** * Kernel: the operating system the servers call

    The sources only call the kernel; its code is not theirs.  A [Kernel] gives
    every system call a result and a successor state, and [KernelLaws] states
    the documented behaviour the proofs use: what epoll remembers, which
    descriptors are open, which bytes a connection was sent. *)

From S2P Require Import Prelude Bytes.

(** ** Constants of the Linux ABI *)

Definition EPOLLIN : Z := 1.
Definition EPOLLPRI : Z := 2.
Definition EPOLLOUT : Z := 4.
Definition EPOLLERR : Z := 8.
Definition EPOLLHUP : Z := 16.
Definition EPOLLRDHUP : Z := 8192.
Definition EPOLLET : Z := 2147483648.

Definition EPERM : Z := 1.
Definition EINTR : Z := 4.
Definition EBADF : Z := 9.
Definition EAGAIN : Z := 11.
Definition EWOULDBLOCK : Z := EAGAIN.
Definition ENOMEM : Z := 12.
Definition EFAULT : Z := 14.
Definition EINVAL : Z := 22.
Definition ENFILE : Z := 23.
Definition EMFILE : Z := 24.
Definition EPIPE : Z := 32.
Definition EPROTO : Z := 71.
Definition ENOTSOCK : Z := 88.
Definition EOPNOTSUPP : Z := 95.
Definition ECONNABORTED : Z := 103.
Definition ECONNRESET : Z := 104.
Definition ENOBUFS : Z := 105.

Definition F_GETFD : Z := 1.
Definition F_SETFD : Z := 2.
Definition F_GETFL : Z := 3.
Definition F_SETFL : Z := 4.
Definition O_NONBLOCK : Z := 2048.
Definition FD_CLOEXEC : Z := 1.
Definition AF_INET : Z := 2.
Definition SOMAXCONN : Z := 128.

Inductive ctl_op := EPOLL_CTL_ADD | EPOLL_CTL_DEL | EPOLL_CTL_MOD.

(** [P] is what a program stores in the [data] union of an event. *)
Record epoll_event (P : Type) := EpollEvent { ev_events : Z; ev_data : P }.
Arguments EpollEvent {P} ev_events ev_data.
Arguments ev_events {P} e.
Arguments ev_data {P} e.

Record sockaddr_in := SockAddr { sin_family : Z; sin_port : Z; sin_addr : Z }.

(** [test_flag x f] is the C condition [x & f]. *)
Definition test_flag (x f : Z) : bool := negb (Z.land x f =? 0).

(** ** System calls *)

Inductive syscall (P : Type) : Type -> Type :=
  | SysSocket : syscall P Z
  | SysBind (fd : Z) (addr : sockaddr_in) : syscall P unit
  | SysListen (fd backlog : Z) : syscall P unit
  | SysAccept (fd : Z) : syscall P (Z * sockaddr_in)
  | SysClose (fd : Z) : syscall P unit
  | SysFcntl (fd cmd arg : Z) : syscall P Z
  | SysReadv (fd : Z) (lens : list Z) : syscall P (list byte)
  | SysRecv (fd len : Z) : syscall P (list byte)
  | SysWrite (fd : Z) (data : list byte) : syscall P Z
  | SysSoError (fd : Z) : syscall P Z
  | SysReuseAddr (fd : Z) : syscall P unit
  | SysEpollCreate : syscall P Z
  | SysEpollCtl (epfd : Z) (op : ctl_op) (fd : Z) (ev : epoll_event P) : syscall P unit
  | SysEpollWait (epfd maxevents timeout : Z) : syscall P (list (epoll_event P))
  | SysTime : syscall P Z.
Arguments SysSocket {P}.
Arguments SysBind {P} fd addr.
Arguments SysListen {P} fd backlog.
Arguments SysAccept {P} fd.
Arguments SysClose {P} fd.
Arguments SysFcntl {P} fd cmd arg.
Arguments SysReadv {P} fd lens.
Arguments SysRecv {P} fd len.
Arguments SysWrite {P} fd data.
Arguments SysSoError {P} fd.
Arguments SysReuseAddr {P} fd.
Arguments SysEpollCreate {P}.
Arguments SysEpollCtl {P} epfd op fd ev.
Arguments SysEpollWait {P} epfd maxevents timeout.
Arguments SysTime {P}.

Class Kernel (P K : Type) := sys_exec : forall A, syscall P A -> K -> sysres A * K.
Arguments sys_exec {P K _ A} c k.

(** The integer a call returns: its value, or -1. *)
Definition ret_int (r : sysres Z) : Z :=
  match r with SysOk n => n | SysErr _ => -1 end.
Definition ret_unit {A} (r : sysres A) : Z :=
  match r with SysOk _ => 0 | SysErr _ => -1 end.

(** ** Documented behaviour *)

(** Calls that leave the interest lists, the open descriptors and the sent
    bytes as they are. *)
Definition quiet {P A} (c : syscall P A) : bool :=
  match c with
  | SysBind _ _ | SysListen _ _ | SysFcntl _ _ _ | SysReadv _ _ | SysRecv _ _
  | SysSoError _ | SysReuseAddr _ | SysEpollWait _ _ _ | SysTime => true
  | _ => false
  end.

Class KernelLaws (P K : Type) `{Kernel P K} := {
  (** descriptors open in the process *)
  k_open : K -> gset Z;
  (** the interest list of an epoll descriptor *)
  k_interest : K -> Z -> gmap Z (epoll_event P);
  (** the bytes a descriptor has accepted for sending *)
  k_sent : K -> Z -> list byte;

  law_quiet {A} (c : syscall P A) k : quiet c = true ->
    let k' := (sys_exec c k).2 in
    k_open k' = k_open k /\ k_interest k' = k_interest k /\ k_sent k' = k_sent k;

  law_registered_open k ep fd : is_Some (k_interest k ep !! fd) -> fd ∈ k_open k;

  law_readv fd lens k data : Forall (Z.le 0) lens ->
    (sys_exec (SysReadv fd lens) k).1 = SysOk data -> zlen data <= foldr Z.add 0 lens;

  law_recv fd len k data : 0 <= len ->
    (sys_exec (SysRecv fd len) k).1 = SysOk data -> zlen data <= len;

  law_write fd data k :
    let '(r, k') := sys_exec (SysWrite fd data) k in
    k_open k' = k_open k /\ k_interest k' = k_interest k /\
    match r with
    | SysOk n => 0 <= n <= zlen data
        /\ k_sent k' fd = k_sent k fd ++ take (Z.to_nat n) data
        /\ forall fd', fd' <> fd -> k_sent k' fd' = k_sent k fd'
    | SysErr _ => k_sent k' = k_sent k
    end;

  law_accept fd k :
    let '(r, k') := sys_exec (SysAccept fd) k in
    k_interest k' = k_interest k /\ k_sent k' = k_sent k /\
    match r with
    | SysOk (c, _) => 0 <= c /\ ~ (c ∈ k_open k) /\ k_open k' = ({[c]} ∪ k_open k)
    | SysErr _ => k_open k' = k_open k
    end;

  (** Opening a descriptor registers nothing and closes nothing. *)
  law_open (c : syscall P Z) k : c = SysSocket \/ c = SysEpollCreate ->
    let k' := (sys_exec c k).2 in
    k_open k ⊆ k_open k' /\ forall ep fd ev,
      k_interest k' ep !! fd = Some ev -> k_interest k ep !! fd = Some ev;

  (** A closed descriptor leaves every interest list, whatever [close] returns. *)
  law_close fd k :
    let '(_, k') := sys_exec (SysClose fd) k in
    k_open k' = (k_open k ∖ {[fd]}) /\ (forall ep, k_interest k' ep = delete fd (k_interest k ep))
    /\ k_sent k' = k_sent k;

  law_ctl ep op fd ev k :
    let '(r, k') := sys_exec (SysEpollCtl ep op fd ev) k in
    k_open k' = k_open k /\ k_sent k' = k_sent k /\
    (forall ep', ep' <> ep -> k_interest k' ep' = k_interest k ep') /\
    match r with
    | SysErr _ => k_interest k' = k_interest k
    | SysOk _ =>
        match op with
        | EPOLL_CTL_ADD => k_interest k ep !! fd = None
                           /\ k_interest k' ep = <[fd := ev]> (k_interest k ep)
        | EPOLL_CTL_MOD => is_Some (k_interest k ep !! fd)
                           /\ k_interest k' ep = <[fd := ev]> (k_interest k ep)
        | EPOLL_CTL_DEL => is_Some (k_interest k ep !! fd)
                           /\ k_interest k' ep = delete fd (k_interest k ep)
        end
    end;

  (** Removing a registered descriptor succeeds. *)
  law_ctl_del ep fd ev k : is_Some (k_interest k ep !! fd) ->
    (sys_exec (SysEpollCtl ep EPOLL_CTL_DEL fd ev) k).1 = SysOk tt;

  (** [epoll_wait] reports registered descriptors, with the data they were
      registered with, at most [maxevents] of them, which must be positive. *)
  law_wait ep maxevents timeout k evs :
    (sys_exec (SysEpollWait ep maxevents timeout) k).1 = SysOk evs ->
    zlen evs <= maxevents /\
    Forall (fun e => exists fd reg,
      k_interest k ep !! fd = Some reg /\ ev_data e = ev_data reg) evs;
  law_wait_closed ep maxevents timeout k : ~ (ep ∈ k_open k) ->
    (sys_exec (SysEpollWait ep maxevents timeout) k).1 = SysErr EBADF;
  law_wait_maxevents ep maxevents timeout k : maxevents <= 0 -> ep ∈ k_open k ->
    (sys_exec (SysEpollWait ep maxevents timeout) k).1 = SysErr EINVAL
}.
