(* ===== verification/World.v ===== *)
(** * World: the objects of netlib and the heap they live in

    The classes of netlib point at each other: a [Channel] at its [EventLoop],
    a [Poller] at channels, a [Socket] at its channel, callbacks at sockets and
    at the server.  The state is therefore one [World]: two heaps of live
    objects, the single [EventLoop] with its [Poller], the [TcpServer], the
    kernel and [errno].  An access to an address that is not in its heap is a
    use after free.

    [std::function] values are data naming the function they were bound from;
    an empty function is [None].  A [Socket] carries the reference count of the
    [std::shared_ptr]s that own it. *)

From S2P Require Import Prelude Bytes Buffer Kernel.

Abbreviation ptr := positive.

(** ** Function objects *)

(** [Channel::ReadEventCallback] *)
Inductive ReadEventCallback :=
  | Socket_handleRead (s : ptr)
  | TcpServer_accept.

(** [Channel::EventCallback] *)
Inductive EventCallback :=
  | Socket_handleWrite (s : ptr)
  | Socket_handleClose (s : ptr)
  | TcpServer_acceptorCloseCallback.

(** [Socket::Callback]: code of the user of the library, or the server's
    [connectionClose]. *)
Inductive Callback (U : Type) :=
  | UserCallback (u : U)
  | TcpServer_connectionClose.
Arguments UserCallback {U} u.
Arguments TcpServer_connectionClose {U}.

(** ** Objects *)

Record Channel := mkChannel {
  fd_ : Z;
  events_ : Z;
  revents_ : Z;
  index_ : Z;
  eventHandling_ : bool;
  readCallback_ : option ReadEventCallback;
  writeCallback_ : option EventCallback;
  closeCallback_ : option EventCallback;
  errorCallback_ : option EventCallback
}.

Record Socket (U : Type) := mkSocket {
  inputBuffer_ : Buffer;
  outputBuffer_ : Buffer;
  so_messageCallback : option (Callback U);
  so_closeCallback : option (Callback U);
  so_writeCallback : option (Callback U);
  addr_ : sockaddr_in;
  so_fd : Z;
  chan_ : ptr;
  use_count : Z          (* of the control block of its shared_ptrs *)
}.
Arguments mkSocket {U}.
Arguments inputBuffer_ {U}.
Arguments outputBuffer_ {U}.
Arguments so_messageCallback {U}.
Arguments so_closeCallback {U}.
Arguments so_writeCallback {U}.
Arguments addr_ {U}.
Arguments so_fd {U}.
Arguments chan_ {U}.
Arguments use_count {U}.

Record Poller := mkPoller {
  epollfd_ : Z;
  po_events : list (epoll_event (option ptr));
  channels_ : gmap Z ptr
}.

(** A functor made by [std::bind(writeCallback_, shared_from_this())]. *)
Record EventLoop (U : Type) := mkEventLoop {
  looping_ : bool;
  quit_ : bool;
  pollReturnTime_ : Z;
  poller_ : Poller;
  activeChannels_ : list ptr;
  pendingFunctors_ : list (Callback U * ptr)
}.
Arguments mkEventLoop {U}.
Arguments looping_ {U}.
Arguments quit_ {U}.
Arguments pollReturnTime_ {U}.
Arguments poller_ {U}.
Arguments activeChannels_ {U}.
Arguments pendingFunctors_ {U}.

Record TcpServer (U : Type) := mkTcpServer {
  ts_connectionCallback : option U;
  ts_messageCallback : option U;
  ts_closeCallback : option U;
  ts_writeCompleteCallback : option U;
  host_ : string;
  connections_ : gmap Z ptr;
  acceptor : option ptr
}.
Arguments mkTcpServer {U}.
Arguments ts_connectionCallback {U}.
Arguments ts_messageCallback {U}.
Arguments ts_closeCallback {U}.
Arguments ts_writeCompleteCallback {U}.
Arguments host_ {U}.
Arguments connections_ {U}.
Arguments acceptor {U}.

Record World (K U : Type) := mkWorld {
  kernel : K;
  errno : Z;
  chans : gmap ptr Channel;
  socks : gmap ptr (Socket U);
  next_ptr : ptr;
  the_loop : EventLoop U;
  the_server : TcpServer U
}.
Arguments mkWorld {K U}.
Arguments kernel {K U}.
Arguments errno {K U}.
Arguments chans {K U}.
Arguments socks {K U}.
Arguments next_ptr {K U}.
Arguments the_loop {K U}.
Arguments the_server {K U}.

(** ** Field updates *)

Definition with_events (x : Z) (c : Channel) : Channel :=
  mkChannel (fd_ c) x (revents_ c) (index_ c) (eventHandling_ c)
    (readCallback_ c) (writeCallback_ c) (closeCallback_ c) (errorCallback_ c).
Definition with_revents (x : Z) (c : Channel) : Channel :=
  mkChannel (fd_ c) (events_ c) x (index_ c) (eventHandling_ c)
    (readCallback_ c) (writeCallback_ c) (closeCallback_ c) (errorCallback_ c).
Definition with_index (x : Z) (c : Channel) : Channel :=
  mkChannel (fd_ c) (events_ c) (revents_ c) x (eventHandling_ c)
    (readCallback_ c) (writeCallback_ c) (closeCallback_ c) (errorCallback_ c).
Definition with_eventHandling (x : bool) (c : Channel) : Channel :=
  mkChannel (fd_ c) (events_ c) (revents_ c) (index_ c) x
    (readCallback_ c) (writeCallback_ c) (closeCallback_ c) (errorCallback_ c).
Definition with_readCallback (x : ReadEventCallback) (c : Channel) : Channel :=
  mkChannel (fd_ c) (events_ c) (revents_ c) (index_ c) (eventHandling_ c)
    (Some x) (writeCallback_ c) (closeCallback_ c) (errorCallback_ c).
Definition with_writeCallback (x : EventCallback) (c : Channel) : Channel :=
  mkChannel (fd_ c) (events_ c) (revents_ c) (index_ c) (eventHandling_ c)
    (readCallback_ c) (Some x) (closeCallback_ c) (errorCallback_ c).
Definition with_closeCallback (x : EventCallback) (c : Channel) : Channel :=
  mkChannel (fd_ c) (events_ c) (revents_ c) (index_ c) (eventHandling_ c)
    (readCallback_ c) (writeCallback_ c) (Some x) (errorCallback_ c).
Definition with_errorCallback (x : EventCallback) (c : Channel) : Channel :=
  mkChannel (fd_ c) (events_ c) (revents_ c) (index_ c) (eventHandling_ c)
    (readCallback_ c) (writeCallback_ c) (closeCallback_ c) (Some x).

Section SocketUpdates.
Context {U : Type}.
Implicit Type s : Socket U.

Definition with_inputBuffer (x : Buffer) s : Socket U :=
  mkSocket x (outputBuffer_ s) (so_messageCallback s) (so_closeCallback s)
    (so_writeCallback s) (addr_ s) (so_fd s) (chan_ s) (use_count s).
Definition with_outputBuffer (x : Buffer) s : Socket U :=
  mkSocket (inputBuffer_ s) x (so_messageCallback s) (so_closeCallback s)
    (so_writeCallback s) (addr_ s) (so_fd s) (chan_ s) (use_count s).
Definition with_messageCallback x s : Socket U :=
  mkSocket (inputBuffer_ s) (outputBuffer_ s) x (so_closeCallback s)
    (so_writeCallback s) (addr_ s) (so_fd s) (chan_ s) (use_count s).
Definition with_so_closeCallback x s : Socket U :=
  mkSocket (inputBuffer_ s) (outputBuffer_ s) (so_messageCallback s) x
    (so_writeCallback s) (addr_ s) (so_fd s) (chan_ s) (use_count s).
Definition with_writeCompleteCallback x s : Socket U :=
  mkSocket (inputBuffer_ s) (outputBuffer_ s) (so_messageCallback s) (so_closeCallback s)
    x (addr_ s) (so_fd s) (chan_ s) (use_count s).
Definition with_addr x s : Socket U :=
  mkSocket (inputBuffer_ s) (outputBuffer_ s) (so_messageCallback s) (so_closeCallback s)
    (so_writeCallback s) x (so_fd s) (chan_ s) (use_count s).
Definition with_use_count x s : Socket U :=
  mkSocket (inputBuffer_ s) (outputBuffer_ s) (so_messageCallback s) (so_closeCallback s)
    (so_writeCallback s) (addr_ s) (so_fd s) (chan_ s) x.
End SocketUpdates.

Section WorldUpdates.
Context {K U : Type}.
Implicit Type w : World K U.

Definition set_kernel k w : World K U :=
  mkWorld k (errno w) (chans w) (socks w) (next_ptr w) (the_loop w) (the_server w).
Definition set_errno e w : World K U :=
  mkWorld (kernel w) e (chans w) (socks w) (next_ptr w) (the_loop w) (the_server w).
Definition on_chans f w : World K U :=
  mkWorld (kernel w) (errno w) (f (chans w)) (socks w) (next_ptr w) (the_loop w) (the_server w).
Definition on_socks f w : World K U :=
  mkWorld (kernel w) (errno w) (chans w) (f (socks w)) (next_ptr w) (the_loop w) (the_server w).
Definition set_next_ptr p w : World K U :=
  mkWorld (kernel w) (errno w) (chans w) (socks w) p (the_loop w) (the_server w).
Definition on_loop f w : World K U :=
  mkWorld (kernel w) (errno w) (chans w) (socks w) (next_ptr w) (f (the_loop w)) (the_server w).
Definition on_server f w : World K U :=
  mkWorld (kernel w) (errno w) (chans w) (socks w) (next_ptr w) (the_loop w) (f (the_server w)).

Implicit Type l : EventLoop U.
Definition with_looping x l : EventLoop U :=
  mkEventLoop x (quit_ l) (pollReturnTime_ l) (poller_ l) (activeChannels_ l) (pendingFunctors_ l).
Definition with_quit x l : EventLoop U :=
  mkEventLoop (looping_ l) x (pollReturnTime_ l) (poller_ l) (activeChannels_ l) (pendingFunctors_ l).
Definition with_pollReturnTime x l : EventLoop U :=
  mkEventLoop (looping_ l) (quit_ l) x (poller_ l) (activeChannels_ l) (pendingFunctors_ l).
Definition with_poller x l : EventLoop U :=
  mkEventLoop (looping_ l) (quit_ l) (pollReturnTime_ l) x (activeChannels_ l) (pendingFunctors_ l).
Definition with_activeChannels x l : EventLoop U :=
  mkEventLoop (looping_ l) (quit_ l) (pollReturnTime_ l) (poller_ l) x (pendingFunctors_ l).
Definition with_pendingFunctors x l : EventLoop U :=
  mkEventLoop (looping_ l) (quit_ l) (pollReturnTime_ l) (poller_ l) (activeChannels_ l) x.

Implicit Type t : TcpServer U.
Definition with_connections x t : TcpServer U :=
  mkTcpServer (ts_connectionCallback t) (ts_messageCallback t) (ts_closeCallback t)
    (ts_writeCompleteCallback t) (host_ t) x (acceptor t).
Definition with_acceptor x t : TcpServer U :=
  mkTcpServer (ts_connectionCallback t) (ts_messageCallback t) (ts_closeCallback t)
    (ts_writeCompleteCallback t) (host_ t) (connections_ t) x.
End WorldUpdates.

Definition with_po_events x (p : Poller) : Poller := mkPoller (epollfd_ p) x (channels_ p).
Definition with_channels x (p : Poller) : Poller := mkPoller (epollfd_ p) (po_events p) x.

(** ** Memory *)

Section Memory.
Context {K U : Type} `{Kernel (option ptr) K}.
Abbreviation M := (prog (World K U)).

(** A system call; a failure sets [errno]. *)
Definition sys {A} (c : syscall (option ptr) A) : M (sysres A) := fun w =>
  let '(r, k) := sys_exec c (kernel w) in
  let w' := set_kernel k w in
  Ok (r, match r with SysOk _ => w' | SysErr e => set_errno e w' end).

Definition get_chan (p : ptr) : M Channel :=
  w ← get_st; unwrap (Undefined UseAfterFree) (chans w !! p).
Definition upd_chan (p : ptr) (f : Channel -> Channel) : M unit :=
  c ← get_chan p; modify (on_chans (<[p := f c]>)).
Definition get_sock (s : ptr) : M (Socket U) :=
  w ← get_st; unwrap (Undefined UseAfterFree) (socks w !! s).
Definition upd_sock (s : ptr) (f : Socket U -> Socket U) : M unit :=
  o ← get_sock s; modify (on_socks (<[s := f o]>)).

(** [new]: a fresh address. *)
Definition alloc : M ptr :=
  w ← get_st; modify (set_next_ptr (Pos.succ (next_ptr w))) ;; mret (next_ptr w).

(** Copying a [shared_ptr], [shared_from_this] included. *)
Definition share (s : ptr) : M unit :=
  upd_sock s (fun o => with_use_count (use_count o + 1) o).

(** Destroying a [shared_ptr]: the last one destroys the [Socket], and with it
    the [Channel] that only its [chan_] owns. *)
Definition release (s : ptr) : M unit :=
  o ← get_sock s;
  if use_count o =? 1
  then modify (on_socks (delete s)) ;; modify (on_chans (delete (chan_ o)))
  else upd_sock s (with_use_count (use_count o - 1)).
End Memory.
