(* ===== verification/Poller.v ===== *)
(** * Poller: the epoll wrapper (Poller.hpp, Poller.cpp)

    Registration of channels with epoll and the collection of ready ones. *)

From S2P Require Import Prelude Bytes Kernel World.

Definition kNew : Z := -1.
Definition kAdded : Z := 1.
Definition kDeleted : Z := 2.

(** [Channel::kNoneEvent] and [Channel::isNoneEvent], which the poller asks. *)
Definition kNoneEvent : Z := 0.
Definition isNoneEvent (c : Channel) : bool := events_ c =? kNoneEvent.

Definition null_event : epoll_event (option ptr) := EpollEvent 0 None.

(** [max_size()] of a vector of twelve-byte [struct epoll_event]. *)
Definition event_list_max : Z := (two63 - 1) / 12.

Definition event_list_resize (n : Z) (l : list (epoll_event (option ptr)))
  : result (list (epoll_event (option ptr))) :=
  if event_list_max <? n then Err LengthError
  else Ok (take (Z.to_nat n) l ++ replicate (Z.to_nat n - length l) null_event).

Section Poller.
Context {K U : Type} `{Kernel (option ptr) K}.
Abbreviation M := (prog (World K U)).

Definition poller : M Poller := gets (fun w => poller_ (the_loop w)).
Definition upd_poller (f : Poller -> Poller) : M unit :=
  modify (on_loop (fun l => with_poller (f (poller_ l)) l)).

(** [Poller::Poller]: sixteen event slots and a new epoll instance. *)
Definition Poller_ctor : M Poller :=
  r ← sys SysEpollCreate;
  mret (mkPoller (ret_int r) (replicate 16 null_event) ∅).

(** [Poller::update]: the outcome of [epoll_ctl] is only logged. *)
Definition update (operation : ctl_op) (channel : ptr) : M unit :=
  c ← get_chan channel;
  p ← poller;
  _ ← sys (SysEpollCtl (epollfd_ p) operation (fd_ c)
             (EpollEvent (uint32 (events_ c)) (Some channel)));
  mret tt.

Definition updateChannel (channel : ptr) : M unit :=
  c ← get_chan channel;
  let index := index_ c in
  if (index =? kNew) || (index =? kDeleted) then
    when_ (index =? kNew)
      (upd_poller (fun p => with_channels (<[fd_ c := channel]> (channels_ p)) p)) ;;
    upd_chan channel (with_index kAdded) ;;
    update EPOLL_CTL_ADD channel
  else if isNoneEvent c then
    update EPOLL_CTL_DEL channel ;;
    upd_chan channel (with_index kDeleted)
  else update EPOLL_CTL_MOD channel.

Definition removeChannel (channel : ptr) : M unit :=
  c ← get_chan channel;
  let index := index_ c in
  upd_poller (fun p => with_channels (delete (fd_ c) (channels_ p)) p) ;;
  when_ (index =? kAdded) (update EPOLL_CTL_DEL channel) ;;
  upd_chan channel (with_index kNew).

(** The loop of [fillActiveChannels] with [n] events left, at index [i]. *)
Fixpoint fill_loop (n i : nat) (activeChannels : list ptr) : M (list ptr) :=
  match n with
  | O => mret activeChannels
  | S n' =>
      p ← poller;
      ev ← unwrap (Undefined OutOfBounds) (po_events p !! i);
      channel ← unwrap (Undefined NullDeref) (ev_data ev);
      upd_chan channel (with_revents (int32 (ev_events ev))) ;;
      fill_loop n' (S i) (activeChannels ++ [channel])
  end.

Definition fillActiveChannels (numEvents : Z) (activeChannels : list ptr) : M (list ptr) :=
  fill_loop (Z.to_nat numEvents) 0 activeChannels.

(** [Poller::poll]: the time of the poll and the extended channel list. *)
Definition poll (timeoutMs : Z) (activeChannels : list ptr) : M (Z * list ptr) :=
  p ← poller;
  r ← sys (SysEpollWait (epollfd_ p) (int32 (zlen (po_events p))) timeoutMs);
  w ← get_st;
  let savedErrno := errno w in
  t ← sys SysTime;
  let now := int32 (ret_int t) in
  match r with
  | SysOk evs =>
      let numEvents := zlen evs in
      assert_storage (zlen evs <=? zlen (po_events p)) ;;
      upd_poller (with_po_events (evs ++ drop (length evs) (po_events p))) ;;
      if 0 <? numEvents then
        active ← fillActiveChannels numEvents activeChannels;
        p' ← poller;
        l ← lift (event_list_resize (zlen (po_events p') * 2) (po_events p'));
        upd_poller (with_po_events l) ;;
        mret (now, active)
      else mret (now, activeChannels)
  | SysErr _ =>
      when_ (negb (savedErrno =? EINTR)) (modify (set_errno savedErrno)) ;;
      mret (now, activeChannels)
  end.
End Poller.
