(* ===== verification/EventLoop.v ===== *)
(** * EventLoop: registration and deferred work (EventLoop.hpp, EventLoop.cpp)

    The operations of the loop that other objects call.  The loop itself, which
    calls back into channels and sockets, is in Reactor.v. *)

From S2P Require Import Prelude Kernel World Poller.

Definition kPollTimeMs : Z := 10000.

Section EventLoop.
Context {K U : Type} `{Kernel (option ptr) K}.
Abbreviation M := (prog (World K U)).

(** [EventLoop::EventLoop]; [pollReturnTime_] is not initialised there, its
    value [t0] is arbitrary. *)
Definition EventLoop_ctor (t0 : Z) : M (EventLoop U) :=
  p ← Poller_ctor;
  mret (mkEventLoop false false t0 p [] []).

Definition quit : M unit := modify (on_loop (with_quit true)).

Definition pollReturnTime : M Z := gets (fun w => pollReturnTime_ (the_loop w)).

Definition updateChannel (channel : ptr) : M unit := Poller.updateChannel channel.
Definition removeChannel (channel : ptr) : M unit := Poller.removeChannel channel.

(** The functor holds a copy of the [shared_ptr]: the caller has counted it. *)
Definition runInLoop (cb : Callback U * ptr) : M unit :=
  modify (on_loop (fun l => with_pendingFunctors (pendingFunctors_ l ++ [cb]) l)).
End EventLoop.
