(* ===== verification/Channel.v ===== *)
(** * Channel: one descriptor and its callbacks (Channel.hpp, Channel.cpp) *)

From S2P Require Import Prelude Kernel World Poller EventLoop.
From stdpp Require Import pretty.

Definition kReadEvent : Z := Z.lor EPOLLIN EPOLLPRI.
Definition kWriteEvent : Z := EPOLLOUT.

(** [Channel::Channel]: no events, unknown to the poller. *)
Definition Channel_ctor (fd : Z) : Channel :=
  mkChannel fd 0 0 (-1) false None None None None.

Definition isWriting (c : Channel) : bool := test_flag (events_ c) kWriteEvent.

(** [Channel::reventsToString] *)
Definition reventsToString (c : Channel) : string :=
  let flag (f : Z) (name : string) : string :=
    if test_flag (revents_ c) f then name else "" in
  (pretty (fd_ c) +:+ ": " +:+ flag EPOLLIN "IN " +:+ flag EPOLLPRI "PRI "
   +:+ flag EPOLLOUT "OUT " +:+ flag EPOLLHUP "HUP " +:+ flag EPOLLRDHUP "RDHUP "
   +:+ flag EPOLLERR "ERR ")%string.

Section Channel.
Context {K U : Type} `{Kernel (option ptr) K}.
Abbreviation M := (prog (World K U)).

Definition update (this : ptr) : M unit := EventLoop.updateChannel this.
Definition remove (this : ptr) : M unit := EventLoop.removeChannel this.

Definition enableReading (this : ptr) : M unit :=
  upd_chan this (fun c => with_events (Z.lor (events_ c) kReadEvent) c) ;; update this.
Definition enableWriting (this : ptr) : M unit :=
  upd_chan this (fun c => with_events (Z.lor (events_ c) kWriteEvent) c) ;; update this.
Definition disableWriting (this : ptr) : M unit :=
  upd_chan this (fun c => with_events (Z.land (events_ c) (Z.lnot kWriteEvent)) c) ;;
  update this.
Definition disableAll (this : ptr) : M unit :=
  upd_chan this (with_events kNoneEvent) ;; update this.

(** [handleEvent] calls the callbacks the channel was given.  It reads its own
    members again after each of them. *)
Section HandleEvent.
Variable run_read : ReadEventCallback -> Z -> M unit.
Variable run_event : EventCallback -> M unit.

Definition call_if {F} (run : F -> M unit) (cb : option F) : M unit :=
  match cb with Some f => run f | None => mret tt end.

Definition handleEvent (this : ptr) (receiveTime : Z) : M unit :=
  upd_chan this (with_eventHandling true) ;;
  c ← get_chan this;
  when_ (test_flag (revents_ c) EPOLLHUP && negb (test_flag (revents_ c) EPOLLIN))
    (call_if run_event (closeCallback_ c)) ;;
  c ← get_chan this;
  when_ (test_flag (revents_ c) EPOLLERR) (call_if run_event (errorCallback_ c)) ;;
  c ← get_chan this;
  when_ (test_flag (revents_ c) (Z.lor EPOLLIN (Z.lor EPOLLPRI EPOLLRDHUP)))
    (call_if (fun cb => run_read cb receiveTime) (readCallback_ c)) ;;
  c ← get_chan this;
  when_ (test_flag (revents_ c) EPOLLOUT) (call_if run_event (writeCallback_ c)) ;;
  upd_chan this (with_eventHandling false).
End HandleEvent.
End Channel.
