(* ===== verification/Callbacks.v ===== *)
(** * Callbacks: the code a Socket calls back into

    [Socket::Callback] functions are either code of the library's user or the
    server's [connectionClose], which the server binds into every connection.
    User code is a parameter: a computation on the world for each function. *)

From S2P Require Import Prelude Kernel World.

Class UserCode (K U : Type) := run_user : U -> ptr -> prog (World K U) unit.

Section Callbacks.
Context {K U : Type} `{Kernel (option ptr) K} `{UserCode K U}.
Abbreviation M := (prog (World K U)).

Definition connections : M (gmap Z ptr) := gets (fun w => connections_ (the_server w)).
Definition set_connections (m : gmap Z ptr) : M unit := modify (on_server (with_connections m)).

(** [connections_.erase(fd)]: the [shared_ptr] in the map is destroyed. *)
Definition connections_erase (fd : Z) : M unit :=
  m ← connections;
  match m !! fd with
  | Some s => set_connections (delete fd m) ;; release s
  | None => mret tt
  end.

(** Calling a [std::function] that may be empty. *)
Definition call_user (cb : option U) (conn : ptr) : M unit :=
  u ← unwrap BadFunctionCall cb; run_user u conn.

Definition connectionClose (conn : ptr) : M unit :=
  o ← get_sock conn;
  connections_erase (so_fd o) ;;
  cb ← gets (fun w => ts_closeCallback (the_server w));
  call_user cb conn.

Definition call (cb : Callback U) (s : ptr) : M unit :=
  match cb with
  | UserCallback u => run_user u s
  | TcpServer_connectionClose => connectionClose s
  end.

(** [cb(shared_from_this())]: the argument is a temporary [shared_ptr]. *)
Definition call_with_self (cb : option (Callback U)) (this : ptr) : M unit :=
  share this ;;
  f ← unwrap BadFunctionCall cb;
  call f this ;;
  release this.
End Callbacks.
