(* ===== verification/Socket.v ===== *)
(** * Socket: one connection (Socket.hpp, Socket.cpp) *)

From S2P Require Import Prelude Bytes Buffer Kernel World Poller EventLoop Channel Callbacks.

Section Socket.
Context {K U : Type} `{Kernel (option ptr) K} `{UserCode K U}.
Abbreviation M := (prog (World K U)).

(** Operations on the buffers inside a socket; [readFd] also makes a call. *)
Definition on_input {A} (this : ptr) (m : prog (Buffer * K) A) : M A :=
  o ← get_sock this;
  mk_prog (fun w =>
    match m (inputBuffer_ o, kernel w) with
    | Ok (a, (b, k)) => Ok (a, on_socks (<[this := with_inputBuffer b o]>) (set_kernel k w))
    | Err f => Err f
    end).
Definition on_output {A} (this : ptr) (m : prog Buffer A) : M A :=
  o ← get_sock this;
  mk_prog (fun w =>
    match m (outputBuffer_ o) with
    | Ok (a, b) => Ok (a, on_socks (<[this := with_outputBuffer b o]>) w)
    | Err f => Err f
    end).

Definition readv (fd : Z) (lens : list Z) (k : K) : sysres (list byte) * K :=
  sys_exec (SysReadv fd lens) k.

(** [chan_->fd()] *)
Definition chan_fd (this : ptr) : M Z :=
  o ← get_sock this; c ← get_chan (chan_ o); mret (fd_ c).

Definition handleClose (this : ptr) : M unit :=
  o ← get_sock this;
  _ ← sys (SysClose (so_fd o));
  Channel.remove (chan_ o) ;;
  o' ← get_sock this;
  call_with_self (so_closeCallback o') this.

(** The error is only logged. *)
Definition handleError (this : ptr) : M unit :=
  o ← get_sock this;
  _ ← sys (SysSoError (so_fd o));
  mret tt.

Definition handleRead (this : ptr) (_ : Z) : M unit :=
  fd ← chan_fd this;
  '(n, savedErrno) ← on_input this (readFd readv fd);
  if 0 <? n then
    o ← get_sock this;
    call_with_self (so_messageCallback o) this
  else if n =? 0 then handleClose this
  else
    modify (set_errno (default 0 savedErrno)) ;;
    handleError this.

Definition handleWrite (this : ptr) : M unit :=
  fd ← chan_fd this;
  data ← on_output this (b ← get_st; read_at (peek b) (readableBytes b));
  r ← sys (SysWrite fd data);
  let n := ret_int r in
  if 0 <? n then
    on_output this (retrieve n) ;;
    o ← get_sock this;
    when_ (readableBytes (outputBuffer_ o) =? 0) (
      Channel.disableWriting (chan_ o) ;;
      o' ← get_sock this;
      match so_writeCallback o' with
      | Some cb => share this ;; EventLoop.runInLoop (cb, this)
      | None => mret tt
      end)
  else mret tt.

(** [data] is the storage the pointer points to, [len] an [int]. *)
Definition Send (this : ptr) (data : list byte) (len : Z) : M Z :=
  fd ← chan_fd this;
  bytes ← lift (mem_read 0 (size_t len) data);
  r ← sys (SysWrite fd bytes);
  let n := ret_int r in
  if n =? len then mret 0
  else if 0 <? n then
    on_output this (append (drop (Z.to_nat n) data) (size_t (len - n))) ;;
    mret 0
  else
    o ← get_sock this;
    e ← gets errno;
    when_ ((e =? EAGAIN) || (e =? EWOULDBLOCK)) (Channel.enableWriting (chan_ o)) ;;
    gets errno.

(** [new Socket(loop, fd)], owned by one [shared_ptr]; both buffers and the
    channel are made before the body of the constructor runs. *)
Definition Socket_ctor (fd : Z) : M ptr :=
  this ← alloc;
  inb ← lift Buffer_ctor;
  outb ← lift Buffer_ctor;
  ch ← alloc;
  modify (on_chans (<[ch := Channel_ctor fd]>)) ;;
  modify (on_socks (<[this :=
    mkSocket inb outb None None None (SockAddr 0 0 0) fd ch 1]>)) ;;
  flags ← sys (SysFcntl fd F_GETFL 0);
  _ ← sys (SysFcntl fd F_SETFL (Z.lor (ret_int flags) O_NONBLOCK));
  flags ← sys (SysFcntl fd F_GETFD 0);
  _ ← sys (SysFcntl fd F_SETFD (Z.lor (ret_int flags) FD_CLOEXEC));
  Channel.enableReading ch ;;
  upd_chan ch (with_readCallback (Socket_handleRead this)) ;;
  upd_chan ch (with_writeCallback (Socket_handleWrite this)) ;;
  upd_chan ch (with_closeCallback (Socket_handleClose this)) ;;
  mret this.

Definition setChanReadCallback (this : ptr) (cb : ReadEventCallback) : M unit :=
  o ← get_sock this; upd_chan (chan_ o) (with_readCallback cb).
Definition setChanCloseCallback (this : ptr) (cb : EventCallback) : M unit :=
  o ← get_sock this; upd_chan (chan_ o) (with_closeCallback cb).
Definition getFD (this : ptr) : M Z := o ← get_sock this; mret (so_fd o).
Definition getChan (this : ptr) : M ptr := o ← get_sock this; mret (chan_ o).
Definition setMessageCallback (this : ptr) (cb : option (Callback U)) : M unit :=
  upd_sock this (with_messageCallback cb).
Definition setWriteCompleteCallback (this : ptr) (cb : option (Callback U)) : M unit :=
  upd_sock this (with_writeCompleteCallback cb).
Definition setCloseCallback (this : ptr) (cb : option (Callback U)) : M unit :=
  upd_sock this (with_so_closeCallback cb).
Definition setAddr (this : ptr) (a : sockaddr_in) : M unit := upd_sock this (with_addr a).
Definition getAddr (this : ptr) : M sockaddr_in := o ← get_sock this; mret (addr_ o).
End Socket.
