(* ===== verification/TcpServer.v ===== *)
(** * TcpServer: accepting and tracking connections (TcpServer.hpp, TcpServer.cpp) *)

From Stdlib Require Import Ascii.
From S2P Require Import Prelude Bytes Kernel World EventLoop Channel Callbacks Socket.

(** ** Splitting the host string *)

(** One call of [std::getline(ss, item, delim)] on a stream that still holds
    [s]: the item, and what is left, or [None] when the end was reached. *)
Fixpoint getline (delim : ascii) (s : string) : string * option string :=
  match s with
  | EmptyString => ("", None)
  | String c s' =>
      if Ascii.eqb c delim then ("", Some s')
      else let '(item, rest) := getline delim s' in (String c item, rest)
  end%string.

(** The loop of [split]: a call on an exhausted stream fails and ends it. *)
Fixpoint split_loop (fuel : nat) (delim : ascii) (s : string) : list string :=
  match fuel with
  | O => []
  | S fuel' =>
      if decide (s = ""%string) then []
      else let '(item, rest) := getline delim s in
           item :: match rest with Some s' => split_loop fuel' delim s' | None => [] end
  end.

Definition split (s : string) (delim : ascii) : list string :=
  split_loop (String.length s) delim s.

(** ** [atoi]: optional blanks and sign, then digits; an out-of-range value is
    undefined. *)
Definition is_space (c : ascii) : bool :=
  let n := Ascii.nat_of_ascii c in ((n =? 32) || ((9 <=? n) && (n <=? 13)))%nat.

Fixpoint digits_value (acc : Z) (s : string) : Z :=
  match s with
  | EmptyString => acc
  | String c s' =>
      let d := Z.of_nat (Ascii.nat_of_ascii c) - 48 in
      if (0 <=? d) && (d <=? 9) then digits_value (acc * 10 + d) s' else acc
  end.

Fixpoint skip_space (s : string) : string :=
  match s with
  | String c s' => if is_space c then skip_space s' else s
  | EmptyString => s
  end.

Definition atoi (s : string) : result Z :=
  let v := match skip_space s with
           | String c s' =>
               if Ascii.eqb c "-"%char then - digits_value 0 s'
               else if Ascii.eqb c "+"%char then digits_value 0 s'
               else digits_value 0 (String c s')
           | EmptyString => 0
           end in
  if (- two31 <=? v) && (v <? two31) then Ok v else Err (Undefined OtherUB).

(** [inet_addr] of <arpa/inet.h> is not part of the sources; nor is what the
    [sockaddr_in] of [accept], which nothing initialises, holds when no peer has
    been stored in it. *)
Class InetAddr := { inet_addr : string -> Z; stale_peer : sockaddr_in }.

(** The error codes after which [accept] goes on. *)
Definition accept_expected (e : Z) : bool :=
  bool_decide (e ∈ [EAGAIN; ECONNABORTED; EINTR; EPROTO; EPERM; EMFILE]).

Section TcpServer.
Context {K U : Type} `{Kernel (option ptr) K} `{UserCode K U} `{InetAddr} `{Host}.
Abbreviation M := (prog (World K U)).

Definition TcpServer_ctor (host : string) : TcpServer U :=
  mkTcpServer None None None None host ∅ None.

Definition setConnectionCallback (cb : option U) (t : TcpServer U) : TcpServer U :=
  mkTcpServer cb (ts_messageCallback t) (ts_closeCallback t) (ts_writeCompleteCallback t)
    (host_ t) (connections_ t) (acceptor t).
Definition setMessageCallback (cb : option U) (t : TcpServer U) : TcpServer U :=
  mkTcpServer (ts_connectionCallback t) cb (ts_closeCallback t) (ts_writeCompleteCallback t)
    (host_ t) (connections_ t) (acceptor t).
Definition setCloseCallback (cb : option U) (t : TcpServer U) : TcpServer U :=
  mkTcpServer (ts_connectionCallback t) (ts_messageCallback t) cb (ts_writeCompleteCallback t)
    (host_ t) (connections_ t) (acceptor t).

Definition server {A} (f : TcpServer U -> A) : M A := gets (fun w => f (the_server w)).
Definition acceptor_ptr : M ptr := o ← server acceptor; unwrap (Undefined NullDeref) o.

Definition acceptorCloseCallback : M unit := EventLoop.quit.

Definition bind : M Z :=
  host ← server host_;
  match split host ":"%char with
  | [e0; e1] =>
      a ← acceptor_ptr;
      port ← lift (atoi e1);
      let paddr := SockAddr AF_INET (htons (uint16 port)) (inet_addr e0) in
      Socket.setAddr a paddr ;;
      fd ← Socket.getFD a;
      r ← sys (SysBind fd paddr);
      mret (ret_unit r)
  | _ => mret (-1)
  end.

Definition listen : M Z :=
  a ← acceptor_ptr;
  fd ← Socket.getFD a;
  r ← sys (SysListen fd SOMAXCONN);
  match r with
  | SysOk _ => mret 0
  | SysErr _ => fail FatalLog
  end.

(** [connections_.insert]: nothing happens when the key is present. *)
Definition connections_insert (fd : Z) (s : ptr) : M unit :=
  m ← connections;
  match m !! fd with
  | Some _ => mret tt
  | None => share s ;; set_connections (<[fd := s]> m)
  end.

Definition accept : M unit :=
  a ← acceptor_ptr;
  fd ← Socket.getFD a;
  r ← sys (SysAccept fd);
  '(connfd, addr) ←
    match r with
    | SysOk (c, addr) => mret (c, addr)
    | SysErr savedErrno =>
        if accept_expected savedErrno
        then modify (set_errno savedErrno) ;; mret (-1, stale_peer)
        else fail FatalLog
    end;
  newSocket ← Socket_ctor connfd;
  Socket.setAddr newSocket addr ;;
  message ← server ts_messageCallback;
  Socket.setMessageCallback newSocket (UserCallback <$> message) ;;
  complete ← server ts_writeCompleteCallback;
  Socket.setWriteCompleteCallback newSocket (UserCallback <$> complete) ;;
  Socket.setCloseCallback newSocket (Some TcpServer_connectionClose) ;;
  newfd ← Socket.getFD newSocket;
  connections_insert newfd newSocket ;;
  chan ← Socket.getChan newSocket;
  EventLoop.updateChannel chan ;;
  connected ← server ts_connectionCallback;
  call_user connected newSocket ;;
  release newSocket.
End TcpServer.
