(* ===== verification/Reactor.v ===== *)
(** * Reactor: the event loop and what it dispatches to (EventLoop.cpp)

    The functions the callbacks were bound from, the loop that calls them, and
    [TcpServer::start], which runs it. *)

From S2P Require Import Prelude Bytes Kernel World Poller EventLoop Channel Callbacks Socket TcpServer.

Section Reactor.
Context {K U : Type} `{Kernel (option ptr) K} `{UserCode K U} `{InetAddr} `{Host}.
Abbreviation M := (prog (World K U)).

Definition run_read (cb : ReadEventCallback) (receiveTime : Z) : M unit :=
  match cb with
  | Socket_handleRead s => Socket.handleRead s receiveTime
  | TcpServer_accept => TcpServer.accept
  end.

Definition run_event (cb : EventCallback) : M unit :=
  match cb with
  | Socket_handleWrite s => Socket.handleWrite s
  | Socket_handleClose s => Socket.handleClose s
  | TcpServer_acceptorCloseCallback => TcpServer.acceptorCloseCallback
  end.

Definition handleEvent (channel : ptr) (receiveTime : Z) : M unit :=
  Channel.handleEvent run_read run_event channel receiveTime.

Definition loop_state {A} (f : EventLoop U -> A) : M A := gets (fun w => f (the_loop w)).

(** The loop of [doPendingFunctors] from index [i]; the size is read again in
    every iteration, so a functor that queues another one prolongs it. *)
Fixpoint pending_loop (fuel i : nat) : M unit :=
  l ← loop_state pendingFunctors_;
  match l !! i with
  | None => mret tt
  | Some (cb, s) =>
      match fuel with
      | O => fail OutOfFuel
      | S fuel' => call cb s ;; pending_loop fuel' (S i)
      end
  end.

Definition doPendingFunctors (fuel : nat) : M unit := pending_loop fuel 0.

(** Only logs, but reads every active channel. *)
Definition printActiveChannels : M unit :=
  l ← loop_state activeChannels_;
  for_each (fun p => c ← get_chan p; let _ := reventsToString c in mret tt) l.

(** One iteration of [EventLoop::loop]. *)
Definition loop_body (fuel : nat) : M unit :=
  modify (on_loop (with_activeChannels [])) ;;
  active ← loop_state activeChannels_;
  '(now, active) ← poll kPollTimeMs active;
  modify (on_loop (fun l => with_pollReturnTime now (with_activeChannels active l))) ;;
  printActiveChannels ;;
  l ← loop_state activeChannels_;
  t ← loop_state pollReturnTime_;
  for_each (fun p => handleEvent p t) l ;;
  doPendingFunctors fuel.

Fixpoint loop_while (fuel : nat) : M unit :=
  q ← loop_state quit_;
  if q : bool then mret tt
  else match fuel with
       | O => fail OutOfFuel
       | S fuel' => loop_body fuel' ;; loop_while fuel'
       end.

Definition loop (fuel : nat) : M unit :=
  modify (on_loop (with_looping true)) ;;
  modify (on_loop (with_quit false)) ;;
  loop_while fuel ;;
  modify (on_loop (with_looping false)).

(** [TcpServer::start] *)
Definition start (fuel : nat) : M unit :=
  r ← sys SysSocket;
  p ← Socket_ctor (ret_int r);
  old ← server acceptor;
  share p ;;
  modify (on_server (with_acceptor (Some p))) ;;
  match old with Some a => release a | None => mret tt end ;;
  Socket.setChanReadCallback p TcpServer_accept ;;
  Socket.setChanCloseCallback p TcpServer_acceptorCloseCallback ;;
  ret ← TcpServer.bind;
  (if negb (ret =? 0) then mret tt
   else ret ← TcpServer.listen;
        if negb (ret =? 0) then mret tt else loop fuel) ;;
  release p.
End Reactor.
