(* ===== verification/Main.v ===== *)
(** * Main: the example server (main.cpp) *)

From S2P Require Import Prelude Bytes Buffer Kernel World EventLoop Callbacks Socket TcpServer Reactor.

(** The callbacks main.cpp registers. *)
Inductive main_fn := message | cclose | newConn.

(** ["aaaabbbb"] with its terminating zero, as [sizeof] counts it. *)
Definition greeting : list byte :=
  [Byte.x61; Byte.x61; Byte.x61; Byte.x61; Byte.x62; Byte.x62; Byte.x62; Byte.x62; Byte.x00].

Section Main.
Context {K : Type} `{Kernel (option ptr) K}.
Abbreviation W := (World K main_fn).

(** [inputBuffer_.retrieveAllAsString()] of a connection. *)
Definition take_input (s : ptr) : prog W (list byte) :=
  on_input s (zoom fst (fun b '(_, k) => (b, k)) retrieveAllAsString).

#[export] Instance main_code : UserCode K main_fn := fun f s =>
  match f with
  | message =>
      _ ← Socket.getAddr s;
      _ ← take_input s;
      _ ← Socket.Send s greeting (zlen greeting);
      mret tt
  | cclose => _ ← Socket.getAddr s; mret tt
  | newConn => _ ← Socket.getAddr s; mret tt
  end.

Context `{InetAddr} `{Host}.

(** The world before the first constructor runs: no object exists. *)
Definition blank_world (k : K) : W :=
  mkWorld k 0 ∅ ∅ 1%positive (mkEventLoop false false 0 (mkPoller (-1) [] ∅) [] [])
    (TcpServer_ctor "127.0.0.1:9999").

(** The server object and its loop are constructed, then the callbacks set. *)
Definition main_setup (t0 : Z) : prog W unit :=
  l ← EventLoop_ctor t0;
  modify (on_loop (fun _ => l)) ;;
  modify (on_server (TcpServer.setMessageCallback (Some message))) ;;
  modify (on_server (TcpServer.setCloseCallback (Some cclose))) ;;
  modify (on_server (TcpServer.setConnectionCallback (Some newConn))).

Definition main (t0 : Z) (fuel : nat) : prog W Z :=
  main_setup t0 ;; start fuel ;; mret 0.
End Main.
