(* ===== verification/ScriptKernel.v ===== *)
(** * ScriptKernel: an executable kernel

    A kernel whose blocking calls answer from scripts.  It satisfies
    [KernelLaws], so the laws are consistent, and the theorems are evaluated on
    concrete runs with it. *)

From Stdlib Require Import FunctionalExtensionality.
From S2P Require Import Prelude Bytes Kernel.

Record script (P : Type) := Script {
  sk_open : gset Z;
  sk_interest : gmap Z (gmap Z (epoll_event P));
  sk_sent : gmap Z (list byte);
  sk_next : Z;                              (* the next descriptor of socket and epoll_create *)
  sk_reads : list (sysres (list byte));     (* then EAGAIN *)
  sk_writes : list (sysres Z);              (* room in the socket buffer, then unlimited *)
  sk_accepts : list (sysres (Z * sockaddr_in));   (* then EAGAIN *)
  sk_waits : list (sysres (list (Z * Z)))   (* ready descriptors and their events, then none *)
}.
Arguments Script {P}.
Arguments sk_open {P}.
Arguments sk_interest {P}.
Arguments sk_sent {P}.
Arguments sk_next {P}.
Arguments sk_reads {P}.
Arguments sk_writes {P}.
Arguments sk_accepts {P}.
Arguments sk_waits {P}.

Section ScriptKernel.
Context {P : Type}.
Abbreviation K := (script P).
Implicit Type k : K.

Definition sk_interest_of k (ep : Z) : gmap Z (epoll_event P) :=
  filter (fun x => x.1 ∈ sk_open k) (default ∅ (sk_interest k !! ep)).
Definition sk_sent_by k (fd : Z) : list byte := default [] (sk_sent k !! fd).

Definition set_open o i k : K :=
  Script o i (sk_sent k) (sk_next k) (sk_reads k) (sk_writes k) (sk_accepts k) (sk_waits k).
Definition set_interest i k : K := set_open (sk_open k) i k.
Definition set_scripts next rd wr acc wt k : K :=
  Script (sk_open k) (sk_interest k) (sk_sent k) next rd wr acc wt.
Definition add_sent fd data k : K :=
  Script (sk_open k) (sk_interest k) (<[fd := sk_sent_by k fd ++ data]> (sk_sent k))
    (sk_next k) (sk_reads k) (sk_writes k) (sk_accepts k) (sk_waits k).

Definition next_answer {A} (d : A) (l : list A) : A * list A :=
  match l with [] => (d, []) | a :: l' => (a, l') end.

(** A new descriptor starts with no registration. *)
Definition open_fd fd k : K :=
  set_open ({[fd]} ∪ sk_open k) (delete fd <$> sk_interest k) k.
Definition close_fd fd k : K :=
  set_open (sk_open k ∖ {[fd]}) (delete fd <$> sk_interest k) k.

Definition do_read (fd room : Z) k : sysres (list byte) * K :=
  if decide (fd ∈ sk_open k) then
    let '(r, rest) := next_answer (SysErr EAGAIN) (sk_reads k) in
    (match r with SysOk data => SysOk (take (Z.to_nat room) data) | SysErr e => SysErr e end,
     set_scripts (sk_next k) rest (sk_writes k) (sk_accepts k) (sk_waits k) k)
  else (SysErr EBADF, k).

Definition do_write fd data k : sysres Z * K :=
  if decide (fd ∈ sk_open k) then
    let '(r, rest) := next_answer (SysOk (zlen data)) (sk_writes k) in
    let k' := set_scripts (sk_next k) (sk_reads k) rest (sk_accepts k) (sk_waits k) k in
    match r with
    | SysOk room => let n := Z.min (Z.max 0 room) (zlen data) in
                    (SysOk n, add_sent fd (take (Z.to_nat n) data) k')
    | SysErr e => (SysErr e, k')
    end
  else (SysErr EBADF, k).

Definition do_accept k : sysres (Z * sockaddr_in) * K :=
  let '(r, rest) := next_answer (SysErr EAGAIN) (sk_accepts k) in
  let k' := set_scripts (sk_next k) (sk_reads k) (sk_writes k) rest (sk_waits k) k in
  match r with
  | SysOk (c, addr) =>
      if decide (0 <= c /\ c ∉ sk_open k) then (SysOk (c, addr), open_fd c k')
      else (SysErr EMFILE, k')
  | SysErr e => (SysErr e, k')
  end.

Definition do_ctl ep op fd ev k : sysres unit * K :=
  let i := default ∅ (sk_interest k !! ep) in
  let put m := (SysOk tt, set_interest (<[ep := m]> (sk_interest k)) k) in
  if decide (fd ∈ sk_open k) then
    match op, i !! fd with
    | EPOLL_CTL_ADD, None => put (<[fd := ev]> i)
    | EPOLL_CTL_MOD, Some _ => put (<[fd := ev]> i)
    | EPOLL_CTL_DEL, Some _ => put (delete fd i)
    | _, _ => (SysErr (match op with EPOLL_CTL_ADD => 17 | _ => 2 end), k)
    end
  else (SysErr EBADF, k).

Definition do_wait ep maxevents k : sysres (list (epoll_event P)) * K :=
  if decide (ep ∉ sk_open k) then (SysErr EBADF, k)
  else if 0 <? maxevents then
    let '(r, rest) := next_answer (SysOk []) (sk_waits k) in
    let i := sk_interest_of k ep in
    (match r with
     | SysOk ready => SysOk (take (Z.to_nat maxevents)
         (omap (fun '(fd, evs) => (fun reg => EpollEvent evs (ev_data reg)) <$> i !! fd) ready))
     | SysErr e => SysErr e
     end,
     set_scripts (sk_next k) (sk_reads k) (sk_writes k) (sk_accepts k) rest k)
  else (SysErr EINVAL, k).

(** [socket] and [epoll_create] number their descriptors. *)
Definition do_open k : sysres Z * K :=
  let fd := sk_next k in
  (SysOk fd, set_scripts (fd + 1) (sk_reads k) (sk_writes k) (sk_accepts k) (sk_waits k)
               (open_fd fd k)).

#[export] Instance script_kernel : Kernel P K := fun A c =>
  match c in syscall _ A return K -> sysres A * K with
  | SysSocket => do_open
  | SysEpollCreate => do_open
  | SysBind _ _ | SysListen _ _ | SysReuseAddr _ => fun k => (SysOk tt, k)
  | SysAccept _ => do_accept
  | SysClose fd => fun k => (SysOk tt, close_fd fd k)
  | SysFcntl _ _ _ | SysSoError _ | SysTime => fun k => (SysOk 0, k)
  | SysReadv fd lens => do_read fd (foldr Z.add 0 lens)
  | SysRecv fd len => do_read fd len
  | SysWrite fd data => do_write fd data
  | SysEpollCtl ep op fd ev => do_ctl ep op fd ev
  | SysEpollWait ep maxevents _ => do_wait ep maxevents
  end.

(** ** It keeps the laws *)

Lemma interest_lookup k ep fd :
  sk_interest_of k ep !! fd =
  if decide (fd ∈ sk_open k) then default ∅ (sk_interest k !! ep) !! fd else None.
Proof.
  unfold sk_interest_of. case_decide as Hin.
  - destruct (default ∅ _ !! fd) as [ev|] eqn:E.
    + by apply map_lookup_filter_Some.
    + apply map_lookup_filter_None. by left.
  - apply map_lookup_filter_None. right. by intros ? _.
Qed.

Lemma default_delete (m : gmap Z (gmap Z (epoll_event P))) ep fd :
  default ∅ ((delete fd <$> m) !! ep) = delete fd (default ∅ (m !! ep)).
Proof.
  rewrite lookup_fmap. destruct (m !! ep); cbn; [done|]. by rewrite delete_empty.
Qed.

Lemma interest_close fd k ep : sk_interest_of (close_fd fd k) ep = delete fd (sk_interest_of k ep).
Proof.
  apply map_eq. intros fd'. rewrite interest_lookup. cbn. rewrite default_delete.
  destruct (decide (fd' = fd)) as [->|Hne].
  - rewrite !lookup_delete_eq. by case_decide.
  - rewrite !lookup_delete_ne by done. rewrite interest_lookup.
    repeat case_decide; set_solver.
Qed.

Lemma interest_open fd k ep : fd ∉ sk_open k -> sk_interest_of (open_fd fd k) ep = sk_interest_of k ep.
Proof.
  intros Hfd. apply map_eq. intros fd'. rewrite !interest_lookup. cbn. rewrite default_delete.
  destruct (decide (fd' = fd)) as [->|Hne].
  - rewrite lookup_delete_eq. repeat case_decide; done.
  - rewrite lookup_delete_ne by done. repeat case_decide; set_solver.
Qed.

Lemma interest_set k ep ep' m :
  sk_interest_of (set_interest (<[ep := m]> (sk_interest k)) k) ep' =
  if decide (ep' = ep) then filter (fun x => x.1 ∈ sk_open k) m else sk_interest_of k ep'.
Proof.
  unfold sk_interest_of. cbn. destruct (decide (ep' = ep)) as [->|Hne].
  - by rewrite lookup_insert_eq.
  - by rewrite lookup_insert_ne.
Qed.

Lemma do_open_law k :
  let k' := (do_open k).2 in
  sk_open k ⊆ sk_open k' /\ forall ep fd ev,
    sk_interest_of k' ep !! fd = Some ev -> sk_interest_of k ep !! fd = Some ev.
Proof.
  split; [cbn; set_solver|]. intros ep fd ev. rewrite !interest_lookup. cbn. rewrite default_delete.
  destruct (decide (fd = sk_next k)) as [->|Hne].
  - rewrite lookup_delete_eq. by case_decide.
  - rewrite lookup_delete_ne by done. repeat case_decide; set_solver.
Qed.

Lemma do_read_quiet fd room k :
  let k' := (do_read fd room k).2 in
  sk_open k' = sk_open k /\ sk_interest_of k' = sk_interest_of k /\ sk_sent_by k' = sk_sent_by k.
Proof. unfold do_read. case_decide; [|done]. by destruct (sk_reads k). Qed.

Lemma do_read_fits fd room k data :
  0 <= room -> (do_read fd room k).1 = SysOk data -> zlen data <= room.
Proof.
  intros Hr. unfold do_read. case_decide; [|done]. unfold next_answer.
  destruct (sk_reads k) as [|[d|e] l]; cbn; [done| |done].
  intros [= <-]. unfold zlen. rewrite length_take. lia.
Qed.

Lemma do_wait_quiet ep m k :
  let k' := (do_wait ep m k).2 in
  sk_open k' = sk_open k /\ sk_interest_of k' = sk_interest_of k /\ sk_sent_by k' = sk_sent_by k.
Proof.
  unfold do_wait. case_decide; [done|]. destruct (0 <? m); [|done]. by destruct (sk_waits k).
Qed.

Lemma do_wait_reports ep m k evs :
  (do_wait ep m k).1 = SysOk evs ->
  zlen evs <= m /\
  Forall (fun e => exists fd reg,
    sk_interest_of k ep !! fd = Some reg /\ ev_data e = ev_data reg) evs.
Proof.
  unfold do_wait. case_decide; [done|]. destruct (Z.ltb_spec 0 m) as [Hm|]; [|done].
  destruct (next_answer (SysOk []) (sk_waits k)) as [[ready|e] rest]; cbn; [|done].
  intros [= <-]. split; [unfold zlen; rewrite length_take; lia|].
  apply Forall_take, Forall_forall. intros ev Hev.
  apply list_elem_of_omap in Hev as ([fd evs'] & _ & Hev).
  destruct (sk_interest_of k ep !! fd) as [reg|] eqn:E; [|done]. cbn in Hev. simplify_eq.
  by exists fd, reg.
Qed.

Lemma do_write_law fd data k :
  let '(r, k') := do_write fd data k in
  sk_open k' = sk_open k /\ sk_interest_of k' = sk_interest_of k /\
  match r with
  | SysOk n => 0 <= n <= zlen data
      /\ sk_sent_by k' fd = sk_sent_by k fd ++ take (Z.to_nat n) data
      /\ forall fd', fd' <> fd -> sk_sent_by k' fd' = sk_sent_by k fd'
  | SysErr _ => sk_sent_by k' = sk_sent_by k
  end.
Proof.
  unfold do_write. case_decide; [|done].
  destruct (next_answer _ (sk_writes k)) as [[room|e] rest]; [|done].
  do 2 (split; [done|]). split; [pose proof (zlen_nonneg data); lia|].
  unfold sk_sent_by, add_sent. cbn. rewrite lookup_insert_eq. split; [done|].
  intros fd' Hne. by rewrite lookup_insert_ne.
Qed.

Lemma do_accept_law k :
  let '(r, k') := do_accept k in
  sk_interest_of k' = sk_interest_of k /\ sk_sent_by k' = sk_sent_by k /\
  match r with
  | SysOk (c, _) => 0 <= c /\ ~ (c ∈ sk_open k) /\ sk_open k' = ({[c]} ∪ sk_open k)
  | SysErr _ => sk_open k' = sk_open k
  end.
Proof.
  unfold do_accept. destruct (next_answer _ (sk_accepts k)) as [[[c a]|e] rest]; [|done].
  destruct (decide _) as [[? ?]|]; [|done]. split; [|done].
  apply functional_extensionality. intros ep. by rewrite interest_open.
Qed.

Lemma do_ctl_law ep op fd ev k :
  let '(r, k') := do_ctl ep op fd ev k in
  sk_open k' = sk_open k /\ sk_sent_by k' = sk_sent_by k /\
  (forall ep', ep' <> ep -> sk_interest_of k' ep' = sk_interest_of k ep') /\
  match r with
  | SysErr _ => sk_interest_of k' = sk_interest_of k
  | SysOk _ =>
      match op with
      | EPOLL_CTL_ADD => sk_interest_of k ep !! fd = None
                         /\ sk_interest_of k' ep = <[fd := ev]> (sk_interest_of k ep)
      | EPOLL_CTL_MOD => is_Some (sk_interest_of k ep !! fd)
                         /\ sk_interest_of k' ep = <[fd := ev]> (sk_interest_of k ep)
      | EPOLL_CTL_DEL => is_Some (sk_interest_of k ep !! fd)
                         /\ sk_interest_of k' ep = delete fd (sk_interest_of k ep)
      end
  end.
Proof.
  unfold do_ctl. case_decide as Hfd; [|done].
  pose proof (interest_lookup k ep fd) as Hl. rewrite decide_True in Hl by done.
  assert (forall m : gmap Z (epoll_event P), filter (fun x : Z * epoll_event P => x.1 ∈ sk_open k) (<[fd:=ev]> m)
    = <[fd:=ev]> (filter (fun x => x.1 ∈ sk_open k) m)) as Hins.
  { intros m. by rewrite map_filter_insert_True. }
  destruct op, (default ∅ (sk_interest k !! ep) !! fd) eqn:E; try done;
    (do 2 (split; [done|]); split;
     [intros ep' Hne; rewrite interest_set; by destruct (decide _)|];
     rewrite interest_set, decide_True, Hl by done; split; [by eauto|]).
  - by rewrite Hins.
  - by rewrite map_filter_delete.
  - by rewrite Hins.
Qed.

#[export] Instance script_laws : KernelLaws P K.
Proof.
  refine {| k_open := sk_open; k_interest := sk_interest_of; k_sent := sk_sent_by |}.
  - intros A c k Hq. destruct c; try done; try apply do_read_quiet. apply do_wait_quiet.
  - intros k ep fd Hi. rewrite interest_lookup in Hi. case_decide; [done|by destruct Hi].
  - intros fd lens k data Hl. apply do_read_fits. induction Hl; cbn; lia.
  - intros fd len k data Hl. by apply do_read_fits.
  - intros fd data k. apply do_write_law.
  - intros fd k. apply do_accept_law.
  - intros c k [-> | ->]; apply do_open_law.
  - intros fd k. cbn. split; [done|]. split; [|done]. intros ep. apply interest_close.
  - intros ep op fd ev k. apply do_ctl_law.
  - intros ep fd ev k Hi. cbn. unfold do_ctl. rewrite interest_lookup in Hi.
    destruct (decide (fd ∈ sk_open k)); [|by destruct Hi]. by destruct Hi as [? ->].
  - intros ep m t k evs. apply do_wait_reports.
  - intros ep m t k Hep. cbn. unfold do_wait. by rewrite decide_True.
  - intros ep m t k Hm Hep. cbn. unfold do_wait. rewrite decide_False by auto.
    by rewrite (proj2 (Z.ltb_ge _ _)).
Defined.
End ScriptKernel.

(** Nothing open, unlimited writes, no input. *)
Definition idle_kernel {P} (next : Z) : script P := Script ∅ ∅ ∅ next [] [] [] [].
