(* ===== verification/Scenarios.v ===== *)
(** * Scenarios: concrete worlds

    The example server of main.cpp on scripted kernels, stopped at the points
    where the theorems are evaluated, and a decision procedure for the
    invariant that ties epoll to the channels. *)

From S2P Require Import Prelude Bytes Buffer Kernel World Poller EventLoop Channel Callbacks Socket TcpServer Reactor Main ScriptKernel.

#[export] Instance demo_inet : InetAddr :=
  { inet_addr _ := 16777343; stale_peer := SockAddr 24930 26984 0 }.
#[export] Instance demo_host : Host := LittleEndian.

Abbreviation DK := (script (option ptr)).
Abbreviation DW := (World DK main_fn).

Definition exec {S A} (m : prog S A) (s : S) : S :=
  match m s with Ok (_, s') => s' | Err _ => s end.

(** What [start] does before it binds. *)
Definition make_acceptor : prog DW unit :=
  r ← sys SysSocket;
  p ← Socket_ctor (ret_int r);
  modify (on_server (with_acceptor (Some p))) ;;
  setChanReadCallback p TcpServer_accept ;;
  setChanCloseCallback p TcpServer_acceptorCloseCallback.

Definition scripted (rd : list (sysres (list byte))) (wr : list (sysres Z))
  (acc : list (sysres (Z * sockaddr_in))) (wt : list (sysres (list (Z * Z)))) : DK :=
  set_scripts 3 rd wr acc wt (idle_kernel 3).

(** The server with its acceptor: epoll is descriptor 3, the acceptor 4; the
    socket is at address 1 and its channel at 2. *)
Definition listening (k : DK) : DW := exec (main_setup 0 ;; make_acceptor) (blank_world k).

Definition peer : sockaddr_in := SockAddr AF_INET 80 2130706433.

(** The server with one connection on descriptor 7: socket 3, channel 4. *)
Definition connected rd wr wt : DW :=
  exec TcpServer.accept (listening (scripted rd wr [SysOk (7, peer)] wt)).

Definition hi : list byte := [Byte.x68; Byte.x69].

Example connected_heap :
  let w := connected [] [] [] in
  (fd_ <$> chans w, (fun o => (so_fd o, use_count o)) <$> socks w, connections_ (the_server w),
   ev_events <$> sk_interest_of (kernel w) 3)
  = (<[2%positive := 4]> {[4%positive := 7]}, <[1%positive := (4, 1)]> {[3%positive := (7, 1)]},
     {[7 := 3%positive]}, <[4 := 3]> {[7 := 3]}).
Proof. vm_compute. reflexivity. Qed.

(** One round: the connection is readable, "hi" arrives and is answered. *)
Example one_round :
  let w := exec (loop_body 5) (connected [SysOk hi] [] [SysOk [(7, EPOLLIN)]]) in
  sk_sent_by (kernel w) 7 = greeting.
Proof. vm_compute. reflexivity. Qed.
