(* ===== verification/WorldSpec.v ===== *)
(** * WorldSpec: proof rules for the world

    How the heap operations and the system calls act under [runs], and the
    tactics that execute a straight-line program symbolically. *)

From S2P Require Import Prelude Bytes Buffer Kernel World.

Section Rules.
Context {K U : Type} `{Kernel (option ptr) K}.
Implicit Type w : World K U.

(** The world after a call. *)
Definition after_sys {A} (r : sysres A) (k : K) w : World K U :=
  match r with
  | SysOk _ => set_kernel k w
  | SysErr e => set_errno e (set_kernel k w)
  end.

Lemma runs_sys {A} (c : syscall (option ptr) A) w (Q : sysres A -> World K U -> Prop) :
  runs (sys c) w Q <->
  Q (sys_exec c (kernel w)).1 (after_sys (sys_exec c (kernel w)).1 (sys_exec c (kernel w)).2 w).
Proof.
  unfold runs, sys, after_sys. by destruct (sys_exec c (kernel w)) as [[a|e] k].
Qed.

Lemma runs_get_chan p w (Q : Channel -> World K U -> Prop) :
  runs (get_chan p) w Q <-> exists c, chans w !! p = Some c /\ Q c w.
Proof. unfold get_chan. run_steps. apply runs_unwrap. Qed.

Lemma runs_upd_chan p f w (Q : unit -> World K U -> Prop) :
  runs (upd_chan p f) w Q <->
  exists c, chans w !! p = Some c /\ Q tt (on_chans <[p := f c]> w).
Proof. unfold upd_chan. run_steps. by rewrite runs_get_chan. Qed.

Lemma runs_get_sock s w (Q : Socket U -> World K U -> Prop) :
  runs (get_sock s) w Q <-> exists o, socks w !! s = Some o /\ Q o w.
Proof. unfold get_sock. run_steps. apply runs_unwrap. Qed.

Lemma runs_upd_sock s f w (Q : unit -> World K U -> Prop) :
  runs (upd_sock s f) w Q <->
  exists o, socks w !! s = Some o /\ Q tt (on_socks <[s := f o]> w).
Proof. unfold upd_sock. run_steps. by rewrite runs_get_sock. Qed.

Lemma runs_share s w (Q : unit -> World K U -> Prop) :
  runs (share s) w Q <->
  exists o, socks w !! s = Some o
            /\ Q tt (on_socks <[s := with_use_count (use_count o + 1) o]> w).
Proof. unfold share. apply runs_upd_sock. Qed.

(** Releasing a reference that is not the last one. *)
Lemma runs_release_kept s o w (Q : unit -> World K U -> Prop) :
  socks w !! s = Some o -> use_count o <> 1 ->
  runs (release s) w Q <->
  Q tt (on_socks <[s := with_use_count (use_count o - 1) o]> w).
Proof.
  intros Hs Hc. unfold release. rewrite runs_bind, runs_get_sock. split.
  - intros (o' & ? & Hr). simplify_eq. rewrite (proj2 (Z.eqb_neq _ _)) in Hr by done.
    rewrite runs_upd_sock in Hr. destruct Hr as (? & ? & ?). by simplify_eq.
  - intros HQ. exists o. split; [done|]. rewrite (proj2 (Z.eqb_neq _ _)) by done.
    rewrite runs_upd_sock. by exists o.
Qed.

(** Releasing the last reference destroys the socket and its channel. *)
Lemma runs_release_last s o w (Q : unit -> World K U -> Prop) :
  socks w !! s = Some o -> use_count o = 1 ->
  runs (release s) w Q <-> Q tt (on_chans (delete (chan_ o)) (on_socks (delete s) w)).
Proof.
  intros Hs Hc. unfold release. rewrite runs_bind, runs_get_sock. split.
  - intros (o' & ? & Hr). simplify_eq. rewrite (proj2 (Z.eqb_eq _ _)) in Hr by done. done.
  - intros HQ. exists o. split; [done|]. by rewrite (proj2 (Z.eqb_eq _ _)).
Qed.

(** ** Faults *)

Lemma ends_bind {A B} (m : prog (World K U) A) (k : A -> prog (World K U) B) w a w' f :
  m w = Ok (a, w') -> ends (k a) w' f -> ends (m ≫= k) w f.
Proof. unfold ends, mbind, prog_bind. by intros ->. Qed.

(** A computation that runs and whose continuation then always faults. *)
Lemma ends_bind_runs {A B} (m : prog (World K U) A) (k : A -> prog (World K U) B) w f :
  runs m w (fun a w' => ends (k a) w' f) -> ends (m ≫= k) w f.
Proof.
  unfold runs, ends, mbind, prog_bind. destruct (m w) as [[a w']|]; [done|tauto].
Qed.

Lemma ends_get_chan p w : chans w !! p = None -> ends (get_chan p) w (Undefined UseAfterFree).
Proof. intros Hp. unfold ends, get_chan, mbind, prog_bind, get_st. cbn. by rewrite Hp. Qed.

Lemma ends_bind_l {A B} (m : prog (World K U) A) (k : A -> prog (World K U) B) w f :
  ends m w f -> ends (m ≫= k) w f.
Proof. unfold ends, mbind, prog_bind. by intros ->. Qed.
End Rules.

(** [obj_step] executes one heap access whose object is known to be live. *)
Ltac heap_live := first [ eassumption | by simplify_map_eq | by cbn; simplify_map_eq ].
Ltac obj_step :=
  first
    [ run_step
    | rewrite runs_get_chan; eexists; split; [heap_live|]; cbn beta
    | rewrite runs_upd_chan; eexists; split; [heap_live|]; cbn beta
    | rewrite runs_get_sock; eexists; split; [heap_live|]; cbn beta
    | rewrite runs_upd_sock; eexists; split; [heap_live|]; cbn beta
    | rewrite runs_share; eexists; split; [heap_live|]; cbn beta ].
Ltac obj_steps := repeat obj_step.
(** [heap_step] also executes system calls. *)
Ltac heap_step := first [ obj_step | rewrite runs_sys ].
Ltac heap_steps := repeat heap_step.

(** ** System calls that only look *)

Section Laws.
Context {K U : Type} `{KernelLaws (option ptr) K}.
Implicit Type w : World K U.

(** What the invariants read of a kernel. *)
Definition same_view (k k' : K) : Prop :=
  k_open k' = k_open k /\ k_interest k' = k_interest k /\ k_sent k' = k_sent k.

#[export] Instance same_view_equiv : Equivalence same_view.
Proof.
  split.
  - by intros k.
  - by intros k k' (? & ? & ?).
  - intros k1 k2 k3 (? & ? & ?) (? & ? & ?). repeat split; congruence.
Qed.

Lemma quiet_view {A} (c : syscall (option ptr) A) k :
  quiet c = true -> same_view k (sys_exec c k).2.
Proof. intros Hq. by apply law_quiet. Qed.
End Laws.
