(* ===== verification/PollerTheorems.v ===== *)
(** * PollerTheorems: what epoll knows of the channels

    The invariant that ties the interest list of the kernel to the live
    channels, its preservation by the operations of [Poller], and the behaviour
    of [poll]. *)

From S2P Require Import Prelude Bytes Buffer Kernel World WorldSpec Poller EventLoop.

Section Soundness.
Context {K U : Type} `{KernelLaws (option ptr) K}.
Implicit Type w : World K U.

Definition epfd w : Z := epollfd_ (poller_ (the_loop w)).
Definition interest w : gmap Z (epoll_event (option ptr)) := k_interest (kernel w) (epfd w).

Definition valid_index (i : Z) : Prop := i = kNew \/ i = kAdded \/ i = kDeleted.

(** Every registered descriptor carries the address of a live channel of that
    descriptor, which knows that it is registered. *)
Record epoll_sound w : Prop := mkSound {
  sound_live fd ev : interest w !! fd = Some ev ->
    exists p c, ev_data ev = Some p /\ chans w !! p = Some c /\ fd_ c = fd /\ index_ c = kAdded;
  sound_index p c : chans w !! p = Some c -> valid_index (index_ c)
}.

(** What the operations of the poller leave alone, as one tuple: everything but
    the channels, the poller's channel map, [errno] and the interest list. *)
Definition loop_static (l : EventLoop U) :=
  (looping_ l, quit_ l, pollReturnTime_ l, activeChannels_ l, pendingFunctors_ l,
   epollfd_ (poller_ l), po_events (poller_ l)).
Definition static w :=
  (socks w, next_ptr w, the_server w, k_open (kernel w), k_sent (kernel w),
   loop_static (the_loop w)).
Definition poller_frame w w' : Prop := static w' = static w.

#[export] Instance poller_frame_equiv : Equivalence poller_frame.
Proof. split; unfold poller_frame; [done|by intros ??|intros ??? -> ; done]. Qed.

Lemma frame_epfd w w' : poller_frame w w' -> epfd w' = epfd w.
Proof. unfold poller_frame, static, loop_static, epfd. congruence. Qed.

Lemma frame_socks w w' : poller_frame w w' -> socks w' = socks w.
Proof. unfold poller_frame, static. congruence. Qed.

Lemma frame_server w w' : poller_frame w w' -> the_server w' = the_server w.
Proof. unfold poller_frame, static. congruence. Qed.

Lemma frame_next w w' : poller_frame w w' -> next_ptr w' = next_ptr w.
Proof. unfold poller_frame, static. congruence. Qed.

Lemma frame_open w w' : poller_frame w w' -> k_open (kernel w') = k_open (kernel w).
Proof. unfold poller_frame, static. congruence. Qed.

Lemma frame_sent w w' : poller_frame w w' -> k_sent (kernel w') = k_sent (kernel w).
Proof. unfold poller_frame, static. congruence. Qed.

Lemma frame_loop w w' : poller_frame w w' -> loop_static (the_loop w') = loop_static (the_loop w).
Proof. unfold poller_frame, static. congruence. Qed.

(** The event a channel registers itself with. *)
Definition own_event (p : ptr) (c : Channel) : epoll_event (option ptr) :=
  EpollEvent (uint32 (events_ c)) (Some p).

(** The interest list after [epoll_ctl(op)] on behalf of channel [c] at [p]. *)
Definition ctl_outcome (op : ctl_op) (p : ptr) (c : Channel)
  (i i' : gmap Z (epoll_event (option ptr))) : Prop :=
  match op with
  | EPOLL_CTL_ADD => i' = i \/ (i !! fd_ c = None /\ i' = <[fd_ c := own_event p c]> i)
  | EPOLL_CTL_MOD =>
      i' = i \/ (is_Some (i !! fd_ c) /\ i' = <[fd_ c := own_event p c]> i)
  | EPOLL_CTL_DEL => i' = delete (fd_ c) i
  end.

(** [Poller::update] changes the interest list as the kernel grants, nothing else. *)
Lemma update_spec op p c w :
  chans w !! p = Some c ->
  runs (Poller.update op p) w (fun _ w' =>
    chans w' = chans w /\ poller_frame w w' /\ ctl_outcome op p c (interest w) (interest w')).
Proof.
  intros Hp. unfold Poller.update. rewrite runs_bind, runs_get_chan. exists c. split; [done|].
  unfold poller. run_steps. rewrite runs_sys, runs_ret.
  set (ev := EpollEvent _ _). set (e := epollfd_ _).
  pose proof (law_ctl e op (fd_ c) ev (kernel w)) as Hlaw.
  pose proof (law_ctl_del e (fd_ c) ev (kernel w)) as Hdel.
  assert (e = epfd w) as He by done.
  destruct (sys_exec (SysEpollCtl e op (fd_ c) ev) (kernel w)) as [r k'] eqn:Hexec.
  destruct Hlaw as (Hopen & Hsent & Hother & Hr). cbn [fst snd].
  assert (chans (after_sys r k' w) = chans w
    /\ poller_frame w (after_sys r k' w) /\ interest (after_sys r k' w) = k_interest k' e) as (? & ? & Hi).
  { unfold poller_frame, static. destruct r; cbn; rewrite Hopen, Hsent; done. }
  rewrite Hi. do 2 (split; [done|]). change (interest w) with (k_interest (kernel w) e).
  destruct r as [u|err], op; cbn; try tauto.
  - rewrite Hr. left. reflexivity.
  - rewrite Hr. symmetry. apply delete_id. destruct (_ !! fd_ c) eqn:E; [|done].
    rewrite Hexec in Hdel. cbn in Hdel. discriminate Hdel. by eexists.
  - rewrite Hr. left. reflexivity.
Qed.

(** Replacing one channel keeps soundness when its own entry stays right. *)
Lemma sound_replace w w' p c c' :
  epoll_sound w -> chans w !! p = Some c -> fd_ c' = fd_ c -> valid_index (index_ c') ->
  chans w' = <[p := c']> (chans w) ->
  (forall fd, fd <> fd_ c -> interest w' !! fd = interest w !! fd) ->
  (forall ev, interest w' !! fd_ c = Some ev ->
    (ev_data ev = Some p /\ index_ c' = kAdded) \/
    (interest w !! fd_ c = Some ev /\ (index_ c = kAdded -> index_ c' = kAdded))) ->
  epoll_sound w'.
Proof.
  intros [Hlive Hidx] Hp Hfd Hval Hch Hother Hown. split.
  - intros fd ev Hev. destruct (decide (fd = fd_ c)) as [->|Hne].
    + destruct (Hown _ Hev) as [[Hd Hi]|[Hold Hi]].
      * exists p, c'. rewrite Hch. by simplify_map_eq.
      * destruct (Hlive _ _ Hold) as (p0 & c0 & Hd & Hc0 & Hf0 & Hi0). rewrite Hch.
        destruct (decide (p0 = p)) as [->|?]; [|by exists p0, c0; simplify_map_eq].
        exists p, c'. simplify_map_eq. auto.
    + rewrite Hother in Hev by done. destruct (Hlive _ _ Hev) as (p0 & c0 & ? & ? & ? & ?).
      exists p0, c0. rewrite Hch. rewrite lookup_insert_ne; [done|]. intros ->. simplify_eq.
  - intros p0 c0. rewrite Hch, lookup_insert_Some. intros [[_ <-]|[_ ?]]; [done|eauto].
Qed.

Lemma sound_add_mod op w w' p c c' :
  op <> EPOLL_CTL_DEL ->
  epoll_sound w -> chans w !! p = Some c -> fd_ c' = fd_ c -> index_ c' = kAdded ->
  chans w' = <[p := c']> (chans w) -> ctl_outcome op p c' (interest w) (interest w') ->
  epoll_sound w'.
Proof.
  intros Hop Hs Hp Hfd Hi Hch Hout.
  assert (interest w' = interest w \/ interest w' = <[fd_ c := own_event p c']> (interest w)) as Hcase.
  { unfold ctl_outcome in Hout. rewrite <- Hfd. destruct op; tauto. }
  assert (valid_index (index_ c')) by (rewrite Hi; unfold valid_index; auto).
  eapply sound_replace; eauto.
  - intros fd Hne. destruct Hcase as [->| ->]; [done|by rewrite lookup_insert_ne].
  - intros ev. destruct Hcase as [->| ->]; [by right|].
    rewrite lookup_insert_eq. intros [= <-]. by left.
Qed.

Lemma sound_del w w' p c c' :
  epoll_sound w -> chans w !! p = Some c -> fd_ c' = fd_ c -> valid_index (index_ c') ->
  chans w' = <[p := c']> (chans w) -> ctl_outcome EPOLL_CTL_DEL p c (interest w) (interest w') ->
  epoll_sound w'.
Proof.
  cbn. intros Hs Hp Hfd Hi Hch Hout. eapply sound_replace; eauto; rewrite Hout.
  - intros fd Hne. by rewrite lookup_delete_ne.
  - intros ev. by rewrite lookup_delete_eq.
Qed.

(** The index a channel has after [updateChannel]. *)
Definition updated_index (c : Channel) : Z :=
  if (index_ c =? kAdded) && isNoneEvent c then kDeleted else kAdded.

(** The [epoll_ctl] operation [updateChannel] performs. *)
Definition update_op (c : Channel) : ctl_op :=
  if index_ c =? kAdded then (if isNoneEvent c then EPOLL_CTL_DEL else EPOLL_CTL_MOD)
  else EPOLL_CTL_ADD.

Lemma updateChannel_spec p c w :
  epoll_sound w -> chans w !! p = Some c ->
  runs (Poller.updateChannel p) w (fun _ w' =>
    epoll_sound w' /\ poller_frame w w'
    /\ chans w' = <[p := with_index (updated_index c) c]> (chans w)
    /\ ctl_outcome (update_op c) p c (interest w) (interest w')).
Proof.
  intros Hs Hp. pose proof (sound_index w Hs p c Hp) as Hi. unfold Poller.updateChannel.
  rewrite runs_bind, runs_get_chan. exists c. split; [done|]. cbn zeta.
  unfold update_op, updated_index.
  assert ((index_ c =? kNew) || (index_ c =? kDeleted) = negb (index_ c =? kAdded)) as ->.
  { by destruct Hi as [->|[->| ->]]. }
  destruct (Z.eqb_spec (index_ c) kAdded) as [Heq|Hne]; cbn [negb andb].
  - destruct (isNoneEvent c).
    + run_using update_spec; [done|]. intros _ w1 (Hch & Hf & Hout).
      rewrite runs_upd_chan. exists c. rewrite Hch. split; [done|].
      assert (chans (on_chans <[p:=with_index kDeleted c]> w1)
        = <[p:=with_index kDeleted c]> (chans w)) as Hch' by (cbn; by rewrite Hch).
      split; [|done]. apply (sound_del w _ p c (with_index kDeleted c)); try done.
      unfold valid_index. cbn. auto.
    + eapply runs_mono; [by apply update_spec|]. cbn beta. intros _ w1 (Hch & Hf & Hout).
      assert (with_index kAdded c = c) as Hc by (rewrite <- Heq; by destruct c).
      assert (chans w1 = <[p:=c]> (chans w)) as Hch' by (by rewrite Hch, insert_id).
      rewrite Hc. split; [|done]. by eapply (sound_add_mod EPOLL_CTL_MOD).
  - rewrite runs_bind, runs_when. unfold upd_poller.
    set (w0 := if index_ c =? kNew then on_loop (fun l => with_poller
      (with_channels (<[fd_ c:=p]> (channels_ (poller_ l))) (poller_ l)) l) w else w).
    assert (forall Q : unit -> World K U -> Prop, (if index_ c =? kNew
      then runs (modify (on_loop (fun l => with_poller
        ((fun p0 => with_channels (<[fd_ c:=p]> (channels_ p0)) p0) (poller_ l)) l))) w Q
      else Q () w) <-> Q () w0) as ->.
    { intros Q. unfold w0. by destruct (index_ c =? kNew). }
    assert (chans w0 = chans w /\ poller_frame w w0 /\ interest w0 = interest w) as (Hc0 & Hf0 & Hi0).
    { unfold w0. by destruct (index_ c =? kNew). }
    rewrite runs_bind, runs_upd_chan. exists c. rewrite Hc0. split; [done|].
    set (w1 := on_chans _ w0).
    assert (chans w1 = <[p:=with_index kAdded c]> (chans w)) as Hc1 by (cbn; by rewrite Hc0).
    eapply runs_mono; [apply (update_spec _ p (with_index kAdded c)); by rewrite Hc1, lookup_insert_eq|].
    cbn beta. intros _ w2 (Hch & Hf & Hout). rewrite Hc1 in Hch.
    change (interest w1) with (interest w0) in Hout. rewrite Hi0 in Hout.
    assert (poller_frame w w2) by (by rewrite Hf0).
    split; [|done]. by apply (sound_add_mod EPOLL_CTL_ADD w w2 p c (with_index kAdded c)).
Qed.

(** Erasing a descriptor from the channel map touches no invariant. *)
Definition forget_channel (fd : Z) w : World K U :=
  on_loop (fun l => with_poller (with_channels (delete fd (channels_ (poller_ l))) (poller_ l)) l) w.

Lemma removeChannel_spec p c w :
  epoll_sound w -> chans w !! p = Some c ->
  runs (Poller.removeChannel p) w (fun _ w' =>
    epoll_sound w' /\ poller_frame w w'
    /\ chans w' = <[p := with_index kNew c]> (chans w)
    /\ interest w' = (if index_ c =? kAdded then delete (fd_ c) (interest w) else interest w)).
Proof.
  intros Hs Hp. unfold Poller.removeChannel. rewrite runs_bind, runs_get_chan.
  exists c. split; [done|]. cbn zeta. unfold upd_poller. rewrite runs_bind, runs_modify.
  fold (forget_channel (fd_ c) w). set (w0 := forget_channel (fd_ c) w).
  change (interest w) with (interest w0). change (chans w) with (chans w0) in *.
  assert (poller_frame w w0) as Hf0 by done.
  assert (epoll_sound w0) as Hs0 by (destruct Hs; by split). clearbody w0.
  rewrite runs_bind, runs_when. destruct (Z.eqb_spec (index_ c) kAdded) as [Heq|Hne].
  - eapply runs_mono; [by apply update_spec|]. cbn beta. intros _ w1 (Hch & Hf & Hout).
    rewrite runs_upd_chan. exists c. rewrite Hch. split; [done|].
    assert (chans (on_chans <[p:=with_index kNew c]> w1) = <[p:=with_index kNew c]> (chans w0))
      as Hch' by (cbn; by rewrite Hch).
    assert (poller_frame w w1) by (by rewrite Hf0). split; [|done].
    apply (sound_del w0 _ p c (with_index kNew c)); try done. unfold valid_index. cbn. auto.
  - rewrite runs_upd_chan. exists c. split; [done|]. split; [|done].
    apply (sound_replace w0 _ p c (with_index kNew c)); try done.
    + unfold valid_index. cbn. auto.
    + intros ev Hev. right. done.
Qed.

(** ** Polling *)

Lemma sound_view w w' :
  epoll_sound w -> chans w' = chans w -> interest w' = interest w -> epoll_sound w'.
Proof. intros [Hlive Hidx] Hch Hi. split; rewrite Hch; [rewrite Hi|]; done. Qed.

(** Storing the reported events of one channel keeps the poller sound. *)
Lemma sound_revents w p c r :
  epoll_sound w -> chans w !! p = Some c ->
  epoll_sound (on_chans <[p := with_revents r c]> w).
Proof.
  intros Hs Hp. apply (sound_replace w _ p c (with_revents r c)); try done.
  - by apply (sound_index w Hs p c).
  - intros ev Hev. right. done.
Qed.

(** What [fillActiveChannels] does with the events [evs]. *)
Fixpoint deliver (evs : list (epoll_event (option ptr))) (chs : gmap ptr Channel)
  : gmap ptr Channel :=
  match evs with
  | [] => chs
  | ev :: evs' =>
      deliver evs' (match ev_data ev with
                    | Some p => alter (with_revents (int32 (ev_events ev))) p chs
                    | None => chs
                    end)
  end.

Lemma deliver_dom evs chs p : is_Some (deliver evs chs !! p) <-> is_Some (chs !! p).
Proof.
  revert chs. induction evs as [|ev evs IH]; intros chs; cbn; [done|]. rewrite IH.
  destruct (ev_data ev) as [q|]; [|done]. rewrite lookup_alter. case_decide; subst; [|done].
  by rewrite fmap_is_Some.
Qed.

Lemma alter_live (f : Channel -> Channel) (p : ptr) (m : gmap ptr Channel) c :
  m !! p = Some c -> alter f p m = <[p := f c]> m.
Proof.
  intros Hp. apply map_eq. intros q. rewrite lookup_alter, lookup_insert.
  case_decide; subst; [by rewrite Hp|done].
Qed.

Definition event_live w (ev : epoll_event (option ptr)) : Prop :=
  exists p, ev_data ev = Some p /\ is_Some (chans w !! p).

Lemma fill_loop_spec evs i active w :
  epoll_sound w -> Forall (event_live w) evs ->
  (forall j, (j < length evs)%nat ->
     po_events (poller_ (the_loop w)) !! (i + j)%nat = evs !! j) ->
  runs (fill_loop (length evs) i active) w (fun active' w' =>
    epoll_sound w' /\ active' = active ++ omap ev_data evs
    /\ w' = on_chans (deliver evs) w).
Proof.
  revert i active w. induction evs as [|ev evs IH]; intros i active w Hs Hev Hat.
  { cbn. rewrite app_nil_r. split; [done|]. split; [done|]. by destruct w. }
  inversion_clear Hev as [|? ? (p & Hd & c & Hp) Hrest].
  cbn [length fill_loop]. unfold poller. run_steps.
  pose proof (Hat 0%nat ltac:(cbn; lia)) as Hat0. rewrite Nat.add_0_r in Hat0. cbn in Hat0.
  rewrite runs_unwrap. exists ev. split; [done|]. rewrite runs_bind, runs_unwrap.
  exists p. split; [done|]. rewrite runs_bind, runs_upd_chan. exists c. split; [done|].
  eapply runs_mono; [apply IH|].
  - by apply sound_revents.
  - eapply Forall_impl; [done|]. intros ev' (q & Hq & Hlive). exists q. split; [done|].
    cbn. rewrite lookup_insert_is_Some'. by right.
  - intros j Hj. cbn [the_loop on_chans]. change (evs !! j) with ((ev :: evs) !! S j).
    rewrite <- (Hat (S j)) by (cbn; lia). f_equal. lia.
  - cbn beta. intros active' w' (Hs' & -> & ->). split; [done|].
    cbn [deliver omap list_omap]. rewrite <- app_assoc. split; [by rewrite Hd|].
    unfold on_chans. cbn. rewrite Hd. by rewrite (alter_live _ p _ c).
Qed.

(** What [poll] leaves alone: as [static], but the event slots may grow. *)
Definition poll_static w :=
  (socks w, next_ptr w, the_server w, k_open (kernel w), k_interest (kernel w),
   k_sent (kernel w),
   let l := the_loop w in
   (looping_ l, quit_ l, pollReturnTime_ l, activeChannels_ l, pendingFunctors_ l,
    epollfd_ (poller_ l), channels_ (poller_ l))).

Definition slots w : list (epoll_event (option ptr)) := po_events (poller_ (the_loop w)).

(** The answer of [epoll_wait] to the call [poll] makes. *)
Definition wait_answer timeout w : sysres (list (epoll_event (option ptr))) :=
  (sys_exec (SysEpollWait (epfd w) (int32 (zlen (slots w))) timeout) (kernel w)).1.

Lemma quiet_poll_static {A} (c : syscall (option ptr) A) w :
  quiet c = true ->
  let '(r, k) := sys_exec c (kernel w) in poll_static (after_sys r k w) = poll_static w.
Proof.
  intros Hq. destruct (quiet_view c (kernel w) Hq) as (Ho & Hi & Hs).
  destruct (sys_exec c (kernel w)) as [r k]. cbn in *.
  unfold poll_static. destruct r; cbn; by rewrite Ho, Hi, Hs.
Qed.

Lemma poll_static_interest w w' : poll_static w' = poll_static w -> interest w' = interest w.
Proof. unfold poll_static, interest, epfd. congruence. Qed.

Lemma wait_events_live timeout w evs :
  epoll_sound w -> wait_answer timeout w = SysOk evs ->
  Forall (event_live w) evs /\ zlen evs <= int32 (zlen (slots w)).
Proof.
  intros Hs Hr. destruct (law_wait _ _ _ _ _ Hr) as [Hmax Hev]. split; [|done].
  eapply Forall_impl; [done|]. intros ev (fd & reg & Hreg & Hd).
  destruct (sound_live w Hs fd reg Hreg) as (p & c & ? & ? & _ & _).
  exists p. split; [congruence|by eexists].
Qed.

Lemma poll_spec timeout active w :
  epoll_sound w -> 0 < zlen (slots w) -> 2 * zlen (slots w) <= event_list_max ->
  runs (poll timeout active) w (fun '(now, active') w' =>
    epoll_sound w' /\ poll_static w' = poll_static w /\
    match wait_answer timeout w with
    | SysOk evs =>
        active' = active ++ omap ev_data evs /\ Forall (event_live w) evs
        /\ chans w' = deliver evs (chans w)
        /\ zlen (slots w') = (if 0 <? zlen evs then 2 * zlen (slots w) else zlen (slots w))
    | SysErr _ => active' = active /\ chans w' = chans w /\ slots w' = slots w
    end).
Proof.
  intros Hs Hpos Hmax. unfold poll, poller. run_steps. rewrite runs_sys.
  fold (slots w). fold (epfd w).
  pose proof (wait_events_live timeout w) as Hlive. unfold wait_answer in *.
  pose proof (quiet_poll_static (SysEpollWait (epfd w) (int32 (zlen (slots w))) timeout) w eq_refl) as Hq.
  destruct (sys_exec (SysEpollWait _ _ _) (kernel w)) as [r k] eqn:Hexec. cbn [fst snd] in *.
  set (w1 := after_sys r k w) in *. run_steps. rewrite runs_sys.
  pose proof (quiet_poll_static SysTime w1 eq_refl) as Hq2.
  destruct (sys_exec SysTime (kernel w1)) as [t k2]. cbn [fst snd] in *.
  set (w2 := after_sys t k2 w1) in *. rewrite Hq in Hq2.
  assert (chans w2 = chans w /\ slots w2 = slots w) as [Hch Hsl].
  { subst w2 w1. by destruct t, r. }
  clearbody w2. cbn zeta.
  assert (epoll_sound w2) as Hs2.
  { eapply sound_view; [done..|]. by apply poll_static_interest. }
  destruct r as [evs|e].
  - destruct (Hlive evs) as [Hev Hlen]; [done..|].
    assert (zlen evs <= zlen (slots w)) as Hfit.
    { unfold int32, signed in Hlen. pose proof (Z.mod_le (zlen (slots w) + two31) (2 * two31)).
      lia. }
    rewrite runs_bind, runs_assert_storage. split; [by apply Z.leb_le|].
    unfold upd_poller. rewrite runs_bind, runs_modify.
    set (w3 := on_loop _ w2).
    assert (slots w3 = evs ++ drop (length evs) (slots w)) as Hsl3 by done.
    assert (epoll_sound w3) as Hs3 by (by eapply sound_view).
    assert (zlen (slots w3) = zlen (slots w)) as Hz3.
    { rewrite Hsl3. unfold zlen in *. rewrite length_app, length_drop. lia. }
    destruct (Z.ltb_spec 0 (zlen evs)) as [Hsome|Hnone].
    + rewrite runs_bind. unfold fillActiveChannels, zlen. rewrite Nat2Z.id.
      eapply runs_mono; [apply fill_loop_spec; [done| |]|].
      * eapply Forall_impl; [done|]. intros ev (p & Hd & Hp). exists p. split; [done|].
        cbn. by rewrite Hch.
      * intros j Hj. cbn [Nat.add]. fold (slots w3). rewrite Hsl3. by apply lookup_app_l.
      * cbn beta. intros active' w4 (Hs4 & -> & ->). run_steps.
        unfold event_list_resize. fold (slots w3). cbn [the_loop on_chans]. fold (slots w3).
        rewrite (proj2 (Z.ltb_ge _ _)) by (fold (zlen (slots w3)); lia). run_steps.
        split; [by eapply sound_view|]. split; [done|]. split; [done|]. split; [done|].
        split; [cbn; by rewrite Hch|].
        unfold slots at 1. cbn. fold (slots w3). rewrite length_app, length_take, length_replicate.
        unfold zlen in *. rewrite <- Hsl3. lia.
    + rewrite runs_ret. assert (evs = []) as -> by (apply zlen_0_nil; pose proof (zlen_nonneg evs); lia).
      cbn. rewrite app_nil_r. split; [done|]. split; [done|]. done.
  - rewrite runs_bind, runs_when. destruct (negb _); rewrite ?runs_modify, runs_ret;
      (split; [by eapply sound_view|]); done.
Qed.
End Soundness.
