(* ===== verification/Registration.v ===== *)
(** * Registration: the poller and the channels that use it

    The theorems about [Poller] and the event bits of [Channel]: what every
    operation does to the interest list of the kernel, that no sequence of them
    leaves a dangling registration, and what [poll] reports. *)

From S2P Require Import Prelude Bytes Buffer Kernel World WorldSpec Poller EventLoop Channel PollerTheorems.
From S2P Require Import ScriptKernel Main Scenarios.

(** ** Deciding soundness of a concrete world *)

Section Check.
Context {K U : Type} `{KernelLaws (option ptr) K}.
Implicit Type w : World K U.

Definition entry_okb w (fd : Z) (ev : epoll_event (option ptr)) : bool :=
  match ev_data ev with
  | Some p => match chans w !! p with
              | Some c => (fd_ c =? fd) && (index_ c =? kAdded)
              | None => false
              end
  | None => false
  end.
Definition index_okb (c : Channel) : bool :=
  (index_ c =? kNew) || (index_ c =? kAdded) || (index_ c =? kDeleted).

Definition epoll_soundb w : bool :=
  forallb (fun x => entry_okb w x.1 x.2) (map_to_list (interest w))
  && forallb (fun x => index_okb x.2) (map_to_list (chans w)).

Lemma epoll_soundb_ok w : epoll_soundb w = true -> epoll_sound w.
Proof.
  unfold epoll_soundb. rewrite andb_true_iff, !forallb_forall. intros [Hent Hidx].
  assert (forall A (m : gmap Z A) fd a, m !! fd = Some a -> In (fd, a) (map_to_list m)) as Hin1.
  { intros. by apply list_elem_of_In, elem_of_map_to_list. }
  split.
  - intros fd ev Hev. specialize (Hent (fd, ev) (Hin1 _ _ _ _ Hev)). unfold entry_okb in Hent.
    cbn in Hent. destruct (ev_data ev) as [p|]; [|done].
    destruct (chans w !! p) as [c|] eqn:Hc; [|done].
    apply andb_true_iff in Hent as [Hf%Z.eqb_eq Hi%Z.eqb_eq]. by exists p, c.
  - intros p c Hc. specialize (Hidx (p, c)). unfold index_okb in Hidx. cbn in Hidx.
    rewrite !orb_true_iff, !Z.eqb_eq in Hidx. unfold valid_index.
    apply or_assoc, Hidx. by apply list_elem_of_In, elem_of_map_to_list.
Qed.
End Check.

(** ** Sequences of channel operations *)

Section Operations.
Context {K U : Type} `{KernelLaws (option ptr) K}.
Implicit Type w : World K U.
Abbreviation M := (prog (World K U)).

Inductive channel_op :=
  | Update (p : ptr)
  | Remove (p : ptr)
  | EnableReading (p : ptr)
  | EnableWriting (p : ptr)
  | DisableWriting (p : ptr)
  | DisableAll (p : ptr).

Definition op_target (o : channel_op) : ptr :=
  match o with
  | Update p | Remove p | EnableReading p | EnableWriting p | DisableWriting p | DisableAll p => p
  end.

Definition run_op (o : channel_op) : M unit :=
  match o with
  | Update p => EventLoop.updateChannel p
  | Remove p => Channel.remove p
  | EnableReading p => Channel.enableReading p
  | EnableWriting p => Channel.enableWriting p
  | DisableWriting p => Channel.disableWriting p
  | DisableAll p => Channel.disableAll p
  end.

(** The event bits after an operation. *)
Definition op_events (o : channel_op) (e : Z) : Z :=
  match o with
  | Update _ | Remove _ => e
  | EnableReading _ => Z.lor e kReadEvent
  | EnableWriting _ => Z.lor e kWriteEvent
  | DisableWriting _ => Z.land e (Z.lnot kWriteEvent)
  | DisableAll _ => kNoneEvent
  end.

(** The channel after an operation, and the [epoll_ctl] call it makes. *)
Definition op_channel (o : channel_op) (c : Channel) : Channel :=
  let c' := with_events (op_events o (events_ c)) c in
  match o with
  | Remove _ => with_index kNew c'
  | _ => with_index (updated_index c') c'
  end.
Definition op_ctl (o : channel_op) (c : Channel) : option ctl_op :=
  let c' := with_events (op_events o (events_ c)) c in
  match o with
  | Remove _ => if index_ c =? kAdded then Some EPOLL_CTL_DEL else None
  | _ => Some (update_op c')
  end.

Definition op_outcome (o : channel_op) (c : Channel) (i i' : gmap Z (epoll_event (option ptr)))
  : Prop :=
  match op_ctl o c with
  | Some ctl => ctl_outcome ctl (op_target o) (with_events (op_events o (events_ c)) c) i i'
  | None => i' = i
  end.

Lemma with_events_same c : with_events (events_ c) c = c.
Proof. by destruct c. Qed.

(** Changing the event bits and registering the change. *)
Lemma set_events_spec f p c w :
  epoll_sound w -> chans w !! p = Some c ->
  let c' := with_events (f (events_ c)) c in
  runs (upd_chan p (fun c => with_events (f (events_ c)) c) ;; Channel.update p : M unit) w
    (fun _ w' => epoll_sound w' /\ poller_frame w w'
       /\ chans w' = <[p := with_index (updated_index c') c']> (chans w)
       /\ ctl_outcome (update_op c') p c' (interest w) (interest w')).
Proof.
  intros Hs Hp c'. rewrite runs_bind, runs_upd_chan. exists c. split; [done|].
  set (w1 := on_chans _ w).
  assert (chans w1 !! p = Some c') as Hc by (subst w1; cbn; by rewrite lookup_insert_eq).
  assert (epoll_sound w1) as Hs1.
  { apply (sound_replace w w1 p c c'); try done; [by apply (sound_index w Hs p c)|].
    intros ev Hev. by right. }
  eapply runs_mono; [by apply (updateChannel_spec p c')|]. cbn beta.
  intros _ w' (Hs' & Hf & Hch & Hout). split; [done|]. split; [by rewrite <- Hf|].
  split; [|done]. rewrite Hch. subst w1. cbn. by rewrite insert_insert_eq.
Qed.

Lemma run_op_spec o c w :
  epoll_sound w -> chans w !! op_target o = Some c ->
  runs (run_op o) w (fun _ w' =>
    epoll_sound w' /\ poller_frame w w'
    /\ chans w' = <[op_target o := op_channel o c]> (chans w)
    /\ op_outcome o c (interest w) (interest w')).
Proof.
  intros Hs Hp. destruct o as [p|p|p|p|p|p]; cbn [op_target run_op] in *;
    try exact (set_events_spec _ p c w Hs Hp).
  - eapply runs_mono; [by apply (updateChannel_spec p c)|]. unfold op_outcome. cbn.
    by rewrite with_events_same.
  - eapply runs_mono; [by apply (removeChannel_spec p c)|]. cbn beta.
    intros _ w' (? & ? & ? & Hi). unfold op_outcome. cbn. rewrite with_events_same.
    do 3 (split; [done|]). by destruct (index_ c =? kAdded).
Qed.

(** The [epoll_ctl] call of kind [ctl] an operation makes, on the poller's epoll
    descriptor, for the channel's own, with its new event bits and its address. *)
Definition ctl_call (o : channel_op) (c : Channel) (ctl : ctl_op) w : sysres unit * K :=
  sys_exec (SysEpollCtl (epfd w) ctl (fd_ c) (own_event (op_target o) (op_channel o c))) (kernel w).

Lemma kernel_after_sys {A} (r : sysres A) k w : kernel (after_sys r k w) = k.
Proof. by destruct r. Qed.

Lemma update_kernel op p c w :
  chans w !! p = Some c ->
  runs (Poller.update op p) w (fun _ w' => chans w' = chans w /\
    kernel w' = (sys_exec (SysEpollCtl (epfd w) op (fd_ c) (own_event p c)) (kernel w)).2).
Proof.
  intros Hp. unfold Poller.update, poller. heap_steps. rewrite kernel_after_sys. split; [|done].
  by destruct (sys_exec _ _).1.
Qed.

Lemma updateChannel_kernel p c w :
  valid_index (index_ c) -> chans w !! p = Some c ->
  runs (Poller.updateChannel p) w (fun _ w' =>
    kernel w' = (sys_exec (SysEpollCtl (epfd w) (update_op c) (fd_ c) (own_event p c)) (kernel w)).2).
Proof.
  intros Hi Hp. unfold Poller.updateChannel, upd_poller. heap_steps. cbn zeta. unfold update_op.
  destruct Hi as [->|[->| ->]]; cbn [Z.eqb orb kNew kAdded kDeleted Pos.eqb].
  - rewrite runs_bind, runs_when. heap_steps.
    eapply runs_mono; [apply (update_kernel _ p (with_index kAdded c)); by cbn; rewrite lookup_insert_eq|].
    by intros _ w' [_ ->].
  - destruct (isNoneEvent c); [|by eapply runs_mono; [by apply update_kernel|intros _ w' [_ ->]]].
    run_using update_kernel; [done|]. intros _ w1 [Hch Hk]. rewrite runs_upd_chan, Hch. by exists c.
  - rewrite runs_bind, runs_when. heap_steps.
    eapply runs_mono; [apply (update_kernel _ p (with_index kAdded c)); by cbn; rewrite lookup_insert_eq|].
    by intros _ w' [_ ->].
Qed.

Lemma removeChannel_kernel p c w :
  chans w !! p = Some c ->
  runs (Poller.removeChannel p) w (fun _ w' => kernel w' =
    if index_ c =? kAdded
    then (sys_exec (SysEpollCtl (epfd w) EPOLL_CTL_DEL (fd_ c) (own_event p c)) (kernel w)).2 else kernel w).
Proof.
  intros Hp. unfold Poller.removeChannel, upd_poller. heap_steps. rewrite runs_when.
  destruct (index_ c =? kAdded); [|by heap_steps].
  eapply runs_mono; [by apply (update_kernel _ p c)|]. cbn beta. intros _ w1 [Hch Hk].
  rewrite runs_upd_chan, Hch. by exists c.
Qed.

Lemma run_op_kernel o c w :
  epoll_sound w -> chans w !! op_target o = Some c ->
  runs (run_op o) w (fun _ w' =>
    kernel w' = match op_ctl o c with Some ctl => (ctl_call o c ctl w).2 | None => kernel w end).
Proof.
  intros Hs Hp. pose proof (sound_index w Hs _ c Hp) as Hi. unfold ctl_call.
  replace (own_event (op_target o) (op_channel o c))
    with (own_event (op_target o) (with_events (op_events o (events_ c)) c)) by (by destruct o).
  destruct o as [p|p|p|p|p|p]; cbn [op_target run_op op_ctl op_events] in *; rewrite ?with_events_same.
  1: by apply updateChannel_kernel.
  1: eapply runs_mono; [by apply (removeChannel_kernel p c)|cbn beta; intros _ w' ->]; by destruct (_ =? _).
  all: unfold Channel.enableReading, Channel.enableWriting, Channel.disableWriting, Channel.disableAll; rewrite runs_bind, runs_upd_chan; exists c; split; [done|].
  all: eapply runs_mono; [eapply (updateChannel_kernel p); [|by cbn; rewrite lookup_insert_eq]; done|done].
Qed.

(** C18: One operation of a channel on the poller, whatever its index: the event
    bits change as the operation says, the index follows the three-state
    protocol new / added / deleted, the kernel is asked exactly one thing, the
    [epoll_ctl] of the right kind for the channel's descriptor with its events and
    its address (nothing when an unregistered channel is removed), the interest
    list changes if and as the kernel granted it, and nothing but that channel
    and the interest list changes. *)
Theorem channel_operation_outcome o c w :
  epoll_sound w -> chans w !! op_target o = Some c ->
  runs (run_op o) w (fun _ w' =>
    poller_frame w w' /\ chans w' = <[op_target o := op_channel o c]> (chans w)
    /\ kernel w' = match op_ctl o c with Some ctl => (ctl_call o c ctl w).2 | None => kernel w end
    /\ interest w' = match op_ctl o c with
       | Some EPOLL_CTL_DEL => delete (fd_ c) (interest w)
       | Some ctl =>
           match (ctl_call o c ctl w).1 with
           | SysOk _ => <[fd_ c := own_event (op_target o) (op_channel o c)]> (interest w)
           | SysErr _ => interest w
           end
       | None => interest w
       end).
Proof.
  intros Hs Hp. eapply runs_mono; [apply runs_and; [by apply (run_op_spec o c)|by apply (run_op_kernel o c)]|].
  cbn beta. intros _ w' [(_ & Hf & Hch & Hout) Hk]. do 3 (split; [done|]).
  unfold op_outcome in Hout. destruct (op_ctl o c) as [ctl|]; [|done].
  pose proof (law_ctl (epfd w) ctl (fd_ c) (own_event (op_target o) (op_channel o c)) (kernel w)) as Hlaw.
  fold (ctl_call o c ctl w) in Hlaw.
  assert (interest w' = k_interest (ctl_call o c ctl w).2 (epfd w)) as Hi
    by (unfold interest; by rewrite (frame_epfd w w'), Hk).
  destruct (ctl_call o c ctl w) as [r k']. destruct Hlaw as (_ & _ & _ & Hlaw). cbn [fst snd] in *.
  destruct ctl; [|done|]; rewrite Hi; (destruct r as [u|e]; [apply Hlaw|by rewrite Hlaw]).
Qed.

(** C7: No sequence of channel operations leaves epoll with a dangling or a
    mistaken registration: if every operation addresses a live channel, all of
    them run without a fault, every descriptor epoll knows afterwards belongs to
    a live channel of that descriptor that is marked as added, no channel is
    created or destroyed, and sockets, server, loop flags and descriptors are
    untouched. *)
Theorem operations_keep_epoll_sound ops w :
  epoll_sound w -> Forall (fun o => is_Some (chans w !! op_target o)) ops ->
  runs (for_each run_op ops) w (fun _ w' =>
    epoll_sound w' /\ poller_frame w w' /\ dom (chans w') = dom (chans w)).
Proof.
  intros Hs Hops.
  eapply runs_mono; [apply (runs_for_each _ (fun ops' w' => epoll_sound w' /\ poller_frame w w'
    /\ dom (chans w') = dom (chans w)
    /\ Forall (fun o => is_Some (chans w !! op_target o)) ops')); [done|]|naive_solver].
  cbn beta. intros o l w1 (Hs1 & Hf & Hd & Hall). apply Forall_cons in Hall as [Ho Hl].
  assert (op_target o ∈ dom (chans w1)) as Hin by (by rewrite Hd, elem_of_dom).
  apply elem_of_dom in Hin as [c Hc].
  eapply runs_mono; [by apply (run_op_spec o c)|]. cbn beta. intros _ w2 (Hs2 & Hf2 & Hch & _).
  split; [done|]. split; [by rewrite Hf|]. split; [|done].
  rewrite Hch, dom_insert_L. assert (op_target o ∈ dom (chans w1)) by (by apply elem_of_dom).
  rewrite <- Hd. set_solver.
Qed.

Lemma writing_bit e : test_flag e kWriteEvent = false ->
  Z.land (Z.lor e kWriteEvent) (Z.lnot kWriteEvent) = e /\ Z.lor e kWriteEvent <> 0.
Proof.
  unfold test_flag. rewrite negb_false_iff, Z.eqb_eq. intros He. split.
  - rewrite Z.land_lor_distr_l, <- !Z.ldiff_land, Z.ldiff_diag, Z.lor_0_r.
    pose proof (Z.lor_ldiff_and e kWriteEvent) as Hd. by rewrite He, Z.lor_0_r in Hd.
  - intros [_ Hk]%Z.lor_eq_0_iff. discriminate Hk.
Qed.

(** [disableWriting] undoes [enableWriting]: on a registered channel that was
    not asking for output, the two leave every channel as it was; epoll too is
    as before, unless the kernel granted the first change and refused the
    second, when it alone still watches for output. *)
Theorem enableWriting_disableWriting p c w :
  epoll_sound w -> chans w !! p = Some c -> index_ c = kAdded ->
  isWriting c = false -> isNoneEvent c = false -> interest w !! fd_ c = Some (own_event p c) ->
  runs (Channel.enableWriting p ;; Channel.disableWriting p : M unit) w (fun _ w' =>
    chans w' = chans w /\
    (interest w' = interest w \/
     interest w' = <[fd_ c := own_event p (with_events (Z.lor (events_ c) kWriteEvent) c)]>
                     (interest w))).
Proof.
  intros Hs Hp Hi Hw Hn Hreg. apply writing_bit in Hw as [Hback Hsome].
  set (c1 := with_events (Z.lor (events_ c) kWriteEvent) c).
  assert (forall e, e <> 0 -> updated_index (with_events e c) = kAdded
    /\ update_op (with_events e c) = EPOLL_CTL_MOD) as Hmod.
  { intros e He. apply Z.eqb_neq in He. unfold updated_index, update_op, isNoneEvent, kNoneEvent.
    cbn [index_ with_events events_]. by rewrite Hi, He. }
  destruct (Hmod (Z.lor (events_ c) kWriteEvent) Hsome) as [Hi1 Ho1].
  assert (events_ c <> 0) as Hnz by (by apply Z.eqb_neq in Hn).
  destruct (Hmod (events_ c) Hnz) as [Hi2 Ho2]. rewrite with_events_same in Hi2, Ho2.
  rewrite runs_bind. eapply runs_mono; [by apply (set_events_spec (fun e => Z.lor e kWriteEvent) p c)|].
  cbn beta zeta. intros _ w1 (Hs1 & Hf1 & Hch1 & Hout1). fold c1 in Hch1, Hout1, Hi1, Ho1.
  rewrite Hi1 in Hch1. assert (with_index kAdded c1 = c1) as E1 by (rewrite <- Hi; done).
  rewrite E1 in Hch1. rewrite Ho1 in Hout1.
  eapply runs_mono; [apply (set_events_spec (fun e => Z.land e (Z.lnot kWriteEvent)) p c1);
    [done|by rewrite Hch1, lookup_insert_eq]|].
  cbn beta zeta. intros _ w2 (_ & _ & Hch2 & Hout2).
  assert (with_events (Z.land (events_ c1) (Z.lnot kWriteEvent)) c1 = c) as E2.
  { unfold c1. cbn. rewrite Hback. by destruct c. }
  rewrite E2, Hi2 in Hch2. rewrite E2, Ho2 in Hout2.
  assert (with_index kAdded c = c) as E3 by (rewrite <- Hi; by destruct c). rewrite E3 in Hch2.
  split.
  - rewrite Hch2, Hch1, insert_insert_eq. by apply insert_id.
  - change (fd_ c1) with (fd_ c) in Hout1. cbn in Hout1, Hout2.
    destruct Hout1 as [E|[_ E]]; destruct Hout2 as [E'|[_ E']]; rewrite E in E'.
    + by left.
    + left. rewrite E'. by apply insert_id.
    + by right.
    + left. rewrite E', insert_insert_eq. by apply insert_id.
Qed.

(** ** Polling *)

(** C17: [poll] hands out only what it may: from a sound state, with at least one
    event slot, it always returns, keeps epoll and the channels tied together,
    and lists exactly the channels the kernel reported, all of them live and
    each with the reported events stored in it; after a failed wait it lists
    nothing new and stores nothing. *)
Theorem poll_reports_live_channels timeout active w :
  epoll_sound w -> 0 < zlen (slots w) -> 2 * zlen (slots w) <= event_list_max ->
  runs (poll timeout active) w (fun '(_, active') w' =>
    epoll_sound w' /\ poll_static w' = poll_static w
    /\ Forall (fun p => p ∈ active \/ is_Some (chans w' !! p)) active'
    /\ match wait_answer timeout w with
       | SysOk evs => active' = active ++ omap ev_data evs /\ chans w' = deliver evs (chans w)
       | SysErr _ => active' = active /\ chans w' = chans w
       end).
Proof.
  intros Hs Hpos Hmax. eapply runs_mono; [by apply poll_spec|]. cbn beta.
  intros [now active'] w' (Hs' & Hst & Hr). do 2 (split; [done|]).
  destruct (wait_answer timeout w) as [evs|e].
  - destruct Hr as (-> & Hlive & Hch & _). split; [|done].
    apply Forall_app. split; [apply Forall_forall; intros p Hp; by left|].
    apply Forall_forall. intros p (ev & Hev & Hd)%list_elem_of_omap. right.
    rewrite Hch. apply deliver_dom. rewrite Forall_forall in Hlive.
    destruct (Hlive ev Hev) as (q & Hq & Hlq). congruence.
  - destruct Hr as (-> & ? & _). split; [|done]. apply Forall_forall. intros p Hp. by left.
Qed.

(** Every productive poll doubles the event slots, whether or not they were
    full, and once there are 2^31 of them the size no longer fits the [int] that
    [epoll_wait] is given: the call fails with [EINVAL], nothing is reported and
    the slots stay as they are, so every later poll fails the same way. *)
Theorem poll_doubles_until_starved timeout active w :
  epoll_sound w -> 0 < zlen (slots w) -> 2 * zlen (slots w) <= event_list_max ->
  runs (poll timeout active) w (fun '(_, active') w' =>
    (forall evs, wait_answer timeout w = SysOk evs -> evs <> [] ->
       zlen (slots w') = 2 * zlen (slots w)) /\
    (zlen (slots w) = two31 -> epfd w ∈ k_open (kernel w) ->
       wait_answer timeout w = SysErr EINVAL /\ active' = active /\ slots w' = slots w)).
Proof.
  intros Hs Hpos Hmax. eapply runs_mono; [by apply poll_spec|]. cbn beta.
  intros [now active'] w' (_ & _ & Hr). split.
  - intros evs Hw Hne. rewrite Hw in Hr. destruct Hr as (_ & _ & _ & ->).
    rewrite (proj2 (Z.ltb_lt _ _)); [done|]. destruct evs; [done|]. unfold zlen. cbn. lia.
  - intros Hz Hopen. assert (wait_answer timeout w = SysErr EINVAL) as Hw.
    { unfold wait_answer. apply law_wait_maxevents; [|done]. rewrite Hz. by vm_compute. }
    rewrite Hw in Hr. by destruct Hr as (-> & _ & ->).
Qed.
End Operations.

(** ** Witnesses *)

(** The acceptor's channel, address 2, is registered for input. *)
Definition demo : DW := listening (scripted [] [] [] [SysOk [(4, EPOLLIN)]]).
Definition demo_chan : Channel :=
  mkChannel 4 3 0 1 false (Some TcpServer_accept) (Some (Socket_handleWrite 1))
    (Some TcpServer_acceptorCloseCallback) None.

Lemma demo_sound : epoll_sound demo.
Proof. apply epoll_soundb_ok. vm_compute. reflexivity. Defined.

Lemma demo_chan_live : chans demo !! 2%positive = Some demo_chan.
Proof. vm_compute. reflexivity. Defined.

(** The kernel grants the change: epoll watches the acceptor for output too. *)
Lemma channel_operation_outcome_witness :
  runs (run_op (EnableWriting 2)) demo (fun _ w' =>
    poller_frame demo w'
    /\ chans w' = <[2%positive := with_events 7 demo_chan]> (chans demo)
    /\ kernel w' = (sys_exec (SysEpollCtl 3 EPOLL_CTL_MOD 4 (EpollEvent 7 (Some 2%positive))) (kernel demo)).2
    /\ interest w' = <[4 := EpollEvent 7 (Some 2%positive)]> (interest demo)).
Proof.
  exact (channel_operation_outcome (EnableWriting 2) demo_chan demo demo_sound demo_chan_live).
Defined.

Lemma operations_keep_epoll_sound_witness :
  runs (for_each run_op [EnableWriting 2; DisableAll 2; Update 2; Remove 2]) demo (fun _ w' =>
    epoll_sound w' /\ poller_frame demo w' /\ dom (chans w') = dom (chans demo)).
Proof.
  apply operations_keep_epoll_sound; [exact demo_sound|].
  repeat constructor; exists demo_chan; exact demo_chan_live.
Defined.

Lemma enableWriting_disableWriting_witness :
  runs (Channel.enableWriting 2 ;; Channel.disableWriting 2) demo (fun _ w' =>
    chans w' = chans demo /\
    (interest w' = interest demo \/
     interest w' = <[4 := own_event 2 (with_events (Z.lor 3 kWriteEvent) demo_chan)]>
                     (interest demo))).
Proof.
  apply (enableWriting_disableWriting 2 demo_chan demo demo_sound demo_chan_live);
    vm_compute; reflexivity.
Defined.

Lemma poll_reports_live_channels_witness :
  runs (poll kPollTimeMs []) demo (fun '(_, active') w' =>
    epoll_sound w' /\ poll_static w' = poll_static demo
    /\ Forall (fun p => p ∈ [] \/ is_Some (chans w' !! p)) active'
    /\ match wait_answer kPollTimeMs demo with
       | SysOk evs => active' = [] ++ omap ev_data evs /\ chans w' = deliver evs (chans demo)
       | SysErr _ => active' = [] /\ chans w' = chans demo
       end).
Proof.
  apply poll_reports_live_channels; [exact demo_sound|by vm_compute..].
Defined.

(** The same server after 27 productive polls. *)
Definition with_slots evs (w : DW) : DW :=
  on_loop (fun l => with_poller (with_po_events evs (poller_ l)) l) w.
Definition starved : DW := with_slots (replicate (Z.to_nat two31) null_event) demo.

Lemma with_slots_sound evs w : epoll_sound w -> epoll_sound (with_slots evs w).
Proof. intros Hs. by apply (sound_view w). Defined.

Lemma demo_epoll_open : epfd demo ∈ k_open (kernel demo).
Proof. vm_compute. reflexivity. Defined.

Lemma with_slots_open evs (w : DW) :
  epfd w ∈ k_open (kernel w) -> epfd (with_slots evs w) ∈ k_open (kernel (with_slots evs w)).
Proof. done. Defined.

Lemma starved_slots : zlen (slots starved) = two31.
Proof.
  unfold zlen, slots, starved, with_slots.
  cbn [the_loop on_loop poller_ with_poller po_events with_po_events].
  rewrite length_replicate. apply Z2Nat.id. lia.
Defined.

Lemma poll_doubles_until_starved_witness :
  runs (poll kPollTimeMs []) starved (fun '(_, active') w' =>
    wait_answer kPollTimeMs starved = SysErr EINVAL /\ active' = [] /\ slots w' = slots starved).
Proof.
  assert (forall w : DW, epoll_sound w -> zlen (slots w) = two31 -> epfd w ∈ k_open (kernel w) ->
    runs (poll kPollTimeMs []) w (fun '(_, active') w' =>
      wait_answer kPollTimeMs w = SysErr EINVAL /\ active' = [] /\ slots w' = slots w)) as Hgen.
  { intros w Hs Hz Hopen. eapply runs_mono.
    - apply poll_doubles_until_starved; [exact Hs|rewrite Hz; lia|].
      rewrite Hz. by vm_compute.
    - cbn beta. intros [now active'] w' [_ Hst]. exact (Hst Hz Hopen). }
  exact (Hgen starved (with_slots_sound _ demo demo_sound) starved_slots
    (with_slots_open _ demo demo_epoll_open)).
Defined.
