(* ===== verification/LoopTheorems.v ===== *)
(** * LoopTheorems: dispatch, deferred work and the event loop

    [Channel::handleEvent] against a list of callbacks, [doPendingFunctors]
    against its queue, and when [EventLoop::loop] returns. *)

From S2P Require Import Prelude Bytes Buffer Kernel World WorldSpec Poller EventLoop Channel Callbacks Socket TcpServer Reactor PollerTheorems.
From S2P Require Import ScriptKernel Main Scenarios Registration.

(** Programs are equal when they agree on every state. *)
Lemma bind_cong {S A B} (m m' : prog S A) (k k' : A -> prog S B) s :
  m s = m' s -> (forall a s', m s = Ok (a, s') -> k a s' = k' a s') -> (m ≫= k) s = (m' ≫= k') s.
Proof.
  unfold mbind, prog_bind. intros <-. destruct (m s) as [[a s']|f]; [naive_solver|done].
Qed.

Lemma bind_ext {S A B} (m : prog S A) (k k' : A -> prog S B) s :
  (forall a s', m s = Ok (a, s') -> k a s' = k' a s') -> (m ≫= k) s = (m ≫= k') s.
Proof. by apply bind_cong. Qed.

Lemma bind_assoc {S A B C} (m : prog S A) (k : A -> prog S B) (k' : B -> prog S C) s :
  ((m ≫= k) ≫= k') s = (m ≫= (fun a => k a ≫= k')) s.
Proof. unfold mbind, prog_bind. by destruct (m s) as [[a s']|f]. Qed.

Lemma for_each_app {S A} (body : A -> prog S unit) l1 l2 s :
  for_each body (l1 ++ l2) s = (for_each body l1 ;; for_each body l2) s.
Proof.
  revert s. induction l1 as [|x l1 IH]; intros s; [done|].
  cbn [for_each app]. rewrite bind_assoc. apply bind_ext. intros _ s' _. apply IH.
Qed.

Lemma bind_unit_r {S} (m : prog S unit) s : (m ;; mret tt) s = m s.
Proof. unfold mbind, prog_bind. by destruct (m s) as [[[] s']|f]. Qed.

(** ** Dispatch *)

Section Dispatch.
Context {K U : Type} `{Kernel (option ptr) K}.
Implicit Type w : World K U.
Abbreviation M := (prog (World K U)).
Variable run_read : ReadEventCallback -> Z -> M unit.
Variable run_event : EventCallback -> M unit.

Inductive action := OnClose | OnError | OnRead | OnWrite.

(** The callbacks due for a set of events, in the order they are called. *)
Definition due (r : Z) : list action :=
  (if test_flag r EPOLLHUP && negb (test_flag r EPOLLIN) then [OnClose] else [])
  ++ (if test_flag r EPOLLERR then [OnError] else [])
  ++ (if test_flag r EPOLLIN || (test_flag r EPOLLPRI || test_flag r EPOLLRDHUP) then [OnRead] else [])
  ++ (if test_flag r EPOLLOUT then [OnWrite] else []).

Definition run_action (this : ptr) (t : Z) (a : action) : M unit :=
  c ← get_chan this;
  match a with
  | OnClose => call_if run_event (closeCallback_ c)
  | OnError => call_if run_event (errorCallback_ c)
  | OnRead => call_if (fun cb => run_read cb t) (readCallback_ c)
  | OnWrite => call_if run_event (writeCallback_ c)
  end.

Lemma test_flag_lor r a b : test_flag r (Z.lor a b) = test_flag r a || test_flag r b.
Proof.
  unfold test_flag. rewrite Z.land_lor_distr_r. apply eq_true_iff_eq.
  rewrite orb_true_iff, !negb_true_iff, !Z.eqb_neq, Z.lor_eq_0_iff.
  destruct (Z.eq_dec (Z.land r a) 0), (Z.eq_dec (Z.land r b) 0); tauto.
Qed.

(** ** Invariants of programs *)

(** [maintains I m]: whenever [m] returns, it has kept [I]. *)
Definition maintains {A} (I : World K U -> Prop) (m : M A) : Prop :=
  forall w a w', I w -> m w = Ok (a, w') -> I w'.

Section Maintains.
Variable I : World K U -> Prop.

Lemma maintains_bind {A B} (m : M A) (k : A -> M B) :
  maintains I m -> (forall a, maintains I (k a)) -> maintains I (m ≫= k).
Proof.
  intros Hm Hk w b w' Hi Hr. unfold mbind, prog_bind in Hr.
  destruct (m w) as [[a w1]|] eqn:E; [|done]. eapply Hk, Hr. by eapply Hm.
Qed.

Lemma maintains_ret {A} (a : A) : maintains I (mret a).
Proof. by intros w a' w' Hi [= _ <-]. Qed.

Lemma maintains_fail {A} f : maintains I (fail f : M A).
Proof. done. Qed.

Lemma maintains_gets {A} (f : World K U -> A) : maintains I (gets f).
Proof. by intros w a' w' Hi [= _ <-]. Qed.

Lemma maintains_get_st : maintains I get_st.
Proof. by intros w a' w' Hi [= _ <-]. Qed.

Lemma maintains_lift {A} (r : result A) : maintains I (lift r).
Proof. destruct r; [apply maintains_ret|done]. Qed.

Lemma maintains_unwrap {A} f (o : option A) : maintains I (unwrap f o).
Proof. destruct o; [apply maintains_ret|done]. Qed.

Lemma maintains_modify f : (forall w, I w -> I (f w)) -> maintains I (modify f).
Proof. intros Hf w [] w' Hi [= <-]. by apply Hf. Qed.

Lemma maintains_when b (m : M unit) : maintains I m -> maintains I (when_ b m).
Proof. destruct b; [done|intros _; apply maintains_ret]. Qed.

Lemma maintains_get_sock s : maintains I (get_sock s).
Proof. apply maintains_bind; [apply maintains_get_st|intros ?; apply maintains_unwrap]. Qed.

Lemma maintains_get_chan p : maintains I (get_chan p).
Proof. apply maintains_bind; [apply maintains_get_st|intros ?; apply maintains_unwrap]. Qed.

Lemma maintains_for_each {A} (body : A -> M unit) l :
  (forall a, maintains I (body a)) -> maintains I (for_each body l).
Proof.
  intros Hb. induction l; cbn; [apply maintains_ret|]. by apply maintains_bind.
Qed.
End Maintains.

(** The channel at [this] has been destroyed, or reports the events [r] as before. *)
Definition stays (this : ptr) (r : Z) w : Prop :=
  (this < next_ptr w)%positive /\ forall c, chans w !! this = Some c -> revents_ c = r.

Definition callbacks_keep this t : Prop := forall a r, maintains (stays this r) (run_action this t a).

Definition callback_of (a : action) (t : Z) (c : Channel) : M unit :=
  match a with
  | OnClose => call_if run_event (closeCallback_ c)
  | OnError => call_if run_event (errorCallback_ c)
  | OnRead => call_if (fun cb => run_read cb t) (readCallback_ c)
  | OnWrite => call_if run_event (writeCallback_ c)
  end.

Lemma gone_get {A} this (f : Channel -> M A) w :
  chans w !! this = None -> (get_chan this ≫= f) w = Err (Undefined UseAfterFree).
Proof. intros Hc. unfold get_chan, mbind, prog_bind, get_st. cbn. by rewrite Hc. Qed.

Lemma live_get {A} this c (f : Channel -> M A) w :
  chans w !! this = Some c -> (get_chan this ≫= f) w = f c w.
Proof. intros Hc. unfold get_chan, mbind, prog_bind, get_st. cbn. by rewrite Hc. Qed.

(** One conditional call of [handleEvent] and what follows it; a channel that is
    gone is a use after free, whichever comes first. *)
Lemma due_step this t r (b : Z -> bool) (a : action) l (k z : M unit) w :
  callbacks_keep this t -> stays this r w ->
  (forall w', chans w' !! this = None -> z w' = Err (Undefined UseAfterFree)) ->
  (forall w', stays this r w' -> k w' = (for_each (run_action this t) l ;; z) w') ->
  (c ← get_chan this; when_ (b (revents_ c)) (callback_of a t c) ;; k) w
  = (for_each (run_action this t) ((if b r then [a] else []) ++ l) ;; z) w.
Proof.
  intros Hkeep Hs Hz Hk. destruct (chans w !! this) as [c|] eqn:Hc.
  - pose proof (proj2 Hs c Hc) as <-.
    assert (run_action this t a w = callback_of a t c w) as Hact by by apply live_get.
    rewrite (live_get this c) by done. destruct (b (revents_ c)); [|by apply Hk].
    cbn [when_ app for_each]. rewrite bind_assoc. apply bind_cong; [done|]. intros [] w' E.
    apply Hk. eapply (Hkeep a); [exact Hs|]. by rewrite Hact.
  - rewrite gone_get by done. symmetry. destruct ((if b r then [a] else []) ++ l) as [|a' l'].
    + by apply Hz.
    + cbn [for_each]. rewrite bind_assoc. apply ends_bind_l. by apply gone_get.
Qed.

(** [handleEvent] is a loop over the callbacks that are due. *)
Lemma handleEvent_due this t c w :
  callbacks_keep this t -> (this < next_ptr w)%positive -> chans w !! this = Some c ->
  Channel.handleEvent run_read run_event this t w =
  (upd_chan this (with_eventHandling true) ;;
   for_each (run_action this t) (due (revents_ c)) ;;
   upd_chan this (with_eventHandling false)) w.
Proof.
  intros Hkeep Hn Hc. unfold Channel.handleEvent. apply bind_ext. intros [] w1 E.
  assert (stays this (revents_ c) w1) as Hr.
  { unfold upd_chan in E. rewrite (live_get this c) in E by done. injection E as <-.
    split; [done|]. cbn. rewrite lookup_insert_eq. by intros ? [= <-]. }
  assert (forall w', chans w' !! this = None ->
    upd_chan this (with_eventHandling false) w' = Err (Undefined UseAfterFree)) as Hz
    by (intros w' ?; by apply gone_get).
  unfold due. rewrite <- !test_flag_lor.
  apply (due_step this t _ (fun r => test_flag r EPOLLHUP && negb (test_flag r EPOLLIN)) OnClose);
    [done..|]. clear w1 E Hr. intros w1 Hr.
  apply (due_step this t _ (fun r => test_flag r EPOLLERR) OnError); [done..|].
  clear w1 Hr. intros w1 Hr.
  apply (due_step this t _ (fun r => test_flag r (Z.lor EPOLLIN (Z.lor EPOLLPRI EPOLLRDHUP))) OnRead);
    [done..|]. clear w1 Hr. intros w1 Hr.
  pose proof (fun k z => due_step this t _ (fun r => test_flag r EPOLLOUT) OnWrite [] k z w1 Hkeep Hr)
    as Hd. rewrite app_nil_r in Hd. by apply Hd.
Qed.
End Dispatch.

(** *** The library's callbacks leave reported events alone *)

Section Reports.
Context {K U : Type} `{Kernel (option ptr) K} `{UserCode K U} `{InetAddr} `{Host}.
Implicit Type w : World K U.
Abbreviation M := (prog (World K U)).

(** User code that stores no events in a channel that it does not destroy, as
    none can that only calls the library. *)
Definition user_leaves_reports : Prop := forall u s this r, maintains (stays this r) (run_user u s).

Section Channel.
Variables (this : ptr) (r : Z).
Abbreviation ok := (maintains (stays (K := K) (U := U) this r)).

Lemma stays_modify f :
  (forall w, chans (f w) = chans w /\ next_ptr (f w) = next_ptr w) -> ok (modify f).
Proof.
  intros Hf. apply maintains_modify. intros w. destruct (Hf w) as [Hc Hn]. unfold stays. by rewrite Hc, Hn.
Qed.

Lemma stays_sys {A} (c : syscall (option ptr) A) : ok (sys c).
Proof.
  intros w a w' Hs. unfold sys. destruct (sys_exec c (kernel w)) as [[x|e] k']; by intros [= _ <-].
Qed.

Lemma stays_upd_chan p f : (forall c, revents_ (f c) = revents_ c) -> ok (upd_chan p f).
Proof.
  intros Hf w [] w' [Hn Hs] Hr. unfold upd_chan in Hr. destruct (chans w !! p) as [c|] eqn:Hc.
  - rewrite (live_get p c) in Hr by done. injection Hr as <-. split; [done|]. cbn.
    intros c'. rewrite lookup_insert_Some. intros [[-> <-]|[_ ?]]; [rewrite Hf|]; by apply Hs.
  - by rewrite gone_get in Hr.
Qed.

Lemma stays_delete q : ok (modify (on_chans (delete q))).
Proof.
  apply maintains_modify. intros w [Hn Hs]. split; [done|]. cbn. intros c [_ ?]%lookup_delete_Some. by apply Hs.
Qed.

(** A fresh channel is another one. *)
Lemma stays_alloc {A} (k : ptr -> M A) :
  (forall p, this <> p -> ok (k p)) -> ok (alloc ≫= k).
Proof.
  intros Hk w a w' [Hn Hs]. unfold alloc, mbind, prog_bind, get_st, modify. cbn. apply Hk; [lia|].
  split; [cbn; lia|done].
Qed.

Lemma stays_new p c : this <> p -> ok (modify (on_chans <[p := c]>)).
Proof.
  intros Hp. apply maintains_modify. intros w [Hn Hs]. split; [done|]. cbn.
  intros c'. rewrite lookup_insert_ne by done. apply Hs.
Qed.

Lemma stays_on_input {A} s (m : prog (Buffer * K) A) : ok (on_input s m).
Proof.
  apply maintains_bind; [apply maintains_get_sock|]. intros o w a w' Hs. unfold mk_prog.
  destruct (m (inputBuffer_ o, kernel w)) as [[x [b k]]|]; [by intros [= _ <-]|done].
Qed.

Lemma stays_on_output {A} s (m : prog Buffer A) : ok (on_output s m).
Proof.
  apply maintains_bind; [apply maintains_get_sock|]. intros o w a w' Hs. unfold mk_prog.
  destruct (m (outputBuffer_ o)) as [[x b]|]; [by intros [= _ <-]|done].
Qed.

Ltac maintain :=
  repeat first
    [ solve [auto 2] | apply maintains_ret | apply maintains_gets | apply maintains_get_st | apply maintains_lift
    | apply maintains_unwrap | apply maintains_get_sock | apply maintains_get_chan | apply maintains_fail
    | apply stays_sys | apply stays_on_input | apply stays_on_output | apply stays_delete
    | apply stays_alloc; intros ?? | by apply stays_new | by apply stays_upd_chan | by apply stays_modify
    | apply maintains_when | apply maintains_bind; [|intros ?] | case_match ].

Lemma stays_release s : ok (release s).
Proof. unfold release, upd_sock. maintain. Qed.

Lemma stays_update op p : ok (Poller.update op p).
Proof. unfold Poller.update, poller. maintain. Qed.

Lemma stays_updateChannel p : ok (EventLoop.updateChannel p).
Proof.
  pose proof stays_update. unfold EventLoop.updateChannel, Poller.updateChannel, upd_poller. maintain.
Qed.

Lemma stays_removeChannel p : ok (Channel.remove p).
Proof.
  pose proof stays_update. unfold Channel.remove, EventLoop.removeChannel, Poller.removeChannel, upd_poller.
  maintain.
Qed.

Hypothesis user_ok : forall u s, ok (run_user u s).

Lemma stays_call cb s : ok (call cb s).
Proof.
  pose proof stays_release. destruct cb; cbn; [apply user_ok|].
  unfold connectionClose, connections_erase, call_user, connections, set_connections. maintain.
Qed.

Lemma stays_call_with_self cb s : ok (call_with_self cb s).
Proof. pose proof stays_release. pose proof stays_call. unfold call_with_self, share, upd_sock. maintain. Qed.

Lemma stays_handleClose s : ok (Socket.handleClose s).
Proof.
  pose proof stays_removeChannel. pose proof stays_call_with_self. unfold Socket.handleClose. maintain.
Qed.

Lemma stays_handleWrite s : ok (Socket.handleWrite s).
Proof.
  pose proof stays_updateChannel. unfold Socket.handleWrite, chan_fd, Channel.disableWriting, Channel.update,
    EventLoop.runInLoop, share, upd_sock. maintain.
Qed.

Lemma stays_Send s data len : ok (Socket.Send s data len).
Proof.
  pose proof stays_updateChannel. unfold Socket.Send, chan_fd, Channel.enableWriting, Channel.update. maintain.
Qed.

Lemma stays_handleRead s t : ok (Socket.handleRead s t).
Proof.
  pose proof stays_handleClose. pose proof stays_call_with_self.
  unfold Socket.handleRead, chan_fd, Socket.handleError. maintain.
Qed.

Lemma stays_Socket_ctor fd : ok (Socket_ctor fd).
Proof.
  pose proof stays_updateChannel. unfold Socket_ctor, Channel.enableReading, Channel.update. maintain.
Qed.

Lemma stays_accept : ok TcpServer.accept.
Proof.
  pose proof stays_Socket_ctor. pose proof stays_updateChannel. pose proof stays_release. pose proof user_ok.
  unfold TcpServer.accept, acceptor_ptr, server, Socket.getFD, Socket.setAddr, Socket.setMessageCallback,
    Socket.setWriteCompleteCallback, Socket.setCloseCallback, Socket.getChan, upd_sock, connections_insert,
    connections, share, set_connections, call_user. maintain.
Qed.

Lemma stays_run_read cb t : ok (run_read cb t).
Proof. destruct cb; [apply stays_handleRead|apply stays_accept]. Qed.

Lemma stays_run_event cb : ok (run_event cb).
Proof.
  destruct cb; [apply stays_handleWrite|apply stays_handleClose|].
  unfold run_event, acceptorCloseCallback, EventLoop.quit. maintain.
Qed.
End Channel.

Lemma library_callbacks_keep this t :
  user_leaves_reports -> callbacks_keep run_read run_event this t.
Proof.
  intros Hu a r. assert (forall u s, maintains (stays this r) (run_user u s)) as Hur by (intros; apply Hu).
  unfold run_action. apply maintains_bind; [apply maintains_get_chan|]. intros c.
  destruct a; unfold call_if; case_match;
    first [apply maintains_ret|by apply stays_run_event|by apply stays_run_read].
Qed.

(** C16: [handleEvent], with the library's own callbacks and any user code that
    stores no events in channels, is a loop over the callbacks that are due: it
    runs the close, error, read and write callbacks in this order, each exactly
    when its condition on the reported events holds (close only without
    [EPOLLIN]), with the channel marked as handling meanwhile.  The equation
    includes the faults: a callback that destroys the channel, as the close of a
    connection does, makes what follows a use after free. *)
Theorem handleEvent_runs_due_callbacks this t c w :
  user_leaves_reports -> (this < next_ptr w)%positive -> chans w !! this = Some c ->
  handleEvent this t w =
  (upd_chan this (with_eventHandling true) ;;
   for_each (run_action run_read run_event this t) (due (revents_ c)) ;;
   upd_chan this (with_eventHandling false)) w.
Proof. intros Hu. apply handleEvent_due. by apply library_callbacks_keep. Qed.
End Reports.

(** main.cpp only calls the library. *)
Lemma main_leaves_reports `{Kernel (option ptr) K} : user_leaves_reports (K := K) (U := main_fn).
Proof.
  intros u s this r. destruct u; cbn; unfold take_input, Socket.getAddr;
    repeat first [apply stays_Send|apply stays_on_input|apply maintains_get_sock|apply maintains_ret
      |apply maintains_bind; [|intros ?]].
Qed.

(** The connection of the example server reports input and output: with a message
    to read, and after its peer has closed it. *)
Definition reporting : Channel :=
  mkChannel 7 3 5 1 false (Some (Socket_handleRead 3)) (Some (Socket_handleWrite 3))
    (Some (Socket_handleClose 3)) None.
Definition talking : DW := exec (upd_chan 4%positive (with_revents 5)) (connected [SysOk hi] [] []).
Definition leaving : DW := exec (upd_chan 4%positive (with_revents 5)) (connected [SysOk []] [] []).

Lemma reporting_channel :
  chans talking !! 4%positive = Some reporting /\ chans leaving !! 4%positive = Some reporting /\
  (4 < next_ptr talking)%positive /\ (4 < next_ptr leaving)%positive.
Proof. vm_compute. done. Qed.

Lemma handleEvent_runs_due_callbacks_witness :
  let dispatch (w : DW) l :=
    (upd_chan 4%positive (with_eventHandling true) ;;
     for_each (run_action run_read run_event 4 77) l ;;
     upd_chan 4%positive (with_eventHandling false)) w in
  due 5 = [OnRead; OnWrite] /\
  handleEvent 4 77 talking = dispatch talking (due 5) /\
  handleEvent 4 77 leaving = dispatch leaving (due 5) /\
  handleEvent 4 77 leaving = Err (Undefined UseAfterFree).
Proof.
  destruct reporting_channel as (Ht & Hl & Hnt & Hnl). cbv zeta. split; [reflexivity|]. split; [|split].
  - exact (handleEvent_runs_due_callbacks 4 77 reporting talking main_leaves_reports Hnt Ht).
  - exact (handleEvent_runs_due_callbacks 4 77 reporting leaving main_leaves_reports Hnl Hl).
  - vm_compute. reflexivity.
Defined.

(** ** The loop *)

Section Loop.
Context {K U : Type} `{Kernel (option ptr) K} `{UserCode K U} `{InetAddr} `{Host}.
Implicit Type w : World K U.
Abbreviation M := (prog (World K U)).

(** A [quit] that comes before [loop] is forgotten: [loop] clears the flag
    first, so it runs from a stopped loop exactly as it would have without. *)
Theorem quit_before_loop_is_lost fuel w :
  (EventLoop.quit ;; loop fuel : M unit) w = loop fuel w.
Proof. reflexivity. Qed.

(** *** Deferred functors *)

Create HintDb keeps.

Definition run_functor (f : Callback U * ptr) : M unit := call f.1 f.2.

Definition queue w : list (Callback U * ptr) := pendingFunctors_ (the_loop w).

(** User code that leaves the queue of functors as it is. *)
Definition user_keeps_queue : Prop := forall u s w w',
  run_user u s w = Ok (tt, w') -> queue w' = queue w.

(** What is true of the loop object is kept by what does not touch it. *)
Section LoopObject.
Variable P : EventLoop U -> Prop.
Abbreviation on_loop_ok := (maintains (fun w => P (the_loop w))).

Lemma keeps_modify f : (forall w, the_loop (f w) = the_loop w) -> on_loop_ok (modify f).
Proof. intros Hf. apply maintains_modify. intros w. by rewrite Hf. Qed.

#[local] Hint Resolve maintains_ret maintains_gets maintains_get_st maintains_unwrap maintains_get_sock : keeps.
#[local] Hint Extern 1 (maintains _ (modify _)) => by apply keeps_modify : keeps.
#[local] Hint Extern 2 (maintains _ (_ ≫= _)) => apply maintains_bind; [|intros ?] : keeps.
#[local] Hint Extern 3 (maintains _ (match _ with _ => _ end)) => case_match : keeps.

Lemma keeps_release s : on_loop_ok (release s).
Proof. unfold release, upd_sock. eauto with keeps. Qed.

Lemma keeps_functor f :
  (forall u s, on_loop_ok (run_user u s)) -> on_loop_ok (run_functor f).
Proof.
  intros Hu. pose proof keeps_release. unfold run_functor. destruct f.1 as [u|]; cbn; [apply Hu|].
  unfold connectionClose, connections_erase, call_user, connections, set_connections.
  eauto 10 with keeps.
Qed.
End LoopObject.

Lemma functor_keeps_queue f w w' :
  user_keeps_queue -> run_functor f w = Ok (tt, w') -> queue w' = queue w.
Proof.
  intros Hu. apply (keeps_functor (fun l => pendingFunctors_ l = queue w)); [|done].
  intros u s w1 [] w2 Hq Hr. rewrite <- Hq. by apply (Hu u s).
Qed.

Lemma pending_loop_eq fuel i w :
  user_keeps_queue -> (length (queue w) <= i + fuel)%nat ->
  pending_loop fuel i w = for_each run_functor (drop i (queue w)) w.
Proof.
  intros Hu. revert i w. induction fuel as [|fuel IH]; intros i w Hle;
    unfold pending_loop; fold pending_loop; unfold loop_state, mbind, prog_bind, gets; cbn;
    fold (queue w).
  - rewrite lookup_ge_None_2 by lia. by rewrite drop_ge by lia.
  - destruct (queue w !! i) as [[cb s]|] eqn:E.
    + rewrite (drop_S _ _ _ E). cbn [for_each]. unfold mbind, prog_bind.
      unfold run_functor at 1. cbn [fst snd].
      destruct (call cb s w) as [[[] w1]|] eqn:Ec; [|done].
      pose proof (functor_keeps_queue (cb, s) w w1 Hu Ec) as Hq. rewrite IH, Hq; [done|].
      rewrite Hq. lia.
    + apply lookup_ge_None_1 in E. by rewrite drop_ge.
Qed.

Lemma functors_keep_queue l w w' :
  user_keeps_queue -> for_each run_functor l w = Ok (tt, w') -> queue w' = queue w.
Proof.
  intros Hu. revert w. induction l as [|[cb s] l IH]; intros w; cbn; [by intros [= <-]|].
  unfold mbind, prog_bind, run_functor at 1. cbn.
  destruct (call cb s w) as [[[] w1]|] eqn:E; [|done]. intros Hr.
  rewrite (IH w1 Hr). by apply (functor_keeps_queue (cb, s)).
Qed.

(** [n] consecutive calls of [doPendingFunctors]. *)
Fixpoint pending_rounds (n fuel : nat) : M unit :=
  match n with
  | O => mret tt
  | S n' => doPendingFunctors fuel ;; pending_rounds n' fuel
  end.

(** [doPendingFunctors] calls the queued functors in the order they were
    queued, and leaves them queued: when the functors queue nothing themselves,
    [n] rounds of the loop run the whole queue [n] times over (the swap that
    would have emptied it is commented out), and it never shrinks. *)
Theorem pending_functors_run_every_round n fuel w :
  user_keeps_queue -> (length (queue w) <= fuel)%nat ->
  pending_rounds n fuel w = for_each run_functor (concat (replicate n (queue w))) w
  /\ (forall w', pending_rounds n fuel w = Ok (tt, w') -> queue w' = queue w).
Proof.
  intros Hu Hle. assert (forall q w, queue w = q -> (length q <= fuel)%nat ->
    pending_rounds n fuel w = for_each run_functor (concat (replicate n q)) w) as Hrun.
  { clear w Hle. intros q. induction n as [|n IH]; intros w Hq Hle; cbn; [done|].
    rewrite for_each_app. apply bind_cong.
    - unfold doPendingFunctors. by rewrite pending_loop_eq, Hq by (rewrite ?Hq; done).
    - intros [] w1 E. apply IH; [|done]. rewrite <- Hq.
      unfold doPendingFunctors in E. rewrite pending_loop_eq in E by (rewrite ?Hq; done).
      by apply functors_keep_queue in E. }
  split; [by apply Hrun|]. intros w' Hr. rewrite (Hrun (queue w)) in Hr by done.
  by apply functors_keep_queue in Hr.
Qed.

(** *** Termination *)

Lemma pending_more_fuel fuel k i w x :
  pending_loop fuel i w = Ok x -> pending_loop (fuel + k) i w = Ok x.
Proof.
  revert i w. induction fuel as [|fuel IH]; intros i w.
  - destruct k; [done|]. cbn. unfold loop_state, mbind, prog_bind, gets. cbn.
    by destruct (pendingFunctors_ (the_loop w) !! i) as [[cb s]|].
  - cbn. unfold loop_state, mbind, prog_bind, gets. cbn.
    destruct (pendingFunctors_ (the_loop w) !! i) as [[cb s]|]; [|done].
    destruct (call cb s w) as [[[] w1]|]; [apply IH|done].
Qed.

Lemma loop_body_more_fuel fuel k w x : loop_body fuel w = Ok x -> loop_body (fuel + k) w = Ok x.
Proof.
  unfold loop_body. unfold mbind, prog_bind. cbn. unfold loop_state, gets.
  destruct (poll _ _ _) as [[[now active] w1]|]; [|done]. cbn.
  destruct (printActiveChannels _) as [[[] w2]|]; [|done].
  destruct (for_each _ _ _) as [[[] w3]|]; [|done].
  apply pending_more_fuel.
Qed.

Lemma loop_while_more_fuel fuel k w x : loop_while fuel w = Ok x -> loop_while (fuel + k) w = Ok x.
Proof.
  revert w. induction fuel as [|fuel IH]; intros w.
  - destruct k; [done|]. cbn. unfold loop_state, mbind, prog_bind, gets. by destruct (quit_ _).
  - cbn. unfold loop_state, mbind, prog_bind, gets. destruct (quit_ _); [done|].
    destruct (loop_body fuel w) as [[[] w1]|] eqn:E; [|done].
    rewrite (loop_body_more_fuel _ k _ _ E). apply IH.
Qed.

(** Iterations of the loop, as many as it takes until [quit_] is seen. *)
Inductive rounds : World K U -> World K U -> Prop :=
  | rounds_quit w : quit_ (the_loop w) = true -> rounds w w
  | rounds_next fuel w w1 w2 :
      quit_ (the_loop w) = false -> loop_body fuel w = Ok (tt, w1) -> rounds w1 w2 -> rounds w w2.

(** [loop] returns, for some fuel, exactly when finitely many iterations
    that all end without a fault lead to a state in which some callback has
    called [quit]; it returns in that state, with [looping_] cleared.  So no
    fuel bound restricts what the other theorems say of it. *)
Theorem loop_returns_iff_quit w w' :
  (exists fuel, loop fuel w = Ok (tt, w')) <->
  (exists w2, rounds (on_loop (fun l => with_quit false (with_looping true l)) w) w2
     /\ quit_ (the_loop w2) = true /\ w' = on_loop (with_looping false) w2).
Proof.
  set (w0 := on_loop _ w).
  assert (forall fuel, loop fuel w
    = (loop_while fuel ;; modify (on_loop (with_looping false))) w0) as Hloop by done.
  assert (forall w1 w2, (exists fuel, loop_while fuel w1 = Ok (tt, w2)) <->
    rounds w1 w2 /\ quit_ (the_loop w2) = true) as Hwhile.
  { intros w1 w2. split.
    - intros [fuel Hf]. revert w1 Hf. induction fuel as [|fuel IH]; intros w1 Hf; cbn in Hf;
        unfold loop_state, mbind, prog_bind, gets in Hf; destruct (quit_ (the_loop w1)) eqn:Hq;
        try done; try (injection Hf as <-; split; [by apply rounds_quit|done]).
      destruct (loop_body fuel w1) as [[[] w3]|] eqn:E; [|done].
      destruct (IH w3 Hf) as [Hr Hq2]. split; [|done]. by eapply rounds_next.
    - intros [Hr _]. induction Hr as [w1 Hq|fuel w1 w3 w2 Hq Hb Hr [fuel2 IH]].
      + exists O. cbn. unfold loop_state, mbind, prog_bind, gets. by rewrite Hq.
      + exists (S (fuel + fuel2)). cbn. unfold loop_state, mbind, prog_bind, gets. rewrite Hq.
        rewrite (loop_body_more_fuel _ fuel2 _ _ Hb). rewrite Nat.add_comm.
        by apply loop_while_more_fuel. }
  split.
  - intros [fuel Hf]. rewrite Hloop in Hf. unfold mbind, prog_bind in Hf.
    destruct (loop_while fuel w0) as [[[] w2]|] eqn:E; [|done]. injection Hf as <-.
    exists w2. destruct (proj1 (Hwhile w0 w2)) as [? ?]; [by exists fuel|]. done.
  - intros (w2 & Hr & Hq & ->). destruct (proj2 (Hwhile w0 w2)) as [fuel Hf]; [done|].
    exists fuel. rewrite Hloop. unfold mbind, prog_bind. by rewrite Hf.
Qed.
End Loop.

(** *** Stopping the server *)

Section Stop.
Context {K U : Type} `{KernelLaws (option ptr) K} `{UserCode K U} `{InetAddr} `{Host}.
Implicit Type w : World K U.
Abbreviation M := (prog (World K U)).

Lemma runs_loop_state {A} (f : EventLoop U -> A) w (Q : A -> World K U -> Prop) :
  runs (loop_state f) w Q <-> Q (f (the_loop w)) w.
Proof. done. Qed.

Ltac loop_steps := repeat first [run_step | rewrite runs_loop_state; cbn beta].

Lemma runs_print l w (Q : unit -> World K U -> Prop) :
  activeChannels_ (the_loop w) = l -> Forall (fun p => is_Some (chans w !! p)) l -> Q tt w ->
  runs printActiveChannels w Q.
Proof.
  intros Hl Hlive HQ. unfold printActiveChannels, loop_state. run_steps. rewrite Hl. clear Hl.
  induction Hlive as [|p l [c Hc] _ IH]; cbn [for_each]; [done|].
  run_steps. rewrite runs_get_chan. by exists c.
Qed.

Lemma runs_pending_nil fuel w (Q : unit -> World K U -> Prop) :
  queue w = [] -> Q tt w -> runs (doPendingFunctors fuel) w Q.
Proof.
  intros Hq HQ. unfold doPendingFunctors. destruct fuel; cbn; loop_steps; fold (queue w);
    by rewrite Hq.
Qed.

(** The close callback of the acceptor's channel sets [quit_]. *)
Lemma runs_hangup a c t w :
  chans w !! a = Some c -> closeCallback_ c = Some TcpServer_acceptorCloseCallback ->
  due (revents_ c) = [OnClose] ->
  runs (handleEvent a t : M unit) w (fun _ w' =>
    exists c', w' = on_loop (with_quit true) (on_chans <[a := c']> w)).
Proof.
  intros Hc Hcb Hdue. unfold due in Hdue. rewrite <- !test_flag_lor in Hdue.
  unfold handleEvent, Channel.handleEvent.
  destruct (test_flag (revents_ c) EPOLLHUP && negb (test_flag (revents_ c) EPOLLIN)) eqn:E1,
    (test_flag (revents_ c) EPOLLERR) eqn:E2,
    (test_flag (revents_ c) (Z.lor EPOLLIN (Z.lor EPOLLPRI EPOLLRDHUP))) eqn:E3,
    (test_flag (revents_ c) EPOLLOUT) eqn:E4; try discriminate Hdue.
  heap_steps. cbn [revents_ with_eventHandling]. rewrite E1. cbn [when_].
  cbn [closeCallback_ with_eventHandling]. rewrite Hcb. cbn [call_if run_event].
  unfold TcpServer.acceptorCloseCallback, EventLoop.quit.
  repeat (heap_step; cbn [revents_ with_eventHandling]; rewrite ?E2, ?E3, ?E4; cbn [when_]).
  eexists. unfold on_loop, on_chans. cbn. by rewrite insert_insert_eq.
Qed.

(** The iteration up to the deferred functors. *)
Definition dispatch_round : M unit :=
  modify (on_loop (with_activeChannels [])) ;;
  active ← loop_state activeChannels_;
  '(now, active) ← poll kPollTimeMs active;
  modify (on_loop (fun l => with_pollReturnTime now (with_activeChannels active l))) ;;
  printActiveChannels ;;
  l ← loop_state activeChannels_;
  t ← loop_state pollReturnTime_;
  for_each (fun p => handleEvent p t) l.

Lemma loop_body_dispatch fuel w : loop_body fuel w = (dispatch_round ;; doPendingFunctors fuel) w.
Proof.
  unfold loop_body, dispatch_round. rewrite bind_assoc. apply bind_ext. intros _ w1 _.
  rewrite bind_assoc. apply bind_ext. intros active w2 _. rewrite bind_assoc. apply bind_ext.
  intros [now active'] w3 _. rewrite bind_assoc. apply bind_ext. intros _ w4 _.
  rewrite bind_assoc. apply bind_ext. intros _ w5 _. rewrite bind_assoc. apply bind_ext. intros l w6 _.
  by rewrite bind_assoc.
Qed.

(** A world whose loop is being ended by the close of the acceptor at [a]: every
    other channel, the sockets, the server and the queue are those of [w]. *)
Record hung_up a w w' : Prop := mkHungUp {
  hu_quit : quit_ (the_loop w') = true;
  hu_looping : looping_ (the_loop w') = looping_ (the_loop w);
  hu_active : activeChannels_ (the_loop w') = [a];
  hu_queue : queue w' = queue w;
  hu_socks : socks w' = socks w;
  hu_server : the_server w' = the_server w;
  hu_next : next_ptr w' = next_ptr w;
  hu_chans p : p <> a -> chans w' !! p = chans w !! p;
  hu_kernel : same_view (kernel w) (kernel w')
}.

Lemma hangup_dispatched a c ev w :
  epoll_sound w -> 0 < zlen (slots w) -> 2 * zlen (slots w) <= event_list_max ->
  chans w !! a = Some c -> closeCallback_ c = Some TcpServer_acceptorCloseCallback ->
  wait_answer kPollTimeMs w = SysOk [ev] -> ev_data ev = Some a ->
  due (int32 (ev_events ev)) = [OnClose] ->
  runs dispatch_round w (fun _ w' => hung_up a w w').
Proof.
  intros Hs Hpos Hmax Hc Hcb Hans Hdata Hdue. unfold dispatch_round. loop_steps.
  set (w1 := on_loop (K:=K) (U:=U) (with_activeChannels []) w).
  change (activeChannels_ (the_loop w1)) with (@nil ptr).
  eapply runs_mono.
  { apply poll_spec; [by apply (sound_view w)|done..]. }
  change (wait_answer kPollTimeMs w1) with (wait_answer (K:=K) (U:=U) kPollTimeMs w).
  rewrite Hans. cbn beta. intros [now active] w2 (Hs2 & Hst & -> & _ & Hch & _).
  unfold poll_static in Hst. injection Hst as Hsk Hnx Hsv Ho Hi Hsent Hlp Hqt _ _ Hpend _ _.
  cbn [omap list_omap]. rewrite Hdata. cbn [app]. cbn [deliver] in Hch. rewrite Hdata in Hch.
  change (chans w1) with (chans w) in Hch. rewrite (alter_live _ _ _ c) in Hch by done.
  set (c2 := with_revents (int32 (ev_events ev)) c) in *.
  run_steps. apply (runs_print [a]); [done| |].
  { repeat constructor. cbn. rewrite Hch, lookup_insert_eq. by eexists. }
  loop_steps. cbn [activeChannels_ the_loop on_loop with_pollReturnTime
    with_activeChannels for_each]. run_steps. eapply runs_mono.
  { apply (runs_hangup a c2); [cbn; by rewrite Hch, lookup_insert_eq|done|done]. }
  cbn beta. intros _ w3 (c' & ->). run_steps. split; try done.
  intros p Hp. cbn. by rewrite lookup_insert_ne, Hch, lookup_insert_ne by done.
Qed.

(** User code that does not take back a [quit]. *)
Definition user_keeps_quit : Prop := forall u s, maintains (fun w => quit_ (the_loop w) = true) (run_user u s).

(** C5: Hanging up the listening socket stops the server: when a poll reports
    just that on the acceptor's channel, whatever was active in the round before,
    the close callback sets [quit_] and touches nothing else but that channel; the
    deferred functors still run, each of them once and in order, and [loop]
    returns after this single iteration, no longer looping, or ends in the fault
    of a functor.  It holds with fuel for the functors that are queued. *)
Theorem acceptor_hangup_ends_loop a c ev n w :
  epoll_sound w -> 0 < zlen (slots w) -> 2 * zlen (slots w) <= event_list_max ->
  user_keeps_queue -> user_keeps_quit -> (length (queue w) <= n)%nat ->
  chans w !! a = Some c -> closeCallback_ c = Some TcpServer_acceptorCloseCallback ->
  wait_answer kPollTimeMs w = SysOk [ev] -> ev_data ev = Some a ->
  due (int32 (ev_events ev)) = [OnClose] ->
  exists w', hung_up a (on_loop (with_looping true) w) w' /\
    loop (S n) w = (for_each run_functor (queue w) ;; modify (on_loop (with_looping false))) w'.
Proof.
  intros Hs Hpos Hmax Huq Huk Hn Hc Hcb Hans Hdata Hdue.
  set (w0 := on_loop (fun l => with_quit false (with_looping true l)) w).
  assert (epoll_sound w0) as Hs0 by by apply (sound_view w).
  pose proof (hangup_dispatched a c ev w0 Hs0 Hpos Hmax Hc Hcb Hans Hdata Hdue) as Hd. unfold runs in Hd.
  destruct (dispatch_round w0) as [[[] w3]|] eqn:E; [|done]. pose proof (hu_queue _ _ _ Hd) as Hq.
  exists w3. split; [destruct Hd; by split|].
  change (queue w0) with (queue w) in Hq.
  transitivity ((loop_body n ;; loop_while n ;; modify (on_loop (with_looping false))) w0).
  { change (loop (S n) w) with ((loop_while (S n) ;; modify (on_loop (with_looping false))) w0).
    change (loop_while (S n)) with (q ← loop_state quit_; if q : bool then mret tt else loop_body n ;; loop_while n).
    rewrite bind_assoc. change (quit_ (the_loop w0)) with false. apply bind_assoc. }
  transitivity ((doPendingFunctors n ;; loop_while n ;; modify (on_loop (with_looping false))) w3).
  { unfold mbind, prog_bind. rewrite loop_body_dispatch. unfold mbind, prog_bind. by rewrite E. }
  apply bind_cong; [unfold doPendingFunctors; rewrite pending_loop_eq, Hq by (rewrite ?Hq; done); done|].
  intros [] w4 E4. unfold doPendingFunctors in E4. rewrite pending_loop_eq in E4 by (rewrite ?Hq; done).
  assert (quit_ (the_loop w4) = true) as Hquit.
  { refine (maintains_for_each (fun w => quit_ (the_loop w) = true) run_functor _ _ _ _ _ (hu_quit _ _ _ Hd) E4).
    intros f. by apply (keeps_functor (fun l => quit_ l = true)). }
  destruct n; cbn [loop_while]; unfold loop_state, mbind, prog_bind, gets; by rewrite Hquit.
Qed.
End Stop.

(** ** Witnesses *)

(** The code of [cclose] and [newConn]: it only looks at the address. *)
Definition look_code : UserCode DK main_fn := fun _ s => _ ← getAddr s; mret tt.

Definition queued : DW :=
  on_loop (with_pendingFunctors [(UserCallback newConn, 3%positive)]) (connected [] [] []).

Lemma pending_functors_run_every_round_witness :
  let rounds3 := pending_rounds (H0 := look_code) 3 5 queued in
  rounds3 = for_each (run_functor (H0 := look_code))
              (concat (replicate 3 [(UserCallback newConn, 3%positive)])) queued
  /\ (forall w', rounds3 = Ok (tt, w') -> queue w' = queue queued).
Proof.
  apply (pending_functors_run_every_round (H0 := look_code) 3 5 queued).
  - intros u s w w'. unfold run_user, look_code, getAddr, get_sock, mbind, prog_bind, get_st. cbn.
    by destruct (socks w !! s); intros [= <-].
  - vm_compute. lia.
Defined.

(** The acceptor hangs up in the first poll, with a functor queued and a channel
    left over from an earlier round. *)
Definition hung : DW :=
  on_loop (fun l => with_activeChannels [4%positive] (with_pendingFunctors [(UserCallback newConn, 3%positive)] l))
    (connected [] [] [SysOk [(4, EPOLLHUP)]]).

Lemma look_keeps_quit : user_keeps_quit (H1 := look_code).
Proof.
  intros u s. apply maintains_bind; [|intros ?; apply maintains_ret].
  apply maintains_bind; [apply maintains_get_sock|intros ?; apply maintains_ret].
Qed.

Lemma acceptor_hangup_ends_loop_witness :
  queue hung = [(UserCallback newConn, 3%positive)] /\
  exists w', hung_up 2%positive (on_loop (with_looping true) hung) w' /\
    loop (H0 := look_code) 2 hung
    = (for_each (run_functor (H0 := look_code)) (queue hung) ;; modify (on_loop (with_looping false))) w'.
Proof.
  split; [reflexivity|].
  apply (acceptor_hangup_ends_loop (H1 := look_code) 2%positive demo_chan (EpollEvent EPOLLHUP (Some 2%positive)) 1 hung).
  - apply epoll_soundb_ok. vm_compute. reflexivity.
  - vm_compute. reflexivity.
  - vm_compute. discriminate.
  - intros u s w w'. unfold run_user, look_code, getAddr, get_sock, mbind, prog_bind, get_st. cbn.
    by destruct (socks w !! s); intros [= <-].
  - exact look_keeps_quit.
  - vm_compute. lia.
  - vm_compute. reflexivity.
  - vm_compute. reflexivity.
  - vm_compute. reflexivity.
  - reflexivity.
  - reflexivity.
Defined.
