(* ===== verification/SocketTheorems.v ===== *)
(** * SocketTheorems: sending and receiving on one connection

    What [Send] and [handleWrite] do to the stream the peer sees, what
    [handleRead] and [handleClose] do, and what becomes of a connection whose
    peer closes while the event loop is still handling its channel. *)

From S2P Require Import Prelude Bytes Buffer BufferSpec Kernel World WorldSpec Poller EventLoop Channel Callbacks Socket PollerTheorems.
From S2P Require Import ScriptKernel Main Scenarios Registration TcpServer Reactor LoopTheorems.

Section SocketRules.
Context {K U : Type} `{KernelLaws (option ptr) K} `{UserCode K U}.
Implicit Type w : World K U.
Abbreviation M := (prog (World K U)).

(** A live socket and its channel. *)
Record connection w (s : ptr) (o : Socket U) (c : Channel) : Prop := mkConnection {
  cn_sock : socks w !! s = Some o;
  cn_chan : chans w !! chan_ o = Some c;
  cn_input : wf (inputBuffer_ o);
  cn_output : wf (outputBuffer_ o)
}.

Definition sent w (fd : Z) : list byte := k_sent (kernel w) fd.
Definition queued_output (o : Socket U) : list byte := contents (outputBuffer_ o).

(** The kernel's answer to a [write], and the world after it. *)
Definition write_answer w fd data : sysres Z := (sys_exec (SysWrite fd data) (kernel w)).1.
Definition after_write w fd data : World K U :=
  let '(r, k) := sys_exec (SysWrite fd data) (kernel w) in after_sys r k w.

(** What a call leaves alone when it only moves bytes. *)
Definition heap_kept w w' : Prop :=
  chans w' = chans w /\ next_ptr w' = next_ptr w /\ the_loop w' = the_loop w
  /\ the_server w' = the_server w /\ interest w' = interest w
  /\ k_open (kernel w') = k_open (kernel w).

#[export] Instance heap_kept_equiv : Equivalence heap_kept.
Proof.
  split; unfold heap_kept; repeat intro; [done|naive_solver|].
  destruct_and!; repeat split; congruence.
Qed.

Lemma heap_kept_sound w w' : heap_kept w w' -> epoll_sound w -> epoll_sound w'.
Proof. intros (? & _ & _ & _ & ? & _) Hs. by apply (sound_view w). Qed.

Lemma kernel_after_write w fd data : kernel (after_write w fd data) = (sys_exec (SysWrite fd data) (kernel w)).2.
Proof. unfold after_write. by destruct (sys_exec (SysWrite fd data) (kernel w)) as [[?|?] ?]. Qed.

Lemma after_write_spec w fd data :
  heap_kept w (after_write w fd data) /\ socks (after_write w fd data) = socks w
  /\ match write_answer w fd data with
     | SysOk n => 0 <= n <= zlen data
         /\ sent (after_write w fd data) fd = sent w fd ++ take (Z.to_nat n) data
         /\ (forall fd', fd' <> fd -> sent (after_write w fd data) fd' = sent w fd')
         /\ errno (after_write w fd data) = errno w
     | SysErr e => k_sent (kernel (after_write w fd data)) = k_sent (kernel w)
         /\ errno (after_write w fd data) = e
     end.
Proof.
  unfold write_answer, after_write. pose proof (law_write fd data (kernel w)) as Hlaw.
  destruct (sys_exec (SysWrite fd data) (kernel w)) as [r k]. destruct Hlaw as (Ho & Hi & Hr).
  cbn [fst]. unfold heap_kept, interest, epfd, sent in *.
  destruct r; cbn; rewrite Ho, Hi; naive_solver.
Qed.

Lemma runs_write w fd data (Q : sysres Z -> World K U -> Prop) :
  runs (sys (SysWrite fd data)) w Q <-> Q (write_answer w fd data) (after_write w fd data).
Proof.
  rewrite runs_sys. unfold write_answer, after_write. by destruct (sys_exec _ (kernel w)).
Qed.

Lemma runs_on_output {A} s o (m : prog Buffer A) w (Q : A -> World K U -> Prop) :
  socks w !! s = Some o ->
  runs (on_output s m) w Q <->
  runs m (outputBuffer_ o) (fun a b => Q a (on_socks <[s := with_outputBuffer b o]> w)).
Proof.
  intros Hs. unfold on_output. rewrite runs_bind, runs_get_sock. unfold runs, mk_prog. split.
  - intros (o' & ? & Hr). simplify_eq. by destruct (m _) as [[a b]|].
  - intros Hr. exists o. split; [done|]. by destruct (m _) as [[a b]|].
Qed.

Lemma runs_chan_fd s o c w (Q : Z -> World K U -> Prop) :
  connection w s o c -> runs (chan_fd s) w Q <-> Q (fd_ c) w.
Proof.
  intros [Hs Hc _ _]. unfold chan_fd. rewrite runs_bind, runs_get_sock. split.
  - intros (o' & ? & Hr). simplify_eq. rewrite runs_bind, runs_get_chan in Hr.
    destruct Hr as (c' & ? & Hr). by simplify_eq.
  - intros HQ. exists o. split; [done|]. rewrite runs_bind, runs_get_chan. by exists c.
Qed.

(** ** Send *)

Lemma connection_kept w w' s o c :
  connection w s o c -> heap_kept w w' -> socks w' = socks w -> connection w' s o c.
Proof. intros [] (Hch & _) Hs. split; rewrite ?Hs, ?Hch; done. Qed.

Lemma enableWriting_spec p c w :
  epoll_sound w -> chans w !! p = Some c ->
  runs (Channel.enableWriting p : M unit) w (fun _ w' =>
    epoll_sound w' /\ poller_frame w w'
    /\ chans w' = <[p := op_channel (EnableWriting p) c]> (chans w)
    /\ op_outcome (EnableWriting p) c (interest w) (interest w')).
Proof. intros Hs Hp. exact (run_op_spec (EnableWriting p) c w Hs Hp). Qed.

Lemma disableWriting_spec p c w :
  epoll_sound w -> chans w !! p = Some c ->
  runs (Channel.disableWriting p : M unit) w (fun _ w' =>
    epoll_sound w' /\ poller_frame w w'
    /\ chans w' = <[p := op_channel (DisableWriting p) c]> (chans w)
    /\ op_outcome (DisableWriting p) c (interest w) (interest w')).
Proof. intros Hs Hp. exact (run_op_spec (DisableWriting p) c w Hs Hp). Qed.

(** What a [Send] of [len] bytes of [data] asks the kernel to write. *)
Definition request (data : list byte) (len : Z) : list byte := take (Z.to_nat len) data.

Lemma zlen_request data len : 0 <= len <= zlen data -> zlen (request data len) = len.
Proof. intros. unfold request, zlen in *. rewrite length_take. lia. Qed.

Lemma Send_start s o c data len w (Q : Z -> World K U -> Prop) :
  connection w s o c -> 0 <= len <= zlen data -> len < two31 ->
  let r := write_answer w (fd_ c) (request data len) in
  let w1 := after_write w (fd_ c) (request data len) in
  runs (if ret_int r =? len then mret 0
        else if 0 <? ret_int r then
          on_output s (append (drop (Z.to_nat (ret_int r)) data) (size_t (len - ret_int r))) ;;
          mret 0
        else
          o ← get_sock s;
          e ← gets errno;
          when_ ((e =? EAGAIN) || (e =? EWOULDBLOCK)) (Channel.enableWriting (chan_ o)) ;;
          gets errno) w1 Q ->
  runs (Send s data len) w Q.
Proof.
  intros Hcn Hlen H31 r w1 Hrun. unfold Send. rewrite runs_bind, (runs_chan_fd s o c) by done.
  rewrite size_t_small, mem_read_Ok by lia. run_steps. by rewrite runs_write.
Qed.

Lemma with_outputBuffer_id (o : Socket U) : with_outputBuffer (outputBuffer_ o) o = o.
Proof. by destruct o. Qed.

Lemma Send_accepted_spec s o c data len n w :
  connection w s o c -> 0 <= len <= zlen data -> len < two31 ->
  writerIndex_ (outputBuffer_ o) + len <= vector_max_size ->
  write_answer w (fd_ c) (request data len) = SysOk n -> 0 < n \/ len = 0 ->
  runs (Send s data len) w (fun ret w' =>
    ret = 0 /\ heap_kept w w'
    /\ sent w' (fd_ c) = sent w (fd_ c) ++ take (Z.to_nat n) (request data len)
    /\ exists o', connection w' s o' c /\ socks w' = <[s := o']> (socks w)
       /\ o' = with_outputBuffer (outputBuffer_ o') o
       /\ queued_output o' = queued_output o ++ drop (Z.to_nat n) (request data len)
       /\ size (outputBuffer_ o') <= grown_size (outputBuffer_ o) len
       /\ kernel w' = (sys_exec (SysWrite (fd_ c) (request data len)) (kernel w)).2).
Proof.
  intros Hcn Hlen H31 Hmax Hans Hn. apply (Send_start s o c); [done..|].
  pose proof (after_write_spec w (fd_ c) (request data len)) as (Hk & Hsk & Hr).
  rewrite Hans in *. destruct Hr as (Hrange & Hsent & _). rewrite zlen_request in Hrange by done.
  set (w1 := after_write _ _ _) in *. cbn [ret_int].
  pose proof (kernel_after_write w (fd_ c) (request data len) : kernel w1 = _) as Hker.
  pose proof (connection_kept w w1 s o c Hcn Hk Hsk) as Hcn1. pose proof Hcn1 as [Hs1 Hc1 _ Hwf].
  destruct (Z.eqb_spec n len) as [->|Hne].
  - rewrite runs_ret. do 3 (split; [done|]). exists o. rewrite Hsk. split; [done|].
    rewrite insert_id by apply Hcn. split; [done|]. split; [by rewrite with_outputBuffer_id|].
    split; [|split; [unfold grown_size; lia|exact Hker]]. rewrite drop_ge, app_nil_r; [done|].
    pose proof (zlen_request data len Hlen). unfold zlen in *. lia.
  - rewrite (proj2 (Z.ltb_lt 0 n)) by lia. rewrite runs_bind, (runs_on_output s o) by done.
    assert (zlen (drop (Z.to_nat n) data) = zlen data - n) as Hd.
    { unfold zlen in *. rewrite length_drop. lia. }
    rewrite size_t_small by lia.
    eapply runs_mono; [apply append_spec; [done|lia|lia]|]. cbn beta.
    intros _ b (Hwfb & Hcb & Hsz & _). rewrite runs_ret. split; [done|].
    split; [exact Hk|]. split; [done|].
    exists (with_outputBuffer b o).
    split; [|split; [cbn; by rewrite Hsk|split; [done|split; [|split; [cbn; unfold grown_size in *; lia|exact Hker]]]]].
    + destruct Hcn1. split; cbn; rewrite ?lookup_insert_eq; done.
    + unfold queued_output. cbn. rewrite Hcb. f_equal. unfold request.
      rewrite skipn_firstn_comm. f_equal. lia.
Qed.

Lemma Send_refused_spec s o c data len e w :
  connection w s o c -> epoll_sound w -> 0 < len <= zlen data -> len < two31 ->
  write_answer w (fd_ c) (request data len) = SysErr e ->
  runs (Send s data len) w (fun ret w' =>
    ret = errno w' /\ epoll_sound w' /\ socks w' = socks w
    /\ k_sent (kernel w') = k_sent (kernel w) /\ the_server w' = the_server w /\
    if (e =? EAGAIN) || (e =? EWOULDBLOCK)
    then chans w' = <[chan_ o := op_channel (EnableWriting (chan_ o)) c]> (chans w)
         /\ op_outcome (EnableWriting (chan_ o)) c (interest w) (interest w')
    else ret = e /\ heap_kept w w').
Proof.
  intros Hcn Hsnd Hlen H31 Hans. apply (Send_start s o c); [done|lia|done|].
  pose proof (after_write_spec w (fd_ c) (request data len)) as (Hk & Hsk & Hr).
  rewrite Hans in *. destruct Hr as (Hsent & Herr). set (w1 := after_write _ _ _) in *.
  pose proof (connection_kept w w1 s o c Hcn Hk Hsk) as [Hs1 Hc1 _ _].
  cbn [ret_int]. rewrite (proj2 (Z.eqb_neq _ _)) by lia. cbn [Z.ltb Z.compare].
  rewrite runs_bind, runs_get_sock. exists o. split; [done|]. run_steps. rewrite Herr.
  assert (epoll_sound w1) as Hsnd1 by (by eapply heap_kept_sound).
  rewrite runs_when. destruct ((e =? EAGAIN) || (e =? EWOULDBLOCK)).
  - eapply runs_mono; [by apply (enableWriting_spec (chan_ o) c w1)|]. cbn beta.
    intros _ w2 (Hs2 & Hf & Hch & Hout). run_steps. split; [done|]. split; [done|].
    rewrite (frame_socks _ _ Hf), (frame_sent _ _ Hf), (frame_server _ _ Hf).
    destruct Hk as (Hch1 & _ & _ & Hsrv & Hi & _). rewrite Hi in Hout. by rewrite Hch, Hch1.
  - run_steps. split; [done|]. split; [done|]. do 2 (split; [done|]). by split; [apply Hk|].
Qed.

(** [Send] when the kernel takes bytes: it returns 0; the bytes taken follow
    what the peer was already sent, the others follow what was already queued in
    the output buffer, so no byte is lost or duplicated; no channel, no
    registration and no other socket changes. *)
Theorem Send_queues_what_was_not_taken s o c data len n w :
  connection w s o c -> 0 <= len <= zlen data -> len < two31 ->
  writerIndex_ (outputBuffer_ o) + len <= vector_max_size ->
  write_answer w (fd_ c) (request data len) = SysOk n -> 0 < n \/ len = 0 ->
  runs (Send s data len) w (fun ret w' =>
    ret = 0 /\ heap_kept w w' /\
    exists o' taken rest, request data len = taken ++ rest /\ zlen taken = n
      /\ connection w' s o' c /\ socks w' = <[s := o']> (socks w)
      /\ sent w' (fd_ c) = sent w (fd_ c) ++ taken
      /\ queued_output o' = queued_output o ++ rest).
Proof.
  intros Hcn Hlen H31 Hmax Hans Hn. eapply runs_mono; [by eapply Send_accepted_spec|].
  cbn beta. intros ret w' (-> & Hk & Hsent & o' & Hcn' & Hsk & _ & Hq & _). do 2 (split; [done|]).
  exists o', (take (Z.to_nat n) (request data len)), (drop (Z.to_nat n) (request data len)).
  split; [by rewrite take_drop|]. split; [|done].
  pose proof (after_write_spec w (fd_ c) (request data len)) as (_ & _ & Hr).
  rewrite Hans in Hr. destruct Hr as (Hr & _). unfold zlen in *. rewrite length_take. lia.
Qed.

(** After a partial write nobody waits for the connection to become
    writable: [Send] queues the rest of the data, but when the channel was not
    asking for output it still is not, and epoll, which had exactly the
    channel's interest, does not watch for [EPOLLOUT]; the queued bytes stay
    where they are until something else enables writing. *)
Theorem Send_partial_leaves_output_unwatched s o c data len n w :
  connection w s o c -> 0 <= len <= zlen data -> len < two31 ->
  writerIndex_ (outputBuffer_ o) + len <= vector_max_size ->
  write_answer w (fd_ c) (request data len) = SysOk n -> 0 < n < len ->
  isWriting c = false -> 0 <= events_ c < two32 ->
  interest w !! fd_ c = Some (own_event (chan_ o) c) ->
  runs (Send s data len) w (fun ret w' =>
    ret = 0 /\ exists o' reg, connection w' s o' c /\ queued_output o' <> []
      /\ isWriting c = false
      /\ interest w' !! fd_ c = Some reg /\ test_flag (ev_events reg) EPOLLOUT = false).
Proof.
  intros Hcn Hlen H31 Hmax Hans Hn Hw Hev Hreg.
  eapply runs_mono; [by eapply Send_accepted_spec; eauto; lia|].
  cbn beta. intros ret w' (-> & Hk & Hsent & o' & Hcn' & Hsk & _ & Hq & _). split; [done|].
  exists o', (own_event (chan_ o) c). split; [done|]. split.
  - rewrite Hq. intros [_ Hnil]%app_eq_nil. apply (f_equal length) in Hnil.
    rewrite length_drop in Hnil. pose proof (zlen_request data len Hlen). unfold zlen in *.
    cbn in Hnil. lia.
  - split; [done|]. destruct Hk as (_ & _ & _ & _ & -> & _). split; [done|].
    unfold own_event. cbn. unfold uint32. rewrite Z.mod_small by lia. exact Hw.
Qed.

(** [Send] when the write fails: nothing reaches the peer and nothing is
    queued, so the caller's bytes are gone unless it repeats the call; the
    return value is the [errno] left behind.  After [EAGAIN] the channel asks
    for output all the same, although there is nothing to write; after any other
    error no object and no registration changes. *)
Theorem Send_refused_drops_data s o c data len e w :
  connection w s o c -> epoll_sound w -> 0 < len <= zlen data -> len < two31 ->
  write_answer w (fd_ c) (request data len) = SysErr e ->
  runs (Send s data len) w (fun ret w' =>
    ret = errno w' /\ epoll_sound w' /\ socks w' = socks w
    /\ k_sent (kernel w') = k_sent (kernel w) /\
    if e =? EAGAIN
    then exists c', chans w' = <[chan_ o := c']> (chans w) /\ isWriting c' = true
    else ret = e /\ heap_kept w w').
Proof.
  intros Hcn Hsnd Hlen H31 Hans. eapply runs_mono; [by eapply Send_refused_spec|].
  cbn beta. intros ret w' (? & ? & ? & ? & _ & Hr). do 4 (split; [done|]).
  unfold EWOULDBLOCK in Hr. rewrite orb_diag in Hr. destruct (e =? EAGAIN); [|done].
  destruct Hr as [Hch _]. eexists. split; [exact Hch|].
  unfold isWriting, test_flag. cbn. rewrite negb_true_iff, Z.eqb_neq.
  rewrite Z.land_lor_distr_l. intros [_ Hz]%Z.lor_eq_0_iff. discriminate Hz.
Qed.

(** [Send] overtakes its own queue.  With bytes of an earlier partial write
    still in the output buffer, a [Send] that the kernel takes whole puts its
    bytes on the wire first: the stream the peer has to come is the old one, the
    new bytes, then the queued ones, not what the caller asked for. *)
Theorem Send_overtakes_queued_bytes s o c data len w :
  connection w s o c -> 0 < len <= zlen data -> len < two31 ->
  writerIndex_ (outputBuffer_ o) + len <= vector_max_size ->
  write_answer w (fd_ c) (request data len) = SysOk len ->
  queued_output o ++ request data len <> request data len ++ queued_output o ->
  runs (Send s data len) w (fun ret w' =>
    ret = 0 /\ exists o', connection w' s o' c
      /\ sent w' (fd_ c) ++ queued_output o'
         = sent w (fd_ c) ++ request data len ++ queued_output o
      /\ sent w' (fd_ c) ++ queued_output o'
         <> (sent w (fd_ c) ++ queued_output o) ++ request data len).
Proof.
  intros Hcn Hlen H31 Hmax Hans Hdiff. assert (0 <= len <= zlen data) as Hlen' by lia.
  eapply runs_mono; [eapply Send_accepted_spec; eauto; lia|].
  cbn beta. intros ret w' (-> & Hk & Hsent & o' & Hcn' & _ & _ & Hq & _). split; [done|].
  exists o'. split; [done|]. pose proof (zlen_request data len Hlen') as Hz. unfold zlen in Hz.
  rewrite Hq, Hsent, take_ge, drop_ge, app_nil_r, <- !app_assoc by lia. split; [done|].
  intros Heq%app_inv_head. by apply Hdiff.
Qed.

(** ** handleWrite *)

Lemma on_socks_id s o w : socks w !! s = Some o -> on_socks <[s := o]> w = w.
Proof. intros Hs. unfold on_socks. rewrite insert_id by done. by destruct w. Qed.

(** The first half of [handleWrite]: the whole output buffer is offered. *)
Lemma handleWrite_start s o c w (Q : unit -> World K U -> Prop) :
  connection w s o c ->
  let n := ret_int (write_answer w (fd_ c) (queued_output o)) in
  runs (if 0 <? n then
          on_output s (retrieve n) ;;
          o ← get_sock s;
          when_ (readableBytes (outputBuffer_ o) =? 0) (
            Channel.disableWriting (chan_ o) ;;
            o' ← get_sock s;
            match so_writeCallback o' with
            | Some cb => share s ;; EventLoop.runInLoop (cb, s)
            | None => mret tt
            end)
        else mret tt) (after_write w (fd_ c) (queued_output o)) Q ->
  runs (handleWrite s) w Q.
Proof.
  intros Hcn n Hrun. unfold handleWrite. rewrite runs_bind, (runs_chan_fd s o c) by done.
  pose proof Hcn as [Hs Hc Hin Hwf].
  rewrite runs_bind, (runs_on_output s o) by done. run_steps.
  pose proof (readableBytes_wf _ Hwf) as Hr.
  rewrite runs_read_at by (destruct Hwf; unfold peek; lia).
  rewrite with_outputBuffer_id, on_socks_id by done. unfold peek. rewrite Hr.
  fold (contents (outputBuffer_ o)). fold (queued_output o). by rewrite runs_bind, runs_write.
Qed.

(** What is left of a socket whose output buffer was drained. *)
Definition deferred_write_complete s (o : Socket U) w w' : Prop :=
  match so_writeCallback o with
  | Some cb => queue w' = queue w ++ [(cb, s)]
      /\ socks w' = <[s := with_use_count (use_count o + 1) o]> (socks w)
  | None => queue w' = queue w /\ socks w' = <[s := o]> (socks w)
  end.

(** When the output has been drained: stop asking, and defer the callback. *)
Lemma finish_output_spec s (o : Socket U) c w :
  epoll_sound w -> socks w !! s = Some o -> chans w !! chan_ o = Some c ->
  runs (Channel.disableWriting (chan_ o) ;;
        o' ← get_sock s;
        match so_writeCallback o' with
        | Some cb => share s ;; EventLoop.runInLoop (cb, s)
        | None => mret tt
        end) w (fun _ w' =>
    epoll_sound w' /\ the_server w' = the_server w /\ (forall fd, sent w' fd = sent w fd) /\
    chans w' = <[chan_ o := op_channel (DisableWriting (chan_ o)) c]> (chans w) /\
    op_outcome (DisableWriting (chan_ o)) c (interest w) (interest w') /\
    deferred_write_complete s o w w').
Proof.
  intros Hsnd Hs Hc. rewrite runs_bind.
  eapply runs_mono; [by apply (disableWriting_spec (chan_ o) c w)|]. cbn beta.
  intros _ w3 (Hsnd3 & Hf & Hch & Hout).
  pose proof (frame_socks _ _ Hf) as Hsk3. pose proof (frame_server _ _ Hf) as Hsrv3.
  assert (queue w3 = queue w) as Hq3.
  { pose proof (frame_loop _ _ Hf) as Hl. unfold loop_static in Hl. unfold queue. congruence. }
  assert (forall fd, sent w3 fd = sent w fd) as Hsent3.
  { intros fd. unfold sent. by rewrite (frame_sent _ _ Hf). }
  rewrite runs_bind, runs_get_sock. exists o. rewrite Hsk3. split; [done|].
  unfold deferred_write_complete. destruct (so_writeCallback o) as [cb|] eqn:Ecb.
  - rewrite runs_bind, runs_share. exists o. rewrite Hsk3. split; [done|].
    unfold EventLoop.runInLoop. rewrite runs_modify.
    split; [by apply (sound_view w3)|]. do 4 (split; [done|]). unfold queue in *. cbn. by rewrite Hq3, Hsk3.
  - rewrite runs_ret. do 5 (split; [done|]). split; [done|]. rewrite Hsk3. by rewrite insert_id.
Qed.

(** The same, told from the state in which the socket was last replaced. *)
Lemma deferred_from s (o : Socket U) w0 w w' :
  deferred_write_complete s o w w' -> queue w = queue w0 -> socks w = <[s := o]> (socks w0) ->
  deferred_write_complete s o w0 w'.
Proof.
  unfold deferred_write_complete. intros Hd Hq Hsk. rewrite Hq, Hsk in Hd.
  destruct (so_writeCallback o); by rewrite insert_insert_eq in Hd.
Qed.

Lemma handleWrite_spec s o c w :
  connection w s o c -> epoll_sound w ->
  runs (handleWrite s) w (fun _ w' =>
    epoll_sound w' /\ the_server w' = the_server w /\
    let data := queued_output o in
    match write_answer w (fd_ c) data with
    | SysOk n =>
        exists b, wf b /\ contents b = drop (Z.to_nat n) data /\ size b = size (outputBuffer_ o)
          /\ sent w' (fd_ c) = sent w (fd_ c) ++ take (Z.to_nat n) data /\
        if (0 <? n) && (n =? zlen data)
        then chans w' = <[chan_ o := op_channel (DisableWriting (chan_ o)) c]> (chans w)
             /\ op_outcome (DisableWriting (chan_ o)) c (interest w) (interest w')
             /\ deferred_write_complete s (with_outputBuffer b o) w w'
        else heap_kept w w' /\ socks w' = <[s := with_outputBuffer b o]> (socks w)
    | SysErr _ => sent w' (fd_ c) = sent w (fd_ c) /\ heap_kept w w' /\ socks w' = socks w
    end).
Proof.
  intros Hcn Hsnd. cbv zeta. apply (handleWrite_start s o c); [done|].
  pose proof (after_write_spec w (fd_ c) (queued_output o)) as (Hk & Hsk & Hr).
  set (w1 := after_write _ _ _) in *. set (data := queued_output o) in *.
  pose proof (connection_kept w w1 s o c Hcn Hk Hsk) as [Hs1 Hc1 _ Hwf].
  assert (epoll_sound w1) as Hsnd1 by (by eapply heap_kept_sound).
  assert (zlen data = readableBytes (outputBuffer_ o)) as Hz by (by apply zlen_contents).
  destruct (write_answer w (fd_ c) data) as [n|e]; cbn [ret_int].
  2:{ cbn [Z.ltb Z.compare]. rewrite runs_ret. split; [done|]. split; [apply Hk|].
      unfold sent. by rewrite (proj1 Hr). }
  destruct Hr as (Hn & Hsent & _ & Herr). destruct (Z.ltb_spec 0 n) as [Hpos|Hzero]; cbn [andb].
  2:{ rewrite runs_ret. split; [done|]. split; [apply Hk|]. exists (outputBuffer_ o).
      split; [done|]. assert (n = 0) as -> by lia.
      split; [done|]. split; [done|]. split; [done|]. split; [done|].
      rewrite with_outputBuffer_id, insert_id; [done|apply Hcn]. }
  rewrite runs_bind, (runs_on_output s o) by done.
  eapply runs_mono; [apply retrieve_spec; [done|lia]|]. cbn beta. intros _ b (Hwfb & Hcb & Hbuf & _).
  assert (size b = size (outputBuffer_ o)) as Hsz by (unfold size; by rewrite Hbuf).
  set (o1 := with_outputBuffer b o). set (w2 := on_socks _ w1).
  assert (heap_kept w w2) as Hk2 by exact Hk.
  assert (epoll_sound w2) as Hsnd2 by (by eapply heap_kept_sound).
  assert (socks w2 !! s = Some o1) as Hs2 by (cbn; by rewrite lookup_insert_eq).
  assert (socks w2 = <[s := o1]> (socks w)) as Hsk2 by (cbn; by rewrite Hsk).
  rewrite runs_bind, runs_get_sock. exists o1. split; [done|]. rewrite runs_when.
  assert (readableBytes (outputBuffer_ o1) = zlen data - n) as ->.
  { change (outputBuffer_ o1) with b. rewrite readableBytes_zlen, Hcb by done.
    change (contents (outputBuffer_ o)) with data. unfold zlen in *. rewrite length_drop. lia. }
  assert ((zlen data - n =? 0) = (n =? zlen data)) as -> by lia.
  destruct (n =? zlen data).
  2:{ split; [done|]. split; [apply Hk|]. by exists b. }
  eapply runs_mono; [by apply (finish_output_spec s o1 c w2)|]. cbn beta.
  intros _ w3 (Hsnd3 & Hsrv3 & Hsent3 & Hch3 & Hout3 & Hdef).
  destruct Hk2 as (Hch2 & _ & Hq2 & Hsrv2 & Hi2 & _).
  rewrite Hi2 in Hout3. rewrite Hch2 in Hch3. split; [done|]. split; [by rewrite Hsrv3|].
  exists b. split; [done|]. split; [done|]. split; [done|]. split; [by rewrite Hsent3|]. split; [done|]. split; [done|].
  eapply deferred_from; [exact Hdef|unfold queue; congruence|done].
Qed.

(** C11: [handleWrite] moves bytes from the output buffer to the peer without
    loss, duplication or reordering, whatever the kernel accepts: the bytes sent
    followed by the bytes still queued are the same before and after.  When the
    buffer drains, the channel stops asking for output and the write-complete
    callback, if there is one, is deferred with a reference that keeps the
    connection alive; until then the channel is left asking. *)
Theorem handleWrite_conserves_stream s o c w :
  connection w s o c -> epoll_sound w ->
  runs (handleWrite s) w (fun _ w' =>
    exists o' c', connection w' s o' c' /\ epoll_sound w'
    /\ sent w' (fd_ c) ++ queued_output o' = sent w (fd_ c) ++ queued_output o
    /\ (queued_output o <> [] -> queued_output o' = [] ->
         isWriting c' = false /\ deferred_write_complete s (with_outputBuffer (outputBuffer_ o') o) w w')
    /\ (queued_output o' <> [] -> c' = c /\ queue w' = queue w)).
Proof.
  intros Hcn Hsnd. pose proof Hcn as [Hs Hc Hin Hwf].
  eapply runs_mono; [by apply handleWrite_spec|]. cbn zeta beta. intros _ w' (Hsnd' & _ & Hr).
  assert (forall b, wf b -> heap_kept w w' -> socks w' = <[s := with_outputBuffer b o]> (socks w) ->
    connection w' s (with_outputBuffer b o) c) as Hkeep.
  { intros b Hb (Hch & _) Hsk. split; rewrite ?Hsk, ?Hch, ?lookup_insert_eq; done. }
  assert (heap_kept w w' -> queue w' = queue w) as Hqueue.
  { intros (_ & _ & Hl & _). unfold queue. by rewrite Hl. }
  pose proof (after_write_spec w (fd_ c) (queued_output o)) as (_ & _ & Hans).
  destruct (write_answer w (fd_ c) (queued_output o)) as [n|e].
  2:{ destruct Hr as (Hsent & Hk & Hsk). exists o, c. rewrite Hsent.
      split; [by apply (connection_kept w)|]. do 2 (split; [done|]). split; [done|]. auto. }
  destruct Hr as (b & Hb & Hcb & _ & Hsent & Hr).
  assert (sent w' (fd_ c) ++ contents b = sent w (fd_ c) ++ queued_output o) as Hstream.
  { by rewrite Hsent, Hcb, <- app_assoc, take_drop. }
  destruct ((0 <? n) && (n =? zlen (queued_output o))) eqn:E.
  - apply andb_true_iff in E as [_ ->%Z.eqb_eq]. destruct Hr as (Hch & _ & Hdef).
    assert (contents b = []) as Hnil.
    { rewrite Hcb, drop_ge; [done|]. unfold zlen. lia. }
    exists (match so_writeCallback o with Some _ => with_use_count (use_count o + 1)
              (with_outputBuffer b o) | None => with_outputBuffer b o end),
      (op_channel (DisableWriting (chan_ o)) c).
    assert (isWriting (op_channel (DisableWriting (chan_ o)) c) = false) as Hw.
    { unfold isWriting, test_flag. cbn. rewrite <- Z.land_assoc. change (Z.land (-5) 4) with 0.
      by rewrite Z.land_0_r. }
    pose proof Hdef as Hdef'. unfold deferred_write_complete in Hdef. cbn in Hdef.
    destruct (so_writeCallback o); destruct Hdef as [Hq Hsk];
      (split; [split; rewrite ?Hsk, ?Hch, ?lookup_insert_eq; done|]); cbn;
      (split; [done|]); (split; [done|]); (split; [done|]); intros Hne; by destruct Hne.
  - destruct Hr as (Hk & Hsk). exists (with_outputBuffer b o), c. split; [by apply Hkeep|].
    do 2 (split; [done|]). split; [|auto]. intros Hne Hnil. exfalso.
    unfold queued_output in Hnil. cbn in Hnil. rewrite Hcb in Hnil. apply (f_equal length) in Hnil.
    rewrite length_drop in Hnil. cbn in Hnil.
    assert (0 < zlen (queued_output o)).
    { destruct (queued_output o); [done|]. unfold zlen. cbn. lia. }
    destruct Hans as (Hrange & _). unfold zlen in *.
    apply andb_false_iff in E as [E|E]; rewrite ?Z.ltb_ge, ?Z.eqb_neq in E; lia.
Qed.

(** [handleWrite] with an empty output buffer changes nothing it should: the
    write of no bytes is never positive, so writing stays enabled with nothing to
    write, no channel, socket or registration changes, and epoll, which reports
    the descriptor as long as it is writable, will report it again at once. *)
Theorem handleWrite_without_output_spins s o c w :
  connection w s o c -> queued_output o = [] ->
  runs (handleWrite s) w (fun _ w' =>
    heap_kept w w' /\ socks w' = socks w /\ sent w' (fd_ c) = sent w (fd_ c)).
Proof.
  intros Hcn Hnil. apply (handleWrite_start s o c); [done|].
  pose proof (after_write_spec w (fd_ c) (queued_output o)) as (Hk & Hsk & Hr). rewrite Hnil in *.
  change (zlen (@nil byte)) with 0 in *. unfold sent in *. rewrite (proj2 (Z.ltb_ge 0 _)).
  - rewrite runs_ret. do 2 (split; [done|]).
    destruct (write_answer w (fd_ c) []); [|by rewrite (proj1 Hr)].
    destruct Hr as (_ & -> & _). by rewrite take_nil, app_nil_r.
  - destruct (write_answer w (fd_ c) []); cbn; lia.
Qed.
End SocketRules.

(** ** Witnesses *)

(** The connection of [Scenarios.connected]: socket 3, channel 4, descriptor 7. *)
Definition demo_sock : Socket main_fn :=
  mkSocket Buffer_init Buffer_init (Some (UserCallback message)) (Some TcpServer_connectionClose)
    None peer 7 4 1.
Definition demo_conn : Channel :=
  mkChannel 7 3 0 1 false (Some (Socket_handleRead 3)) (Some (Socket_handleWrite 3))
    (Some (Socket_handleClose 3)) None.
Definition sock3 (w : DW) : Socket main_fn := default demo_sock (socks w !! 3%positive).
Definition chan4 (w : DW) : Channel := default demo_conn (chans w !! 4%positive).

Definition wfb (b : Buffer) : bool :=
  (0 <=? readerIndex_ b) && (readerIndex_ b <=? writerIndex_ b) && (writerIndex_ b <=? size b)
  && (kCheapPrepend + kInitialSize <=? size b) && (size b <=? vector_max_size).

Definition connb (w : DW) : bool :=
  match socks w !! 3%positive with
  | Some o => (chan_ o =? 4)%positive && wfb (inputBuffer_ o) && wfb (outputBuffer_ o)
  | None => false
  end && match chans w !! 4%positive with Some _ => true | None => false end.

Lemma wfb_ok b : wfb b = true -> wf b.
Proof. unfold wfb. rewrite !andb_true_iff, !Z.leb_le. intros. constructor; tauto. Qed.

Lemma connb_ok w : connb w = true -> connection w 3 (sock3 w) (chan4 w).
Proof.
  unfold connb, sock3, chan4. destruct (socks w !! 3%positive) as [o|] eqn:Eo; [|done].
  rewrite !andb_true_iff, Pos.eqb_eq. intros [[[Hc Hi] Ho] Hch].
  destruct (chans w !! 4%positive) as [c|] eqn:Ec; [|done].
  split; cbn; [done|by rewrite Hc|by apply wfb_ok..].
Qed.

Ltac conn_witness :=
  lazymatch goal with
  | |- connection _ _ _ _ => apply connb_ok; vm_compute; reflexivity
  | |- epoll_sound _ => apply epoll_soundb_ok; vm_compute; reflexivity
  | |- _ = _ => vm_compute; reflexivity
  | |- _ => vm_compute; intuition congruence
  end.

(** The kernel takes one byte of the next write, then refuses, then takes all. *)
Definition slow : DW := connected [] [SysOk 1; SysErr EAGAIN] [].
Definition slow2 : DW := exec (Send 3 hi 2) slow.
Definition slow3 : DW := exec (Send 3 hi 2) slow2.

Lemma Send_queues_what_was_not_taken_witness :
  runs (Send 3 hi 2) slow (fun ret w' =>
    ret = 0 /\ heap_kept slow w' /\
    exists o' taken rest, request hi 2 = taken ++ rest /\ zlen taken = 1
      /\ connection w' 3 o' (chan4 slow) /\ socks w' = <[3%positive := o']> (socks slow)
      /\ sent w' (fd_ (chan4 slow)) = sent slow (fd_ (chan4 slow)) ++ taken /\ queued_output o' = queued_output (sock3 slow) ++ rest).
Proof.
  apply (Send_queues_what_was_not_taken 3 (sock3 slow) (chan4 slow) hi 2 1 slow); conn_witness.
Defined.

Lemma Send_partial_leaves_output_unwatched_witness :
  runs (Send 3 hi 2) slow (fun ret w' =>
    ret = 0 /\ exists o' reg, connection w' 3 o' (chan4 slow) /\ queued_output o' <> []
      /\ isWriting (chan4 slow) = false
      /\ interest w' !! fd_ (chan4 slow) = Some reg /\ test_flag (ev_events reg) EPOLLOUT = false).
Proof.
  apply (Send_partial_leaves_output_unwatched 3 (sock3 slow) (chan4 slow) hi 2 1 slow);
    conn_witness.
Defined.

Lemma Send_refused_drops_data_witness :
  runs (Send 3 hi 2) slow2 (fun ret w' =>
    ret = errno w' /\ epoll_sound w' /\ socks w' = socks slow2
    /\ k_sent (kernel w') = k_sent (kernel slow2) /\
    exists c', chans w' = <[chan_ (sock3 slow2) := c']> (chans slow2) /\ isWriting c' = true).
Proof.
  apply (Send_refused_drops_data 3 (sock3 slow2) (chan4 slow2) hi 2 EAGAIN slow2); conn_witness.
Defined.

Lemma Send_overtakes_queued_bytes_witness :
  runs (Send 3 greeting 9) slow3 (fun ret w' =>
    ret = 0 /\ exists o', connection w' 3 o' (chan4 slow3)
      /\ sent w' (fd_ (chan4 slow3)) ++ queued_output o'
         = sent slow3 (fd_ (chan4 slow3)) ++ request greeting 9 ++ queued_output (sock3 slow3)
      /\ sent w' (fd_ (chan4 slow3)) ++ queued_output o'
         <> (sent slow3 (fd_ (chan4 slow3)) ++ queued_output (sock3 slow3)) ++ request greeting 9).
Proof.
  apply (Send_overtakes_queued_bytes 3 (sock3 slow3) (chan4 slow3) greeting 9 slow3);
    conn_witness.
Defined.

Lemma handleWrite_conserves_stream_witness :
  runs (handleWrite 3) slow3 (fun _ w' =>
    exists o' c', connection w' 3 o' c' /\ epoll_sound w'
    /\ sent w' (fd_ (chan4 slow3)) ++ queued_output o' = sent slow3 (fd_ (chan4 slow3)) ++ queued_output (sock3 slow3)
    /\ (queued_output (sock3 slow3) <> [] -> queued_output o' = [] ->
         isWriting c' = false /\ deferred_write_complete 3
           (with_outputBuffer (outputBuffer_ o') (sock3 slow3)) slow3 w')
    /\ (queued_output o' <> [] -> c' = chan4 slow3 /\ queue w' = queue slow3)).
Proof.
  apply (handleWrite_conserves_stream 3 (sock3 slow3) (chan4 slow3) slow3); conn_witness.
Defined.

Lemma handleWrite_without_output_spins_witness :
  runs (handleWrite 3) slow (fun _ w' =>
    heap_kept slow w' /\ socks w' = socks slow /\ sent w' (fd_ (chan4 slow)) = sent slow (fd_ (chan4 slow))).
Proof.
  apply (handleWrite_without_output_spins 3 (sock3 slow) (chan4 slow) slow); conn_witness.
Defined.
