(* ===== verification/OutputStream.v ===== *)
(** * OutputStream: the output of a connection over any sequence of calls

    The user sends, the loop reports the descriptor writable, in any order.  What
    the connection does with the bytes is the stream machine below, whose steps
    are given the kernel's answers. *)

From S2P Require Import Prelude Bytes Buffer BufferSpec Kernel World WorldSpec Poller EventLoop Channel Callbacks Socket PollerTheorems.
From S2P Require Import ScriptKernel Main Scenarios Registration LoopTheorems SocketTheorems.

(** ** The machine *)

Inductive output_op :=
  | SendOp (data : list byte)   (* [Send(data, len)] for the whole of the data *)
  | WritableOp.                 (* [handleWrite] *)

Record stream := mkStream {
  st_sent : list byte;    (* what the kernel has taken *)
  st_queued : list byte   (* what the output buffer holds *)
}.

(** The bytes an operation offers to the kernel. *)
Definition offers (op : output_op) (st : stream) : list byte :=
  match op with SendOp data => data | WritableOp => st_queued st end.

(** The number of bytes taken, 0 for a failure. *)
Definition taken (r : sysres Z) : nat := Z.to_nat (ret_int r).

(** A [Send] of which nothing is taken drops its bytes; the rest of any other is
    queued behind what is queued already. *)
Definition stream_step (op : output_op) (r : sysres Z) (st : stream) : stream :=
  match op with
  | SendOp data =>
      if decide (taken r = 0%nat) then st
      else mkStream (st_sent st ++ take (taken r) data) (st_queued st ++ drop (taken r) data)
  | WritableOp => mkStream (st_sent st ++ take (taken r) (st_queued st)) (drop (taken r) (st_queued st))
  end.

Fixpoint stream_run (ops : list output_op) (rs : list (sysres Z)) (st : stream) : stream :=
  match ops, rs with
  | op :: ops', r :: rs' => stream_run ops' rs' (stream_step op r st)
  | _, _ => st
  end.

(** The bytes of the [Send]s of which the kernel took something. *)
Definition accepted (op : output_op) (r : sysres Z) : list byte :=
  match op with
  | SendOp data => if decide (taken r = 0%nat) then [] else data
  | WritableOp => []
  end.
Fixpoint all_accepted (ops : list output_op) (rs : list (sysres Z)) : list byte :=
  match ops, rs with
  | op :: ops', r :: rs' => accepted op r ++ all_accepted ops' rs'
  | _, _ => []
  end.

(** Every [Send] finds an empty queue. *)
Fixpoint patient (ops : list output_op) (rs : list (sysres Z)) (st : stream) : bool :=
  match ops, rs with
  | op :: ops', r :: rs' =>
      match op with SendOp _ => bool_decide (st_queued st = []) | WritableOp => true end
      && patient ops' rs' (stream_step op r st)
  | _, _ => true
  end.

(** Nothing is taken of an empty offer, and no more than is offered. *)
Fixpoint answers_fit (ops : list output_op) (rs : list (sysres Z)) (st : stream) : Prop :=
  match ops, rs with
  | op :: ops', r :: rs' => (taken r <= length (offers op st))%nat /\ answers_fit ops' rs' (stream_step op r st)
  | [], [] => True
  | _, _ => False
  end.

(** *** The machine loses and invents nothing *)

Lemma step_conserves op r st :
  st_sent (stream_step op r st) ++ st_queued (stream_step op r st)
  ≡ₚ (st_sent st ++ st_queued st) ++ accepted op r.
Proof.
  destruct op as [data|]; cbn; [|by rewrite <- app_assoc, take_drop, app_nil_r].
  case_decide; cbn; [by rewrite app_nil_r|].
  rewrite <- (take_drop (taken r) data) at 3. rewrite <- !app_assoc. apply Permutation_app_head.
  rewrite !app_assoc. apply Permutation_app_tail, Permutation_app_comm.
Qed.

Lemma run_conserves ops rs st :
  st_sent (stream_run ops rs st) ++ st_queued (stream_run ops rs st)
  ≡ₚ (st_sent st ++ st_queued st) ++ all_accepted ops rs.
Proof.
  revert rs st. induction ops as [|op ops IH]; intros [|r rs] st; cbn; rewrite ?app_nil_r; [done..|].
  by rewrite IH, step_conserves, <- app_assoc.
Qed.

(** Patient callers get their bytes in order. *)
Lemma run_in_order ops rs st :
  patient ops rs st = true ->
  st_sent (stream_run ops rs st) ++ st_queued (stream_run ops rs st)
  = (st_sent st ++ st_queued st) ++ all_accepted ops rs.
Proof.
  revert rs st. induction ops as [|op ops IH]; intros [|r rs] st; cbn; rewrite ?app_nil_r; [done..|].
  intros [Hp Hrest]%andb_true_iff. rewrite IH by done. rewrite app_assoc. f_equal.
  destruct op as [data|]; cbn; [|by rewrite <- app_assoc, take_drop, app_nil_r].
  apply bool_decide_eq_true in Hp. case_decide; cbn; [by rewrite app_nil_r|].
  rewrite Hp. cbn. by rewrite app_nil_r, <- app_assoc, take_drop.
Qed.

(** Each answer that takes something shortens the queue. *)
Definition takes (r : sysres Z) : bool := bool_decide (taken r <> 0%nat).

Lemma writable_drains rs st :
  length (st_queued (stream_run (replicate (length rs) WritableOp) rs st))
  = (length (st_queued st) - sum_list (taken <$> rs))%nat.
Proof.
  revert st. induction rs as [|r rs IH]; intros st; cbn; [lia|].
  rewrite IH. cbn. rewrite length_drop. lia.
Qed.

Lemma takes_sum rs : (length (filter (fun r => takes r) rs) <= sum_list (taken <$> rs))%nat.
Proof.
  induction rs as [|r rs IH]; [cbn; lia|]. rewrite filter_cons. unfold takes at 1.
  case_decide as Ht; cbn; [|lia]. apply bool_decide_unpack in Ht. lia.
Qed.

Lemma no_accept rs : all_accepted (replicate (length rs) WritableOp) rs = [].
Proof. by induction rs. Qed.

Lemma writable_patient rs st : patient (replicate (length rs) WritableOp) rs st = true.
Proof. revert st. induction rs as [|r rs IH]; intros st; cbn; [done|apply IH]. Qed.

(** ** The connection *)

Section Session.
Context {K U : Type} `{KernelLaws (option ptr) K} `{UserCode K U}.
Implicit Type w : World K U.
Abbreviation M := (prog (World K U)).

(** An operation, with the answer that the kernel gives to its [write]. *)
Definition perform (s : ptr) (op : output_op) : M (sysres Z) :=
  fd ← chan_fd s; o ← get_sock s; w ← get_st;
  match op with SendOp data => _ ← Send s data (zlen data); mret tt | WritableOp => handleWrite s end ;;
  mret (write_answer w fd (match op with SendOp data => data | WritableOp => queued_output o end)).

Fixpoint session (s : ptr) (ops : list output_op) : M (list (sysres Z)) :=
  match ops with
  | [] => mret []
  | op :: ops' => r ← perform s op; rs ← session s ops'; mret (r :: rs)
  end.

Definition stream_of (fd : Z) (o : Socket U) w : stream := mkStream (sent w fd) (queued_output o).

(** What is still to be sent fits into the vector, even if all is queued. *)
Fixpoint volume (ops : list output_op) : Z :=
  match ops with
  | [] => 0
  | SendOp data :: ops' => zlen data + volume ops'
  | WritableOp :: ops' => volume ops'
  end.
Definition sizes_ok (ops : list output_op) : Prop :=
  Forall (fun op => match op with SendOp data => zlen data < two31 | WritableOp => True end) ops.
Definition budget (b : Buffer) (v : Z) : Prop :=
  size b + 2 * v <= vector_max_size /\ zlen (contents b) + kCheapPrepend + 2 * v <= vector_max_size.

Lemma volume_nonneg ops : 0 <= volume ops.
Proof. induction ops as [|[data|] ops IH]; cbn; [lia|pose proof (zlen_nonneg data); lia|lia]. Qed.

Lemma request_all data : request data (zlen data) = data.
Proof. unfold request, zlen. rewrite Nat2Z.id. by apply firstn_all. Qed.

(** A connection in the middle of a session. *)
Record at_work (s : ptr) (fd : Z) (v : Z) (st : stream) w : Prop := mkAtWork {
  aw_sound : epoll_sound w;
  aw_conn : exists o c, connection w s o c /\ fd_ c = fd /\ budget (outputBuffer_ o) v /\ stream_of fd o w = st
}.

(** Nothing is taken, be it for an error or for an answer of 0. *)
Lemma Send_nothing_spec s o c data w :
  connection w s o c -> epoll_sound w -> zlen data < two31 ->
  ret_int (write_answer w (fd_ c) data) <= 0 -> ret_int (write_answer w (fd_ c) data) <> zlen data ->
  runs (Send s data (zlen data)) w (fun _ w' =>
    exists c', connection w' s o c' /\ epoll_sound w' /\ fd_ c' = fd_ c /\ sent w' (fd_ c) = sent w (fd_ c)).
Proof.
  intros Hcn Hsnd H31 Hle Hne. pose proof (zlen_nonneg data).
  apply (Send_start s o c); [done|lia|done|]. rewrite request_all.
  pose proof (after_write_spec w (fd_ c) data) as (Hk & Hsk & Hr). set (w1 := after_write _ _ _) in *.
  pose proof (connection_kept w w1 s o c Hcn Hk Hsk) as Hcn1.
  assert (sent w1 (fd_ c) = sent w (fd_ c)) as Hsent.
  { unfold sent in *. destruct (write_answer _ _ _); cbn in Hle.
    - destruct Hr as (? & -> & _). replace a with 0 by lia. by rewrite app_nil_r.
    - by destruct Hr as [-> _]. }
  assert (epoll_sound w1) as Hsnd1 by (by eapply heap_kept_sound).
  rewrite (proj2 (Z.eqb_neq _ _)), (proj2 (Z.ltb_ge _ _)) by done.
  pose proof Hcn1 as [Hs1 Hc1 Hi Ho].
  rewrite runs_bind, runs_get_sock. exists o. split; [done|]. run_steps. rewrite runs_when.
  destruct (_ || _).
  - eapply runs_mono; [by apply (enableWriting_spec (chan_ o) c w1)|]. cbn beta.
    intros _ w2 (Hs2 & Hf & Hch & Hout). run_steps. exists (op_channel (EnableWriting (chan_ o)) c).
    split; [|split; [done|split; [done|]]].
    + split; rewrite ?(frame_socks _ _ Hf), ?Hch, ?lookup_insert_eq; done.
    + unfold sent. by rewrite (frame_sent _ _ Hf).
  - run_steps. by exists c.
Qed.
Lemma answer_fits w fd data : (taken (write_answer w fd data) <= length data)%nat.
Proof.
  pose proof (after_write_spec w fd data) as (_ & _ & Hr). unfold taken.
  destruct (write_answer w fd data); cbn; [|lia]. destruct Hr as (Hr & _). unfold zlen in Hr. lia.
Qed.

Lemma budget_append (b b' : Buffer) (data rest : list byte) v :
  budget b (zlen data + v) -> size b' <= grown_size b (zlen data) -> wf b ->
  contents b' = contents b ++ rest -> zlen rest <= zlen data -> budget b' v.
Proof.
  intros [Hs Hc] Hg Hb Hcb Hr. unfold budget, grown_size in *. rewrite Hcb, zlen_app.
  rewrite readableBytes_zlen in Hg by done. pose proof (zlen_nonneg data). lia.
Qed.

Lemma Send_works s fd v st w data :
  at_work s fd (zlen data + v) st w -> 0 <= v -> zlen data < two31 ->
  runs (Send s data (zlen data)) w (fun _ w' =>
    at_work s fd v (stream_step (SendOp data) (write_answer w fd data) st) w').
Proof.
  intros [Hsnd (o & c & Hcn & <- & Hbud & <-)] Hv H31. pose proof (zlen_nonneg data) as Hnn.
  pose proof (answer_fits w (fd_ c) data) as Hfit. cbn [stream_step]. pose proof Hcn as [_ _ _ Hwf].
  destruct (decide (ret_int (write_answer w (fd_ c) data) <= 0
                    /\ ret_int (write_answer w (fd_ c) data) <> zlen data)) as [[Hle Hne]|Hsome].
  - eapply runs_mono; [by eapply Send_nothing_spec|]. cbn beta. intros _ w' (c' & Hcn' & Hsnd' & Hfd & Hsent).
    assert (taken (write_answer w (fd_ c) data) = 0%nat) as Ht by (unfold taken; lia).
    rewrite decide_True by done. split; [done|]. exists o, c'. do 2 (split; [done|]).
    split; [unfold budget in *; lia|]. unfold stream_of. by rewrite Hsent.
  - destruct (write_answer w (fd_ c) data) as [n|e] eqn:Ea; unfold taken in *; cbn [ret_int] in *; [|lia].
    pose proof Hbud as [Hb1 Hb2].
    eapply runs_mono; [apply (Send_accepted_spec s o c data (zlen data) n w); rewrite ?request_all;
      [done|lia|done|destruct Hwf; lia|done|lia]|].
    cbn beta. rewrite request_all.
    intros ret w' (_ & Hk & Hsent & o' & Hcn' & _ & _ & Hq & Hsz & _).
    split; [by eapply heap_kept_sound|]. exists o', c. do 2 (split; [done|]). split.
    + eapply budget_append; [exact Hbud|done|done|exact Hq|]. unfold zlen. rewrite length_drop. lia.
    + unfold stream_of. rewrite Hsent, Hq. cbn [st_sent st_queued].
      destruct (decide (Z.to_nat n = 0%nat)) as [E|]; [|done]. assert (zlen data = 0) as Hz by lia.
      apply zlen_0_nil in Hz as ->. by rewrite take_nil, drop_nil, !app_nil_r.
Qed.

Lemma handleWrite_works s fd v st w :
  at_work s fd v st w ->
  runs (handleWrite s) w (fun _ w' =>
    at_work s fd v (stream_step WritableOp (write_answer w fd (st_queued st)) st) w').
Proof.
  intros [Hsnd (o & c & Hcn & <- & Hbud & <-)]. pose proof Hcn as [Hs Hc Hin Hwf]. cbn [stream_of st_queued].
  eapply runs_mono; [by apply handleWrite_spec|]. cbn beta zeta. intros _ w' (Hsnd' & _ & Hr).
  split; [done|]. cbn [stream_step]. unfold taken.
  destruct (write_answer w (fd_ c) (queued_output o)) as [n|e]; cbn [ret_int].
  2:{ destruct Hr as (Hsent & Hk & Hsk). exists o, c. split; [by apply (connection_kept w)|].
      do 2 (split; [done|]). unfold stream_of. rewrite Hsent. cbn. by rewrite app_nil_r. }
  destruct Hr as (b & Hb & Hcb & Hsz & Hsent & Hr).
  assert (budget b v) as Hbud'.
  { unfold budget in *. rewrite Hsz, Hcb. unfold queued_output, zlen in *. rewrite length_drop. lia. }
  assert (forall o' c', outputBuffer_ o' = b -> fd_ c' = fd_ c -> connection w' s o' c' ->
    exists o0 c0, connection w' s o0 c0 /\ fd_ c0 = fd_ c /\ budget (outputBuffer_ o0) v /\
      stream_of (fd_ c) o0 w' = mkStream (sent w (fd_ c) ++ take (Z.to_nat n) (queued_output o))
                                        (drop (Z.to_nat n) (queued_output o))) as Hdone.
  { intros o' c' Ho' Hc' Hcn'. exists o', c'. rewrite Ho'. do 3 (split; [done|]).
    unfold stream_of, queued_output. by rewrite Hsent, Ho', Hcb. }
  destruct (_ && _).
  - destruct Hr as (Hch & _ & Hdef). unfold deferred_write_complete in Hdef. cbn in Hdef.
    set (o1 := match so_writeCallback o with
               | Some _ => with_use_count (use_count o + 1) (with_outputBuffer b o)
               | None => with_outputBuffer b o end).
    apply (Hdone o1 (op_channel (DisableWriting (chan_ o)) c)); subst o1; [by destruct (so_writeCallback o)|done|].
    destruct (so_writeCallback o); destruct Hdef as [_ Hsk]; split; rewrite ?Hsk, ?Hch, ?lookup_insert_eq; done.
  - destruct Hr as ((Hch & _) & Hsk). eapply (Hdone (with_outputBuffer b o) c); [done..|].
    split; rewrite ?Hsk, ?Hch, ?lookup_insert_eq; done.
Qed.

Lemma perform_spec s fd op ops st w :
  at_work s fd (volume (op :: ops)) st w -> sizes_ok [op] ->
  runs (perform s op) w (fun r w' =>
    at_work s fd (volume ops) (stream_step op r st) w' /\ (taken r <= length (offers op st))%nat).
Proof.
  intros Hw [Hsz _]%Forall_cons. pose proof Hw as [_ (o & c & Hcn & Hfd & _ & Hst)].
  unfold perform. rewrite runs_bind, (runs_chan_fd s o c) by done.
  rewrite runs_bind, runs_get_sock. exists o. split; [apply Hcn|]. run_steps. rewrite Hfd.
  assert (queued_output o = st_queued st) as Hq by (by rewrite <- Hst). rewrite Hq.
  destruct op as [data|]; cbn [volume offers] in *.
  - run_using Send_works; [done|apply volume_nonneg|done|]. intros ret w' Hw'. run_steps.
    split; [done|apply answer_fits].
  - run_using handleWrite_works; [done|]. intros _ w' Hw'. run_steps. split; [done|apply answer_fits].
Qed.

Lemma session_spec s fd ops st w :
  at_work s fd (volume ops) st w -> sizes_ok ops ->
  runs (session s ops) w (fun rs w' =>
    at_work s fd 0 (stream_run ops rs st) w' /\ answers_fit ops rs st).
Proof.
  revert st w. induction ops as [|op ops IH]; intros st w Hw Hsz; cbn [session].
  - by rewrite runs_ret.
  - apply Forall_cons in Hsz as [Hop Hops].
    run_using perform_spec; [done|by apply Forall_singleton|]. intros r w1 [Hw1 Hfit].
    run_using IH; [done..|]. intros rs w2 [Hw2 Hfits]. by rewrite runs_ret.
Qed.
Lemma session_at_work s o c ops w :
  connection w s o c -> epoll_sound w -> sizes_ok ops ->
  size (outputBuffer_ o) + kCheapPrepend + 2 * volume ops <= vector_max_size ->
  runs (session s ops) w (fun rs w' =>
    at_work s (fd_ c) 0 (stream_run ops rs (stream_of (fd_ c) o w)) w' /\ answers_fit ops rs (stream_of (fd_ c) o w)).
Proof.
  intros Hcn Hsnd Hsz Hroom. apply session_spec; [|done]. split; [done|]. exists o, c.
  do 2 (split; [done|]). split; [|done]. pose proof Hcn as [_ _ _ Hwf]. pose proof (volume_nonneg ops).
  unfold budget. rewrite zlen_contents, readableBytes_wf by done. destruct Hwf. unfold kCheapPrepend in *. lia.
Qed.

(** C12: a connection's output is the stream machine.  Whatever is sent and however
    often the descriptor is reported writable, in any order, and whatever the
    kernel answers, no call faults, the connection stays sound, and what the peer
    has been sent and what is queued are what the machine makes of the kernel's
    answers. *)
Theorem output_session_refines s o c ops w :
  connection w s o c -> epoll_sound w -> sizes_ok ops ->
  size (outputBuffer_ o) + kCheapPrepend + 2 * volume ops <= vector_max_size ->
  runs (session s ops) w (fun rs w' =>
    answers_fit ops rs (stream_of (fd_ c) o w) /\
    exists o' c', connection w' s o' c' /\ fd_ c' = fd_ c /\ epoll_sound w' /\
      stream_of (fd_ c) o' w' = stream_run ops rs (stream_of (fd_ c) o w)).
Proof.
  intros Hcn Hsnd Hsz Hroom. eapply runs_mono; [by eapply session_at_work|]. cbn beta.
  intros rs w' [[Hsnd' (o' & c' & Hcn' & Hfd & _ & Hst)] Hfit]. split; [done|]. by exists o', c'.
Qed.

(** C13: no byte is lost, invented or sent twice: over any such sequence, what the
    peer has been sent and what is queued are together a rearrangement of what
    they were and the bytes of every [Send] of which the kernel took something;
    and when every [Send] found the queue empty, they are in the order of the
    calls. *)
Theorem output_loses_nothing s o c ops w :
  connection w s o c -> epoll_sound w -> sizes_ok ops ->
  size (outputBuffer_ o) + kCheapPrepend + 2 * volume ops <= vector_max_size ->
  runs (session s ops) w (fun rs w' =>
    exists o', socks w' !! s = Some o' /\
      sent w' (fd_ c) ++ queued_output o' ≡ₚ (sent w (fd_ c) ++ queued_output o) ++ all_accepted ops rs /\
      (patient ops rs (stream_of (fd_ c) o w) = true ->
       sent w' (fd_ c) ++ queued_output o' = (sent w (fd_ c) ++ queued_output o) ++ all_accepted ops rs)).
Proof.
  intros Hcn Hsnd Hsz Hroom. eapply runs_mono; [by eapply session_at_work|]. cbn beta.
  intros rs w' [[_ (o' & c' & [Hs _ _ _] & _ & _ & Hst)] _]. exists o'. split; [done|].
  pose proof (run_conserves ops rs (stream_of (fd_ c) o w)) as Hperm.
  pose proof (run_in_order ops rs (stream_of (fd_ c) o w)) as Horder.
  rewrite <- Hst in Hperm, Horder. by split.
Qed.

(** C14: a connection that is reported writable often enough is drained: after any
    number of reports the bytes sent and queued are the same stream as before,
    and when the kernel has taken something at least as many times as there were
    bytes queued, everything has been sent. *)
Theorem writable_often_enough_drains s o c m w :
  connection w s o c -> epoll_sound w -> size (outputBuffer_ o) + kCheapPrepend <= vector_max_size ->
  runs (session s (replicate m WritableOp)) w (fun rs w' =>
    exists o', socks w' !! s = Some o' /\ length rs = m /\
      sent w' (fd_ c) ++ queued_output o' = sent w (fd_ c) ++ queued_output o /\
      (length (queued_output o) <= length (filter (fun r => takes r) rs) ->
       queued_output o' = [] /\ sent w' (fd_ c) = sent w (fd_ c) ++ queued_output o)%nat).
Proof.
  intros Hcn Hsnd Hroom.
  assert (volume (replicate m WritableOp) = 0) as Hv by (by induction m).
  eapply runs_mono; [apply (session_at_work s o c); [done..| |rewrite Hv; lia]|].
  { by apply Forall_replicate. }
  cbn beta. intros rs w' [[_ (o' & c' & [Hs _ _ _] & _ & _ & Hst)] Hfit]. exists o'. split; [done|].
  assert (length rs = m) as <-.
  { clear -Hfit. revert rs Hfit. generalize (stream_of (fd_ c) o w). induction m as [|m IH]; intros st [|r rs]; cbn; [done..|].
    intros [_ Hf]. f_equal. by eapply IH. }
  split; [done|].
  pose proof (run_in_order _ rs (stream_of (fd_ c) o w) (writable_patient rs _)) as Horder.
  pose proof (writable_drains rs (stream_of (fd_ c) o w)) as Hlen. pose proof (takes_sum rs).
  rewrite no_accept, app_nil_r, <- Hst in Horder. rewrite <- Hst in Hlen. cbn in Hlen, Horder.
  split; [done|]. intros Henough. assert (queued_output o' = []) as Hnil by (apply length_zero_iff_nil; lia).
  split; [done|]. by rewrite <- Horder, Hnil, app_nil_r.
Qed.
End Session.

(** ** Witnesses *)

(** The kernel takes one byte, refuses, takes all; then the queue drains. *)
Definition sample_session : list output_op := [SendOp hi; SendOp hi; WritableOp; SendOp greeting].
Definition sample_start : stream := stream_of (fd_ (chan4 slow)) (sock3 slow) slow.

Lemma slow_connection : connection slow 3 (sock3 slow) (chan4 slow).
Proof. conn_witness. Qed.

Lemma slow_sound : epoll_sound slow.
Proof. conn_witness. Qed.

Lemma sample_sizes : sizes_ok sample_session.
Proof. repeat constructor; vm_compute; congruence. Qed.

Lemma sample_room : size (outputBuffer_ (sock3 slow)) + kCheapPrepend + 2 * volume sample_session <= vector_max_size.
Proof. vm_compute. congruence. Qed.

Lemma output_session_refines_witness :
  runs (session 3 sample_session) slow (fun rs w' =>
    answers_fit sample_session rs sample_start /\
    exists o' c', connection w' 3 o' c' /\ fd_ c' = fd_ (chan4 slow) /\ epoll_sound w' /\
      stream_of (fd_ (chan4 slow)) o' w' = stream_run sample_session rs sample_start).
Proof.
  exact (output_session_refines 3 (sock3 slow) (chan4 slow) sample_session slow
    slow_connection slow_sound sample_sizes sample_room).
Defined.

Lemma output_loses_nothing_witness :
  runs (session 3 sample_session) slow (fun rs w' =>
    exists o', socks w' !! 3%positive = Some o' /\
      sent w' (fd_ (chan4 slow)) ++ queued_output o'
        ≡ₚ (sent slow (fd_ (chan4 slow)) ++ queued_output (sock3 slow)) ++ all_accepted sample_session rs /\
      (patient sample_session rs sample_start = true ->
       sent w' (fd_ (chan4 slow)) ++ queued_output o'
        = (sent slow (fd_ (chan4 slow)) ++ queued_output (sock3 slow)) ++ all_accepted sample_session rs)).
Proof.
  exact (output_loses_nothing 3 (sock3 slow) (chan4 slow) sample_session slow
    slow_connection slow_sound sample_sizes sample_room).
Defined.

Lemma writable_often_enough_drains_witness :
  runs (session 3 (replicate 2 WritableOp)) slow3 (fun rs w' =>
    exists o', socks w' !! 3%positive = Some o' /\ length rs = 2%nat /\
      sent w' (fd_ (chan4 slow3)) ++ queued_output o' = sent slow3 (fd_ (chan4 slow3)) ++ queued_output (sock3 slow3) /\
      (length (queued_output (sock3 slow3)) <= length (filter (fun r => takes r) rs) ->
       queued_output o' = [] /\ sent w' (fd_ (chan4 slow3)) = sent slow3 (fd_ (chan4 slow3)) ++ queued_output (sock3 slow3))%nat).
Proof.
  apply (writable_often_enough_drains 3 (sock3 slow3) (chan4 slow3) 2 slow3); conn_witness.
Defined.
