(* ===== verification/ConnectionTheorems.v ===== *)
(** * ConnectionTheorems: the life of a connection

    Reading and closing through the event loop: what [handleRead] dispatches
    to, what [handleClose] takes apart, when the connection is destroyed, and
    what the channel that is still being handled then does. *)

From S2P Require Import Prelude Bytes Buffer BufferSpec Kernel World WorldSpec Poller EventLoop Channel Callbacks Socket PollerTheorems TcpServer Reactor.
From S2P Require Import ScriptKernel Main Scenarios Registration LoopTheorems SocketTheorems.

Section Lifecycle.
Context {K U : Type} `{KernelLaws (option ptr) K} `{UserCode K U} `{InetAddr} `{Host}.
Implicit Type w : World K U.
Abbreviation M := (prog (World K U)).

(** ** Reading *)

(** The kernel's answer to the [readv] of [handleRead], and its next state. *)
Definition read_answer w (o : Socket U) (c : Channel) : sysres (list byte) * K :=
  readv (fd_ c) (readFd_iov (writableBytes (inputBuffer_ o))) (kernel w).

Definition room_to_read (o : Socket U) : Prop :=
  size (inputBuffer_ o) + extrabuf_size <= vector_max_size.

(** The world once the input buffer holds what was read. *)
Definition after_read s o c b w : World K U :=
  on_socks <[s := with_inputBuffer b o]> (set_kernel (read_answer w o c).2 w).

Lemma readv_is_bounded : readv_bounded (K := K) readv.
Proof.
  intros fd lens k data k' Hl Hr. unfold readv in Hr.
  apply (law_readv fd lens k); [done|]. by rewrite Hr.
Qed.

Lemma after_read_kept s o c b w : heap_kept w (after_read s o c b w).
Proof.
  unfold heap_kept, after_read, read_answer, readv, interest, epfd.
  destruct (law_quiet (SysReadv (fd_ c) (readFd_iov (writableBytes (inputBuffer_ o)))) (kernel w))
    as (Ho & Hi & _); [done|]. cbn. by rewrite Ho, Hi.
Qed.

Lemma bind_Ok {A B} (m : M A) (k : A -> M B) w a w' :
  m w = Ok (a, w') -> (m ≫= k) w = k a w'.
Proof. unfold mbind, prog_bind. by intros ->. Qed.

Lemma chan_fd_Ok s o c w : connection w s o c -> chan_fd s w = Ok (fd_ c, w).
Proof.
  intros Hcn. destruct (runs_inv (chan_fd s) w (fun a w' => a = fd_ c /\ w' = w)) as (a & w' & E & -> & ->);
    [by apply (runs_chan_fd s o c)|done].
Qed.

Lemma get_sock_Ok s o w : socks w !! s = Some o -> get_sock s w = Ok (o, w).
Proof. intros Hs. unfold get_sock, mbind, prog_bind, get_st. cbn. by rewrite Hs. Qed.

Lemma on_input_readFd s o c w :
  connection w s o c -> room_to_read o ->
  exists b, wf b /\
    match (read_answer w o c).1 with
    | SysOk data => contents b = contents (inputBuffer_ o) ++ data
        /\ on_input s (readFd readv (fd_ c)) w = Ok ((zlen data, None), after_read s o c b w)
    | SysErr e => b = inputBuffer_ o
        /\ on_input s (readFd readv (fd_ c)) w = Ok ((-1, Some e), after_read s o c b w)
    end.
Proof.
  intros [Hs Hc Hin Hout] Hroom. destruct (read_answer w o c) as [r k'] eqn:Ha.
  pose proof (readFd_spec readv (fd_ c) (inputBuffer_ o) (kernel w) r k' Hin readv_is_bounded Hroom Ha)
    as Hread.
  apply runs_inv in Hread as ([n saved] & [b k2] & Hrun & -> & Hread).
  unfold after_read. rewrite Ha. unfold on_input. cbn [fst snd]. exists b.
  destruct r as [data|e]; [destruct Hread as (-> & -> & Hb & Hcb & _)|destruct Hread as (-> & -> & ->)];
    (split; [done|]); (split; [done|]); rewrite (bind_Ok _ _ _ o w) by (by apply get_sock_Ok);
    unfold mk_prog; by rewrite Hrun.
Qed.

(** C15: [handleRead] appends what arrived and dispatches on it, whatever it was:
    bytes go behind the unread input and the message callback is called with the
    connection; an end of file closes the connection; an error is put back into
    [errno] and handed to [handleError], with the input as it was.  Until the
    callback runs, no registration, channel or loop state has changed. *)
Theorem handleRead_dispatches s o c t w :
  connection w s o c -> room_to_read o ->
  exists b, wf b /\ heap_kept w (after_read s o c b w) /\
    match (read_answer w o c).1 with
    | SysOk data => contents b = contents (inputBuffer_ o) ++ data
        /\ handleRead s t w = (if decide (data = []) then handleClose s
                               else call_with_self (so_messageCallback o) s) (after_read s o c b w)
    | SysErr e => b = inputBuffer_ o
        /\ handleRead s t w = handleError s (set_errno e (after_read s o c b w))
    end.
Proof.
  intros Hcn Hroom. destruct (on_input_readFd s o c w Hcn Hroom) as (b & Hb & Hr).
  exists b. split; [done|]. split; [apply after_read_kept|]. unfold handleRead.
  rewrite (bind_Ok _ _ _ _ _ (chan_fd_Ok s o c w Hcn)).
  destruct (read_answer w o c).1 as [data|e] eqn:Ha; destruct Hr as [Hc Hr]; (split; [done|]);
    rewrite (bind_Ok _ _ _ _ _ Hr); cbv beta iota.
  - destruct (decide (data = [])) as [->|Hne]; [done|].
    rewrite (proj2 (Z.ltb_lt 0 _)) by (destruct data; [done|unfold zlen; cbn; lia]).
    rewrite (bind_Ok _ _ _ (with_inputBuffer b o) (after_read s o c b w)); [done|].
    apply get_sock_Ok. unfold after_read. cbn. by rewrite lookup_insert_eq.
  - done.
Qed.

(** Bytes that arrive go to the message callback. *)
Lemma handleRead_data s o c data t w :
  connection w s o c -> room_to_read o -> (read_answer w o c).1 = SysOk data -> data <> [] ->
  exists b, wf b /\ handleRead s t w
    = call_with_self (so_messageCallback o) s (after_read s o c b w).
Proof.
  intros Hcn Hroom Hans Hne. destruct (on_input_readFd s o c w Hcn Hroom) as (b & Hb & Hr).
  rewrite Hans in Hr. destruct Hr as [_ Hr]. exists b. split; [done|]. unfold handleRead.
  rewrite (bind_Ok _ _ _ _ _ (chan_fd_Ok s o c w Hcn)), (bind_Ok _ _ _ _ _ Hr). cbv beta iota.
  rewrite (proj2 (Z.ltb_lt 0 _)) by (destruct data; [done|unfold zlen; cbn; lia]).
  rewrite (bind_Ok _ _ _ (with_inputBuffer b o) (after_read s o c b w)); [done|].
  apply get_sock_Ok. unfold after_read. cbn. by rewrite lookup_insert_eq.
Qed.

(** ** Closing *)

Lemma sound_close fd w :
  epoll_sound w ->
  let w' := after_sys (sys_exec (SysClose fd) (kernel w)).1 (sys_exec (SysClose fd) (kernel w)).2 w in
  epoll_sound w' /\ interest w' = delete fd (interest w) /\ (fd ∉ k_open (kernel w'))
  /\ socks w' = socks w /\ chans w' = chans w /\ the_server w' = the_server w
  /\ k_sent (kernel w') = k_sent (kernel w) /\ next_ptr w' = next_ptr w.
Proof.
  intros [Hlive Hidx]. pose proof (law_close fd (kernel w)) as Hlaw.
  destruct (sys_exec (SysClose fd) (kernel w)) as [r k]. destruct Hlaw as (Ho & Hi & Hs).
  cbn [fst snd]. cbn zeta. set (w' := after_sys r k w).
  assert (interest w' = delete fd (interest w)) as Hi'.
  { unfold interest, epfd, w'. destruct r; cbn; apply Hi. }
  assert (chans w' = chans w) as Hch by (unfold w'; by destruct r).
  split; [split|].
  - intros fd' ev. rewrite Hi', lookup_delete_Some, Hch. intros [_ ?]. by apply Hlive.
  - intros p c. rewrite Hch. apply Hidx.
  - split; [done|]. split; [unfold w'; destruct r; cbn; rewrite Ho; set_solver|].
    unfold w'. by destruct r; cbn; rewrite Hs.
Qed.

(** The world in which the close callback of a connection is called. *)
Record closed_world w (o : Socket U) (c : Channel) w1 : Prop := mkClosed {
  cl_sound : epoll_sound w1;
  cl_closed : so_fd o ∉ k_open (kernel w1);
  cl_interest : interest w1 = delete (so_fd o) (interest w);
  cl_chans : chans w1 = <[chan_ o := with_index kNew c]> (chans w);
  cl_socks : socks w1 = socks w;
  cl_server : the_server w1 = the_server w
}.

Lemma handleClose_eq s o c w :
  connection w s o c -> epoll_sound w -> fd_ c = so_fd o ->
  exists w1, closed_world w o c w1 /\
    handleClose s w = call_with_self (so_closeCallback o) s w1.
Proof.
  intros [Hs Hc _ _] Hsnd Hfd. unfold handleClose. rewrite (bind_Ok _ _ _ _ _ (get_sock_Ok s o w Hs)).
  pose proof (sound_close (so_fd o) w Hsnd) as (Hs1 & Hi1 & Ho1 & Hsk1 & Hch1 & Hsrv1 & _ & _).
  unfold sys. set (w1 := after_sys _ _ w) in *.
  assert ((fun w0 : World K U => let '(r, k) := sys_exec (SysClose (so_fd o)) (kernel w0) in
    let w' := set_kernel k w0 in Ok (r, match r with SysOk _ => w' | SysErr e => set_errno e w' end)) w
    = Ok ((sys_exec (SysClose (so_fd o)) (kernel w)).1, w1)) as E.
  { unfold w1, after_sys. by destruct (sys_exec _ (kernel w)). }
  rewrite (bind_Ok _ _ _ _ _ E).
  assert (chans w1 !! chan_ o = Some c) as Hc1 by (by rewrite Hch1).
  pose proof (removeChannel_spec (chan_ o) c w1 Hs1 Hc1) as Hrem.
  apply runs_inv in Hrem as ([] & w2 & Hrun & Hs2 & Hf & Hch2 & Hi2).
  unfold Channel.remove, EventLoop.removeChannel. rewrite (bind_Ok _ _ _ _ _ Hrun).
  exists w2. split.
  - split; [done| | | | |].
    + by rewrite (frame_open _ _ Hf).
    + rewrite Hi2, Hi1, Hfd. destruct (_ =? _); [|done]. apply delete_id, lookup_delete_eq.
    + by rewrite Hch2, Hch1.
    + by rewrite (frame_socks _ _ Hf).
    + by rewrite (frame_server _ _ Hf).
  - rewrite (bind_Ok _ _ _ o w2); [done|]. apply get_sock_Ok.
    by rewrite (frame_socks _ _ Hf), Hsk1.
Qed.

(** [handleClose] has taken a connection out of the event loop before it
    calls the close callback: its descriptor is closed, epoll has forgotten it,
    its channel is back to the index of a new one, the registrations of the
    others are sound and unchanged, and socket and server are still in place. *)
Theorem handleClose_deregisters s o c w :
  connection w s o c -> epoll_sound w -> fd_ c = so_fd o ->
  exists w1, handleClose s w = call_with_self (so_closeCallback o) s w1 /\
    connection w1 s o (with_index kNew c) /\ epoll_sound w1
    /\ (so_fd o ∉ k_open (kernel w1)) /\ interest w1 = delete (so_fd o) (interest w)
    /\ (forall p, p <> chan_ o -> chans w1 !! p = chans w !! p)
    /\ the_server w1 = the_server w.
Proof.
  intros Hcn Hsnd Hfd. destruct (handleClose_eq s o c w Hcn Hsnd Hfd) as (w1 & [] & Heq).
  exists w1. split; [done|]. destruct Hcn as [Hs Hc Hin Hout].
  split; [split; rewrite ?cl_chans0, ?cl_socks0, ?lookup_insert_eq; done|].
  do 3 (split; [done|]). split; [|done]. intros p Hne. by rewrite cl_chans0, lookup_insert_ne.
Qed.

(** ** Destruction *)

(** User code that only looks at a connection. *)
Definition looks_only (u : U) : Prop :=
  forall s w, is_Some (socks w !! s) -> run_user u s w = Ok (tt, w).

(** A connection that only the server's map owns. *)
Record owned_by_server w (s : ptr) (o : Socket U) (u : U) : Prop := mkOwned {
  ow_count : use_count o = 1;
  ow_entry : connections_ (the_server w) !! so_fd o = Some s;
  ow_close : so_closeCallback o = Some TcpServer_connectionClose;
  ow_user : ts_closeCallback (the_server w) = Some u;
  ow_looks : looks_only u
}.

(** [connectionClose] through [closeCallback_(shared_from_this())]. *)
Lemma close_callback_spec s o u w :
  socks w !! s = Some o -> owned_by_server w s o u ->
  runs (call_with_self (so_closeCallback o) s : M unit) w (fun _ w' =>
    socks w' = delete s (socks w) /\ chans w' = delete (chan_ o) (chans w)
    /\ the_server w' = with_connections (delete (so_fd o) (connections_ (the_server w))) (the_server w)
    /\ kernel w' = kernel w /\ the_loop w' = the_loop w).
Proof.
  intros Hs [Hcount Hent Hcb Hu Hlook]. unfold call_with_self. rewrite Hcb. heap_steps.
  rewrite runs_unwrap. exists TcpServer_connectionClose. split; [done|].
  set (o2 := with_use_count (use_count o + 1) o). set (w1 := on_socks _ w).
  assert (socks w1 !! s = Some o2) as Hs1 by (cbn; by rewrite lookup_insert_eq).
  cbn [call]. unfold connectionClose. heap_steps.
  unfold connections_erase, connections, set_connections. heap_steps.
  change (connections_ (the_server w1) !! so_fd o2) with (connections_ (the_server w) !! so_fd o).
  rewrite Hent. heap_steps. set (w2 := on_server _ w1).
  rewrite (runs_release_kept s o2) by (try exact Hs1; cbn; lia).
  set (w3 := on_socks _ w2).
  assert (socks w3 !! s = Some (with_use_count 1 o2)) as Hs3.
  { cbn. rewrite lookup_insert_eq. do 2 f_equal. lia. }
  heap_steps. unfold call_user. change (ts_closeCallback (the_server w3)) with
    (ts_closeCallback (the_server w)). rewrite Hu. heap_steps. rewrite runs_unwrap.
  exists u. split; [done|]. unfold runs at 1. rewrite Hlook by (by rewrite Hs3).
  rewrite (runs_release_last s (with_use_count 1 o2)) by done. cbn.
  rewrite !delete_insert_eq. done.
Qed.

(** What is left after the peer of a connection has closed it. *)
Record gone w (s : ptr) (o : Socket U) w' : Prop := mkGone {
  gone_socks : socks w' = delete s (socks w);
  gone_chans : chans w' = delete (chan_ o) (chans w);
  gone_entry : connections_ (the_server w') = delete (so_fd o) (connections_ (the_server w));
  gone_closed : so_fd o ∉ k_open (kernel w');
  gone_interest : interest w' = delete (so_fd o) (interest w);
  gone_sound : epoll_sound w'
}.

Lemma sound_delete_unregistered w w' p :
  epoll_sound w -> chans w' = delete p (chans w) -> interest w' = interest w ->
  (forall fd ev, interest w !! fd = Some ev -> ev_data ev <> Some p) -> epoll_sound w'.
Proof.
  intros [Hlive Hidx] Hch Hi Hfree. split.
  - intros fd ev. rewrite Hi, Hch. intros Hev. destruct (Hlive fd ev Hev) as (q & c & Hd & Hc & ?).
    exists q, c. rewrite lookup_delete_ne; [done|]. intros <-. by eapply Hfree.
  - intros q c. rewrite Hch, lookup_delete_Some. intros [_ ?]. by eapply Hidx.
Qed.

Lemma peer_close_spec s o c u t w :
  connection w s o c -> epoll_sound w -> room_to_read o -> fd_ c = so_fd o ->
  owned_by_server w s o u -> (read_answer w o c).1 = SysOk [] ->
  runs (handleRead s t) w (fun _ w' => gone w s o w').
Proof.
  unfold runs.
  intros Hcn Hsnd Hroom Hfd Hown Hans.
  destruct (on_input_readFd s o c w Hcn Hroom) as (b & Hb & Hr). rewrite Hans in Hr.
  destruct Hr as [Hcb Hr]. pose proof (after_read_kept s o c b w) as Hk.
  set (w1 := after_read s o c b w) in *. set (o1 := with_inputBuffer b o).
  assert (socks w1 = <[s := o1]> (socks w)) as Hsk1 by done.
  assert (connection w1 s o1 c) as Hcn1.
  { destruct Hcn. split; rewrite ?Hsk1, ?lookup_insert_eq; done. }
  assert (epoll_sound w1) as Hsnd1 by (by eapply heap_kept_sound).
  destruct (handleClose_eq s o1 c w1 Hcn1 Hsnd1 Hfd) as (w2 & [Hsnd2 Hcl Hi2 Hch2 Hsk2 Hsrv2] & Hclose).
  destruct Hk as (Hchk & _ & _ & Hsrvk & Hik & _).
  assert (owned_by_server w2 s o1 u) as Hown2.
  { destruct Hown. split; rewrite ?Hsrv2, ?Hsrvk; done. }
  assert (socks w2 !! s = Some o1) as Hs2 by (by rewrite Hsk2, Hsk1, lookup_insert_eq).
  assert (handleRead s t w = handleClose s w1) as ->.
  { unfold handleRead. rewrite (bind_Ok _ _ _ _ _ (chan_fd_Ok s o c w Hcn)).
    by rewrite (bind_Ok _ _ _ _ _ Hr). }
  rewrite Hclose.
  apply (runs_mono _ _ _ _ (close_callback_spec s o1 u w2 Hs2 Hown2)). cbn beta.
  intros _ w3 (Hsk3 & Hch3 & Hsrv3 & Hk3 & Hl3).
  assert (interest w3 = interest w2) as Hi3 by (unfold interest, epfd; by rewrite Hk3, Hl3).
  change (chan_ o1) with (chan_ o) in *. change (so_fd o1) with (so_fd o) in *.
  split.
  - by rewrite Hsk3, Hsk2, Hsk1, delete_insert_eq.
  - by rewrite Hch3, Hch2, delete_insert_eq, Hchk.
  - rewrite Hsrv3. cbn. by rewrite Hsrv2, Hsrvk.
  - by rewrite Hk3.
  - by rewrite Hi3, Hi2, Hik.
  - apply (sound_delete_unregistered w2 w3 (chan_ o)); [done..|].
    intros fd ev Hev Hd. destruct (sound_live _ Hsnd2 fd ev Hev) as (q & c' & Hq & Hc' & _ & Hx).
    assert (q = chan_ o) as -> by congruence. rewrite Hch2, lookup_insert_eq in Hc'.
    injection Hc' as <-. discriminate Hx.
Qed.

(** C19: When the peer closes a connection that only the server's map owns,
    [handleRead] takes it apart completely and once: the descriptor is closed,
    epoll and the server forget it, the user is told, and the socket and its
    channel are destroyed; everything registered besides it stays sound. *)
Theorem peer_close_releases_connection s o c u t w :
  connection w s o c -> epoll_sound w -> room_to_read o -> fd_ c = so_fd o ->
  owned_by_server w s o u -> (read_answer w o c).1 = SysOk [] ->
  runs (handleRead s t) w (fun _ w' =>
    epoll_sound w' /\ socks w' = delete s (socks w) /\ chans w' = delete (chan_ o) (chans w)
    /\ connections_ (the_server w') = delete (so_fd o) (connections_ (the_server w))
    /\ (so_fd o ∉ k_open (kernel w')) /\ interest w' = delete (so_fd o) (interest w)).
Proof.
  intros. eapply runs_mono; [by eapply peer_close_spec|]. cbn beta. by intros _ w' [].
Qed.

(** C40: An orderly close by the peer of a connection that only the server's map
    owns is a use after free: the read callback destroys the connection and with
    it the channel whose [handleEvent] called it, which then goes on to read its
    [revents_].  The user's close callback need not do anything for this. *)
Theorem peer_close_is_use_after_free s o c u t w :
  connection w s o c -> epoll_sound w -> room_to_read o -> fd_ c = so_fd o ->
  owned_by_server w s o u -> (read_answer w o c).1 = SysOk [] ->
  readCallback_ c = Some (Socket_handleRead s) -> errorCallback_ c = None ->
  test_flag (revents_ c) EPOLLIN = true ->
  ends (handleEvent (chan_ o) t) w (Undefined UseAfterFree).
Proof.
  intros Hcn Hsnd Hroom Hfd Hown Hans Hrc Hec Hin.
  pose proof Hcn as [Hs Hc Hwi Hwo]. unfold handleEvent, Channel.handleEvent.
  apply ends_bind_runs. rewrite runs_upd_chan. exists c. split; [done|].
  set (c1 := with_eventHandling true c). set (w1 := on_chans _ w).
  assert (chans w1 !! chan_ o = Some c1) as Hc1 by (cbn; by rewrite lookup_insert_eq).
  assert (connection w1 s o c1) as Hcn1 by (by split).
  assert (epoll_sound w1) as Hsnd1.
  { apply (sound_replace w w1 (chan_ o) c c1); try done; [by apply (sound_index w Hsnd (chan_ o) c)|].
    intros ev Hev. by right. }
  assert (forall A (k : Channel -> M A) f, ends (k c1) w1 f -> ends (get_chan (chan_ o) ≫= k) w1 f)
    as Hget.
  { intros A k f Hk. apply ends_bind_runs, runs_get_chan. by exists c1. }
  apply Hget. change (revents_ c1) with (revents_ c). rewrite Hin, andb_false_r.
  apply ends_bind_runs. apply runs_ret. apply Hget.
  change (errorCallback_ c1) with (errorCallback_ c). rewrite Hec.
  apply ends_bind_runs. rewrite runs_when.
  assert (forall Q : unit -> World K U -> Prop, Q tt w1 ->
    if test_flag (revents_ c1) EPOLLERR then runs (call_if run_event None) w1 Q else Q tt w1) as Hskip.
  { intros Q HQ. destruct (test_flag (revents_ c1) EPOLLERR); exact HQ. }
  apply Hskip. apply Hget. rewrite !test_flag_lor. change (revents_ c1) with (revents_ c).
  rewrite Hin. cbn [orb when_]. change (readCallback_ c1) with (readCallback_ c). rewrite Hrc.
  assert (owned_by_server w1 s o u) as Hown1 by (destruct Hown; by split).
  pose proof (peer_close_spec s o c1 u t w1 Hcn1 Hsnd1 Hroom Hfd Hown1 Hans) as Hgone.
  cbn [call_if run_read]. apply ends_bind_runs. apply (runs_mono _ _ _ _ Hgone). cbn beta.
  intros _ w2 [_ Hch _ _ _ _]. apply ends_bind_l, ends_get_chan.
  by rewrite Hch, lookup_delete_eq.
Qed.
End Lifecycle.

(** ** The callbacks of main.cpp *)

Section MainCallbacks.
Context {K : Type} `{KernelLaws (option ptr) K}.
Implicit Type w : World K main_fn.

Lemma runs_take_input s o w (Q : list byte -> World K main_fn -> Prop) :
  socks w !! s = Some o -> wf (inputBuffer_ o) ->
  (forall b, wf b -> contents b = [] ->
     Q (contents (inputBuffer_ o)) (on_socks <[s := with_inputBuffer b o]> w)) ->
  runs (take_input s) w Q.
Proof.
  intros Hs Hwf HQ. unfold take_input, on_input. rewrite runs_bind, runs_get_sock.
  exists o. split; [done|]. unfold runs, mk_prog, zoom. cbn [fst].
  destruct (runs_inv _ _ _ (retrieveAllAsString_spec _ Hwf)) as (x & b & -> & Hb & -> & Hnil & _).
  assert (set_kernel (kernel w) w = w) as -> by (by destruct w). by apply HQ.
Qed.

(** What an answered message leaves of the connection. *)
Record answered w s (o : Socket main_fn) (c : Channel) w' (o' : Socket main_fn) : Prop := mkAnswered {
  an_conn : connection w' s o' c;
  an_heap : heap_kept w w';
  an_socks : socks w' = <[s := o']> (socks w);
  an_input : contents (inputBuffer_ o') = [];
  an_output : queued_output o' = queued_output o;
  an_rest : o' = with_outputBuffer (outputBuffer_ o') (with_inputBuffer (inputBuffer_ o') o);
  an_sent : sent w' (fd_ c) = sent w (fd_ c) ++ greeting;
  an_kernel : kernel w' = (sys_exec (SysWrite (fd_ c) greeting) (kernel w)).2
}.

(** The callback alone, when the kernel takes the whole reply. *)
Lemma message_spec s o c w :
  connection w s o c -> writerIndex_ (outputBuffer_ o) + 9 <= vector_max_size ->
  write_answer w (fd_ c) greeting = SysOk 9 ->
  runs (run_user message s) w (fun _ w' => exists o', answered w s o c w' o').
Proof.
  intros [Hs Hc Hin Hout] Hspace Hwr. unfold run_user, main_code, getAddr. heap_steps.
  apply (runs_take_input s o); [done..|]. intros b Hb Hnil. heap_steps.
  set (o1 := with_inputBuffer b o). set (w1 := on_socks _ w).
  assert (connection w1 s o1 c) as Hcn1 by (split; cbn; rewrite ?lookup_insert_eq; done).
  eapply runs_mono.
  { apply (Send_accepted_spec s o1 c greeting 9 9 w1); try done. left. lia. }
  cbn beta. intros ret w2 (_ & Hk & Hst & o2 & Hcn2 & Hsk & Ho2 & Hq & _ & Hker). rewrite runs_ret.
  exists o2. split; [done|exact Hk| | | | |exact Hst|exact Hker].
  - rewrite Hsk. cbn. by rewrite insert_insert_eq.
  - by rewrite Ho2.
  - by rewrite Hq, app_nil_r.
  - rewrite Ho2 at 1. by rewrite Ho2.
Qed.

(** A callback that gives back the reference it was lent. *)
Lemma call_with_self_spec s o c f w :
  connection w s o c -> 0 < use_count o ->
  (let o1 := with_use_count (use_count o + 1) o in
   let w1 := on_socks <[s := o1]> w in
   runs (call f s) w1 (fun _ w' => exists o', answered w1 s o1 c w' o')) ->
  runs (call_with_self (Some f) s) w (fun _ w' => exists o', answered w s o c w' o').
Proof.
  intros [Hs Hc Hin Hout] Hcount Hrun. unfold call_with_self. heap_steps. rewrite runs_unwrap.
  exists f. split; [done|]. run_steps. eapply runs_mono; [exact Hrun|]. cbn beta.
  intros _ w2 (o2 & [[Hs2 Hc2 Hi2 Hw2] Hk Hsk Hnil Hq Hrest Hst Hker]).
  assert (use_count o2 = use_count o + 1) as Hn by (rewrite Hrest; done).
  rewrite (runs_release_kept s o2) by (done || lia).
  exists (with_use_count (use_count o2 - 1) o2). split.
  - split; cbn; rewrite ?lookup_insert_eq; done.
  - exact Hk.
  - cbn. rewrite Hsk. cbn. by rewrite !insert_insert_eq.
  - exact Hnil.
  - exact Hq.
  - cbn. rewrite Hn. replace (use_count o + 1 - 1) with (use_count o) by lia. rewrite Hrest. by destruct o.
  - exact Hst.
  - exact Hker.
Qed.

(** The example server answers: when bytes arrive on one of its connections
    and the kernel has room for the reply, the read handler runs main.cpp's
    [message] callback, which empties the input buffer and sends the nine bytes
    of "aaaabbbb" with their terminating zero; the connection, its reference
    count, its queued output and all registrations are as they were. *)
Theorem message_is_answered s o c data t w :
  connection w s o c -> room_to_read o -> 0 < use_count o ->
  writerIndex_ (outputBuffer_ o) + 9 <= vector_max_size ->
  so_messageCallback o = Some (UserCallback message) ->
  (read_answer w o c).1 = SysOk data -> data <> [] ->
  (sys_exec (SysWrite (fd_ c) greeting) (read_answer w o c).2).1 = SysOk 9 ->
  runs (handleRead s t) w (fun _ w' =>
    exists o', connection w' s o' c /\ heap_kept w w' /\ socks w' = <[s := o']> (socks w)
      /\ contents (inputBuffer_ o') = [] /\ queued_output o' = queued_output o
      /\ o' = with_outputBuffer (outputBuffer_ o') (with_inputBuffer (inputBuffer_ o') o)
      /\ k_sent (kernel w') (fd_ c) = sent w (fd_ c) ++ greeting
      /\ kernel w' = (sys_exec (SysWrite (fd_ c) greeting) (read_answer w o c).2).2).
Proof.
  intros Hcn Hroom Hcount Hspace Hcb Hans Hne Hwr.
  destruct (handleRead_data s o c data t w Hcn Hroom Hans Hne) as (b & Hb & Heq).
  unfold runs. rewrite Heq, Hcb. pose proof (after_read_kept s o c b w) as Hk1.
  assert (k_sent (kernel (after_read s o c b w)) = k_sent (kernel w)) as Hst1 by apply law_quiet, eq_refl.
  set (w1 := after_read s o c b w) in *. set (o1 := with_inputBuffer b o).
  assert (connection w1 s o1 c) as Hcn1.
  { destruct Hcn. split; cbn; rewrite ?lookup_insert_eq; done. }
  eapply runs_mono; [apply (call_with_self_spec s o1 c); [done|done|]|].
  - cbv zeta. cbn [call]. apply message_spec; [|done|done].
    destruct Hcn1. split; cbn; rewrite ?lookup_insert_eq; done.
  - cbn beta. intros _ w' (o' & [Hcn' Hk Hsk Hnil Hq Hrest Hst Hker]). exists o'. split; [done|].
    split; [by rewrite Hk1|]. split; [rewrite Hsk; cbn; by rewrite insert_insert_eq|].
    do 3 (split; [done|]). split; [unfold sent in *; by rewrite Hst, Hst1|exact Hker].
Qed.
End MainCallbacks.

(** ** Witnesses *)

(** The connection of [Scenarios.connected], readable, with the given input. *)
Definition readable (rd : list (sysres (list byte))) : DW :=
  exec (upd_chan 4%positive (with_revents EPOLLIN)) (connected rd [] []).

Definition said_hi : DW := readable [SysOk hi].
Definition said_bye : DW := readable [SysOk []].

Lemma cclose_looks_only : looks_only (K := DK) cclose.
Proof.
  intros s w [o Hs]. unfold run_user, main_code, getAddr.
  rewrite (bind_Ok _ _ _ (addr_ o) w); [done|].
  by rewrite (bind_Ok _ _ _ _ _ (get_sock_Ok s o w Hs)).
Defined.

Lemma bye_owned : owned_by_server said_bye 3 (sock3 said_bye) cclose.
Proof. split; [vm_compute; reflexivity..|exact cclose_looks_only]. Defined.

Lemma handleRead_dispatches_witness :
  exists b, wf b /\ heap_kept said_hi (after_read 3 (sock3 said_hi) (chan4 said_hi) b said_hi) /\
    match (read_answer said_hi (sock3 said_hi) (chan4 said_hi)).1 with
    | SysOk data => contents b = contents (inputBuffer_ (sock3 said_hi)) ++ data
        /\ handleRead 3 0 said_hi
           = (if decide (data = []) then handleClose 3
              else call_with_self (so_messageCallback (sock3 said_hi)) 3)
               (after_read 3 (sock3 said_hi) (chan4 said_hi) b said_hi)
    | SysErr e => b = inputBuffer_ (sock3 said_hi)
        /\ handleRead 3 0 said_hi
           = handleError 3 (set_errno e (after_read 3 (sock3 said_hi) (chan4 said_hi) b said_hi))
    end.
Proof.
  apply (handleRead_dispatches 3 (sock3 said_hi) (chan4 said_hi) 0 said_hi); conn_witness.
Defined.

Lemma handleClose_deregisters_witness :
  exists w1, handleClose 3 said_hi
      = call_with_self (so_closeCallback (sock3 said_hi)) 3 w1 /\
    connection w1 3 (sock3 said_hi) (with_index kNew (chan4 said_hi)) /\ epoll_sound w1
    /\ (so_fd (sock3 said_hi) ∉ k_open (kernel w1))
    /\ interest w1 = delete (so_fd (sock3 said_hi)) (interest said_hi)
    /\ (forall p, p <> chan_ (sock3 said_hi) -> chans w1 !! p = chans said_hi !! p)
    /\ the_server w1 = the_server said_hi.
Proof.
  apply (handleClose_deregisters 3 (sock3 said_hi) (chan4 said_hi) said_hi); conn_witness.
Defined.

Lemma peer_close_releases_connection_witness :
  runs (handleRead 3 0) said_bye (fun _ w' =>
    epoll_sound w' /\ socks w' = delete 3%positive (socks said_bye)
    /\ chans w' = delete (chan_ (sock3 said_bye)) (chans said_bye)
    /\ connections_ (the_server w')
       = delete (so_fd (sock3 said_bye)) (connections_ (the_server said_bye))
    /\ (so_fd (sock3 said_bye) ∉ k_open (kernel w'))
    /\ interest w' = delete (so_fd (sock3 said_bye)) (interest said_bye)).
Proof.
  apply (peer_close_releases_connection 3 (sock3 said_bye) (chan4 said_bye) cclose 0 said_bye);
    try exact bye_owned; conn_witness.
Defined.

Lemma peer_close_is_use_after_free_witness :
  ends (handleEvent (chan_ (sock3 said_bye)) 0) said_bye (Undefined UseAfterFree).
Proof.
  apply (peer_close_is_use_after_free 3 (sock3 said_bye) (chan4 said_bye) cclose 0 said_bye);
    try exact bye_owned; conn_witness.
Defined.

Lemma message_is_answered_witness :
  runs (handleRead 3 0) said_hi (fun _ w' =>
    exists o', connection w' 3 o' (chan4 said_hi) /\ heap_kept said_hi w'
      /\ socks w' = <[3%positive := o']> (socks said_hi)
      /\ contents (inputBuffer_ o') = [] /\ queued_output o' = queued_output (sock3 said_hi)
      /\ o' = with_outputBuffer (outputBuffer_ o') (with_inputBuffer (inputBuffer_ o') (sock3 said_hi))
      /\ k_sent (kernel w') (fd_ (chan4 said_hi)) = sent said_hi (fd_ (chan4 said_hi)) ++ greeting
      /\ kernel w' = (sys_exec (SysWrite (fd_ (chan4 said_hi)) greeting)
                        (read_answer said_hi (sock3 said_hi) (chan4 said_hi)).2).2).
Proof.
  apply (message_is_answered 3 (sock3 said_hi) (chan4 said_hi) hi 0 said_hi); conn_witness.
Defined.

(** The example program from its first line: [main] starts the server on
    127.0.0.1:9999, accepts a connection, answers the message it sends, and
    when the client then closes the connection, as every client does, the
    process accesses freed memory. *)
Theorem main_crashes_when_its_first_client_leaves :
  let k := scripted [SysOk hi; SysOk []] [] [SysOk (7, peer)]
             [SysOk [(4, EPOLLIN)]; SysOk [(7, EPOLLIN)]; SysOk [(7, EPOLLIN)]] in
  sent (exec (main_setup 0 ;; make_acceptor ;; loop_body 9 ;; loop_body 9) (blank_world k)) 7
    = greeting /\
  ends (main 0 9) (blank_world k) (Undefined UseAfterFree).
Proof. split; vm_compute; reflexivity. Qed.
