(* ===== verification/ServerTheorems.v ===== *)
(** * ServerTheorems: accepting connections

    Splitting the host string, binding, the construction of a socket and what
    [accept] registers when the call succeeds and when it fails. *)

From Stdlib Require Import Ascii.
From S2P Require Import Prelude Bytes Buffer BufferSpec Kernel World WorldSpec Poller EventLoop Channel Callbacks Socket PollerTheorems TcpServer Reactor.
From S2P Require Import ScriptKernel Main Scenarios Registration LoopTheorems SocketTheorems ConnectionTheorems.

(** ** Splitting *)

Lemma append_assoc (x y z : string) : ((x +:+ y) +:+ z = x +:+ (y +:+ z))%string.
Proof. induction x as [|c x IH]; [done|]. exact (f_equal (String c) IH). Qed.

Lemma length_append (x y : string) :
  String.length (x +:+ y) = (String.length x + String.length y)%nat.
Proof. induction x as [|c x IH]; [done|]. exact (f_equal S IH). Qed.

Fixpoint no_delim (d : ascii) (s : string) : bool :=
  match s with
  | EmptyString => true
  | String c s' => negb (Ascii.eqb c d) && no_delim d s'
  end.

(** Pieces with a delimiter between any two. *)
Fixpoint join (d : ascii) (l : list string) : string :=
  match l with
  | [] => ""
  | [x] => x
  | x :: l' => x +:+ String d (join d l')
  end%string.

Lemma join_cons d x l : l <> [] -> join d (x :: l) = (x +:+ String d (join d l))%string.
Proof. by destruct l. Qed.

Lemma getline_spec d s :
  let '(item, rest) := getline d s in
  no_delim d item = true /\
  match rest with
  | Some s' => s = (item +:+ String d s')%string /\ (String.length s' < String.length s)%nat
  | None => s = item
  end.
Proof.
  induction s as [|c s IH]; cbn; [done|]. destruct (Ascii.eqb c d) eqn:E; cbn.
  - apply Ascii.eqb_eq in E as ->. split; [done|]. split; [done|lia].
  - destruct (getline d s) as [item rest]. cbn. rewrite E. destruct IH as [-> IH]. split; [done|].
    destruct rest; [|by rewrite IH]. destruct IH as [-> ?]. split; [done|]. cbn in *. lia.
Qed.

Lemma getline_item d x : no_delim d x = true -> getline d x = (x, None).
Proof.
  induction x as [|c x IH]; [done|]. cbn [no_delim getline]. rewrite andb_true_iff, negb_true_iff.
  intros [Hc Hx]. by rewrite Hc, IH.
Qed.

Lemma getline_delim d x s : no_delim d x = true -> getline d (x +:+ String d s)%string = (x, Some s).
Proof.
  induction x as [|c x IH].
  - change (String.append "" (String d s)) with (String d s). cbn [getline].
    by rewrite Ascii.eqb_refl.
  - cbn [no_delim]. rewrite andb_true_iff, negb_true_iff. intros [Hc Hx].
    change (getline d (String c (x +:+ String d s)%string) = (String c x, Some s)).
    cbn [getline]. by rewrite Hc, IH.
Qed.

(** Running out of fuel never cuts a string short. *)
Lemma split_loop_spec fuel d s :
  (String.length s <= fuel)%nat ->
  Forall (fun x => no_delim d x = true) (split_loop fuel d s) /\
  (s = "" \/ join d (split_loop fuel d s) = s
   \/ (join d (split_loop fuel d s) +:+ String d "")%string = s)%string.
Proof.
  revert s. induction fuel as [|fuel IH]; intros s Hle.
  { destruct s; [|cbn in Hle; lia]. split; [constructor|by left]. }
  cbn. destruct (decide (s = ""%string)) as [->|Hne]; [split; [constructor|by left]|].
  pose proof (getline_spec d s) as Hg. destruct (getline d s) as [item [s'|]]; cycle 1.
  { destruct Hg as [Hi ->]. split; [by repeat constructor|]. right. by left. }
  destruct Hg as (Hi & Hs & Hlen). destruct (IH s') as [Hall Hj]; [lia|].
  split; [by constructor|]. right.
  destruct (decide (s' = ""%string)) as [->|Hne'].
  - right. assert (split_loop fuel d "" = []) as -> by (by destruct fuel). by rewrite Hs.
  - assert (split_loop fuel d s' <> []) as Hnil.
    { destruct fuel; [destruct s'; [done|cbn in *; lia]|]. cbn.
      destruct (decide _); [done|]. by destruct (getline d s'). }
    rewrite join_cons by done. destruct Hj as [?|[Hj|Hj]]; [done|left; by rewrite Hj|right].
    rewrite append_assoc, Hs. f_equal. exact (f_equal (String d) Hj).
Qed.

Lemma split_loop_join fuel d l x :
  Forall (fun x => no_delim d x = true) (l ++ [x]) -> x <> ""%string ->
  (String.length (join d (l ++ [x])) <= fuel)%nat -> split_loop fuel d (join d (l ++ [x])) = l ++ [x].
Proof.
  intros Hall Hx. revert fuel. induction l as [|y l IH]; intros fuel Hle.
  - cbn in *. apply Forall_cons in Hall as [Hnd _].
    destruct fuel; [destruct x; [done|cbn in Hle; lia]|]. cbn.
    by rewrite decide_False, getline_item.
  - cbn [app] in *. apply Forall_cons in Hall as [Hy Hall].
    rewrite join_cons in * by (by destruct l).
    rewrite length_append in Hle. cbn in Hle.
    destruct fuel; [lia|]. cbn. rewrite decide_False by (by destruct y).
    rewrite getline_delim by done. f_equal. apply IH; [done|lia].
Qed.

(** C38: [split] undoes joining: it terminates on every string, no piece holds
    the delimiter, and joining the pieces gives the string back, up to one
    trailing delimiter, which [std::getline] swallows. *)
Theorem split_pieces s d :
  Forall (fun x => no_delim d x = true) (split s d) /\
  (join d (split s d) = s \/ (join d (split s d) +:+ String d "")%string = s).
Proof.
  destruct (split_loop_spec (String.length s) d s) as [Hall Hj]; [done|]. split; [done|].
  destruct Hj as [->|Hj]; [by left|done].
Qed.

(** Splitting a joined list gives the list back: pieces that do not hold the
    delimiter, the last of them not empty, survive the round trip through one
    string, in order and none lost, empty pieces in the middle included. *)
Theorem split_join d l x :
  Forall (fun x => no_delim d x = true) (l ++ [x]) -> x <> ""%string ->
  split (join d (l ++ [x])) d = l ++ [x].
Proof. intros. by apply split_loop_join. Qed.

Lemma split_join_witness : split "127.0.0.1:9999" ":"%char = ["127.0.0.1"; "9999"]%string.
Proof. apply (split_join ":"%char ["127.0.0.1"%string] "9999"%string); [by repeat constructor|done]. Defined.

(** ** Binding *)

Section Binding.
Context {K U : Type} `{KernelLaws (option ptr) K} `{UserCode K U} `{InetAddr} `{Host}.
Implicit Type w : World K U.
Abbreviation M := (prog (World K U)).

(** What the invariants see of a world, all but the addresses of the sockets. *)
Definition view_kept w w' : Prop :=
  heap_kept w w' /\ socks w' = socks w /\ k_sent (kernel w') = k_sent (kernel w).

Lemma quiet_kept {A} (c : syscall (option ptr) A) w (Q : sysres A -> World K U -> Prop) :
  quiet c = true ->
  (forall w', view_kept w w' -> kernel w' = (sys_exec c (kernel w)).2 -> Q (sys_exec c (kernel w)).1 w') ->
  runs (sys c) w Q.
Proof.
  intros Hq HQ. rewrite runs_sys. destruct (quiet_view c (kernel w) Hq) as (Ho & Hi & Hs).
  destruct (sys_exec c (kernel w)) as [r k]. cbn [fst snd] in *. apply HQ; [|by destruct r].
  unfold view_kept, heap_kept, interest, epfd. destruct r; cbn; by rewrite Ho, Hi, Hs.
Qed.

(** The strings that have two parts: a colon at the end is swallowed. *)
Lemma split_two host ip port :
  split host ":"%char = [ip; port] <->
  no_delim ":"%char ip = true /\ no_delim ":"%char port = true /\
  (host = (ip +:+ String ":" port)%string /\ port <> ""%string
   \/ host = (ip +:+ String ":" (port +:+ ":"))%string).
Proof.
  split.
  - intros Hs. destruct (split_loop_spec (String.length host) ":"%char host) as [Hall Hj]; [done|].
    fold (split host ":"%char) in Hall, Hj. rewrite Hs in Hall, Hj. cbn [join] in Hj.
    apply Forall_cons in Hall as [Hip [Hport _]%Forall_cons]. do 2 (split; [done|]).
    destruct Hj as [->|[Hj|Hj]]; [done| |right].
    + left. split; [done|]. intros ->. subst host. revert Hs. unfold split.
      rewrite length_append, Nat.add_comm. cbn [String.length Nat.add split_loop].
      rewrite decide_False by (by destruct ip). rewrite getline_delim by done. by destruct (String.length ip).
    + rewrite <- Hj, append_assoc. done.
  - intros (Hip & Hport & [[-> Hne]| ->]).
    + apply (split_loop_join _ ":"%char [ip] port); [by repeat constructor|done..].
    + unfold split. rewrite length_append. cbn [String.length]. rewrite length_append, !Nat.add_succ_r.
      rewrite (Nat.add_comm (String.length port)). cbn [String.length Nat.add].
      rewrite Nat.add_succ_r. cbn [split_loop].
      rewrite decide_False by (by destruct ip). rewrite getline_delim by done. f_equal.
      rewrite decide_False by (by destruct port). rewrite getline_delim by done. f_equal.
      by destruct (_ + _)%nat.
Qed.

(** C39: [bind] accepts the hosts that split into two parts at colons, which are
    "ip:port" with a port and "ip:port:" with any; every other is rejected with -1
    before anything is touched.  For an accepted one the acceptor's address is
    filled in, [::bind] is asked once, with that address and the acceptor's
    descriptor, and its success or failure is what [bind] returns.  The port is
    whatever [atoi] makes of the text, reduced modulo 2^16: ports out of range are
    not rejected but bound as another port, unless [atoi] is undefined on them. *)
Theorem bind_parses_host a o w :
  acceptor (the_server w) = Some a -> socks w !! a = Some o ->
  let host := host_ (the_server w) in
  (length (split host ":"%char) <> 2%nat -> TcpServer.bind w = Ok (-1, w)) /\
  (forall ip port, split host ":"%char = [ip; port] ->
     (no_delim ":"%char ip = true /\ no_delim ":"%char port = true /\
      (host = (ip +:+ String ":" port)%string /\ port <> ""%string
       \/ host = (ip +:+ String ":" (port +:+ ":"))%string)) /\
     match atoi port with
     | Err f => ends TcpServer.bind w f
     | Ok n =>
         runs TcpServer.bind w (fun ret w' =>
           let address := SockAddr AF_INET (htons (n mod 65536)) (inet_addr ip) in
           let answer := sys_exec (SysBind (so_fd o) address) (kernel w) in
           ret = ret_unit answer.1 /\ kernel w' = answer.2
           /\ socks w' = <[a := with_addr address o]> (socks w) /\ heap_kept w w')
     end).
Proof.
  intros Ha Ho host. unfold TcpServer.bind, server, acceptor_ptr. split.
  - intros Hlen. unfold mbind, prog_bind, gets. fold host.
    destruct (split host _) as [|e0 [|e1 [|e2 l]]]; done.
  - intros ip port Hsplit. split; [by apply split_two|]. destruct (atoi port) as [n|f] eqn:Hn.
    + run_steps. fold host. rewrite Hsplit. unfold server. run_steps. rewrite Ha, runs_unwrap. exists a. split; [done|].
      run_steps. rewrite Hn. run_steps. unfold setAddr, getFD. obj_steps.
      apply quiet_kept; [done|]. intros w' (Hk & Hsk & _) Hker. run_steps.
      split; [done|]. split; [done|]. split; [by rewrite Hsk|exact Hk].
    + unfold ends, mbind, prog_bind, gets. fold host. rewrite Hsplit. unfold server, gets. rewrite Ha. cbn. by rewrite Hn.
Qed.
End Binding.

Lemma bind_parses_host_witness :
  let w := listening (scripted [] [] [] []) in
  exists o, socks w !! 1%positive = Some o /\ so_fd o = 4 /\
  runs TcpServer.bind w (fun ret w' =>
    let address := SockAddr AF_INET (htons (9999 mod 65536)) (inet_addr "127.0.0.1") in
    let answer := sys_exec (SysBind (so_fd o) address) (kernel w) in
    ret = ret_unit answer.1 /\ kernel w' = answer.2
    /\ socks w' = <[1%positive := with_addr address o]> (socks w) /\ heap_kept w w').
Proof.
  cbv zeta. set (w := listening _).
  assert (acceptor (the_server w) = Some 1%positive) as Ha by (vm_compute; reflexivity).
  assert (exists o, socks w !! 1%positive = Some o /\ so_fd o = 4) as (o & Ho & Hfd)
    by (vm_compute; eexists; split; reflexivity).
  assert (split (host_ (the_server w)) ":"%char = ["127.0.0.1"; "9999"]%string) as Hs by (vm_compute; reflexivity).
  exists o. split; [exact Ho|]. split; [exact Hfd|]. clearbody w.
  destruct (bind_parses_host 1 o w Ha Ho) as [_ Hall]. destruct (Hall _ _ Hs) as [_ Hr].
  assert (atoi "9999" = Ok 9999) as E by (vm_compute; reflexivity). rewrite E in Hr. exact Hr.
Defined.

(** ** Constructing a socket *)

Section Construction.
Context {K U : Type} `{KernelLaws (option ptr) K} `{UserCode K U} `{InetAddr} `{Host}.
Implicit Type w : World K U.
Abbreviation M := (prog (World K U)).

(** Nothing lives at the next address or the one after it. *)
Definition heap_room w : Prop :=
  socks w !! next_ptr w = None /\ chans w !! Pos.succ (next_ptr w) = None.

(** The channel and the socket that [new Socket(loop, fd)] builds. *)
Definition new_channel (fd : Z) (this : ptr) : Channel :=
  mkChannel fd kReadEvent 0 kAdded false (Some (Socket_handleRead this))
    (Some (Socket_handleWrite this)) (Some (Socket_handleClose this)) None.
Definition new_socket (fd : Z) (ch : ptr) : Socket U :=
  mkSocket Buffer_init Buffer_init None None None (SockAddr 0 0 0) fd ch 1.

(** What building or registering a connection on [fd] leaves alone. *)
Definition outside_kept w w' : Prop :=
  the_server w' = the_server w /\ k_open (kernel w') = k_open (kernel w)
  /\ k_sent (kernel w') = k_sent (kernel w) /\ loop_static (the_loop w') = loop_static (the_loop w).

#[export] Instance outside_kept_equiv : Equivalence outside_kept.
Proof.
  split; unfold outside_kept.
  - by intros w.
  - by intros w w' (-> & -> & -> & ->).
  - intros w1 w2 w3 (? & ? & ? & ?) (? & ? & ? & ?). repeat split; congruence.
Qed.

Lemma frame_outside w w' : poller_frame w w' -> outside_kept w w'.
Proof. unfold poller_frame, static, outside_kept. intros Hf. repeat split; congruence. Qed.

Lemma view_outside w w' : view_kept w w' -> outside_kept w w'.
Proof.
  intros ((_ & _ & Hl & Hs & _ & Ho) & _ & Hst). unfold outside_kept. by rewrite Hl.
Qed.

(** Registration of descriptor [fd] for input: granted, or nothing. *)
Definition watched w w' (fd : Z) (ch : ptr) : Prop :=
  interest w' = interest w \/ interest w' = <[fd := EpollEvent kReadEvent (Some ch)]> (interest w).

Record made w (fd : Z) (this ch : ptr) w' : Prop := mkMade {
  md_sound : epoll_sound w';
  md_socks : socks w' = <[this := new_socket fd ch]> (socks w);
  md_chans : chans w' = <[ch := new_channel fd this]> (chans w);
  md_watched : watched w w' fd ch;
  md_outside : outside_kept w w'
}.

Lemma runs_alloc w (Q : ptr -> World K U -> Prop) :
  runs alloc w Q <-> Q (next_ptr w) (set_next_ptr (Pos.succ (next_ptr w)) w).
Proof. done. Qed.

Lemma sound_insert_chan w ch c :
  epoll_sound w -> chans w !! ch = None -> valid_index (index_ c) ->
  epoll_sound (on_chans <[ch := c]> w).
Proof.
  intros [Hlive Hidx] Hnone Hval. split.
  - intros fd ev Hev. destruct (Hlive fd ev Hev) as (p & c0 & ? & Hp & ?). exists p, c0.
    cbn. rewrite lookup_insert_ne by (intros ->; congruence). done.
  - intros p c0. cbn. rewrite lookup_insert_Some. intros [[_ <-]|[_ ?]]; [done|by eapply Hidx].
Qed.

Lemma sound_upd_chan w p c c' :
  epoll_sound w -> chans w !! p = Some c -> fd_ c' = fd_ c -> index_ c' = index_ c ->
  epoll_sound (on_chans <[p := c']> w).
Proof.
  intros Hs Hp Hf Hi. apply (sound_replace w _ p c c'); try done.
  - rewrite Hi. by apply (sound_index w Hs p c).
  - intros ev Hev. right. by rewrite Hi.
Qed.

Lemma view_sound w w' : view_kept w w' -> epoll_sound w -> epoll_sound w'.
Proof. intros [Hk _]. by apply heap_kept_sound. Qed.

(** The kernel after the four [fcntl] calls of the constructor: what each get
    returned goes into the set that follows it. *)
Definition flags_set (fd : Z) (k : K) : K :=
  let fl := sys_exec (SysFcntl fd F_GETFL 0) k in
  let k2 := (sys_exec (SysFcntl fd F_SETFL (Z.lor (ret_int fl.1) O_NONBLOCK)) fl.2).2 in
  let fd_flags := sys_exec (SysFcntl fd F_GETFD 0) k2 in
  (sys_exec (SysFcntl fd F_SETFD (Z.lor (ret_int fd_flags.1) FD_CLOEXEC)) fd_flags.2).2.

Lemma fcntl_spec (fd : Z) (rest : M ptr) w (Q : ptr -> World K U -> Prop) :
  (forall w', view_kept w w' -> kernel w' = flags_set fd (kernel w) -> runs rest w' Q) ->
  runs (flags ← sys (SysFcntl fd F_GETFL 0);
        _ ← sys (SysFcntl fd F_SETFL (Z.lor (ret_int flags) O_NONBLOCK));
        flags ← sys (SysFcntl fd F_GETFD 0);
        _ ← sys (SysFcntl fd F_SETFD (Z.lor (ret_int flags) FD_CLOEXEC)); rest) w Q.
Proof.
  intros HQ. rewrite runs_bind. apply quiet_kept; [done|]. intros w1 [Hk1 [Hs1 Ht1]] E1.
  rewrite runs_bind. apply quiet_kept; [done|]. intros w2 [Hk2 [Hs2 Ht2]] E2.
  rewrite runs_bind. apply quiet_kept; [done|]. intros w3 [Hk3 [Hs3 Ht3]] E3.
  rewrite runs_bind. apply quiet_kept; [done|]. intros w4 [Hk4 [Hs4 Ht4]] E4.
  apply HQ; [split; [by rewrite Hk1, Hk2, Hk3|]; split; congruence|].
  unfold flags_set. by rewrite E4, E3, E2, E1.
Qed.

(** The [epoll_ctl] calls for a connection on [fd] with its channel at [ch]. *)
Definition watch_call w (op : ctl_op) (fd : Z) (ch : ptr) (k : K) : sysres unit * K :=
  sys_exec (SysEpollCtl (epfd w) op fd (EpollEvent kReadEvent (Some ch))) k.

Lemma Socket_ctor_spec fd w :
  epoll_sound w -> heap_room w ->
  runs (Socket_ctor fd) w (fun this w' =>
    this = next_ptr w /\ made w fd this (Pos.succ this) w'
    /\ kernel w' = (watch_call w EPOLL_CTL_ADD fd (Pos.succ this) (flags_set fd (kernel w))).2).
Proof.
  intros Hsnd [Hns Hnc]. unfold Socket_ctor. rewrite runs_bind, runs_alloc.
  change Buffer_ctor with (Ok Buffer_init). run_steps. rewrite runs_alloc. run_steps.
  set (this := next_ptr w). cbn [next_ptr set_next_ptr]. fold this. set (ch := Pos.succ this).
  set (w1 := on_socks _ _).
  assert (epoll_sound w1) as Hs1.
  { apply (sound_view (on_chans <[ch := Channel_ctor fd]> w)); [|done..].
    apply sound_insert_chan; [done|done|]. unfold valid_index. by left. }
  assert (outside_kept w w1) as Hout1 by done.
  rewrite <- runs_bind. apply fcntl_spec. intros w2 Hv2 Hfl. pose proof (view_sound _ _ Hv2 Hs1) as Hs2.
  pose proof (view_outside _ _ Hv2) as Hout2. destruct Hv2 as ((Hch2 & _ & Hlp2 & _ & Hi2 & _) & Hsk2 & _).
  assert (chans w2 !! ch = Some (Channel_ctor fd)) as Hc2.
  { rewrite Hch2. cbn. by rewrite lookup_insert_eq. }
  rewrite runs_bind. eapply runs_mono.
  { exact (runs_and _ _ _ _ (run_op_spec (EnableReading ch) (Channel_ctor fd) w2 Hs2 Hc2)
      (run_op_kernel (EnableReading ch) (Channel_ctor fd) w2 Hs2 Hc2)). }
  cbn beta. intros _ w3 [(Hs3 & Hf3 & Hch3 & Hout3) Hk3]. cbn [op_target] in Hch3.
  assert (chans w3 !! ch = Some (op_channel (EnableReading ch) (Channel_ctor fd))) as Hc3.
  { by rewrite Hch3, lookup_insert_eq. }
  obj_steps. cbn [chans on_chans] in *.
  split; [done|]. split.
  2:{ change (kernel w3 = (watch_call w EPOLL_CTL_ADD fd ch (flags_set fd (kernel w1))).2).
      assert (epfd w2 = epfd w) as He by (unfold epfd; by rewrite Hlp2).
      unfold watch_call. rewrite Hk3, <- Hfl, <- He. reflexivity. }
  split.
  - repeat (eapply sound_upd_chan; [|cbn; rewrite ?lookup_insert_eq; done|done..]). done.
  - cbn. by rewrite (frame_socks _ _ Hf3), Hsk2.
  - cbn. rewrite Hch3, Hch2. cbn. by rewrite !insert_insert_eq.
  - change (op_outcome (EnableReading ch) (Channel_ctor fd) (interest w2) (interest w3)) in Hout3.
    unfold watched. change (interest w1) with (interest w) in Hi2. rewrite Hi2 in Hout3.
    cbn in Hout3. destruct Hout3 as [?|[_ ?]]; [by left|by right].
  - pose proof (frame_outside _ _ Hf3) as Ho3. rewrite <- Hout2 in Ho3. exact Ho3.
Qed.
End Construction.

(** ** Accepting *)

Section Accepting.
Context {K U : Type} `{KernelLaws (option ptr) K} `{UserCode K U} `{InetAddr} `{Host}.
Implicit Type w : World K U.
Abbreviation M := (prog (World K U)).

(** [accept] after the error switch. *)
Definition admit_connection (connfd : Z) (addr : sockaddr_in) : M unit :=
  newSocket ← Socket_ctor connfd;
  Socket.setAddr newSocket addr ;;
  message ← server ts_messageCallback;
  Socket.setMessageCallback newSocket (UserCallback <$> message) ;;
  complete ← server ts_writeCompleteCallback;
  Socket.setWriteCompleteCallback newSocket (UserCallback <$> complete) ;;
  Socket.setCloseCallback newSocket (Some TcpServer_connectionClose) ;;
  newfd ← Socket.getFD newSocket;
  connections_insert newfd newSocket ;;
  chan ← Socket.getChan newSocket;
  EventLoop.updateChannel chan ;;
  connected ← server ts_connectionCallback;
  call_user connected newSocket ;;
  release newSocket.

(** The socket of a new connection. *)
Definition accepted_socket (t : TcpServer U) (fd : Z) (ch : ptr) (addr : sockaddr_in) : Socket U :=
  mkSocket Buffer_init Buffer_init (UserCallback <$> ts_messageCallback t)
    (Some TcpServer_connectionClose) (UserCallback <$> ts_writeCompleteCallback t) addr fd ch 1.

(** The world a connection on [fd] is announced in: the new socket and channel,
    the entry of the map, and what the kernel made of the registration. *)
Record admitted w (fd : Z) (addr : sockaddr_in) w' : Prop := mkAdmitted {
  ad_sound : epoll_sound w';
  ad_socks : socks w' = <[next_ptr w :=
    with_use_count 2 (accepted_socket (the_server w) fd (Pos.succ (next_ptr w)) addr)]> (socks w);
  ad_chans : chans w' = <[Pos.succ (next_ptr w) := new_channel fd (next_ptr w)]> (chans w);
  ad_server : the_server w' = with_connections (<[fd := next_ptr w]> (connections_ (the_server w))) (the_server w);
  ad_watched : watched w w' fd (Pos.succ (next_ptr w));
  ad_kernel : k_open (kernel w') = k_open (kernel w) /\ k_sent (kernel w') = k_sent (kernel w);
  ad_calls : kernel w' = let ch := Pos.succ (next_ptr w) in
    (watch_call w EPOLL_CTL_MOD fd ch (watch_call w EPOLL_CTL_ADD fd ch (flags_set fd (kernel w))).2).2;
  ad_loop : loop_static (the_loop w') = loop_static (the_loop w)
}.

(** Up to the call of the user, with the socket still owned by the local
    [shared_ptr] too; and the call. *)
Definition build_connection (connfd : Z) (addr : sockaddr_in) : M ptr :=
  newSocket ← Socket_ctor connfd;
  Socket.setAddr newSocket addr ;;
  message ← server ts_messageCallback;
  Socket.setMessageCallback newSocket (UserCallback <$> message) ;;
  complete ← server ts_writeCompleteCallback;
  Socket.setWriteCompleteCallback newSocket (UserCallback <$> complete) ;;
  Socket.setCloseCallback newSocket (Some TcpServer_connectionClose) ;;
  newfd ← Socket.getFD newSocket;
  connections_insert newfd newSocket ;;
  chan ← Socket.getChan newSocket;
  EventLoop.updateChannel chan ;;
  mret newSocket.

Definition announce (newSocket : ptr) : M unit :=
  connected ← server ts_connectionCallback;
  call_user connected newSocket ;;
  release newSocket.

Lemma admit_connection_split fd addr w :
  admit_connection fd addr w = (build_connection fd addr ≫= announce) w.
Proof.
  unfold admit_connection, build_connection.
  do 11 (rewrite bind_assoc; apply bind_ext; intros ? ? _). done.
Qed.

Lemma runs_call_looks u s w (Q : unit -> World K U -> Prop) :
  looks_only u -> is_Some (socks w !! s) -> Q tt w -> runs (call_user (Some u) s) w Q.
Proof.
  intros Hu Hs HQ. unfold call_user. run_steps. rewrite runs_unwrap. exists u. split; [done|].
  unfold runs. by rewrite Hu.
Qed.

(** Registering a channel that has just been registered for input. *)
Lemma update_again_spec w fd this ch :
  epoll_sound w -> chans w !! ch = Some (new_channel fd this) ->
  runs (EventLoop.updateChannel ch : M unit) w (fun _ w' =>
    epoll_sound w' /\ chans w' = chans w /\ socks w' = socks w /\ outside_kept w w'
    /\ watched w w' fd ch /\ kernel w' = (watch_call w EPOLL_CTL_MOD fd ch (kernel w)).2).
Proof.
  intros Hs Hc. eapply runs_mono.
  { apply runs_and; [by apply (updateChannel_spec ch (new_channel fd this))|
      apply (updateChannel_kernel ch (new_channel fd this)); [right; by left|done]]. }
  cbn beta. intros _ w' [(Hs' & Hf & Hch & Hout) Hk]. split; [done|].
  split; [by rewrite Hch; apply insert_id|]. split; [by apply frame_socks|].
  split; [by apply frame_outside|]. split; [|done]. cbn in Hout. destruct Hout as [?|[_ ?]]; [by left|by right].
Qed.

Lemma build_connection_spec fd addr w :
  epoll_sound w -> heap_room w -> connections_ (the_server w) !! fd = None ->
  runs (build_connection fd addr) w (fun this w' => this = next_ptr w /\ admitted w fd addr w').
Proof.
  intros Hsnd Hroom Hfree. unfold build_connection. rewrite runs_bind.
  eapply runs_mono; [by apply Socket_ctor_spec|]. cbn beta.
  intros this w1 (-> & [Hs1 Hsk1 Hch1 Hw1 Hout1] & Hk1).
  set (this := next_ptr w) in *. set (ch := Pos.succ this) in *.
  assert (socks w1 !! this = Some (new_socket fd ch)) as Ho1 by (by rewrite Hsk1, lookup_insert_eq).
  destruct Hout1 as (Hsrv1 & Hop1 & Hst1 & Hl1).
  unfold Socket.setAddr, Socket.setMessageCallback, Socket.setWriteCompleteCallback,
    Socket.setCloseCallback, Socket.getFD, Socket.getChan,
    server, connections_insert, connections, set_connections.
  obj_steps. cbn [the_server on_socks so_fd with_so_closeCallback with_writeCompleteCallback
    with_messageCallback with_addr new_socket]. rewrite Hsrv1, Hfree.
  obj_steps.
  match goal with |- runs (updateChannel ?p) ?w0 _ => change p with ch; set (w2 := w0) end.
  set (acc := accepted_socket (the_server w) fd ch addr).
  assert (socks w2 = <[this := with_use_count 2 acc]> (socks w)) as Hsk2.
  { cbn. by rewrite Hsk1, !insert_insert_eq. }
  assert (epoll_sound w2) as Hs2 by (by apply (sound_view w1)).
  assert (chans w2 !! ch = Some (new_channel fd this)) as Hc2.
  { cbn. by rewrite Hch1, lookup_insert_eq. }
  assert (epfd w2 = epfd w) as He.
  { change (epfd w2) with (epfd w1). unfold loop_static in Hl1. unfold epfd. congruence. }
  eapply runs_mono; [by apply (update_again_spec w2 fd this ch)|]. cbn beta.
  intros _ w3 (Hs3 & Hch3 & Hsk3 & (Hsrv3 & Hop3 & Hst3 & Hl3) & Hw3 & Hk3). rewrite Hsk2 in Hsk3.
  run_steps. split; [done|]. split.
  - done.
  - done.
  - by rewrite Hch3.
  - rewrite Hsrv3. change (with_connections (<[fd:=this]> (connections_ (the_server w)))
      (the_server w1) = with_connections (<[fd:=this]> (connections_ (the_server w))) (the_server w)).
    by rewrite Hsrv1.
  - unfold watched in *. change (interest w2) with (interest w1) in Hw3.
    destruct Hw1 as [E1|E1], Hw3 as [E3|E3]; rewrite E3, E1; rewrite ?insert_insert_eq; auto.
  - by rewrite Hop3, Hst3.
  - cbn zeta. change (kernel w2) with (kernel w1) in Hk3. unfold watch_call in *.
    by rewrite Hk3, Hk1, He.
  - by rewrite Hl3.
Qed.

Lemma admit_connection_eq fd addr w :
  epoll_sound w -> heap_room w -> connections_ (the_server w) !! fd = None ->
  exists w', admitted w fd addr w' /\ admit_connection fd addr w = announce (next_ptr w) w'.
Proof.
  intros Hs Hroom Hfree. pose proof (build_connection_spec fd addr w Hs Hroom Hfree) as Hb. unfold runs in Hb.
  rewrite admit_connection_split. unfold mbind, prog_bind.
  destruct (build_connection fd addr w) as [[this w']|f]; [|done]. destruct Hb as [-> Hb]. by exists w'.
Qed.

(** A user who only looks is told, and the local reference goes. *)
Lemma announce_looks u fd addr w w' :
  admitted w fd addr w' -> ts_connectionCallback (the_server w) = Some u -> looks_only u ->
  announce (next_ptr w) w' = Ok (tt, on_socks <[next_ptr w :=
    accepted_socket (the_server w) fd (Pos.succ (next_ptr w)) addr]> w').
Proof.
  intros Ha Hu Hlook. set (acc := accepted_socket _ _ _ _).
  assert (socks w' !! next_ptr w = Some (with_use_count 2 acc)) as Hs
    by (by rewrite (ad_socks _ _ _ _ Ha), lookup_insert_eq).
  assert (runs (announce (next_ptr w)) w' (fun _ w2 => w2 = on_socks <[next_ptr w := acc]> w')) as Hr.
  { unfold announce, server. run_steps. rewrite (ad_server _ _ _ _ Ha).
    cbn [ts_connectionCallback with_connections]. rewrite Hu.
    apply runs_call_looks; [done|by rewrite Hs|].
    by rewrite (runs_release_kept (next_ptr w) (with_use_count 2 acc)) by (rewrite ?Hs; done). }
  unfold runs in Hr. destruct (announce _ _) as [[[] w2]|]; [by subst|done].
Qed.

(** The interest list after the two registrations of a descriptor that was in none. *)
Lemma registered_interest w w' fd ch :
  epfd w' = epfd w -> interest w !! fd = None ->
  let registration := watch_call w EPOLL_CTL_ADD fd ch (flags_set fd (kernel w)) in
  kernel w' = (watch_call w EPOLL_CTL_MOD fd ch registration.2).2 ->
  interest w' = match registration.1 with
                | SysOk _ => <[fd := EpollEvent kReadEvent (Some ch)]> (interest w)
                | SysErr _ => interest w
                end.
Proof.
  intros He Hno registration Hk. unfold interest at 1. rewrite He, Hk. unfold watch_call at 1.
  set (ev := EpollEvent kReadEvent (Some ch)).
  pose proof (law_ctl (epfd w) EPOLL_CTL_ADD fd ev (flags_set fd (kernel w))) as Hadd.
  pose proof (law_ctl (epfd w) EPOLL_CTL_MOD fd ev registration.2) as Hmod.
  assert (k_interest (flags_set fd (kernel w)) = k_interest (kernel w)) as Hq.
  { unfold flags_set. by repeat rewrite (proj1 (proj2 (quiet_view (SysFcntl _ _ _) _ eq_refl))). }
  change (sys_exec _ (flags_set fd (kernel w))) with registration in Hadd.
  destruct registration as [r1 k1]. cbn [snd] in *.
  destruct (sys_exec (SysEpollCtl (epfd w) EPOLL_CTL_MOD fd ev) k1) as [r2 k2].
  destruct Hadd as (_ & _ & _ & Hadd), Hmod as (_ & _ & _ & Hmod). cbn [fst snd] in *. rewrite Hq in Hadd.
  change (k_interest (kernel w) (epfd w)) with (interest w) in Hadd.
  destruct r1; [destruct Hadd as [_ Hadd]|]; (destruct r2; [destruct Hmod as [Hin Hmod]|]); rewrite ?Hmod, Hadd;
    rewrite ?insert_insert_eq; try done.
  - rewrite Hadd in Hin. fold (interest w) in Hin. rewrite Hno in Hin. by destruct Hin.
Qed.

(** [accept] up to the error switch, and the rest of it. *)
Lemma accept_eq a o w :
  acceptor (the_server w) = Some a -> socks w !! a = Some o ->
  let answer := sys_exec (SysAccept (so_fd o)) (kernel w) in
  TcpServer.accept w =
    match answer.1 with
    | SysOk (c, addr) => admit_connection c addr (set_kernel answer.2 w)
    | SysErr e =>
        if accept_expected e
        then admit_connection (-1) stale_peer (set_errno e (set_errno e (set_kernel answer.2 w)))
        else Err FatalLog
    end.
Proof.
  intros Ha Ho answer. unfold TcpServer.accept, acceptor_ptr, server, getFD, get_sock, sys, mbind, prog_bind, gets, get_st.
  rewrite Ha. cbn. rewrite Ho. cbn. fold answer.
  destruct answer as [[[c addr]|e] k]; cbn; [done|]. by destruct (accept_expected e).
Qed.

(** C20: A successful [accept] builds one new socket with its channel, set up with
    the server's callbacks and the peer's address, with empty buffers, enters it
    into the map of connections under its descriptor, sets its flags and registers
    it for input: epoll watches it exactly if the kernel granted the registration
    (the second, redundant [updateChannel] is a modification of the first).  Every
    other connection, registration and byte is as it was.  In that world, where the
    map and the local variable own it, the connection callback is called with
    it, and then the local reference is dropped: whatever the callback does is what
    [accept] does from there. *)
Theorem accept_admits_connection a o c addr w :
  epoll_sound w -> heap_room w -> acceptor (the_server w) = Some a -> socks w !! a = Some o ->
  connections_ (the_server w) !! c = None ->
  let answer := sys_exec (SysAccept (so_fd o)) (kernel w) in
  answer.1 = SysOk (c, addr) ->
  let this := next_ptr w in let ch := Pos.succ this in
  let registration := watch_call w EPOLL_CTL_ADD c ch (flags_set c answer.2) in
  exists w1,
    (epoll_sound w1 /\ socks w1 = <[this := with_use_count 2 (accepted_socket (the_server w) c ch addr)]> (socks w)
     /\ chans w1 = <[ch := new_channel c this]> (chans w)
     /\ the_server w1 = with_connections (<[c := this]> (connections_ (the_server w))) (the_server w)
     /\ loop_static (the_loop w1) = loop_static (the_loop w)
     /\ k_open (kernel w1) = {[c]} ∪ k_open (kernel w) /\ k_sent (kernel w1) = k_sent (kernel w)
     /\ kernel w1 = (watch_call w EPOLL_CTL_MOD c ch registration.2).2
     /\ interest w !! c = None
     /\ interest w1 = match registration.1 with
                      | SysOk _ => <[c := EpollEvent kReadEvent (Some ch)]> (interest w)
                      | SysErr _ => interest w
                      end) /\
    TcpServer.accept w = (call_user (ts_connectionCallback (the_server w)) this ;; release this) w1.
Proof.
  intros Hsnd Hroom Ha Ho Hfree answer Hans this ch registration.
  pose proof (law_accept (so_fd o) (kernel w)) as Hlaw. fold answer in Hlaw.
  rewrite (accept_eq a o w) by done. fold answer. destruct answer as [r k] eqn:Eans. cbn [fst snd] in *. subst r.
  destruct Hlaw as (Hi & Hst & _ & Hnew & Hop).
  assert (interest (set_kernel k w) = interest w) as Hi1 by (unfold interest, epfd; cbn; by rewrite Hi).
  assert (epoll_sound (set_kernel k w)) as Hs1 by (by apply (sound_view w)).
  assert (interest w !! c = None) as Hno.
  { destruct (interest w !! c) eqn:E; [|done]. exfalso. apply Hnew.
    apply (law_registered_open (kernel w) (epfd w)). eexists. exact E. }
  destruct (admit_connection_eq c addr (set_kernel k w)) as (w1 & Had & ->); [done..|]. exists w1.
  destruct Had as [Hs' Hsk Hch Hsrv Hw [Hop' Hst'] Hcalls Hl]. split.
  - do 5 (split; [done|]). split; [rewrite Hop'; exact Hop|]. split; [rewrite Hst'; exact Hst|].
    split; [exact Hcalls|]. split; [done|].
    rewrite <- Hi1. apply (registered_interest (set_kernel k w) w1 c ch); [|by rewrite Hi1|exact Hcalls].
    unfold loop_static in Hl. unfold epfd. congruence.
  - unfold announce, server, mbind at 1, prog_bind at 1, gets. cbn beta iota. by rewrite Hsrv.
Qed.

(** A failed [accept] is treated as a connection.  After the errors it means
    to tolerate, [accept] leaves its switch and goes on with descriptor -1: a
    socket for it is built, with an address nothing has been stored in, entered
    into the map of connections, announced to the user, and stays alive with its
    channel, though it is nobody's connection and epoll never watches it. *)
Theorem accept_failure_admits_phantom a o u e w :
  epoll_sound w -> heap_room w -> acceptor (the_server w) = Some a -> socks w !! a = Some o ->
  ts_connectionCallback (the_server w) = Some u -> looks_only u ->
  connections_ (the_server w) !! (-1) = None -> ((-1) ∉ k_open (kernel w)) ->
  (sys_exec (SysAccept (so_fd o)) (kernel w)).1 = SysErr e -> accept_expected e = true ->
  let this := next_ptr w in let ch := Pos.succ this in
  runs TcpServer.accept w (fun _ w' =>
    socks w' = <[this := accepted_socket (the_server w) (-1) ch stale_peer]> (socks w)
    /\ chans w' = <[ch := new_channel (-1) this]> (chans w)
    /\ connections_ (the_server w') = <[-1 := this]> (connections_ (the_server w))
    /\ k_open (kernel w') = k_open (kernel w) /\ interest w' = interest w).
Proof.
  intros Hsnd Hroom Ha Ho Hu Hlook Hfree Hneg Hans Hexp this ch. unfold runs. rewrite (accept_eq a o w), Hans, Hexp by done.
  pose proof (law_accept (so_fd o) (kernel w)) as Hlaw.
  destruct (sys_exec (SysAccept (so_fd o)) (kernel w)) as [r k]. cbn [fst snd] in *. subst r.
  destruct Hlaw as (Hi & _ & Hop). set (w1 := set_errno e (set_errno e (set_kernel k w))).
  assert (interest w1 = interest w) as Hi1 by (unfold interest, epfd; cbn; by rewrite Hi).
  assert (epoll_sound w1) as Hs1 by (by apply (sound_view w)).
  destruct (admit_connection_eq (-1) stale_peer w1) as (w2 & Had & ->); [done..|].
  rewrite (announce_looks u (-1) stale_peer w1) by done. destruct Had as [Hs' Hsk Hch Hsrv Hw [Hop' _] _ _].
  cbn. rewrite Hsk, Hch, Hsrv, insert_insert_eq. do 3 (split; [done|]). split; [rewrite Hop'; exact Hop|].
  change (interest w2 = interest w). destruct Hw as [Hw|Hw]; [by rewrite Hw, Hi1|]. exfalso. apply Hneg.
  rewrite <- Hop. change (elem_of (-1) (k_open (kernel w1))). rewrite <- Hop'.
  apply (law_registered_open (kernel w2) (epfd w2)). change (is_Some (interest w2 !! (-1))).
  rewrite Hw, lookup_insert_eq. by eexists.
Qed.

(** Any other error of [::accept] ends the process: [LOG(FATAL)] aborts in
    both remaining branches of the switch, the errors it calls unexpected and
    those it calls unknown, before any object is created. *)
Theorem accept_aborts_on_other_errors a o e w :
  acceptor (the_server w) = Some a -> socks w !! a = Some o ->
  (sys_exec (SysAccept (so_fd o)) (kernel w)).1 = SysErr e ->
  ~ (e ∈ [EAGAIN; ECONNABORTED; EINTR; EPROTO; EPERM; EMFILE]) ->
  ends TcpServer.accept w FatalLog.
Proof.
  intros Ha Ho Hans Hne. unfold TcpServer.accept, acceptor_ptr, server, Socket.getFD.
  apply ends_bind_runs. obj_steps. rewrite Ha, runs_unwrap. exists a. split; [done|].
  apply ends_bind_runs. obj_steps. apply ends_bind_runs. rewrite runs_sys, Hans.
  apply ends_bind_l. unfold accept_expected. rewrite bool_decide_eq_false_2 by done. done.
Qed.
End Accepting.

(** ** Witnesses *)

Lemma newConn_looks_only : looks_only (K := DK) newConn.
Proof.
  intros s w [o Hs]. unfold run_user, main_code, getAddr.
  rewrite (bind_Ok _ _ _ (addr_ o) w); [done|].
  by rewrite (bind_Ok _ _ _ _ _ (get_sock_Ok s o w Hs)).
Defined.

(** The acceptor is socket 1; the next connection will be socket 3, channel 4. *)
Definition calling : DW := listening (scripted [] [] [SysOk (7, peer)] []).
Definition nobody : DW := listening (scripted [] [] [SysErr EAGAIN] []).
Definition no_memory : DW := listening (scripted [] [] [SysErr ENOMEM] []).
Definition sock1 (w : DW) : Socket main_fn := default demo_sock (socks w !! 1%positive).

Ltac server_witness :=
  lazymatch goal with
  | |- epoll_sound _ => apply epoll_soundb_ok; vm_compute; reflexivity
  | |- heap_room _ => split; vm_compute; reflexivity
  | |- looks_only _ => exact newConn_looks_only
  | |- _ = _ => vm_compute; reflexivity
  | |- ~ (_ ∈ [_; _; _; _; _; _]) => apply (bool_decide_eq_false_1 _); vm_compute; reflexivity
  | |- ~ _ => let Hin := fresh in intros Hin; vm_compute in Hin; discriminate Hin
  end.

(** The kernel accepts descriptor 7 and grants its registration. *)
Lemma accept_admits_connection_witness :
  exists w1,
    (epoll_sound w1
     /\ socks w1 = <[3%positive := with_use_count 2 (accepted_socket (the_server calling) 7 4%positive peer)]> (socks calling)
     /\ chans w1 = <[4%positive := new_channel 7 3%positive]> (chans calling)
     /\ connections_ (the_server w1) = <[7 := 3%positive]> (connections_ (the_server calling))
     /\ interest w1 = <[7 := EpollEvent kReadEvent (Some 4%positive)]> (interest calling))
    /\ TcpServer.accept calling = (call_user (Some newConn) 3%positive ;; release 3%positive) w1.
Proof.
  assert (exists o, socks calling !! 1%positive = Some o /\ so_fd o = 4) as (o & Ho & Hfd)
    by (vm_compute; eexists; split; reflexivity).
  assert ((sys_exec (SysAccept (so_fd o)) (kernel calling)).1 = SysOk (7, peer)) as Hans
    by (rewrite Hfd; vm_compute; reflexivity).
  destruct (accept_admits_connection 1 o 7 peer calling) as (w1 & Hw & Hacc); try assumption; try server_witness.
  exists w1. destruct Hw as (Hs & Hsk & Hch & Hsrv & _ & _ & _ & _ & _ & Hi). split; [|exact Hacc].
  split; [exact Hs|]. split; [exact Hsk|]. split; [exact Hch|]. split; [rewrite Hsrv; reflexivity|].
  assert ((watch_call calling EPOLL_CTL_ADD 7 4 (flags_set 7
    (sys_exec (SysAccept (so_fd o)) (kernel calling)).2)).1 = SysOk tt) as Hreg
    by (rewrite Hfd; vm_compute; reflexivity).
  change (Pos.succ (next_ptr calling)) with 4%positive in Hi. rewrite Hreg in Hi. exact Hi.
Defined.

Lemma accept_failure_admits_phantom_witness :
  runs TcpServer.accept nobody (fun _ w' =>
    socks w' = <[next_ptr nobody := accepted_socket (the_server nobody) (-1)
         (Pos.succ (next_ptr nobody)) stale_peer]> (socks nobody)
    /\ chans w' = <[Pos.succ (next_ptr nobody) := new_channel (-1) (next_ptr nobody)]> (chans nobody)
    /\ connections_ (the_server w') = <[-1 := next_ptr nobody]> (connections_ (the_server nobody))
    /\ k_open (kernel w') = k_open (kernel nobody) /\ interest w' = interest nobody).
Proof.
  apply (accept_failure_admits_phantom 1 (sock1 nobody) newConn EAGAIN nobody); server_witness.
Defined.

Lemma accept_aborts_on_other_errors_witness : ends TcpServer.accept no_memory FatalLog.
Proof.
  apply (accept_aborts_on_other_errors 1 (sock1 no_memory) ENOMEM no_memory); server_witness.
Defined.
