(* ===== verification/Iteration.v ===== *)
(** * Iteration: one pass of the event loop over clients of the example server

    [poll] reports some connections as readable; the loop calls their channels,
    these the sockets, and these the [message] callback of main.cpp.  The theorem
    is about the whole of [loop_body]. *)

From S2P Require Import Prelude Bytes Buffer BufferSpec Kernel World WorldSpec Poller EventLoop Channel Callbacks Socket PollerTheorems TcpServer Reactor.
From S2P Require Import ScriptKernel Main Scenarios Registration LoopTheorems SocketTheorems ConnectionTheorems ServerTheorems.

(** A connection: its socket's address, the socket and its channel. *)
Record client := Client { cl_sock : ptr; cl_socket : Socket main_fn; cl_chan : Channel }.

Definition cl_fd (x : client) : Z := fd_ (cl_chan x).
Definition cl_channel (x : client) : ptr := chan_ (cl_socket x).

Section Clients.
Context {K : Type} `{KernelLaws (option ptr) K} `{InetAddr} `{Host}.
Implicit Type w : World K main_fn.
Abbreviation M := (prog (World K main_fn)).

(** A connection that can be answered: set up as [accept] does, with room in its
    buffers. *)
Record ready w (x : client) : Prop := mkReady {
  rd_conn : connection w (cl_sock x) (cl_socket x) (cl_chan x);
  rd_room : room_to_read (cl_socket x);
  rd_count : 0 < use_count (cl_socket x);
  rd_space : writerIndex_ (outputBuffer_ (cl_socket x)) + 9 <= vector_max_size;
  rd_message : so_messageCallback (cl_socket x) = Some (UserCallback message);
  rd_read : readCallback_ (cl_chan x) = Some (Socket_handleRead (cl_sock x))
}.

(** From [k] on, the kernel gives each client in turn some input and takes the
    whole of the reply. *)
Fixpoint serves (k : K) (cl : list client) : Prop :=
  match cl with
  | [] => True
  | x :: cl' =>
      let '(r, k1) := readv (cl_fd x) (readFd_iov (writableBytes (inputBuffer_ (cl_socket x)))) k in
      let '(n, k2) := sys_exec (SysWrite (cl_fd x) greeting) k1 in
      (exists data, r = SysOk data /\ data <> []) /\ n = SysOk 9 /\ serves k2 cl'
  end.

(** The client was answered: its input is taken, its output is as it was, and the
    peer has been sent the greeting. *)
Definition was_answered w w' (x : client) : Prop :=
  exists o' c', connection w' (cl_sock x) o' c' /\ fd_ c' = cl_fd x /\
    contents (inputBuffer_ o') = [] /\ queued_output o' = queued_output (cl_socket x) /\
    o' = with_outputBuffer (outputBuffer_ o') (with_inputBuffer (inputBuffer_ o') (cl_socket x)) /\
    sent w' (cl_fd x) = sent w (cl_fd x) ++ greeting.

(** What serving [cl] leaves alone. *)
Record others_kept w w' (cl : list client) : Prop := mkOthers {
  ok_socks s : (forall x, x ∈ cl -> cl_sock x <> s) -> socks w' !! s = socks w !! s;
  ok_chans p : (forall x, x ∈ cl -> cl_channel x <> p) -> chans w' !! p = chans w !! p;
  ok_sent fd : (forall x, x ∈ cl -> cl_fd x <> fd) -> sent w' fd = sent w fd;
  ok_loop : the_loop w' = the_loop w;
  ok_server : the_server w' = the_server w;
  ok_interest : interest w' = interest w
}.

Lemma others_trans w w1 w2 x cl :
  others_kept w w1 [x] -> others_kept w1 w2 cl -> others_kept w w2 (x :: cl).
Proof.
  intros [S1 C1 F1 L1 V1 I1] [S2 C2 F2 L2 V2 I2].
  split; [intros s Hs|intros p Hp|intros fd Hf|congruence..].
  - rewrite S2, S1; [done| |]; intros y Hy; apply Hs; set_solver.
  - rewrite C2, C1; [done| |]; intros y Hy; apply Hp; set_solver.
  - rewrite F2, F1; [done| |]; intros y Hy; apply Hf; set_solver.
Qed.

(** A channel with only input calls its read callback between marking and
    unmarking itself. *)
Lemma runs_input_event ch c s t w (Q : World K main_fn -> Prop) :
  chans w !! ch = Some c -> readCallback_ c = Some (Socket_handleRead s) -> due (revents_ c) = [OnRead] ->
  let c1 := with_eventHandling true c in
  runs (handleRead s t) (on_chans <[ch := c1]> w) (fun _ w' =>
    chans w' !! ch = Some c1 /\ Q (on_chans <[ch := with_eventHandling false c1]> w')) ->
  runs (handleEvent ch t : M unit) w (fun _ => Q).
Proof.
  intros Hc Hcb Hdue c1 Hrun. unfold due in Hdue. rewrite <- !test_flag_lor in Hdue.
  unfold handleEvent, Channel.handleEvent.
  destruct (test_flag (revents_ c) EPOLLHUP && negb (test_flag (revents_ c) EPOLLIN)) eqn:E1,
    (test_flag (revents_ c) EPOLLERR) eqn:E2,
    (test_flag (revents_ c) (Z.lor EPOLLIN (Z.lor EPOLLPRI EPOLLRDHUP))) eqn:E3,
    (test_flag (revents_ c) EPOLLOUT) eqn:E4; try discriminate Hdue.
  repeat (heap_step; cbn [revents_ with_eventHandling]; rewrite ?E1, ?E2, ?E3; cbn [when_]).
  cbn [readCallback_ with_eventHandling]. rewrite Hcb. cbn [call_if run_read].
  eapply runs_mono; [exact Hrun|]. cbn beta. intros _ w' [Hc' HQ].
  rewrite runs_bind, runs_get_chan. exists c1. split; [done|]. cbn [revents_ with_eventHandling c1]. rewrite E4.
  cbn [when_]. rewrite runs_bind, runs_ret, runs_upd_chan. by exists c1.
Qed.

Lemma serves_sent fd iov k r k1 n k2 fd' :
  readv fd iov k = (r, k1) -> sys_exec (SysWrite fd greeting) k1 = (n, k2) -> fd <> fd' ->
  k_sent k fd' = k_sent k2 fd'.
Proof.
  intros Hr Hw Hne. unfold readv in Hr.
  destruct (law_quiet (SysReadv fd iov) k eq_refl) as (_ & _ & Hs). rewrite Hr in Hs.
  pose proof (law_write fd greeting k1) as Hlaw. rewrite Hw in Hlaw. destruct Hlaw as (_ & _ & Hlaw).
  cbn in Hs. rewrite <- Hs. destruct n as [n|]; [|by rewrite Hlaw].
  destruct Hlaw as (_ & _ & Hlaw). by rewrite Hlaw.
Qed.

(** One client. *)
Lemma serve_client x cl t w :
  epoll_sound w -> ready w x -> due (revents_ (cl_chan x)) = [OnRead] -> serves (kernel w) (x :: cl) ->
  runs (handleEvent (cl_channel x) t : M unit) w (fun _ w' =>
    epoll_sound w' /\ others_kept w w' [x] /\ was_answered w w' x /\ serves (kernel w') cl).
Proof.
  intros Hsnd [Hcn Hroom Hcount Hspace Hmsg Hread] Hdue Hserve. pose proof Hcn as [Hs Hc Hin Hout].
  cbn [serves] in Hserve.
  destruct (readv _ _ (kernel w)) as [r k1] eqn:Hr. destruct (sys_exec _ k1) as [n k2] eqn:Hw.
  destruct Hserve as ((data & -> & Hne) & -> & Hrest).
  apply (runs_input_event _ (cl_chan x) (cl_sock x)); [done..|].
  set (c1 := with_eventHandling true (cl_chan x)). set (w1 := on_chans _ w).
  assert (connection w1 (cl_sock x) (cl_socket x) c1) as Hcn1.
  { split; [done| |done..]. cbn. by rewrite lookup_insert_eq. }
  assert (read_answer w1 (cl_socket x) c1 = (SysOk data, k1)) as Hans by exact Hr.
  eapply runs_mono.
  { apply (message_is_answered (cl_sock x) (cl_socket x) c1 data t w1); try done.
    - by rewrite Hans.
    - rewrite Hans. cbn [snd]. change (fd_ c1) with (cl_fd x). by rewrite Hw. }
  cbn beta. rewrite Hans. cbn [snd]. change (fd_ c1) with (cl_fd x). rewrite Hw. cbn [snd].
  intros _ w2 (o' & Hcn2 & Hk & Hsk & Hnil & Hq & Hrest' & Hst & Hker).
  pose proof Hk as (Hch & _ & Hlp & Hsv & Hi & _).
  assert (chan_ o' = cl_channel x) as Hcho by by rewrite Hrest'.
  assert (chans w2 !! cl_channel x = Some c1) as Hc2 by (rewrite Hch; apply lookup_insert_eq).
  split; [done|]. split; [|split; [|split]].
  - apply (sound_upd_chan _ _ c1); [|done..]. apply (heap_kept_sound w1); [done|].
    by apply (sound_upd_chan _ _ (cl_chan x)).
  - split; try done.
    + intros s Hne'. cbn. rewrite Hsk. cbn. rewrite lookup_insert_ne; [done|]. apply Hne'. set_solver.
    + intros p Hne'. cbn. rewrite lookup_insert_ne by (apply Hne'; set_solver).
      rewrite Hch. cbn. rewrite lookup_insert_ne; [done|]. apply Hne'. set_solver.
    + intros fd Hne'. change (k_sent (kernel w2) fd = sent w fd). rewrite Hker.
      rewrite <- (serves_sent (cl_fd x) _ (kernel w) _ _ _ _ fd Hr Hw); [done|]. apply Hne'. set_solver.
  - exists o', (with_eventHandling false c1). split.
    { destruct Hcn2 as [? _ ? ?]. split; try done. cbn. rewrite Hcho. apply lookup_insert_eq. }
    do 4 (split; [done|]). exact Hst.
  - cbn. by rewrite Hker.
Qed.

(** Clients on other descriptors are other sockets with other channels. *)
Lemma ready_distinct w x y : ready w x -> ready w y -> cl_fd x <> cl_fd y ->
  cl_sock x <> cl_sock y /\ cl_channel x <> cl_channel y.
Proof.
  intros [[Hsx Hcx _ _] _ _ _ _ _] [[Hsy Hcy _ _] _ _ _ _ _] Hne. unfold cl_fd, cl_channel in *.
  split; intros E; apply Hne; congruence.
Qed.

Lemma ready_kept w w' x y :
  others_kept w w' [x] -> ready w x -> ready w y -> cl_fd x <> cl_fd y -> ready w' y.
Proof.
  intros [Hs Hc _ _ _ _] Hx Hy Hne. destruct (ready_distinct w x y Hx Hy Hne) as [Hns Hnc].
  destruct Hy as [[? ? ? ?] ? ? ? ? ?]. split; try done. split; [|rewrite Hc|done..].
  - rewrite Hs; [done|]. intros z ->%list_elem_of_singleton. done.
  - done.
  - intros z ->%list_elem_of_singleton. done.
Qed.

(** Serving others leaves an answered client answered. *)
Lemma answered_kept w w1 w2 x cl :
  was_answered w w1 x -> others_kept w1 w2 cl ->
  (forall y, y ∈ cl -> cl_sock y <> cl_sock x /\ cl_channel y <> cl_channel x /\ cl_fd y <> cl_fd x) ->
  was_answered w w2 x.
Proof.
  intros (o' & c' & [Hs Hc Hi Ho] & Hf & Hn & Hq & Hr & Hsent) [Hsk Hch Hse _ _ _] Hcl.
  exists o', c'. split; [split; [| |done..]|].
  - rewrite Hsk; [done|]. intros y Hy. by apply Hcl.
  - rewrite Hch; [done|]. intros y Hy. rewrite Hr. by apply Hcl.
  - do 4 (split; [done|]). rewrite Hse; [done|]. intros y Hy. by apply Hcl.
Qed.

(** Being answered is about what the peer had been sent before. *)
Lemma answered_from w w1 w2 x : sent w1 (cl_fd x) = sent w (cl_fd x) -> was_answered w1 w2 x -> was_answered w w2 x.
Proof. intros E. unfold was_answered. by rewrite E. Qed.

Lemma others_nil w : others_kept w w [].
Proof. done. Qed.

(** All of them, in the order of the list. *)
Lemma serve_clients cl t w :
  epoll_sound w -> Forall (ready w) cl -> Forall (fun x => due (revents_ (cl_chan x)) = [OnRead]) cl ->
  NoDup (map cl_fd cl) -> serves (kernel w) cl ->
  runs (for_each (fun p => handleEvent p t : M unit) (map cl_channel cl)) w (fun _ w' =>
    epoll_sound w' /\ others_kept w w' cl /\ Forall (was_answered w w') cl).
Proof.
  revert w. induction cl as [|x cl IH]; intros w Hsnd Hready Hdue Hnd Hserve; cbn [map for_each].
  { rewrite runs_ret. split; [done|]. split; [apply others_nil|constructor]. }
  apply Forall_cons in Hready as [Hx Hready]. apply Forall_cons in Hdue as [Hdx Hdue].
  cbn [map] in Hnd. apply NoDup_cons in Hnd as [Hnx Hnd].
  assert (forall y, y ∈ cl -> cl_fd x <> cl_fd y) as Hfd.
  { intros y Hy E. apply Hnx. rewrite E. by apply list_elem_of_fmap_2. }
  rewrite runs_bind. eapply runs_mono; [by apply (serve_client x cl)|cbn beta].
  intros _ w1 (Hsnd1 & Hk1 & Hans & Hserve1). rewrite Forall_forall in Hready.
  eapply runs_mono; [apply (IH w1)|cbn beta]; try done.
  { apply Forall_forall. intros y Hy. by apply (ready_kept w w1 x y); auto. }
  intros _ w2 (Hsnd2 & Hk2 & Hall). split; [done|]. split; [by eapply others_trans|]. constructor.
  - eapply answered_kept; [done|done|]. intros y Hy.
    destruct (ready_distinct w x y Hx (Hready y Hy) (Hfd y Hy)) as [? ?]. specialize (Hfd y Hy). done.
  - eapply Forall_impl; [apply Forall_and; split; [exact Hall|apply Forall_forall; intros y Hy; exact Hy]|].
    intros y [Hy Hin]. eapply answered_from; [|exact Hy]. apply Hk1. intros z ->%list_elem_of_singleton.
    by apply Hfd.
Qed.

(** ** The poll in front *)

(** Computations that make no system call. *)
Definition same_kernel {A} (m : M A) : Prop := forall w a w', m w = Ok (a, w') -> kernel w' = kernel w.

Lemma same_bind {A B} (m : M A) (k : A -> M B) :
  same_kernel m -> (forall a, same_kernel (k a)) -> same_kernel (m ≫= k).
Proof.
  intros Hm Hk w b w2. unfold mbind, prog_bind. destruct (m w) as [[a w1]|] eqn:E; [|done].
  intros E2. rewrite (Hk _ _ _ _ E2). by apply (Hm _ _ _ E).
Qed.

Lemma same_ret {A} (a : A) : same_kernel (mret a : M A).
Proof. by intros w a' w' [= _ <-]. Qed.
Lemma same_gets {A} (f : World K main_fn -> A) : same_kernel (gets f).
Proof. by intros w a' w' [= _ <-]. Qed.
Lemma same_get_st : same_kernel get_st.
Proof. by intros w a' w' [= _ <-]. Qed.
Lemma same_unwrap {A} f (o : option A) : same_kernel (unwrap f o).
Proof. destruct o; [apply same_ret|done]. Qed.
Lemma same_lift {A} (r : result A) : same_kernel (lift r).
Proof. intros w a w'. unfold lift. by destruct r; [intros [= _ <-]|]. Qed.
Lemma same_assert b : same_kernel (assert_storage b).
Proof. destruct b; [apply same_ret|done]. Qed.
Lemma same_modify f : (forall w, kernel (f w) = kernel w) -> same_kernel (modify f).
Proof. intros Hf w a w' [= _ <-]. apply Hf. Qed.

Lemma same_when b m : same_kernel m -> same_kernel (when_ b m).
Proof. by destruct b; [|intros _; apply same_ret]. Qed.

Create HintDb same_db.
#[local] Hint Resolve same_ret same_gets same_get_st same_unwrap same_lift same_assert : same_db.
Ltac same_steps :=
  repeat first [ solve [auto with same_db] | apply same_modify; by intros ? | apply same_when
               | apply same_bind; [|intros ?] | case_match ].

Lemma same_fill n i active : same_kernel (fill_loop n i active).
Proof.
  revert i active. induction n as [|n IH]; intros i active; cbn [fill_loop]; [apply same_ret|].
  unfold poller, upd_chan, get_chan. same_steps.
Qed.

#[local] Hint Resolve same_fill : same_db.

(** The kernel after the two calls of [poll]. *)
Definition polled (timeout : Z) w : K :=
  (sys_exec SysTime (sys_exec (SysEpollWait (epfd w) (int32 (zlen (slots w))) timeout) (kernel w)).2).2.

Lemma bind_sys {A B} (c : syscall (option ptr) A) (k : sysres A -> M B) w :
  (sys c ≫= k) w = k (sys_exec c (kernel w)).1 (after_sys (sys_exec c (kernel w)).1 (sys_exec c (kernel w)).2 w).
Proof. unfold mbind, prog_bind, sys, after_sys. by destruct (sys_exec c (kernel w)) as [[?|?] ?]. Qed.

Lemma poll_kernel timeout active w x w' : poll timeout active w = Ok (x, w') -> kernel w' = polled timeout w.
Proof.
  intros E. unfold poll, poller in E. rewrite (bind_Ok _ _ _ _ _ eq_refl), bind_sys in E.
  rewrite (bind_Ok _ _ _ _ _ eq_refl), bind_sys, kernel_after_sys in E. fold (slots w) (epfd w) in E.
  set (w2 := after_sys _ (sys_exec SysTime _).2 _) in E.
  assert (kernel w2 = polled timeout w) as <- by apply kernel_after_sys.
  revert E. match goal with |- ?m w2 = _ -> _ => cut (same_kernel m); [intros Hm; apply Hm|] end.
  clear w2. unfold fillActiveChannels, upd_poller, poller. same_steps.
Qed.

(** An event that reports only input on the channel of [x], and [x] with the event
    stored in its channel. *)
Definition input_event (ev : epoll_event (option ptr)) (x : client) : Prop :=
  ev_data ev = Some (cl_channel x) /\ due (int32 (ev_events ev)) = [OnRead].
Definition reported (ev : epoll_event (option ptr)) (x : client) : client :=
  Client (cl_sock x) (cl_socket x) (with_revents (int32 (ev_events ev)) (cl_chan x)).

Lemma deliver_other evs cl chs p :
  Forall2 input_event evs cl -> (forall x, x ∈ cl -> cl_channel x <> p) -> deliver evs chs !! p = chs !! p.
Proof.
  intros Hev. revert chs. induction Hev as [|ev x evs cl [Hd _] _ IH]; intros chs Hp; cbn; [done|].
  rewrite Hd, IH.
  - apply lookup_alter_ne. apply Hp. by left.
  - intros y Hy. apply Hp. by right.
Qed.

Lemma deliver_reported evs cl chs :
  Forall2 input_event evs cl -> NoDup (map cl_channel cl) ->
  Forall (fun x => chs !! cl_channel x = Some (cl_chan x)) cl ->
  Forall (fun x => deliver evs chs !! cl_channel x = Some (cl_chan x)) (zip_with reported evs cl).
Proof.
  intros Hev. revert chs. induction Hev as [|ev x evs cl [Hd _] Hev IH]; intros chs Hnd Hchs; cbn; [constructor|].
  cbn [map] in Hnd. apply NoDup_cons in Hnd as [Hx Hnd]. apply Forall_cons in Hchs as [Hc Hchs].
  assert (forall y, y ∈ cl -> cl_channel y <> cl_channel x) as Hne.
  { intros y Hy E. apply Hx. rewrite <- E. by apply list_elem_of_fmap_2. }
  rewrite Hd. constructor.
  - rewrite (deliver_other evs cl) by done. change (cl_channel (reported ev x)) with (cl_channel x).
    by rewrite lookup_alter_eq, Hc.
  - apply IH; [done|]. rewrite Forall_forall in Hchs |- *. intros y Hy.
    rewrite lookup_alter_ne by (by apply not_eq_sym, Hne). by apply Hchs.
Qed.

Lemma zip_reported {B} (f : client -> B) evs cl :
  Forall2 input_event evs cl -> (forall ev x, f (reported ev x) = f x) ->
  map f (zip_with reported evs cl) = map f cl.
Proof. intros Hev Hf. induction Hev; cbn; [done|]. by rewrite Hf, IHHev. Qed.

Lemma serves_reported k evs cl :
  Forall2 input_event evs cl -> serves k cl -> serves k (zip_with reported evs cl).
Proof.
  intros Hev. revert k. induction Hev as [|ev x evs cl _ _ IH]; intros k; [done|]. cbn.
  change (cl_fd (reported ev x)) with (cl_fd x). destruct (readv _ _ k) as [r k1].
  destruct (sys_exec _ k1) as [n k2]. intros (? & ? & ?). auto.
Qed.

(** What holds of the reported client holds of the client. *)
Lemma forall_reported (P : client -> Prop) evs cl :
  Forall2 input_event evs cl -> (forall ev x, P (reported ev x) -> P x) ->
  Forall P (zip_with reported evs cl) -> Forall P cl.
Proof.
  intros Hev HP. induction Hev; cbn; [done|]. intros [Hx Hl]%Forall_cons. constructor; eauto.
Qed.

Lemma elem_reported evs cl y :
  Forall2 input_event evs cl -> y ∈ zip_with reported evs cl -> exists x ev, x ∈ cl /\ y = reported ev x.
Proof.
  intros Hev. induction Hev as [|ev x evs cl _ _ IH]; cbn; [by intros ?%not_elem_of_nil|].
  intros [->|Hy]%elem_of_cons.
  - exists x, ev. split; [by left|done].
  - destruct (IH Hy) as (x' & ev' & Hx & ->). exists x', ev'. split; [by right|done].
Qed.

Lemma ready_channels w cl : Forall (ready w) cl -> NoDup (map cl_fd cl) -> NoDup (map cl_channel cl).
Proof.
  induction 1 as [|x cl Hx Hcl IH]; cbn [map]; [constructor|]. intros [Hn Hnd]%NoDup_cons.
  apply NoDup_cons. split; [|auto]. intros (y & E & Hy)%list_elem_of_fmap.
  rewrite Forall_forall in Hcl. destruct (ready_distinct w x y) as [_ Hc]; [done|auto| |done].
  intros E'. apply Hn. rewrite E'. by apply list_elem_of_fmap_2.
Qed.

(** After the poll the clients are as ready as before, with their events stored. *)
Lemma ready_polled evs cl w w2 :
  Forall2 input_event evs cl -> Forall (ready w) cl -> NoDup (map cl_fd cl) ->
  socks w2 = socks w -> chans w2 = deliver evs (chans w) ->
  Forall (ready w2) (zip_with reported evs cl) /\
  Forall (fun x => due (revents_ (cl_chan x)) = [OnRead]) (zip_with reported evs cl).
Proof.
  intros Hev Hready Hnd Hsk Hch. split.
  - assert (Forall (fun x => chans w !! cl_channel x = Some (cl_chan x)) cl) as Hchs.
    { eapply Forall_impl; [exact Hready|]. by intros x [[]]. }
    pose proof (deliver_reported evs cl (chans w) Hev (ready_channels w cl Hready Hnd) Hchs) as Hdel.
    rewrite <- Hch in Hdel. rewrite Forall_forall in Hready. rewrite Forall_forall in Hdel |- *. intros y Hy.
    specialize (Hdel y Hy). destruct (elem_reported _ _ _ Hev Hy) as (x & ev & Hx & ->).
    destruct (Hready x Hx) as [[? ? ? ?] ? ? ? ? ?]. split; try done. split; [by rewrite Hsk|done..].
  - clear -Hev. induction Hev as [|ev x evs cl [_ Hd] _ IH]; cbn; by constructor.
Qed.

Lemma input_channels evs cl : Forall2 input_event evs cl -> omap ev_data evs = map cl_channel cl.
Proof. induction 1 as [|ev x evs cl [Hd _] _ IH]; cbn; [done|]. by rewrite Hd, IH. Qed.

(** What no client has, no reported client has. *)
Lemma reported_elsewhere {B} evs cl (Hev : Forall2 input_event evs cl) (f : client -> B) b :
  (forall ev x, f (reported ev x) = f x) -> (forall x, x ∈ cl -> f x <> b) ->
  forall y, y ∈ zip_with reported evs cl -> f y <> b.
Proof. intros Hf Hb y Hy. destruct (elem_reported _ _ _ Hev Hy) as (x & ev & Hx & ->). rewrite Hf. auto. Qed.

(** C6: one pass of the event loop serves everybody who is waiting.  When [poll]
    reports input on the connections [cl] of the example server, the kernel gives
    each of them something to read and takes each reply, and nothing was queued,
    [loop_body] returns: every one of these connections has its input taken and has
    been sent the greeting once, after all it had been sent before; every other
    socket, channel and stream, the server and the registrations are as they were. *)
Theorem iteration_answers_clients evs cl fuel w :
  epoll_sound w -> 0 < zlen (slots w) -> 2 * zlen (slots w) <= event_list_max ->
  queue w = [] -> wait_answer kPollTimeMs w = SysOk evs -> Forall2 input_event evs cl ->
  Forall (ready w) cl -> NoDup (map cl_fd cl) -> serves (polled kPollTimeMs w) cl ->
  runs (loop_body fuel) w (fun _ w' =>
    epoll_sound w' /\ Forall (was_answered w w') cl /\
    (forall s, (forall x, x ∈ cl -> cl_sock x <> s) -> socks w' !! s = socks w !! s) /\
    (forall p, (forall x, x ∈ cl -> cl_channel x <> p) -> chans w' !! p = chans w !! p) /\
    (forall fd, (forall x, x ∈ cl -> cl_fd x <> fd) -> sent w' fd = sent w fd) /\
    the_server w' = the_server w /\ interest w' = interest w /\
    queue w' = [] /\ quit_ (the_loop w') = quit_ (the_loop w)).
Proof.
  intros Hs Hpos Hmax Hq Hans Hev Hready Hnd Hserve. unfold loop_body. run_steps.
  set (w1 := on_loop (K:=K) (U:=main_fn) (with_activeChannels []) w).
  rewrite runs_loop_state. change (activeChannels_ (the_loop w1)) with (@nil ptr).
  destruct (runs_inv _ _ _ (poll_spec kPollTimeMs [] w1 ltac:(by apply (sound_view w)) Hpos Hmax))
    as ([now active] & w2 & E & Hs2 & Hst & Hpost).
  pose proof (poll_kernel _ _ _ _ _ E) as Hker. change (polled kPollTimeMs w1) with (polled kPollTimeMs w) in Hker.
  run_steps. unfold runs at 1. rewrite E. clear E. cbv beta iota zeta.
  change (wait_answer kPollTimeMs w1) with (wait_answer (K:=K) (U:=main_fn) kPollTimeMs w) in Hpost.
  rewrite Hans in Hpost. destruct Hpost as (-> & _ & Hch & _).
  unfold poll_static in Hst. injection Hst as Hsk Hnx Hsv _ Hin Hse Hlp Hqt _ _ Hpend Hepf _.
  change (chans w1) with (chans w) in Hch.
  cbn [app]. rewrite (input_channels evs cl Hev). rewrite runs_bind, runs_modify. set (w3 := on_loop _ w2).
  destruct (ready_polled evs cl w w3 Hev Hready Hnd Hsk Hch) as [Hready3 Hdue3].
  set (cl3 := zip_with reported evs cl) in *.
  assert (map cl_channel cl3 = map cl_channel cl) as Hchs by by apply zip_reported.
  rewrite runs_bind. apply (runs_print (map cl_channel cl)); [done| |].
  { rewrite <- Hchs. apply Forall_fmap. eapply Forall_impl; [exact Hready3|]. intros x [[_ Hc _ _]]. by eexists. }
  rewrite runs_bind, runs_loop_state, runs_bind, runs_loop_state, runs_bind.
  change (activeChannels_ (the_loop w3)) with (map cl_channel cl). rewrite <- Hchs.
  eapply runs_mono; [apply (serve_clients cl3 _ w3)|cbn beta].
  - by apply (sound_view w2).
  - done.
  - done.
  - unfold cl3. by rewrite (zip_reported cl_fd evs cl) by done.
  - change (kernel w3) with (kernel w2). rewrite Hker. by apply serves_reported.
  - intros _ w4 (Hs4 & [Ksk Kch Ksent Klp Ksv Kint] & Hall). apply runs_pending_nil.
    { unfold queue in *. rewrite Klp. change (pendingFunctors_ (the_loop w3)) with (pendingFunctors_ (the_loop w2)).
      by rewrite Hpend. }
    pose proof (fun B => reported_elsewhere (B:=B) evs cl Hev) as Hback. fold cl3 in Hback.
    split; [done|]. split.
    { apply (forall_reported (was_answered w w4) evs cl Hev); [intros ev x Ha; exact Ha|].
      eapply Forall_impl; [exact Hall|]. intros x Ha.
      apply (answered_from w w3); [|exact Ha]. unfold sent. cbn. by rewrite Hse. }
    split; [|split; [|split; [|split; [|split; [|split]]]]].
    + intros s Hn. rewrite Ksk; [by cbn; rewrite Hsk|]. by apply Hback.
    + intros p Hn. rewrite Kch by by apply Hback. cbn. rewrite Hch. by apply (deliver_other evs cl).
    + intros fd Hn. rewrite Ksent by by apply Hback. unfold sent. cbn. by rewrite Hse.
    + by rewrite Ksv.
    + rewrite Kint. unfold interest, epfd. cbn. by rewrite Hin, Hepf.
    + unfold queue in *. rewrite Klp. cbn. by rewrite Hpend.
    + rewrite Klp. exact Hqt.
Qed.
End Clients.

(** ** Two clients at once *)

Definition two_clients : DW :=
  exec (TcpServer.accept ;; TcpServer.accept)
    (listening (scripted [SysOk hi; SysOk hi] [] [SysOk (7, peer); SysOk (8, peer)]
       [SysOk [(7, EPOLLIN); (8, EPOLLIN)]])).

Definition client_at (s ch : ptr) : client :=
  Client s (default demo_sock (socks two_clients !! s)) (default (Channel_ctor 0) (chans two_clients !! ch)).

Lemma client_at_ready s ch :
  (s = 3%positive /\ ch = 4%positive) \/ (s = 5%positive /\ ch = 6%positive) -> ready two_clients (client_at s ch).
Proof.
  intros [[-> ->]|[-> ->]]; (split; [split|..]);
    lazymatch goal with |- wf _ => apply wfb_ok | _ => idtac end; conn_witness.
Defined.

Lemma iteration_answers_clients_witness :
  let x := client_at 3 4 in
  let y := client_at 5 6 in
  runs (loop_body 0) two_clients (fun _ w' =>
    epoll_sound w' /\ Forall (was_answered two_clients w') [x; y] /\
    (forall s, (forall z, z ∈ [x; y] -> cl_sock z <> s) -> socks w' !! s = socks two_clients !! s) /\
    (forall p, (forall z, z ∈ [x; y] -> cl_channel z <> p) -> chans w' !! p = chans two_clients !! p) /\
    (forall fd, (forall z, z ∈ [x; y] -> cl_fd z <> fd) -> sent w' fd = sent two_clients fd) /\
    the_server w' = the_server two_clients /\ interest w' = interest two_clients /\
    queue w' = [] /\ quit_ (the_loop w') = quit_ (the_loop two_clients)).
Proof.
  intros x y.
  apply (iteration_answers_clients [EpollEvent EPOLLIN (Some 4%positive); EpollEvent EPOLLIN (Some 6%positive)]).
  - conn_witness.
  - conn_witness.
  - conn_witness.
  - conn_witness.
  - conn_witness.
  - repeat constructor; vm_compute; reflexivity.
  - constructor; [apply client_at_ready; auto|constructor; [apply client_at_ready; auto|constructor]].
  - apply (bool_decide_unpack _). vm_compute. exact I.
  - vm_compute. split; [exists hi; split; [reflexivity|discriminate]|]. split; [reflexivity|].
    split; [exists hi; split; [reflexivity|discriminate]|]. split; [reflexivity|exact I].
Defined.
