(* ===== verification/NetHost.v ===== *)
(** * NetHost: what the epoll programs under src/net share

    serv2.cpp and net.cpp store a descriptor in the [data] union of their epoll
    events and keep a fixed array of 100 events.  Their state is the kernel,
    [errno], that array and what was printed of the bytes received. *)

From S2P Require Import Prelude Bytes Kernel.

Definition max_events : Z := 100.

Record net_state (K : Type) := NetState {
  n_kernel : K;
  n_errno : Z;
  (** [struct epoll_event events[100]]; [None] is an element never written *)
  n_events : list (option (epoll_event Z));
  n_printed : list (list byte)
}.
Arguments NetState {K}.
Arguments n_kernel {K}.
Arguments n_errno {K}.
Arguments n_events {K}.
Arguments n_printed {K}.

(** [inet_aton] of <arpa/inet.h>: the address, when the text is one. *)
Class InetAton := inet_aton : string -> option Z.

Section NetHost.
Context {K : Type} `{Kernel Z K}.
Implicit Type s : net_state K.
Abbreviation M := (prog (net_state K)).

Definition with_kernel (k : K) s : net_state K :=
  NetState k (n_errno s) (n_events s) (n_printed s).
Definition with_errno (e : Z) s : net_state K :=
  NetState (n_kernel s) e (n_events s) (n_printed s).
Definition with_event_array (evs : list (option (epoll_event Z))) s : net_state K :=
  NetState (n_kernel s) (n_errno s) evs (n_printed s).
Definition add_printed (line : list byte) s : net_state K :=
  NetState (n_kernel s) (n_errno s) (n_events s) (n_printed s ++ [line]).

Definition nsys {A} (c : syscall Z A) : M (sysres A) := fun s =>
  let '(r, k) := sys_exec c (n_kernel s) in
  Ok (r, match r with
         | SysOk _ => with_kernel k s
         | SysErr e => with_errno e (with_kernel k s)
         end).

(** A call whose result is ignored. *)
Definition call_ {A} (c : syscall Z A) : M unit := _ ← nsys c; mret tt.

(** [write], whose result is ignored.  None of these programs handles SIGPIPE: a
    write that fails with [EPIPE] has ended the process. *)
Definition write_ (fd : Z) (data : list byte) : M unit :=
  r ← nsys (SysWrite fd data);
  match r with
  | SysErr e => if e =? EPIPE then fail SigPipe else mret tt
  | SysOk _ => mret tt
  end.

(** [events[i]] *)
Definition event_at (i : Z) : M (epoll_event Z) :=
  s ← get_st;
  slot ← unwrap (Undefined OutOfBounds) (if i <? 0 then None else n_events s !! Z.to_nat i);
  unwrap (Undefined OtherUB) slot.

(** [epoll_wait(epollfd, events, 100, 100)]: its return value. *)
Definition wait_events (epollfd : Z) : M Z :=
  r ← nsys (SysEpollWait epollfd max_events 100);
  match r with
  | SysOk evs =>
      assert_storage (zlen evs <=? max_events) ;;
      modify (fun s => with_event_array ((Some <$> evs) ++ drop (length evs) (n_events s)) s) ;;
      mret (zlen evs)
  | SysErr _ => mret (-1)
  end.

(** [fcntl(fd, F_SETFL, fcntl(fd, F_GETFL) | O_NONBLOCK)] *)
Definition set_nonblocking (fd : Z) : M unit :=
  flags ← nsys (SysFcntl fd F_GETFL 0);
  call_ (SysFcntl fd F_SETFL (Z.lor (ret_int flags) O_NONBLOCK)).

(** [epoll_ctl] with an event for [fd] that carries [fd]; 0 or -1. *)
Definition epoll_ctl (epollfd : Z) (op : ctl_op) (fd events : Z) : M Z :=
  r ← nsys (SysEpollCtl epollfd op fd (EpollEvent events fd)); mret (ret_unit r).

(** Printing a buffer as a C string: it must hold a zero. *)
Definition print_string (buf : list byte) : M unit :=
  line ← unwrap (Undefined OutOfBounds) (c_string buf); modify (add_printed line).

(** [memset(buf, 0, n)] *)
Definition zero_buf (n : nat) : list byte := replicate n Byte.x00.

(** "nihao" with its terminating zero. *)
Definition nihao : list byte :=
  [Byte.x6e; Byte.x69; Byte.x68; Byte.x61; Byte.x6f; Byte.x00].
End NetHost.
