(* ===== verification/Serv2.v ===== *)
(** * Serv2: the epoll server of net/test/serv2.cpp

    One function, split here at its loops.  [Some code] is a [return code] of
    [main], [None] means that the loop goes on. *)

From S2P Require Import Prelude Bytes Kernel NetHost.

Definition MAXLEN : Z := 128.

Section Serv2.
Context {K : Type} `{Kernel Z K} `{Host} `{InetAton}.
Abbreviation M := (prog (net_state K)).

(** Lines 19-54: [inr (epollfd, listenfd)], or [inl code] for an early return. *)
Definition setup : M (Z + Z * Z) :=
  ep ← nsys SysEpollCreate;
  let epollfd := ret_int ep in
  sock ← nsys SysSocket;
  let listenfd := ret_int sock in
  if listenfd =? -1 then mret (inl 0) else
  flags ← nsys (SysFcntl listenfd F_GETFL 0);
  call_ (SysFcntl listenfd F_SETFL (Z.lor O_NONBLOCK (ret_int flags))) ;;
  reuse ← nsys (SysReuseAddr listenfd);
  if ret_unit reuse =? -1 then mret (inl 0) else
  let '(aton, addr) := match inet_aton "127.0.0.1" with
                       | Some a => (1, a) | None => (0, 0) end in
  if aton =? -1 then mret (inl 0) else
  let servaddr := SockAddr AF_INET (htons (uint16 6543)) addr in
  bound ← nsys (SysBind listenfd servaddr);
  if ret_unit bound =? -1 then mret (inl 0) else
  heard ← nsys (SysListen listenfd 128);
  if ret_unit heard =? -1 then mret (inl 0) else
  added ← epoll_ctl epollfd EPOLL_CTL_ADD listenfd EPOLLIN;
  if added =? -1 then mret (inl (-1)) else mret (inr (epollfd, listenfd)).

(** Lines 61-77: accept until it fails, or returns descriptor 0. *)
Fixpoint accept_loop (fuel : nat) (epollfd listenfd : Z) : M (option Z) :=
  match fuel with
  | O => fail OutOfFuel
  | S fuel' =>
      r ← nsys (SysAccept listenfd);
      match r with
      | SysErr _ => mret None
      | SysOk (connfd, _) =>
          set_nonblocking connfd ;;
          added ← epoll_ctl epollfd EPOLL_CTL_ADD connfd (Z.lor EPOLLIN EPOLLET);
          if added =? -1 then mret (Some (-1))
          else if connfd =? 0 then mret None
          else accept_loop fuel' epollfd listenfd
      end
  end.

(** Lines 99-127: receive into [buf] of 129 bytes; the result is [tag]. *)
Fixpoint recv_loop (fuel : nat) (fd : Z) (buf : list byte) : M bool :=
  match fuel with
  | O => fail OutOfFuel
  | S fuel' =>
      r ← nsys (SysRecv fd (MAXLEN + 1));
      match r with
      | SysOk data =>
          buf' ← lift (mem_write 0 data buf);
          if 0 <? zlen data then
            print_string buf' ;;
            if MAXLEN <=? zlen data then recv_loop fuel' fd buf' else mret true
          else call_ (SysClose fd) ;; mret false
      | SysErr e =>
          if e =? ECONNRESET then call_ (SysClose fd) ;; mret false
          else if (e =? EAGAIN) || (e =? EINTR) then mret true
          else call_ (SysClose fd) ;; mret false
      end
  end.

(** Lines 80-147: one event of a client. *)
Definition client_event (fuel : nat) (epollfd : Z) (ev : epoll_event Z) : M (option Z) :=
  let fd := ev_data ev in
  if test_flag (ev_events ev) EPOLLERR then call_ (SysClose fd) ;; mret None
  else if test_flag (ev_events ev) EPOLLHUP then call_ (SysClose fd) ;; mret None
  else if test_flag (ev_events ev) EPOLLPRI then call_ (SysClose fd) ;; mret None
  else if test_flag (ev_events ev) EPOLLIN then
    tag ← recv_loop fuel fd (zero_buf (Z.to_nat (MAXLEN + 1)));
    if tag : bool then
      r ← epoll_ctl epollfd EPOLL_CTL_MOD fd (Z.lor EPOLLOUT EPOLLET);
      if r =? -1 then mret (Some (-1)) else mret None
    else mret None
  else if test_flag (ev_events ev) EPOLLOUT then
    write_ fd nihao ;;
    r ← epoll_ctl epollfd EPOLL_CTL_MOD fd (Z.lor EPOLLIN EPOLLET);
    if r =? -1 then mret (Some (-1)) else mret None
  else mret None.

(** Lines 59-149: [for (uint32_t loop = 0; loop < nfds; loop++)] from [loop = i];
    the comparison converts [nfds] to unsigned. *)
Fixpoint events_loop (fuel : nat) (epollfd listenfd : Z) (i nfds : Z) : M (option Z) :=
  if i <? uint32 nfds then
    match fuel with
    | O => fail OutOfFuel
    | S fuel' =>
        ev ← event_at i;
        r ← (if listenfd =? ev_data ev then accept_loop fuel' epollfd listenfd
             else client_event fuel' epollfd ev);
        match r with
        | Some code => mret (Some code)
        | None => events_loop fuel' epollfd listenfd (uint32 (i + 1)) nfds
        end
    end
  else mret None.

(** Lines 56-149: one iteration of [while (1)]; the array is a fresh one. *)
Definition server_round (fuel : nat) (epollfd listenfd : Z) : M (option Z) :=
  modify (with_event_array (replicate (Z.to_nat max_events) None)) ;;
  nfds ← wait_events epollfd;
  events_loop fuel epollfd listenfd 0 nfds.

Fixpoint serve (fuel : nat) (epollfd listenfd : Z) : M Z :=
  match fuel with
  | O => fail OutOfFuel
  | S fuel' =>
      r ← server_round fuel' epollfd listenfd;
      match r with
      | Some code => mret code
      | None => serve fuel' epollfd listenfd
      end
  end.

Definition main (fuel : nat) : M Z :=
  r ← setup;
  match r with
  | inl code => mret code
  | inr (epollfd, listenfd) => serve fuel epollfd listenfd
  end.
End Serv2.
