(* ===== verification/Myser.v ===== *)
(** * Myser: the forking epoll server of net/myser2 (net.h, net.cpp, main.cpp)

    [net_loop] calls two functions the sources do not define, [recv_from_cli]
    and [read_from_parent]; they are parameters. *)

From S2P Require Import Prelude Bytes Kernel NetHost.

(** ** The block queue of net.h

    Shared memory obtained from [mmap] and two pointers into it.  Pointers are
    addresses; a [data_block_t*] steps by [sizeof(data_block_t)], 16 bytes on
    x86-64: [fd], [len], and the pointer [self] at the offset of [data].  A block
    is its bytes in memory, as [memcpy] sees it. *)

Definition sizeof_data_block : Z := 16.

Record data_block_queue := DataBlockQueue {
  dbq_head : Z;
  dbq_tail : Z;
  dbq_addr : Z;
  dbq_maxlen : Z
}.

(** [a - b] and [a + n] on [data_block_t*]. *)
Definition ptr_diff (a b : Z) : Z := (a - b) / sizeof_data_block.
Definition ptr_add (a n : Z) : Z := a + n * sizeof_data_block.

Section Queue.
Context `{Host}.
(** The queue and the bytes of its memory. *)
Abbreviation Q := (prog (data_block_queue * list byte)).

(** [pdb->len], a [uint32_t] after the [int fd]. *)
Definition block_len (mem : list byte) (off : Z) : result Z :=
  match mem_read (off + 4) 4 mem with Ok bs => Ok (image_value bs) | Err f => Err f end.

(** The offset of address [p] in the memory of the queue. *)
Definition offset_of (q : data_block_queue) (p : Z) : result Z :=
  if p =? 0 then Err (Undefined NullDeref) else Ok (p - dbq_addr q).

(** [mapped]: the result of [mmap], or [None] for [MAP_FAILED]. *)
Definition create_stack (mapped : option Z) (len : Z) : Q Z :=
  modify (fun '(q, mem) => (DataBlockQueue (dbq_head q) (dbq_tail q)
                              (default (two64 - 1) mapped) (uint32 len), mem)) ;;
  mret (match mapped with Some _ => 0 | None => -1 end).

(** [pop_stack(pdbq, pdb)]: the result and the caller's block. *)
Definition pop_stack (pdb : list byte) : Q (Z * list byte) :=
  '(q, mem) ← get_st;
  if dbq_head q =? dbq_tail q then mret (-1, pdb)
  else
    let cur := ptr_add (dbq_head q) (-4) in
    off ← lift (offset_of q (dbq_head q));
    len ← lift (block_len mem off);
    bytes ← lift (mem_read off (sizeof_data_block + len) mem);
    pdb' ← lift (mem_write 0 bytes pdb);
    modify (fun '(q, mem) => (DataBlockQueue (dbq_head q) cur (dbq_addr q) (dbq_maxlen q), mem)) ;;
    mret (0, pdb').

(** [push_stack(pdbq, pdb)]; [pdb->self] is stored after the copy. *)
Definition push_stack (pdb : list byte) : Q (Z * list byte) :=
  '(q, mem) ← get_st;
  len ← lift (block_len pdb 0);
  if dbq_maxlen q <=? size_t (ptr_diff (dbq_head q) (dbq_tail q) + sizeof_data_block + len)
  then mret (-1, pdb)
  else
    off ← lift (offset_of q (dbq_tail q));
    bytes ← lift (mem_read 0 (sizeof_data_block + len) pdb);
    mem' ← lift (mem_write off bytes mem);
    pdb' ← lift (mem_write 8 (mem_image 8 (dbq_tail q)) pdb);
    modify (fun '(q, _) =>
      (DataBlockQueue (dbq_head q) (ptr_add (dbq_tail q) (sizeof_data_block + len))
         (dbq_addr q) (dbq_maxlen q), mem')) ;;
    mret (0, pdb').
End Queue.

(** ** net.cpp *)

Definition MAX_PID_CNT : nat := 3.

Section Net.
Context {K : Type} `{Kernel Z K} `{Host} `{InetAton}.
Abbreviation M := (prog (net_state K)).

(** [proto_t]: two 32-bit integers in network byte order. *)
Definition sizeof_proto : Z := 8.

(** [readn(fd, bp, len)] with [cnt] bytes to go and [got] stored at [bp]: the
    return value, and what was stored. *)
Fixpoint readn_loop (fuel : nat) (fd len cnt : Z) (got : list byte) : M (Z * list byte) :=
  if 0 <? cnt then
    match fuel with
    | O => fail OutOfFuel
    | S fuel' =>
        r ← nsys (SysRecv fd cnt);
        match r with
        | SysErr e => if e =? EINTR then readn_loop fuel' fd len cnt got else mret (-1, got)
        | SysOk data =>
            if zlen data =? 0 then mret (int32 (len - cnt), got)
            else readn_loop fuel' fd len (cnt - zlen data) (got ++ data)
        end
    end
  else mret (int32 len, got).

Definition readn (fuel : nat) (fd len : Z) : M (Z * list byte) :=
  readn_loop fuel fd len (int32 len) [].

(** [recv_data(fd, data, len)]: after a whole header it reaches the end of a
    function that has to return a value. *)
Definition recv_data (fuel : nat) (fd : Z) : M Z :=
  '(rc, pkg) ← readn fuel fd sizeof_proto;
  if negb (rc =? sizeof_proto) then mret (if rc <? 0 then -1 else 0)
  else let _ := ntohl (uint32 (image_value (take 4 pkg))) in fail (Undefined OtherUB).

(** The globals [einfo.epollfd] and [listenfd] after [init_net]. *)
Record net_globals := NetGlobals { einfo_epollfd : Z; listenfd : Z }.

(** [init_net(count, ip, port)]: its result and the globals. *)
Definition init_net (ip : string) (port : Z) : M (Z * net_globals) :=
  ep ← nsys SysEpollCreate;
  sock ← nsys SysSocket;
  let g := NetGlobals (ret_int ep) (ret_int sock) in
  let fd := listenfd g in
  if fd =? -1 then mret (-1, g) else
  flags ← nsys (SysFcntl fd F_GETFL 0);
  call_ (SysFcntl fd F_SETFL (Z.lor O_NONBLOCK (ret_int flags))) ;;
  reuse ← nsys (SysReuseAddr fd);
  if ret_unit reuse =? -1 then mret (-1, g) else
  let '(aton, addr) := match inet_aton ip with Some a => (1, a) | None => (0, 0) end in
  if aton =? -1 then mret (-1, g) else
  bound ← nsys (SysBind fd (SockAddr AF_INET (htons (uint16 port)) addr));
  if ret_unit bound =? -1 then mret (-1, g) else
  heard ← nsys (SysListen fd 128);
  if ret_unit heard =? -1 then mret (-1, g) else
  added ← epoll_ctl (einfo_epollfd g) EPOLL_CTL_ADD fd EPOLLIN;
  if added =? -1 then mret (-1, g) else mret (0, g).

Definition exit_net (g : net_globals) : M Z :=
  call_ (SysClose (einfo_epollfd g)) ;; call_ (SysClose (listenfd g)) ;; mret 0.

Definition do_add_event (g : net_globals) (fd : Z) : M Z :=
  set_nonblocking fd ;;
  added ← epoll_ctl (einfo_epollfd g) EPOLL_CTL_ADD fd (Z.lor EPOLLIN EPOLLET);
  mret (if added =? -1 then -1 else 0).

Definition do_accept (g : net_globals) (fd : Z) : M Z :=
  r ← nsys (SysAccept fd);
  match r with
  | SysErr _ => mret (-1)
  | SysOk (connfd, _) =>
      set_nonblocking connfd ;;
      added ← epoll_ctl (einfo_epollfd g) EPOLL_CTL_ADD connfd (Z.lor EPOLLIN EPOLLET);
      mret (if added =? -1 then -1 else 0)
  end.

(** [while (!do_accept(listenfd));] *)
Fixpoint accept_all (fuel : nat) (g : net_globals) : M unit :=
  match fuel with
  | O => fail OutOfFuel
  | S fuel' =>
      r ← do_accept g (listenfd g);
      if r =? 0 then accept_all fuel' g else mret tt
  end.

(** [recv_from_cli(fd, tag)] and [read_from_parent(fd, tag)]: the new [tag]. *)
Variable recv_from_cli read_from_parent : Z -> bool -> M bool.

Definition net_event (parent : bool) (g : net_globals) (ev : epoll_event Z) : M (option Z) :=
  let fd := ev_data ev in
  let rearm events : M (option Z) :=
    r ← epoll_ctl (einfo_epollfd g) EPOLL_CTL_MOD fd events;
    mret (if r =? -1 then Some (-1) else None) in
  if test_flag (ev_events ev) EPOLLERR then call_ (SysClose fd) ;; mret None
  else if test_flag (ev_events ev) EPOLLHUP then call_ (SysClose fd) ;; mret None
  else if test_flag (ev_events ev) EPOLLPRI then call_ (SysClose fd) ;; mret None
  else if test_flag (ev_events ev) EPOLLIN then
    tag ← (if parent then recv_from_cli fd true else read_from_parent fd true);
    if tag : bool then rearm (Z.lor EPOLLOUT EPOLLET) else mret None
  else if test_flag (ev_events ev) EPOLLOUT then
    write_ fd nihao ;;
    rearm (Z.lor EPOLLIN EPOLLET)
  else mret None.

(** The loop over the events from index [i], [uint32_t loop < nfds]. *)
Fixpoint net_events (fuel : nat) (parent : bool) (g : net_globals) (i nfds : Z) : M Z :=
  if i <? uint32 nfds then
    match fuel with
    | O => fail OutOfFuel
    | S fuel' =>
        ev ← event_at i;
        r ← (if listenfd g =? ev_data ev then accept_all fuel' g ;; mret None
             else net_event parent g ev);
        match r with
        | Some code => mret code
        | None => net_events fuel' parent g (uint32 (i + 1)) nfds
        end
    end
  else mret 0.

Definition net_loop (fuel : nat) (parent : bool) (g : net_globals) : M Z :=
  nfds ← wait_events (einfo_epollfd g);
  net_events fuel parent g 0 nfds.

(** ** main.cpp *)

(** The first loop of [init_proc]: [g_servers[loop].recv_q] is the null pointer a
    static object starts with, and [create_stack] stores through it. *)
Definition init_proc (recv_q : list (option data_block_queue)) : M Z :=
  for_each (fun q => _ ← unwrap (Undefined NullDeref) q; mret tt) recv_q ;;
  mret 0.

Definition g_servers : list (option data_block_queue) := replicate MAX_PID_CNT None.

(** The code of a child between [fork] and its first event. *)
Definition child (fuel : nat) (g : net_globals) : M Z :=
  _ ← exit_net g; net_loop fuel false g.

(** [main] up to the first [fork]. *)
Definition myser_main (ip : string) : M (Z * net_globals) :=
  r ← init_proc g_servers;
  if negb (r =? 0) then mret (-1, NetGlobals 0 0) else init_net ip 10000.
End Net.
