(* ===== verification/NetTheorems.v ===== *)
(** * NetTheorems: the properties of serv2.cpp and of myser2

    What the servers do when [epoll_wait] fails, how [readn] and the receive loop treat a stream, and
    the arithmetic of the block queue. *)

From S2P Require Import Prelude Bytes Kernel NetHost Myser ScriptKernel.
From S2P Require Serv2.

(** ** Running the calls *)

Section Rules.
Context {K : Type} `{KernelLaws Z K}.
Implicit Type s : net_state K.
Abbreviation M := (prog (net_state K)).

Definition net_after {A} (c : syscall Z A) s : net_state K :=
  let '(r, k) := sys_exec c (n_kernel s) in
  match r with SysOk _ => with_kernel k s | SysErr e => with_errno e (with_kernel k s) end.
Definition net_answer {A} (c : syscall Z A) s : sysres A := (sys_exec c (n_kernel s)).1.

Lemma nsys_eq {A} (c : syscall Z A) s : nsys c s = Ok (net_answer c s, net_after c s).
Proof. unfold nsys, net_answer, net_after. by destruct (sys_exec c (n_kernel s)). Qed.

Lemma net_after_kernel {A} (c : syscall Z A) s : n_kernel (net_after c s) = (sys_exec c (n_kernel s)).2.
Proof. unfold net_after. by destruct (sys_exec c (n_kernel s)) as [[?|?] ?]. Qed.

Lemma net_after_rest {A} (c : syscall Z A) s :
  n_events (net_after c s) = n_events s /\ n_printed (net_after c s) = n_printed s.
Proof. unfold net_after. by destruct (sys_exec c (n_kernel s)) as [[?|?] ?]. Qed.

Lemma bind_eq {A B} (m : M A) (k : A -> M B) s a s' : m s = Ok (a, s') -> (m ≫= k) s = k a s'.
Proof. unfold mbind, prog_bind. by intros ->. Qed.

Lemma call_eq {A} (c : syscall Z A) s : call_ c s = Ok (tt, net_after c s).
Proof. unfold call_. by rewrite (bind_eq _ _ _ _ _ (nsys_eq c s)). Qed.

Lemma bind_inv {A B} (m : M A) (k : A -> M B) s b s2 :
  (m ≫= k) s = Ok (b, s2) -> exists a s1, m s = Ok (a, s1) /\ k a s1 = Ok (b, s2).
Proof. unfold mbind, prog_bind. destruct (m s) as [[a s1]|]; [naive_solver|done]. Qed.

End Rules.

(** ** A failed epoll_wait *)

Section WaitFailure.
Context {K : Type} `{KernelLaws Z K} `{Host} `{InetAton}.
Implicit Type s : net_state K.

Lemma wait_events_failed ep e s :
  net_answer (SysEpollWait ep max_events 100) s = SysErr e ->
  wait_events ep s = Ok (-1, net_after (SysEpollWait ep max_events 100) s).
Proof. intros Ha. unfold wait_events. by rewrite (bind_eq _ _ _ _ _ (nsys_eq _ _)), Ha. Qed.

(** An event slot that makes [net_loop] do nothing. *)
Definition inert (l : Z) (slot : option (epoll_event Z)) : Prop :=
  exists ev, slot = Some ev /\ ev_data ev <> l /\ ev_events ev = 0.

Lemma net_events_inert recv_cli read_parent parent g fuel i s :
  0 <= i -> zlen (n_events s) = max_events -> Forall (inert (listenfd g)) (n_events s) ->
  i <= max_events -> max_events - i < Z.of_nat fuel ->
  ends (net_events recv_cli read_parent fuel parent g i (-1)) s (Undefined OutOfBounds).
Proof.
  intros Hi Hz Hin. revert i Hi. induction fuel as [|fuel IH]; intros i Hi Hle Hf; [lia|].
  unfold max_events in *. cbn [net_events]. change (uint32 (-1)) with 4294967295.
  rewrite (proj2 (Z.ltb_lt _ _)) by lia. unfold ends.
  destruct (decide (i = 100)) as [->|Hne].
  - unfold event_at, mbind, prog_bind, get_st. rewrite (proj2 (Z.ltb_ge 100 0)) by lia.
    rewrite lookup_ge_None_2; [done|]. unfold zlen in Hz. lia.
  - destruct (lookup_lt_is_Some_2 (n_events s) (Z.to_nat i)) as [slot Hslot].
    { unfold zlen in Hz. lia. }
    pose proof (proj1 (Forall_lookup _ _) Hin _ _ Hslot) as (ev & -> & Hd & He).
    rewrite (bind_eq (event_at i) _ s ev s).
    2:{ unfold event_at, mbind, prog_bind, get_st. rewrite (proj2 (Z.ltb_ge i 0)) by lia.
        by rewrite Hslot. }
    rewrite (proj2 (Z.eqb_neq _ _)) by congruence.
    rewrite (bind_eq (net_event _ _ _ _ _) _ s None s).
    2:{ unfold net_event. rewrite He. done. }
    assert (uint32 (i + 1) = i + 1) as -> by (unfold uint32; apply Z.mod_small; lia).
    apply IH; lia.
Qed.

(** Serv2 does not survive a failed [epoll_wait], an interrupted one for
    instance: the comparison of the [uint32_t] loop index with -1 is unsigned,
    so the loop is entered and reads an element of the event array that nobody
    has written. *)
Theorem serv2_wait_failure_is_undefined ep l fuel e s :
  net_answer (SysEpollWait ep max_events 100)
    (with_event_array (replicate (Z.to_nat max_events) None) s) = SysErr e ->
  ends (Serv2.server_round (S fuel) ep l) s (Undefined OtherUB).
Proof.
  intros Ha. set (s1 := with_event_array _ s) in *.
  unfold ends, Serv2.server_round. rewrite (bind_eq _ _ s tt s1) by done.
  rewrite (bind_eq _ _ _ _ _ (wait_events_failed ep e s1 Ha)). set (s2 := net_after _ s1).
  assert (n_events s2 = replicate (Z.to_nat max_events) None) as Hev by apply net_after_rest.
  cbn [Serv2.events_loop]. change (uint32 (-1)) with 4294967295. cbn [Z.ltb Z.compare].
  assert (event_at 0 s2 = Err (Undefined OtherUB)) as Hat.
  { unfold event_at, mbind, prog_bind, get_st. cbn. by rewrite Hev. }
  unfold mbind at 1, prog_bind at 1. by rewrite Hat.
Qed.

(** A child of myser2 leaves the event array behind: it closes the epoll
    descriptor and then waits on it, the wait fails with [EBADF], and the loop,
    which takes -1 for 4294967295 events, walks over the hundred zeroed elements
    of the global array and past its end. *)
Theorem child_walks_off_the_event_array recv_cli read_parent fuel g s :
  listenfd g <> 0 -> (100 < fuel)%nat ->
  n_events s = replicate (Z.to_nat max_events) (Some (EpollEvent 0 0)) ->
  ends (child recv_cli read_parent fuel g) s (Undefined OutOfBounds).
Proof.
  intros Hl Hf Hev. set (ep := einfo_epollfd g).
  set (s1 := net_after (SysClose ep) s). set (s2 := net_after (SysClose (listenfd g)) s1).
  assert (exit_net g s = Ok (0, s2)) as Hexit.
  { unfold exit_net. fold ep. rewrite (bind_eq _ _ _ _ _ (call_eq _ _)). fold s1.
    by rewrite (bind_eq _ _ _ _ _ (call_eq _ _)). }
  assert (~ (ep ∈ k_open (n_kernel s2))) as Hclosed.
  { unfold s2, s1. rewrite !net_after_kernel.
    pose proof (law_close ep (n_kernel s)) as Hl1.
    destruct (sys_exec (SysClose ep) (n_kernel s)) as [r1 k1]. destruct Hl1 as (Ho1 & _). cbn [snd].
    pose proof (law_close (listenfd g) k1) as Hl2.
    destruct (sys_exec (SysClose (listenfd g)) k1) as [r2 k2]. destruct Hl2 as (Ho2 & _). cbn [snd].
    rewrite Ho2, Ho1. set_solver. }
  assert (net_answer (SysEpollWait ep max_events 100) s2 = SysErr EBADF) as Ha.
  { by apply law_wait_closed. }
  unfold ends, child. rewrite (bind_eq _ _ _ _ _ Hexit). unfold net_loop. fold ep.
  rewrite (bind_eq _ _ _ _ _ (wait_events_failed ep EBADF s2 Ha)).
  set (s3 := net_after _ s2).
  assert (n_events s3 = replicate (Z.to_nat max_events) (Some (EpollEvent 0 0))) as Hev3.
  { unfold s3. rewrite (proj1 (net_after_rest _ s2)). unfold s2.
    rewrite (proj1 (net_after_rest _ s1)). unfold s1. by rewrite (proj1 (net_after_rest _ s)). }
  apply net_events_inert; rewrite ?Hev3; try (unfold max_events; lia); [done|].
  apply Forall_replicate. exists (EpollEvent 0 0). split; [done|]. split; [|done]. cbn. congruence.
Qed.
End WaitFailure.

(** ** readn *)

Section Readn.
Context {K : Type} `{KernelLaws Z K}.
Implicit Type s : net_state K.

Inductive read_end := ReadFull | ReadEof | ReadFailed.

(** The answers of the kernel to a request for [cnt] bytes in pieces: the bytes
    that came and how it ended. *)
Inductive delivers (fd : Z) : net_state K -> Z -> list byte -> read_end -> net_state K -> Prop :=
  | dl_full s : delivers fd s 0 [] ReadFull s
  | dl_eof s cnt : 0 < cnt -> net_answer (SysRecv fd cnt) s = SysOk [] ->
      delivers fd s cnt [] ReadEof (net_after (SysRecv fd cnt) s)
  | dl_fail s cnt e : 0 < cnt -> net_answer (SysRecv fd cnt) s = SysErr e -> e <> EINTR ->
      delivers fd s cnt [] ReadFailed (net_after (SysRecv fd cnt) s)
  | dl_intr s cnt bs r s' : 0 < cnt -> net_answer (SysRecv fd cnt) s = SysErr EINTR ->
      delivers fd (net_after (SysRecv fd cnt) s) cnt bs r s' -> delivers fd s cnt bs r s'
  | dl_chunk s cnt data bs r s' : 0 < cnt -> net_answer (SysRecv fd cnt) s = SysOk data ->
      data <> [] -> delivers fd (net_after (SysRecv fd cnt) s) (cnt - zlen data) bs r s' ->
      delivers fd s cnt (data ++ bs) r s'.

Definition readn_result (len : Z) (bs : list byte) (r : read_end) : Z :=
  match r with ReadFull => len | ReadEof => zlen bs | ReadFailed => -1 end.

Lemma recv_fits fd cnt s data :
  0 <= cnt -> net_answer (SysRecv fd cnt) s = SysOk data -> zlen data <= cnt.
Proof. apply law_recv. Qed.

Lemma delivers_length fd s cnt bs r s' :
  delivers fd s cnt bs r s' -> zlen bs <= cnt /\ (r = ReadFull -> zlen bs = cnt).
Proof.
  induction 1 as [|s cnt Hc Ha|s cnt e Hc Ha He|s cnt bs r s' Hc Ha Hd IH
    |s cnt data bs r s' Hc Ha Hne Hd IH]; change (zlen (@nil byte)) with 0.
  - done.
  - split; [lia|done].
  - split; [lia|done].
  - done.
  - pose proof (recv_fits fd cnt s data ltac:(lia) Ha). rewrite zlen_app. split; [lia|].
    intros Hr. apply IH in Hr. lia.
Qed.

Lemma readn_loop_delivers fd len cnt bs r got s s' :
  delivers fd s cnt bs r s' -> 0 <= len < two31 -> zlen got = len - cnt ->
  exists fuel, readn_loop fuel fd len cnt got s = Ok ((readn_result len (got ++ bs) r, got ++ bs), s').
Proof.
  intros Hd Hlen. revert got.
  assert (forall z, 0 <= z <= len -> int32 z = z) as Hint.
  { intros z ?. unfold int32. apply signed_small; lia. }
  induction Hd as [s|s cnt Hc Ha|s cnt e Hc Ha He|s cnt bs r s' Hc Ha Hd IH|s cnt data bs r s' Hc Ha Hne Hd IH];
    intros got Hgot; pose proof (zlen_nonneg got).
  - exists O. cbn. rewrite Hint by lia. by rewrite app_nil_r.
  - exists 1%nat. cbn [readn_loop]. rewrite (proj2 (Z.ltb_lt 0 cnt)) by done.
    rewrite (bind_eq _ _ _ _ _ (nsys_eq _ _)), Ha. cbn. rewrite Hint, app_nil_r by lia. by rewrite Hgot.
  - exists 1%nat. cbn [readn_loop]. rewrite (proj2 (Z.ltb_lt 0 cnt)) by done.
    rewrite (bind_eq _ _ _ _ _ (nsys_eq _ _)), Ha. apply Z.eqb_neq in He. rewrite He.
    by rewrite app_nil_r.
  - destruct (IH got Hgot) as [fuel Hf]. exists (S fuel). cbn [readn_loop].
    rewrite (proj2 (Z.ltb_lt 0 cnt)) by done. by rewrite (bind_eq _ _ _ _ _ (nsys_eq _ _)), Ha.
  - destruct (IH (got ++ data)) as [fuel Hf]; [rewrite zlen_app; lia|]. exists (S fuel).
    cbn [readn_loop]. rewrite (proj2 (Z.ltb_lt 0 cnt)) by done.
    rewrite (bind_eq _ _ _ _ _ (nsys_eq _ _)), Ha.
    assert ((zlen data =? 0) = false) as ->.
    { apply Z.eqb_neq. intros ?%zlen_0_nil. done. }
    by rewrite Hf, <- app_assoc.
Qed.

Lemma readn_loop_inv fd len cnt fuel got s ret out s' :
  0 <= cnt -> readn_loop fuel fd len cnt got s = Ok ((ret, out), s') ->
  exists bs r, delivers fd s cnt bs r s' /\ out = got ++ bs.
Proof.
  revert cnt got s. induction fuel as [|fuel IH]; intros cnt got s Hc; cbn [readn_loop];
    destruct (Z.ltb_spec 0 cnt) as [Hlt|Hge]; try done.
  1,3: intros [= _ <- <-]; exists [], ReadFull; assert (cnt = 0) as -> by lia;
       split; [constructor|by rewrite app_nil_r].
  rewrite (bind_eq _ _ _ _ _ (nsys_eq _ _)).
  destruct (net_answer (SysRecv fd cnt) s) as [data|e] eqn:Ha.
  - pose proof (recv_fits fd cnt s data Hc Ha). destruct (Z.eqb_spec (zlen data) 0) as [Hz|Hnz].
    + intros [= _ <- <-]. exists [], ReadEof. split; [|by rewrite app_nil_r].
      constructor; [done|]. by rewrite Ha, (zlen_0_nil _ Hz).
    + intros (bs & r & Hd & ->)%IH; [|lia]. exists (data ++ bs), r.
      split; [|by rewrite app_assoc]. apply dl_chunk; [done..| |done]. by intros ->.
  - destruct (Z.eqb_spec e EINTR) as [->|Hne].
    + intros (bs & r & Hd & ->)%IH; [|done]. exists bs, r. split; [|done]. by constructor.
    + intros [= _ <- <-]. exists [], ReadFailed. split; [|by rewrite app_nil_r]. by econstructor.
Qed.

Lemma readn_more_fuel n m fd len cnt got s x :
  (n <= m)%nat -> readn_loop n fd len cnt got s = Ok x -> readn_loop m fd len cnt got s = Ok x.
Proof.
  revert m cnt got s. induction n as [|n IH]; intros m cnt got s Hle.
  - destruct m; [done|]. cbn. by destruct (0 <? cnt).
  - destruct m as [|m]; [lia|]. cbn. destruct (0 <? cnt); [|done]. unfold mbind, prog_bind.
    destruct (nsys _ s) as [[r s1]|]; [|done]. destruct r as [data|e]; case_match; try done;
      apply IH; lia.
Qed.

(** C35: [readn] reads exactly what it was asked for.  It returns if and only if
    the kernel ends the transfer, after any mixture of short reads and
    interruptions: with all [len] bytes, stored in the order they came, when
    they arrive; with the number stored when the peer closes first; with -1 on
    any other error; never with more than [len] bytes. *)
Theorem readn_reads_the_stream fd len s out ret s' :
  0 <= len < two31 ->
  ((exists fuel, readn fuel fd len s = Ok ((ret, out), s')) <->
   (exists r, delivers fd s len out r s' /\ ret = readn_result len out r)) /\
  (forall r, delivers fd s len out r s' -> zlen out <= len /\ (r = ReadFull -> zlen out = len)).
Proof.
  intros Hlen. assert (int32 len = len) as Hint by (unfold int32; apply signed_small; lia).
  unfold readn. rewrite Hint.
  assert (forall bs r s2, delivers fd s len bs r s2 ->
    exists fuel, readn_loop fuel fd len len [] s = Ok ((readn_result len bs r, bs), s2)) as Hfwd.
  { intros bs r s2 Hd. apply (readn_loop_delivers fd len len bs r [] s s2 Hd Hlen). rewrite zlen_nil. lia. }
  split; [split|].
  - intros [fuel Hf]. destruct (readn_loop_inv _ _ _ _ _ _ _ _ _ (proj1 Hlen) Hf) as (bs & r & Hd & Ho).
    cbn in Ho. subst bs. exists r. split; [done|]. destruct (Hfwd out r s' Hd) as [fuel2 Hf2].
    assert (forall n m x y, (n <= m)%nat -> readn_loop n fd len len [] s = Ok x ->
      readn_loop m fd len len [] s = Ok y -> x = y) as Hdet.
    { intros n m x y Hnm Hx Hy. rewrite (readn_more_fuel n m fd len len [] s x Hnm Hx) in Hy. congruence. }
    destruct (Nat.le_ge_cases fuel fuel2) as [Hle|Hle].
    + pose proof (Hdet _ _ _ _ Hle Hf Hf2). congruence.
    + pose proof (Hdet _ _ _ _ Hle Hf2 Hf). congruence.
  - intros (r & Hd & ->). by apply Hfwd.
  - intros r. apply delivers_length.
Qed.
End Readn.

(** ** The receive buffer of serv2 *)

Section ReceiveBuffer.
Context {K : Type} `{KernelLaws Z K}.
Implicit Type s : net_state K.

Lemma mem_write_0 (data buf : list byte) :
  zlen data <= zlen buf -> mem_write 0 data buf = Ok (data ++ drop (length data) buf).
Proof. intros. rewrite mem_write_Ok by lia. done. Qed.

Lemma recv_step fuel fd buf data s :
  net_answer (SysRecv fd 129) s = SysOk data -> data <> [] -> zlen data <= zlen buf ->
  let buf' := data ++ drop (length data) buf in
  Serv2.recv_loop (S fuel) fd buf s =
  (print_string buf' ;;
   if 128 <=? zlen data then Serv2.recv_loop fuel fd buf' else mret true) (net_after (SysRecv fd 129) s).
Proof.
  intros Ha Hne Hle buf'. cbn [Serv2.recv_loop]. change (Serv2.MAXLEN + 1) with 129.
  rewrite (bind_eq _ _ _ _ _ (nsys_eq _ _)), Ha, mem_write_0 by done.
  rewrite (bind_eq _ _ _ buf' (net_after (SysRecv fd 129) s)) by done.
  rewrite (proj2 (Z.ltb_lt 0 _)); [done|]. destruct data; [done|]. unfold zlen. cbn. lia.
Qed.

Lemma print_eq line r s : nonzero line ->
  print_string (line ++ Byte.x00 :: r) s = Ok (tt, add_printed line s).
Proof. intros Hl. unfold print_string. by rewrite c_string_nonzero. Qed.

(** Serv2 treats received bytes as a C string in a buffer that need not hold
    one.  A segment of 129 bytes without a zero fills the buffer and is printed
    past its end; after one of 128 bytes the loop receives again into the same
    buffer without clearing it, and a shorter segment is printed with the tail
    of the previous one behind it. *)
Theorem serv2_prints_more_than_it_received fuel fd s d1 d2 :
  let buf := zero_buf (Z.to_nat (Serv2.MAXLEN + 1)) in
  nonzero d1 -> net_answer (SysRecv fd 129) s = SysOk d1 ->
  (zlen d1 = 129 -> ends (Serv2.recv_loop (S fuel) fd buf) s (Undefined OutOfBounds)) /\
  (zlen d1 = 128 -> nonzero d2 -> 0 < zlen d2 < 128 ->
   net_answer (SysRecv fd 129) (add_printed d1 (net_after (SysRecv fd 129) s)) = SysOk d2 ->
   runs (Serv2.recv_loop (S (S fuel)) fd buf) s (fun tag s' =>
     tag = true /\ n_printed s' = n_printed s ++ [d1; d2 ++ drop (length d2) d1])).
Proof.
  intros buf Hn1 Ha1. assert (zlen buf = 129) as Hbuf by done.
  assert (drop 128 buf = [Byte.x00]) as Hend by done. clearbody buf. split.
  - intros Hz. unfold ends.
    rewrite (recv_step fuel fd buf d1) by (done || lia || (intros ->; discriminate Hz)).
    rewrite drop_ge by (unfold zlen in *; lia). rewrite app_nil_r.
    unfold mbind at 1, prog_bind at 1, print_string. by rewrite c_string_unterminated.
  - intros Hz Hn2 Hz2 Ha2. unfold runs.
    rewrite (recv_step (S fuel) fd buf d1) by (done || lia || (intros ->; discriminate Hz)).
    assert (length d1 = 128%nat) as Hl1 by (unfold zlen in Hz; lia). rewrite Hl1, Hend.
    rewrite (bind_eq _ _ _ _ _ (print_eq d1 [] _ Hn1)). rewrite (proj2 (Z.leb_le 128 _)) by lia.
    assert (d2 <> []) as Hne2 by (intros E; rewrite E in Hz2; unfold zlen in Hz2; cbn [length] in Hz2; lia).
    rewrite (recv_step fuel fd (d1 ++ [Byte.x00]) d2) by (done || (rewrite zlen_app; change (zlen [Byte.x00]) with 1; lia)).
    rewrite drop_app_le by (unfold zlen in *; lia). rewrite app_assoc.
    assert (nonzero (d2 ++ drop (length d2) d1)) as Hn.
    { apply Forall_app. split; [done|]. by apply Forall_drop. }
    rewrite (bind_eq _ _ _ _ _ (print_eq _ [] _ Hn)). rewrite (proj2 (Z.leb_gt 128 _)) by lia.
    cbn. split; [done|]. rewrite (proj2 (net_after_rest _ _)). cbn.
    by rewrite (proj2 (net_after_rest _ _)), <- app_assoc.
Qed.
End ReceiveBuffer.

(** ** The block queue *)

Section BlockQueue.
Context `{Host}.

(** An empty queue over fresh memory at address [a], as its two pointers would
    have to be set; nothing in net.h sets them. *)
Definition empty_queue (a maxlen : Z) : data_block_queue := DataBlockQueue a a a maxlen.

(** A block in memory with [n] bytes after its header. *)
Record block (pdb : list byte) (n : Z) : Prop := mkBlock {
  bk_len : block_len pdb 0 = Ok n;
  bk_nonneg : 0 <= n;
  bk_room : sizeof_data_block + n <= zlen pdb
}.

Definition image_of (pdb : list byte) (n : Z) : list byte := slice 0 (sizeof_data_block + n) pdb.

Lemma zlen_image_of pdb n : block pdb n -> zlen (image_of pdb n) = sizeof_data_block + n.
Proof. intros []. apply zlen_slice; unfold sizeof_data_block in *; lia. Qed.

Lemma block_len_splice pdb n mem :
  block pdb n -> sizeof_data_block + n <= zlen mem ->
  block_len (splice 0 (image_of pdb n) mem) 0 = Ok n.
Proof.
  intros Hb Hm. pose proof (zlen_image_of pdb n Hb) as Hz. destruct Hb as [Hl Hn Hr].
  unfold sizeof_data_block in *. unfold block_len in *. rewrite mem_read_Ok in Hl by lia.
  rewrite mem_read_Ok by (rewrite ?zlen_splice; lia). rewrite <- Hl. do 2 f_equal.
  unfold splice. rewrite take_0. cbn [app]. rewrite slice_app_l by lia.
  unfold image_of, sizeof_data_block. change (slice 0 (16 + n) pdb) with (take (Z.to_nat (16 + n)) pdb).
  apply slice_take_l; lia.
Qed.

Lemma push_empty_spec pdb n a maxlen mem :
  block pdb n -> a <> 0 -> zlen mem = maxlen -> maxlen < two32 -> sizeof_data_block + n < maxlen ->
  runs (push_stack pdb) (empty_queue a maxlen, mem) (fun '(r, _) st =>
    r = 0 /\ st = (DataBlockQueue a (a + 16 * (16 + n)) a maxlen, splice 0 (image_of pdb n) mem)).
Proof.
  intros Hb Ha Hm Hmax Hfit. pose proof Hb as [Hl Hn Hr]. unfold sizeof_data_block in *.
  unfold push_stack. run_steps. rewrite Hl. run_steps.
  unfold empty_queue at 1. cbn [dbq_maxlen dbq_head dbq_tail empty_queue].
  unfold ptr_diff, sizeof_data_block. rewrite Z.sub_diag, Z.div_0_l by lia.
  rewrite size_t_small by lia. rewrite (proj2 (Z.leb_gt _ _)) by lia.
  unfold offset_of. cbn [dbq_addr]. rewrite (proj2 (Z.eqb_neq a 0)) by done. run_steps.
  rewrite mem_read_Ok by lia. run_steps. pose proof (zlen_image_of pdb n Hb) as Hz.
  unfold image_of, sizeof_data_block in *. rewrite Z.sub_diag.
  rewrite mem_write_Ok by lia. run_steps.
  rewrite mem_write_Ok by (rewrite ?zlen_mem_image; lia). run_steps.
  cbn [dbq_head dbq_tail dbq_addr dbq_maxlen empty_queue]. split; [done|].
  unfold ptr_add, sizeof_data_block. do 2 f_equal. cbn. lia.
Qed.

Lemma pop_spec dst pdb n a tail maxlen mem :
  block pdb n -> a <> 0 -> a <> tail -> zlen mem = maxlen -> sizeof_data_block + n < maxlen ->
  sizeof_data_block + n <= zlen dst ->
  runs (pop_stack dst) (DataBlockQueue a tail a maxlen, splice 0 (image_of pdb n) mem)
    (fun '(r, d) st => r = 0 /\ d = splice 0 (image_of pdb n) dst
       /\ st = (DataBlockQueue a (a - 64) a maxlen, splice 0 (image_of pdb n) mem)).
Proof.
  intros Hb Ha Ht Hm Hfit Hd. pose proof (zlen_image_of pdb n Hb) as Hz. pose proof Hb as [_ Hn _].
  unfold pop_stack. run_steps. cbn [dbq_head dbq_tail dbq_addr].
  rewrite (proj2 (Z.eqb_neq a tail)) by done. unfold offset_of. cbn [dbq_addr].
  rewrite (proj2 (Z.eqb_neq a 0)) by done. run_steps. rewrite Z.sub_diag.
  rewrite block_len_splice by (done || lia). run_steps. unfold sizeof_data_block in *.
  rewrite mem_read_Ok by (rewrite ?zlen_splice; lia). run_steps.
  assert (slice 0 (16 + n) (splice 0 (image_of pdb n) mem) = image_of pdb n) as ->.
  { rewrite <- Hz. apply slice_splice_same; lia. }
  rewrite mem_write_Ok by lia. run_steps. do 2 (split; [done|]). do 2 f_equal.
Qed.

(** The queue of net.h does not count in bytes what it checks in bytes.
    After one [push_stack] the tail is sixteen times too far, a second block
    shorter than the first is refused however much room there is, and
    [pop_stack] does not take the block out: it moves the tail to a fixed place
    before the head, so the queue is never empty again and every further pop
    returns the same block. *)
Theorem pushed_block_is_never_popped pdb n dst a maxlen mem :
  block pdb n -> a <> 0 -> zlen mem = maxlen -> maxlen < two32 -> sizeof_data_block + n < maxlen ->
  sizeof_data_block + n <= zlen dst ->
  runs (push_stack pdb) (empty_queue a maxlen, mem) (fun '(r, _) s1 =>
    r = 0 /\ dbq_tail s1.1 = a + 16 * (sizeof_data_block + n)
    /\ (forall pdb2 n2, block pdb2 n2 -> n2 < n ->
          runs (push_stack pdb2) s1 (fun '(r2, _) s2 => r2 = -1 /\ s2 = s1))
    /\ runs (pop_stack dst) s1 (fun '(r1, d1) s2 =>
         r1 = 0 /\ slice 0 (sizeof_data_block + n) d1 = image_of pdb n
         /\ dbq_tail s2.1 < dbq_head s2.1
         /\ runs (pop_stack d1) s2 (fun '(r2, d2) s3 =>
              r2 = 0 /\ slice 0 (sizeof_data_block + n) d2 = image_of pdb n /\ s3 = s2))).
Proof.
  intros Hb Ha Hm Hmax Hfit Hd. pose proof (zlen_image_of pdb n Hb) as Hz. pose proof Hb as [_ Hn _].
  eapply runs_mono; [by apply push_empty_spec|]. cbn beta. intros [r pdb'] s1 [-> ->].
  unfold sizeof_data_block in *. cbn [fst dbq_tail]. do 2 (split; [done|]). split.
  - intros pdb2 n2 [Hl2 Hn2 Hr2] Hlt. unfold sizeof_data_block in *. unfold push_stack. run_steps. rewrite Hl2. run_steps.
    cbn [dbq_maxlen dbq_head dbq_tail]. unfold ptr_diff, sizeof_data_block.
    replace (a - (a + 16 * (16 + n))) with (- (16 + n) * 16) by lia. rewrite Z.div_mul by lia.
    assert (size_t (- (16 + n) + 16 + n2) = two64 + (n2 - n)) as ->.
    { unfold size_t. rewrite <- (Z.mod_add _ 1) by lia. rewrite Z.mod_small; lia. }
    rewrite (proj2 (Z.leb_le _ _)) by lia. by run_steps.
  - eapply runs_mono; [apply (pop_spec dst pdb n); try done; lia|]. cbn beta.
    intros [r1 d1] s2 (-> & -> & ->). split; [done|].
    assert (forall d, 16 + n <= zlen d -> slice 0 (16 + n) (splice 0 (image_of pdb n) d) = image_of pdb n)
      as Hsame.
    { intros d Hdl. rewrite <- Hz. apply slice_splice_same; lia. }
    split; [by apply Hsame|]. cbn [fst dbq_tail dbq_head]. split; [lia|].
    eapply runs_mono; [apply (pop_spec (splice 0 (image_of pdb n) dst) pdb n); try done;
      unfold sizeof_data_block; rewrite ?zlen_splice; lia|].
    cbn beta. intros [r2 d2] s3 (-> & -> & ->). split; [done|]. split; [|done].
    apply Hsame. rewrite zlen_splice; lia.
Qed.
End BlockQueue.

(** ** Witnesses *)

#[local] Instance net_host : Host := LittleEndian.
#[local] Instance net_inet : InetAton := fun _ => Some 16777343.

Definition net_start (rd : list (sysres (list byte))) (wr : list (sysres Z))
  (acc : list (sysres (Z * sockaddr_in))) (wt : list (sysres (list (Z * Z))))
  : net_state (script Z) :=
  NetState (set_scripts 3 rd wr acc wt (idle_kernel 3)) 0
    (replicate (Z.to_nat max_events) (Some (EpollEvent 0 0))) [].

Definition ran {S A} (m : prog S A) (s : S) : S :=
  match m s with Ok (_, s') => s' | Err _ => s end.

Definition client_addr : sockaddr_in := SockAddr AF_INET 80 2130706433.
Definition hello : list byte := [Byte.x68; Byte.x69].

(** serv2 after its set-up, with one client that says hello: epoll is descriptor
    3, the listening socket 4. *)
Definition serv2_up : net_state (script Z) :=
  ran Serv2.setup (net_start [SysOk hello] [] [SysOk (7, client_addr)]
    [SysOk [(4, EPOLLIN)]; SysOk [(7, EPOLLIN)]; SysOk [(7, EPOLLOUT)]; SysErr EINTR]).
Definition serv2_rounds (n : nat) : net_state (script Z) :=
  ran (Nat.iter n (fun m => _ ← Serv2.server_round 5 3 4; m) (mret tt)) serv2_up.

Lemma serv2_wait_failure_is_undefined_witness :
  ends (Serv2.server_round 5 3 4) (serv2_rounds 3) (Undefined OtherUB).
Proof. apply (serv2_wait_failure_is_undefined 3 4 4 EINTR). vm_compute. reflexivity. Defined.

Lemma child_walks_off_the_event_array_witness :
  ends (child (fun _ tag => mret tag) (fun _ tag => mret tag) 101 (NetGlobals 3 4))
    (net_start [] [] [] []) (Undefined OutOfBounds).
Proof. apply child_walks_off_the_event_array; [done|lia|reflexivity]. Defined.

Lemma readn_reads_the_stream_witness :
  let s := serv2_rounds 1 in
  ((exists fuel, readn fuel 7 8 s = Ok ((-1, hello), ran (readn 9 7 8) s)) <->
   (exists r, delivers 7 s 8 hello r (ran (readn 9 7 8) s) /\ -1 = readn_result 8 hello r)) /\
  (forall r, delivers 7 s 8 hello r (ran (readn 9 7 8) s) ->
     zlen hello <= 8 /\ (r = ReadFull -> zlen hello = 8)).
Proof. cbv zeta. apply readn_reads_the_stream. lia. Defined.

Lemma serv2_prints_more_than_it_received_witness :
  let full := replicate 129 Byte.x61 in
  let s := ran (Serv2.server_round 5 3 4) (ran Serv2.setup
    (net_start [SysOk full] [] [SysOk (7, client_addr)] [SysOk [(4, EPOLLIN)]])) in
  ends (Serv2.recv_loop 5 7 (zero_buf (Z.to_nat (Serv2.MAXLEN + 1)))) s (Undefined OutOfBounds).
Proof.
  cbv zeta. apply (serv2_prints_more_than_it_received 4 7 _ (replicate 129 Byte.x61) []).
  - by apply Forall_replicate.
  - vm_compute. reflexivity.
  - reflexivity.
Defined.

(** A block of four bytes of data. *)
Definition small_block : list byte :=
  [Byte.x01; Byte.x00; Byte.x00; Byte.x00; Byte.x04; Byte.x00; Byte.x00; Byte.x00]
  ++ replicate 12 Byte.x61.

Lemma small_block_ok : block small_block 4.
Proof. split; [vm_compute; reflexivity|lia|vm_compute; congruence]. Defined.

Lemma pushed_block_is_never_popped_witness :
  runs (push_stack small_block) (empty_queue 4096 1024, replicate 1024 Byte.x00)
    (fun '(r, _) s1 =>
    r = 0 /\ dbq_tail s1.1 = 4096 + 16 * (sizeof_data_block + 4)
    /\ (forall pdb2 n2, block pdb2 n2 -> n2 < 4 ->
          runs (push_stack pdb2) s1 (fun '(r2, _) s2 => r2 = -1 /\ s2 = s1))
    /\ runs (pop_stack (replicate 20 Byte.x00)) s1 (fun '(r1, d1) s2 =>
         r1 = 0 /\ slice 0 (sizeof_data_block + 4) d1 = image_of small_block 4
         /\ dbq_tail s2.1 < dbq_head s2.1
         /\ runs (pop_stack d1) s2 (fun '(r2, d2) s3 =>
              r2 = 0 /\ slice 0 (sizeof_data_block + 4) d2 = image_of small_block 4 /\ s3 = s2))).
Proof.
  apply (pushed_block_is_never_popped small_block 4); [exact small_block_ok|..];
    vm_compute; congruence.
Defined.
