(* ===== verification/WorkQueue.v ===== *)
(** * WorkQueue: the message queue of net/pthread/pthread_create.c

    [process_msg] and [enqueue_msg] as a step relation between the shared
    memory and one program counter per thread.  A step is one access to shared
    memory or one call of a synchronisation function; threads interleave freely,
    a waiting thread may wake up without a signal, and [malloc], whose result
    [main] does not look at, may fail. *)

From S2P Require Import Prelude.

Abbreviation ptr := positive.
Abbreviation tid := nat.

(** [struct msg]; what [malloc] returns has an indeterminate [m_next]. *)
Record msg := mkMsg { m_next : option (option ptr); m_data : string }.

(** Where a thread is: the next thing it does. *)
Inductive pc :=
  (* process_msg *)
  | CLock                        (* pthread_mutex_lock(&qlock) *)
  | CCheck                       (* while (workq == NULL) *)
  | CWait                        (* blocked in pthread_cond_wait *)
  | CWake                        (* woken, about to take the mutex again *)
  | CTake                        (* mp = workq *)
  | CNext (mp : option ptr)      (* workq = mp->m_next *)
  | CUnlock (mp : ptr)           (* pthread_mutex_unlock(&qlock) *)
  | CPrint (mp : ptr)            (* printf(..., thread, mp->data) *)
  | CFree (mp : ptr)             (* free(mp) *)
  (* main and enqueue_msg; [todo] is what main has still to send *)
  | PNext (todo : list string)             (* malloc, f->data = ... *)
  | PNull (todo : list string)             (* f->data = ..., malloc has returned NULL *)
  | PLock (mp : ptr) (todo : list string)  (* pthread_mutex_lock(&qlock) *)
  | PLink (mp : ptr) (todo : list string)  (* mp->m_next = workq *)
  | PPush (mp : ptr) (todo : list string)  (* workq = mp *)
  | PUnlock (todo : list string)           (* pthread_mutex_unlock(&qlock) *)
  | PSignal (todo : list string)           (* pthread_cond_signal(&qready) *)
  | PJoin.                                 (* pthread_join *)

#[global] Instance pc_eq_dec : EqDecision pc.
Proof. solve_decision. Defined.

Record state := mkState {
  qlock : option tid;
  workq : option ptr;
  heap : gmap ptr msg;
  fresh : ptr;
  threads : list pc;
  printed : list (tid * string)
}.

Definition set_lock o (s : state) : state :=
  mkState o (workq s) (heap s) (fresh s) (threads s) (printed s).
Definition set_workq q (s : state) : state :=
  mkState (qlock s) q (heap s) (fresh s) (threads s) (printed s).
Definition set_heap h (s : state) : state :=
  mkState (qlock s) (workq s) h (fresh s) (threads s) (printed s).
Definition set_pc i p (s : state) : state :=
  mkState (qlock s) (workq s) (heap s) (fresh s) (<[i := p]> (threads s)) (printed s).
Definition bump_fresh (s : state) : state :=
  mkState (qlock s) (workq s) (heap s) (Pos.succ (fresh s)) (threads s) (printed s).
Definition print i d (s : state) : state :=
  mkState (qlock s) (workq s) (heap s) (fresh s) (threads s) (printed s ++ [(i, d)]).

(** What a step does to the queue, seen from outside. *)
Inductive event := Push (d : string) | Pop (d : string).

Inductive step : state -> option event -> state -> Prop :=
  (* process_msg *)
  | c_lock s i : threads s !! i = Some CLock -> qlock s = None ->
      step s None (set_lock (Some i) (set_pc i CCheck s))
  | c_wait s i : threads s !! i = Some CCheck -> workq s = None ->
      step s None (set_lock None (set_pc i CWait s))
  | c_go s i p : threads s !! i = Some CCheck -> workq s = Some p ->
      step s None (set_pc i CTake s)
  | c_spurious s i : threads s !! i = Some CWait ->
      step s None (set_pc i CWake s)
  | c_relock s i : threads s !! i = Some CWake -> qlock s = None ->
      step s None (set_lock (Some i) (set_pc i CCheck s))
  | c_take s i : threads s !! i = Some CTake ->
      step s None (set_pc i (CNext (workq s)) s)
  | c_next s i p m nx : threads s !! i = Some (CNext (Some p)) ->
      heap s !! p = Some m -> m_next m = Some nx ->
      step s (Some (Pop (m_data m))) (set_workq nx (set_pc i (CUnlock p) s))
  | c_unlock s i p : threads s !! i = Some (CUnlock p) -> qlock s = Some i ->
      step s None (set_lock None (set_pc i (CPrint p) s))
  | c_print s i p m : threads s !! i = Some (CPrint p) -> heap s !! p = Some m ->
      step s None (print (S i) (m_data m) (set_pc i (CFree p) s))
  | c_free s i p m : threads s !! i = Some (CFree p) -> heap s !! p = Some m ->
      step s None (set_heap (delete p (heap s)) (set_pc i CLock s))
  (* main *)
  | p_alloc s i d todo : threads s !! i = Some (PNext (d :: todo)) ->
      step s None (bump_fresh (set_heap (<[fresh s := mkMsg None d]> (heap s))
                     (set_pc i (PLock (fresh s) todo) s)))
  | p_nomem s i d todo : threads s !! i = Some (PNext (d :: todo)) ->
      step s None (set_pc i (PNull (d :: todo)) s)
  | p_done s i : threads s !! i = Some (PNext []) ->
      step s None (set_pc i PJoin s)
  (* enqueue_msg *)
  | p_lock s i p todo : threads s !! i = Some (PLock p todo) -> qlock s = None ->
      step s None (set_lock (Some i) (set_pc i (PLink p todo) s))
  | p_link s i p todo m : threads s !! i = Some (PLink p todo) -> heap s !! p = Some m ->
      step s None (set_heap (<[p := mkMsg (Some (workq s)) (m_data m)]> (heap s))
                     (set_pc i (PPush p todo) s))
  | p_push s i p todo m : threads s !! i = Some (PPush p todo) -> heap s !! p = Some m ->
      step s (Some (Push (m_data m))) (set_workq (Some p) (set_pc i (PUnlock todo) s))
  | p_unlock s i todo : threads s !! i = Some (PUnlock todo) -> qlock s = Some i ->
      step s None (set_lock None (set_pc i (PSignal todo) s))
  | p_signal s i j todo : threads s !! i = Some (PSignal todo) -> threads s !! j = Some CWait ->
      step s None (set_pc j CWake (set_pc i (PNext todo) s))
  | p_signal_nobody s i todo : threads s !! i = Some (PSignal todo) ->
      (forall j, threads s !! j <> Some CWait) ->
      step s None (set_pc i (PNext todo) s).

(** The step of one thread as a function, to run schedules; [pthread_cond_signal]
    wakes the first thread that waits, [malloc] succeeds. *)
Definition advance (s : state) (i : tid) : option (option event * state) :=
  p ← threads s !! i;
  match p with
  | CLock => guard (qlock s = None);; Some (None, set_lock (Some i) (set_pc i CCheck s))
  | CCheck =>
      match workq s with
      | None => Some (None, set_lock None (set_pc i CWait s))
      | Some _ => Some (None, set_pc i CTake s)
      end
  | CWait => Some (None, set_pc i CWake s)
  | CWake => guard (qlock s = None);; Some (None, set_lock (Some i) (set_pc i CCheck s))
  | CTake => Some (None, set_pc i (CNext (workq s)) s)
  | CNext mp =>
      x ← mp; m ← heap s !! x; nx ← m_next m;
      Some (Some (Pop (m_data m)), set_workq nx (set_pc i (CUnlock x) s))
  | CUnlock x => guard (qlock s = Some i);; Some (None, set_lock None (set_pc i (CPrint x) s))
  | CPrint x => m ← heap s !! x; Some (None, print (S i) (m_data m) (set_pc i (CFree x) s))
  | CFree x => m ← heap s !! x; Some (None, set_heap (delete x (heap s)) (set_pc i CLock s))
  | PNext [] => Some (None, set_pc i PJoin s)
  | PNext (d :: todo) =>
      Some (None, bump_fresh (set_heap (<[fresh s := mkMsg None d]> (heap s))
                                (set_pc i (PLock (fresh s) todo) s)))
  | PLock x todo => guard (qlock s = None);; Some (None, set_lock (Some i) (set_pc i (PLink x todo) s))
  | PLink x todo =>
      m ← heap s !! x;
      Some (None, set_heap (<[x := mkMsg (Some (workq s)) (m_data m)]> (heap s))
                    (set_pc i (PPush x todo) s))
  | PPush x todo =>
      m ← heap s !! x;
      Some (Some (Push (m_data m)), set_workq (Some x) (set_pc i (PUnlock todo) s))
  | PUnlock todo =>
      guard (qlock s = Some i);; Some (None, set_lock None (set_pc i (PSignal todo) s))
  | PSignal todo =>
      match list_find (eq CWait) (threads s) with
      | Some (j, _) => Some (None, set_pc j CWake (set_pc i (PNext todo) s))
      | None => Some (None, set_pc i (PNext todo) s)
      end
  | PNull _ | PJoin => None
  end.

(** A schedule: who moves, in order; a thread that cannot move is passed over. *)
Fixpoint run_schedule (sched : list tid) (s : state) (tr : list event) : list event * state :=
  match sched with
  | [] => (tr, s)
  | i :: sched' =>
      match advance s i with
      | Some (e, s') => run_schedule sched' s' (tr ++ option_list e)
      | None => run_schedule sched' s tr
      end
  end.

(** A thread about to use a message that is not there, or to unlock a mutex it
    does not hold.  The process dies with the access: such a thread has no step. *)
Definition faulty (s : state) (i : tid) (p : pc) : Prop :=
  match p with
  | CNext None => True
  | CNext (Some mp) => forall m, heap s !! mp = Some m -> m_next m = None
  | CPrint mp | CFree mp | PLink mp _ | PPush mp _ => heap s !! mp = None
  | CUnlock _ | PUnlock _ => qlock s <> Some i
  | PNull _ => True
  | _ => False
  end.

(** [pthread_create] twice, then the loop of [main]: [n] consumers, of which
    the [i]th runs [process_msg (i + 1)], and one thread that sends [messages]. *)
Definition start (n : nat) (messages : list string) : state :=
  mkState None None ∅ 1%positive (replicate n CLock ++ [PNext messages]) [].

Definition main_messages : list string :=
  ["1111"; "2222"; "3333"; "4444"; "5555"; "6666"; "7777"; "8888"; "9999"; "000"]%string.

Definition main_start : state := start 2 main_messages.

(** Executions and the events they produce. *)
Inductive execution (s0 : state) : list event -> state -> Prop :=
  | ex_start : execution s0 [] s0
  | ex_step tr s e s' : execution s0 tr s -> step s e s' ->
      execution s0 (tr ++ option_list e) s'.

(** The stack the queue is meant to be: a trace is legal when every pop takes
    the last message pushed and not yet popped. *)
Fixpoint stack_run (tr : list event) (st : list string) : option (list string) :=
  match tr with
  | [] => Some st
  | Push d :: tr' => stack_run tr' (d :: st)
  | Pop d :: tr' =>
      match st with
      | d' :: st' => if decide (d = d') then stack_run tr' st' else None
      | [] => None
      end
  end.
