(* ===== verification/WorkQueueTheorems.v ===== *)
(** * WorkQueueTheorems: the properties of the message queue

    For every interleaving: mutual exclusion and memory safety, the queue as a
    stack, delivery of every message exactly once, and the length of executions. *)

From S2P Require Import Prelude WorkQueue.

(** ** The invariant of the queue *)

Definition critical (p : pc) : bool :=
  match p with
  | CCheck | CTake | CNext _ | CUnlock _ | PLink _ _ | PPush _ _ | PUnlock _ => true
  | _ => false
  end.

(** The message a thread has to itself, taken from the queue or not yet in it. *)
Definition owns (p : pc) : option ptr :=
  match p with
  | CUnlock x | CPrint x | CFree x | PLock x _ | PLink x _ | PPush x _ => Some x
  | _ => None
  end.

Fixpoint linked (h : gmap ptr msg) (q : option ptr) (l : list ptr) : Prop :=
  match l with
  | [] => q = None
  | x :: l' => q = Some x /\ exists m nx, h !! x = Some m /\ m_next m = Some nx /\ linked h nx l'
  end.

Record inv (l : list ptr) (s : state) : Prop := mkInv {
  i_crit i p : threads s !! i = Some p -> (critical p = true <-> qlock s = Some i);
  i_holder i : qlock s = Some i -> is_Some (threads s !! i);
  i_linked : linked (heap s) (workq s) l;
  i_nodup : NoDup l;
  i_live i p x : threads s !! i = Some p -> owns p = Some x -> is_Some (heap s !! x) /\ x ∉ l;
  i_uniq i j p q x : threads s !! i = Some p -> threads s !! j = Some q ->
    owns p = Some x -> owns q = Some x -> i = j;
  i_fresh x : is_Some (heap s !! x) -> (x < fresh s)%positive;
  i_take i : threads s !! i = Some CTake -> l <> [];
  i_next i mp : threads s !! i = Some (CNext mp) -> mp = workq s /\ l <> [];
  i_push i x todo : threads s !! i = Some (PPush x todo) ->
    exists m, heap s !! x = Some m /\ m_next m = Some (workq s)
}.

Lemma linked_live h q l x : linked h q l -> x ∈ l -> is_Some (h !! x).
Proof.
  revert q. induction l as [|y l IH]; intros q Hl Hx; [by apply not_elem_of_nil in Hx|].
  destruct Hl as (_ & m & nx & Hm & _ & Hl). apply elem_of_cons in Hx as [->|Hx]; [by eexists|].
  by eapply IH.
Qed.

(** The list is not disturbed by changes at addresses outside it. *)
Lemma linked_frame h h' q l :
  linked h q l -> (forall x, x ∈ l -> h' !! x = h !! x) -> linked h' q l.
Proof.
  revert q. induction l as [|y l IH]; intros q Hl Hx; [done|].
  destruct Hl as (-> & m & nx & Hm & Hn & Hl). split; [done|]. exists m, nx.
  rewrite Hx by apply elem_of_cons, or_introl, eq_refl.
  split; [done|]. split; [done|]. apply IH; [done|]. intros x Hin. apply Hx. by right.
Qed.

Ltac at_pc :=
  repeat match goal with
  | H : <[_ := _]> (threads _) !! _ = Some _ |- _ =>
      apply insert_lookup_Some in H as [[-> ?]|[? H]]; [simplify_eq|]
  end.

(** A thread moves on without touching the list or the messages. *)
Lemma inv_move l s i old new o :
  inv l s -> threads s !! i = Some old ->
  (forall j, j <> i -> (o = Some j <-> qlock s = Some j)) -> (critical new = true <-> o = Some i) ->
  owns new = owns old \/ owns new = None ->
  (new = CTake -> l <> []) -> (forall mp, new = CNext mp -> mp = workq s /\ l <> []) ->
  (forall x todo, new <> PPush x todo) ->
  inv l (set_lock o (set_pc i new s)).
Proof.
  intros Hinv Hi Hother Hme Hown Htake Hnext Hpush.
  assert (forall j p x, <[i := new]> (threads s) !! j = Some p -> owns p = Some x ->
    exists p0, threads s !! j = Some p0 /\ owns p0 = Some x) as Hback.
  { intros j p x Hj Hx. at_pc; [|by exists p]. exists old. split; [done|].
    destruct Hown as [E|E]; congruence. }
  split; cbn; try apply Hinv.
  - intros j p Hj. at_pc; [done|]. rewrite Hother by done. by apply (i_crit l s Hinv).
  - intros j Hj. apply insert_is_Some. destruct (decide (j = i)) as [->|Hne]; [by eexists|].
    by apply (i_holder l s Hinv), Hother.
  - intros j p x Hj Hx. destruct (Hback j p x Hj Hx) as (p0 & ? & ?). by eapply (i_live l s Hinv).
  - intros j k p q x Hj Hk Hp Hq. destruct (Hback j p x Hj Hp) as (p0 & ? & ?).
    destruct (Hback k q x Hk Hq) as (q0 & ? & ?). by eapply (i_uniq l s Hinv).
  - intros j Hj. at_pc; [by apply Htake|]. by eapply (i_take l s Hinv).
  - intros j mp Hj. at_pc; [by apply Hnext|]. by eapply (i_next l s Hinv).
  - intros j x todo Hj. at_pc; [by edestruct Hpush|]. by eapply (i_push l s Hinv).
Qed.

(** The same when the mutex does not change hands. *)
Lemma inv_move_same l s i old new :
  inv l s -> threads s !! i = Some old -> critical new = critical old ->
  owns new = owns old \/ owns new = None ->
  (new = CTake -> l <> []) -> (forall mp, new = CNext mp -> mp = workq s /\ l <> []) ->
  (forall x todo, new <> PPush x todo) -> inv l (set_pc i new s).
Proof.
  intros Hinv Hi Hcrit. apply (inv_move l s i old new (qlock s)); [done..|].
  rewrite Hcrit. by apply (i_crit l s Hinv).
Qed.

(** Taking and giving back the mutex. *)
Lemma inv_acquire l s i old new :
  inv l s -> threads s !! i = Some old -> qlock s = None -> critical new = true ->
  owns new = owns old -> new <> CTake -> (forall mp, new <> CNext mp) ->
  (forall x todo, new <> PPush x todo) -> inv l (set_lock (Some i) (set_pc i new s)).
Proof.
  intros Hinv Hi Hfree Hcrit Hown Ht Hn Hp. apply (inv_move l s i old new (Some i)); try done.
  - intros j Hne. rewrite Hfree. split; [congruence|done].
  - by left.
  - intros mp ?. by edestruct Hn.
Qed.

Lemma inv_release l s i old new :
  inv l s -> threads s !! i = Some old -> qlock s = Some i -> critical new = false ->
  owns new = owns old -> new <> CTake -> (forall mp, new <> CNext mp) ->
  (forall x todo, new <> PPush x todo) -> inv l (set_lock None (set_pc i new s)).
Proof.
  intros Hinv Hi Hheld Hcrit Hown Ht Hn Hp. apply (inv_move l s i old new None); try done.
  - intros j Hne. rewrite Hheld. split; [done|congruence].
  - rewrite Hcrit. done.
  - by left.
  - intros mp ?. by edestruct Hn.
Qed.

(** Whoever is inside holds the mutex, so nobody else is inside. *)
Lemma inside_alone l s i j p q :
  inv l s -> threads s !! i = Some p -> threads s !! j = Some q ->
  critical p = true -> critical q = true -> i = j.
Proof.
  intros Hinv Hi Hj Hp Hq. apply (i_crit l s Hinv i p Hi) in Hp.
  apply (i_crit l s Hinv j q Hj) in Hq. congruence.
Qed.

Lemma inv_holds l s i p : inv l s -> threads s !! i = Some p -> critical p = true -> qlock s = Some i.
Proof. intros Hinv Hi. by apply (i_crit l s Hinv). Qed.

(** Changes of the messages that thread [i] makes to one of its own. *)
Lemma inv_pop l s i x m nx :
  inv (x :: l) s -> threads s !! i = Some (CNext (Some x)) -> heap s !! x = Some m ->
  m_next m = Some nx -> inv l (set_workq nx (set_pc i (CUnlock x) s)).
Proof.
  intros Hinv Hi Hm Hn. pose proof (i_nodup _ s Hinv) as [Hx Hnd]%NoDup_cons.
  assert (forall j q, threads s !! j = Some q -> j <> i -> critical q = false) as Hout.
  { intros j q Hj Hne. destruct (critical q) eqn:E; [|done].
    by destruct Hne; eapply (inside_alone _ s j i). }
  destruct (i_linked _ s Hinv) as (Hq & m' & nx' & Hm' & Hn' & Hl). simplify_eq.
  assert (forall j q y, threads s !! j = Some q -> owns q = Some y -> y <> x) as Hnot.
  { intros j q y Hj Hy ->. destruct (i_live _ s Hinv j q x Hj Hy) as [_ []]. by left. }
  split; cbn; try apply Hinv; try done.
  - intros j q Hj. at_pc; [|by apply (i_crit _ s Hinv)].
    split; [intros _; by eapply inv_holds|done].
  - intros j Hj. by apply insert_is_Some, (i_holder _ s Hinv).
  - intros j q y Hj Hy. at_pc.
    + simplify_eq/=. split; [by eexists|done].
    + destruct (i_live _ s Hinv j q y Hj Hy) as [? Hni]. split; [done|].
      intros ?. apply Hni. by right.
  - intros j k p q y Hj Hk Hp Hq'. at_pc; try done.
    + cbn in Hq'. injection Hq' as <-. by destruct (Hnot j p x).
    + cbn in Hp. injection Hp as <-. by destruct (Hnot k q x).
    + by eapply (i_uniq _ s Hinv j k).
  - intros j Hj. at_pc. by pose proof (Hout j CTake Hj ltac:(done)).
  - intros j mp Hj. at_pc. by pose proof (Hout j _ Hj ltac:(done)).
  - intros j y todo Hj. at_pc. by pose proof (Hout j _ Hj ltac:(done)).
Qed.

Lemma inv_push l s i x todo :
  inv l s -> threads s !! i = Some (PPush x todo) ->
  inv (x :: l) (set_workq (Some x) (set_pc i (PUnlock todo) s)).
Proof.
  intros Hinv Hi. destruct (i_push _ s Hinv i x todo Hi) as (m & Hm & Hn).
  destruct (i_live _ s Hinv i _ x Hi eq_refl) as [_ Hx].
  assert (forall j q, threads s !! j = Some q -> j <> i -> critical q = false) as Hout.
  { intros j q Hj Hne. destruct (critical q) eqn:E; [|done].
    by destruct Hne; eapply (inside_alone _ s j i). }
  split; cbn; try apply Hinv.
  - intros j q Hj. at_pc; [|by apply (i_crit _ s Hinv)].
    split; [intros _; by eapply inv_holds|done].
  - intros j Hj. by apply insert_is_Some, (i_holder _ s Hinv).
  - split; [done|]. exists m, (workq s). split; [done|]. split; [done|]. apply Hinv.
  - apply NoDup_cons. split; [done|]. apply Hinv.
  - intros j q y Hj Hy. at_pc. destruct (i_live _ s Hinv j q y Hj Hy) as [? Hni].
    split; [done|]. apply not_elem_of_cons. split; [|done]. intros ->.
    by pose proof (i_uniq _ s Hinv j i q _ x Hj Hi Hy eq_refl).
  - intros j k p q y Hj Hk Hp Hq. at_pc; try done. by eapply (i_uniq _ s Hinv j k).
  - done.
  - intros j mp Hj. at_pc. by pose proof (Hout j _ Hj ltac:(done)).
  - intros j y todo' Hj. at_pc. by pose proof (Hout j _ Hj ltac:(done)).
Qed.

Lemma inv_link l s i x todo m :
  inv l s -> threads s !! i = Some (PLink x todo) -> heap s !! x = Some m ->
  inv l (set_heap (<[x := mkMsg (Some (workq s)) (m_data m)]> (heap s)) (set_pc i (PPush x todo) s)).
Proof.
  intros Hinv Hi Hm. destruct (i_live _ s Hinv i _ x Hi eq_refl) as [_ Hx].
  split; cbn; try apply Hinv.
  - intros j q Hj. at_pc; [|by apply (i_crit _ s Hinv)].
    split; [intros _; by eapply inv_holds|done].
  - intros j Hj. by apply insert_is_Some, (i_holder _ s Hinv).
  - eapply linked_frame; [apply Hinv|]. intros y Hy. rewrite lookup_insert_ne; [done|]. by intros ->.
  - intros j q y Hj Hy. rewrite lookup_insert_is_Some'. at_pc.
    + injection Hy as <-. split; [by left|done].
    + destruct (i_live _ s Hinv j q y Hj Hy). split; [by right|done].
  - intros j k p q y Hj Hk Hp Hq. at_pc; try done.
    + by eapply (i_uniq _ s Hinv j i).
    + symmetry. by eapply (i_uniq _ s Hinv k i).
    + by eapply (i_uniq _ s Hinv j k).
  - intros y. rewrite lookup_insert_is_Some'. intros [<-|?]; apply Hinv; [by eexists|done].
  - intros j Hj. at_pc. by eapply (i_take _ s Hinv).
  - intros j mp Hj. at_pc. by eapply (i_next _ s Hinv).
  - intros j y todo' Hj. at_pc.
    + eexists. by rewrite lookup_insert_eq.
    + assert (y <> x) by (intros ->; by pose proof (i_uniq _ s Hinv j i _ _ x Hj Hi eq_refl eq_refl)).
      rewrite lookup_insert_ne by done. by eapply (i_push _ s Hinv).
Qed.

Lemma inv_alloc l s i d todo :
  inv l s -> threads s !! i = Some (PNext (d :: todo)) ->
  inv l (bump_fresh (set_heap (<[fresh s := mkMsg None d]> (heap s)) (set_pc i (PLock (fresh s) todo) s))).
Proof.
  intros Hinv Hi. assert (forall x, is_Some (heap s !! x) -> x <> fresh s) as Hnew.
  { intros x Hx ->. apply (i_fresh _ s Hinv) in Hx. lia. }
  assert (forall x, x ∈ l -> x <> fresh s) as Hnewl.
  { intros x Hx. apply Hnew. eapply linked_live; [apply Hinv|done]. }
  split; cbn; try apply Hinv.
  - intros j q Hj. at_pc; [|by apply (i_crit _ s Hinv)].
    rewrite <- (i_crit _ s Hinv i _ Hi). done.
  - intros j Hj. by apply insert_is_Some, (i_holder _ s Hinv).
  - eapply linked_frame; [apply Hinv|]. intros y Hy. rewrite lookup_insert_ne; [done|].
    intros <-. by eapply Hnewl.
  - intros j q y Hj Hy. rewrite lookup_insert_is_Some'. at_pc.
    + injection Hy as <-. split; [by left|]. intros ?. by eapply Hnewl.
    + destruct (i_live _ s Hinv j q y Hj Hy). split; [by right|done].
  - intros j k p q y Hj Hk Hp Hq. at_pc; try done.
    + cbn in Hq. injection Hq as <-. destruct (i_live _ s Hinv j p _ Hj Hp). by destruct (Hnew (fresh s)).
    + cbn in Hp. injection Hp as <-. destruct (i_live _ s Hinv k q _ Hk Hq). by destruct (Hnew (fresh s)).
    + by eapply (i_uniq _ s Hinv j k).
  - intros y. rewrite lookup_insert_is_Some'. intros [<-|Hy]; [lia|].
    apply (i_fresh _ s Hinv) in Hy. lia.
  - intros j Hj. at_pc. by eapply (i_take _ s Hinv).
  - intros j mp Hj. at_pc. by eapply (i_next _ s Hinv).
  - intros j y todo' Hj. at_pc. destruct (i_push _ s Hinv j y todo' Hj) as (m & Hm & Hn).
    exists m. rewrite lookup_insert_ne; [done|]. intros <-. by eapply Hnew; [eexists|].
Qed.

Lemma inv_free l s i x m :
  inv l s -> threads s !! i = Some (CFree x) -> heap s !! x = Some m ->
  inv l (set_heap (delete x (heap s)) (set_pc i CLock s)).
Proof.
  intros Hinv Hi Hm. destruct (i_live _ s Hinv i _ x Hi eq_refl) as [_ Hx].
  assert (forall j q, threads s !! j = Some q -> j <> i -> owns q <> Some x) as Hnot.
  { intros j q Hj Hne Hq. apply Hne. by eapply (i_uniq _ s Hinv j i). }
  split; cbn; try apply Hinv.
  - intros j q Hj. at_pc; [|by apply (i_crit _ s Hinv)].
    rewrite <- (i_crit _ s Hinv i _ Hi). done.
  - intros j Hj. by apply insert_is_Some, (i_holder _ s Hinv).
  - eapply linked_frame; [apply Hinv|]. intros y Hy. rewrite lookup_delete_ne; [done|]. by intros ->.
  - intros j q y Hj Hy. at_pc. destruct (i_live _ s Hinv j q y Hj Hy).
    rewrite lookup_delete_ne; [done|]. intros <-. by eapply Hnot.
  - intros j k p q y Hj Hk Hp Hq. at_pc; try done. by eapply (i_uniq _ s Hinv j k).
  - intros y. rewrite lookup_delete_is_Some. intros [_ ?]. by apply Hinv.
  - intros j Hj. at_pc. by eapply (i_take _ s Hinv).
  - intros j mp Hj. at_pc. by eapply (i_next _ s Hinv).
  - intros j y todo' Hj. at_pc. destruct (i_push _ s Hinv j y todo' Hj) as (m' & Hm' & Hn).
    exists m'. rewrite lookup_delete_ne; [done|]. intros <-. by eapply Hnot.
Qed.

Lemma inv_print l s i d : inv l s -> inv l (print i d s).
Proof. intros []. by split. Qed.

(** What a step does to the list behind [workq]. *)
Definition list_after (s : state) (e : option event) (l : list ptr) (s' : state) : list ptr :=
  match e, workq s' with
  | Some (Push _), Some x => x :: l
  | Some (Pop _), _ => tail l
  | _, _ => l
  end.

Lemma step_inv l s e s' : inv l s -> step s e s' -> inv (list_after s e l s') s'.
Proof.
  intros Hinv Hstep. destruct Hstep; cbn.
  - by eapply inv_acquire.
  - eapply inv_release; try done. by eapply inv_holds.
  - eapply inv_move_same; try done; [by left|]. intros _ ->. pose proof (i_linked _ s Hinv). cbn in *. congruence.
  - eapply inv_move_same; try done. by left.
  - by eapply inv_acquire.
  - eapply inv_move_same; try done; [by left|]. intros mp [= <-]. split; [done|].
    by eapply (i_take _ s Hinv).
  - destruct (i_next _ s Hinv i (Some p) H) as [Hq Hne]. destruct l as [|x l]; [done|].
    destruct (i_linked _ s Hinv) as [Hq' _]. rewrite Hq' in Hq. injection Hq as ->. by eapply inv_pop.
  - by eapply inv_release.
  - apply inv_print. eapply inv_move_same; try done. by left.
  - by eapply inv_free.
  - by eapply inv_alloc.
  - eapply inv_move_same; try done. by left.
  - eapply inv_move_same; try done. by left.
  - by eapply inv_acquire.
  - by eapply inv_link.
  - by eapply inv_push.
  - by eapply inv_release.
  - assert (i <> j) by (intros ->; congruence).
    eapply (inv_move_same l (set_pc i (PNext todo) s) j CWait); try done; [|by cbn; rewrite list_lookup_insert_ne|by left].
    eapply inv_move_same; try done. by left.
  - eapply inv_move_same; try done. by left.
Qed.

Lemma start_lookup n messages i p :
  threads (start n messages) !! i = Some p ->
  ((i < n)%nat /\ p = CLock) \/ (i = n /\ p = PNext messages).
Proof.
  cbn. intros Hi. apply lookup_app_Some in Hi as [Hi|[Hlen Hi]].
  - apply lookup_replicate in Hi as [-> ?]. by left.
  - rewrite length_replicate in Hlen, Hi. apply list_lookup_singleton_Some in Hi as [? <-].
    right. split; [lia|done].
Qed.

Ltac at_start :=
  repeat match goal with
  | H : threads (start _ _) !! _ = Some _ |- _ =>
      apply start_lookup in H as [[? ?]|[? ?]]; [simplify_eq|simplify_eq]
  end.

Lemma start_inv n messages : inv [] (start n messages).
Proof.
  split; try done.
  - intros i p Hi. at_start; done.
  - constructor.
  - intros i p x Hi. at_start; done.
  - intros i j p q x Hi Hj. at_start; done.
  - intros x [m Hm]. cbn in Hm. by rewrite lookup_empty in Hm.
  - intros i Hi. at_start; done.
  - intros i mp Hi. at_start; done.
  - intros i x todo Hi. at_start; done.
Qed.

Lemma execution_inv n messages tr s :
  execution (start n messages) tr s -> exists l, inv l s.
Proof.
  induction 1 as [|tr s e s' _ [l Hinv] Hstep]; [eexists; apply start_inv|].
  eexists. by eapply step_inv.
Qed.

Lemma inv_next_ready l s i mp :
  inv l s -> threads s !! i = Some (CNext (Some mp)) ->
  exists m nx, heap s !! mp = Some m /\ m_next m = Some nx.
Proof.
  intros Hinv Hi. destruct (i_next _ s Hinv _ _ Hi) as [Hq Hne]. destruct l as [|y l]; [done|].
  destruct (i_linked _ s Hinv) as (Hq' & m & nx & Hm & Hn & _). exists m, nx.
  split; [congruence|done].
Qed.

(** The only misstep: [main] stores through what [malloc] did not give it. *)
Lemma inv_faulty l s i p : inv l s -> threads s !! i = Some p -> faulty s i p -> exists todo, p = PNull todo.
Proof.
  intros Hinv Hi. destruct p as [| | | | |[mp|]|x|x|x| | |x todo|x todo|x todo| | |]; cbn; try tauto.
  - destruct (inv_next_ready l s i mp Hinv Hi) as (m & nx & Hm & Hn).
    intros Hbad. by rewrite (Hbad m) in Hn.
  - destruct (i_next _ s Hinv _ _ Hi) as [Hq Hne]. destruct l as [|y l]; [done|].
    destruct (i_linked _ s Hinv) as (Hq' & _). congruence.
  - intros []. by eapply inv_holds.
  - intros E. destruct (i_live _ s Hinv _ _ x Hi eq_refl) as [[??] _]. congruence.
  - intros E. destruct (i_live _ s Hinv _ _ x Hi eq_refl) as [[??] _]. congruence.
  - by eexists.
  - intros E. destruct (i_live _ s Hinv _ _ x Hi eq_refl) as [[??] _]. congruence.
  - intros E. destruct (i_live _ s Hinv _ _ x Hi eq_refl) as [[??] _]. congruence.
  - intros []. by eapply inv_holds.
Qed.

Definition consumer (p : pc) : bool :=
  match p with
  | PNext _ | PNull _ | PLock _ _ | PLink _ _ | PPush _ _ | PUnlock _ | PSignal _ | PJoin => false
  | _ => true
  end.

Lemma step_consumer s e s' i :
  step s e s' -> (exists p, threads s !! i = Some p /\ consumer p = true) ->
  exists p, threads s' !! i = Some p /\ consumer p = true.
Proof.
  intros Hstep Hi. pose proof Hi as (p0 & Hp0 & Hc).
  destruct Hstep; cbn; repeat apply lookup_insert_by; try done; intros ->; simplify_eq; done.
Qed.

Lemma execution_consumer n messages tr s i :
  execution (start n messages) tr s -> (i < n)%nat ->
  exists p, threads s !! i = Some p /\ consumer p = true.
Proof.
  intros Hex Hi. induction Hex as [|tr s e s' _ IH Hstep]; [|by eapply step_consumer].
  exists CLock. split; [|done]. cbn. rewrite lookup_app_l by (by rewrite length_replicate).
  by apply lookup_replicate.
Qed.

Lemma step_length s e s' : step s e s' -> length (threads s') = length (threads s).
Proof. by destruct 1; cbn; rewrite ?length_insert. Qed.

Lemma execution_length n messages tr s :
  execution (start n messages) tr s -> length (threads s) = S n.
Proof.
  induction 1 as [|tr s e s' _ IH Hstep]; [|by rewrite (step_length _ _ _ Hstep)].
  cbn. rewrite length_app, length_replicate. cbn. lia.
Qed.

(** C10: however the consumers of [process_msg] and the sender interleave, and
    whatever spurious wakeups happen, no thread is about to dereference a null,
    unlinked or freed message, free one twice or unlock a mutex it does not hold,
    but for [main] after a failed [malloc], whose result it does not look at; and
    at most one thread is between lock and unlock. *)
Theorem queue_is_safe n messages tr s i p :
  execution (start n messages) tr s -> threads s !! i = Some p ->
  (faulty s i p <-> i = n /\ exists todo, p = PNull todo) /\
  (forall j q, threads s !! j = Some q -> critical p = true -> critical q = true -> i = j).
Proof.
  intros Hex Hi. destruct (execution_inv _ _ _ _ Hex) as [l Hinv].
  split; [|intros j q Hj Hp Hq; by eapply inside_alone].
  split; [|by intros [_ [todo ->]]]. intros [todo ->]%(inv_faulty l s i p Hinv Hi). split; [|by eexists].
  pose proof (lookup_lt_Some _ _ _ Hi) as Hlt. rewrite (execution_length _ _ _ _ Hex) in Hlt.
  destruct (decide (i < n)%nat) as [Hn|]; [|lia].
  destruct (execution_consumer _ _ _ _ i Hex Hn) as (q & Hq & Hc). by simplify_eq.
Qed.

(** ** The queue is a stack *)

Definition data (h : gmap ptr msg) (x : ptr) : list string := option_list (m_data <$> h !! x).

Lemma data_at h x m : h !! x = Some m -> data h x = [m_data m].
Proof. intros Hx. unfold data. by rewrite Hx. Qed.

Definition queued (s : state) (l : list ptr) : list string := l ≫= data (heap s).

(** A step leaves the data of a message alone, unless it frees it. *)
Lemma step_data l s e s' x :
  inv l s -> step s e s' -> is_Some (heap s !! x) ->
  (forall i, threads s !! i <> Some (CFree x)) -> data (heap s') x = data (heap s) x.
Proof.
  intros Hinv Hstep Hx Hfree. unfold data. destruct Hstep; cbn; try done.
  - rewrite lookup_delete_ne; [done|]. intros ->. by destruct (Hfree i).
  - rewrite lookup_insert_ne; [done|]. intros <-. apply (i_fresh _ s Hinv) in Hx. lia.
  - destruct (decide (p = x)) as [->|Hne]; [|by rewrite lookup_insert_ne].
    rewrite lookup_insert_eq. by simplify_option_eq.
Qed.

Lemma step_queue_data l s e s' x :
  inv l s -> step s e s' -> x ∈ l -> data (heap s') x = data (heap s) x.
Proof.
  intros Hinv Hstep Hx. eapply step_data; [done..|eapply linked_live; [apply Hinv|done]|].
  intros i Hi. by destruct (i_live _ s Hinv i _ x Hi eq_refl) as [_ []].
Qed.

Lemma step_stack l s e s' :
  inv l s -> step s e s' ->
  stack_run (option_list e) (queued s l) = Some (queued s' (list_after s e l s')).
Proof.
  intros Hinv Hstep.
  assert (queued s' l = queued s l) as Heq.
  { apply list_bind_ext. intros x Hx. by eapply step_queue_data. }
  destruct Hstep; try (cbn [option_list stack_run list_after]; by rewrite Heq).
  - destruct (i_next _ s Hinv i (Some p) H) as [Hq Hne]. destruct l as [|x l]; [done|].
    destruct (i_linked _ s Hinv) as (Hq' & _). rewrite Hq' in Hq. injection Hq as ->.
    cbn. rewrite (data_at _ _ _ H0). cbn. by rewrite decide_True.
  - unfold queued; cbn. by rewrite (data_at _ _ _ H0).
Qed.

Lemma stack_run_app tr1 tr2 st : stack_run (tr1 ++ tr2) st = st' ← stack_run tr1 st; stack_run tr2 st'.
Proof.
  revert st. induction tr1 as [|[d|d] tr1 IH]; intros st; cbn; [done|apply IH|].
  destruct st as [|d' st]; [done|]. by case_decide.
Qed.

(** C8: refinement: whatever the interleaving, the pushes and pops made on
    [workq] are a legal history of a stack: each message taken is the last one
    put in and not yet taken, and what the stack still holds is the data of the
    linked list that [workq] points to, in order. *)
Theorem queue_refines_stack n messages tr s :
  execution (start n messages) tr s ->
  exists l, linked (heap s) (workq s) l /\ stack_run tr [] = Some (queued s l).
Proof.
  intros Hex. assert (exists l, inv l s /\ stack_run tr [] = Some (queued s l)) as (l & Hinv & Hrun).
  { induction Hex as [|tr s e s' _ (l & Hinv & Hrun) Hstep]; [exists []; split; [apply start_inv|done]|].
    exists (list_after s e l s'). split; [by eapply step_inv|].
    rewrite stack_run_app, Hrun. cbn. by eapply step_stack. }
  exists l. split; [apply Hinv|done].
Qed.

(** ** Every message is delivered once *)

(** The data of the messages a thread will still send or print. *)
Definition carried (h : gmap ptr msg) (p : pc) : list string :=
  match p with
  | PNext todo | PNull todo | PUnlock todo | PSignal todo => todo
  | PLock x todo | PLink x todo | PPush x todo => data h x ++ todo
  | CUnlock x | CPrint x => data h x
  | _ => []
  end.

Definition content (s : state) (l : list ptr) : list string :=
  (threads s ≫= carried (heap s)) ++ queued s l ++ (snd <$> printed s).

(** A step of thread [i] conserves the content when it conserves what [i], the
    queue and the output hold together. *)
Lemma content_update s s' l l' i old new :
  threads s !! i = Some old -> threads s' = <[i := new]> (threads s) ->
  (forall j p, threads s !! j = Some p -> j <> i -> carried (heap s') p = carried (heap s) p) ->
  carried (heap s') new ++ queued s' l' ++ (snd <$> printed s') ≡ₚ
  carried (heap s) old ++ queued s l ++ (snd <$> printed s) ->
  content s' l' ≡ₚ content s l.
Proof.
  intros Hi Ht Hother Hloc. unfold content. rewrite Ht.
  destruct (bind_update (carried (heap s)) (carried (heap s')) (threads s) i old new Hi Hother)
    as (rest & -> & ->).
  rewrite (Permutation_app_comm _ rest), (Permutation_app_comm (carried (heap s) old) rest).
  rewrite <- !app_assoc. by rewrite Hloc.
Qed.

(** Other threads do not see what [i] does to the messages. *)
Lemma step_carried l s e s' j p :
  inv l s -> step s e s' -> threads s !! j = Some p ->
  (forall x, owns p = Some x -> p <> CFree x -> data (heap s') x = data (heap s) x).
Proof.
  intros Hinv Hstep Hj x Hx Hne. eapply step_data; try done.
  - by eapply (i_live _ s Hinv j p x).
  - intros i Hi. assert (i = j) as -> by by eapply (i_uniq _ s Hinv i j _ p x).
    congruence.
Qed.

Lemma step_content l s e s' :
  inv l s -> step s e s' -> content s' (list_after s e l s') ≡ₚ content s l.
Proof.
  intros Hinv Hstep. pose proof Hstep as Hstep'.
  assert (forall j p, threads s !! j = Some p -> carried (heap s') p = carried (heap s) p) as Hsame.
  { intros j p Hj. pose proof (step_carried l s e s' j p Hinv Hstep Hj) as Hd.
    destruct p; cbn in *; try done; by rewrite Hd. }
  assert (queued s' l = queued s l) as Hqueue.
  { apply list_bind_ext. intros x Hx. by eapply step_queue_data. }
  destruct Hstep';
    try (eapply (content_update s _ l); [done|done|by intros; eapply Hsame|]; cbn; by rewrite ?Hqueue).
  - destruct (i_next _ s Hinv i (Some p) H) as [Hq Hne]. destruct l as [|x l]; [done|].
    destruct (i_linked _ s Hinv) as (Hq' & _). rewrite Hq' in Hq. injection Hq as ->.
    eapply (content_update s); [done..|]. cbn. by rewrite <- !app_assoc.
  - eapply (content_update s _ l); [done|done|done|]. cbn. rewrite fmap_app. cbn.
    rewrite (data_at _ _ _ H0). change (queued (print _ _ _) l) with (queued s l). cbn.
    rewrite app_assoc. by rewrite <- Permutation_cons_append.
  - eapply (content_update s _ l); [done|done| |cbn; by rewrite <- Hqueue].
    intros j q Hj _. by eapply Hsame.
  - eapply (content_update s _ l); [done|done| |].
    { intros j q Hj _. by eapply Hsame. }
    cbn [list_after carried]. rewrite Hqueue. cbn. by erewrite data_at by apply lookup_insert_eq.
  - eapply (content_update s _ l); [done|done| |].
    { intros j q Hj _. by eapply Hsame. }
    cbn [list_after carried]. rewrite Hqueue. cbn.
    rewrite (data_at _ _ _ H0). by erewrite data_at by apply lookup_insert_eq.
  - eapply (content_update s); [done..|]. cbn. rewrite <- !app_assoc.
    change (queued (set_workq _ _) l) with (queued s l).
    by rewrite (Permutation_app_swap_app todo).
  - assert (i <> j) by congruence.
    transitivity (content (set_pc i (PNext todo) s) l).
    + eapply (content_update (set_pc i (PNext todo) s) _ l l j CWait); try done.
      cbn. by rewrite list_lookup_insert_ne.
    + by eapply (content_update s _ l l i).
Qed.

Lemma start_content n messages : content (start n messages) [] = messages.
Proof.
  unfold content. cbn. rewrite bind_app, app_nil_r. cbn. rewrite app_nil_r.
  induction n as [|n IH]; [done|apply IH].
Qed.

Lemma execution_content n messages tr s :
  execution (start n messages) tr s -> exists l, inv l s /\ content s l ≡ₚ messages.
Proof.
  induction 1 as [|tr s e s' _ (l & Hinv & Hc) Hstep].
  - exists []. split; [apply start_inv|]. by rewrite start_content.
  - exists (list_after s e l s'). split; [by eapply step_inv|]. by rewrite step_content.
Qed.

(** No message is lost, duplicated or altered: at every moment, what the
    consumers have printed together with some other messages (those on their way)
    is exactly, up to order, what [main] was given to send. *)
Theorem printed_messages_were_sent n messages tr s :
  execution (start n messages) tr s ->
  exists underway, underway ++ (snd <$> printed s) ≡ₚ messages.
Proof.
  intros (l & _ & Hc)%execution_content. exists ((threads s ≫= carried (heap s)) ++ queued s l).
  by rewrite <- Hc, <- app_assoc.
Qed.

(** ** Nobody sleeps on a queue that is not empty *)

(** A thread that will look at the queue again, or signal, without being woken. *)
Definition alert (p : pc) : bool :=
  match p with
  | CWait | PNext _ | PNull _ | PLock _ _ | PLink _ _ | PPush _ _ | PJoin => false
  | _ => true
  end.

(** No message is forgotten: each is in the list or in some thread's hands. *)
Definition accounted (s : state) (l : list ptr) : Prop :=
  forall x, is_Some (heap s !! x) -> x ∈ l \/
    exists i, exists p, threads s !! i = Some p /\ owns p = Some x.

Definition attended (s : state) (l : list ptr) : Prop :=
  (exists p, threads s !! 0%nat = Some p /\ consumer p = true) /\
  (l = [] \/ exists i p, threads s !! i = Some p /\ alert p = true).

Lemma step_accounted l s e s' :
  inv l s -> step s e s' -> accounted s l -> accounted s' (list_after s e l s').
Proof.
  intros Hinv Hstep Hacc.
  assert (forall i old new x, threads s !! i = Some old -> is_Some (heap s !! x) ->
    (owns old = Some x -> owns new = Some x) ->
    x ∈ l \/ exists k, exists p, <[i := new]> (threads s) !! k = Some p /\ owns p = Some x) as Hkeep.
  { intros i old new x Hi Hx Hown. destruct (Hacc x Hx) as [|(k & Hk)]; [by left|right].
    exists k. apply lookup_insert_by; [done|]. intros ->. destruct Hk as (p & ? & ?). simplify_eq. auto. }
  assert (forall i q x, is_Some (threads s !! i) -> owns q = Some x ->
    exists k, exists p, <[i := q]> (threads s) !! k = Some p /\ owns p = Some x) as Hmine.
  { intros i q x Hi Hq. exists i, q. split; [|done]. by apply list_lookup_insert_eq, lookup_lt_is_Some. }
  destruct Hstep; intros y Hy; cbn [list_after]; try (by eapply Hkeep); cbn in Hy |- *.
  - destruct (decide (y = p)) as [->|Hne]; [right; by eapply Hmine|].
    destruct (i_next _ s Hinv i (Some p) H) as [Hq _]. pose proof (i_linked _ s Hinv) as Hl.
    destruct (Hkeep i _ (CUnlock p) y H Hy ltac:(done)) as [Hin|?]; [left|by right].
    destruct l as [|x l]; [done|]. destruct Hl as (Hq' & _). apply elem_of_cons in Hin as [->|]; [|done].
    congruence.
  - apply lookup_delete_is_Some in Hy as [Hne Hy]. eapply Hkeep; [done..|]. cbn. congruence.
  - destruct (decide (y = fresh s)) as [->|Hne]; [right; by eapply Hmine|].
    rewrite lookup_insert_ne in Hy by done. by eapply Hkeep.
  - destruct (decide (y = p)) as [->|Hne]; [right; by eapply Hmine|].
    rewrite lookup_insert_ne in Hy by done. by eapply Hkeep.
  - destruct (decide (y = p)) as [->|Hne]; [left; by left|].
    destruct (Hkeep i _ (PUnlock todo) y H Hy ltac:(cbn; congruence)) as [Hin|?];
      [left; by right|by right].
  - destruct (Hacc y Hy) as [|(k & Hk)]; [by left|right]. exists k.
    apply lookup_insert_by; [apply lookup_insert_by; [exact Hk|]|];
      intros ->; destruct Hk as (? & ? & ?); simplify_eq; done.
Qed.

Lemma step_attended l s e s' :
  inv l s -> step s e s' -> attended s l -> attended s' (list_after s e l s').
Proof.
  intros Hinv Hstep (Hcons & Hatt). split; [by eapply step_consumer|].
  assert (forall i new, alert new = true -> is_Some (threads s !! i) -> forall o h q f pr,
    exists k p, threads (mkState o q h f (<[i := new]> (threads s)) pr) !! k = Some p /\ alert p = true) as Hme.
  { intros i new Ha Hi o h q f pr. exists i, new. split; [|done].
    apply list_lookup_insert_eq, lookup_lt_is_Some, Hi. }
  assert (forall i old new, threads s !! i = Some old -> alert old = false ->
    l = [] \/ exists k p, <[i := new]> (threads s) !! k = Some p /\ alert p = true) as Hkeep.
  { intros i old new Hi Ho. destruct Hatt as [|(k & p & Hk & Ha)]; [by left|right].
    exists k, p. split; [|done]. rewrite list_lookup_insert_ne; [done|]. intros ->. congruence. }
  destruct Hstep; cbn [list_after]; try (right; eapply Hme; [done|by eexists]); try (by eapply Hkeep).
  - left. pose proof (i_linked l s Hinv) as Hl. destruct l; [done|]. destruct Hl. congruence.
  - right. exists j, CWake. split; [|done]. cbn. apply list_lookup_insert_eq.
    rewrite length_insert. by eapply lookup_lt_Some.
  - destruct Hcons as (p & Hp & Hc). right. exists 0%nat, p. cbn. split.
    + rewrite list_lookup_insert_ne; [done|]. intros ->. simplify_eq.
    + destruct p; try done. by destruct (H0 0%nat).
Qed.

Lemma execution_attended n messages tr s :
  (0 < n)%nat -> execution (start n messages) tr s ->
  exists l, inv l s /\ content s l ≡ₚ messages /\ attended s l /\ accounted s l.
Proof.
  intros Hn. induction 1 as [|tr s e s' _ (l & Hinv & Hc & Hatt & Hacc) Hstep].
  - exists []. split; [apply start_inv|]. split; [by rewrite start_content|].
    split; [|intros x [m Hm]; cbn in Hm; by rewrite lookup_empty in Hm]. split; [|by left].
    exists CLock. split; [|done]. cbn. rewrite lookup_app_l by (rewrite length_replicate; lia).
    by apply lookup_replicate.
  - exists (list_after s e l s'). split; [by eapply step_inv|]. split; [by rewrite step_content|].
    split; [by eapply step_attended|by eapply step_accounted].
Qed.

(** A waiting thread wakes up without having been signalled. *)
Definition spurious (s s' : state) : Prop :=
  exists i, threads s !! i = Some CWait /\ s' = set_pc i CWake s.

Definition stuck (s : state) : Prop := forall e s', step s e s' -> spurious s s'.

Definition needs_lock (p : pc) : bool :=
  match p with CLock | CWake | PLock _ _ => true | _ => false end.

(** A thread that neither waits nor has finished can go on, once the mutex is
    free if that is what it is after. *)
Lemma can_go_on l s i p :
  inv l s -> threads s !! i = Some p -> p <> CWait -> p <> PJoin -> (forall todo, p <> PNull todo) ->
  (needs_lock p = true -> qlock s = None) ->
  exists e s', step s e s' /\ threads s' !! i <> Some p.
Proof.
  intros Hinv Hi Hw Hj Hnull Hl. pose proof (lookup_lt_Some _ _ _ Hi) as Hlt.
  assert (~ faulty s i p) as Hok by (intros [todo Hp]%(inv_faulty l s i p Hinv Hi); by apply (Hnull todo)).
  assert (forall q, q <> p -> <[i := q]> (threads s) !! i <> Some p) as Hmoved.
  { intros q Hq. rewrite list_lookup_insert_eq by done. congruence. }
  destruct p as [| | | | |[mp|]|x|x|x|[|d todo]|todo|x todo|x todo|x todo|todo|todo|]; try done; cbn in Hok;
    try by destruct (Hnull todo).
  - do 2 eexists; split; [by apply c_lock, Hl|by apply Hmoved].
  - destruct (workq s) as [q|] eqn:Eq; do 2 eexists.
    + split; [by eapply c_go|by apply Hmoved].
    + split; [by apply c_wait|by apply Hmoved].
  - do 2 eexists; split; [by apply c_relock, Hl|by apply Hmoved].
  - do 2 eexists; split; [by apply c_take|by apply Hmoved].
  - destruct (inv_next_ready l s i mp Hinv Hi) as (m & nx & Hm & Hn).
    do 2 eexists; split; [by eapply c_next|by apply Hmoved].
  - do 2 eexists; split; [by eapply c_unlock, inv_holds|by apply Hmoved].
  - destruct (heap s !! x) eqn:Ex; [|done]. do 2 eexists; split; [by eapply c_print|by apply Hmoved].
  - destruct (heap s !! x) eqn:Ex; [|done]. do 2 eexists; split; [by eapply c_free|by apply Hmoved].
  - do 2 eexists; split; [by apply p_done|by apply Hmoved].
  - do 2 eexists; split; [by apply p_alloc|by apply Hmoved].
  - do 2 eexists; split; [by eapply p_lock, Hl|by apply Hmoved].
  - destruct (heap s !! x) eqn:Ex; [|done]. do 2 eexists; split; [by eapply p_link|by apply Hmoved].
  - destruct (heap s !! x) eqn:Ex; [|done]. do 2 eexists; split; [by eapply p_push|by apply Hmoved].
  - do 2 eexists; split; [by eapply p_unlock, inv_holds|by apply Hmoved].
  - destruct (decide (CWait ∈ threads s)) as [[j Hwait]%list_elem_of_lookup|Hno].
    + do 2 eexists; split; [by eapply p_signal|]. cbn.
      rewrite list_lookup_insert_ne; [by apply Hmoved|]. intros ->. simplify_eq.
    + do 2 eexists; split; [apply p_signal_nobody; [done|]|by apply Hmoved].
      intros j Hwait. by apply Hno, list_elem_of_lookup_2 with j.
Qed.

(** In a state that is stuck, every thread waits or has finished. *)
Lemma stuck_pcs l s i p :
  inv l s -> stuck s -> (forall j todo, threads s !! j <> Some (PNull todo)) -> threads s !! i = Some p -> p = CWait \/ p = PJoin.
Proof.
  intros Hinv Hstuck Hnull.
  assert (forall k q, threads s !! k = Some q -> (needs_lock q = true -> qlock s = None) ->
    q = CWait \/ q = PJoin) as Hfree.
  { intros k q Hk Hq. destruct (decide (q = CWait)) as [|Hw]; [by left|].
    destruct (decide (q = PJoin)) as [|Hj]; [by right|].
    destruct (can_go_on l s k q Hinv Hk Hw Hj ltac:(intros todo ->; by apply (Hnull k todo)) Hq) as (e & s' & Hstep & Hmoved).
    destruct (Hstuck e s' Hstep) as (j & Hwait & ->). destruct Hmoved. cbn.
    rewrite list_lookup_insert_ne; [done|]. intros ->. simplify_eq. }
  intros Hi. apply (Hfree i p Hi). intros _. destruct (qlock s) as [k|] eqn:Ek; [|done].
  destruct (i_holder _ s Hinv k Ek) as [q Hk]. apply (i_crit _ s Hinv k q Hk) in Ek as Hc.
  destruct (Hfree k q Hk) as [-> | ->]; [by destruct q|done..].
Qed.

(** No lost wake-up: if no thread can take a step (other than waking up for
    nothing) and none is about to store through a null pointer, then main has finished sending, every consumer is asleep in
    [pthread_cond_wait], the queue is empty, every message has been freed by its
    consumer, and the consumers have printed each message exactly once. *)
Theorem stuck_only_when_delivered n messages tr s :
  (0 < n)%nat -> execution (start n messages) tr s -> stuck s ->
  (forall i todo, threads s !! i <> Some (PNull todo)) ->
  (snd <$> printed s) ≡ₚ messages /\ workq s = None /\ heap s = ∅ /\ qlock s = None /\
  Forall (fun p => p = CWait \/ p = PJoin) (threads s).
Proof.
  intros Hn Hex Hstuck Hnull.
  destruct (execution_attended n messages tr s Hn Hex) as (l & Hinv & Hc & [_ Hatt] & Hacc).
  assert (forall i p, threads s !! i = Some p -> p = CWait \/ p = PJoin) as Hpcs
    by (intros i p; by apply (stuck_pcs l)).
  assert (l = []) as ->.
  { destruct Hatt as [|(i & p & Hi & Ha)]; [done|]. by destruct (Hpcs i p Hi) as [-> | ->]. }
  assert (threads s ≫= carried (heap s) = []) as Hnone.
  { apply list_bind_nil. intros p [i Hi]%list_elem_of_lookup. by destruct (Hpcs i p Hi) as [-> | ->]. }
  unfold content in Hc. rewrite Hnone in Hc. split; [done|]. split; [apply (i_linked _ s Hinv)|]. split.
  { apply map_empty. intros x. destruct (heap s !! x) as [m|] eqn:Ex; [|done].
    destruct (Hacc x ltac:(by eexists)) as [[]%not_elem_of_nil|(i & p & Hi & Hp)].
    by destruct (Hpcs i p Hi) as [-> | ->]. }
  split; [|by apply Forall_lookup; apply Hpcs].
  destruct (qlock s) as [k|] eqn:Ek; [|done]. destruct (i_holder _ s Hinv k Ek) as [q Hk].
  apply (i_crit _ s Hinv k q Hk) in Ek. by destruct (Hpcs k q Hk) as [-> | ->].
Qed.

(** ** Executions are short *)

(** Executions with their number of steps, and of wake-ups without a signal. *)
Inductive counted (s0 : state) : nat -> nat -> state -> Prop :=
  | counted_start : counted s0 0 0 s0
  | counted_wake n k s i : counted s0 n k s -> threads s !! i = Some CWait ->
      counted s0 n (S k) (set_pc i CWake s)
  | counted_step n k s e s' : counted s0 n k s -> step s e s' -> ~ spurious s s' ->
      counted s0 (S n) k s'.

(** The steps a thread has ahead of it before it waits or ends. *)
Definition cost (p : pc) : nat :=
  match p with
  | CWait => 0 | CNext _ => 1 | CTake => 2 | CCheck => 3 | CWake | CLock => 4
  | CFree _ => 5 | CPrint _ => 6 | CUnlock _ => 7
  | PJoin | PNull _ => 0 | PNext todo => 1 + 17 * length todo
  | PSignal todo => 6 + 17 * length todo | PUnlock todo => 7 + 17 * length todo
  | PPush _ todo => 15 + 17 * length todo | PLink _ todo => 16 + 17 * length todo
  | PLock _ todo => 17 + 17 * length todo
  end.

Definition potential (s : state) (l : list ptr) : nat :=
  sum_list_with cost (threads s) + 7 * length l.

Ltac count_costs :=
  match goal with
  | |- context [<[?i := ?new]> (threads ?s)] =>
      match goal with H : threads s !! i = Some _ |- _ => pose proof (sum_update cost _ _ _ new H) end
  end; cbn -[Nat.mul] in *; lia.

Lemma step_potential l s e s' :
  inv l s -> step s e s' -> ~ spurious s s' ->
  (potential s' (list_after s e l s') < potential s l)%nat.
Proof.
  intros Hinv Hstep Hns. unfold potential.
  destruct Hstep; cbn [list_after]; cbn -[Nat.mul]; try count_costs.
  - destruct Hns. by exists i.
  - destruct (i_next _ s Hinv i (Some p) H) as [_ Hne]. destruct l as [|x l]; [done|]. count_costs.
  - pose proof (sum_update cost _ _ _ (PNext todo) H).
    assert (<[i := PNext todo]> (threads s) !! j = Some CWait) as Hj.
    { rewrite list_lookup_insert_ne; [done|]. intros ->. simplify_eq. }
    pose proof (sum_update cost _ _ _ CWake Hj). cbn -[Nat.mul] in *. lia.
Qed.

Lemma counted_execution s0 n k s : counted s0 n k s -> exists tr, execution s0 tr s.
Proof.
  induction 1 as [|n k s i _ [tr Hex] Hi|n k s e s' _ [tr Hex] Hstep _]; [eexists; constructor|..].
  - eexists. eapply (ex_step _ _ _ None); [done|by apply c_spurious].
  - eexists. by eapply ex_step.
Qed.

(** Termination: with [n] consumers and [k] wake-ups without a signal, no
    execution takes more than [4 n + 1 + 17 * (number of messages) + 4 k] steps;
    it cannot go round for ever, and where it stops every message is delivered. *)
Theorem executions_are_bounded n messages steps k s :
  counted (start n messages) steps k s ->
  (steps <= 4 * n + 1 + 17 * length messages + 4 * k)%nat.
Proof.
  intros Hex.
  enough (exists l, inv l s /\ (steps + potential s l <= 4 * n + 1 + 17 * length messages + 4 * k)%nat)
    as (l & _ & Hle) by lia.
  induction Hex as [|steps k s i _ (l & Hinv & Hle) Hi|steps k s e s' _ (l & Hinv & Hle) Hstep Hns].
  - exists []. split; [apply start_inv|]. unfold potential. cbn -[Nat.mul].
    rewrite sum_list_with_app. cbn -[Nat.mul].
    assert (sum_list_with cost (replicate n CLock) = 4 * n)%nat as ->; [|lia].
    induction n; cbn -[Nat.mul] in *; lia.
  - exists l. split; [apply (step_inv l s None); [done|by apply c_spurious]|].
    pose proof (sum_update cost _ _ _ CWake Hi). unfold potential in *. cbn -[Nat.mul] in *. lia.
  - exists (list_after s e l s'). split; [by eapply step_inv|].
    pose proof (step_potential l s e s' Hinv Hstep Hns). lia.
Qed.

(** ** Concrete runs *)

Lemma advance_step s i e s' : advance s i = Some (e, s') -> step s e s'.
Proof.
  unfold advance. intros Ha. destruct (threads s !! i) as [p|] eqn:Hi; [|done]. cbn in Ha.
  destruct p as [| | | | |mp|x|x|x|[|d todo]|todo|x todo|x todo|x todo|todo|todo|];
    try (simplify_option_eq; by econstructor).
  - destruct (workq s) eqn:Eq; simplify_eq; by econstructor.
  - destruct (list_find _ _) as [[j q]|] eqn:Ef; simplify_eq.
    + apply list_find_Some in Ef as (Hj & <- & _). by apply p_signal.
    + apply list_find_None in Ef. apply p_signal_nobody; [done|]. intros j Hj.
      by eapply Forall_lookup_1 in Ef; [|exact Hj].
Qed.

Lemma run_schedule_execution sched s0 tr s :
  execution s0 tr s -> execution s0 (run_schedule sched s tr).1 (run_schedule sched s tr).2.
Proof.
  revert s tr. induction sched as [|i sched IH]; intros s tr Hex; [done|]. cbn.
  destruct (advance s i) as [[e s']|] eqn:Ha; [|by apply IH].
  apply IH. eapply ex_step; [done|]. by apply (advance_step _ i).
Qed.

Lemma quiet_stuck s : Forall (fun p => p = CWait \/ p = PJoin) (threads s) -> stuck s.
Proof.
  intros Hq e s' Hstep.
  assert (forall i p, threads s !! i = Some p -> p = CWait \/ p = PJoin) as Hpcs
    by (intros i p Hi; by eapply Forall_lookup_1 in Hq).
  destruct Hstep; try (match goal with H : threads _ !! ?k = Some ?q |- _ => destruct (Hpcs k q H); discriminate end).
  by exists i.
Qed.

(** Both consumers of [main] fall asleep; main sends its first two messages; the
    first consumer takes the second message. *)
Definition two_sent : list event * state :=
  run_schedule [0; 0; 1; 1; 2; 2; 2; 2; 2; 2; 2; 2; 2; 2; 2; 0; 0; 0; 0; 0]%nat main_start [].

Definition two_sent_next : list event * state :=
  run_schedule [0; 0; 1; 1; 2; 2; 2; 2; 2; 2; 2; 2; 2; 2; 2; 0; 0; 0; 0; 0; 2]%nat main_start [].

(** Main sends its messages two at a time; each pair wakes both consumers. *)
Definition all_sent : list event * state :=
  run_schedule ([0; 0; 1; 1]%nat ++
    concat (replicate 5 (replicate 12 2 ++ replicate 7 0 ++ replicate 7 1 ++ [0; 0; 1; 1])%nat) ++ [2%nat])
    main_start [].

Lemma main_runs sched :
  execution main_start (run_schedule sched main_start []).1 (run_schedule sched main_start []).2.
Proof. apply run_schedule_execution. constructor. Qed.

(** No memory for the third message. *)
Definition no_memory : state := set_pc 2 (PNull (drop 2 main_messages)) two_sent_next.2.

Lemma two_sent_next_sends : threads two_sent_next.2 !! 2%nat = Some (PNext (drop 2 main_messages)).
Proof. by vm_compute. Qed.

Lemma no_memory_reached : execution main_start two_sent_next.1 no_memory.
Proof.
  pose proof (main_runs _ : execution main_start two_sent_next.1 two_sent_next.2) as Hrun.
  pose proof two_sent_next_sends as Hpc. unfold no_memory. revert Hrun Hpc. generalize two_sent_next. intros [tr s].
  cbn [fst snd]. intros Hrun Hpc. rewrite <- (app_nil_r tr).
  exact (ex_step _ tr s None _ Hrun (p_nomem s 2 "3333"%string (drop 3 main_messages) Hpc)).
Qed.

Lemma queue_is_safe_witness :
  ~ faulty two_sent.2 0 (CPrint 2) /\ faulty no_memory 2 (PNull (drop 2 main_messages)).
Proof.
  split.
  - intros Hbad. apply (queue_is_safe 2 main_messages two_sent.1 two_sent.2 0 (CPrint 2)) in Hbad as [Hi _];
      [discriminate Hi|apply main_runs|by vm_compute].
  - apply (queue_is_safe 2 main_messages two_sent_next.1 no_memory 2 (PNull (drop 2 main_messages)));
      [exact no_memory_reached|by vm_compute|]. split; [reflexivity|]. eexists. reflexivity.
Defined.

Lemma queue_refines_stack_witness :
  two_sent.1 = [Push "1111"; Push "2222"; Pop "2222"]%string /\
  exists l, linked (heap two_sent.2) (workq two_sent.2) l /\
    stack_run two_sent.1 [] = Some (queued two_sent.2 l).
Proof.
  split; [by vm_compute|]. apply (queue_refines_stack 2 main_messages two_sent.1). apply main_runs.
Defined.

Lemma printed_messages_were_sent_witness :
  exists underway, underway ++ (snd <$> printed two_sent.2) ≡ₚ main_messages.
Proof. apply (printed_messages_were_sent 2 main_messages two_sent.1). apply main_runs. Defined.

Lemma all_sent_threads : threads all_sent.2 = [CWait; CWait; PJoin].
Proof. by vm_compute. Qed.

Lemma all_sent_stuck : stuck all_sent.2.
Proof. apply quiet_stuck. rewrite all_sent_threads. repeat apply Forall_cons_2; by auto. Qed.

Lemma all_sent_memory i todo : threads all_sent.2 !! i <> Some (PNull todo).
Proof. rewrite all_sent_threads. by destruct i as [|[|[|i]]]. Qed.

Lemma stuck_only_when_delivered_witness :
  (snd <$> printed all_sent.2) ≡ₚ main_messages /\ workq all_sent.2 = None.
Proof.
  destruct (stuck_only_when_delivered 2 main_messages all_sent.1 all_sent.2 ltac:(lia)
    (main_runs _) all_sent_stuck all_sent_memory) as (Hp & Hq & _). by split.
Defined.

Lemma executions_are_bounded_witness :
  exists s, counted main_start 1 0 s /\ (1 <= 4 * 2 + 1 + 17 * 10 + 4 * 0)%nat.
Proof.
  assert (counted main_start 1 0 (set_lock (Some 0%nat) (set_pc 0 CCheck main_start))) as Hrun.
  { eapply (counted_step _ 0 0 main_start None); [constructor|by apply c_lock|].
    intros (i & Hi & _). destruct i as [|[|[|i]]]; discriminate. }
  eexists. split; [exact Hrun|].
  exact (executions_are_bounded 2 main_messages 1 0 _ Hrun).
Defined.
