(* ===== verification/QueueProgram.v ===== *)
(** * QueueProgram: the whole of net/pthread/pthread_create.c

    [main] allocates the object, creates two threads and then sends its messages;
    a thread prints its identifiers and then runs [process_msg].  A thread that has
    not come that far does not move in the queue of WorkQueue.v. *)

From S2P Require Import Prelude WorkQueue.

Inductive consumer :=
  | Unborn
  | New        (* about to call [printids("new thread: ")] *)
  | Serving.   (* in [process_msg], which never returns *)

#[export] Instance consumer_eq_dec : EqDecision consumer.
Proof. solve_decision. Defined.

Inductive main_pc :=
  | MAlloc               (* foo_alloc() *)
  | MCreate (k : nat)    (* pthread_create(&ntid[k], ...) *)
  | MSend                (* sleep(1), the loop, and pthread_join *)
  | MExit.               (* exit(0) after a failed pthread_create *)

#[export] Instance main_pc_eq_dec : EqDecision main_pc.
Proof. solve_decision. Defined.

(** The lines that are not messages: [thr_func1] and [thr_func2] print the
    process's and their own identifiers.  The cleanup handlers are pushed and popped
    with 0, so that [cleanup] never runs; the identifiers and exit codes behind the
    joins are never printed. *)
Inductive note := Ids (thread : nat).

Record prog_state := Program {
  p_main : main_pc;
  p_fp : bool;                 (* whether foo_alloc gave an object *)
  p_consumers : list consumer;
  p_notes : list note;
  p_queue : state
}.

Definition with_main pc s := Program pc (p_fp s) (p_consumers s) (p_notes s) (p_queue s).
Definition with_fp b s := Program (p_main s) b (p_consumers s) (p_notes s) (p_queue s).
Definition with_consumer k c s := Program (p_main s) (p_fp s) (<[k := c]> (p_consumers s)) (p_notes s) (p_queue s).
Definition add_note n s := Program (p_main s) (p_fp s) (p_consumers s) (p_notes s ++ [n]) (p_queue s).
Definition with_queue q s := Program (p_main s) (p_fp s) (p_consumers s) (p_notes s) q.

(** Thread [i] of the queue, where 2 is [main], has begun with it. *)
Definition active (s : prog_state) (i : tid) : Prop :=
  p_consumers s !! i = Some Serving \/ (i = 2%nat /\ p_main s = MSend).

Inductive program_step : prog_state -> prog_state -> Prop :=
  | s_alloc s b : p_main s = MAlloc -> program_step s (with_main (MCreate 0) (with_fp b s))
  | s_create s k : p_main s = MCreate k -> (k < 2)%nat ->
      program_step s (with_main (if decide (k = 1%nat) then MSend else MCreate (k + 1)) (with_consumer k New s))
  | s_refused s k : p_main s = MCreate k -> (k < 2)%nat -> program_step s (with_main MExit s)
  | s_ids s k : p_main s <> MExit -> p_consumers s !! k = Some New ->
      program_step s (add_note (Ids k) (with_consumer k Serving s))
  | s_queue s e q : p_main s <> MExit -> step (p_queue s) e q ->
      (forall i, ~ active s i -> threads q !! i = threads (p_queue s) !! i) ->
      program_step s (with_queue q s).

Definition program_start : prog_state := Program MAlloc false [Unborn; Unborn] [] main_start.
