(* ===== verification/QueueProgramTheorems.v ===== *)
(** * QueueProgramTheorems: pthread_create.c as a whole *)

From stdpp Require Import relations.
From S2P Require Import Prelude WorkQueue WorkQueueTheorems QueueProgram.

(** ** The queue while [main] does not send *)








(** ** The program *)











(** ** A concrete run *)





