(* ===== verification/RefCount.v ===== *)
(** * RefCount: the shared object of net/pthread/pthread_create.c

    [foo_alloc], [foo_hold] and [foo_rele] as a step relation of threads that
    share one object, each with the calls it has still to make. *)

From S2P Require Import Prelude.

Abbreviation tid := nat.

Definition INT_MAX : Z := 2 ^ 31 - 1.

Inductive foo_call := Hold | Rele.

Inductive foo_pc :=
  | FIdle                (* between two calls *)
  | HInc                 (* foo_hold: fp->f_count++ *)
  | HUnlock              (* foo_hold: unlock *)
  | RDec                 (* foo_rele: --fp->f_count == 0 *)
  | RUnlockLast          (* last reference: unlock, *)
  | RDestroy             (* destroy the mutex *)
  | RFree                (* and free the object *)
  | RUnlock.             (* otherwise: unlock *)

Record foo := mkFoo { f_count : Z; f_lock : option tid; f_destroyed : bool }.

Record foo_thread := mkFooThread { ft_pc : foo_pc; ft_calls : list foo_call }.

Record foo_state := mkFooState { the_foo : option foo; foo_threads : list foo_thread }.

Definition foo_alloc (memory lockable : bool) : option foo :=
  if memory && lockable then Some (mkFoo 1 None false) else None.

Definition set_thread i t (s : foo_state) : foo_state :=
  mkFooState (the_foo s) (<[i := t]> (foo_threads s)).
Definition set_foo o (s : foo_state) : foo_state := mkFooState o (foo_threads s).

Inductive foo_step : foo_state -> foo_state -> Prop :=
  | h_lock s i f cs : foo_threads s !! i = Some (mkFooThread FIdle (Hold :: cs)) ->
      the_foo s = Some f -> f_lock f = None ->
      foo_step s (set_foo (Some (mkFoo (f_count f) (Some i) (f_destroyed f)))
                   (set_thread i (mkFooThread HInc cs) s))
  | h_inc s i f cs : foo_threads s !! i = Some (mkFooThread HInc cs) -> the_foo s = Some f ->
      foo_step s (set_foo (Some (mkFoo (f_count f + 1) (f_lock f) (f_destroyed f)))
                   (set_thread i (mkFooThread HUnlock cs) s))
  | h_unlock s i f cs : foo_threads s !! i = Some (mkFooThread HUnlock cs) -> the_foo s = Some f ->
      foo_step s (set_foo (Some (mkFoo (f_count f) None (f_destroyed f)))
                   (set_thread i (mkFooThread FIdle cs) s))
  | r_lock s i f cs : foo_threads s !! i = Some (mkFooThread FIdle (Rele :: cs)) ->
      the_foo s = Some f -> f_lock f = None ->
      foo_step s (set_foo (Some (mkFoo (f_count f) (Some i) (f_destroyed f)))
                   (set_thread i (mkFooThread RDec cs) s))
  | r_dec s i f cs : foo_threads s !! i = Some (mkFooThread RDec cs) -> the_foo s = Some f ->
      foo_step s (set_foo (Some (mkFoo (f_count f - 1) (f_lock f) (f_destroyed f)))
                   (set_thread i (mkFooThread (if f_count f - 1 =? 0 then RUnlockLast else RUnlock) cs) s))
  | r_unlock_last s i f cs : foo_threads s !! i = Some (mkFooThread RUnlockLast cs) ->
      the_foo s = Some f ->
      foo_step s (set_foo (Some (mkFoo (f_count f) None (f_destroyed f)))
                   (set_thread i (mkFooThread RDestroy cs) s))
  | r_destroy s i f cs : foo_threads s !! i = Some (mkFooThread RDestroy cs) -> the_foo s = Some f ->
      foo_step s (set_foo (Some (mkFoo (f_count f) (f_lock f) true))
                   (set_thread i (mkFooThread RFree cs) s))
  | r_free s i f cs : foo_threads s !! i = Some (mkFooThread RFree cs) -> the_foo s = Some f ->
      foo_step s (set_foo None (set_thread i (mkFooThread FIdle cs) s))
  | r_unlock s i f cs : foo_threads s !! i = Some (mkFooThread RUnlock cs) -> the_foo s = Some f ->
      foo_step s (set_foo (Some (mkFoo (f_count f) None (f_destroyed f)))
                   (set_thread i (mkFooThread FIdle cs) s)).

Inductive foo_reaches (s0 : foo_state) : foo_state -> Prop :=
  | fr_start : foo_reaches s0 s0
  | fr_step s s' : foo_reaches s0 s -> foo_step s s' -> foo_reaches s0 s'.

(** A thread whose next access to the object goes wrong: it has been freed, its
    mutex destroyed, or the [int] count cannot be incremented. *)
Definition foo_faulty (s : foo_state) (t : foo_thread) : Prop :=
  match ft_pc t, ft_calls t, the_foo s with
  | FIdle, [], _ => False
  | _, _, None => True
  | RFree, _, Some _ => False
  | HInc, _, Some f => f_destroyed f = true \/ f_count f = INT_MAX
  | _, _, Some f => f_destroyed f = true
  end.

(** The references a thread must own before these calls to own none after. *)
Definition refs (cs : list foo_call) : Z :=
  foldr (fun c n => match c with Hold => n - 1 | Rele => n + 1 end) 0 cs.

(** Threads that share an object on which they hold the references their calls
    release; with a single reference it is what [foo_alloc] returns. *)
Definition foo_start (calls : list (list foo_call)) : foo_state :=
  mkFooState (Some (mkFoo (foldr Z.add 0 (refs <$> calls)) None false))
    (mkFooThread FIdle <$> calls).

(** The step of one thread as a function, to run schedules. *)
Definition foo_advance (s : foo_state) (i : tid) : option foo_state :=
  t ← foo_threads s !! i; f ← the_foo s;
  let go f' pc cs := Some (set_foo f' (set_thread i (mkFooThread pc cs) s)) in
  let lock o := Some (mkFoo (f_count f) o (f_destroyed f)) in
  match ft_pc t, ft_calls t with
  | FIdle, [] => None
  | FIdle, c :: cs =>
      guard (f_lock f = None);; go (lock (Some i)) (match c with Hold => HInc | Rele => RDec end) cs
  | HInc, cs => go (Some (mkFoo (f_count f + 1) (f_lock f) (f_destroyed f))) HUnlock cs
  | RDec, cs =>
      go (Some (mkFoo (f_count f - 1) (f_lock f) (f_destroyed f)))
        (if f_count f - 1 =? 0 then RUnlockLast else RUnlock) cs
  | RUnlockLast, cs => go (lock None) RDestroy cs
  | RDestroy, cs => go (Some (mkFoo (f_count f) (f_lock f) true)) RFree cs
  | RFree, cs => go None FIdle cs
  | HUnlock, cs | RUnlock, cs => go (lock None) FIdle cs
  end.

Fixpoint foo_run (sched : list tid) (s : foo_state) : foo_state :=
  match sched with
  | [] => s
  | i :: sched' => foo_run sched' (default s (foo_advance s i))
  end.
