(* ===== verification/RefCountTheorems.v ===== *)
(** * RefCountTheorems: when the shared object is freed

    However the holders interleave, nobody touches the object after it has been
    freed, and it is freed exactly when the last reference has been released. *)

From S2P Require Import Prelude RefCount.

(** ** The invariant *)

(** Before every call the thread owns a reference. *)
Fixpoint legal (cs : list foo_call) : Prop :=
  match cs with [] => True | _ :: cs' => 0 < refs cs /\ legal cs' end.

Definition holds (cs : list foo_call) : Z :=
  foldr (fun c n => match c with Hold => n + 1 | Rele => n end) 0 cs.

Lemma legal_refs cs : legal cs -> 0 <= refs cs /\ (refs cs = 0 -> cs = []).
Proof.
  destruct cs as [|c cs]; [done|]. change (legal (c :: cs)) with (0 < refs (c :: cs) /\ legal cs).
  intros [Hpos _]. split; [lia|]. intros E. lia.
Qed.

Lemma refs_Hold cs : refs (Hold :: cs) = refs cs - 1. Proof. done. Qed.
Lemma refs_Rele cs : refs (Rele :: cs) = refs cs + 1. Proof. done. Qed.
Lemma holds_Hold cs : holds (Hold :: cs) = holds cs + 1. Proof. done. Qed.
Lemma holds_Rele cs : holds (Rele :: cs) = holds cs. Proof. done. Qed.

Lemma holds_nonneg cs : 0 <= holds cs.
Proof. unfold holds. induction cs as [|[] cs IH]; cbn; lia. Qed.

#[local] Arguments refs : simpl never.
#[local] Arguments holds : simpl never.

(** What a thread contributes to the count, and what it may still add to it. *)
Definition share (t : foo_thread) : Z :=
  match ft_pc t with
  | HInc => refs (ft_calls t) - 1 | RDec => refs (ft_calls t) + 1 | _ => refs (ft_calls t)
  end.

Definition room (t : foo_thread) : Z :=
  share t + holds (ft_calls t) + match ft_pc t with HInc => 1 | _ => 0 end.

Definition locking (p : foo_pc) : bool :=
  match p with HInc | HUnlock | RDec | RUnlock | RUnlockLast => true | _ => false end.

Definition thread_ok (t : foo_thread) : Prop :=
  legal (ft_calls t) /\ (ft_pc t = HInc -> 0 < share t) /\ ft_pc t <> RDestroy /\ ft_pc t <> RFree.

Fixpoint total (w : foo_thread -> Z) (ts : list foo_thread) : Z :=
  match ts with [] => 0 | t :: ts' => w t + total w ts' end.

Definition rest (t : foo_thread) : Prop := t = mkFooThread FIdle [].

Lemma rest_or_not t : rest t \/ ~ rest t.
Proof.
  destruct t as [p cs]. destruct p; try (by right). destruct cs; [by left|by right].
Qed.

(** Nobody has freed the object yet. *)
Record alive (f : foo) (ts : list foo_thread) : Prop := mkAlive {
  a_mutex : f_destroyed f = false;
  a_lock i t : ts !! i = Some t -> (locking (ft_pc t) = true <-> f_lock f = Some i);
  a_ok i t : ts !! i = Some t -> thread_ok t;
  a_count : f_count f = total share ts;
  a_room : total room ts <= INT_MAX;
  a_last i t : ts !! i = Some t -> ft_pc t = RUnlockLast -> f_count f = 0;
  a_pos : f_count f = 0 -> exists i t, ts !! i = Some t /\ ft_pc t = RUnlockLast
}.

Definition foo_inv (s : foo_state) : Prop :=
  match the_foo s with
  | Some f =>
      alive f (foo_threads s) \/
      f_count f = 0 /\
      exists i, foo_threads s !! i = Some (mkFooThread (if f_destroyed f then RFree else RDestroy) []) /\
        forall j t, foo_threads s !! j = Some t -> j <> i -> rest t
  | None => Forall rest (foo_threads s)
  end.

Lemma total_update w ts i old new :
  ts !! i = Some old -> total w (<[i := new]> ts) = total w ts - w old + w new.
Proof.
  revert i. induction ts as [|t ts IH]; intros i Hi; [done|].
  destruct i as [|i]; simpl in *; [simplify_eq; lia|]. rewrite (IH i Hi). lia.
Qed.

Lemma share_nonneg t : thread_ok t -> 0 <= share t.
Proof.
  intros (Hl & Hi & _). pose proof (legal_refs _ Hl) as [? _]. unfold share in *.
  destruct (ft_pc t); try lia. specialize (Hi eq_refl). lia.
Qed.

Lemma total_nonneg ts : (forall j u, ts !! j = Some u -> 0 <= share u) -> 0 <= total share ts.
Proof.
  induction ts as [|u ts IH]; intros Hpos; cbn; [done|].
  assert (0 <= share u) by by apply (Hpos 0%nat).
  specialize (IH (fun j => Hpos (S j))). lia.
Qed.

Lemma total_zero ts i t :
  (forall j u, ts !! j = Some u -> 0 <= share u) -> total share ts = 0 -> ts !! i = Some t -> share t = 0.
Proof.
  revert i. induction ts as [|u ts IH]; intros i Hpos Hz Hi; [done|]. cbn in Hz.
  assert (0 <= share u) by by apply (Hpos 0%nat).
  pose proof (total_nonneg ts (fun j => Hpos (S j))) as Hrest.
  destruct i as [|i]; cbn in Hi; [simplify_eq; lia|].
  apply (IH i); [intros j; apply (Hpos (S j))|lia|done].
Qed.

(** While thread [i] has the mutex or can take it, nobody else has, and the count
    is zero only if [i] has just released the last reference. *)
Lemma alive_positive f ts i old :
  alive f ts -> ts !! i = Some old -> f_lock f = None \/ f_lock f = Some i ->
  (forall j t, ts !! j = Some t -> j <> i -> locking (ft_pc t) = false) /\
  (ft_pc old <> RUnlockLast -> 0 < f_count f).
Proof.
  intros Ha Hi Hlock.
  assert (forall j t, ts !! j = Some t -> j <> i -> locking (ft_pc t) = false) as Hout.
  { intros j t Hj Hne. destruct (locking (ft_pc t)) eqn:E; [|done].
    apply (a_lock f ts Ha j t Hj) in E. destruct Hlock; congruence. }
  split; [done|]. intros Hold. assert (0 <= f_count f).
  { rewrite (a_count f ts Ha). apply total_nonneg. intros j t Hj.
    by apply share_nonneg, (a_ok f ts Ha j). }
  assert (f_count f <> 0); [|lia]. intros (j & t & Hj & Hpc)%(a_pos f ts Ha).
  destruct (decide (j = i)) as [->|Hne]; [congruence|].
  specialize (Hout j t Hj Hne). by rewrite Hpc in Hout.
Qed.

Lemma total_le v w ts i t :
  (forall u, v u <= w u) -> ts !! i = Some t -> total v ts + (w t - v t) <= total w ts.
Proof.
  intros Hvw. revert i. induction ts as [|u ts IH]; intros i Hi; [done|].
  assert (total v ts <= total w ts).
  { clear -Hvw. induction ts as [|u ts IH]; cbn; [done|]. specialize (Hvw u). lia. }
  destruct i as [|i]; cbn in *; [simplify_eq; lia|]. specialize (IH i Hi). specialize (Hvw u). lia.
Qed.

Lemma alive_below_max f ts i t :
  alive f ts -> ts !! i = Some t -> ft_pc t = HInc -> f_count f < INT_MAX.
Proof.
  intros Ha Hi Hpc. rewrite (a_count f ts Ha). pose proof (a_room f ts Ha) as Hroom.
  pose proof (total_le share room ts i t) as Hle. pose proof (holds_nonneg (ft_calls t)).
  unfold room at 2 in Hle. rewrite Hpc in Hle.
  assert (forall u, share u <= room u) as Hu.
  { intros u. unfold room. pose proof (holds_nonneg (ft_calls u)). destruct (ft_pc u); lia. }
  specialize (Hle Hu Hi). lia.
Qed.

(** One thread of a live object moves on. *)
Lemma alive_move f f' ts i old new :
  alive f ts -> ts !! i = Some old -> f_lock f = None \/ f_lock f = Some i ->
  thread_ok new -> f_destroyed f' = false ->
  f_count f' = f_count f - share old + share new -> room new <= room old ->
  (locking (ft_pc new) = true <-> f_lock f' = Some i) ->
  f_lock f' = None \/ f_lock f' = Some i ->
  (ft_pc new = RUnlockLast <-> f_count f' = 0) ->
  alive f' (<[i := new]> ts).
Proof.
  intros Ha Hi Hlock Hok Hd Hc Hr Hl Hlock' Hlast.
  destruct (alive_positive f ts i old Ha Hi Hlock) as [Hout _].
  split.
  - done.
  - intros j t [[-> ->]|[Hne Hj]]%insert_lookup_Some; [done|]. rewrite (Hout j t Hj Hne).
    split; [done|]. destruct Hlock'; congruence.
  - intros j t [[-> ->]|[Hne Hj]]%insert_lookup_Some; [done|]. by apply (a_ok f ts Ha j).
  - by rewrite (total_update _ _ _ _ _ Hi), Hc, (a_count f ts Ha).
  - rewrite (total_update _ _ _ _ _ Hi). pose proof (a_room f ts Ha). lia.
  - intros j t [[-> ->]|[Hne Hj]]%insert_lookup_Some Hpc; [by apply Hlast|].
    specialize (Hout j t Hj Hne). by rewrite Hpc in Hout.
  - intros Hz. exists i, new. split; [|by apply Hlast].
    apply list_lookup_insert_eq. by eapply lookup_lt_Some.
Qed.

Lemma inv_alive s f i t :
  foo_inv s -> the_foo s = Some f -> foo_threads s !! i = Some t -> ~ rest t ->
  ft_pc t <> RDestroy -> ft_pc t <> RFree -> alive f (foo_threads s).
Proof.
  unfold foo_inv. intros Hinv Hf Hi Hrest Hd Hr. rewrite Hf in Hinv.
  destruct Hinv as [|(Hz & k & Hk & Hout)]; [done|].
  destruct (decide (i = k)) as [->|Hne]; [|by destruct Hrest; eapply Hout].
  simplify_eq. by destruct (f_destroyed f).
Qed.

Lemma inv_dying s f i t :
  foo_inv s -> the_foo s = Some f -> foo_threads s !! i = Some t ->
  ft_pc t = RDestroy \/ ft_pc t = RFree ->
  f_count f = 0 /\ t = mkFooThread (if f_destroyed f then RFree else RDestroy) [] /\
  forall j u, foo_threads s !! j = Some u -> j <> i -> rest u.
Proof.
  unfold foo_inv. intros Hinv Hf Hi Hpc. rewrite Hf in Hinv. destruct Hinv as [Ha|(Hz & k & Hk & Hout)].
  - destruct (a_ok _ _ Ha i t Hi) as (_ & _ & ? & ?). by destruct Hpc.
  - destruct (decide (i = k)) as [->|Hne]; [by simplify_eq|].
    rewrite (Hout i t Hi Hne) in Hpc. by destruct Hpc.
Qed.

(** A step of a live object, at a place where the mutex is held or taken. *)
Ltac alive_step Hinv :=
  match goal with Hi : foo_threads _ !! _ = Some _, Hf : the_foo _ = Some _ |- _ =>
    pose proof (inv_alive _ _ _ _ Hinv Hf Hi ltac:(done) ltac:(done) ltac:(done)) as Ha;
    pose proof (a_ok _ _ Ha _ _ Hi) as (Hlegal & Hinc & _);
    pose proof (a_lock _ _ Ha _ _ Hi) as Hlock; pose proof (a_mutex _ _ Ha) as Hmutex;
    pose proof (alive_positive _ _ _ _ Ha Hi ltac:(tauto)) as [_ Hpos];
    cbn in Hlegal, Hlock, Hinc, Hpos; rewrite ?refs_Hold, ?refs_Rele in *
  end.

Ltac foo_arith :=
  unfold room, share, thread_ok in *; cbn in *;
  rewrite ?refs_Hold, ?refs_Rele, ?holds_Hold, ?holds_Rele in *; intuition (try done; lia).

(** Whoever released the last reference is the only thread with anything to do. *)
Lemma last_alone f ts i cs :
  alive f ts -> ts !! i = Some (mkFooThread RUnlockLast cs) ->
  cs = [] /\ forall j t, ts !! j = Some t -> j <> i -> rest t.
Proof.
  intros Ha Hi. pose proof (a_last f ts Ha i _ Hi eq_refl) as Hz. rewrite (a_count f ts Ha) in Hz.
  assert (f_lock f = Some i) as Hl by by apply (a_lock f ts Ha i _ Hi).
  destruct (alive_positive f ts i _ Ha Hi ltac:(by right)) as [Hout _].
  assert (forall j t, ts !! j = Some t -> share t = 0 /\ legal (ft_calls t)) as Hshare.
  { intros j t Hj. split; [|apply (a_ok f ts Ha j t Hj)].
    eapply total_zero; [|done..]. intros k u Hk. by apply share_nonneg, (a_ok f ts Ha k). }
  split; [by destruct (Hshare i _ Hi) as [? [_ Hnil]%legal_refs]; apply Hnil|].
  intros j t Hj Hne. destruct (Hshare j t Hj) as [Hs [_ Hnil]%legal_refs].
  destruct (a_ok f ts Ha j t Hj) as (_ & _ & ? & ?). specialize (Hout j t Hj Hne).
  destruct t as [p c]. destruct p; try done. unfold rest. f_equal. by apply Hnil.
Qed.

Lemma step_foo_inv s s' : foo_inv s -> foo_step s s' -> foo_inv s'.
Proof.
  intros Hinv Hstep. destruct Hstep.
  - alive_step Hinv. left. eapply alive_move; try done; foo_arith.
  - alive_step Hinv. left. eapply alive_move; try done; foo_arith.
  - alive_step Hinv. left. eapply alive_move; try done; foo_arith.
  - alive_step Hinv. left. eapply alive_move; try done; foo_arith.
  - alive_step Hinv. left. destruct (Z.eqb_spec (f_count f - 1) 0);
      (eapply alive_move; [done|done| | | | | | | |]); foo_arith.
  - alive_step Hinv. right.
    split; [exact (a_last _ _ Ha i _ H eq_refl)|]. exists i.
    destruct (last_alone f (foo_threads s) i cs Ha H) as [-> Hout]. cbn. rewrite Hmutex.
    split; [by apply list_lookup_insert_eq; eapply lookup_lt_Some|].
    intros j u [[-> ->]|[Hne Hj]]%insert_lookup_Some Hji; [done|]. by eapply Hout.
  - destruct (inv_dying s f i _ Hinv H0 H ltac:(by left)) as (Hz & E & Hout). right.
    split; [exact Hz|]. exists i. cbn.
    rewrite list_lookup_insert_eq by by eapply lookup_lt_Some. split; [congruence|].
    intros j u [[-> ->]|[Hne Hj]]%insert_lookup_Some Hji; [done|]. by eapply Hout.
  - destruct (inv_dying s f i _ Hinv H0 H ltac:(by right)) as (Hz & E & Hout).
    apply Forall_lookup. intros j u [[-> ->]|[Hne Hj]]%insert_lookup_Some.
    + unfold rest. congruence.
    + by eapply Hout.
  - alive_step Hinv. left. eapply alive_move; try done; foo_arith.
Qed.

Lemma total_start w calls :
  total w (mkFooThread FIdle <$> calls) = foldr Z.add 0 ((fun cs => w (mkFooThread FIdle cs)) <$> calls).
Proof. induction calls as [|cs calls IH]; cbn; [done|]. by rewrite IH. Qed.

Lemma foo_start_inv calls :
  Forall legal calls -> 0 < foldr Z.add 0 (refs <$> calls) ->
  foldr Z.add 0 (refs <$> calls) + foldr Z.add 0 (holds <$> calls) <= INT_MAX ->
  foo_inv (foo_start calls).
Proof.
  intros Hlegal Hpos Hroom. left. cbn.
  assert (forall i t, (mkFooThread FIdle <$> calls) !! i = Some t ->
    ft_pc t = FIdle /\ legal (ft_calls t)) as Hidle.
  { intros i t Hi. apply list_lookup_fmap_Some in Hi as (cs & -> & Hcs).
    split; [done|]. by eapply Forall_lookup_1 in Hlegal. }
  split; cbn; try done.
  - intros i t Hi. destruct (Hidle i t Hi) as [-> _]. done.
  - intros i t Hi. destruct (Hidle i t Hi) as [E Hl]. unfold thread_ok. by rewrite E.
  - by rewrite total_start.
  - rewrite total_start. etransitivity; [|exact Hroom]. clear. unfold room, share. cbn.
    induction calls as [|cs calls IH]; cbn; lia.
  - intros i t Hi. destruct (Hidle i t Hi) as [-> _]. done.
  - lia.
Qed.

Lemma total_refs ts :
  (forall i t, ts !! i = Some t -> locking (ft_pc t) = false) ->
  total share ts = foldr Z.add 0 ((fun t => refs (ft_calls t)) <$> ts).
Proof.
  induction ts as [|t ts IH]; intros Hout; [done|]. cbn. rewrite (IH (fun i => Hout (S i))).
  specialize (Hout 0%nat t eq_refl). unfold share. by destruct (ft_pc t).
Qed.

Lemma refs_nothing ts :
  (forall i t, ts !! i = Some t -> ft_calls t = []) ->
  foldr Z.add 0 ((fun t => refs (ft_calls t)) <$> ts) = 0.
Proof.
  induction ts as [|t ts IH]; intros Hnone; [done|]. cbn. rewrite (IH (fun i => Hnone (S i))).
  by rewrite (Hnone 0%nat t eq_refl).
Qed.

Section Shared.

(** Threads whose calls are legal and do not together overflow the count. *)
Variable calls : list (list foo_call).
Hypothesis calls_legal : Forall legal calls.
Hypothesis some_reference : 0 < foldr Z.add 0 (refs <$> calls).
Hypothesis no_overflow :
  foldr Z.add 0 (refs <$> calls) + foldr Z.add 0 (holds <$> calls) <= INT_MAX.

Lemma foo_reaches_inv s : foo_reaches (foo_start calls) s -> foo_inv s.
Proof.
  induction 1 as [|s s' _ IH Hstep]; [by apply foo_start_inv|]. by eapply step_foo_inv.
Qed.

(** The object is freed exactly when the last reference has been released:
    it is gone if and only if no thread has a call left to make, and while it is
    there and its mutex free, [f_count] is the number of references held. *)
Theorem foo_is_freed_with_its_last_reference s :
  foo_reaches (foo_start calls) s ->
  (the_foo s = None <-> Forall (fun t => t = mkFooThread FIdle []) (foo_threads s)) /\
  (forall f, the_foo s = Some f -> f_lock f = None ->
    f_count f = foldr Z.add 0 ((fun t => refs (ft_calls t)) <$> foo_threads s)).
Proof.
  intros Hreach. pose proof (foo_reaches_inv s Hreach) as Hinv. unfold foo_inv in Hinv.
  destruct (the_foo s) as [f|]; [|split; [done|by intros]].
  destruct Hinv as [Ha|(Hz & k & Hk & Hout)]; (split; [split; [done|intros Hall; exfalso]|]).
  - assert (forall i t, foo_threads s !! i = Some t -> t = mkFooThread FIdle []) as Hidle
      by (intros i t Hi; by eapply Forall_lookup_1 in Hall).
    assert (f_count f = 0) as Hz.
    { rewrite (a_count _ _ Ha). clear -Hall. by induction Hall as [|t ts -> _ IH]. }
    destruct (a_pos _ _ Ha Hz) as (i & t & Hi & Hpc). by rewrite (Hidle i t Hi) in Hpc.
  - intros f' [= <-] Hfree. rewrite (a_count _ _ Ha). apply total_refs.
    intros i t Hi. destruct (locking (ft_pc t)) eqn:E; [|done].
    apply (a_lock _ _ Ha i t Hi) in E. congruence.
  - eapply Forall_lookup_1 in Hall; [|exact Hk]. by destruct (f_destroyed f).
  - intros f' [= <-] _. rewrite Hz. symmetry. apply refs_nothing. intros j t Hj.
    destruct (decide (j = k)) as [->|Hne]; [by simplify_eq|]. by rewrite (Hout j t Hj Hne).
Qed.

End Shared.

(** C33: safety of [foo_hold] and [foo_rele]: of threads that each release what they
    hold, that call them only while they hold a reference, and whose references
    and calls of [foo_hold] together do not exceed [INT_MAX], in no interleaving
    does any thread touch the object or its mutex after [foo_rele] destroyed it,
    free it twice, or overflow the count. *)
Theorem foo_is_never_used_after_free calls s i t :
  Forall legal calls -> 0 < foldr Z.add 0 (refs <$> calls) ->
  foldr Z.add 0 (refs <$> calls) + foldr Z.add 0 (holds <$> calls) <= INT_MAX ->
  foo_reaches (foo_start calls) s -> foo_threads s !! i = Some t -> ~ foo_faulty s t.
Proof.
  intros Hlegal Hsome Hroom Hreach Hi Hbad. pose proof (foo_reaches_inv calls Hlegal Hsome Hroom s Hreach) as Hinv.
  destruct (rest_or_not t) as [->|Hrest]; [done|]. unfold foo_inv in Hinv. unfold foo_faulty in Hbad.
  destruct (the_foo s) as [f|]; [|by eapply Forall_lookup_1 in Hinv].
  destruct Hinv as [Ha|(Hz & k & Hk & Hout)].
  - pose proof (a_mutex _ _ Ha) as Hm. pose proof (alive_below_max f _ i t Ha Hi) as Hmax.
    destruct (ft_pc t) eqn:E, (ft_calls t); try congruence; try done;
      (destruct Hbad; [congruence|]); specialize (Hmax eq_refl); lia.
  - destruct (decide (i = k)) as [->|Hne]; [|by destruct Hrest; eapply Hout].
    simplify_eq. cbn in Hbad. destruct (f_destroyed f) eqn:E; [done|congruence].
Qed.

Lemma foo_alloc_starts memory lockable f :
  foo_alloc memory lockable = Some f -> the_foo (foo_start [[Rele]]) = Some f.
Proof. unfold foo_alloc. by destruct memory, lockable. Qed.

(** ** Concrete runs *)

(** [main] holds the object twice and passes one reference to another thread. *)
Definition two_holders : list (list foo_call) := [[Rele]; [Hold; Rele; Rele]].

Lemma two_holders_legal :
  Forall legal two_holders /\ 0 < foldr Z.add 0 (refs <$> two_holders) /\
  foldr Z.add 0 (refs <$> two_holders) + foldr Z.add 0 (holds <$> two_holders) <= INT_MAX.
Proof. split; [repeat constructor|]. by split. Qed.

Lemma foo_advance_step s i s' : foo_advance s i = Some s' -> foo_step s s'.
Proof.
  unfold foo_advance. destruct (foo_threads s !! i) as [[p cs]|] eqn:Ht; [|done].
  destruct (the_foo s) as [f|] eqn:Hf; [|done]. cbn.
  destruct p; [destruct cs as [|c cs]; [done|]; case_guard; [|done]; destruct c|..]; intros [= <-];
    [by eapply h_lock|by eapply r_lock|by eapply h_inc|by eapply h_unlock|by eapply r_dec|by eapply r_unlock_last
    |by eapply r_destroy|by eapply r_free|by eapply r_unlock].
Qed.

Lemma foo_run_reaches sched s0 s : foo_reaches s0 s -> foo_reaches s0 (foo_run sched s).
Proof.
  revert s. induction sched as [|i sched IH]; intros s Hs; [done|]. cbn. apply IH.
  destruct (foo_advance s i) as [s'|] eqn:E; [|done]. eapply fr_step; [exact Hs|]. by eapply foo_advance_step.
Qed.

(** The second thread takes another reference, the first releases its own, and
    the second is about to free the object, whose mutex it has destroyed. *)
Definition about_to_free : foo_state :=
  foo_run [1; 0; 1; 1; 0; 0; 0; 1; 1; 1; 1; 1; 1; 1]%nat (foo_start two_holders).

Lemma about_to_free_reached : foo_reaches (foo_start two_holders) about_to_free.
Proof. apply foo_run_reaches. constructor. Qed.

Lemma foo_is_never_used_after_free_witness :
  the_foo about_to_free = Some (mkFoo 0 None true) /\
  foo_threads about_to_free = [mkFooThread FIdle []; mkFooThread RFree []] /\
  ~ foo_faulty about_to_free (mkFooThread RFree []).
Proof.
  destruct two_holders_legal as (Hl & Hp & Hm). split; [vm_compute; reflexivity|]. split; [vm_compute; reflexivity|].
  apply (foo_is_never_used_after_free two_holders about_to_free 1 _ Hl Hp Hm about_to_free_reached).
  vm_compute. reflexivity.
Defined.

Lemma foo_is_freed_with_its_last_reference_witness :
  the_foo (foo_start two_holders) = Some (mkFoo 2 None false) /\
  ~ Forall (fun t => t = mkFooThread FIdle []) (foo_threads (foo_start two_holders)).
Proof.
  destruct two_holders_legal as (Hl & Hp & Hm). split; [reflexivity|].
  rewrite <- (proj1 (foo_is_freed_with_its_last_reference two_holders Hl Hp Hm _ (fr_start _))).
  done.
Defined.
