(* ===== verification/Objects.v ===== *)
(** * Objects: the lifetimes of objects (c++/test_constructor_sequence.cpp,
    c++/singeleton.cpp)

    What the constructors and destructors of the exercise classes print, in the
    order the language runs them, and function-local static objects. *)

From S2P Require Import Prelude.

Module Sequence.

#[local] Set Warnings "-register-all".

(** A class: what its constructors and its destructor print, its base classes
    and its members, in the order of their declarations. *)
Inductive class := Class {
  c_name : string;
  c_default : string;
  c_copy : string;
  c_dtor : string;
  c_bases : list class;
  c_members : list (string * class)
}.

(** What a program prints, with the object a line is about. *)
Inductive event :=
  | Built (name line : string)
  | Gone (name line : string)
  | Said (line : string).

Definition line_of (e : event) : string :=
  match e with Built _ l | Gone _ l | Said l => l end.

(** A default constructor: bases, members, then its own body. *)
Fixpoint construct (c : class) : list event :=
  concat (map construct (c_bases c)) ++
  concat (map (fun m => construct (snd m)) (c_members c)) ++
  [Built (c_name c) (c_default c)].

(** A copy constructor without initialisers: bases and members are default
    constructed. *)
Definition copy_construct (c : class) : list event :=
  concat (map construct (c_bases c)) ++
  concat (map (fun m => construct (snd m)) (c_members c)) ++
  [Built (c_name c) (c_copy c)].

(** Destruction: the body, then the members and the bases, last one first. *)
Fixpoint destroy (c : class) : list event :=
  Gone (c_name c) (c_dtor c) ::
  concat (rev (map (fun m => destroy (snd m)) (c_members c))) ++
  concat (rev (map destroy (c_bases c))).

(** A constructor with a list of initialisers [m(arg)]: each names a member and
    the class of the argument it is copied from. *)
Definition initialiser := (string * class)%type.

Fixpoint find_init (m : string) (inits : list initialiser) : option class :=
  match inits with
  | [] => None
  | (n, a) :: inits' => if decide (n = m) then Some a else find_init m inits'
  end.

Definition build_member (inits : list initialiser) (m : string * class) : list event :=
  match find_init m.1 inits with Some _ => copy_construct m.2 | None => construct m.2 end.

Definition construct_with (line : string) (inits : list initialiser) (c : class) : list event :=
  concat (map construct (c_bases c)) ++
  concat (map (build_member inits) (c_members c)) ++
  [Built (c_name c) line].

(** A local variable: its class, and how it is constructed. *)
Inductive local :=
  | Default (c : class)
  | With (line : string) (inits : list initialiser) (c : class).

Definition class_of (l : local) : class := match l with Default c | With _ _ c => c end.
Definition build (l : local) : list event :=
  match l with Default c => construct c | With line inits c => construct_with line inits c end.

(** A function body: lines printed and variables defined; at its end the
    variables are destroyed, last one first. *)
Inductive stmt := Say (line : string) | Define (l : local).

Definition exec_stmt (s : stmt) : list event :=
  match s with Say l => [Said l] | Define l => build l end.
Definition locals_of (body : list stmt) : list class :=
  flat_map (fun s => match s with Say _ => [] | Define l => [class_of l] end) body.
Definition run_function (body : list stmt) : list event :=
  concat (map exec_stmt body) ++ concat (map destroy (rev (locals_of body))).

(** ** The classes and the main function of test_constructor_sequence.cpp *)

Definition Foo : class :=
  Class "Foo" "Foo constructor" "Foo copy constructor" "Foo deconstructor" [] [].
Definition Bar : class :=
  Class "Bar" "Bar constructor" "Bar copy constructor" "Bar deconstructor" [] [].
Definition Base : class := Class "Base" "Base constructor" "" "Base deconstructor" [] [].
Definition Derived : class :=
  Class "Derived" "Derived constructor without arguments" "" "Derived deconstructor"
    [Base] [("m_foo", Foo); ("m_bar", Bar)]%string.

Definition Derived_foo_bar : local :=
  With "Derived constructor with argument[Foo foo, Bar bar] passed by references"
    [("m_foo", Foo); ("m_bar", Bar)]%string Derived.
Definition Derived_bar_foo : local :=
  With "Derived constructor with argument[Bar bar, Foo foo] passed by references"
    [("m_bar", Bar); ("m_foo", Foo)]%string Derived.

Definition main_body : list stmt :=
  [Define (Default Foo); Define (Default Bar);
   Say "test case 1:"; Define (Default Derived);
   Say "test case 2:"; Define Derived_foo_bar;
   Say "test case 3:"; Define Derived_bar_foo;
   Say "test case end"].

End Sequence.

Module Singleton.

Inductive cls := QMManager | QMSqlite.

#[global] Instance cls_eq_dec : EqDecision cls.
Proof. solve_decision. Defined.

(** A function-local [static] object: not yet reached, in its constructor, or
    ready.  Entering its declaration again during construction is undefined. *)
Inductive slot := NotYet | InProgress | Ready.

(** [finished] lists the objects in the order their construction ended, which is
    the reverse of the order of their destruction. *)
Record statics := Statics { slot_of : cls -> slot; finished : list cls; output : list string }.

Abbreviation M := (prog statics).

Definition set_slot (c : cls) (v : slot) (s : statics) : statics :=
  Statics (fun c' => if decide (c' = c) then v else slot_of s c') (finished s) (output s).
Definition finish (c : cls) (s : statics) : statics :=
  Statics (slot_of s) (finished s ++ [c]) (output s).
Definition printf (line : string) : M unit :=
  modify (fun s => Statics (slot_of s) (finished s) (output s ++ [line])).

(** [static C instance; return &instance;] *)
Definition local_static (c : cls) (ctor : M unit) : M unit :=
  s ← get_st;
  match slot_of s c with
  | Ready => mret tt
  | InProgress => fail (Undefined OtherUB)
  | NotYet =>
      modify (set_slot c InProgress) ;; ctor ;;
      modify (set_slot c Ready) ;; modify (finish c)
  end.

Definition QMSqlite_ctor : M unit := printf "QMSqlite constructor".
Definition QMSqlite_instance : M unit := local_static QMSqlite QMSqlite_ctor.
Definition do_something : M unit := printf "QMSqlite do_something".

Definition QMManager_ctor : M unit :=
  printf "QMManager constructor" ;; QMSqlite_instance ;; do_something.
Definition QMManager_instance : M unit := local_static QMManager QMManager_ctor.

(** [object_creator::object_creator] of either class. *)
Definition object_creator (c : cls) : M unit :=
  match c with QMManager => QMManager_instance | QMSqlite => QMSqlite_instance end.

(** The constructors of the [create_object_] members run before [main], in the
    order of their definitions; across files that order would be unspecified. *)
Definition static_init (order : list cls) : M unit := for_each object_creator order.

Definition blank : statics := Statics (fun _ => NotYet) [] [].
Definition program : M Z := static_init [QMManager; QMSqlite] ;; mret 0.

End Singleton.
