(* ===== verification/ObjectsTheorems.v ===== *)
(** * ObjectsTheorems: lifetimes nest, and the singletons are built in time

    For every class and every function of the model of Objects.v: objects are
    destroyed in the reverse order of their construction; the order in which
    initialisers are written does not matter; and the two singletons that use
    each other work in whatever order they are first asked for. *)

From S2P Require Import Prelude Objects.

Module SequenceTheorems.
Import Sequence.

(** ** Induction over a class and everything it contains *)

Section ClassInd.
Variable P : class -> Prop.
Hypothesis step : forall n d cp dt bs ms,
  Forall P bs -> Forall (fun m => P m.2) ms -> P (Class n d cp dt bs ms).

Fixpoint class_nested_ind (c : class) : P c :=
  match c with
  | Class n d cp dt bs ms =>
      step n d cp dt bs ms
        ((fix go l : Forall P l :=
            match l with
            | [] => Forall_nil_2 P
            | x :: l' => Forall_cons_2 P x l' (class_nested_ind x) (go l')
            end) bs)
        ((fix go l : Forall (fun m => P m.2) l :=
            match l with
            | [] => Forall_nil_2 _
            | x :: l' => Forall_cons_2 _ x l' (class_nested_ind x.2) (go l')
            end) ms)
  end.
End ClassInd.

(** ** Lifetimes *)

(** Runs through a trace with the objects alive, the youngest first; fails when
    something else than the youngest is destroyed. *)
Fixpoint lifetimes (es : list event) (alive : list string) : option (list string) :=
  match es with
  | [] => Some alive
  | Built n _ :: es' => lifetimes es' (n :: alive)
  | Gone n _ :: es' =>
      match alive with
      | x :: alive' => if decide (x = n) then lifetimes es' alive' else None
      | [] => None
      end
  | Said _ :: es' => lifetimes es' alive
  end.

(** The objects an object of class [c] consists of, the youngest first. *)
Fixpoint parts (c : class) : list string :=
  c_name c :: concat (rev (map (fun m => parts (snd m)) (c_members c)))
           ++ concat (rev (map parts (c_bases c))).

Lemma lifetimes_app es1 es2 alive :
  lifetimes (es1 ++ es2) alive = alive' ← lifetimes es1 alive; lifetimes es2 alive'.
Proof.
  revert alive. induction es1 as [|[n l|n l|l] es1 IH]; intros alive; cbn; [done|apply IH| |apply IH].
  destruct alive as [|x alive]; [done|]. by case_decide.
Qed.

Lemma lifetimes_built {A} (build : A -> list event) (names : A -> list string) l alive :
  Forall (fun x => forall st, lifetimes (build x) st = Some (names x ++ st)) l ->
  lifetimes (concat (map build l)) alive = Some (concat (rev (map names l)) ++ alive).
Proof.
  intros Hl. revert alive. induction Hl as [|x l Hx Hl IH]; intros alive; [done|]. cbn.
  rewrite lifetimes_app, Hx. cbn. rewrite IH, concat_app. cbn. by rewrite app_nil_r, <- app_assoc.
Qed.

Lemma lifetimes_gone {A} (undo : A -> list event) (names : A -> list string) l alive :
  Forall (fun x => forall st, lifetimes (undo x) (names x ++ st) = Some st) l ->
  lifetimes (concat (rev (map undo l))) (concat (rev (map names l)) ++ alive) = Some alive.
Proof.
  intros Hl. rewrite <- !map_rev. apply Forall_rev in Hl.
  induction Hl as [|x l' Hx Hl IH]; [done|]. cbn. by rewrite lifetimes_app, <- app_assoc, Hx.
Qed.

Lemma lifetimes_construct c alive : lifetimes (construct c) alive = Some (parts c ++ alive).
Proof.
  revert alive. induction c as [n d cp dt bs ms Hbs Hms] using class_nested_ind. intros alive.
  cbn. rewrite !lifetimes_app, (lifetimes_built construct parts) by done. cbn.
  rewrite lifetimes_app, (lifetimes_built (fun m => construct m.2) (fun m => parts m.2)) by done.
  cbn. by rewrite <- app_assoc.
Qed.

Lemma lifetimes_copy c alive : lifetimes (copy_construct c) alive = Some (parts c ++ alive).
Proof.
  destruct c as [n d cp dt bs ms]. unfold copy_construct. cbn.
  rewrite !lifetimes_app, (lifetimes_built construct parts)
    by (apply Forall_true; intros; apply lifetimes_construct). cbn.
  rewrite lifetimes_app, (lifetimes_built (fun m => construct m.2) (fun m => parts m.2))
    by (apply Forall_true; intros; apply lifetimes_construct).
  cbn. by rewrite <- app_assoc.
Qed.

Lemma lifetimes_with line inits c alive :
  lifetimes (construct_with line inits c) alive = Some (parts c ++ alive).
Proof.
  destruct c as [n d cp dt bs ms]. unfold construct_with. cbn.
  rewrite !lifetimes_app, (lifetimes_built construct parts)
    by (apply Forall_true; intros; apply lifetimes_construct). cbn.
  rewrite lifetimes_app, (lifetimes_built (build_member inits) (fun m => parts m.2)).
  - cbn. by rewrite <- app_assoc.
  - apply Forall_true. intros m st. unfold build_member.
    destruct (find_init m.1 inits); [apply lifetimes_copy|apply lifetimes_construct].
Qed.

Lemma lifetimes_destroy c alive : lifetimes (destroy c) (parts c ++ alive) = Some alive.
Proof.
  revert alive. induction c as [n d cp dt bs ms Hbs Hms] using class_nested_ind. intros alive.
  cbn. rewrite decide_True by done. rewrite lifetimes_app, <- app_assoc.
  rewrite (lifetimes_gone (fun m => destroy m.2) (fun m => parts m.2)) by done. cbn.
  by apply (lifetimes_gone destroy parts).
Qed.

Lemma lifetimes_body body alive :
  lifetimes (concat (map exec_stmt body)) alive
  = Some (concat (rev (map parts (locals_of body))) ++ alive).
Proof.
  revert alive. induction body as [|[l|l] body IH]; intros alive; [done| |]; cbn.
  - apply IH.
  - rewrite lifetimes_app. assert (lifetimes (build l) alive = Some (parts (class_of l) ++ alive)) as ->.
    { destruct l; [apply lifetimes_construct|apply lifetimes_with]. }
    cbn. rewrite IH, concat_app. cbn. by rewrite app_nil_r, <- app_assoc.
Qed.

Lemma lifetimes_run body : lifetimes (run_function body) [] = Some [].
Proof.
  unfold run_function. rewrite lifetimes_app, lifetimes_body. cbn. rewrite map_rev.
  apply (lifetimes_gone destroy parts). apply Forall_true. intros c st. apply lifetimes_destroy.
Qed.

(** ** The order of initialisers *)

Lemma find_init_Some m inits a :
  NoDup inits.*1 -> (m, a) ∈ inits -> find_init m inits = Some a.
Proof.
  induction inits as [|[n b] inits IH]; intros Hnd Hin; [by apply not_elem_of_nil in Hin|].
  cbn in *. apply NoDup_cons in Hnd as [Hn Hnd]. apply elem_of_cons in Hin as [[= -> ->]|Hin].
  - by rewrite decide_True.
  - rewrite decide_False; [by apply IH|]. intros ->. apply Hn. by apply (list_elem_of_fmap_2 fst _ (m, a)).
Qed.

Lemma find_init_elem m inits a : find_init m inits = Some a -> (m, a) ∈ inits.
Proof.
  induction inits as [|[n b] inits IH]; cbn; [done|]. case_decide as E; [subst; intros [= ->]; by left|].
  intros Hf. right. by apply IH.
Qed.

Lemma find_init_perm m inits inits' :
  inits ≡ₚ inits' -> NoDup inits.*1 -> find_init m inits = find_init m inits'.
Proof.
  intros Hp Hnd. assert (NoDup inits'.*1) as Hnd' by by rewrite <- Hp.
  destruct (find_init m inits) as [a|] eqn:E.
  - symmetry. apply find_init_Some; [done|]. rewrite <- Hp. by apply find_init_elem.
  - destruct (find_init m inits') as [a|] eqn:E'; [|done]. apply find_init_elem in E'.
    rewrite <- Hp in E'. by rewrite (find_init_Some m inits a) in E.
Qed.

(** Members are built in the order of their declarations: permuting the
    initialisers changes nothing of what a constructor does. *)
Theorem initialiser_order_is_irrelevant line inits inits' c :
  inits ≡ₚ inits' -> NoDup inits.*1 -> construct_with line inits c = construct_with line inits' c.
Proof.
  intros Hp Hnd. unfold construct_with. f_equal. f_equal. f_equal. apply map_ext. intros m.
  unfold build_member. by rewrite (find_init_perm m.1 inits inits').
Qed.

(** Objects live and die like a stack: whatever classes with bases and members
    a function defines variables of, and however these are constructed, running
    it to its end destroys every object, part or whole, exactly once, in the
    reverse order of construction.  The main function of the exercise builds the
    members of its second and third [Derived] in the same order, although the
    initialisers are written in opposite orders, and prints these lines. *)
Theorem lifetimes_nest :
  (forall body, lifetimes (run_function body) [] = Some []) /\
  map line_of (run_function main_body) =
  ["Foo constructor"; "Bar constructor"; "test case 1:";
    "Base constructor"; "Foo constructor"; "Bar constructor";
    "Derived constructor without arguments"; "test case 2:";
    "Base constructor"; "Foo copy constructor"; "Bar copy constructor";
    "Derived constructor with argument[Foo foo, Bar bar] passed by references";
    "test case 3:"; "Base constructor"; "Foo copy constructor"; "Bar copy constructor";
    "Derived constructor with argument[Bar bar, Foo foo] passed by references";
    "test case end"]%string ++
   concat (replicate 3 ["Derived deconstructor"; "Bar deconstructor"; "Foo deconstructor";
                        "Base deconstructor"]%string) ++
   ["Bar deconstructor"; "Foo deconstructor"]%string.
Proof. split; [exact lifetimes_run|reflexivity]. Qed.

End SequenceTheorems.

Module SingletonTheorems.
Import Singleton.

Definition manager_line : string := "QMManager constructor".
Definition sqlite_line : string := "QMSqlite constructor".
Definition use_line : string := "QMSqlite do_something".

(** The states between two requests. *)
Inductive settled : statics -> Prop :=
  | nothing_yet s : slot_of s QMManager = NotYet -> slot_of s QMSqlite = NotYet ->
      finished s = [] -> output s = [] -> settled s
  | sqlite_only s : slot_of s QMManager = NotYet -> slot_of s QMSqlite = Ready ->
      finished s = [QMSqlite] -> output s = [sqlite_line] -> settled s
  | both s : slot_of s QMManager = Ready -> slot_of s QMSqlite = Ready ->
      finished s = [QMSqlite; QMManager] ->
      output s = [manager_line; sqlite_line; use_line] \/
      output s = [sqlite_line; manager_line; use_line] -> settled s.

Lemma runs_static_ready c ctor s Q :
  slot_of s c = Ready -> Q tt s -> runs (local_static c ctor) s Q.
Proof. intros Hs HQ. unfold local_static. rewrite runs_bind, runs_get, Hs. by rewrite runs_ret. Qed.

Lemma runs_static_first c ctor s Q :
  slot_of s c = NotYet ->
  runs ctor (set_slot c InProgress s) (fun _ s' => Q tt (finish c (set_slot c Ready s'))) ->
  runs (local_static c ctor) s Q.
Proof.
  intros Hs HQ. unfold local_static. rewrite runs_bind, runs_get, Hs.
  rewrite runs_bind, runs_modify, runs_bind. eapply runs_mono; [exact HQ|]. cbn beta. intros _ s' H. by rewrite runs_bind, !runs_modify.
Qed.

Lemma object_creator_settles c s :
  settled s -> runs (object_creator c) s (fun _ s' =>
    settled s' /\ slot_of s' c = Ready /\ (forall c', slot_of s c' = Ready -> slot_of s' c' = Ready)).
Proof.
  intros Hs. destruct c; cbn [object_creator];
    (destruct Hs as [s Hm Hq Hf Ho|s Hm Hq Hf Ho|s Hm Hq Hf Ho]).
  - apply runs_static_first; [done|]. unfold QMManager_ctor, printf. rewrite runs_bind, runs_modify.
    rewrite runs_bind. apply runs_static_first; [exact Hq|]. cbn.
    split; [|split; [done|by intros []]]. apply both; cbn; rewrite ?Hf, ?Ho; auto.
  - apply runs_static_first; [done|]. unfold QMManager_ctor, printf. rewrite runs_bind, runs_modify.
    rewrite runs_bind. apply runs_static_ready; [exact Hq|]. cbn.
    split; [|split; [done|by intros []]]. apply both; cbn; rewrite ?Hf, ?Ho; auto.
  - apply runs_static_ready; [done|]. split; [by apply both|done].
  - apply runs_static_first; [done|]. cbn. split; [|split; [done|by intros []]].
    apply sqlite_only; cbn; rewrite ?Hf, ?Ho; auto.
  - apply runs_static_ready; [done|]. split; [by apply sqlite_only|done].
  - apply runs_static_ready; [done|]. split; [by apply both|done].
Qed.

(** The two singletons work in whatever order they are first asked for, by
    whichever of the static creators and however often: nothing is constructed
    twice or entered again while under construction, every object asked for is
    ready, the manager's use of the other object comes after that object's
    construction, and the other object outlives the manager. *)
Theorem singletons_in_any_order order :
  runs (static_init order) blank (fun _ s =>
    (forall c, c ∈ order -> slot_of s c = Ready) /\
    NoDup (output s) /\
    (use_line ∈ output s -> exists before, output s = before ++ [use_line] /\ sqlite_line ∈ before) /\
    (QMManager ∈ order -> finished s = [QMSqlite; QMManager])).
Proof.
  assert (forall l s, settled s -> runs (static_init l) s (fun _ s' => settled s' /\
    (forall c, c ∈ l \/ slot_of s c = Ready -> slot_of s' c = Ready))) as Hall.
  { induction l as [|c l IH]; intros s Hs; cbn.
    - split; [done|]. intros c [[]%not_elem_of_nil|]; done.
    - rewrite runs_bind. eapply runs_mono; [by apply object_creator_settles|]. cbn beta.
      intros _ s1 (Hs1 & Hc & Hkeep). eapply runs_mono; [by apply IH|]. cbn beta.
      intros _ s2 (Hs2 & Hready). split; [done|]. intros c' [Hin|Hr]; apply Hready; [|by right; apply Hkeep].
      apply elem_of_cons in Hin as [->|]; [by right|by left]. }
  eapply runs_mono; [apply (Hall order blank); by apply nothing_yet|]. cbn beta.
  intros _ s (Hs & Hready). split; [intros c Hc; apply Hready; by left|].
  assert (QMManager ∈ order -> slot_of s QMManager = Ready) as Hm by (intros; apply Hready; by left).
  clear Hready. destruct Hs as [s E1 E2 Ef Eo|s E1 E2 Ef Eo|s E1 E2 Ef Eo].
  - rewrite Eo. split; [constructor|]. split; [by intros ?%not_elem_of_nil|].
    intros ?. by specialize (Hm ltac:(done)); rewrite E1 in Hm.
  - rewrite Eo. split; [by apply NoDup_singleton|]. split; [by intros ?%list_elem_of_singleton|].
    intros ?. by specialize (Hm ltac:(done)); rewrite E1 in Hm.
  - split; [by destruct Eo as [-> | ->]; apply (bool_decide_unpack _); vm_compute|]. split; [|done].
    intros _. destruct Eo as [-> | ->]; [exists [manager_line; sqlite_line]|exists [sqlite_line; manager_line]];
      (split; [done|set_solver]).
Qed.

Example program_output :
  match program blank with Ok (_, s) => output s = [manager_line; sqlite_line; use_line] | Err _ => False end.
Proof. reflexivity. Qed.

End SingletonTheorems.
