(* ===== verification/Safety.v ===== *)
(** * Safety: which faults a program can end in

    [safe T m s Q]: [m] started in [s] either ends in a result and a state that
    satisfy [Q], or in one of the faults [T] tolerates; every other fault is
    excluded.  With no tolerated fault this is [runs].  The rules go through the
    structure of a program like those of [runs]. *)

From S2P Require Import Prelude Bytes Buffer BufferSpec Kernel World WorldSpec.

Definition safe {S A} (T : fault -> Prop) (m : prog S A) (s : S) (Q : A -> S -> Prop) : Prop :=
  match m s with
  | Ok (a, s') => Q a s'
  | Err f => T f
  end.

Section Rules.
Context {S : Type} (T : fault -> Prop).

Lemma safe_ret {A} (a : A) (s : S) (Q : A -> S -> Prop) : safe T (mret a) s Q <-> Q a s.
Proof. done. Qed.

Lemma safe_bind {A B} (m : prog S A) (k : A -> prog S B) s (Q : B -> S -> Prop) :
  safe T (m ≫= k) s Q <-> safe T m s (fun a s' => safe T (k a) s' Q).
Proof. unfold safe, mbind, prog_bind. by destruct (m s) as [[a s']|f]. Qed.

Lemma safe_gets {A} (f : S -> A) s (Q : A -> S -> Prop) : safe T (gets f) s Q <-> Q (f s) s.
Proof. done. Qed.

Lemma safe_get s (Q : S -> S -> Prop) : safe T get_st s Q <-> Q s s.
Proof. done. Qed.

Lemma safe_modify f s (Q : unit -> S -> Prop) : safe T (modify f) s Q <-> Q tt (f s).
Proof. done. Qed.

Lemma safe_fail {A} f s (Q : A -> S -> Prop) : safe T (fail f) s Q <-> T f.
Proof. done. Qed.

Lemma safe_assert_storage b s (Q : unit -> S -> Prop) :
  b = true -> Q tt s -> safe T (assert_storage b) s Q.
Proof. by intros ->. Qed.

Lemma safe_unwrap {A} f (o : option A) s (Q : A -> S -> Prop) :
  (forall a, o = Some a -> Q a s) -> (o = None -> T f) -> safe T (unwrap f o) s Q.
Proof. destruct o; cbn; auto. Qed.

Lemma safe_lift {A} (r : result A) s (Q : A -> S -> Prop) :
  (forall a, r = Ok a -> Q a s) -> (forall f, r = Err f -> T f) -> safe T (lift r) s Q.
Proof. destruct r; cbn; unfold safe; cbn; auto. Qed.

Lemma safe_when b m s (Q : unit -> S -> Prop) :
  safe T (when_ b m) s Q <-> (if b then safe T m s Q else Q tt s).
Proof. by destruct b. Qed.

Lemma safe_mono {A} (m : prog S A) s (Q Q' : A -> S -> Prop) :
  safe T m s Q -> (forall a s', Q a s' -> Q' a s') -> safe T m s Q'.
Proof. unfold safe. destruct (m s) as [[a s']|f]; auto. Qed.

Lemma safe_runs {A} (m : prog S A) s (Q : A -> S -> Prop) : runs m s Q -> safe T m s Q.
Proof. unfold safe, runs. by destruct (m s) as [[a s']|f]. Qed.

Lemma safe_ends {A} (m : prog S A) s (Q : A -> S -> Prop) f : ends m s f -> T f -> safe T m s Q.
Proof. unfold safe, ends. by intros ->. Qed.

(** What [safe] says of the outcome. *)
Lemma safe_fault {A} (m : prog S A) s Q f : safe T m s Q -> m s = Err f -> T f.
Proof. unfold safe. intros Hs E. by rewrite E in Hs. Qed.

Lemma safe_for_each {A} (body : A -> prog S unit) (I : S -> Prop) (l : list A) s :
  I s -> (forall x s0, x ∈ l -> I s0 -> safe T (body x) s0 (fun _ => I)) ->
  safe T (for_each body l) s (fun _ => I).
Proof.
  revert s. induction l as [|x l IH]; intros s Hs Hbody; cbn; [done|].
  apply safe_bind. apply (safe_mono _ _ (fun _ => I)); [by apply Hbody; [left|]|]. intros _ s1 Hs1.
  apply IH; [done|]. intros y s0 Hy. apply Hbody. by right.
Qed.
End Rules.

Lemma safe_zoom {S T' A} T (get : S -> T') put (m : prog T' A) s Q :
  safe T (zoom get put m) s Q <-> safe T m (get s) (fun a t => Q a (put t s)).
Proof. unfold safe, zoom. by destruct (m (get s)) as [[a t]|f]. Qed.

#[export] Instance safe_proper {S A} T (m : prog S A) (s : S) :
  Proper (pointwise_relation A (pointwise_relation S iff) ==> iff) (safe T m s).
Proof. intros Q Q' HQ. unfold safe. destruct (m s) as [[a s']|f]; [apply HQ|done]. Qed.

(** ** The heap and the kernel *)

Section World.
Context {K U : Type} `{Kernel (option ptr) K} (T : fault -> Prop).
Implicit Type w : World K U.

Lemma safe_sys {A} (c : syscall (option ptr) A) w (Q : sysres A -> World K U -> Prop) :
  safe T (sys c) w Q <->
  Q (sys_exec c (kernel w)).1 (after_sys (sys_exec c (kernel w)).1 (sys_exec c (kernel w)).2 w).
Proof.
  unfold safe, sys, after_sys. by destruct (sys_exec c (kernel w)) as [[a|e] k].
Qed.

Lemma safe_get_chan p w (Q : Channel -> World K U -> Prop) :
  (forall c, chans w !! p = Some c -> Q c w) -> (chans w !! p = None -> T (Undefined UseAfterFree)) ->
  safe T (get_chan p) w Q.
Proof. intros. unfold get_chan. rewrite safe_bind, safe_get. by apply safe_unwrap. Qed.

Lemma safe_upd_chan p f w (Q : unit -> World K U -> Prop) :
  (forall c, chans w !! p = Some c -> Q tt (on_chans <[p := f c]> w)) ->
  (chans w !! p = None -> T (Undefined UseAfterFree)) ->
  safe T (upd_chan p f) w Q.
Proof. intros. unfold upd_chan. rewrite safe_bind. by apply safe_get_chan. Qed.

Lemma safe_get_sock s w (Q : Socket U -> World K U -> Prop) :
  (forall o, socks w !! s = Some o -> Q o w) -> (socks w !! s = None -> T (Undefined UseAfterFree)) ->
  safe T (get_sock s) w Q.
Proof. intros. unfold get_sock. rewrite safe_bind, safe_get. by apply safe_unwrap. Qed.

Lemma safe_upd_sock s f w (Q : unit -> World K U -> Prop) :
  (forall o, socks w !! s = Some o -> Q tt (on_socks <[s := f o]> w)) ->
  (socks w !! s = None -> T (Undefined UseAfterFree)) ->
  safe T (upd_sock s f) w Q.
Proof. intros. unfold upd_sock. rewrite safe_bind. by apply safe_get_sock. Qed.

Lemma safe_release s w (Q : unit -> World K U -> Prop) :
  (forall o, socks w !! s = Some o ->
    if use_count o =? 1 then Q tt (on_chans (delete (chan_ o)) (on_socks (delete s) w))
    else Q tt (on_socks <[s := with_use_count (use_count o - 1) o]> w)) ->
  (socks w !! s = None -> T (Undefined UseAfterFree)) -> safe T (release s) w Q.
Proof.
  intros HQ Hdead. unfold release. rewrite safe_bind. apply safe_get_sock; [|done].
  intros o Ho. specialize (HQ o Ho). destruct (use_count o =? 1); [done|].
  apply safe_upd_sock; [|congruence]. intros o' Ho'. by simplify_eq.
Qed.
End World.

(** ** The buffer, whatever it holds

    With no bound on what is put in, the only way for an operation on a
    well-formed buffer to fail is that the vector cannot grow any more. *)

Section Buffer.
Context (T : fault -> Prop) (HT : T LengthError).

Lemma append_safe data len b :
  wf b -> 0 <= len <= zlen data -> len <= vector_max_size ->
  safe T (append data len) b (fun _ b' => wf b').
Proof using HT.
  intros Hb Hlen Hmax. unfold append, ensureWritableBytes.
  destruct (decide (writableBytes b < len /\ ~ fits b len)) as [[Hw Hfit]|Hroom].
  - eapply (safe_ends _ _ _ _ LengthError); [|done].
    unfold ends, mbind, prog_bind, get_st. rewrite (proj2 (Z.ltb_lt _ _)) by done. cbn [when_].
    by rewrite (makeSpace_too_long len b) by (done || lia).
  - apply safe_runs. eapply runs_mono; [apply append_roomy; [done|lia|]|naive_solver].
    split; [lia|]. intros Hw. destruct (decide (fits b len)); [done|tauto].
Qed.

Lemma readFd_safe {K} (readv : Z -> list Z -> K -> sysres (list byte) * K) fd b k :
  wf b -> readv_bounded readv ->
  safe T (readFd readv fd) (b, k) (fun '(n, saved) '(b', k') =>
    wf b' /\ k' = (readv fd (readFd_iov (writableBytes b)) k).2).
Proof using HT.
  intros Hb Hbound. unfold readFd. rewrite safe_bind, safe_get.
  destruct (readv fd (readFd_iov (writableBytes b)) k) as [r k'] eqn:Hr.
  rewrite safe_bind, safe_modify. destruct r as [data|e]; [|by rewrite safe_ret].
  pose proof (writableBytes_wf b Hb) as Hw. pose proof Hb as []. pose proof (zlen_nonneg data).
  assert (zlen data <= writableBytes b + extrabuf_size) as Hd.
  { apply Hbound in Hr; [|apply readFd_iov_nonneg; lia]. rewrite readFd_iov_sum in Hr.
    unfold extrabuf_size in *. destruct (_ <? _); lia. }
  rewrite safe_bind, safe_zoom. cbn [fst].
  assert (zlen (take (Z.to_nat (writableBytes b)) data) = Z.min (writableBytes b) (zlen data)) as Ht.
  { unfold zlen in *. rewrite length_take. lia. }
  assert (zlen (drop (Z.to_nat (writableBytes b)) data) = zlen data - Z.min (writableBytes b) (zlen data)) as Hdr.
  { unfold zlen in *. rewrite length_drop. lia. }
  rewrite safe_bind. apply safe_runs. rewrite runs_write_at by lia.
  set (b1 := with_buffer _ b).
  assert (size b1 = size b) as Hs1 by (apply size_with_splice; lia).
  destruct (Z.leb_spec (zlen data) (writableBytes b)) as [Hle|Hgt].
  - rewrite safe_modify, safe_ret. split; [|done]. cbn [writerIndex_ b1 with_buffer].
    rewrite size_t_small by (unfold vector_max_size in *; lia).
    constructor; unfold size in *; cbn in *; rewrite ?Hs1; lia.
  - rewrite safe_bind, safe_modify. set (b2 := with_writerIndex _ b1).
    assert (wf b2) as Hb2.
    { constructor; unfold size in *; cbn in *; rewrite ?Hs1; lia. }
    rewrite size_t_small by (unfold extrabuf_size in *; lia).
    eapply safe_mono; [apply append_safe; [done|lia|unfold extrabuf_size, vector_max_size in *; lia]|].
    cbn beta. intros _ b3 Hb3. by rewrite safe_ret.
Qed.
End Buffer.
