(* ===== verification/Serv2Theorems.v ===== *)
(** * Serv2Theorems: what serv2.cpp keeps registered, and how it can end *)

From S2P Require Import Prelude Bytes Kernel NetHost ScriptKernel Safety NetTheorems.
From S2P Require Serv2.

Section Rules.
Context {K : Type} `{KernelLaws Z K} (T : fault -> Prop).
Implicit Type s : net_state K.

Lemma safe_nsys {A} (c : syscall Z A) s (Q : sysres A -> net_state K -> Prop) :
  safe T (nsys c) s Q <-> Q (net_answer c s) (net_after c s).
Proof. unfold safe. by rewrite nsys_eq. Qed.

Lemma safe_call {A} (c : syscall Z A) s (Q : unit -> net_state K -> Prop) :
  safe T (call_ c) s Q <-> Q tt (net_after c s).
Proof. unfold safe. by rewrite call_eq. Qed.
End Rules.

(** ** One call and the registrations *)

Section Watch.
Context {K : Type} `{KernelLaws Z K} `{Host} `{InetAton}.
Implicit Type s : net_state K.

(** Every registration carries its own descriptor; the listening socket is
    watched level-triggered for input, a client edge-triggered for input or for
    output, never for both. *)
Definition watch_entry (l fd : Z) (reg : epoll_event Z) : Prop :=
  ev_data reg = fd /\
  if decide (fd = l) then ev_events reg = EPOLLIN
  else ev_events reg = Z.lor EPOLLIN EPOLLET \/ ev_events reg = Z.lor EPOLLOUT EPOLLET.

Definition registered (ep fd : Z) (k : K) : Prop := is_Some (k_interest k ep !! fd).

Record watch_ok (ep l : Z) (k : K) : Prop := mkWatch {
  wo_entries fd reg : k_interest k ep !! fd = Some reg -> watch_entry l fd reg;
  wo_listening : l ∈ k_open k;
  wo_epoll : ep ∈ k_open k;
  wo_unwatched : ~ registered ep ep k
}.

Definition watching ep l s : Prop := watch_ok ep l (n_kernel s).

(** A call after which the same descriptors are open and registered. *)
Lemma watch_ok_same ep l k k' :
  k_open k' = k_open k -> k_interest k' = k_interest k -> watch_ok ep l k -> watch_ok ep l k'.
Proof. intros Ho Hi [He Hl Hp Hu]. unfold registered in *. by split; unfold registered; rewrite ?Hi, ?Ho. Qed.

Lemma quiet_same {A} (c : syscall Z A) s : quiet c = true ->
  k_open (n_kernel (net_after c s)) = k_open (n_kernel s) /\
  k_interest (n_kernel (net_after c s)) = k_interest (n_kernel s).
Proof. intros Hq. rewrite net_after_kernel. by destruct (law_quiet c (n_kernel s) Hq) as (-> & -> & _). Qed.

Lemma write_same fd data s :
  k_open (n_kernel (net_after (SysWrite fd data) s)) = k_open (n_kernel s) /\
  k_interest (n_kernel (net_after (SysWrite fd data) s)) = k_interest (n_kernel s).
Proof.
  rewrite net_after_kernel. pose proof (law_write fd data (n_kernel s)) as Hlaw.
  destruct (sys_exec _ _) as [r k]. destruct Hlaw as (Ho & Hi & _). by split.
Qed.

Lemma watching_close ep l fd s :
  fd <> l -> fd <> ep -> watching ep l s ->
  watching ep l (net_after (SysClose fd) s) /\
  forall g, g <> fd -> registered ep g (n_kernel s) -> registered ep g (n_kernel (net_after (SysClose fd) s)).
Proof.
  intros Hl Hp [He Hlo Hpo Hu]. unfold watching, registered in *. rewrite net_after_kernel.
  pose proof (law_close fd (n_kernel s)) as Hlaw.
  destruct (sys_exec _ _) as [r k]. destruct Hlaw as (Ho & Hi & _). cbn [snd]. split.
  - split; unfold registered; rewrite ?Ho, ?Hi; [|set_solver..|by rewrite lookup_delete_ne].
    intros fd' reg [_ ?]%lookup_delete_Some. by apply He.
  - intros g Hne Hg. by rewrite Hi, lookup_delete_ne.
Qed.

(** Registering or changing a client the way the server does. *)
Lemma watching_ctl ep l op fd events s :
  op <> EPOLL_CTL_DEL -> fd <> l -> fd <> ep ->
  events = Z.lor EPOLLIN EPOLLET \/ events = Z.lor EPOLLOUT EPOLLET ->
  watching ep l s ->
  let s' := net_after (SysEpollCtl ep op fd (EpollEvent events fd)) s in
  watching ep l s' /\ forall g, registered ep g (n_kernel s) -> registered ep g (n_kernel s').
Proof.
  intros Hop Hl Hp Hev [He Hlo Hpo Hu]. unfold watching, registered in *. rewrite net_after_kernel.
  pose proof (law_ctl ep op fd (EpollEvent events fd) (n_kernel s)) as Hlaw.
  destruct (sys_exec _ _) as [r k]. destruct Hlaw as (Ho & _ & _ & Hr). cbn [snd].
  assert (k_interest k ep = k_interest (n_kernel s) ep
    \/ k_interest k ep = <[fd := EpollEvent events fd]> (k_interest (n_kernel s) ep)) as [E|E].
  { destruct r; [destruct op; tauto|by rewrite Hr; left]. }
  - split; [split; unfold registered; rewrite ?E, ?Ho; done|by rewrite E].
  - split; [split; unfold registered; rewrite ?Ho; try done|]; rewrite E.
    + intros fd' reg [[<- <-]|[_ ?]]%lookup_insert_Some; [|by apply He]. split; [done|]. by rewrite decide_False.
    + by rewrite lookup_insert_ne.
    + intros g Hg. destruct (decide (g = fd)) as [->|]; [by rewrite lookup_insert_eq|by rewrite lookup_insert_ne].
Qed.

(** An accepted descriptor is a new one. *)
Lemma watching_accept ep l s :
  watching ep l s ->
  watching ep l (net_after (SysAccept l) s) /\
  k_interest (n_kernel (net_after (SysAccept l) s)) = k_interest (n_kernel s) /\
  match net_answer (SysAccept l) s with
  | SysOk (c, _) => c <> l /\ c <> ep /\ c ∈ k_open (n_kernel (net_after (SysAccept l) s)) /\
                    k_interest (n_kernel s) ep !! c = None
  | SysErr _ => True
  end.
Proof.
  intros [He Hl Hp Hu]. unfold watching, net_answer. rewrite net_after_kernel.
  pose proof (law_accept l (n_kernel s)) as Hlaw.
  destruct (sys_exec _ _) as [[[c a]|e] k]; destruct Hlaw as (Hi & _ & Ho); cbn [fst snd].
  - destruct Ho as (_ & Hnew & Ho). split; [|split; [done|split; [by intros ->|split; [by intros ->|split]]]].
    + unfold registered in Hu. split; unfold registered; rewrite ?Hi, ?Ho; try done; set_solver.
    + set_solver.
    + apply eq_None_not_Some. intros Hreg. by apply Hnew, (law_registered_open _ ep).
  - split; [by apply (watch_ok_same _ _ (n_kernel s))|done].
Qed.

(** ** Kernels that give the server what it counts on

    [tame] says that no [recv] will return more than [MAXLEN] bytes, that
    [epoll_ctl] will accept a descriptor that is open and not registered and change
    one that is registered, and that [epoll_wait] will report every registration
    at most once. *)
Record obliging (tame : K -> Prop) : Prop := mkObliging {
  ob_stays A (c : syscall Z A) k : tame k -> tame (sys_exec c k).2;
  ob_recv fd k data : tame k ->
    (sys_exec (SysRecv fd (Serv2.MAXLEN + 1)) k).1 = SysOk data -> zlen data <= Serv2.MAXLEN;
  ob_add ep fd ev k : tame k -> ep ∈ k_open k -> fd ∈ k_open k -> k_interest k ep !! fd = None ->
    (sys_exec (SysEpollCtl ep EPOLL_CTL_ADD fd ev) k).1 = SysOk tt;
  ob_mod ep fd ev k : tame k -> ep ∈ k_open k -> registered ep fd k ->
    (sys_exec (SysEpollCtl ep EPOLL_CTL_MOD fd ev) k).1 = SysOk tt;
  ob_wait ep n timeout evs k : tame k ->
    (forall fd reg, k_interest k ep !! fd = Some reg -> ev_data reg = fd) ->
    (sys_exec (SysEpollWait ep n timeout) k).1 = SysOk evs -> NoDup (ev_data <$> evs)
}.

(** ** The loops of the server

    In a [strict] run the kernel is tame and the events to be handled are there. *)

Section Loops.
Context (ep l : Z) (tame : K -> Prop) (strict : Prop) (Hob : strict -> obliging tame).

Definition tolerated (f : fault) : Prop := strict -> f = OutOfFuel \/ f = SigPipe.

(** The state while the events [evs] are handled; in a strict run the
    descriptors of which [R] holds are registered. *)
Record calm (evs : list (option (epoll_event Z))) (R : Z -> Prop) s : Prop := mkCalm {
  ca_watching : watching ep l s;
  ca_tame : strict -> tame (n_kernel s);
  ca_events : n_events s = evs;
  ca_registered : strict -> forall g, R g -> registered ep g (n_kernel s)
}.

Lemma calm_weaken evs (R R' : Z -> Prop) s : (strict -> forall g, R' g -> R g) -> calm evs R s -> calm evs R' s.
Proof. intros HR []. split; auto. Qed.

Lemma calm_after {A} evs R R' (c : syscall Z A) s :
  calm evs R s -> watching ep l (net_after c s) ->
  (strict -> forall g, R' g -> registered ep g (n_kernel (net_after c s))) -> calm evs R' (net_after c s).
Proof using Hob.
  intros [Hw Ht He _] Hw' Hr. split; [done| | |done].
  - intros Hs. rewrite net_after_kernel. by apply (ob_stays _ (Hob Hs)), Ht.
  - by rewrite (proj1 (net_after_rest c s)).
Qed.

Lemma calm_same {A} evs R (c : syscall Z A) s :
  k_open (n_kernel (net_after c s)) = k_open (n_kernel s) /\
  k_interest (n_kernel (net_after c s)) = k_interest (n_kernel s) ->
  calm evs R s -> calm evs R (net_after c s).
Proof using Hob.
  intros [Ho Hi] Hc. eapply calm_after; [exact Hc|by eapply watch_ok_same, Hc|].
  intros Hs g Hg. unfold registered. rewrite Hi. by apply (ca_registered _ _ _ Hc).
Qed.

Lemma close_safe evs (R : Z -> Prop) fd s :
  fd <> l -> fd <> ep -> (strict -> ~ R fd) -> calm evs R s -> calm evs R (net_after (SysClose fd) s).
Proof using Hob.
  intros Hl Hp HR Hc. destruct (watching_close ep l fd s Hl Hp (ca_watching _ _ _ Hc)) as [Hw Hr].
  eapply calm_after; [exact Hc|done|]. intros Hs g Hg. apply Hr; [|by apply (ca_registered _ _ _ Hc)].
  intros ->. by apply (HR Hs).
Qed.

(** What [epoll_ctl] returns is up to the kernel; that it kept what was
    registered is not. *)
Lemma epoll_ctl_safe evs R op fd events s :
  op <> EPOLL_CTL_DEL -> fd <> l -> fd <> ep ->
  events = Z.lor EPOLLIN EPOLLET \/ events = Z.lor EPOLLOUT EPOLLET ->
  calm evs R s ->
  (strict -> net_answer (SysEpollCtl ep op fd (EpollEvent events fd)) s = SysOk tt) ->
  safe tolerated (epoll_ctl ep op fd events) s (fun r s' => calm evs R s' /\ (strict -> r = 0)).
Proof using Hob.
  intros Hop Hl Hp Hev Hc Hans. unfold epoll_ctl. apply safe_bind, safe_nsys, safe_ret. split.
  - destruct (watching_ctl ep l op fd events s Hop Hl Hp Hev (ca_watching _ _ _ Hc)) as [Hw Hr].
    eapply calm_after; [exact Hc|done|]. intros Hs g Hg. by apply Hr, (ca_registered _ _ _ Hc).
  - intros Hs. by rewrite (Hans Hs).
Qed.

(** Changing a registered descriptor; in a strict run the server goes on. *)
Lemma rearm_safe evs (R : Z -> Prop) fd events s :
  fd <> l -> fd <> ep -> events = Z.lor EPOLLIN EPOLLET \/ events = Z.lor EPOLLOUT EPOLLET ->
  calm evs (fun g => g = fd \/ R g) s ->
  safe tolerated (r ← epoll_ctl ep EPOLL_CTL_MOD fd events; if r =? -1 then mret (Some (-1)) else mret None) s
    (fun (r : option Z) s' => calm evs R s' /\ (strict -> r = None)).
Proof using Hob.
  intros Hl Hp Hev Hc. apply safe_bind. eapply safe_mono; [apply epoll_ctl_safe; [done..|exact Hc|]|cbn beta].
  - intros Hs. apply (ob_mod _ (Hob Hs)); [by apply Hc|by apply (ca_watching _ _ _ Hc)|].
    apply (ca_registered _ _ _ Hc Hs). by left.
  - intros r s' [Hc' Hr]. assert (calm evs R s') as Hc2 by (eapply calm_weaken; [|exact Hc']; cbn; auto).
    destruct (Z.eqb_spec r (-1)) as [->|_]; (split; [exact Hc2|]); intros Hs; [by specialize (Hr Hs)|done].
Qed.

(** Accepting: whatever was registered stays so. *)
Lemma accept_loop_safe evs R fuel s :
  calm evs R s ->
  safe tolerated (Serv2.accept_loop fuel ep l) s (fun r s' => calm evs R s' /\ (strict -> r = None)).
Proof using Hob.
  revert s. induction fuel as [|fuel IH]; intros s Hc; cbn [Serv2.accept_loop]; [by intros ?; left|].
  apply safe_bind, safe_nsys.
  destruct (watching_accept ep l s (ca_watching _ _ _ Hc)) as (Hw & Hi & Hfresh).
  assert (calm evs R (net_after (SysAccept l) s)) as Hc1.
  { eapply calm_after; [exact Hc|done|]. intros Hs g Hg. unfold registered. rewrite Hi. by apply (ca_registered _ _ _ Hc). }
  destruct (net_answer (SysAccept l) s) as [[c addr]|e]; [|by split].
  destruct Hfresh as (Hl & Hp & Hopen & Hnone). set (s1 := net_after (SysAccept l) s) in *.
  unfold set_nonblocking. apply safe_bind, safe_bind, safe_nsys.
  pose proof (quiet_same (SysFcntl c F_GETFL 0) s1 eq_refl) as Hq2. set (s2 := net_after _ s1) in *. apply safe_call.
  set (flags := SysFcntl c F_SETFL _). pose proof (quiet_same flags s2 eq_refl) as Hq3. set (s3 := net_after flags s2) in *.
  assert (calm evs R s3) as Hc3 by by apply calm_same, calm_same.
  apply safe_bind. eapply safe_mono; [apply epoll_ctl_safe; [done..|by left|exact Hc3|]|cbn beta].
  - intros Hs. apply (ob_add _ (Hob Hs)); [by apply Hc3|by apply (ca_watching _ _ _ Hc3)| |].
    + by rewrite (proj1 Hq3), (proj1 Hq2).
    + by rewrite (proj2 Hq3), (proj2 Hq2), Hi.
  - intros r s4 [Hc4 Hr]. destruct (Z.eqb_spec r (-1)) as [->|_]; [split; [done|]; intros Hs; by specialize (Hr Hs)|].
    destruct (c =? 0); [by split|by apply IH].
Qed.

(** The receive buffer: in a strict run its last byte stays zero. *)
Definition buffer_ok (buf : list byte) : Prop :=
  zlen buf = Serv2.MAXLEN + 1 /\ (strict -> exists pre, buf = pre ++ [Byte.x00]).

Lemma buffer_ok_zero : buffer_ok (zero_buf (Z.to_nat (Serv2.MAXLEN + 1))).
Proof. split; [done|]. intros _. by exists (zero_buf 128). Qed.

Lemma buffer_ok_write buf data :
  buffer_ok buf -> zlen data <= Serv2.MAXLEN + 1 -> (strict -> zlen data <= Serv2.MAXLEN) ->
  mem_write 0 data buf = Ok (splice 0 data buf) /\ buffer_ok (splice 0 data buf).
Proof.
  intros [Hlen Hz] Hd Hs. pose proof (zlen_nonneg data). split; [apply mem_write_Ok; lia|].
  split; [rewrite zlen_splice; lia|]. intros Hst. destruct (Hz Hst) as [pre ->]. specialize (Hs Hst).
  rewrite zlen_app in Hlen. change (zlen [Byte.x00]) with 1 in Hlen. rewrite splice_front by lia. by eexists.
Qed.

Lemma print_safe evs R buf s :
  buffer_ok buf -> calm evs R s -> safe tolerated (print_string buf) s (fun _ => calm evs R).
Proof.
  intros [_ Hz] Hc. unfold print_string. apply safe_bind, safe_unwrap.
  - intros line _. apply safe_modify. destruct Hc. by split.
  - intros Hnone Hs. destruct (Hz Hs) as [pre ->]. destruct (c_string_last pre) as [x Hx]. congruence.
Qed.

(** A descriptor that was closed needs not stay registered, any other must. *)
Lemma recv_loop_safe evs (R : Z -> Prop) fuel fd buf s :
  fd <> l -> fd <> ep -> (strict -> ~ R fd) -> buffer_ok buf -> calm evs (fun g => g = fd \/ R g) s ->
  safe tolerated (Serv2.recv_loop fuel fd buf) s (fun (tag : bool) =>
    calm evs (fun g => (tag = true /\ g = fd) \/ R g)).
Proof using Hob.
  intros Hl Hp HR. revert buf s. induction fuel as [|fuel IH]; intros buf s Hb Hc; cbn [Serv2.recv_loop];
    [by intros ?; left|].
  apply safe_bind, safe_nsys.
  assert (calm evs (fun g => g = fd \/ R g) (net_after (SysRecv fd (Serv2.MAXLEN + 1)) s)) as Hc1
    by by apply calm_same; [apply quiet_same|].
  assert (forall s', calm evs (fun g => g = fd \/ R g) s' -> calm evs (fun g => (true = true /\ g = fd) \/ R g) s') as Hkept.
  { intros s'. apply calm_weaken. tauto. }
  assert (forall s', calm evs (fun g => g = fd \/ R g) s' ->
    safe tolerated (call_ (SysClose fd) ;; mret false) s' (fun (tag : bool) =>
      calm evs (fun g => (tag = true /\ g = fd) \/ R g))) as Hclose.
  { intros s' Hs'. apply safe_bind, safe_call, safe_ret. eapply calm_weaken; [|apply (close_safe evs R)]; try done.
    - intros _ g [[? _]|?]; done.
    - eapply calm_weaken; [|exact Hs']; cbn; auto. }
  pose proof (law_recv fd (Serv2.MAXLEN + 1) (n_kernel s)) as Hlaw. unfold net_answer.
  destruct (sys_exec (SysRecv fd (Serv2.MAXLEN + 1)) (n_kernel s)).1 as [data|e] eqn:Ha.
  - destruct (buffer_ok_write buf data Hb) as [Hw Hb']; [by apply Hlaw| |].
    { intros Hs. apply (ob_recv _ (Hob Hs) fd (n_kernel s)); [by apply Hc|done]. }
    rewrite Hw. apply safe_bind, safe_lift; [|done]. intros buf' [= <-]. case_match; [|by apply Hclose].
    apply safe_bind. eapply safe_mono; [by apply print_safe|cbn beta]. intros _ s2 Hc2.
    case_match; [by apply IH|by apply safe_ret, Hkept].
  - repeat case_match; try (by apply Hclose). by apply safe_ret, Hkept.
Qed.

Lemma write_safe evs R fd data s : calm evs R s -> safe tolerated (write_ fd data) s (fun _ => calm evs R).
Proof using Hob.
  intros Hc. unfold write_. apply safe_bind, safe_nsys.
  assert (calm evs R (net_after (SysWrite fd data) s)) as Hc1 by by apply calm_same; [apply write_same|].
  repeat case_match; try exact Hc1. by intros ?; right.
Qed.

(** Handling the event of one client touches the registration of that client only. *)
Lemma client_event_safe evs (R : Z -> Prop) fuel ev s :
  ev_data ev <> l -> ev_data ev <> ep -> (strict -> ~ R (ev_data ev)) ->
  calm evs (fun g => g = ev_data ev \/ R g) s ->
  safe tolerated (Serv2.client_event fuel ep ev) s (fun r s' => calm evs R s' /\ (strict -> r = None)).
Proof using Hob.
  intros Hl Hp HR Hc. unfold Serv2.client_event.
  assert (calm evs R s) as HcR by (eapply calm_weaken; [|exact Hc]; cbn; auto).
  assert (calm evs R (net_after (SysClose (ev_data ev)) s)) as Hclosed by by apply close_safe.
  do 3 (case_match; [by apply safe_bind, safe_call|]). case_match; [|case_match; [|done]].
  - apply safe_bind. eapply safe_mono; [by apply (recv_loop_safe evs R); [..|apply buffer_ok_zero|]|cbn beta].
    intros [] s1 Hc1.
    + apply rearm_safe; [done..|by right|]. eapply calm_weaken; [|exact Hc1]. intros _ g [->|?]; auto.
    + apply safe_ret. split; [|done]. eapply calm_weaken; [|exact Hc1]; cbn; auto.
  - apply safe_bind. eapply safe_mono; [apply write_safe, Hc|cbn beta]. intros _ s1 Hc1.
    apply rearm_safe; [done..|by left|done].
Qed.

(** ** The events of one iteration *)

(** What [epoll_wait] has left in the array: events of other descriptors than the
    epoll descriptor, and in a strict run [nfds] of them, none of the same
    descriptor. *)
Record filled (evs : list (option (epoll_event Z))) (nfds : Z) : Prop := mkFilled {
  fl_data i ev : evs !! i = Some (Some ev) -> ev_data ev <> ep;
  fl_there i : strict -> 0 <= i < uint32 nfds -> exists ev, evs !! Z.to_nat i = Some (Some ev);
  fl_once i j ev ev' : strict -> evs !! i = Some (Some ev) -> evs !! j = Some (Some ev') ->
    ev_data ev = ev_data ev' -> i = j
}.

(** The descriptors of the events from [i] on. *)
Definition pending (evs : list (option (epoll_event Z))) (i fd : Z) : Prop :=
  exists j ev, (Z.to_nat i <= j)%nat /\ evs !! j = Some (Some ev) /\ fd = ev_data ev.

Lemma pending_head evs i ev :
  0 <= i -> evs !! Z.to_nat i = Some (Some ev) ->
  forall g, g = ev_data ev \/ pending evs (i + 1) g -> pending evs i g.
Proof.
  intros Hi He g [->|(j & ev' & Hj & Hev & ->)]; [by exists (Z.to_nat i), ev|].
  exists j, ev'. split; [lia|done].
Qed.

Lemma event_at_safe evs nfds i s :
  filled evs nfds -> 0 <= i < uint32 nfds -> calm evs (pending evs i) s ->
  safe tolerated (event_at i) s (fun ev s' => s' = s /\ evs !! Z.to_nat i = Some (Some ev)).
Proof.
  intros Hf Hi Hc. unfold event_at. apply safe_bind, safe_get, safe_bind.
  rewrite (proj2 (Z.ltb_ge i 0)) by lia. rewrite (ca_events _ _ _ Hc).
  apply safe_unwrap.
  - intros slot Hslot. apply safe_unwrap; [by intros ev ->|].
    intros -> Hs. destruct (fl_there _ _ Hf i Hs Hi) as [ev Hev]. congruence.
  - intros Hnone Hs. destruct (fl_there _ _ Hf i Hs Hi) as [ev Hev]. congruence.
Qed.

Lemma events_loop_safe evs nfds fuel i s :
  filled evs nfds -> 0 <= i -> calm evs (pending evs i) s ->
  safe tolerated (Serv2.events_loop fuel ep l i nfds) s (fun r s' =>
    calm evs (fun _ => False) s' /\ (strict -> r = None)).
Proof using Hob.
  intros Hf. assert (forall (R : Z -> Prop) s', calm evs R s' -> calm evs (fun _ => False) s') as Hdone.
  { intros R s'. by apply calm_weaken. }
  revert i s. induction fuel as [|fuel IH]; intros i s Hi Hc; cbn [Serv2.events_loop];
    (destruct (Z.ltb_spec i (uint32 nfds)) as [Hlt|_]; [|split; [by eapply Hdone|done]]); [by intros ?; left|].
  apply safe_bind. eapply safe_mono; [by apply (event_at_safe evs nfds)|cbn beta]. intros ev s1 [-> Hev].
  pose proof (pending_head evs i ev Hi Hev) as Hhead.
  apply safe_bind. apply (safe_mono _ _ _ (fun r s' => calm evs (pending evs (i + 1)) s' /\ (strict -> r = None))).
  - destruct (Z.eqb_spec l (ev_data ev)) as [_|Hne].
    + apply accept_loop_safe. eapply calm_weaken; [|exact Hc]; cbn; auto.
    + apply client_event_safe; [congruence|by eapply fl_data| |eapply calm_weaken; [|exact Hc]; cbn; auto].
      intros Hs (j & ev' & Hj & Hev' & E). pose proof (fl_once _ _ Hf _ _ _ _ Hs Hev Hev' E). lia.
  - intros [code|] s2 [Hc2 Hr]; [split; [by eapply Hdone|done]|].
    assert (uint32 (i + 1) = i + 1) as ->.
    { unfold uint32 in *. pose proof (Z.mod_pos_bound nfds two32 ltac:(lia)). apply Z.mod_small. lia. }
    apply IH; [lia|done].
Qed.

Definition wait_result s : sysres (list (epoll_event Z)) := net_answer (SysEpollWait ep max_events 100) s.

(** The array after a wait that reported [evs]. *)
Lemma wait_fills evs s :
  watching ep l s -> (strict -> tame (n_kernel s)) -> wait_result s = SysOk evs ->
  let arr := (Some <$> evs) ++ drop (length evs) (replicate (Z.to_nat max_events) None) in
  zlen evs <= max_events /\ filled arr (zlen evs) /\
  forall fd, pending arr 0 fd -> registered ep fd (n_kernel s).
Proof using Hob.
  intros Hw Ht Hres. destruct (law_wait ep max_events 100 (n_kernel s) evs Hres) as [Hmax Hrep].
  cbn zeta. set (arr := _ ++ _).
  assert (forall i ev, arr !! i = Some (Some ev) <-> evs !! i = Some ev) as Harr.
  { intros i ev. subst arr. destruct (decide (i < length evs)%nat) as [Hi|Hi].
    - rewrite lookup_app_l by (by rewrite length_fmap). rewrite list_lookup_fmap.
      destruct (evs !! i); cbn; naive_solver.
    - rewrite lookup_app_r by (rewrite length_fmap; lia). rewrite (lookup_ge_None_2 evs i) by lia.
      rewrite lookup_drop. split; [|done]. intros [? _]%lookup_replicate. done. }
  assert (forall i ev, evs !! i = Some ev -> registered ep (ev_data ev) (n_kernel s)) as Hreg.
  { intros i ev He. destruct (proj1 (Forall_lookup _ _) Hrep i ev He) as (fd & reg & Hr & ->).
    rewrite (proj1 (wo_entries _ _ _ Hw fd reg Hr)). by exists reg. }
  split; [done|]. split; [split|].
  - intros i ev He%Harr E. apply (wo_unwatched _ _ _ Hw). rewrite <- E at 2. by eapply Hreg.
  - intros i _ Hi. pose proof (zlen_nonneg evs). unfold uint32, max_events in *. rewrite Z.mod_small in Hi by lia.
    destruct (lookup_lt_is_Some_2 evs (Z.to_nat i)) as [ev Hev]; [unfold zlen in *; lia|]. exists ev. by apply Harr.
  - intros i j ev ev' Hs Hi%Harr Hj%Harr E.
    assert (NoDup (ev_data <$> evs)) as Hnd.
    { eapply (ob_wait _ (Hob Hs)); [by apply Ht| |exact Hres]. intros fd reg Hr. by apply (wo_entries _ _ _ Hw). }
    eapply (proj1 (NoDup_alt _) Hnd i j (ev_data ev)); rewrite list_lookup_fmap; [by rewrite Hi|by rewrite Hj, E].
  - intros fd (j & ev & _ & He%Harr & ->). by eapply Hreg.
Qed.

Lemma round_safe fuel s :
  watching ep l s -> (strict -> tame (n_kernel s)) -> (strict -> exists evs, wait_result s = SysOk evs) ->
  safe tolerated (Serv2.server_round fuel ep l) s (fun r s' =>
    watching ep l s' /\ (strict -> tame (n_kernel s') /\ r = None)).
Proof using Hob.
  intros Hw Ht Hwait. unfold Serv2.server_round. apply safe_bind, safe_modify.
  set (s0 := with_event_array _ s).
  assert (calm (n_events s0) (fun g => registered ep g (n_kernel s0)) s0) as Hc0 by by split.
  set (c := SysEpollWait (P := Z) ep max_events 100).
  assert (calm (n_events s0) (fun g => registered ep g (n_kernel s0)) (net_after c s0)) as Hc1
    by by apply calm_same; [apply quiet_same|].
  unfold wait_events. apply safe_bind, safe_bind, safe_nsys. fold c.
  change (net_answer c s0) with (wait_result s). set (s1 := net_after c s0) in *.
  assert (forall evs nfds s', filled evs nfds -> calm evs (pending evs 0) s' ->
    safe tolerated (Serv2.events_loop fuel ep l 0 nfds) s' (fun r s' =>
      watching ep l s' /\ (strict -> tame (n_kernel s') /\ r = None))) as Hloop.
  { intros evs nfds s' Hf Hc. eapply safe_mono; [by apply (events_loop_safe evs)|cbn beta].
    intros r s2 [[Hw2 Ht2 _ _] Hr]. auto. }
  destruct (wait_result s) as [evs|e] eqn:Hres.
  - destruct (wait_fills evs s Hw Ht Hres) as (Hmax & Hf & Hp).
    apply safe_bind, safe_assert_storage; [by apply Z.leb_le|].
    apply safe_bind, safe_modify, safe_ret. rewrite (ca_events _ _ _ Hc1).
    apply (Hloop _ _ _ Hf). destruct Hc1 as [Hw1 Ht1 _ Hr1]. split; [done..|]. intros Hs g Hg. by apply Hr1, Hp.
  - apply safe_ret. apply (Hloop (n_events s0)).
    + split; [|intros i Hs; by destruct (Hwait Hs)|intros i j ev ev' Hs; by destruct (Hwait Hs)].
      intros i ev. subst s0. cbn. by intros [? _]%lookup_replicate.
    + eapply calm_weaken; [|exact Hc1]. intros Hs. by destruct (Hwait Hs).
Qed.
End Loops.

(** [n] iterations of [while (1)], or up to the one in which the server returns. *)
Fixpoint server_rounds (n fuel : nat) (ep l : Z) : prog (net_state K) (option Z) :=
  match n with
  | O => mret None
  | S n' =>
      r ← Serv2.server_round fuel ep l;
      match r with Some code => mret (Some code) | None => server_rounds n' fuel ep l end
  end.

(** An iteration whose wait fails ends in the fault of reading an unwritten event. *)
Lemma failed_wait_round fuel ep l s e :
  wait_result ep s = SysErr e ->
  Serv2.server_round fuel ep l s = Err OutOfFuel \/ Serv2.server_round fuel ep l s = Err (Undefined OtherUB).
Proof.
  intros Hw. destruct fuel as [|fuel]; [left|right; by apply (serv2_wait_failure_is_undefined ep l fuel e s)].
  unfold Serv2.server_round. set (s0 := with_event_array (replicate (Z.to_nat max_events) None) s).
  rewrite (bind_eq _ _ s tt s0) by done.
  by rewrite (bind_eq _ _ _ _ _ (wait_events_failed ep e s0 Hw)).
Qed.

(** C34: serv2 keeps its registrations straight and does not give up its clients.
    Whatever the clients and the kernel do, after any number of iterations of its
    loop every descriptor epoll watches is registered under its own number, the
    listening socket for level-triggered input, and each client edge-triggered for
    input or for output but not both; the listening socket and the epoll descriptor
    are never closed.  And on a kernel that never returns more than [MAXLEN] bytes
    from a [recv], lets [epoll_ctl] add what is open and not registered and change
    what is registered, and reports a registration at most once per wait, the server
    never returns, however its clients come, fail and leave: its iterations go on,
    or one of the loops inside them does, or SIGPIPE kills it in a [write], or
    [epoll_wait] has failed and it reads an event that was never written. *)
Theorem serv2_keeps_registrations ep l fuel n s :
  watching ep l s ->
  (forall status s', server_rounds n fuel ep l s = Ok (status, s') -> watching ep l s') /\
  (forall tame, obliging tame -> tame (n_kernel s) ->
   match server_rounds n fuel ep l s with
   | Ok (status, _) => status = None
   | Err f => f = OutOfFuel \/ f = SigPipe \/
       f = Undefined OtherUB /\
       exists m s1 e, (m < n)%nat /\ server_rounds m fuel ep l s = Ok (None, s1) /\ wait_result ep s1 = SysErr e
   end).
Proof.
  revert s. induction n as [|n IH]; intros s Hw; cbn.
  { split; [by intros status s' [= _ <-]|done]. }
  unfold mbind, prog_bind. split.
  - intros status s'. pose proof (round_safe ep l (fun _ => True) False ltac:(done) fuel s Hw ltac:(done) ltac:(done)) as Hr.
    unfold safe in Hr. destruct (Serv2.server_round fuel ep l s) as [[[code|] s1]|] eqn:E; [|apply IH; apply Hr|done].
    intros [= _ <-]. apply Hr.
  - intros tame Hob Ht. destruct (wait_result ep s) as [evs|e] eqn:Hwait.
    + pose proof (round_safe ep l tame True ltac:(done) fuel s Hw ltac:(done) ltac:(intros _; by exists evs)) as Hr.
      unfold safe in Hr. destruct (Serv2.server_round fuel ep l s) as [[r s1]|f] eqn:E; [|by destruct (Hr I); auto].
      destruct Hr as [Hw1 Hr]. destruct (Hr I) as [Ht1 ->]. pose proof (proj2 (IH s1 Hw1) tame Hob Ht1) as Hrest.
      destruct (server_rounds n fuel ep l s1) as [[status s2]|f]; [done|].
      destruct Hrest as [->|[->|(-> & m & s2 & e & Hm & Hok & He)]]; auto. right. right. split; [done|].
      exists (S m), s2, e. split; [lia|]. split; [|done]. cbn. unfold mbind, prog_bind. by rewrite E.
    + destruct (failed_wait_round fuel ep l s e Hwait) as [->| ->]; [auto|]. right. right. split; [done|].
      exists 0%nat, s, e. split; [lia|done].
Qed.
End Watch.

(** ** Witnesses *)

(** Scripts with short messages in which a wait names no descriptor twice. *)
Record tame_script (k : script Z) : Prop := mkTame {
  tm_reads : Forall (fun r => match r with SysOk data => zlen data <= Serv2.MAXLEN | SysErr _ => True end) (sk_reads k);
  tm_waits : Forall (fun r => match r with SysOk ready => NoDup ready.*1 | SysErr _ => True end) (sk_waits k)
}.

Lemma next_answer_rest {A} (P : A -> Prop) d r l l' :
  Forall P l -> next_answer d l = (r, l') -> Forall P l' /\ (r = d \/ P r).
Proof. intros [|x l0 Hx Hl]; cbn; intros [= <- <-]; auto. Qed.

(** What is reported of a list of descriptors keeps their order. *)
Lemma reports_once (i : gmap Z (epoll_event Z)) (ready : list (Z * Z)) :
  (forall fd reg, i !! fd = Some reg -> ev_data reg = fd) -> NoDup ready.*1 ->
  NoDup (ev_data <$> omap (fun '(fd, evs) => (fun reg => EpollEvent evs (ev_data reg)) <$> i !! fd) ready).
Proof.
  intros Hi. induction ready as [|[fd evs] ready IH]; intros Hnd; [by constructor|].
  apply NoDup_cons in Hnd as [Hnew Hnd]. cbn. destruct (i !! fd) as [reg|] eqn:E; cbn; [|by apply IH].
  apply NoDup_cons. split; [|by apply IH]. rewrite (Hi fd reg E). intros Hin. apply Hnew.
  apply list_elem_of_fmap in Hin as (ev & -> & Hin). apply list_elem_of_omap in Hin as ([fd' evs'] & Hr & Hev).
  destruct (i !! fd') as [reg'|] eqn:E'; [|done]. cbn in Hev. injection Hev as <-. cbn.
  rewrite (Hi fd' reg' E'). apply list_elem_of_fmap. by exists (fd', evs').
Qed.

Lemma tame_script_obliging : obliging tame_script.
Proof.
  split.
  - intros A c k [Hr Hw]. destruct c; cbn; try (by split);
      unfold do_read, do_write, do_accept, do_ctl, do_wait, do_open; repeat case_match; simplify_eq; cbn in *; split; cbn;
      try done; solve [by eapply (next_answer_rest _ _ _ _ _ Hr)|by eapply (next_answer_rest _ _ _ _ _ Hw)].
  - intros fd k data [Hr _]. cbn. unfold do_read. case_decide; [|done].
    destruct (next_answer (SysErr EAGAIN) (sk_reads k)) as [r rest] eqn:E. cbn.
    destruct (next_answer_rest _ _ _ _ _ Hr E) as [_ [->|Hok]]; [done|].
    destruct r as [d|]; [|done]. intros [= <-]. unfold zlen in *. rewrite length_take. lia.
  - intros ep fd ev k _ _ Hopen Hnone. cbn in *. unfold do_ctl. rewrite decide_True by done.
    rewrite interest_lookup, decide_True in Hnone by done. by rewrite Hnone.
  - intros ep fd ev k _ _ [reg Hreg]. cbn in *. rewrite interest_lookup in Hreg. unfold do_ctl.
    case_decide; [|done]. by rewrite Hreg.
  - intros ep n timeout evs k [_ Hw] Hown. cbn in *. unfold do_wait. case_decide; [done|]. case_match; [|done].
    destruct (next_answer (SysOk []) (sk_waits k)) as [r rest] eqn:E.
    destruct (next_answer_rest _ _ _ _ _ Hw E) as [_ Hr]. cbn. destruct r as [ready|e]; [|done]. intros [= <-].
    rewrite fmap_take. eapply sublist_NoDup; [|apply sublist_take]. apply reports_once; [done|].
    destruct Hr as [[= ->]|Hr]; [constructor|exact Hr].
Defined.

#[local] Existing Instance net_host.
#[local] Existing Instance net_inet.

(** A client is accepted, read, answered and goes on being watched; another, whose
    registration the server closes with its descriptor, is gone; the server is still
    there; the fourth wait fails. *)
Definition two_clients : net_state (script Z) :=
  ran Serv2.setup (net_start [SysOk hello; SysOk []] []
    [SysOk (7, client_addr); SysOk (8, client_addr)]
    [SysOk [(4, EPOLLIN)]; SysOk [(7, EPOLLIN); (8, EPOLLIN)]; SysOk [(7, EPOLLOUT)]; SysErr EINTR]).

Lemma two_clients_watching : watching 3 4 two_clients.
Proof.
  assert (k_interest (n_kernel two_clients) 3 = {[4 := EpollEvent EPOLLIN 4]}) as Hi by (vm_compute; reflexivity).
  split; unfold registered; rewrite ?Hi.
  - intros fd reg [<- <-]%lookup_singleton_Some. split; [done|]. by rewrite decide_True.
  - vm_compute. reflexivity.
  - vm_compute. reflexivity.
  - by intros [reg [? _]%lookup_singleton_Some].
Defined.

Lemma two_clients_tame : tame_script (n_kernel two_clients).
Proof.
  split; vm_compute; repeat constructor; try discriminate; intros Hin; rewrite ?elem_of_cons, ?elem_of_nil in Hin;
    intuition discriminate.
Defined.

Lemma serv2_keeps_registrations_witness :
  let s3 := ran (server_rounds 3 5 3 4) two_clients in
  watching 3 4 s3 /\ sk_sent_by (n_kernel s3) 7 = nihao /\
  dom (k_interest (n_kernel s3) 3) = {[4; 7]} /\
  exists m s1 e, (m < 4)%nat /\ server_rounds m 5 3 4 two_clients = Ok (None, s1) /\ wait_result 3 s1 = SysErr e.
Proof.
  cbv zeta. split; [|split; [vm_compute; reflexivity|split; [vm_compute; reflexivity|]]].
  - apply (proj1 (serv2_keeps_registrations 3 4 5 3 two_clients two_clients_watching)) with (status := None).
    vm_compute. reflexivity.
  - assert (server_rounds 4 5 3 4 two_clients = Err (Undefined OtherUB)) as E4 by (vm_compute; reflexivity).
    pose proof (proj2 (serv2_keeps_registrations 3 4 5 4 two_clients two_clients_watching)
      tame_script tame_script_obliging two_clients_tame) as Hend.
    rewrite E4 in Hend. destruct Hend as [E|[E|[_ E]]]; [discriminate E|discriminate E|exact E].
Defined.
