(* ===== verification/BufferTyping.v ===== *)
(** * BufferTyping: the asserts of the buffer

    The functions of [Buffer.hpp] take any [size_t]; asserts stand where only some
    are meant.  Whatever is asked of a well-formed buffer, it stays well-formed,
    or an assert or the vector refuses. *)

From S2P Require Import Prelude Bytes Buffer BufferSpec Kernel World WorldSpec Safety.

(** A call of a member function that changes the buffer.  A range of memory is
    its bytes, and the length the caller says. *)
Inductive request :=
  | Append (data : list byte) (len : Z)
  | EnsureWritableBytes (len : Z)
  | HasWritten (len : Z)
  | Unwrite (len : Z)
  | Prepend (data : list byte) (len : Z)
  | Retrieve (len : Z)
  | RetrieveUntil (end_ : Z)
  | RetrieveAsString (len : Z)
  | RetrieveAll
  | RetrieveAllAsString
  | AppendInt32 (x : Z) | AppendInt16 (x : Z) | AppendInt8 (x : Z)
  | PrependInt32 (x : Z) | PrependInt16 (x : Z) | PrependInt8 (x : Z)
  | ReadInt32 | ReadInt16 | ReadInt8.

(** Its arguments have their types: a [size_t] is below 2^64, a range lies in an
    object, and no object is longer than [PTRDIFF_MAX]. *)
Definition typed (r : request) : Prop :=
  match r with
  | Append data len | Prepend data len => 0 <= len <= zlen data /\ zlen data <= vector_max_size
  | EnsureWritableBytes len | HasWritten len | Unwrite len | Retrieve len | RetrieveAsString len => 0 <= len < two64
  | _ => True
  end.

(** The one request that no assert stops: [ensureWritableBytes] of so much that
    [makeSpace] resizes the vector to a sum that has wrapped around. *)
Definition wraps (r : request) (b : Buffer) : Prop :=
  match r with
  | EnsureWritableBytes len =>
      two64 <= writerIndex_ b + len /\ writableBytes b + prependableBytes b < len ⊕ kCheapPrepend
  | _ => False
  end.

(** The indices are in order and within the storage. *)
Definition in_order (b : Buffer) : Prop :=
  0 <= readerIndex_ b <= writerIndex_ b /\ writerIndex_ b <= size b <= vector_max_size.

(** What may end a call. *)
Definition refusal (f : fault) : Prop := f = AssertionFailed \/ f = LengthError.

Section Typing.
Context `{Host}.

Definition perform (r : request) : prog Buffer unit :=
  match r with
  | Append data len => append data len
  | EnsureWritableBytes len => ensureWritableBytes len
  | HasWritten len => hasWritten len
  | Unwrite len => unwrite len
  | Prepend data len => prepend data len
  | Retrieve len => retrieve len
  | RetrieveUntil end_ => retrieveUntil end_
  | RetrieveAsString len => _ ← retrieveAsString len; mret tt
  | RetrieveAll => retrieveAll
  | RetrieveAllAsString => _ ← retrieveAllAsString; mret tt
  | AppendInt32 x => appendInt32 x
  | AppendInt16 x => appendInt16 x
  | AppendInt8 x => appendInt8 x
  | PrependInt32 x => prependInt32 x
  | PrependInt16 x => prependInt16 x
  | PrependInt8 x => prependInt8 x
  | ReadInt32 => _ ← readInt32; mret tt
  | ReadInt16 => _ ← readInt16; mret tt
  | ReadInt8 => _ ← readInt8; mret tt
  end.

Definition kept {A} (m : prog Buffer A) (b : Buffer) : Prop := safe refusal m b (fun _ b' => wf b').

Lemma kept_runs {A} (m : prog Buffer A) b (Q : A -> Buffer -> Prop) :
  runs m b Q -> (forall a b', Q a b' -> wf b') -> kept m b.
Proof. intros Hr HQ. apply safe_runs. eapply runs_mono; [exact Hr|]. intros a b' Hq. by eapply HQ. Qed.

Lemma kept_unit {A} (m : prog Buffer A) b : kept m b -> kept (_ ← m; mret tt) b.
Proof. unfold kept. by rewrite safe_bind. Qed.

(** A specification under the condition of the first assert, which is checked
    before anything is done. *)
Lemma kept_guarded {A} (m : prog Buffer A) b (n x : Z) (Q : A -> Buffer -> Prop) :
  (n <= x -> runs m b Q) -> (forall a b', Q a b' -> wf b') ->
  (x < n -> ends m b AssertionFailed) -> kept m b.
Proof.
  intros Hr HQ He. destruct (Z.le_gt_cases n x) as [Hle|Hgt].
  - eapply kept_runs; [by apply Hr|done].
  - apply (safe_ends _ _ _ _ AssertionFailed); [apply He; lia|by left].
Qed.

(** Growing fails before anything is stored. *)
Lemma ensure_too_long len b :
  wf b -> writableBytes b < len <= vector_max_size -> ~ fits b len -> ends (ensureWritableBytes len) b LengthError.
Proof.
  intros Hb Hlen Hf. assert (E : makeSpace len b = Err LengthError).
  { apply makeSpace_too_long; [done| |done]. pose proof (writableBytes_wf b Hb). destruct Hb. lia. }
  unfold ends, ensureWritableBytes, mbind, prog_bind, get_st, when_.
  by rewrite (proj2 (Z.ltb_lt _ _)), E by lia.
Qed.

Lemma roomy_or_too_long len b :
  0 <= len <= vector_max_size -> roomy b len \/ writableBytes b < len /\ ~ fits b len.
Proof.
  intros Hlen. destruct (decide (writableBytes b < len)) as [Hlt|]; [|left; by constructor].
  destruct (decide (fits b len)); [left; by constructor|by right].
Qed.

Lemma ensure_kept len b : wf b -> 0 <= len <= vector_max_size -> kept (ensureWritableBytes len) b.
Proof.
  intros Hb Hlen. destruct (roomy_or_too_long len b Hlen) as [Hr|[Hlt Hf]].
  - eapply kept_runs; [by apply ensureWritableBytes_spec|]. by cbn; intros _ b' [].
  - eapply safe_ends; [apply ensure_too_long; [done|lia|done]|by right].
Qed.

(** Moving the data to the front changes nothing but the indices. *)
Lemma move_kept len b :
  wf b -> writableBytes b < len -> len ⊕ kCheapPrepend <= writableBytes b + prependableBytes b ->
  safe refusal (makeSpace len) b (fun _ b' => writableBytes b' <= vector_max_size).
Proof.
  intros Hb Hlt Hle. pose proof (writableBytes_wf b Hb) as Hw. pose proof (readableBytes_wf b Hb) as Hr. pose proof Hb as [].
  unfold vector_max_size, kInitialSize, prependableBytes in *.
  assert (kCheapPrepend = 8) as Hk by done.
  unfold makeSpace. apply safe_bind, safe_get. unfold prependableBytes.
  rewrite (size_t_small (writableBytes b + _)), (proj2 (Z.ltb_ge _ _)) by lia.
  apply safe_bind. destruct (Z.ltb_spec kCheapPrepend (readerIndex_ b)); [|by left]. cbn [assert_].
  apply safe_ret, safe_runs. run_steps. rewrite runs_read_at by lia.
  fold (contents b). pose proof (zlen_contents b Hb).
  rewrite runs_bind, runs_write_at by lia. run_steps. rewrite runs_assert. rewrite size_t_small by lia.
  set (b' := with_writerIndex _ _).
  assert (size b' = size b) as Hs by (unfold size; cbn; rewrite zlen_splice; [done|lia|unfold size in *; lia]).
  unfold readableBytes at 2, writableBytes. rewrite Z.eqb_eq, Hs. cbn. rewrite !size_t_small by lia. lia.
Qed.

(** A request longer than any vector. *)
Lemma ensure_huge_kept len b :
  wf b -> vector_max_size < len < two64 -> ~ wraps (EnsureWritableBytes len) b ->
  kept (ensureWritableBytes len) b.
Proof.
  intros Hb Hlen Hw. pose proof (writableBytes_wf b Hb) as Hwr. pose proof Hb as [].
  unfold vector_max_size, kInitialSize in *. cbn [wraps] in Hw.
  unfold kept, ensureWritableBytes. apply safe_bind, safe_get, safe_bind, safe_when.
  rewrite (proj2 (Z.ltb_lt _ _)) by lia.
  destruct (Z.lt_ge_cases (writableBytes b + prependableBytes b) (len ⊕ kCheapPrepend)) as [Hroom|Hroom].
  - apply (safe_ends _ _ _ _ LengthError); [|by right]. unfold ends, makeSpace, mbind, prog_bind, get_st.
    unfold prependableBytes in *. rewrite (size_t_small (writableBytes b + _)), (proj2 (Z.ltb_lt _ _)) by lia.
    unfold vector_resize, vector_max_size. rewrite (size_t_small (writerIndex_ b + len)) by lia.
    by rewrite (proj2 (Z.ltb_lt _ _)) by lia.
  - eapply safe_mono; [by apply move_kept; [|lia|]|cbn beta]. intros _ b' Hb'. apply safe_bind, safe_get.
    rewrite (proj2 (Z.leb_gt _ _)) by (unfold vector_max_size in *; lia). by left.
Qed.

Lemma append_kept data len b :
  wf b -> 0 <= len <= zlen data -> zlen data <= vector_max_size -> kept (append data len) b.
Proof.
  intros Hb Hlen Hdata. destruct (roomy_or_too_long len b) as [Hr|[Hlt Hf]]; [lia|..].
  - eapply kept_runs; [apply append_roomy; [done|lia|done]|]. by cbn; intros _ b' [].
  - apply (safe_ends _ _ _ _ LengthError); [|by right]. unfold ends, append, mbind, prog_bind.
    by rewrite (ensure_too_long len b) by (done || lia).
Qed.

(** The first assert of a program fails. *)
Ltac assert_refuses :=
  intros; unfold ends, mbind, prog_bind, get_st, assert_; rewrite (proj2 (Z.leb_gt _ _)) by done; reflexivity.
Ltac by_spec L n x := eapply (kept_guarded _ _ n x); [intros; apply L; first [done|lia]|by cbn; naive_solver|assert_refuses].

Lemma retrieveUntil_kept e b : wf b -> kept (retrieveUntil e) b.
Proof.
  intros Hb. destruct (Z.le_gt_cases (readerIndex_ b) e) as [Hlo|Hlo].
  - destruct (Z.le_gt_cases e (writerIndex_ b)) as [Hhi|Hhi].
    + eapply kept_runs; [by apply retrieveUntil_spec|]. by cbn; intros _ b' [].
    + apply (safe_ends _ _ _ _ AssertionFailed); [|by left]. unfold retrieveUntil, peek, beginWrite, ends,
        mbind, prog_bind, get_st, assert_. by rewrite (proj2 (Z.leb_le _ _)), (proj2 (Z.leb_gt _ _)) by lia.
  - apply (safe_ends _ _ _ _ AssertionFailed); [|by left]. unfold retrieveUntil, peek.
    assert_refuses.
Qed.

Lemma retrieveAllAsString_kept b : wf b -> kept retrieveAllAsString b.
Proof. intros Hb. eapply kept_runs; [by apply retrieveAllAsString_spec|]. by cbn; intros s b' []. Qed.

(** The image of an integer is a short object. *)
Lemma append_image_kept n x b : wf b -> (n <= 4)%nat -> kept (append (mem_image n x) (Z.of_nat n)) b.
Proof.
  intros Hb Hn. pose proof (zlen_mem_image n x) as Hz.
  apply append_kept; [done|lia|]. unfold vector_max_size. lia.
Qed.

Lemma perform_kept r b : wf b -> typed r -> ~ wraps r b -> kept (perform r) b.
Proof.
  intros Hb. pose proof (readableBytes_wf b Hb) as Hr. pose proof (writableBytes_wf b Hb) as Hw.
  destruct r as [| len | | | | | | | | | | | | | | | | |]; cbn [typed perform]; intros Ht Hwrap; try apply kept_unit.
  - destruct Ht. by apply append_kept.
  - destruct (Z.le_gt_cases len vector_max_size); [apply ensure_kept; [done|lia]|].
    apply ensure_huge_kept; [done|lia|done].
  - apply (kept_guarded _ _ len (writableBytes b) (fun _ b' => wf b')); [|done|unfold hasWritten; assert_refuses].
    intros Hl. rewrite hasWritten_runs by (done || lia). pose proof Hb as []. constructor; unfold size in *; cbn; lia.
  - unfold unwrite. by_spec unwrite_spec len (readableBytes b).
  - unfold prepend. by_spec prepend_spec len (prependableBytes b).
  - unfold retrieve. by_spec retrieve_spec len (readableBytes b).
  - by apply retrieveUntil_kept.
  - unfold retrieveAsString. by_spec retrieveAsString_spec len (readableBytes b).
  - eapply kept_runs; [by apply retrieveAll_spec|]. by cbn; intros _ b' [].
  - by apply retrieveAllAsString_kept.
  - apply (append_image_kept 4); [done|lia].
  - apply (append_image_kept 2); [done|lia].
  - apply (append_image_kept 1); [done|lia].
  - unfold prependInt32, prepend. by_spec prependInt32_spec 4 (prependableBytes b).
  - unfold prependInt16, prepend. by_spec prependInt16_spec 2 (prependableBytes b).
  - unfold prependInt8, prepend. by_spec prependInt8_spec 1 (prependableBytes b).
  - unfold readInt32, peekInt32. by_spec readInt32_spec 4 (readableBytes b).
  - unfold readInt16, peekInt16. by_spec readInt16_spec 2 (readableBytes b).
  - unfold readInt8, peekInt8. by_spec readInt8_spec 1 (readableBytes b).
Qed.

Lemma wf_in_order b : wf b -> in_order b.
Proof. intros []. unfold in_order. lia. Qed.

Instance wraps_dec r b : Decision (wraps r b).
Proof. destruct r; cbn; apply _. Defined.

(** Requests that may all be granted, or the first that wraps around. *)
Lemma requests_kept rs b :
  wf b -> Forall typed rs ->
  safe refusal (for_each perform rs) b (fun _ => wf) \/
  exists before r after b', rs = before ++ r :: after /\ for_each perform before b = Ok (tt, b') /\
    wf b' /\ wraps r b'.
Proof.
  intros Hb Hrs. revert b Hb. induction Hrs as [|r rs Hr _ IH]; intros b Hb; [by left|].
  destruct (decide (wraps r b)) as [Hw|Hw]; [right; by exists [], r, rs, b|].
  pose proof (perform_kept r b Hb Hr Hw) as Hk. unfold kept, safe in Hk.
  destruct (perform r b) as [[[] b1]|f] eqn:E.
  - destruct (IH b1 Hk) as [Hs|(before & r' & after & b' & -> & Hrun & ? & ?)].
    + left. unfold safe in *. cbn. unfold mbind, prog_bind. by rewrite E.
    + right. exists (r :: before), r', after, b'. split; [done|]. split; [|done]. cbn. unfold mbind, prog_bind. by rewrite E.
  - left. unfold safe. cbn. unfold mbind, prog_bind. by rewrite E.
Qed.

(** C4: the asserts of Buffer guard its type, all but one: of any sequence of calls
    of the functions that change a buffer, with whatever arguments of their types,
    run on a fresh one, either every call returns and the indices are still in
    order within the storage, or it ends in a failed assert or in
    std::length_error, never in undefined behaviour; unless it comes, with the
    indices in order, to an [ensureWritableBytes] for which [writerIndex_ + len]
    wraps around and the space is found too small: that call returns, with the
    write index beyond the storage. *)
Theorem asserts_keep_buffer_typed rs :
  Forall typed rs ->
  safe (fun f => f = AssertionFailed \/ f = LengthError) (for_each perform rs) Buffer_init (fun _ => in_order) \/
  exists before len after b,
    rs = before ++ EnsureWritableBytes len :: after /\
    for_each perform before Buffer_init = Ok (tt, b) /\ in_order b /\
    two64 <= writerIndex_ b + len /\ writableBytes b + prependableBytes b < len ⊕ kCheapPrepend /\
    runs (ensureWritableBytes len) b (fun _ b' => size b' < writerIndex_ b').
Proof.
  intros Hrs. destruct (requests_kept rs Buffer_init wf_init Hrs) as [Hs|(before & r & after & b & Ers & Hrun & Hb & Hw)].
  - left. eapply safe_mono; [exact Hs|]. cbn beta. intros _ b. apply wf_in_order.
  - right. destruct r as [| len | | | | | | | | | | | | | | | | |]; try done. destruct Hw as [Hsum Hroom].
    exists before, len, after, b. split_and!; try done; [by apply wf_in_order|].
    rewrite Ers in Hrs. apply Forall_app in Hrs as [_ [Hlen _]%Forall_cons].
    eapply runs_mono; [by apply ensure_wraps|]. naive_solver.
Qed.
End Typing.

(** A request for 2^64 - 900 bytes is refused by nobody once 1000 are written. *)
Lemma asserts_keep_buffer_typed_witness :
  let _ : Host := LittleEndian in
  let rs := [Append (replicate 10 Byte.x41) 10; HasWritten 5; Unwrite 3; Retrieve 12; PrependInt32 7; Retrieve 100] in
  let rs' := [HasWritten 1000; EnsureWritableBytes (two64 - 900)] in
  ends (for_each perform rs) Buffer_init AssertionFailed /\
  safe (fun f => f = AssertionFailed \/ f = LengthError) (for_each perform rs) Buffer_init (fun _ => in_order) /\
  exists before len after b,
    rs' = before ++ EnsureWritableBytes len :: after /\ for_each perform before Buffer_init = Ok (tt, b) /\
    runs (ensureWritableBytes len) b (fun _ b' => size b' < writerIndex_ b').
Proof.
  intros host rs rs'. split; [reflexivity|]. split.
  - destruct (asserts_keep_buffer_typed rs) as [Hs|(before & len & after & b & E & _)];
      [repeat constructor; vm_compute; congruence|exact Hs|exfalso].
    apply (f_equal (fun l => existsb (fun r => if r is EnsureWritableBytes _ then true else false) l)) in E.
    rewrite existsb_app in E. cbn in E. by rewrite orb_true_r in E.
  - destruct (asserts_keep_buffer_typed rs') as [Hs|(before & len & after & b & E & Hb & _ & _ & _ & Hr)];
      [repeat constructor; vm_compute; congruence|exfalso|].
    + vm_compute in Hs. destruct Hs as [_ [Hs _]]. by apply Hs.
    + exists before, len, after, b. split; [exact E|]. split; [exact Hb|exact Hr].
Defined.
