(* ===== verification/ServerSafety.v ===== *)
(** * ServerSafety: the faults a server built on netlib can end in

    Whatever the kernel answers, within its documented behaviour, and whatever
    callbacks the user registered, provided that they are safe themselves: a
    server never fails an assertion, never leaves the storage of a buffer or of
    the event array, never dereferences a null pointer and never calls an empty
    function.  What is left are accesses to destroyed objects, the exception of a
    vector that cannot grow, and [LOG(FATAL)]. *)

From Stdlib Require Import Ascii.
From S2P Require Import Prelude Bytes Buffer BufferSpec Kernel ScriptKernel World WorldSpec Poller EventLoop Channel Callbacks Socket TcpServer Reactor Main Scenarios PollerTheorems ServerTheorems Safety.

(** The faults that remain. *)
Definition tolerated (f : fault) : Prop :=
  match f with
  | Undefined UseAfterFree | LengthError | FatalLog | OutOfFuel => True
  | _ => False
  end.

Abbreviation safely := (safe tolerated).

Section Invariant.
Context {K U : Type} `{KernelLaws (option ptr) K}.
Implicit Type w : World K U.
Abbreviation M := (prog (World K U)).

(** The callbacks of a channel. *)
Definition callbacks : Type :=
  option ReadEventCallback * option EventCallback * option EventCallback * option EventCallback.
Definition callbacks_of (c : Channel) : callbacks :=
  (readCallback_ c, writeCallback_ c, closeCallback_ c, errorCallback_ c).
Definition calls w : gmap ptr callbacks := callbacks_of <$> chans w.

(** Functions that read or close the socket [s]. *)
Definition uses (cs : callbacks) (s : ptr) : Prop :=
  let '(r, wr, c, e) := cs in
  r = Some (Socket_handleRead s) \/ wr = Some (Socket_handleClose s)
  \/ c = Some (Socket_handleClose s) \/ e = Some (Socket_handleClose s).

Definition interest_ok w : Prop :=
  forall fd ev, interest w !! fd = Some ev -> is_Some (ev_data ev).
Definition buffers_ok (m : gmap ptr (Socket U)) : Prop :=
  map_Forall (fun _ o => wf (inputBuffer_ o) /\ wf (outputBuffer_ o)) m.
Definition equipped (o : Socket U) : Prop :=
  is_Some (so_messageCallback o) /\ is_Some (so_closeCallback o).

(** The invariant.  Sockets outside [X] have the callbacks they need; channels
    neither read nor close the sockets in [A]: the acceptor has no callbacks. *)
Record ok (X A : gset ptr) w : Prop := mkOk {
  ok_interest : interest_ok w;
  ok_buffers : buffers_ok (socks w);
  ok_equipped : map_Forall (fun s o => s ∉ X -> equipped o) (socks w);
  ok_calls : map_Forall (fun _ cs => forall s, uses cs s -> s ∉ A) (calls w);
  ok_below : set_Forall (fun s => (s < next_ptr w)%positive) A
}.

(** The server once it listens. *)
Record ready w : Prop := mkReady {
  ready_acceptor : is_Some (acceptor (the_server w));
  ready_message : is_Some (ts_messageCallback (the_server w));
  ready_close : is_Some (ts_closeCallback (the_server w));
  ready_connection : is_Some (ts_connectionCallback (the_server w))
}.

Definition inv (A : gset ptr) w : Prop := ok A A w /\ ready w.

(** Steps that change neither sockets nor callbacks nor the server. *)
Record quietly w w' : Prop := mkQuietly {
  q_socks : socks w' = socks w;
  q_calls : calls w' = calls w;
  q_next : next_ptr w' = next_ptr w;
  q_server : the_server w' = the_server w;
  q_epfd : epfd w' = epfd w;
  q_interest : interest_ok w -> interest_ok w'
}.

#[export] Instance quietly_refl : Reflexive quietly.
Proof. by intros w. Qed.

#[export] Instance quietly_trans : Transitive quietly.
Proof. intros w1 w2 w3 [] []. split; try congruence. auto. Qed.

Lemma ok_quietly X A w w' : quietly w w' -> ok X A w -> ok X A w'.
Proof. intros [Hs Hc Hn Hv He Hi] []. split; rewrite ?Hs, ?Hc, ?Hn; auto. Qed.

Lemma ready_quietly w w' : quietly w w' -> ready w -> ready w'.
Proof. intros [] []. split; congruence. Qed.

Lemma inv_quietly A w w' : quietly w w' -> inv A w -> inv A w'.
Proof. intros Hq [? ?]. split; [by eapply ok_quietly|by eapply ready_quietly]. Qed.

(** A quiet computation inside a larger one. *)
Lemma safely_quiet {A B} (m : M A) (k : A -> M B) w (Q : B -> World K U -> Prop) :
  safely m w (fun _ w' => quietly w w') ->
  (forall a w', quietly w w' -> safely (k a) w' Q) -> safely (m ≫= k) w Q.
Proof. intros Hm Hk. rewrite safe_bind. eapply safe_mono; [exact Hm|]. auto. Qed.

(** ** System calls *)

Definition is_ctl {A} (c : syscall (option ptr) A) : bool :=
  match c with SysEpollCtl _ _ _ _ => true | _ => false end.

(** No call but [epoll_ctl] registers anything. *)
Lemma sys_shrinks {A} (c : syscall (option ptr) A) (k : K) ep fd ev :
  is_ctl c = false -> k_interest (sys_exec c k).2 ep !! fd = Some ev ->
  k_interest k ep !! fd = Some ev.
Proof.
  intros Hc. destruct (quiet c) eqn:Eq.
  { destruct (law_quiet c k Eq) as (_ & -> & _). done. }
  destruct c; try done.
  - by apply (law_open SysSocket k); left.
  - pose proof (law_accept fd0 k) as Hl. destruct (sys_exec _ k) as [r k']. cbn. by destruct Hl as (-> & _).
  - pose proof (law_close fd0 k) as Hl. destruct (sys_exec _ k) as [r k']. destruct Hl as (_ & Hl & _).
    cbn. rewrite Hl. intros [_ ?]%lookup_delete_Some. done.
  - pose proof (law_write fd0 data k) as Hl. destruct (sys_exec _ k) as [r k']. cbn. by destruct Hl as (_ & -> & _).
  - by apply (law_open SysEpollCreate k); right.
Qed.

Lemma after_sys_quietly {A} (c : syscall (option ptr) A) (r : sysres A) w :
  is_ctl c = false -> quietly w (after_sys r (sys_exec c (kernel w)).2 w).
Proof.
  intros Hc. split; try by destruct r. intros Hi fd ev Hev. apply (Hi fd).
  apply (sys_shrinks c) ; [done|]. by destruct r.
Qed.

Lemma safely_sys {A B} (c : syscall (option ptr) A) (k : sysres A -> M B) w (Q : B -> World K U -> Prop) :
  is_ctl c = false -> (forall w', quietly w w' -> safely (k (sys_exec c (kernel w)).1) w' Q) ->
  safely (sys c ≫= k) w Q.
Proof. intros Hc Hk. rewrite safe_bind, safe_sys. by apply Hk, after_sys_quietly. Qed.

Lemma sys_quiet {A} (c : syscall (option ptr) A) w :
  is_ctl c = false -> safely (sys c) w (fun _ w' => quietly w w').
Proof. intros Hc. rewrite safe_sys. by apply after_sys_quietly. Qed.

(** ** The poller *)

Lemma interest_entry p c w i' :
  interest_ok w ->
  i' = interest w \/ i' = <[fd_ c := EpollEvent (uint32 (events_ c)) (Some p)]> (interest w)
    \/ i' = delete (fd_ c) (interest w) ->
  forall fd ev, i' !! fd = Some ev -> is_Some (ev_data ev).
Proof.
  intros Hi [-> | [-> | ->]] fd ev; [by apply Hi| |].
  - intros [[_ <-]|[_ Hev]]%lookup_insert_Some; [by eexists|by apply (Hi fd)].
  - intros [_ Hev]%lookup_delete_Some. by apply (Hi fd).
Qed.

Lemma dead_object : tolerated (Undefined UseAfterFree).
Proof. exact I. Qed.

Lemma update_quiet op p w : safely (Poller.update op p) w (fun _ w' => quietly w w').
Proof.
  unfold Poller.update, poller. rewrite safe_bind. apply safe_get_chan; [|done].
  intros c Hc. rewrite safe_bind, safe_gets, safe_bind, safe_sys, safe_ret.
  set (ev := EpollEvent _ _). set (e := epollfd_ _).
  pose proof (law_ctl e op (fd_ c) ev (kernel w)) as Hl. assert (e = epfd w) as He by done.
  destruct (sys_exec (SysEpollCtl e op (fd_ c) ev) (kernel w)) as [r k'].
  destruct Hl as (_ & _ & _ & Hr). cbn [fst snd].
  split; try by destruct r. intros Hi.
  assert (interest (after_sys r k' w) = k_interest k' e) as Hin by by destruct r.
  intros fd ev'. rewrite Hin. apply (interest_entry p c w); [done|].
  change (interest w) with (k_interest (kernel w) e). destruct r as [u|err]; [|left; by rewrite Hr].
  destruct op, Hr as [_ ->]; auto.
Qed.

(** Changing a channel but not its callbacks. *)
Lemma upd_chan_quiet p f w :
  (forall c, callbacks_of (f c) = callbacks_of c) ->
  safely (upd_chan p f : M unit) w (fun _ w' => quietly w w').
Proof.
  intros Hf. apply safe_upd_chan; [|done]. intros c Hc. split; try done.
  unfold calls. cbn. rewrite fmap_insert, Hf. apply insert_id. by rewrite lookup_fmap, Hc.
Qed.

Lemma upd_poller_quiet f w :
  (forall p, epollfd_ (f p) = epollfd_ p) ->
  safely (upd_poller f : M unit) w (fun _ w' => quietly w w').
Proof.
  intros Hf. unfold upd_poller. rewrite safe_modify. split; try done; unfold interest, epfd; cbn.
  - apply Hf.
  - intros Hi fd ev. unfold interest, epfd. cbn. rewrite Hf. apply Hi.
Qed.

Lemma quiet_ret {A} (a : A) w0 w : quietly w0 w -> safely (mret a : M A) w (fun _ w' => quietly w0 w').
Proof. done. Qed.

(** A sequence of quiet steps is quiet. *)
Lemma quiet_bind {A B} (m : M A) (k : A -> M B) w :
  safely m w (fun _ w' => quietly w w') ->
  (forall a w', safely (k a) w' (fun _ w'' => quietly w' w'')) ->
  safely (m ≫= k) w (fun _ w' => quietly w w').
Proof.
  intros Hm Hk. apply safely_quiet; [done|]. intros a w' Hq.
  eapply safe_mono; [apply Hk|]. cbn beta. intros _ w'' Hq'. by transitivity w'.
Qed.

Lemma quiet_when b (m : M unit) w :
  safely m w (fun _ w' => quietly w w') -> safely (when_ b m) w (fun _ w' => quietly w w').
Proof. by destruct b. Qed.

Lemma quiet_get_chan p w : safely (get_chan p : M _) w (fun _ w' => quietly w w').
Proof. by apply safe_get_chan. Qed.

Lemma quiet_gets {A} (f : World K U -> A) w : safely (gets f) w (fun _ w' => quietly w w').
Proof. done. Qed.

Lemma updateChannel_quiet p w : safely (Poller.updateChannel p) w (fun _ w' => quietly w w').
Proof.
  unfold Poller.updateChannel. apply quiet_bind; [apply quiet_get_chan|]. intros c w1.
  case_match; [|case_match].
  - apply quiet_bind; [by apply quiet_when, upd_poller_quiet|]. intros _ w2.
    apply quiet_bind; [by apply upd_chan_quiet|]. intros _ w3. apply update_quiet.
  - apply quiet_bind; [apply update_quiet|]. intros _ w2. by apply upd_chan_quiet.
  - apply update_quiet.
Qed.

Lemma removeChannel_quiet p w : safely (Poller.removeChannel p) w (fun _ w' => quietly w w').
Proof.
  unfold Poller.removeChannel. apply quiet_bind; [apply quiet_get_chan|]. intros c w1.
  apply quiet_bind; [by apply upd_poller_quiet|]. intros _ w2.
  apply quiet_bind; [apply quiet_when, update_quiet|]. intros _ w3. by apply upd_chan_quiet.
Qed.

Lemma set_events_quiet p f w :
  safely (upd_chan p (fun c => with_events (f (events_ c)) c) ;; Channel.update p : M unit) w
    (fun _ w' => quietly w w').
Proof.
  apply quiet_bind; [by apply upd_chan_quiet|]. intros _ w1. apply updateChannel_quiet.
Qed.

(** [epoll_wait] reports no more events than there are slots, with the pointers
    they were registered with. *)
Lemma fill_loop_quiet n i active w :
  (i + n <= length (po_events (poller_ (the_loop w))))%nat ->
  Forall (fun ev => is_Some (ev_data ev)) (take n (drop i (po_events (poller_ (the_loop w))))) ->
  safely (fill_loop n i active) w (fun _ w' => quietly w w').
Proof.
  revert i active w. induction n as [|n IH]; intros i active w Hn Hsome; [done|].
  cbn [fill_loop]. unfold poller. rewrite safe_bind, safe_gets, safe_bind.
  destruct (lookup_lt_is_Some_2 (po_events (poller_ (the_loop w))) i) as [ev Hev]; [lia|].
  apply safe_unwrap; [|congruence]. intros ev' Hev'. simplify_eq.
  rewrite (drop_S _ _ _ Hev) in Hsome. apply Forall_cons in Hsome as [[p Hp] Hsome].
  rewrite safe_bind. apply safe_unwrap; [|congruence]. intros q _. rewrite safe_bind.
  apply safe_upd_chan; [|done]. intros c Hc. eapply safe_mono; [apply IH; [cbn; lia|done]|].
  cbn beta. intros _ w' Hq. etrans; [|exact Hq]. split; try done.
  unfold calls. cbn. rewrite fmap_insert. apply insert_id. by rewrite lookup_fmap, Hc.
Qed.

Lemma safe_upd_poller f w (Q : unit -> World K U -> Prop) :
  safely (upd_poller f) w Q <-> Q tt (on_loop (fun l => with_poller (f (poller_ l)) l) w).
Proof. done. Qed.

Lemma int32_le z : 0 <= z -> int32 z <= z.
Proof. intros Hz. unfold int32, signed. pose proof (Z.mod_le (z + two31) (2 * two31)). lia. Qed.

Lemma resize_quiet n l w :
  safely (lift (event_list_resize n l) : M _) w (fun _ w' => quietly w w').
Proof.
  apply safe_lift; [done|]. unfold event_list_resize. intros f. case_match; [|done]. by intros [= <-].
Qed.

Lemma poll_quiet timeout active w :
  interest_ok w -> safely (poll timeout active) w (fun _ w' => quietly w w').
Proof.
  intros Hi. unfold poll, poller. rewrite safe_bind, safe_gets, safe_bind, safe_sys.
  set (slots := po_events _). set (call := SysEpollWait _ _ _).
  pose proof (law_wait (epfd w) (int32 (zlen slots)) timeout (kernel w)) as Hwait.
  change (SysEpollWait (epfd w) (int32 (zlen slots)) timeout) with call in Hwait.
  pose proof (after_sys_quietly call (sys_exec call (kernel w)).1 w eq_refl) as Hq1.
  destruct (sys_exec call (kernel w)).1 as [evs|e] eqn:Er.
  - destruct (Hwait evs eq_refl) as [Hlen Hreg]. set (w1 := after_sys _ _ _) in *.
    assert (po_events (poller_ (the_loop w1)) = slots) as Hs1 by done. clearbody w1.
    rewrite safe_bind, safe_get. rewrite safe_bind, safe_sys.
    pose proof (after_sys_quietly SysTime (sys_exec SysTime (kernel w1)).1 w1 eq_refl) as Hq2.
    set (w2 := after_sys (sys_exec SysTime (kernel w1)).1 _ w1) in *.
    assert (quietly w w2) as Hq by (by transitivity w1). clearbody w2. clear Hq1 Hq2 Hs1.
    assert (zlen evs <= zlen slots) as Hle by (pose proof (int32_le (zlen slots) (zlen_nonneg _)); lia).
    rewrite safe_bind. apply safe_assert_storage; [by apply Z.leb_le|].
    rewrite safe_bind, safe_upd_poller. set (w3 := on_loop _ w2).
    assert (quietly w w3) as Hq3 by (by etrans; [exact Hq|]; split).
    assert (po_events (poller_ (the_loop w3)) = evs ++ drop (length evs) slots) as Hs3 by done.
    clearbody w3. assert (forall m : M (Z * list ptr),
      safely m w3 (fun _ w' => quietly w3 w') -> safely m w3 (fun _ w' => quietly w w')) as Hgo.
    { intros m Hm. eapply safe_mono; [exact Hm|]. cbn beta. intros _ w' ?. by transitivity w3. }
    destruct (0 <? zlen evs); [|by apply Hgo]. apply Hgo.
    apply quiet_bind; [|intros act w4; apply quiet_bind; [apply quiet_gets|]; intros p' w5;
      apply quiet_bind; [apply resize_quiet|]; intros l w6;
      apply quiet_bind; [by apply upd_poller_quiet|done]].
    unfold fillActiveChannels, zlen. rewrite Nat2Z.id. apply fill_loop_quiet.
    + rewrite Hs3, length_app. lia.
    + rewrite Hs3, drop_0, take_app_length. eapply Forall_impl; [exact Hreg|]. cbn beta.
      intros ev (fd & reg & Hfd & Hd). rewrite Hd. by apply (Hi fd).
  - set (w1 := after_sys _ _ _) in *. clearbody w1. rewrite safe_bind, safe_get.
    eapply safe_mono; [|intros a w' Hq; exact (quietly_trans w w1 w' Hq1 Hq)].
    apply quiet_bind; [by apply sys_quiet|]. intros t w2.
    apply quiet_bind; [|done]. apply quiet_when. rewrite safe_modify. by split.
Qed.
End Invariant.

(** ** Sockets, callbacks and the server *)

Section Callbacks.
Context {K U : Type} `{KernelLaws (option ptr) K} `{UserCode K U} `{InetAddr} `{Host}.
Implicit Type w : World K U.
Abbreviation M := (prog (World K U)).

(** [A] holds the acceptor, which nobody reads from, writes a message of or
    closes. *)
Context (A : gset ptr).

Definition keeping {B} (m : M B) : Prop := forall w, inv A w -> safely m w (fun _ w' => inv A w').

Lemma keeping_bind {B C} (m : M B) (k : B -> M C) :
  keeping m -> (forall b, keeping (k b)) -> keeping (m ≫= k).
Proof.
  intros Hm Hk w Hw. rewrite safe_bind. eapply safe_mono; [by apply Hm|].
  cbn beta. intros b w' Hw'. by apply Hk.
Qed.

Lemma keeping_quiet {B} (m : M B) : (forall w, safely m w (fun _ w' => quietly w w')) -> keeping m.
Proof.
  intros Hm w Hw. eapply safe_mono; [apply Hm|]. cbn beta. intros _ w' Hq. by eapply inv_quietly.
Qed.

Lemma keeping_ret {B} (b : B) : keeping (mret b).
Proof. by intros w Hw. Qed.

Lemma keeping_gets {B} (f : World K U -> B) : keeping (gets f).
Proof. by intros w Hw. Qed.

Lemma keeping_sys {B} (c : syscall (option ptr) B) : is_ctl c = false -> keeping (sys c).
Proof. intros Hc. apply keeping_quiet. intros w. by apply sys_quiet. Qed.

Lemma keeping_when b (m : M unit) : keeping m -> keeping (when_ b m).
Proof. destruct b; [done|intros _; apply keeping_ret]. Qed.

Lemma keeping_get_sock s : keeping (get_sock s).
Proof. intros w Hw. by apply safe_get_sock. Qed.

Lemma keeping_get_chan p : keeping (get_chan p).
Proof. intros w Hw. by apply safe_get_chan. Qed.

Lemma keeping_errno e : keeping (modify (set_errno e)).
Proof. apply keeping_quiet. intros w. rewrite safe_modify. by split. Qed.

Lemma ok_insert X w s o :
  ok X A w -> wf (inputBuffer_ o) -> wf (outputBuffer_ o) -> (s ∉ X -> equipped o) ->
  ok X A (on_socks <[s := o]> w).
Proof.
  intros [] Hin Hout He. split; try done; cbn; by apply map_Forall_insert_2.
Qed.

Lemma inv_insert w s o :
  inv A w -> wf (inputBuffer_ o) -> wf (outputBuffer_ o) -> (s ∉ A -> equipped o) ->
  inv A (on_socks <[s := o]> w).
Proof. intros [Hok Hr] Hin Hout He. split; [by apply ok_insert|by destruct Hr]. Qed.

Lemma inv_sock w s o :
  inv A w -> socks w !! s = Some o ->
  wf (inputBuffer_ o) /\ wf (outputBuffer_ o) /\ (s ∉ A -> equipped o).
Proof.
  intros [[] _] Hs. destruct (ok_buffers0 s o Hs). split; [done|]. split; [done|].
  by apply (ok_equipped0 s o Hs).
Qed.

(** An update of a socket that leaves its buffers and callbacks alone. *)
Lemma keeping_upd_sock s f :
  (forall o, inputBuffer_ (f o) = inputBuffer_ o /\ outputBuffer_ (f o) = outputBuffer_ o
     /\ so_messageCallback (f o) = so_messageCallback o /\ so_closeCallback (f o) = so_closeCallback o) ->
  keeping (upd_sock s f).
Proof.
  intros Hf w Hw. apply safe_upd_sock; [|done]. intros o Ho.
  destruct (inv_sock w s o Hw Ho) as (Hi & Ho' & He). destruct (Hf o) as (E1 & E2 & E3 & E4).
  apply inv_insert; rewrite ?E1, ?E2; [done..|]. intros Hs. unfold equipped. rewrite E3, E4. by apply He.
Qed.

Lemma keeping_share s : keeping (share s).
Proof. by apply keeping_upd_sock. Qed.

Lemma inv_delete w s p :
  inv A w -> inv A (on_chans (delete p) (on_socks (delete s) w)).
Proof.
  intros [[] []]. split; [|by split]. split; try done; cbn.
  - by apply map_Forall_delete.
  - by apply map_Forall_delete.
  - unfold calls. cbn. rewrite fmap_delete. by apply map_Forall_delete.
Qed.

Lemma keeping_release s : keeping (release s).
Proof.
  intros w Hw. apply safe_release; [|done]. intros o Ho. case_match.
  - by apply inv_delete.
  - destruct (inv_sock w s o Hw Ho) as (? & ? & ?). by apply inv_insert.
Qed.

Lemma keeping_connections m : keeping (set_connections m).
Proof. intros w [[] []]. unfold set_connections. rewrite safe_modify. by split. Qed.

Lemma keeping_erase fd : keeping (connections_erase fd).
Proof.
  apply keeping_bind; [apply keeping_gets|]. intros m. case_match; [|apply keeping_ret].
  apply keeping_bind; [apply keeping_connections|]. intros _. apply keeping_release.
Qed.

(** What is asked of the callbacks of the user. *)
Hypothesis user_keeps : forall u s, keeping (run_user u s).

Lemma keeping_connectionClose s : keeping (connectionClose s).
Proof using user_keeps.
  apply keeping_bind; [apply keeping_get_sock|]. intros o.
  apply keeping_bind; [apply keeping_erase|]. intros _ w Hw. rewrite safe_bind, safe_gets.
  unfold call_user. rewrite safe_bind. apply safe_unwrap; [intros u _; by apply user_keeps|].
  destruct Hw as [_ [_ _ [u Hu] _]]. congruence.
Qed.

Lemma keeping_call f s : keeping (call f s).
Proof using user_keeps. destruct f; [apply user_keeps|apply keeping_connectionClose]. Qed.

Lemma keeping_call_with_self f s : is_Some f -> keeping (call_with_self f s).
Proof using user_keeps.
  intros [cb ->]. apply keeping_bind; [apply keeping_share|]. intros _.
  apply (keeping_bind (mret cb)); [apply keeping_ret|]. intros f.
  apply keeping_bind; [apply keeping_call|]. intros _. apply keeping_release.
Qed.

(** *** Events of a connection *)

Lemma keeping_handleError s : keeping (handleError s).
Proof.
  apply keeping_bind; [apply keeping_get_sock|]. intros o.
  apply keeping_bind; [by apply keeping_sys|]. intros r. apply keeping_ret.
Qed.

Lemma keeping_handleClose s : s ∉ A -> keeping (handleClose s).
Proof using user_keeps.
  intros Hs. apply keeping_bind; [apply keeping_get_sock|]. intros o.
  apply keeping_bind; [by apply keeping_sys|]. intros r.
  apply keeping_bind; [apply keeping_quiet, removeChannel_quiet|]. intros _ w Hw.
  rewrite safe_bind. apply safe_get_sock; [|done]. intros o' Ho'.
  apply keeping_call_with_self; [|done]. by apply (inv_sock w s o' Hw Ho').
Qed.

Lemma keeping_chan_fd s : keeping (chan_fd s).
Proof.
  apply keeping_bind; [apply keeping_get_sock|]. intros o.
  apply keeping_bind; [apply keeping_get_chan|]. intros c. apply keeping_ret.
Qed.

Lemma kernel_quietly k w :
  (forall ep fd ev, k_interest k ep !! fd = Some ev -> k_interest (kernel w) ep !! fd = Some ev) ->
  quietly w (set_kernel k w).
Proof. intros Hk. split; try done. intros Hi fd ev Hev. by apply (Hi fd), (Hk (epfd w)). Qed.

Lemma readv_within : readv_bounded (readv (K := K)).
Proof.
  intros fd lens k data k' Hl E. unfold readv in E. eapply (law_readv fd lens k); [done|].
  by rewrite E.
Qed.

Lemma keeping_readFd s fd : keeping (on_input s (readFd readv fd)).
Proof.
  intros w Hw. unfold on_input. rewrite safe_bind. apply safe_get_sock; [|done]. intros o Ho.
  destruct (inv_sock w s o Hw Ho) as (Hi & Ho' & He).
  pose proof (readFd_safe tolerated I readv fd (inputBuffer_ o) (kernel w) Hi readv_within) as Hrd.
  unfold safe, mk_prog in *. destruct (readFd _ _ _) as [[[n saved] [b k]]|f]; [|done].
  destruct Hrd as [Hb ->]. apply inv_insert; try done.
  eapply inv_quietly; [|done]. apply kernel_quietly. intros ep fd' ev. by apply sys_shrinks.
Qed.

Lemma keeping_handleRead s t : s ∉ A -> keeping (handleRead s t).
Proof using user_keeps.
  intros Hs. apply keeping_bind; [apply keeping_chan_fd|]. intros fd.
  apply keeping_bind; [apply keeping_readFd|]. intros [n saved]. case_match; [|case_match].
  - intros w Hw. rewrite safe_bind. apply safe_get_sock; [|done]. intros o Ho.
    apply keeping_call_with_self; [|done]. by apply (inv_sock w s o Hw Ho).
  - by apply keeping_handleClose.
  - apply keeping_bind; [apply keeping_errno|]. intros _. apply keeping_handleError.
Qed.

(** [c->retrieve(n)] follows the write of the bytes it counts. *)
Lemma keeping_handleWrite s : keeping (handleWrite s).
Proof.
  intros w Hw. unfold handleWrite, chan_fd. rewrite !safe_bind. apply safe_get_sock; [|done].
  intros o Ho. rewrite safe_bind. apply safe_get_chan; [|done]. intros c Hc. rewrite safe_ret, safe_bind.
  destruct (inv_sock w s o Hw Ho) as (Hi & Hout & He).
  pose proof (readableBytes_wf _ Hout) as Hr. pose proof (zlen_contents _ Hout) as Hz. pose proof Hout as [].
  apply (safe_mono _ _ _ (fun data w' => data = contents (outputBuffer_ o) /\ inv A w' /\ socks w' !! s = Some o)).
  { unfold on_output. rewrite safe_bind. apply safe_get_sock; [|done]. intros o' Ho'. simplify_eq.
    unfold safe, mk_prog, read_at, mbind, prog_bind, get_st. cbn beta iota. unfold peek.
    rewrite mem_read_Ok by (unfold size in *; lia). cbn [lift]. cbn. rewrite Hr. split; [done|].
    assert (with_outputBuffer (outputBuffer_ o) o = o) as -> by by destruct o.
    split; [by apply inv_insert|]. by rewrite lookup_insert_eq. }
  intros data w1 (-> & Hw1 & Ho1). rewrite safe_bind, safe_sys.
  set (call := SysWrite _ _). pose proof (law_write (fd_ c) (contents (outputBuffer_ o)) (kernel w1)) as Hlaw.
  pose proof (after_sys_quietly call (sys_exec call (kernel w1)).1 w1 eq_refl) as Hq.
  change (SysWrite (fd_ c) (contents (outputBuffer_ o))) with call in Hlaw.
  destruct (sys_exec call (kernel w1)) as [r k]. destruct Hlaw as (_ & _ & Hn). cbn [fst snd] in *.
  pose proof (inv_quietly A _ _ Hq Hw1) as Hw2. pose proof (q_socks _ _ Hq) as Hs2.
  set (w2 := after_sys _ _ _) in *. clearbody w2. rewrite <- Hs2 in Ho1.
  destruct (Z.ltb_spec 0 (ret_int r)) as [Hpos|]; [|done].
  assert (ret_int r <= readableBytes (outputBuffer_ o)) as Hle by (destruct r; cbn in *; lia).
  set (n := ret_int r) in *. clearbody n. rewrite safe_bind.
  apply (safe_mono _ _ _ (fun _ w' => inv A w')).
  { unfold on_output. rewrite safe_bind. apply safe_get_sock; [|done]. intros o' Ho'. simplify_eq.
    pose proof (retrieve_spec n (outputBuffer_ o) Hout ltac:(lia)) as Hrt.
    unfold safe, runs, mk_prog in *. destruct (retrieve n _) as [[u b]|]; [|done].
    destruct Hrt as [Hb _]. by apply inv_insert. }
  intros _. apply keeping_bind; [apply keeping_get_sock|]. intros o2. apply keeping_when.
  apply keeping_bind; [apply keeping_quiet;
    exact (set_events_quiet (chan_ o2) (fun e => Z.land e (Z.lnot kWriteEvent)))|]. intros _.
  apply keeping_bind; [apply keeping_get_sock|]. intros o3.
  destruct (so_writeCallback o3); [|apply keeping_ret].
  apply keeping_bind; [apply keeping_share|]. intros _. apply keeping_quiet. intros w4.
  unfold runInLoop. rewrite safe_modify. by split.
Qed.

Lemma keeping_Send s data :
  zlen data <= vector_max_size -> keeping (Send s data (zlen data)).
Proof.
  intros Hmax. pose proof (zlen_nonneg data). unfold vector_max_size in Hmax.
  apply keeping_bind; [apply keeping_chan_fd|]. intros fd w Hw.
  rewrite size_t_small by lia. rewrite mem_read_Ok by lia. rewrite safe_bind. apply safe_lift; [|done].
  intros bytes [= Eb]. assert (zlen bytes = zlen data) as Hb by (rewrite <- Eb; apply zlen_slice; lia).
  clear Eb. rewrite safe_bind, safe_sys. set (call := SysWrite fd bytes).
  pose proof (law_write fd bytes (kernel w)) as Hlaw. change (SysWrite fd bytes) with call in Hlaw.
  pose proof (after_sys_quietly call (sys_exec call (kernel w)).1 w eq_refl) as Hq.
  destruct (sys_exec call (kernel w)) as [r k]. destruct Hlaw as (_ & _ & Hn). cbn [fst snd] in *.
  pose proof (inv_quietly A _ _ Hq Hw) as Hw2. set (w2 := after_sys _ _ _) in *. clearbody w2.
  destruct (Z.eqb_spec (ret_int r) (zlen data)) as [_|Hne]; [done|]. destruct (Z.ltb_spec 0 (ret_int r)).
  - assert (ret_int r < zlen data) as Hlt by (destruct r; cbn in *; lia).
    set (n := ret_int r) in *. clearbody n. rewrite safe_bind.
    apply (safe_mono _ _ _ (fun _ w' => inv A w')); [|done].
    unfold on_output. rewrite safe_bind. apply safe_get_sock; [|done]. intros o Ho.
    destruct (inv_sock w2 s o Hw2 Ho) as (Hi & Hout & He).
    rewrite size_t_small by lia.
    assert (zlen (drop (Z.to_nat n) data) = zlen data - n) as Hd.
    { unfold zlen in *. rewrite length_drop. lia. }
    pose proof (append_safe tolerated I (drop (Z.to_nat n) data) (zlen data - n) (outputBuffer_ o) Hout
      ltac:(lia) ltac:(unfold vector_max_size; lia)) as Hap.
    unfold safe, mk_prog in *. destruct (append _ _ _) as [[u b]|]; [|done]. by apply inv_insert.
  - revert w2 Hw2 Hq. intros w2 Hw2 _. revert w2 Hw2.
    match goal with |- forall w2, _ -> safely ?m _ _ => change (keeping m) end.
    apply keeping_bind; [apply keeping_get_sock|]. intros o.
    apply keeping_bind; [apply keeping_gets|]. intros e.
    apply keeping_bind; [|intros _; apply keeping_gets].
    apply keeping_when, keeping_quiet. exact (set_events_quiet (chan_ o) (fun e => Z.lor e kWriteEvent)).
Qed.

(** *** Building a socket *)

Definition socket_callbacks (this : ptr) : callbacks :=
  (Some (Socket_handleRead this), Some (Socket_handleWrite this), Some (Socket_handleClose this), None).

(** A change of one channel, as the callbacks see it. *)
Lemma safely_set_calls ch f cs cs' w (Q : unit -> World K U -> Prop) :
  calls w !! ch = Some cs -> (forall c, callbacks_of c = cs -> callbacks_of (f c) = cs') ->
  (forall w', socks w' = socks w -> next_ptr w' = next_ptr w -> the_server w' = the_server w ->
     epfd w' = epfd w -> interest w' = interest w -> calls w' = <[ch := cs']> (calls w) -> Q tt w') ->
  safely (upd_chan ch f) w Q.
Proof.
  intros Hcs Hf HQ. apply safe_upd_chan; [|done]. intros c Hc. apply HQ; try done.
  unfold calls. cbn. rewrite fmap_insert. f_equal. apply Hf.
  unfold calls in Hcs. rewrite lookup_fmap, Hc in Hcs. by injection Hcs.
Qed.

Lemma set_read cb c r wr cl e :
  callbacks_of c = (r, wr, cl, e) -> callbacks_of (with_readCallback cb c) = (Some cb, wr, cl, e).
Proof. unfold callbacks_of. cbn. congruence. Qed.
Lemma set_write cb c r wr cl e :
  callbacks_of c = (r, wr, cl, e) -> callbacks_of (with_writeCallback cb c) = (r, Some cb, cl, e).
Proof. unfold callbacks_of. cbn. congruence. Qed.
Lemma set_close cb c r wr cl e :
  callbacks_of c = (r, wr, cl, e) -> callbacks_of (with_closeCallback cb c) = (r, wr, Some cb, e).
Proof. unfold callbacks_of. cbn. congruence. Qed.

Lemma Socket_ctor_safe fd w :
  interest_ok w ->
  safely (Socket_ctor fd) w (fun this w' =>
    let ch := Pos.succ this in
    this = next_ptr w /\ socks w' = <[this := new_socket fd ch]> (socks w)
    /\ calls w' = <[ch := socket_callbacks this]> (calls w)
    /\ the_server w' = the_server w /\ next_ptr w' = Pos.succ ch /\ interest_ok w').
Proof.
  intros Hi. unfold Socket_ctor. change Buffer_ctor with (Ok Buffer_init).
  unfold alloc. rewrite !safe_bind, safe_get, safe_bind, safe_modify, safe_ret.
  rewrite safe_bind. apply safe_lift; [|done]. intros _ [= <-].
  rewrite safe_bind. apply safe_lift; [|done]. intros _ [= <-].
  rewrite !safe_bind, safe_get, safe_bind, safe_modify, safe_ret, !safe_bind, safe_modify, safe_bind, safe_modify.
  set (this := next_ptr w). set (ch := next_ptr _). set (w1 := on_socks _ _).
  assert (calls w1 = <[ch := (None, None, None, None)]> (calls w)) as Hc1.
  { unfold calls. cbn. by rewrite fmap_insert. }
  assert (interest_ok w1) as Hi1 by done.
  apply safely_sys; [done|]. intros w2 Hq2. apply safely_sys; [done|]. intros w3 Hq3.
  apply safely_sys; [done|]. intros w4 Hq4. apply safely_sys; [done|]. intros w5 Hq5.
  assert (quietly w1 w5) as Hq by (etrans; [exact Hq2|]; etrans; [exact Hq3|]; by etrans; [exact Hq4|]).
  clear Hq2 Hq3 Hq4 Hq5. apply (safely_quiet (enableReading ch)).
  { exact (set_events_quiet ch (fun e => Z.lor e kReadEvent) w5). }
  intros _ w6 Hq6. assert (quietly w1 w6) as [Hs Hc Hn Hv He Hint] by by transitivity w5.
  clear Hq Hq6. rewrite Hc1 in Hc. rewrite safe_bind.
  apply (safely_set_calls ch _ (None, None, None, None) (Some (Socket_handleRead this), None, None, None));
    [by rewrite Hc, lookup_insert_eq|intros c Hcb; by eapply set_read|]. intros w7 Hs7 Hn7 Hv7 He7 Hi7 Hc7.
  rewrite Hc, insert_insert_eq in Hc7. rewrite safe_bind.
  apply (safely_set_calls ch _ (Some (Socket_handleRead this), None, None, None)
    (Some (Socket_handleRead this), Some (Socket_handleWrite this), None, None));
    [by rewrite Hc7, lookup_insert_eq|intros c Hcb; by eapply set_write|]. intros w8 Hs8 Hn8 Hv8 He8 Hi8 Hc8.
  rewrite Hc7, insert_insert_eq in Hc8. rewrite safe_bind.
  apply (safely_set_calls ch _ (Some (Socket_handleRead this), Some (Socket_handleWrite this), None, None)
    (socket_callbacks this));
    [by rewrite Hc8, lookup_insert_eq|intros c Hcb; by eapply set_close|]. intros w9 Hs9 Hn9 Hv9 He9 Hi9 Hc9.
  rewrite Hc8, insert_insert_eq in Hc9. rewrite safe_ret.
  split; [done|]. split; [by rewrite Hs9, Hs8, Hs7, Hs|]. split; [done|].
  split; [by rewrite Hv9, Hv8, Hv7, Hv|]. split; [by rewrite Hn9, Hn8, Hn7, Hn|].
  unfold interest_ok. rewrite Hi9, Hi8, Hi7. by apply Hint.
Qed.

(** *** Accepting *)

Lemma ok_made w w' fd this :
  inv A w -> this = next_ptr w -> socks w' = <[this := new_socket fd (Pos.succ this)]> (socks w) ->
  calls w' = <[Pos.succ this := socket_callbacks this]> (calls w) ->
  next_ptr w' = Pos.succ (Pos.succ this) -> interest_ok w' -> ok ({[this]} ∪ A) A w'.
Proof.
  intros [[_ Hb He Hc Hl] _] -> Hs Hcs Hn Hi. split; [done|..].
  - rewrite Hs. apply map_Forall_insert_2; [|done]. split; apply wf_init.
  - rewrite Hs. apply map_Forall_insert_2; [set_solver|].
    eapply map_Forall_impl; [exact He|]. cbn. intros s o Hs' Hni. apply Hs'. set_solver.
  - rewrite Hcs. apply map_Forall_insert_2; [|done]. intros s Hu Hin. apply Hl in Hin.
    destruct Hu as [[= <-]|[Hu|[[= <-]|Hu]]]; try done; lia.
  - rewrite Hn. intros s Hs'. apply Hl in Hs'. lia.
Qed.

(** The new socket is given its callbacks. *)
Lemma ok_equip s o w :
  ok ({[s]} ∪ A) A w -> wf (inputBuffer_ o) -> wf (outputBuffer_ o) -> equipped o ->
  ok A A (on_socks <[s := o]> w).
Proof.
  intros [Hi Hb He Hc Hl] Hin Hout Heq. split; try done; cbn.
  - by apply map_Forall_insert_2.
  - intros s' o'. rewrite lookup_insert_Some. intros [[<- <-]|[Hne Hs']] Hni; [done|].
    apply (He s' o' Hs'). set_solver.
Qed.

Lemma keeping_server {B} (f : TcpServer U -> B) : keeping (server f).
Proof. apply keeping_gets. Qed.

Lemma keeping_insert fd s : keeping (connections_insert fd s).
Proof.
  apply keeping_bind; [apply keeping_gets|]. intros m. case_match; [apply keeping_ret|].
  apply keeping_bind; [apply keeping_share|]. intros _. apply keeping_connections.
Qed.

(** After the socket is made and equipped. *)
Lemma keeping_announce s :
  keeping (newfd ← Socket.getFD s; connections_insert newfd s ;;
    chan ← Socket.getChan s; EventLoop.updateChannel chan ;;
    connected ← server ts_connectionCallback; call_user connected s ;; release s).
Proof using user_keeps.
  apply keeping_bind. { apply keeping_bind; [apply keeping_get_sock|]. intros o. apply keeping_ret. }
  intros fd. apply keeping_bind; [apply keeping_insert|]. intros _.
  apply keeping_bind. { apply keeping_bind; [apply keeping_get_sock|]. intros o. apply keeping_ret. }
  intros ch. apply keeping_bind; [apply keeping_quiet, updateChannel_quiet|]. intros _ w Hw.
  unfold server. rewrite safe_bind, safe_gets. pose proof Hw as [_ [_ _ _ [u ->]]]. revert w Hw.
  match goal with |- forall w, _ -> safely ?m _ _ => change (keeping m) end.
  apply keeping_bind; [|intros _; apply keeping_release].
  apply (keeping_bind (mret u)); [apply keeping_ret|]. intros u'. apply user_keeps.
Qed.

Lemma keeping_admit fd addr : keeping (admit_connection fd addr).
Proof using user_keeps.
  intros w Hw. unfold admit_connection. rewrite safe_bind.
  eapply safe_mono; [apply Socket_ctor_safe, Hw|]. cbn beta zeta.
  intros this w1 (Hthis & Hs & Hc & Hv & Hn & Hi).
  pose proof (ok_made w w1 fd this Hw Hthis Hs Hc Hn Hi) as Hok.
  assert (ready w1) as Hr by (destruct Hw as [_ []]; split; congruence). clear Hw Hc Hi Hn Hv.
  assert (socks w1 !! this = Some (new_socket fd (Pos.succ this))) as Ho by (by rewrite Hs, lookup_insert_eq).
  clear Hs. pose proof Hr as [_ [m Hm] _ _].
  unfold setAddr, Socket.setMessageCallback, setWriteCompleteCallback, Socket.setCloseCallback, server.
  rewrite safe_bind. apply safe_upd_sock; [|done]. intros o1 Ho1. simplify_eq.
  rewrite safe_bind, safe_gets, safe_bind. cbn [the_server on_socks]. rewrite Hm.
  apply safe_upd_sock; [|done]. intros o2 Ho2. cbn in Ho2. rewrite lookup_insert_eq in Ho2. simplify_eq.
  rewrite safe_bind, safe_gets, safe_bind.
  apply safe_upd_sock; [|done]. intros o3 Ho3. cbn in Ho3. rewrite lookup_insert_eq in Ho3. simplify_eq.
  rewrite safe_bind. apply safe_upd_sock; [|done]. intros o4 Ho4. cbn in Ho4.
  rewrite lookup_insert_eq in Ho4. simplify_eq.
  apply keeping_announce. split.
  - apply ok_equip; try apply wf_init; [|split; by eexists].
    repeat (apply ok_insert; [|apply wf_init|apply wf_init|set_solver]). done.
  - destruct Hr. by split.
Qed.

Lemma keeping_accept : keeping TcpServer.accept.
Proof using user_keeps.
  intros w Hw. unfold TcpServer.accept, acceptor_ptr, server. rewrite !safe_bind, safe_gets.
  pose proof Hw as [_ [[a Ha] _ _ _]]. rewrite Ha. apply safe_unwrap; [|done]. intros a' [= <-].
  revert w Hw Ha. intros w Hw _. revert w Hw.
  match goal with |- forall w, _ -> safely ?m _ _ => change (keeping m) end.
  apply keeping_bind. { apply keeping_bind; [apply keeping_get_sock|]. intros o. apply keeping_ret. }
  intros fd. apply keeping_bind; [by apply keeping_sys|]. intros r.
  apply keeping_bind; [|intros [c addr]; apply keeping_admit].
  destruct r as [[c addr]|e]; [apply keeping_ret|]. destruct (accept_expected e); [|by intros w Hw].
  apply keeping_bind; [apply keeping_errno|]. intros _. apply keeping_ret.
Qed.

(** *** Dispatch and the loop *)

Lemma keeping_run_read cb t : (forall s, cb = Socket_handleRead s -> s ∉ A) -> keeping (run_read cb t).
Proof using user_keeps.
  destruct cb as [s|]; cbn; intros Hs; [by apply keeping_handleRead, Hs|apply keeping_accept].
Qed.

Lemma keeping_run_event cb : (forall s, cb = Socket_handleClose s -> s ∉ A) -> keeping (run_event cb).
Proof using user_keeps.
  destruct cb as [s|s|]; cbn; intros Hs; [apply keeping_handleWrite|by apply keeping_handleClose, Hs|].
  apply keeping_quiet. intros w. unfold acceptorCloseCallback, quit. rewrite safe_modify. by split.
Qed.

(** The callbacks of a live channel are none of those the acceptor lacks. *)
Lemma keeping_get_chan_bind {B} p (k : Channel -> M B) :
  (forall c, (forall s, uses (callbacks_of c) s -> s ∉ A) -> keeping (k c)) -> keeping (get_chan p ≫= k).
Proof.
  intros Hk w Hw. rewrite safe_bind. apply safe_get_chan; [|done]. intros c Hc. apply Hk; [|done].
  destruct Hw as [[_ _ _ Hcs _] _]. apply (Hcs p). unfold calls. by rewrite lookup_fmap, Hc.
Qed.

Lemma keeping_call_if {F} (run : F -> M unit) cb : (forall f, cb = Some f -> keeping (run f)) -> keeping (call_if run cb).
Proof. destruct cb; cbn; [auto|intros _; apply keeping_ret]. Qed.

Lemma keeping_handleEvent p t : keeping (handleEvent p t).
Proof using user_keeps.
  unfold handleEvent, Channel.handleEvent.
  apply keeping_bind; [by apply keeping_quiet; intros w; apply upd_chan_quiet|]. intros _.
  apply keeping_get_chan_bind. intros c Hc. apply keeping_bind; [|intros _].
  { apply keeping_when, keeping_call_if. intros cb Hcb. apply keeping_run_event. intros s ->.
    apply Hc. right. right. by left. }
  apply keeping_get_chan_bind. clear c Hc. intros c Hc. apply keeping_bind; [|intros _].
  { apply keeping_when, keeping_call_if. intros cb Hcb. apply keeping_run_event. intros s ->.
    apply Hc. right. right. by right. }
  apply keeping_get_chan_bind. clear c Hc. intros c Hc. apply keeping_bind; [|intros _].
  { apply keeping_when, keeping_call_if. intros cb Hcb. apply keeping_run_read. intros s ->.
    apply Hc. by left. }
  apply keeping_get_chan_bind. clear c Hc. intros c Hc. apply keeping_bind; [|intros _].
  { apply keeping_when, keeping_call_if. intros cb Hcb. apply keeping_run_event. intros s ->.
    apply Hc. right. by left. }
  apply keeping_quiet. intros w. by apply upd_chan_quiet.
Qed.

Lemma keeping_for_each {B} (body : B -> M unit) l :
  (forall x, keeping (body x)) -> keeping (for_each body l).
Proof. intros Hb w Hw. apply safe_for_each; [done|]. intros x w' _. apply Hb. Qed.

Lemma keeping_loop_field f :
  (forall l, epollfd_ (poller_ (f l)) = epollfd_ (poller_ l)) -> keeping (modify (on_loop f)).
Proof.
  intros Hf. apply keeping_quiet. intros w. rewrite safe_modify. split; try done.
  - unfold epfd. cbn. apply Hf.
  - unfold interest_ok, interest, epfd. cbn. by rewrite Hf.
Qed.

Lemma keeping_pending fuel i : keeping (pending_loop fuel i).
Proof using user_keeps.
  revert i. induction fuel as [|fuel IH]; intros i; cbn [pending_loop];
    (apply keeping_bind; [apply keeping_gets|]; intros l; destruct (l !! i) as [[cb s]|];
     [|apply keeping_ret]).
  - by intros w Hw.
  - apply keeping_bind; [apply keeping_call|]. intros _. apply IH.
Qed.

Lemma keeping_poll timeout active : keeping (poll timeout active).
Proof.
  intros w Hw. eapply safe_mono; [apply poll_quiet, Hw|]. cbn beta. intros _ w' Hq.
  by eapply inv_quietly.
Qed.

Lemma keeping_loop_body fuel : keeping (loop_body fuel).
Proof using user_keeps.
  unfold loop_body. apply keeping_bind; [by apply keeping_loop_field|]. intros _.
  apply keeping_bind; [apply keeping_gets|]. intros act.
  apply keeping_bind; [apply keeping_poll|]. intros [now act'].
  apply keeping_bind; [by apply keeping_loop_field|]. intros _.
  apply keeping_bind.
  { apply keeping_bind; [apply keeping_gets|]. intros l. apply keeping_for_each. intros p.
    apply keeping_bind; [apply keeping_get_chan|]. intros c. apply keeping_ret. }
  intros _. apply keeping_bind; [apply keeping_gets|]. intros l.
  apply keeping_bind; [apply keeping_gets|]. intros t.
  apply keeping_bind; [|intros _; apply keeping_pending].
  apply keeping_for_each. intros p. apply keeping_handleEvent.
Qed.

Lemma keeping_loop_while fuel : keeping (loop_while fuel).
Proof using user_keeps.
  induction fuel as [|fuel IH]; cbn [loop_while];
    (apply keeping_bind; [apply keeping_gets|]; intros q; destruct q; [apply keeping_ret|]).
  - by intros w Hw.
  - apply keeping_bind; [apply keeping_loop_body|]. intros _. apply IH.
Qed.

Lemma keeping_loop fuel : keeping (loop fuel).
Proof using user_keeps.
  unfold loop. repeat (apply keeping_bind; [by apply keeping_loop_field|]; intros _).
  apply keeping_bind; [apply keeping_loop_while|]. intros _. by apply keeping_loop_field.
Qed.
End Callbacks.

(** ** The interface to user code, and the server from its start *)

(** What the library asks of the callbacks registered with it: run in a state
    that satisfies the invariant, they end in one, or in a tolerated fault. *)
Class SafeUser (K U : Type) `{KernelLaws (option ptr) K} `{UserCode K U} : Prop :=
  safe_user : forall (A : gset ptr) u s, keeping A (run_user u s).

Section Start.
Context {K U : Type} `{SafeUser K U} `{InetAddr} `{Host}.
Implicit Type w : World K U.
Abbreviation M := (prog (World K U)).

(** A host string whose port, if there is one, is in the range of [int]. *)
Definition port_readable (host : string) : Prop :=
  forall ip port, split host ":"%char = [ip; port] -> exists n, atoi port = Ok n.

(** A server before [start]: no objects yet, the callbacks registered. *)
Record unstarted w : Prop := mkUnstarted {
  un_interest : interest_ok w;
  un_socks : socks w = ∅;
  un_chans : chans w = ∅;
  un_acceptor : acceptor (the_server w) = None;
  un_message : is_Some (ts_messageCallback (the_server w));
  un_close : is_Some (ts_closeCallback (the_server w));
  un_connection : is_Some (ts_connectionCallback (the_server w));
  un_host : port_readable (host_ (the_server w))
}.

Lemma bind_keeps A w :
  inv A w -> port_readable (host_ (the_server w)) ->
  safely TcpServer.bind w (fun _ w' => inv A w').
Proof.
  intros Hw Hport. unfold TcpServer.bind, server. rewrite safe_bind, safe_gets.
  destruct (split _ _) as [|ip [|port [|x l]]] eqn:Es; try done.
  unfold acceptor_ptr, server. rewrite !safe_bind, safe_gets. pose proof Hw as [_ [[a ->] _ _ _]].
  apply safe_unwrap; [|done]. intros a' [= <-]. destruct (Hport ip port Es) as [n ->].
  rewrite safe_bind. apply safe_lift; [|done]. intros port' [= <-]. revert w Hw Hport Es.
  intros w Hw _ _. revert w Hw. match goal with |- forall w, _ -> safely ?m _ _ => change (keeping A m) end.
  apply keeping_bind; [by apply keeping_upd_sock|]. intros _.
  apply keeping_bind. { apply keeping_bind; [apply keeping_get_sock|]. intros o. apply keeping_ret. }
  intros fd. apply keeping_bind; [by apply keeping_sys|]. intros r. apply keeping_ret.
Qed.

Lemma listen_keeps A : keeping A (TcpServer.listen : M Z).
Proof.
  intros w Hw. unfold TcpServer.listen, acceptor_ptr, server. rewrite !safe_bind, safe_gets.
  pose proof Hw as [_ [[a ->] _ _ _]]. apply safe_unwrap; [|done]. intros a' [= <-]. revert w Hw.
  match goal with |- forall w, _ -> safely ?m _ _ => change (keeping A m) end.
  apply keeping_bind. { apply keeping_bind; [apply keeping_get_sock|]. intros o. apply keeping_ret. }
  intros fd. apply keeping_bind; [by apply keeping_sys|]. intros r.
  destruct r; [apply keeping_ret|by intros w Hw].
Qed.

(** The acceptor's channel is given other callbacks than those of a connection. *)
Lemma acceptor_inv p o cs w w' :
  unstarted w -> p = next_ptr w -> interest_ok w' -> socks w' = {[p := o]} ->
  calls w' = {[Pos.succ p := cs]} -> (forall s, ~ uses cs s) -> (p < next_ptr w')%positive ->
  wf (inputBuffer_ o) -> wf (outputBuffer_ o) ->
  the_server w' = with_acceptor (Some p) (the_server w) -> inv {[p]} w'.
Proof.
  intros [Hi Hs Hc Ha Hm Hcl Hco Hp] Hnext Hi' Hs' Hc' Hu Hlt Hin Hout Hv. split.
  - split; rewrite ?Hs', ?Hc'; [done|by apply map_Forall_singleton| | |].
    + apply map_Forall_singleton. set_solver.
    + apply map_Forall_singleton. intros s Hus. by apply Hu in Hus.
    + intros s ->%elem_of_singleton. done.
  - split; rewrite Hv; cbn; [by eexists|done..].
Qed.

Lemma start_safe fuel w : unstarted w -> safely (start fuel) w (fun _ _ => True).
Proof.
  intros Hw. pose proof Hw as [Hi Hs Hc Ha Hm Hcl Hco Hport]. unfold start.
  apply safely_sys; [done|]. intros w1 Hq1. rewrite safe_bind.
  eapply safe_mono; [apply Socket_ctor_safe, (q_interest _ _ Hq1), Hi|]. cbn beta zeta.
  intros p w2 (Hp & Hs2 & Hc2 & Hv2 & Hn2 & Hi2).
  destruct Hq1 as [Es Ec En Ev _ _]. rewrite Es, Hs, insert_empty in Hs2.
  assert (calls w = ∅) as Hcalls by (unfold calls; by rewrite Hc, fmap_empty).
  rewrite Ec, Hcalls, insert_empty in Hc2. rewrite Ev in Hv2. rewrite En in Hp.
  unfold server. rewrite safe_bind, safe_gets, Hv2, Ha. rewrite safe_bind. unfold share.
  apply safe_upd_sock; [|done]. intros o Ho. rewrite Hs2, lookup_singleton_eq in Ho. simplify_eq.
  rewrite safe_bind, safe_modify, safe_bind, safe_ret, safe_bind. unfold setChanReadCallback.
  rewrite safe_bind. set (w3 := on_server _ _).
  assert (calls w3 = calls w2) as Hc3 by done. rewrite Hc2 in Hc3.
  assert (socks w3 = {[next_ptr w := with_use_count 2 (new_socket (ret_int (sys_exec SysSocket (kernel w)).1)
    (Pos.succ (next_ptr w)))]}) as Hs3 by (cbn; by rewrite Hs2, insert_singleton_eq).
  assert (the_server w3 = with_acceptor (Some (next_ptr w)) (the_server w)) as Hv3 by (cbn; by rewrite Hv2).
  assert (next_ptr w3 = next_ptr w2) as Hn3 by done. assert (interest_ok w3) as Hi3 by done.
  clearbody w3. apply safe_get_sock; [|done]. rewrite Hs3. intros o Ho.
  rewrite lookup_singleton_eq in Ho. injection Ho as <-. cbn [chan_ with_use_count new_socket].
  eapply safely_set_calls; [by rewrite Hc3, lookup_singleton_eq|intros c Hcb; by eapply set_read|].
  intros w4 Hs4 Hn4 Hv4 He4 Hi4 Hc4. rewrite safe_bind. unfold setChanCloseCallback. rewrite safe_bind.
  apply safe_get_sock; [|done]. rewrite Hs4, Hs3. intros o Ho.
  rewrite lookup_singleton_eq in Ho. injection Ho as <-. cbn [chan_ with_use_count new_socket].
  rewrite Hc3, insert_singleton_eq in Hc4.
  eapply safely_set_calls; [by rewrite Hc4, lookup_singleton_eq|intros c Hcb; by eapply set_close|].
  intros w5 Hs5 Hn5 Hv5 He5 Hi5 Hc5. rewrite Hc4, insert_singleton_eq in Hc5.
  assert (inv {[next_ptr w]} w5) as Hw5.
  { eapply (acceptor_inv (next_ptr w) _ _ w); [done|done| | |exact Hc5| | | | |].
    - unfold interest_ok. rewrite Hi5, Hi4. exact Hi3.
    - by rewrite Hs5, Hs4.
    - by intros s [|[|[|]]].
    - rewrite Hn5, Hn4, Hn3, Hn2. lia.
    - apply wf_init.
    - apply wf_init.
    - by rewrite Hv5, Hv4. }
  assert (port_readable (host_ (the_server w5))) as Hport5 by (by rewrite Hv5, Hv4, Hv3).
  rewrite safe_bind. eapply safe_mono; [by apply bind_keeps|]. cbn beta. intros r w6 Hw6.
  apply (safe_mono _ _ _ (fun _ w' => inv {[next_ptr w]} w')); [|done]. revert w6 Hw6.
  match goal with |- forall w0, _ -> safely ?m _ _ => change (keeping {[next_ptr w]} m) end.
  apply keeping_bind; [|intros _; apply keeping_release].
  destruct (negb (r =? 0)); [apply keeping_ret|]. apply keeping_bind; [apply listen_keeps|].
  intros r'. destruct (negb (r' =? 0)); [apply keeping_ret|]. apply keeping_loop. apply safe_user.
Qed.
End Start.

(** The faults [tolerated] lists. *)
Definition remaining_faults : list fault := [Undefined UseAfterFree; LengthError; FatalLog; OutOfFuel].

Lemma tolerated_remaining f : tolerated f -> f ∈ remaining_faults.
Proof. destruct f as [|[]| | | | |]; cbn; intros []; unfold remaining_faults; set_solver. Qed.

(** C3: safety of the library: a server that was given its three callbacks, all of
    them safe themselves, and a readable port, started on any kernel that behaves
    as documented and run for any number of rounds, never fails an assertion of a
    buffer, never accesses memory outside a buffer or the event array, never
    dereferences a null pointer and never calls an empty function: if it does not
    go on for ever, it returns, uses a destroyed object, fails to grow a vector,
    or aborts by [LOG(FATAL)]. *)
Theorem server_faults_are_few {K U} `{SafeUser K U} `{InetAddr} `{Host} fuel (w : World K U) f :
  unstarted w -> start fuel w = Err f -> f ∈ remaining_faults.
Proof.
  intros Hw Hf. apply tolerated_remaining. eapply safe_fault; [by apply start_safe|exact Hf].
Qed.

(** ** The example server *)

Section Main.
Context {K : Type} `{KernelLaws (option ptr) K}.
Implicit Type w : World K main_fn.

Lemma keeping_take_input A s : keeping A (take_input s).
Proof.
  intros w Hw. unfold take_input, on_input. rewrite safe_bind. apply safe_get_sock; [|done]. intros o Ho.
  destruct (inv_sock A w s o Hw Ho) as (Hi & Ho' & He).
  pose proof (retrieveAllAsString_spec (inputBuffer_ o) Hi) as Hr.
  unfold safe, runs, mk_prog, zoom in *. cbn [fst]. destruct (retrieveAllAsString _) as [[bytes b]|]; [|done].
  destruct Hr as [Hb _]. apply inv_insert; try done.
  eapply inv_quietly; [by apply kernel_quietly|]. done.
Qed.

#[export] Instance main_code_safe : SafeUser K main_fn.
Proof.
  intros A u s.
  assert (keeping A (Socket.getAddr s : prog (World K main_fn) _)) as Haddr.
  { apply keeping_bind; [apply keeping_get_sock|]. intros o. apply keeping_ret. }
  destruct u; cbn; (apply keeping_bind; [exact Haddr|]; intros addr; try apply keeping_ret).
  apply keeping_bind; [apply keeping_take_input|]. intros bytes.
  apply keeping_bind; [by apply keeping_Send|]. intros n. apply keeping_ret.
Qed.

Context `{InetAddr} `{Host}.

Lemma main_unstarted t0 (k : K) :
  (forall ep, k_interest k ep = ∅) ->
  safely (main_setup t0) (blank_world k) (fun _ w => unstarted w).
Proof.
  intros Hk. unfold main_setup, EventLoop_ctor, Poller_ctor.
  rewrite !safe_bind, safe_sys, safe_ret, safe_ret, safe_bind, !safe_modify, safe_bind, safe_modify,
    safe_bind, safe_modify.
  pose proof (law_open SysEpollCreate k (or_intror eq_refl)) as [_ Hshrink]. cbn [kernel blank_world] in *.
  set (r := (sys_exec SysEpollCreate k).1). clearbody r. set (k' := (sys_exec SysEpollCreate k).2) in *.
  split; try (by destruct r; try eexists).
  - intros fd ev Hev. assert (k_interest k (ret_int r) !! fd = Some ev) as He.
    { apply Hshrink. unfold interest, epfd in Hev. cbn in Hev. by destruct r. }
    by rewrite Hk in He.
  - intros ip port Hsplit. assert (ip = "127.0.0.1" /\ port = "9999")%string as [-> ->].
    { revert Hsplit. destruct r; vm_compute; by intros [= <- <-]. }
    exists 9999. by vm_compute.
Qed.
End Main.

(** C2: safety of the example server: whatever a kernel without stale epoll
    registrations answers and however long it runs, [main] never fails an
    assertion, leaves a buffer or array, dereferences a null pointer, calls an
    empty [std::function] or overflows in [atoi]; the faults left are the use of a
    destroyed object (see [main_crashes_when_its_first_client_leaves]), a vector
    that cannot grow and [LOG(FATAL)]. *)
Theorem main_faults_are_few {K} `{KernelLaws (option ptr) K} `{InetAddr} `{Host} (k : K) t0 fuel f :
  (forall ep, k_interest k ep = ∅) ->
  main t0 fuel (blank_world k) = Err f -> f ∈ remaining_faults.
Proof.
  intros Hk Hf. apply tolerated_remaining.
  assert (safely (main t0 fuel) (blank_world k) (fun _ _ => True)) as Hs.
  { unfold main. rewrite safe_bind. eapply safe_mono; [by apply main_unstarted|]. cbn beta.
    intros _ w Hw. rewrite safe_bind. eapply safe_mono; [by apply start_safe|done]. }
  eapply safe_fault; [exact Hs|exact Hf].
Qed.

(** ** Witnesses *)

(** One client that is answered and leaves. *)
Definition one_client : DK :=
  scripted [SysOk hi; SysOk []] [] [SysOk (7, peer)]
    [SysOk [(4, EPOLLIN)]; SysOk [(7, EPOLLIN)]; SysOk [(7, EPOLLIN)]].

Lemma one_client_fresh ep : k_interest one_client ep = ∅.
Proof. cbn. unfold sk_interest_of. cbn. apply map_filter_empty. Defined.

Lemma main_faults_are_few_witness :
  main 0 9 (blank_world one_client) = Err (Undefined UseAfterFree) /\
  Undefined UseAfterFree ∈ remaining_faults.
Proof.
  assert (main 0 9 (blank_world one_client) = Err (Undefined UseAfterFree)) as Hf
    by (vm_compute; reflexivity).
  split; [exact Hf|]. exact (main_faults_are_few one_client 0 9 _ one_client_fresh Hf).
Defined.

Definition set_up : DW := exec (main_setup 0) (blank_world one_client).

Lemma set_up_unstarted : unstarted set_up.
Proof.
  pose proof (main_unstarted 0 one_client one_client_fresh) as Hs. unfold safe in Hs.
  unfold set_up, exec. destruct (main_setup 0 (blank_world one_client)) as [[u w]|f] eqn:E; [exact Hs|].
  exfalso. vm_compute in E. discriminate E.
Defined.

Lemma server_faults_are_few_witness :
  unstarted set_up /\ start 9 set_up = Err (Undefined UseAfterFree) /\
  Undefined UseAfterFree ∈ remaining_faults.
Proof.
  assert (start 9 set_up = Err (Undefined UseAfterFree)) as Hf by (vm_compute; reflexivity).
  split; [exact set_up_unstarted|]. split; [exact Hf|].
  exact (server_faults_are_few 9 set_up _ set_up_unstarted Hf).
Defined.
