(* ===== verification/JoinThreads.v ===== *)
(** * JoinThreads: the threads of net/pthread/main.c

    [main] starts one thread per command-line argument; [thread_start] returns
    an upper-cased copy of it, which [main] prints and frees after joining.  The
    shared memory is the array [tinfo], the copies and the terminal.  A step of a
    thread is one access to them or one library call, and carries the error
    number the call returns: the environment's choice, 0 for success.  A call that
    fails does nothing, so it makes one step with the [perror] that reports it;
    the [exit] after that is another. *)

From S2P Require Import Prelude Bytes.

Abbreviation ptr := positive.

(** [struct thread_info]; a thread's identifier is its place among the threads
    started, [argv_string] the index of a command-line argument. *)
Record thread_info := mkInfo {
  thread_id : nat;
  thread_num : Z;
  argv_string : option nat
}.

(** What [calloc] leaves in an element. *)
Definition zero_info : thread_info := mkInfo 0 0 None.

(** [toupper] in the "C" locale, where it changes a to z only: a [char] from 128
    on is negative on the target, and comes back as it went in. *)
Definition toupper (c : byte) : byte :=
  if (97 <=? Z_of_byte c) && (Z_of_byte c <=? 122) then byte_of_Z (Z_of_byte c - 32) else c.

(** What [getopt(argc, argv, "s:")] returns, and for [-s] what [strtoul] makes of
    its argument. *)
Inductive option_result := OptS (value : Z) | OptOther.

(** Where a thread running [thread_start] is; [k] is the element of [tinfo] that
    it was given. *)
Inductive tpc :=
  | TTop (k : nat)                (* printf("Thread %d: ...") *)
  | TIds (k : nat)                (* printf(" pid %u ...") *)
  | TDup (k : nat)                (* strdup(tinfo->argv_string) *)
  | TExit (k : nat)               (* perror("strdup") done, exit(EXIT_FAILURE) *)
  | TUpper (k : nat) (uargv : ptr) (i : nat)  (* the loop, p = uargv + i *)
  | TDone (uargv : ptr).          (* returned uargv *)

(** Where [main] is. *)
Inductive mpc :=
  | MOptions (opts : list option_result) (stack_size : Z)
  | MAttrInit (stack_size : Z)    (* pthread_attr_init *)
  | MStackSize                    (* pthread_attr_setstacksize *)
  | MCalloc                       (* tinfo = calloc(...) *)
  | MFill (tnum : nat)            (* tinfo[tnum].thread_num = ... *)
  | MCreate (tnum : nat)          (* pthread_create *)
  | MReport (tnum : nat) (s : Z)  (* printf("xxxxx ...") *)
  | MFailed (tnum : nat)          (* perror("pthread_create") *)
  | MDestroy                      (* pthread_attr_destroy *)
  | MJoin (tnum : nat)            (* pthread_join *)
  | MPrint (tnum : nat) (res : ptr) (* printf("Joined with thread ...") *)
  | MFree (tnum : nat) (res : ptr)  (* free(res) *)
  | MFreeInfo                     (* free(tinfo); exit(EXIT_SUCCESS) *)
  | MDying (at_ : mpc)            (* exit(EXIT_FAILURE), after the report of a failure at at_ *)
  | MExit (status : Z).

(** What is written to the terminal, line by line. *)
Inductive line :=
  | Usage
  | Top (num : Z) (arg : list byte)
  | Ids
  | Created (tnum s : Z)
  | Joined (num : Z) (value : list byte)
  | Perror (msg : string).

Record state := mkState {
  tinfo : option (list thread_info);
  heap : gmap ptr (list byte);
  fresh : ptr;
  the_main : mpc;
  threads : list tpc;
  output : list line
}.

Definition set_main m s :=
  mkState (tinfo s) (heap s) (fresh s) m (threads s) (output s).
Definition set_tinfo ti s :=
  mkState ti (heap s) (fresh s) (the_main s) (threads s) (output s).
Definition set_block p blk s :=
  mkState (tinfo s) (<[p := blk]> (heap s)) (fresh s) (the_main s) (threads s) (output s).
Definition free_block p s :=
  mkState (tinfo s) (delete p (heap s)) (fresh s) (the_main s) (threads s) (output s).
Definition bump s :=
  mkState (tinfo s) (heap s) (Pos.succ (fresh s)) (the_main s) (threads s) (output s).
Definition set_thread i t s :=
  mkState (tinfo s) (heap s) (fresh s) (the_main s) (<[i := t]> (threads s)) (output s).
Definition spawn t s :=
  mkState (tinfo s) (heap s) (fresh s) (the_main s) (threads s ++ [t]) (output s).
Definition say l s :=
  mkState (tinfo s) (heap s) (fresh s) (the_main s) (threads s) (output s ++ [l]).

(** [perror] or the usage message of [main]; [exit(EXIT_FAILURE)] comes next. *)
Definition die l s := set_main (MDying (the_main s)) (say l s).

(** A thread goes on, waits or has ended, or does what is undefined. *)
Inductive outcome := Next (s : state) | Blocked | Fault.

Definition need {A} (o : option A) (k : A -> outcome) : outcome :=
  match o with Some a => k a | None => Fault end.

(** [if (s != 0) handle_error_en(s, msg);] then go on to [m]. *)
Definition checked (err : Z) (msg : string) (m : mpc) s : outcome :=
  Next (if err =? 0 then set_main m s else die (Perror msg) s).

Section Program.
(** [argv + optind]: the strings the threads are given. *)
Context (argv : list (list byte)).
Implicit Type s : state.

Definition num_threads : nat := length argv.

Definition create_loop (tnum : nat) : mpc :=
  if (tnum <? num_threads)%nat then MFill tnum else MDestroy.
Definition join_loop (tnum : nat) : mpc :=
  if (tnum <? num_threads)%nat then MJoin tnum else MFreeInfo.

(** The string [tinfo->argv_string] points to. *)
Definition argument (ti : thread_info) : option (list byte) := a ← argv_string ti; argv !! a.

Definition info s (k : nat) : option thread_info := l ← tinfo s; l !! k.

Definition thread_step s (i : nat) (err : Z) : outcome :=
  match threads s !! i with
  | None | Some (TDone _) => Blocked
  | Some (TTop k) =>
      need (info s k) (fun ti => need (argument ti) (fun a =>
      Next (say (Top (thread_num ti) a) (set_thread i (TIds k) s))))
  | Some (TIds k) => Next (say Ids (set_thread i (TDup k) s))
  | Some (TDup k) =>
      need (info s k) (fun ti => need (argument ti) (fun a =>
      Next (if err =? 0
            then bump (set_block (fresh s) (a ++ [Byte.x00]) (set_thread i (TUpper k (fresh s) 0) s))
            else say (Perror "strdup") (set_thread i (TExit k) s))))
  | Some (TExit _) => Next (set_main (MExit 1) s)
  | Some (TUpper k uargv j) =>
      need (heap s !! uargv) (fun blk => need (blk !! j) (fun c =>
      Next (if decide (c = Byte.x00) then set_thread i (TDone uargv) s
            else set_block uargv (<[j := toupper c]> blk) (set_thread i (TUpper k uargv (S j)) s))))
  end.

Definition main_step s (err : Z) : outcome :=
  match the_main s with
  | MOptions (OptS v :: opts) _ => Next (set_main (MOptions opts (int32 v)) s)
  | MOptions (OptOther :: _) _ => Next (die Usage s)
  | MOptions [] stack_size => Next (set_main (MAttrInit stack_size) s)
  | MAttrInit stack_size =>
      checked err "pthread_attr_init" (if 0 <? stack_size then MStackSize else MCalloc) s
  | MStackSize => checked err "pthread_attr_setstacksize" MCalloc s
  | MCalloc =>
      Next (if err =? 0
            then set_main (create_loop 0) (set_tinfo (Some (replicate num_threads zero_info)) s)
            else die (Perror "calloc") s)
  | MFill tnum =>
      need (tinfo s) (fun l => need (l !! tnum) (fun ti =>
      Next (set_main (MCreate tnum)
        (set_tinfo (Some (<[tnum := mkInfo (thread_id ti) (Z.of_nat tnum + 1) (Some tnum)]> l)) s))))
  | MCreate tnum =>
      need (tinfo s) (fun l => need (l !! tnum) (fun ti =>
      Next (set_main (MReport tnum err)
        (if err =? 0
         then spawn (TTop tnum) (set_tinfo (Some (<[tnum :=
                mkInfo (length (threads s)) (thread_num ti) (argv_string ti)]> l)) s)
         else s))))
  | MReport tnum e =>
      Next (set_main (if e =? 0 then create_loop (S tnum) else MFailed tnum)
        (say (Created (Z.of_nat tnum) e) s))
  | MFailed _ => Next (die (Perror "pthread_create") s)
  | MDestroy => checked err "pthread_attr_destroy" (join_loop 0) s
  | MJoin tnum =>
      need (info s tnum) (fun ti =>
      if err =? 0 then
        need (threads s !! thread_id ti) (fun t =>
        match t with TDone res => Next (set_main (MPrint tnum res) s) | _ => Blocked end)
      else Next (die (Perror "pthread_join") s))
  | MPrint tnum res =>
      need (info s tnum) (fun ti => need (heap s !! res) (fun blk => need (c_string blk) (fun v =>
      Next (set_main (MFree tnum res) (say (Joined (thread_num ti) v) s)))))
  | MFree tnum res =>
      need (heap s !! res) (fun _ => Next (set_main (join_loop (S tnum)) (free_block res s)))
  | MFreeInfo => need (tinfo s) (fun _ => Next (set_main (MExit 0) (set_tinfo None s)))
  | MDying _ => Next (set_main (MExit 1) s)
  | MExit _ => Blocked
  end.

(** Who moves: [main] or a thread.  After [exit] nobody does. *)
Inductive actor := Main | Thread (i : nat).

Definition exited s : bool := match the_main s with MExit _ => true | _ => false end.

Definition move s (a : actor) (err : Z) : outcome :=
  if exited s then Blocked
  else match a with Main => main_step s err | Thread i => thread_step s i err end.

Definition step s s' : Prop := exists a err, move s a err = Next s'.

(** [main], given what [getopt] finds. *)
Definition start (opts : list option_result) : state :=
  mkState None ∅ 1%positive (MOptions opts (-1)) [] [].

(** Running a schedule: who moves, with what error number. *)
Fixpoint run_schedule (sched : list (actor * Z)) s : state :=
  match sched with
  | [] => s
  | (a, err) :: sched' =>
      match move s a err with
      | Next s' => run_schedule sched' s'
      | _ => run_schedule sched' s
      end
  end.
End Program.

(** The lines [main] prints for the threads it joins. *)
Definition joined (l : list line) : list (Z * list byte) :=
  l ≫= fun x => match x with Joined n v => [(n, v)] | _ => [] end.

(** The lines that announce a failure. *)
Definition complaint (x : line) : bool :=
  match x with Usage | Perror _ => true | _ => false end.
