(* ===== verification/JoinThreadsTheorems.v ===== *)
(** * JoinThreadsTheorems: what net/pthread/main.c does in every interleaving

    No access outside live memory, every argument printed upper-cased and in
    order, every copy freed, and an end after a number of steps known beforehand. *)

From stdpp Require Import relations.
From S2P Require Import Prelude Bytes Kernel JoinThreads.

Section Theorems.
Context (argv : list (list byte)).
Implicit Type s : state.

Abbreviation n := (num_threads argv).
Abbreviation upper := (fmap toupper).

Definition expected : list (Z * list byte) :=
  imap (fun i a => (Z.of_nat (S i), upper a)) argv.

(** ** How far [main] is *)

Fixpoint early (m : mpc) : bool :=
  match m with
  | MOptions _ _ | MAttrInit _ | MStackSize | MCalloc => true
  | MDying m => early m
  | _ => false
  end.

(** Threads started, lines of [Joined] printed, copies freed. *)
Fixpoint started (m : mpc) : nat :=
  match m with
  | MFill k | MCreate k | MFailed k => k
  | MReport k e => if e =? 0 then S k else k
  | MDestroy | MJoin _ | MPrint _ _ | MFree _ _ | MFreeInfo => n
  | MDying m => started m
  | _ => 0
  end.
Fixpoint freed (m : mpc) : nat :=
  match m with
  | MJoin k | MPrint k _ | MFree k _ => k
  | MFreeInfo => n
  | MDying m => freed m
  | _ => 0
  end.
Fixpoint reported (m : mpc) : nat :=
  match m with MFree k _ => S k | MDying m => reported m | _ => freed m end.

Fixpoint in_range (m : mpc) : Prop :=
  match m with
  | MFill k | MCreate k | MReport k _ | MFailed k | MJoin k | MPrint k _ | MFree k _ => (k < n)%nat
  | MDying m => in_range m
  | _ => True
  end.

(** Who has reported a failure and is about to call [exit]. *)
Definition gives_up (m : mpc) : bool := match m with MDying _ => true | _ => false end.
Definition exiting (ts : list tpc) : Prop := exists i k, ts !! i = Some (TExit k).

Abbreviation fails := (Exists (fun x => complaint x = true)).

(** ** The invariant *)

Definition block (t : tpc) : option ptr :=
  match t with TUpper _ p _ | TDone p => Some p | _ => None end.

Definition thread_ok (h : gmap ptr (list byte)) (m : mpc) (i : nat) (t : tpc) : Prop :=
  match t with
  | TTop k | TIds k | TDup k | TExit k => k = i /\ (freed m <= i)%nat
  | TUpper k p j => (k = i /\ (freed m <= i)%nat) /\ exists a, argv !! i = Some a /\ (j <= length a)%nat /\
      h !! p = Some (upper (take j a) ++ drop j a ++ [Byte.x00])
  | TDone p => (freed m <= i)%nat -> exists a, argv !! i = Some a /\ h !! p = Some (upper a ++ [Byte.x00])
  end.

(** [tinfo] while [main] is at [m]. *)
Definition info_ok (m : mpc) (l : list thread_info) : Prop :=
  length l = n /\
  (forall k, (k < started m)%nat -> l !! k = Some (mkInfo k (Z.of_nat k + 1) (Some k))) /\
  (forall k, m = MCreate k -> exists id, l !! k = Some (mkInfo id (Z.of_nat k + 1) (Some k))).

Record core s : Prop := mkCore {
  c_range : in_range (the_main s);
  c_len : length (threads s) = started (the_main s);
  c_early : early (the_main s) = true -> tinfo s = None;
  c_info : early (the_main s) = false -> exists l, tinfo s = Some l /\ info_ok (the_main s) l;
  c_threads i t : threads s !! i = Some t -> thread_ok (heap s) (the_main s) i t;
  c_heap p : is_Some (heap s !! p) ->
    exists i t, threads s !! i = Some t /\ block t = Some p /\ (freed (the_main s) <= i)%nat;
  c_uniq i j t u p : threads s !! i = Some t -> threads s !! j = Some u ->
    (freed (the_main s) <= i)%nat -> (freed (the_main s) <= j)%nat ->
    block t = Some p -> block u = Some p -> i = j;
  c_fresh p : is_Some (heap s !! p) -> (p < fresh s)%positive;
  c_join k r : the_main s = MPrint k r \/ the_main s = MFree k r -> threads s !! k = Some (TDone r);
  c_out : joined (output s) = take (reported (the_main s)) expected;
  c_said : fails (output s) <-> gives_up (the_main s) = true \/ exiting (threads s)
}.

Definition inv s : Prop :=
  match the_main s with
  | MExit st =>
      (st = 0 /\ joined (output s) = expected /\ heap s = ∅ /\ tinfo s = None /\
         Forall (fun x => complaint x = false) (output s)) \/
      (st = 1 /\ exists k, joined (output s) = take k expected /\ fails (output s))
  | _ => core s
  end.

Lemma length_expected : length expected = n.
Proof. unfold expected. apply length_imap. Qed.

Lemma expected_lookup k a :
  argv !! k = Some a -> take (S k) expected = take k expected ++ [(Z.of_nat k + 1, upper a)].
Proof.
  intros Ha. erewrite take_S_r; [done|]. unfold expected. rewrite list_lookup_imap, Ha. cbn.
  do 2 f_equal. lia.
Qed.

Lemma joined_app o o' : joined (o ++ o') = joined o ++ joined o'.
Proof. apply bind_app. Qed.

Lemma joined_say x s : joined (output (say x s)) = joined (output s) ++ joined [x].
Proof. apply joined_app. Qed.

Lemma core_inv s : exited s = false -> core s -> inv s.
Proof. unfold exited, inv. by destruct (the_main s). Qed.

Lemma inv_core s : exited s = false -> inv s -> core s.
Proof. unfold exited, inv. by destruct (the_main s). Qed.

Lemma fails_app o o' : fails (o ++ o') <-> fails o \/ fails o'.
Proof. apply Exists_app. Qed.

Lemma fails_say x s : complaint x = false -> fails (output (say x s)) <-> fails (output s).
Proof.
  intros Hx. cbn. rewrite fails_app, Exists_cons, Exists_nil, Hx. naive_solver.
Qed.

Lemma die_inv s x : core s -> complaint x = true -> joined [x] = [] -> inv (die x s).
Proof.
  intros Hc Hx Hj. change (core (die x s)). split; cbn; try apply Hc.
  - intros He. destruct (c_info s Hc He) as (l & El & Hlen & Hl & _). exists l. by split.
  - naive_solver.
  - rewrite joined_app, Hj, app_nil_r. apply Hc.
  - split; [by left|]. intros _. rewrite fails_app, Exists_cons. tauto.
Qed.

(** [exit(EXIT_FAILURE)], by whoever has reported a failure. *)
Lemma failure_inv s : core s -> gives_up (the_main s) = true \/ exiting (threads s) -> inv (set_main (MExit 1) s).
Proof.
  intros Hc Hd. right. split; [done|]. exists (reported (the_main s)). split; [apply Hc|].
  by apply (c_said s Hc).
Qed.

Lemma early_started m : early m = true -> started m = 0%nat.
Proof. induction m; try done; cbn; auto. Qed.

Lemma in_range_started m : in_range m -> (started m <= n)%nat.
Proof. induction m; cbn; try lia; [case_match; lia|done]. Qed.

Lemma info_started s k :
  core s -> (k < started (the_main s))%nat -> info s k = Some (mkInfo k (Z.of_nat k + 1) (Some k)).
Proof.
  intros Hc Hk. destruct (early (the_main s)) eqn:E.
  { rewrite early_started in Hk by done. lia. }
  destruct (c_info s Hc E) as (l & El & _ & Hl & _). unfold info. rewrite El. cbn. by apply Hl.
Qed.

Lemma started_le s : core s -> (started (the_main s) <= n)%nat.
Proof. intros Hc. apply in_range_started, Hc. Qed.

Lemma thread_started s i t : core s -> threads s !! i = Some t -> (i < started (the_main s))%nat.
Proof. intros Hc Hi. rewrite <- (c_len s Hc). by eapply lookup_lt_Some. Qed.

Lemma argv_at k : (k < n)%nat -> exists a, argv !! k = Some a.
Proof. apply lookup_lt_is_Some. Qed.

Lemma argument_at k id z a : argv !! k = Some a -> argument argv (mkInfo id z (Some k)) = Some a.
Proof. done. Qed.

(** What a thread about to read its argument finds. *)
Lemma thread_argument s i t :
  core s -> threads s !! i = Some t ->
  exists a, argv !! i = Some a /\ info s i = Some (mkInfo i (Z.of_nat i + 1) (Some i)).
Proof.
  intros Hc Hi. pose proof (thread_started s i t Hc Hi). pose proof (started_le s Hc).
  destruct (argv_at i) as [a Ha]; [lia|]. exists a. split; [done|]. by apply info_started.
Qed.

(** ** Steps of a thread *)

Lemma block_live s i t p :
  core s -> threads s !! i = Some t -> block t = Some p -> (freed (the_main s) <= i)%nat ->
  is_Some (heap s !! p).
Proof.
  intros Hc Hi Hp Hf. pose proof (c_threads s Hc i t Hi) as Ht.
  destruct t as [k|k|k|k|k q j|q]; cbn in Hp; simplify_eq; cbn in Ht.
  - destruct Ht as (_ & a & _ & _ & ->). by eexists.
  - destruct (Ht Hf) as (a & _ & ->). by eexists.
Qed.

(** What a thread relies on is untouched by a change outside its own copy. *)
Lemma thread_ok_frame h h' m i t :
  thread_ok h m i t -> (forall p, block t = Some p -> (freed m <= i)%nat -> h' !! p = h !! p) ->
  thread_ok h' m i t.
Proof.
  intros Ht Hh. destruct t as [k|k|k|k|k q j|q]; cbn in *; try done.
  - destruct Ht as ([-> Hf] & a & ? & ? & ?). split; [done|]. exists a. by rewrite Hh.
  - intros Hf. destruct (Ht Hf) as (a & ? & ?). exists a. by rewrite Hh.
Qed.

Lemma core_thread s i old new h f o out :
  core s -> threads s !! i = Some old -> (freed (the_main s) <= i)%nat -> (fresh s <= f)%positive ->
  block new = block old \/ (block new = Some (fresh s) /\ block old = None) ->
  (forall q, block new = Some q -> is_Some (h !! q) /\ (q < f)%positive) ->
  (forall q, block new <> Some q -> h !! q = heap s !! q) ->
  thread_ok h (the_main s) i new ->
  (forall r, old <> TDone r) -> (forall k, old <> TExit k) ->
  out = output s ++ o -> joined o = [] -> (fails o <-> exists k, new = TExit k) ->
  core (mkState (tinfo s) h f (the_main s) (<[i := new]> (threads s)) out).
Proof.
  intros Hc Hi Hf Hle Hown Hlive Hout Hok Hnd Hnx -> Hj Hq.
  assert (forall j t p, threads s !! j = Some t -> j <> i -> (freed (the_main s) <= j)%nat ->
    block t = Some p -> block new <> Some p) as Hother.
  { intros j t p Hjt Hne Hfj Hp Hnew. destruct Hown as [E|[E _]].
    - rewrite E in Hnew. by apply Hne, (c_uniq s Hc j i t old p).
    - rewrite E in Hnew. injection Hnew as <-. pose proof (block_live s j t _ Hc Hjt Hp Hfj) as Hl.
      apply (c_fresh s Hc) in Hl. lia. }
  split; cbn; try apply Hc.
  - rewrite length_insert. apply Hc.
  - intros j t [[-> ->]|[Hne Hjt]]%insert_lookup_Some; [done|].
    eapply thread_ok_frame; [by apply (c_threads s Hc)|]. intros p Hp Hfj.
    apply Hout. by eapply Hother.
  - intros p Hp. destruct (decide (block new = Some p)) as [E|E].
    + exists i, new. split; [|done]. apply list_lookup_insert_eq. by eapply lookup_lt_Some.
    + rewrite Hout in Hp by done. destruct (c_heap s Hc p Hp) as (j & t & Hjt & Hb & ?).
      exists j, t. split; [|done]. rewrite list_lookup_insert_ne; [done|]. intros ->.
      simplify_eq. destruct Hown as [E'|[_ E']]; congruence.
  - intros j k t u p [[-> ->]|[Hne Hjt]]%insert_lookup_Some [[-> ->]|[Hne' Hku]]%insert_lookup_Some Hfj Hfk Hb Hb'.
    + done.
    + by destruct (Hother k u p Hku Hne' Hfk Hb').
    + by destruct (Hother j t p Hjt Hne Hfj Hb).
    + by apply (c_uniq s Hc j k t u p).
  - intros p Hp. destruct (decide (block new = Some p)) as [E|E]; [by apply Hlive|].
    rewrite Hout in Hp by done. apply (c_fresh s Hc) in Hp. lia.
  - intros k r Hk. rewrite list_lookup_insert_ne; [by apply (c_join s Hc)|].
    intros ->. apply (c_join s Hc) in Hk. simplify_eq. by edestruct Hnd.
  - rewrite joined_app, Hj, app_nil_r. apply Hc.
  - rewrite fails_app, Hq, (c_said s Hc). unfold exiting.
    assert (i < length (threads s))%nat by (by eapply lookup_lt_Some). split.
    + intros [[Hm|(j & k & Hjk)]|[k ->]]; [by left|right..].
      * exists j, k. rewrite list_lookup_insert_ne; [done|]. intros ->. simplify_eq. by edestruct Hnx.
      * exists i, k. by apply list_lookup_insert_eq.
    + intros [Hm|(j & k & [[-> Hnew]|[_ Hjk]]%insert_lookup_Some)]; [by do 2 left|right; by eexists|].
      left. right. by exists j, k.
Qed.

Lemma no_fails_nil : fails [] <-> False.
Proof. apply Exists_nil. Qed.

Lemma no_fails_one x : complaint x = false -> fails [x] <-> False.
Proof. intros Hx. rewrite Exists_cons, Exists_nil, Hx. naive_solver. Qed.

Lemma exited_same s s' : the_main s' = the_main s -> exited s' = exited s.
Proof. unfold exited. by intros ->. Qed.

Lemma upper_step a j c :
  a !! j = Some c -> nonzero a ->
  (upper (take j a) ++ drop j a ++ [Byte.x00]) !! j = Some c /\
  c <> Byte.x00 /\
  <[j := toupper c]> (upper (take j a) ++ drop j a ++ [Byte.x00]) =
    upper (take (S j) a) ++ drop (S j) a ++ [Byte.x00].
Proof.
  intros Hc Hnz. pose proof (lookup_lt_Some _ _ _ Hc) as Hlt.
  assert (length (upper (take j a)) = j) as Hl by (rewrite length_fmap, length_take; lia).
  rewrite (drop_S a c j Hc). split; [|split].
  - rewrite lookup_app_r by lia. rewrite Hl, Nat.sub_diag. done.
  - apply (Forall_lookup_1 _ a j c Hnz Hc).
  - rewrite insert_app_r_alt by lia. rewrite Hl, Nat.sub_diag. cbn.
    rewrite (take_S_r a j c Hc), fmap_app, <- app_assoc. done.
Qed.

Lemma upper_end a j :
  (length a <= j)%nat -> (j <= length a)%nat ->
  upper (take j a) ++ drop j a ++ [Byte.x00] = upper a ++ [Byte.x00] /\
  (upper a ++ [Byte.x00]) !! j = Some Byte.x00.
Proof.
  intros. assert (j = length a) as -> by lia. rewrite firstn_all, drop_all. split; [done|].
  rewrite lookup_app_r; rewrite length_fmap; [|done]. by rewrite Nat.sub_diag.
Qed.

Lemma thread_step_inv s i err s' :
  Forall nonzero argv -> core s -> exited s = false -> thread_step argv s i err = Next s' -> inv s'.
Proof.
  intros Hnz Hc Hex. unfold thread_step. destruct (threads s !! i) as [t|] eqn:Hi; [|done].
  destruct (thread_argument s i t Hc Hi) as (a & Ha & Hinfo).
  pose proof (c_threads s Hc i t Hi) as Hok. destruct t as [k|k|k|k|k p j|p]; cbn in Hok; [..|done].
  1-3: destruct Hok as [-> Hf].
  - rewrite Hinfo. cbn. rewrite Ha. intros [= <-]. apply core_inv; [done|].
    by eapply (core_thread s i _ (TIds i) (heap s) (fresh s) [Top _ _]); try done;
      [left|rewrite no_fails_one by done; naive_solver].
  - intros [= <-]. apply core_inv; [done|].
    by eapply (core_thread s i _ (TDup i) (heap s) (fresh s) [Ids]); try done;
      [left|rewrite no_fails_one by done; naive_solver].
  - rewrite Hinfo. cbn. rewrite Ha. intros [= <-]. destruct (err =? 0).
    all: apply core_inv; [done|].
    2:{ by eapply (core_thread s i _ (TExit i) (heap s) (fresh s) [Perror _]); try done;
          [left|rewrite Exists_cons; naive_solver]. }
    eapply (core_thread s i _ (TUpper i (fresh s) 0) _ _ []); try done; cbn.
    + lia.
    + by right.
    + intros q [= <-]. rewrite lookup_insert_eq. split; [by eexists|lia].
    + intros q Hq. rewrite lookup_insert_ne; [done|]. congruence.
    + split; [done|]. exists a. rewrite lookup_insert_eq. split; [done|]. split; [lia|]. done.
    + by rewrite app_nil_r.
    + rewrite no_fails_nil. naive_solver.
  - intros [= <-]. apply failure_inv; [done|]. right. by exists i, k.
  - destruct Hok as ([-> Hf] & a' & Ha' & Hj & Hp). simplify_eq. rewrite Hp. cbn.
    assert (p < fresh s)%positive by (apply (c_fresh s Hc); by eexists).
    destruct (a !! j) as [c|] eqn:Hac.
    + destruct (upper_step a j c Hac) as (Hl & Hne & Hins); [by eapply Forall_lookup_1 in Hnz|].
      rewrite Hl. cbn. rewrite decide_False, Hins by done. intros [= <-]. apply core_inv; [done|].
      eapply (core_thread s i _ (TUpper i p (S j)) _ _ []); try done; cbn.
      * by left.
      * intros q [= <-]. rewrite lookup_insert_eq. split; [by eexists|done].
      * intros q Hq. rewrite lookup_insert_ne; [done|]. congruence.
      * split; [done|]. exists a. rewrite lookup_insert_eq. split; [done|].
        apply lookup_lt_Some in Hac. split; [lia|done].
      * by rewrite app_nil_r.
      * rewrite no_fails_nil. naive_solver.
    + apply lookup_ge_None in Hac. destruct (upper_end a j Hac Hj) as [E Hl].
      rewrite E in Hp |- *. rewrite Hl. cbn. intros [= <-]. apply core_inv; [done|].
      eapply (core_thread s i _ (TDone p) _ _ []); try done; cbn.
      * by left.
      * intros q [= <-]. rewrite Hp. split; [by eexists|done].
      * intros _. by exists a.
      * by rewrite app_nil_r.
      * rewrite no_fails_nil. naive_solver.
Qed.

(** ** Steps of [main] *)

Lemma create_loop_eq k : (k <= n)%nat ->
  let m := create_loop argv k in
  started m = k /\ freed m = 0%nat /\ reported m = 0%nat /\ in_range m /\ early m = false /\
  (forall j, m <> MCreate j) /\ (forall j r, m <> MPrint j r) /\ (forall j r, m <> MFree j r).
Proof. intros Hk. unfold create_loop. destruct (Nat.ltb_spec k n); cbn; repeat split; (done || lia). Qed.

Lemma join_loop_eq k : (k <= n)%nat ->
  let m := join_loop argv k in
  started m = n /\ freed m = k /\ reported m = k /\ in_range m /\ early m = false /\
  (forall j, m <> MCreate j) /\ (forall j r, m <> MPrint j r) /\ (forall j r, m <> MFree j r).
Proof. intros Hk. unfold join_loop. destruct (Nat.ltb_spec k n); cbn; repeat split; (done || lia). Qed.

Lemma create_loop_goes k : gives_up (create_loop argv k) = false.
Proof. unfold create_loop. by case_match. Qed.

Lemma join_loop_goes k : gives_up (join_loop argv k) = false.
Proof. unfold join_loop. by case_match. Qed.

(** [main] moves on without touching threads or copies. *)
Lemma core_main s m ti o :
  core s -> in_range m -> started m = started (the_main s) -> freed m = freed (the_main s) ->
  (early m = true -> ti = None) -> (early m = false -> exists l, ti = Some l /\ info_ok m l) ->
  (forall k r, m = MPrint k r \/ m = MFree k r -> threads s !! k = Some (TDone r)) ->
  joined o = take (reported m) expected -> gives_up m = gives_up (the_main s) ->
  (fails o <-> fails (output s)) ->
  core (mkState ti (heap s) (fresh s) m (threads s) o).
Proof.
  intros Hc Hr Hs Hf He Hi Hj Ho Hg Hq. split; cbn; rewrite ?Hs, ?Hf, ?Hg, ?Hq; try done; try apply Hc.
  intros i t Hit. pose proof (c_threads s Hc i t Hit) as Hok. unfold thread_ok in *. by rewrite Hf.
Qed.

(** The array is as good at [m] as it was, unless [m] is about to create. *)
Lemma info_keep s m :
  core s -> early (the_main s) = false -> started m = started (the_main s) ->
  (forall k, m <> MCreate k) -> exists l, tinfo s = Some l /\ info_ok m l.
Proof.
  intros Hc He Hs Hm. destruct (c_info s Hc He) as (l & El & Hlen & Hl & _).
  exists l. split; [done|]. split; [done|]. rewrite Hs. split; [done|]. by intros k []%Hm.
Qed.

Lemma option_steps_inv s opts ss err s' :
  core s -> the_main s = MOptions opts ss -> main_step argv s err = Next s' -> inv s'.
Proof.
  intros Hc Hm. unfold main_step. rewrite Hm. pose proof (c_out s Hc) as Ho.
  pose proof (c_early s Hc) as He. rewrite Hm in Ho, He.
  assert (forall m, early m = true -> (exists o q, m = MOptions o q) \/ (exists q, m = MAttrInit q) ->
    core (set_main m s)) as Hgo.
  { intros m Em Hshape. apply (core_main s); rewrite ?Hm; try apply Hc;
      destruct Hshape as [(? & ? & ->)|(? & ->)]; try done; cbn; try done; naive_solver. }
  destruct opts as [|[v|] opts]; intros [= <-].
  - apply core_inv; [done|]. apply Hgo; [done|]. right. by eexists.
  - apply core_inv; [done|]. apply Hgo; [done|]. left. by do 2 eexists.
  - by apply die_inv.
Qed.

(** The two [pthread_attr] calls and [calloc]. *)
Lemma setup_steps_inv s err s' :
  core s -> match the_main s with MAttrInit _ | MStackSize | MCalloc => True | _ => False end ->
  main_step argv s err = Next s' -> inv s'.
Proof.
  intros Hc Hm. unfold main_step, checked. pose proof (c_out s Hc) as Ho.
  pose proof (c_early s Hc) as He.
  assert (started (the_main s) = 0%nat /\ freed (the_main s) = 0%nat) as [Hs Hf]
    by by destruct (the_main s).
  destruct (the_main s) eqn:Em; try done; intros [= <-]; (destruct (err =? 0); [|by apply die_inv]).
  - assert (forall m, m = MStackSize \/ m = MCalloc -> core (set_main m s)) as Hgo.
    { intros m [-> | ->]; apply (core_main s); rewrite ?Em; try apply Hc; cbn; try done; naive_solver. }
    apply core_inv; [unfold exited; cbn; by destruct (0 <? _)|]. apply Hgo. destruct (0 <? _); tauto.
  - apply core_inv; [done|]. apply (core_main s); rewrite ?Em; try apply Hc; cbn; try done; naive_solver.
  - destruct (create_loop_eq 0) as (E1 & E2 & E3 & E4 & E5 & E6 & E7 & E8); [lia|].
    apply core_inv; [unfold exited; cbn; unfold create_loop; by destruct (0 <? n)%nat|].
    apply (core_main s); rewrite ?Em, ?E1, ?E2, ?E3; try done; try apply Hc.
    + by rewrite E5.
    + intros _. eexists. split; [done|]. unfold info_ok. rewrite length_replicate, E1.
      split; [done|]. split; [lia|]. by intros k []%E6.
    + intros k r [[]%E7|[]%E8].
    + apply create_loop_goes.
Qed.

Lemma create_loop_runs k : forall st, create_loop argv k <> MExit st.
Proof. intros st. unfold create_loop. by case_match. Qed.

Lemma join_loop_runs k : forall st, join_loop argv k <> MExit st.
Proof. intros st. unfold join_loop. by case_match. Qed.

Lemma core_inv_at s : (forall st, the_main s <> MExit st) -> core s -> inv s.
Proof. intros Hm. apply core_inv. unfold exited. destruct (the_main s); try done. by edestruct Hm. Qed.

Lemma fill_inv s k err s' :
  core s -> the_main s = MFill k -> main_step argv s err = Next s' -> inv s'.
Proof.
  intros Hc Em. unfold main_step. rewrite Em. pose proof (c_out s Hc) as Ho. pose proof (c_range s Hc) as Hr.
  rewrite Em in Ho, Hr. destruct (c_info s Hc) as (l & El & Hlen & Hl & _); [by rewrite Em|].
  rewrite El. cbn in *. destruct (lookup_lt_is_Some_2 l k) as [ti Hk]; [lia|]. rewrite Hk.
  intros [= <-]. apply core_inv; [done|]. apply (core_main s); rewrite ?Em; try apply Hc; try done; [|naive_solver].
  intros _. eexists. split; [done|]. split; [by rewrite length_insert|]. split.
  - intros j Hj. cbn in Hj. rewrite list_lookup_insert_ne by lia. apply Hl. rewrite Em. done.
  - intros j [= <-]. eexists. apply list_lookup_insert_eq. lia.
Qed.

Lemma core_spawn s k l id :
  core s -> the_main s = MCreate k -> tinfo s = Some l -> l !! k = Some (mkInfo id (Z.of_nat k + 1) (Some k)) ->
  core (set_main (MReport k 0) (spawn (TTop k) (set_tinfo (Some (<[k :=
    mkInfo (length (threads s)) (Z.of_nat k + 1) (Some k)]> l)) s))).
Proof.
  intros Hc Em El Hk. pose proof (c_len s Hc) as Hn. pose proof (c_out s Hc) as Ho.
  pose proof (c_range s Hc) as Hr.
  destruct (c_info s Hc) as (l' & El' & Hlen & Hl & _); [by rewrite Em|]. simplify_eq.
  assert (forall i t, (threads s ++ [TTop k]) !! i = Some t ->
    threads s !! i = Some t \/ i = k /\ t = TTop k) as Hthr.
  { intros i t [Hi|[Hle Hi]]%lookup_app_Some; [by left|right].
    apply list_lookup_singleton_Some in Hi as [Hi <-]. rewrite Em in Hn. cbn in Hn. split; [lia|done]. }
  rewrite Em in *. split; cbn; try done; try apply Hc.
  - rewrite length_app, Hn. cbn. lia.
  - intros _. eexists. split; [done|]. split; [by rewrite length_insert|]. split; [|done].
    intros j Hj. cbn in Hj. destruct (decide (j = k)) as [->|Hne].
    + rewrite list_lookup_insert_eq, Hn by (rewrite Hlen; done). done.
    + rewrite list_lookup_insert_ne by done. apply Hl. cbn. lia.
  - intros i t [Hi|[-> ->]]%Hthr; [|split; [done|cbn; lia]].
    pose proof (c_threads s Hc i t Hi) as Hok. unfold thread_ok in *. by rewrite Em in Hok.
  - intros p Hp. destruct (c_heap s Hc p Hp) as (i & t & Hi & Hb & _). exists i, t.
    split; [by apply lookup_app_l_Some|]. split; [done|lia].
  - intros i j t u p [Hi|[-> ->]]%Hthr [Hj|[-> ->]]%Hthr _ _; try done.
    pose proof (c_uniq s Hc i j t u p Hi Hj) as Hu. rewrite Em in Hu. apply Hu; cbn; lia.
  - naive_solver.
  - rewrite (c_said s Hc), Em. cbn. split; intros [[=]|(i & j & Hi)]; right; exists i, j.
    + by apply lookup_app_l_Some.
    + by apply Hthr in Hi as [?|[_ [=]]].
Qed.

Lemma create_inv s k err s' :
  core s -> the_main s = MCreate k -> main_step argv s err = Next s' -> inv s'.
Proof.
  intros Hc Em. unfold main_step. rewrite Em.
  destruct (c_info s Hc) as (l & El & Hlen & Hl & Hk); [by rewrite Em|].
  destruct (Hk k Em) as [id Hid]. rewrite El. cbn. rewrite Hid. cbn. intros [= <-].
  apply core_inv; [by destruct (err =? 0)|]. destruct (Z.eqb_spec err 0) as [->|Hne].
  - by eapply core_spawn.
  - pose proof (c_out s Hc) as Ho. pose proof (c_range s Hc) as Hr.
    assert (started (MReport k err) = started (MCreate k)) as Hs
      by (cbn; by rewrite (proj2 (Z.eqb_neq _ _) Hne)).
    apply (core_main s); rewrite ?Em in *; try apply Hc; try done; [|naive_solver].
    intros _. apply (info_keep s); rewrite ?Em; done.
Qed.

Lemma report_inv s k e err s' :
  core s -> the_main s = MReport k e -> main_step argv s err = Next s' -> inv s'.
Proof.
  intros Hc Em. unfold main_step, checked. rewrite Em. intros [= <-].
  pose proof (c_range s Hc) as Hr. pose proof (c_out s Hc) as Ho. rewrite Em in Hr, Ho. cbn in Hr.
  set (x := Created (Z.of_nat k) e).
  assert (joined (output (say x s)) = [] ) as Hj by (rewrite joined_say, Ho; done).
  assert (fails (output (say x s)) <-> fails (output s)) as Hq by by apply fails_say.
  destruct (e =? 0) eqn:Ee.
  - destruct (create_loop_eq (S k)) as (E1 & E2 & E3 & E4 & E5 & E6 & E7 & E8); [lia|].
    apply core_inv_at; [apply create_loop_runs|].
    apply (core_main s); rewrite ?E1, ?E2, ?E3, ?E5, ?Em; try done.
    + cbn. by rewrite Ee.
    + intros _. apply (info_keep s); rewrite ?Em; [done..| |done]. rewrite E1. cbn. by rewrite Ee.
    + intros j r [[]%E7|[]%E8].
    + apply create_loop_goes.
  - apply core_inv; [done|]. apply (core_main s); rewrite ?Em; try done.
    + cbn. by rewrite Ee.
    + intros _. apply (info_keep s); rewrite ?Em; [done..| |done]. cbn. by rewrite Ee.
    + naive_solver.
Qed.

Lemma destroy_inv s err s' :
  core s -> the_main s = MDestroy -> main_step argv s err = Next s' -> inv s'.
Proof.
  intros Hc Em. unfold main_step, checked. rewrite Em. intros [= <-].
  destruct (err =? 0); [|by apply die_inv].
  pose proof (c_out s Hc) as Ho. rewrite Em in Ho.
  destruct (join_loop_eq 0) as (E1 & E2 & E3 & E4 & E5 & E6 & E7 & E8); [lia|].
  apply core_inv_at; [apply join_loop_runs|].
  apply (core_main s); rewrite ?E1, ?E2, ?E3, ?E5, ?Em; try done; try apply Hc.
  - intros _. apply (info_keep s); rewrite ?Em; done.
  - intros j r [[]%E7|[]%E8].
  - apply join_loop_goes.
Qed.

Lemma toupper_nonzero c : c <> Byte.x00 -> toupper c <> Byte.x00.
Proof.
  intros Hc. unfold toupper. destruct (Z.leb_spec 97 (Z_of_byte c)), (Z.leb_spec (Z_of_byte c) 122); cbn; try done.
  intros E. apply (f_equal Z_of_byte) in E. rewrite Z_of_byte_of_Z, Z.mod_small in E by lia. cbn in E. lia.
Qed.

Lemma upper_nonzero a : nonzero a -> nonzero (upper a).
Proof. intros Ha. apply Forall_fmap. eapply Forall_impl; [exact Ha|]. apply toupper_nonzero. Qed.

Lemma joined_thread s k :
  core s -> (k < n)%nat -> started (the_main s) = n ->
  exists t, threads s !! k = Some t /\ info s k = Some (mkInfo k (Z.of_nat k + 1) (Some k)).
Proof.
  intros Hc Hk Hs. destruct (lookup_lt_is_Some_2 (threads s) k) as [t Ht]; [rewrite (c_len s Hc); lia|].
  exists t. split; [done|]. apply info_started; [done|lia].
Qed.

Lemma join_inv s k err s' :
  core s -> the_main s = MJoin k -> main_step argv s err = Next s' -> inv s'.
Proof.
  intros Hc Em. unfold main_step. rewrite Em. pose proof (c_range s Hc) as Hr.
  pose proof (c_out s Hc) as Ho. rewrite Em in Hr, Ho.
  destruct (joined_thread s k) as (t & Ht & Hinfo); [done|done|by rewrite Em|].
  rewrite Hinfo. cbn. destruct (err =? 0); [|by intros [= <-]; apply die_inv].
  rewrite Ht. cbn. destruct t as [| | | | |res]; try done. intros [= <-]. apply core_inv; [done|].
  apply (core_main s); rewrite ?Em; try apply Hc; try done.
  - intros _. apply (info_keep s); rewrite ?Em; done.
  - intros j r [[= -> ->]|[=]]. done.
Qed.

Lemma print_inv s k res err s' :
  Forall nonzero argv -> core s -> the_main s = MPrint k res -> main_step argv s err = Next s' -> inv s'.
Proof.
  intros Hnz Hc Em. unfold main_step. rewrite Em. pose proof (c_range s Hc) as Hr.
  pose proof (c_out s Hc) as Ho. rewrite Em in Hr, Ho.
  destruct (joined_thread s k) as (t & Ht & Hinfo); [done|done|by rewrite Em|].
  rewrite Hinfo. cbn. rewrite (c_join s Hc k res) in Ht by (by left). injection Ht as <-.
  pose proof (c_threads s Hc k (TDone res)) as Hok. cbn in Hok. rewrite Em in Hok. cbn in Hok.
  destruct Hok as (a & Ha & Hblk); [apply (c_join s Hc); by left|lia|].
  rewrite Hblk. cbn. rewrite c_string_nonzero by by eapply upper_nonzero, Forall_lookup_1.
  cbn. intros [= <-]. apply core_inv; [done|].
  apply (core_main s); rewrite ?Em; try apply Hc; try done.
  - intros _. apply (info_keep s); rewrite ?Em; done.
  - intros j r [[=]|[= -> ->]]. apply (c_join s Hc). by left.
  - cbn [reported]. rewrite (expected_lookup k a Ha), joined_say, Ho. done.
  - by apply fails_say.
Qed.

Lemma core_free s k res :
  core s -> the_main s = MFree k res -> core (set_main (join_loop argv (S k)) (free_block res s)).
Proof.
  intros Hc Em. pose proof (c_range s Hc) as Hr. pose proof (c_out s Hc) as Ho. rewrite Em in Hr, Ho.
  pose proof (c_join s Hc k res ltac:(by right)) as Hk.
  destruct (join_loop_eq (S k)) as (E1 & E2 & E3 & E4 & E5 & E6 & E7 & E8); [done|].
  assert (forall i t p, threads s !! i = Some t -> (S k <= i)%nat -> block t = Some p -> p <> res) as Hne.
  { intros i t p Hi Hle Hb ->. assert (k = i); [|lia].
    apply (c_uniq s Hc k i (TDone res) t res); rewrite ?Em; cbn; try done; lia. }
  split; cbn [the_main set_main free_block threads tinfo heap output]; rewrite ?E1, ?E2, ?E3, ?E5; try done.
  - rewrite (c_len s Hc). by rewrite Em.
  - intros _. apply (info_keep s); rewrite ?Em; done.
  - intros i t Hi. pose proof (c_threads s Hc i t Hi) as Hok. rewrite Em in Hok.
    destruct t as [j|j|j|j|k' p j|p]; cbn in Hok |- *; rewrite ?E2.
    1-4: split; [apply Hok|]. 1-4: destruct (decide (i = k)) as [->|]; [congruence|lia].
    + destruct Hok as [[-> Hle] Hok]. assert (i <> k) by congruence. split; [split; [done|lia]|].
      rewrite lookup_delete_ne; [done|]. apply not_eq_sym. by apply (Hne i _ p Hi ltac:(lia)).
    + intros Hle. rewrite lookup_delete_ne; [apply Hok; lia|]. apply not_eq_sym.
      by apply (Hne i _ p Hi Hle).
  - intros p [Hp Hl]%lookup_delete_is_Some. destruct (c_heap s Hc p Hl) as (i & t & Hi & Hb & Hle).
    exists i, t. split; [done|]. split; [done|]. rewrite Em in Hle. cbn in Hle.
    destruct (decide (i = k)) as [->|]; [|lia]. rewrite Hk in Hi. injection Hi as <-. cbn in Hb. congruence.
  - intros i j t u p Hi Hj Hfi Hfj. apply (c_uniq s Hc); rewrite ?Em; cbn; try done; lia.
  - intros p [Hp Hl]%lookup_delete_is_Some. by apply (c_fresh s Hc).
  - intros j r [[]%E7|[]%E8].
  - by rewrite join_loop_goes, (c_said s Hc), Em.
Qed.

Lemma finish_inv s err s' :
  core s -> the_main s = MFreeInfo -> main_step argv s err = Next s' -> inv s'.
Proof.
  intros Hc Em. unfold main_step. rewrite Em.
  destruct (c_info s Hc) as (l & El & _); [by rewrite Em|]. rewrite El. cbn. intros [= <-].
  left. split; [done|]. split; [|split; [|split; [done|]]].
  - change (joined (output s) = expected). rewrite (c_out s Hc), Em. cbn.
    rewrite <- length_expected. apply firstn_all.
  - change (heap s = ∅). apply map_empty. intros p. destruct (heap s !! p) as [b|] eqn:E; [|done].
    destruct (c_heap s Hc p) as (i & t & Hi & _ & Hle); [by eexists|].
    apply lookup_lt_Some in Hi. rewrite (c_len s Hc), Em in Hi. rewrite Em in Hle. cbn in *. lia.
  - change (Forall (fun x => complaint x = false) (output s)).
    assert (~ fails (output s)) as Hno.
    { rewrite (c_said s Hc), Em. intros [[=]|(i & k & Hi)]. pose proof (c_threads s Hc i _ Hi) as [_ Hle].
      apply lookup_lt_Some in Hi. rewrite (c_len s Hc), Em in Hi. rewrite Em in Hle. cbn in *. lia. }
    apply not_Exists_Forall in Hno; [|intros x; destruct (complaint x); [by left|by right]].
    eapply Forall_impl; [exact Hno|]. cbn. intros x. by destruct (complaint x).
Qed.

Lemma main_step_inv s err s' :
  Forall nonzero argv -> core s -> main_step argv s err = Next s' -> inv s'.
Proof.
  intros Hnz Hc Hs. destruct (the_main s) as [opts ss|ss| | |k|k|k e|k| |k|k res|k res| |m|st] eqn:Em.
  - by eapply option_steps_inv.
  - eapply setup_steps_inv; [done| |done]. by rewrite Em.
  - eapply setup_steps_inv; [done| |done]. by rewrite Em.
  - eapply setup_steps_inv; [done| |done]. by rewrite Em.
  - by eapply fill_inv.
  - by eapply create_inv.
  - by eapply report_inv.
  - unfold main_step in Hs. rewrite Em in Hs. injection Hs as <-. by apply die_inv.
  - by eapply destroy_inv.
  - by eapply join_inv.
  - by eapply print_inv.
  - unfold main_step in Hs. rewrite Em in Hs. destruct (heap s !! res); [|done]. injection Hs as <-.
    apply core_inv_at; [apply join_loop_runs|]. by apply core_free.
  - by eapply finish_inv.
  - unfold main_step in Hs. rewrite Em in Hs. injection Hs as <-. apply failure_inv; [done|]. left. by rewrite Em.
  - unfold main_step in Hs. by rewrite Em in Hs.
Qed.

Lemma step_inv_kept s s' : Forall nonzero argv -> inv s -> step argv s s' -> inv s'.
Proof.
  intros Hnz Hinv (a & err & Hm). unfold move in Hm. destruct (exited s) eqn:He; [done|].
  apply inv_core in Hinv; [|done]. destruct a; [by eapply main_step_inv|by eapply thread_step_inv].
Qed.

Lemma start_core opts : core (start opts).
Proof.
  split; cbn; try done.
  - intros p. rewrite lookup_empty. by intros [? [=]].
  - intros p. rewrite lookup_empty. by intros [? [=]].
  - naive_solver.
  - rewrite no_fails_nil. split; [done|]. by intros [[=]|(i & k & [=])].
Qed.

Lemma reachable_inv opts s : Forall nonzero argv -> rtc (step argv) (start opts) s -> inv s.
Proof.
  intros Hnz Hr. assert (inv (start opts)) as Hi by (apply core_inv; [done|apply start_core]).
  induction Hr; [done|]. apply IHHr. by eapply step_inv_kept.
Qed.

(** ** Every step is possible, and there are only so many *)

Lemma thread_step_next s i t err :
  core s -> threads s !! i = Some t -> (forall r, t <> TDone r) ->
  exists s', thread_step argv s i err = Next s'.
Proof.
  intros Hc Hi Hnd. unfold thread_step. rewrite Hi.
  destruct (thread_argument s i t Hc Hi) as (a & Ha & Hinfo).
  pose proof (c_threads s Hc i t Hi) as Hok. destruct t as [k|k|k|k|k p j|p]; cbn in Hok.
  1-4: destruct Hok as [-> _]; rewrite ?Hinfo; cbn; rewrite ?Ha; by eexists.
  - destruct Hok as ([-> _] & a' & Ha' & Hj & ->). cbn. simplify_eq.
    destruct (lookup_lt_is_Some_2 (upper (take j a) ++ drop j a ++ [Byte.x00]) j) as [c ->];
      [|by eexists].
    rewrite !length_app, length_fmap, length_take, length_drop. cbn. lia.
  - by destruct (Hnd p).
Qed.

Lemma main_step_next s err :
  Forall nonzero argv -> core s -> exited s = false ->
  (exists s', main_step argv s err = Next s') \/
  main_step argv s err = Blocked /\
  exists i t, threads s !! i = Some t /\ forall r, t <> TDone r.
Proof.
  intros Hnz Hc Hex. pose proof (c_range s Hc) as Hr. unfold main_step, checked.
  destruct (the_main s) as [opts ss|ss| | |k|k|k e|k| |k|k res|k res| |m|st] eqn:Em; cbn in Hr.
  1: destruct opts as [|[] ?]. all: try (left; by eexists).
  - destruct (c_info s Hc) as (l & -> & Hlen & _); [by rewrite Em|]. cbn.
    destruct (lookup_lt_is_Some_2 l k) as [ti ->]; [lia|]. left. by eexists.
  - destruct (c_info s Hc) as (l & -> & _ & _ & Hk); [by rewrite Em|]. cbn.
    destruct (Hk k Em) as [id ->]. left. by eexists.
  - destruct (joined_thread s k) as (t & Ht & ->); [done|done|by rewrite Em|]. cbn.
    destruct (err =? 0); [|left; by eexists]. rewrite Ht. cbn.
    destruct t; [right; split; [done|]; by exists k; eexists..|left; by eexists].
  - destruct (joined_thread s k) as (t & Ht & ->); [done|done|by rewrite Em|]. cbn.
    assert (threads s !! k = Some (TDone res)) as Hk by (apply (c_join s Hc); by left).
    pose proof (c_threads s Hc k _ Hk) as Hok. cbn in Hok. rewrite Em in Hok. cbn in Hok.
    destruct Hok as (a & Ha & ->); [lia|]. cbn.
    rewrite c_string_nonzero by by eapply upper_nonzero, Forall_lookup_1. left. by eexists.
  - assert (threads s !! k = Some (TDone res)) as Hk by (apply (c_join s Hc); by right).
    destruct (block_live s k _ res Hc Hk eq_refl) as [blk ->]; [by rewrite Em|]. left. by eexists.
  - destruct (c_info s Hc) as (l & -> & _); [by rewrite Em|]. left. by eexists.
  - unfold exited in Hex. by rewrite Em in Hex.
Qed.

Lemma inv_progress s :
  Forall nonzero argv -> inv s -> exited s = false -> exists s', step argv s s'.
Proof.
  intros Hnz Hinv Hex. apply inv_core in Hinv as Hc; [|done].
  destruct (main_step_next s 0 Hnz Hc Hex) as [[s' Hs]|(_ & i & t & Hi & Ht)].
  - exists s', Main, 0. unfold move. by rewrite Hex.
  - destruct (thread_step_next s i t 0 Hc Hi Ht) as [s' Hs]. exists s', (Thread i), 0.
    unfold move. by rewrite Hex.
Qed.

Lemma inv_no_fault s a err : Forall nonzero argv -> inv s -> move argv s a err <> Fault.
Proof.
  intros Hnz Hinv. unfold move. destruct (exited s) eqn:Hex; [done|].
  apply inv_core in Hinv as Hc; [|done]. destruct a as [|i].
  - by destruct (main_step_next s err Hnz Hc Hex) as [[s' ->]|[-> _]].
  - destruct (threads s !! i) as [t|] eqn:Hi; [|unfold thread_step; by rewrite Hi].
    assert ((exists r, t = TDone r) \/ forall r, t <> TDone r) as [[r ->]|Hnd]
      by (destruct t; naive_solver).
    + unfold thread_step. by rewrite Hi.
    + by destruct (thread_step_next s i t err Hc Hi Hnd) as [s' ->].
Qed.

(** What a thread, and [main], have still to do, in steps. *)
Definition arg_len (k : nat) : nat := length (default [] (argv !! k)).

Definition cost (t : tpc) : nat :=
  match t with
  | TTop k => arg_len k + 4
  | TIds k => arg_len k + 3
  | TDup k => arg_len k + 2
  | TUpper k _ j => arg_len k + 1 - j
  | TExit _ | TDone _ => 0
  end.

Definition create_cost (k : nat) : nat := sum_list_with (fun a => length a + 7)%nat (drop k argv) + 3 * n + 2.

Definition main_cost (m : mpc) : nat :=
  match m with
  | MOptions opts _ => length opts + 4 + create_cost 0
  | MAttrInit _ => 3 + create_cost 0
  | MStackSize => 2 + create_cost 0
  | MCalloc => 1 + create_cost 0
  | MFill k => create_cost k
  | MCreate k => create_cost k - 1
  | MReport k e => if e =? 0 then create_cost (S k) + 1 else 3
  | MFailed _ => 2
  | MDestroy => 3 * n + 2
  | MJoin k => 3 * (n - k) + 1
  | MPrint k _ => 3 * (n - k)
  | MFree k _ => 3 * (n - k) - 1
  | MFreeInfo | MDying _ => 1
  | MExit _ => 0
  end.

Definition weight s : nat := main_cost (the_main s) + sum_list_with cost (threads s).

Lemma create_cost_S k a : argv !! k = Some a -> create_cost k = (length a + 7 + create_cost (S k))%nat.
Proof. intros Ha. unfold create_cost. rewrite (drop_S _ _ _ Ha). cbn. lia. Qed.

Lemma create_loop_cost k : (k <= n)%nat -> main_cost (create_loop argv k) = create_cost k.
Proof.
  intros Hk. unfold create_loop. destruct (Nat.ltb_spec k n); cbn; [done|].
  unfold create_cost. rewrite drop_ge by (unfold num_threads in *; lia). cbn. lia.
Qed.

Lemma join_loop_cost k : (k <= n)%nat -> main_cost (join_loop argv k) = (3 * (n - k) + 1)%nat.
Proof. intros Hk. unfold join_loop. destruct (Nat.ltb_spec k n); cbn; lia. Qed.

Lemma arg_len_at k a : argv !! k = Some a -> arg_len k = length a.
Proof. intros Ha. unfold arg_len. by rewrite Ha. Qed.

Lemma die_weight x s : (1 < main_cost (the_main s))%nat -> (weight (die x s) < weight s)%nat.
Proof. unfold weight. cbn. lia. Qed.

Lemma main_cost_pos s : core s -> exited s = false -> (0 < main_cost (the_main s))%nat.
Proof.
  intros Hc Hex. pose proof (c_range s Hc) as Hr. unfold exited in Hex.
  destruct (the_main s); cbn in *; try done; unfold create_cost; try lia. destruct (_ =? 0); lia.
Qed.

Lemma thread_step_weight s i err s' :
  core s -> exited s = false -> thread_step argv s i err = Next s' -> (weight s' < weight s)%nat.
Proof.
  intros Hc Hex. unfold thread_step. destruct (threads s !! i) as [t|] eqn:Hi; [|done].
  destruct (thread_argument s i t Hc Hi) as (a & Ha & Hinfo).
  pose proof (c_threads s Hc i t Hi) as Hok. pose proof (fun new => sum_update cost _ _ _ new Hi) as Hsum.
  pose proof (arg_len_at i a Ha) as Hlen.
  destruct t as [k|k|k|k|k p j|p]; cbn in Hok; [..|done].
  1-3: destruct Hok as [-> Hf]; rewrite ?Hinfo; cbn [need]; unfold argument; cbn; rewrite ?Ha; cbn [need].
  - intros [= <-]. unfold weight. specialize (Hsum (TIds i)). cbn in *. lia.
  - intros [= <-]. unfold weight. specialize (Hsum (TDup i)). cbn in *. lia.
  - intros [= <-]. destruct (err =? 0); unfold weight.
    + specialize (Hsum (TUpper i (fresh s) 0)). cbn in *. lia.
    + specialize (Hsum (TExit i)). cbn in *. lia.
  - intros [= <-]. pose proof (main_cost_pos s Hc Hex). unfold weight. cbn. lia.
  - destruct Hok as ([-> Hf] & a' & Ha' & Hj & ->). simplify_eq. cbn [need].
    destruct (_ !! j) as [c|]; cbn [need]; [|done]. intros [= <-]. unfold weight. case_decide.
    + specialize (Hsum (TDone p)). cbn in *. lia.
    + specialize (Hsum (TUpper i p (S j))). cbn in *. lia.
Qed.

(** Giving up where [main] has at least two steps to go. *)
Ltac gives_up_cheaply :=
  apply die_weight; match goal with E : the_main _ = _ |- _ => rewrite E end; cbn; unfold create_cost; lia.

Lemma main_step_weight s err s' :
  core s -> exited s = false -> main_step argv s err = Next s' -> (weight s' < weight s)%nat.
Proof.
  intros Hc Hex. pose proof (c_range s Hc) as Hr. unfold main_step, checked.
  destruct (the_main s) as [opts ss|ss| | |k|k|k e|k| |k|k res|k res| |m|st] eqn:Em; cbn in Hr; unfold need.
  - destruct opts as [|[v|] opts]; intros [= <-]; [| |gives_up_cheaply]; unfold weight; rewrite Em; cbn; lia.
  - intros [= <-]. destruct (err =? 0); [|gives_up_cheaply].
    unfold weight. rewrite Em. cbn. destruct (0 <? ss); cbn; lia.
  - intros [= <-]. destruct (err =? 0); [|gives_up_cheaply]. unfold weight. rewrite Em. cbn. lia.
  - intros [= <-]. destruct (err =? 0); [|gives_up_cheaply]. unfold weight. cbn [the_main set_main threads set_tinfo].
    rewrite create_loop_cost, Em by lia. cbn. lia.
  - destruct (tinfo s) as [l|]; [|done]. destruct (l !! k); [|done]. intros [= <-].
    destruct (argv_at k Hr) as [a Ha]. unfold weight. rewrite Em. cbn. rewrite (create_cost_S k a Ha). lia.
  - destruct (tinfo s) as [l|]; [|done]. destruct (l !! k); [|done]. intros [= <-].
    destruct (argv_at k Hr) as [a Ha]. unfold weight. rewrite Em. cbn. rewrite (create_cost_S k a Ha).
    destruct (err =? 0); cbn; [|lia]. rewrite sum_list_with_app. cbn. rewrite (arg_len_at k a Ha). lia.
  - intros [= <-]. destruct (e =? 0) eqn:Ee.
    + unfold weight. cbn [the_main set_main threads say]. rewrite create_loop_cost, Em by lia. cbn. rewrite Ee. lia.
    + unfold weight. rewrite Em. cbn. rewrite Ee. lia.
  - intros [= <-]. gives_up_cheaply.
  - intros [= <-]. destruct (err =? 0); [|gives_up_cheaply]. unfold weight. cbn [the_main set_main threads].
    rewrite join_loop_cost, Em by lia. cbn. lia.
  - destruct (info s k); [|done]. destruct (err =? 0); [|intros [= <-]; gives_up_cheaply].
    destruct (threads s !! _) as [th|]; [|done]. destruct th; try done. intros [= <-].
    unfold weight. rewrite Em. cbn. lia.
  - destruct (info s k), (heap s !! res) as [blk|]; [|done..]. destruct (c_string blk); [|done].
    intros [= <-]. unfold weight. rewrite Em. cbn. lia.
  - destruct (heap s !! res); [|done]. intros [= <-]. unfold weight. cbn [the_main set_main threads free_block].
    rewrite join_loop_cost, Em by lia. cbn. lia.
  - destruct (tinfo s); [|done]. intros [= <-]. unfold weight. rewrite Em. cbn. lia.
  - intros [= <-]. unfold weight. rewrite Em. cbn. lia.
  - done.
Qed.

Lemma step_weight s s' : inv s -> step argv s s' -> (weight s' < weight s)%nat.
Proof.
  intros Hinv (a & err & Hm). unfold move in Hm. destruct (exited s) eqn:Hex; [done|].
  apply inv_core in Hinv as Hc; [|done].
  destruct a; [by eapply main_step_weight|by eapply thread_step_weight].
Qed.

Lemma weight_bound k s s' :
  Forall nonzero argv -> inv s -> nsteps (step argv) k s s' -> (k + weight s' <= weight s)%nat.
Proof.
  intros Hnz Hinv Hk. induction Hk as [|k s s1 s2 Hstep _ IH]; [lia|].
  specialize (IH (step_inv_kept s s1 Hnz Hinv Hstep)). pose proof (step_weight s s1 Hinv Hstep). lia.
Qed.

Lemma start_weight opts :
  weight (start opts) = (length opts + sum_list_with (fun a => length a + 10) argv + 6)%nat.
Proof.
  unfold weight. cbn -[Nat.mul]. unfold create_cost. rewrite drop_0. unfold num_threads.
  assert (forall l, (sum_list_with (fun a : list byte => length a + 7) l + 3 * length l)%nat =
    sum_list_with (fun a => length a + 10)%nat l) as Hsum by (induction l; cbn -[Nat.mul] in *; lia).
  specialize (Hsum argv). lia.
Qed.
End Theorems.

(** ** The claims *)

(** C21: safety: in no interleaving, whatever calls fail, does a thread of main.c
    or [main] itself read or write outside the argument array, touch [tinfo] or a
    copy of an argument that is not there any more or not yet, join a thread that
    was not started, or free twice. *)
Theorem threads_never_fault argv opts s a err :
  Forall nonzero argv -> rtc (step argv) (start opts) s -> move argv s a err <> Fault.
Proof. intros Hnz Hr. apply inv_no_fault; [done|]. by eapply reachable_inv. Qed.

(** C22: functional: when [main] ends with [EXIT_SUCCESS] it has printed, in the
    order of the arguments, the number of each thread and its argument in upper
    case, nobody has reported a failure, and every copy and [tinfo] are freed;
    when it ends with [EXIT_FAILURE], a failure has been reported, though not
    always in the last line, since the others run on until [exit] is reached, and
    what was printed of joined threads is right for the first so many of them. *)
Theorem exit_prints_in_order argv opts s status :
  Forall nonzero argv -> rtc (step argv) (start opts) s -> the_main s = MExit status ->
  (status = 0 /\ joined (output s) = expected argv /\ heap s = ∅ /\ tinfo s = None /\
     Forall (fun x => complaint x = false) (output s)) \/
  (status = 1 /\ exists k, joined (output s) = take k (expected argv) /\
     Exists (fun x => complaint x = true) (output s)).
Proof.
  intros Hnz Hr Hm. pose proof (reachable_inv argv opts s Hnz Hr) as Hinv.
  unfold inv in Hinv. by rewrite Hm in Hinv.
Qed.

(** C23: termination: no execution of main.c takes more steps than its options,
    ten for each argument and one for each character of one, and six; and where
    an execution cannot go on, [main] has exited: no join waits for ever. *)
Theorem threads_always_exit argv opts k s :
  Forall nonzero argv -> nsteps (step argv) k (start opts) s ->
  (k <= length opts + sum_list_with (fun a => length a + 10) argv + 6)%nat /\
  ((forall s', ~ step argv s s') -> exists status, the_main s = MExit status).
Proof.
  intros Hnz Hk. split.
  - pose proof (weight_bound argv k (start opts) s Hnz) as Hw. rewrite start_weight in Hw.
    specialize (Hw (core_inv argv (start opts) eq_refl (start_core argv opts)) Hk). lia.
  - intros Hstuck. assert (inv argv s) as Hinv.
    { eapply reachable_inv; [done|]. apply rtc_nsteps. by eexists. }
    destruct (exited s) eqn:Hex.
    + unfold exited in Hex. destruct (the_main s); try done. by eexists.
    + destruct (inv_progress argv s Hnz Hinv Hex) as [s' Hs]. by destruct (Hstuck s').
Qed.

(** ** A run with two arguments *)

(** "ab" and "c1": the second thread runs first. *)
Definition sample_argv : list (list byte) := [[Byte.x61; Byte.x62]; [Byte.x63; Byte.x31]].

Definition sample_schedule : list (actor * Z) :=
  replicate 15 (Main, 0) ++ replicate 6 (Thread 1, 0) ++ replicate 3 (Main, 0) ++
  replicate 6 (Thread 0, 0) ++ replicate 10 (Main, 0).

(** The first thread has no memory for its copy; the second begins before the
    first gets to [exit]. *)
Definition failing_schedule : list (actor * Z) :=
  replicate 15 (Main, 0) ++ replicate 3 (Thread 0, ENOMEM) ++ [(Thread 1, 0); (Thread 0, 0)].

Lemma sample_nonzero : Forall nonzero sample_argv.
Proof. repeat constructor; discriminate. Qed.

Lemma run_schedule_reaches argv sched s : rtc (step argv) s (run_schedule argv sched s).
Proof.
  revert s. induction sched as [|[a err] sched IH]; intros s; cbn; [constructor|].
  destruct (move argv s a err) as [s'| |] eqn:E; [|apply IH..].
  eapply rtc_l; [|apply IH]. by exists a, err.
Qed.

Definition sample_end : state := run_schedule sample_argv sample_schedule (start [OptS 65536]).
Definition failing_end : state := run_schedule sample_argv failing_schedule (start [OptS 65536]).

Example threads_never_fault_witness :
  Forall nonzero sample_argv /\ move sample_argv sample_end Main 0 <> Fault.
Proof.
  split; [exact sample_nonzero|].
  apply (threads_never_fault sample_argv [OptS 65536]); [exact sample_nonzero|].
  apply run_schedule_reaches.
Defined.

Example exit_prints_in_order_witness :
  the_main sample_end = MExit 0 /\
  joined (output sample_end) = [(1, [Byte.x41; Byte.x42]); (2, [Byte.x43; Byte.x31])] /\
  the_main failing_end = MExit 1 /\ last (output failing_end) = Some (Top 2 [Byte.x63; Byte.x31]) /\
  Exists (fun x => complaint x = true) (output failing_end).
Proof.
  assert (the_main sample_end = MExit 0) as Hm by (vm_compute; reflexivity).
  assert (the_main failing_end = MExit 1) as Hf by (vm_compute; reflexivity).
  split; [exact Hm|]. split; [|split; [exact Hf|split; [vm_compute; reflexivity|]]].
  - destruct (exit_prints_in_order sample_argv [OptS 65536] sample_end 0 sample_nonzero
      (run_schedule_reaches _ _ _) Hm) as [(_ & Hj & _)|(Hs & _)]; [|discriminate Hs].
    rewrite Hj. vm_compute. reflexivity.
  - destruct (exit_prints_in_order sample_argv [OptS 65536] failing_end 1 sample_nonzero
      (run_schedule_reaches _ _ _) Hf) as [(Hs & _)|(_ & k & _ & Hx)]; [discriminate Hs|exact Hx].
Defined.

Example threads_always_exit_witness :
  exists k, nsteps (step sample_argv) k (start [OptS 65536]) sample_end /\ (k <= 31)%nat.
Proof.
  destruct (rtc_nsteps_1 _ _ (run_schedule_reaches sample_argv sample_schedule (start [OptS 65536])))
    as [k Hk].
  exists k. split; [exact Hk|]. exact (proj1 (threads_always_exit sample_argv _ k _ sample_nonzero Hk)).
Defined.
