(* ===== verification/SysVSem.v ===== *)
(** * SysVSem: the System V semaphore of net/semaphores/main.c

    Several processes run the program at once on the same key.  The kernel keeps
    semaphore sets of one semaphore each; a step is one call of one process. *)

From S2P Require Import Prelude.

(** A semaphore set: its value, whether [sem_otime] is not zero, that is, whether
    a [semop] has succeeded on it, and the adjustments that SEM_UNDO keeps for
    the processes, those that are not zero. *)
Record sem := mkSem { semval : Z; otime : bool; semadj : gmap nat Z }.

(** The largest value a semaphore takes. *)
Definition SEMVMX : Z := 32767.

(** [semop] with [sem_op = d] and SEM_UNDO, by process [i]. *)
Definition adjust (i : nat) (d : Z) (m : gmap nat Z) : gmap nat Z :=
  let v := default 0 (m !! i) + d in if v =? 0 then delete i m else <[i := v]> m.
Definition semop (i : nat) (d : Z) (x : sem) : sem :=
  mkSem (semval x + d) true (adjust i (- d) (semadj x)).

(** [semctl(SETVAL)], which forgets the adjustments. *)
Definition setval (v : Z) (x : sem) : sem := mkSem v (otime x) ∅.

(** The end of process [i]: the kernel applies its adjustment. *)
Definition undo (i : nat) (x : sem) : sem :=
  mkSem (Z.max 0 (Z.min SEMVMX (semval x + default 0 (semadj x !! i)))) (otime x) (delete i (semadj x)).

(** Where a process is; [id] is its [semid], [None] for -1.  After an error the
    program prints a message and goes on. *)
Inductive pc :=
  | GetExcl                         (* semget(key, 1, IPC_CREAT|IPC_EXCL|0666) *)
  | GetShared                       (* semget(key, 1, IPC_CREAT|0666) *)
  | Poll (id : option nat) (i : nat)    (* semctl(IPC_STAT), up to max_tries times *)
  | SetVal (id : option nat) (late : bool)  (* semctl(SETVAL), [late] on line 48 *)
  | Report (id : option nat)        (* IPC_STAT, IPC_INFO and the printing *)
  | Ask (id : option nat)           (* semop(-1) *)
  | Use (id : option nat)           (* sleep(3): the shared resource *)
  | Free (id : option nat)          (* semop(+1) *)
  | Remove (id : option nat)        (* semctl(IPC_RMID) *)
  | Leave (id : option nat)         (* the end of main *)
  | Exit.

(** What a process does that endangers the others. *)
Inductive mishap :=
  | GaveUp      (* initialised a set that another process had created *)
  | AskFailed   (* went on after semop(-1) had failed *)
  | Removed.    (* removed the set *)

Record state := mkState {
  key_set : option nat;       (* the set the key leads to *)
  sets : gmap nat sem;
  next_id : nat;
  procs : list pc;
  mishaps : list mishap
}.

Definition max_tries : nat := 3.

Definition goto (i : nat) (p : pc) (s : state) : state :=
  mkState (key_set s) (sets s) (next_id s) (<[i := p]> (procs s)) (mishaps s).
Definition create (s : state) : state :=
  mkState (Some (next_id s)) (<[next_id s := mkSem 0 false ∅]> (sets s)) (S (next_id s))
    (procs s) (mishaps s).
Definition set_sem (id : nat) (x : sem) (s : state) : state :=
  mkState (key_set s) (<[id := x]> (sets s)) (next_id s) (procs s) (mishaps s).
Definition remove_set (id : nat) (s : state) : state :=
  mkState (if decide (key_set s = Some id) then None else key_set s) (delete id (sets s))
    (next_id s) (procs s) (mishaps s).
Definition note (m : mishap) (s : state) : state :=
  mkState (key_set s) (sets s) (next_id s) (procs s) (mishaps s ++ [m]).

(** The set [semid] stands for, if it still exists. *)
Definition live (s : state) (id : option nat) : option (nat * sem) :=
  n ← id; pair n <$> sets s !! n.

(** Process [i] makes its next call; [fails] says that the kernel refuses it for
    a reason of its own.  [None]: it waits, or has exited. *)
Definition advance (s : state) (i : nat) (fails : bool) : option state :=
  p ← procs s !! i;
  match p with
  | GetExcl =>
      if fails then Some (goto i Exit s)
      else match key_set s with
           | Some _ => Some (goto i GetShared s)
           | None => Some (goto i (SetVal (Some (next_id s)) false) (create s))
           end
  | GetShared =>
      if fails then Some (goto i (Poll None 0) s)
      else match key_set s with
           | Some id => Some (goto i (Poll (Some id) 0) s)
           | None => Some (goto i (Poll (Some (next_id s)) 0) (create s))
           end
  | Poll id n =>
      if (n <? max_tries)%nat then
        match live s id with
        | Some (_, x) =>
            if fails then Some (goto i (SetVal id true) s)
            else if otime x then Some (goto i (Report id) s)
            else Some (goto i (Poll id (S n)) s)
        | None => Some (goto i (SetVal id true) s)
        end
      else Some (goto i (SetVal id true) s)
  | SetVal id late =>
      let s' := if late then note GaveUp s else s in
      match live s id with
      | Some (n, x) =>
          if fails then Some (goto i (Report id) s')
          else Some (goto i (Report id) (set_sem n (setval 1 x) s'))
      | None => Some (goto i (Report id) s')
      end
  | Report id => Some (goto i (Ask id) s)
  | Ask id =>
      match live s id with
      | Some (n, x) =>
          if fails then Some (goto i (Use id) (note AskFailed s))
          else guard (0 < semval x);; Some (goto i (Use id) (set_sem n (semop i (-1) x) s))
      | None => Some (goto i (Use id) (note AskFailed s))
      end
  | Use id => Some (goto i (Free id) s)
  | Free id =>
      match live s id with
      | Some (n, x) =>
          if fails then Some (goto i (Remove id) s)
          else Some (goto i (Remove id) (set_sem n (semop i 1 x) s))
      | None => Some (goto i (Remove id) s)
      end
  | Remove id =>
      match live s id with
      | Some (n, _) =>
          if fails then Some (goto i (Leave id) s)
          else Some (goto i (Leave id) (note Removed (remove_set n s)))
      | None => Some (goto i (Leave id) s)
      end
  | Leave id =>
      match live s id with
      | Some (n, x) => Some (goto i Exit (set_sem n (undo i x) s))
      | None => Some (goto i Exit s)
      end
  | Exit => None
  end.

Definition step (s s' : state) : Prop := exists i fails, advance s i fails = Some s'.

(** [n] processes about to run [main]; nobody has used the key yet. *)
Definition start (n : nat) : state := mkState None ∅ 0 (replicate n GetExcl) [].

(** Running a schedule in which the kernel refuses nothing. *)
Fixpoint run_schedule (sched : list nat) (s : state) : state :=
  match sched with
  | [] => s
  | i :: sched' => run_schedule sched' (default s (advance s i false))
  end.

(** Using the resource: from the end of the first [semop] to that of the second. *)
Definition inside (p : pc) : bool :=
  match p with Use _ | Free _ => true | _ => false end.
