(* ===== verification/SysVSemTheorems.v ===== *)
(** * SysVSemTheorems: when net/semaphores/main.c excludes

    The processes exclude each other as long as nobody initialises a set it did
    not create, no [semop] fails and nobody removes the set; each of the first
    and the last, which the program does, lets two processes in at once. *)

From stdpp Require Import relations.
From S2P Require Import Prelude SysVSem.

(** Past the initialisation. *)
Definition past (p : pc) : option (option nat) :=
  match p with
  | Report id | Ask id | Use id | Free id | Remove id | Leave id => Some id
  | _ => None
  end.

(** The kernel may owe the process a unit: it is inside or could not free it. *)
Definition owing (p : pc) : bool :=
  match p with Use _ | Free _ | Remove _ | Leave _ => true | _ => false end.

(** After the creator's SETVAL the unit is free, or one process has it, or the
    SETVAL has failed and there is none. *)
Record shared (s : state) (x : sem) : Prop := mkShared {
  sh_init i id' : procs s !! i <> Some (SetVal id' false);
  sh_unit : (semadj x = ∅ /\ 0 <= semval x <= 1) \/ (exists h, semadj x = {[h := 1]} /\ semval x = 0);
  sh_inside i p : procs s !! i = Some p -> inside p = true -> is_Some (semadj x !! i);
  sh_owing i p : procs s !! i = Some p -> is_Some (semadj x !! i) -> owing p = true
}.

(** Before it the set has no unit and nobody is past the initialisation. *)
Record fresh (s : state) (id : nat) (x : sem) : Prop := mkFresh {
  fr_creator : exists c, procs s !! c = Some (SetVal (Some id) false) /\
    forall i, procs s !! i = Some (SetVal (Some id) false) -> i = c;
  fr_sem : x = mkSem 0 false ∅;
  fr_past i p : procs s !! i = Some p -> past p = None
}.

(** The set [id] exists and every process that has a [semid] has this one. *)
Record held (s : state) (id : nat) (x : sem) : Prop := mkHeld {
  h_sets : sets s = {[id := x]};
  h_poll i id' k : procs s !! i = Some (Poll (Some id') k) -> id' = id;
  h_past i p id' : procs s !! i = Some p -> past p = Some id' -> id' = Some id;
  h_init i id' : procs s !! i = Some (SetVal id' false) -> id' = Some id;
  h_phase : fresh s id x \/ shared s x
}.

Definition inv (s : state) : Prop :=
  mishaps s = [] ->
  match key_set s with
  | None => sets s = ∅ /\ forall i p, procs s !! i = Some p -> p = GetExcl \/ p = Exit
  | Some id => exists x, held s id x
  end.

Lemma goto_lookup i p s j q :
  procs (goto i p s) !! j = Some q -> (j = i /\ q = p) \/ (j <> i /\ procs s !! j = Some q).
Proof. apply insert_lookup_Some. Qed.

Ltac at_proc :=
  repeat match goal with
  | H : procs (goto _ _ _) !! _ = Some _ |- _ => apply goto_lookup in H as [[-> H]|[? H]]; [simplify_eq/=|]
  end.

Lemma live_held s id x id' :
  held s id x -> live s id' = if decide (id' = Some id) then Some (id, x) else None.
Proof.
  intros Hh. unfold live. rewrite (h_sets s id x Hh). destruct id' as [n|]; cbn; [|done].
  case_decide as E; [injection E as ->; by rewrite lookup_singleton_eq|].
  rewrite lookup_singleton_ne; [done|]. congruence.
Qed.

(** The sharing after a step of process [i]: what it must show for itself. *)
Lemma shared_goto s x i new s1 x1 :
  shared s x -> procs s1 = procs s -> (forall id', new <> SetVal id' false) ->
  (semadj x1 = ∅ /\ 0 <= semval x1 <= 1) \/ (exists h, semadj x1 = {[h := 1]} /\ semval x1 = 0) ->
  (forall j, j <> i -> semadj x1 !! j = semadj x !! j) ->
  (inside new = true -> is_Some (semadj x1 !! i)) -> (is_Some (semadj x1 !! i) -> owing new = true) ->
  shared (goto i new s1) x1.
Proof.
  intros [Hi Hu Hin How] Hp Hnew Hunit Hoth Hin' How'. split; [|done|..].
  - intros j id' Hj. at_proc; [by edestruct Hnew|]. rewrite Hp in Hj. by eapply Hi.
  - intros j p Hj Hp'. at_proc; [by apply Hin'|]. rewrite Hp in Hj. rewrite Hoth by done. by eapply Hin.
  - intros j p Hj Hp'. at_proc; [by apply How'|]. rewrite Hp in Hj. rewrite Hoth in Hp' by done. by eapply How.
Qed.

(** A process moves on and leaves the set alone. *)
Lemma held_goto s id x i old new :
  held s id x -> procs s !! i = Some old -> (inside new = true -> inside old = true) ->
  (owing old = true -> owing new = true) ->
  (forall id' k, new = Poll (Some id') k -> id' = id) -> (forall id', past new = Some id' -> past old = Some id') ->
  (forall id', old <> SetVal id' false) -> (forall id', new <> SetVal id' false) ->
  held (goto i new s) id x.
Proof.
  intros Hh Hi Hin How Hpoll Hpast Hold Hnew. split; [apply Hh|..].
  - intros j id' k Hj. at_proc; [by eapply Hpoll|]. by eapply (h_poll s id x Hh).
  - intros j p id' Hj Hp. at_proc; [|by eapply (h_past s id x Hh)].
    by eapply (h_past s id x Hh i old), Hpast.
  - intros j id' Hj. at_proc; [by edestruct Hnew|]. by eapply (h_init s id x Hh).
  - destruct (h_phase s id x Hh) as [[(c & Hc & Hu) Hx Hno]|Hs]; [left|right].
    + assert (c <> i) by (intros ->; rewrite Hc in Hi; by apply (Hold (Some id)); injection Hi).
      split; [|done|].
      * exists c. split; [cbn; by rewrite list_lookup_insert_ne|].
        intros j Hj. at_proc; [by edestruct Hnew|]. by apply Hu.
      * intros j p Hj. at_proc; [|by eapply Hno]. destruct (past new) as [id'|] eqn:E; [|done].
        rewrite <- (Hpast id' eq_refl). by eapply Hno.
    + apply (shared_goto s x); [done..|apply Hs|done| |].
      * intros E. eapply (sh_inside s x Hs); [done|auto].
      * intros E. apply How. by eapply (sh_owing s x Hs).
Qed.

(** Whoever finds [sem_otime] set goes on: the set is initialised. *)
Lemma held_ready s id x i k :
  held s id x -> procs s !! i = Some (Poll (Some id) k) -> otime x = true ->
  held (goto i (Report (Some id)) s) id x.
Proof.
  intros Hh Hi Ht. destruct (h_phase s id x Hh) as [[_ -> _]|Hs]; [done|].
  split; [apply Hh|..].
  - intros j id' k' Hj. at_proc. by eapply (h_poll s id x Hh).
  - intros j p id' Hj Hp. at_proc; [done|]. by eapply (h_past s id x Hh).
  - intros j id' Hj. at_proc. by eapply (h_init s id x Hh).
  - right. apply (shared_goto s x); [done..|apply Hs|done|done|].
    intros E. by apply (sh_owing s x Hs i _ Hi) in E.
Qed.

(** The set changes with a process that is past the initialisation. *)
Lemma held_change s id x i old new x' :
  held s id x -> procs s !! i = Some old -> past old = Some (Some id) ->
  past new = Some (Some id) \/ new = Exit -> (shared s x -> shared (goto i new (set_sem id x' s)) x') ->
  held (goto i new (set_sem id x' s)) id x'.
Proof.
  intros Hh Hi Hold Hnew Hs'. destruct (h_phase s id x Hh) as [Hf|Hs].
  { by rewrite (fr_past s id x Hf i old Hi) in Hold. }
  split.
  - cbn. by rewrite (h_sets s id x Hh), insert_singleton_eq.
  - intros j id' k Hj. at_proc; [by destruct Hnew|]. by eapply (h_poll s id x Hh).
  - intros j p id' Hj Hp. at_proc; [destruct Hnew; by simplify_eq/=|]. by eapply (h_past s id x Hh).
  - intros j id' Hj. at_proc; [by destruct Hnew|]. by eapply (h_init s id x Hh).
  - right. by apply Hs'.
Qed.

Lemma semadj_ask i x : semadj x = ∅ -> semadj (semop i (-1) x) = {[i := 1]}.
Proof. intros Ha. cbn [semop semadj]. unfold adjust. by rewrite Ha, lookup_empty. Qed.

Lemma semadj_free i x : semadj x = {[i := 1]} -> semadj (semop i 1 x) = ∅.
Proof.
  intros Ha. cbn [semop semadj]. unfold adjust. rewrite Ha, lookup_singleton_eq. apply delete_singleton_eq.
Qed.

Lemma shared_ask s id x i :
  shared s x -> 0 < semval x ->
  shared (goto i (Use (Some id)) (set_sem id (semop i (-1) x) s)) (semop i (-1) x).
Proof.
  intros Hs Hv. destruct (sh_unit s x Hs) as [[Ha Hb]|(h & _ & Hb)]; [|lia].
  pose proof (semadj_ask i x Ha) as Ha'.
  apply (shared_goto s x); [done..|right; exists i; split; [done|cbn; lia]| |intros _|done]; rewrite Ha'.
  - intros j Hj. by rewrite Ha, lookup_singleton_ne.
  - exists 1. apply lookup_singleton_eq.
Qed.

Lemma shared_free s id x i :
  shared s x -> procs s !! i = Some (Free (Some id)) ->
  shared (goto i (Remove (Some id)) (set_sem id (semop i 1 x) s)) (semop i 1 x).
Proof.
  intros Hs Hi. destruct (sh_inside s x Hs i _ Hi eq_refl) as [v Hv].
  destruct (sh_unit s x Hs) as [[Ha Hb]|(h & Ha & Hb)]; rewrite Ha in Hv; [done|].
  apply lookup_singleton_Some in Hv as [-> _]. pose proof (semadj_free i x Ha) as Ha'.
  apply (shared_goto s x); [done..|left; split; [done|cbn; lia]| |done|done].
  intros j Hj. by rewrite Ha, Ha', lookup_singleton_ne.
Qed.

Lemma shared_undo s id x i :
  shared s x -> procs s !! i = Some (Leave (Some id)) ->
  shared (goto i Exit (set_sem id (undo i x) s)) (undo i x).
Proof.
  intros Hs Hi. apply (shared_goto s x); [done..| | |done|].
  - unfold undo, SEMVMX. cbn. destruct (sh_unit s x Hs) as [[Ha Hb]|(h & Ha & Hb)]; rewrite Ha.
    + left. rewrite lookup_empty, delete_empty. cbn. split; [done|lia].
    + rewrite Hb. destruct (decide (h = i)) as [-> | Hne].
      * left. rewrite lookup_singleton_eq, delete_singleton_eq. cbn. split; [done|lia].
      * right. exists h. by rewrite lookup_singleton_ne, delete_singleton_ne.
  - intros j Hj. cbn. by rewrite lookup_delete_ne.
  - cbn. rewrite lookup_delete_eq. by intros [].
Qed.

(** The creator initialises its set, or fails to. *)
Lemma held_init s id x i x' :
  held s id x -> procs s !! i = Some (SetVal (Some id) false) ->
  x' = x \/ x' = setval 1 x ->
  held (goto i (Report (Some id)) (mkState (key_set s) {[id := x']} (next_id s) (procs s) (mishaps s))) id x'.
Proof.
  intros Hh Hi Hx'. destruct (h_phase s id x Hh) as [[(c & Hc & Hu) -> Hno]|Hs]; [|by edestruct (sh_init s x Hs)].
  assert (i = c) as -> by by apply Hu.
  assert (semadj x' = ∅ /\ 0 <= semval x' <= 1) as [Ha Hv] by (destruct Hx' as [-> | ->]; cbn; split; (done || lia)).
  split.
  - done.
  - intros j id' k Hj. at_proc. by eapply (h_poll s id _ Hh).
  - intros j p id' Hj Hp. at_proc; [done|]. by eapply (h_past s id _ Hh).
  - intros j id' Hj. at_proc. by eapply (h_init s id _ Hh).
  - right. split; [|by left|..].
    + intros j id' Hj. at_proc. cbn in Hj. pose proof (h_init s id _ Hh j id' Hj) as ->. by apply Hu in Hj.
    + intros j p Hj Hp. at_proc. specialize (Hno j p Hj). by destruct p.
    + intros j p _ Hp. rewrite Ha, lookup_empty in Hp. by destruct Hp.
Qed.

Lemma inv_held s id x : key_set s = Some id -> held s id x -> inv s.
Proof. intros Hk Hh _. rewrite Hk. by exists x. Qed.

(** The first process creates the set. *)
Lemma inv_create s i :
  sets s = ∅ -> (forall j p, procs s !! j = Some p -> p = GetExcl \/ p = Exit) ->
  procs s !! i = Some GetExcl ->
  held (goto i (SetVal (Some (next_id s)) false) (create s)) (next_id s) (mkSem 0 false ∅).
Proof.
  intros Hs Hall Hi. split.
  - cbn. by rewrite Hs, insert_empty.
  - intros j id' k Hj. at_proc. cbn in Hj. by destruct (Hall j _ Hj).
  - intros j p id' Hj Hp. at_proc. cbn in Hj. by destruct (Hall j _ Hj) as [-> | ->].
  - intros j id' Hj. at_proc; [done|]. cbn in Hj. by destruct (Hall j _ Hj).
  - left. split; [|done|].
    + exists i. split; [cbn; apply list_lookup_insert_eq; by eapply lookup_lt_Some|].
      intros j Hj. at_proc; [done|]. cbn in Hj. by destruct (Hall j _ Hj).
    + intros j p Hj. at_proc; [done|]. cbn in Hj. by destruct (Hall j _ Hj) as [-> | ->].
Qed.

Ltac move_on Hh := eapply inv_held; [done|]; eapply (held_goto _ _ _ _ _ _ Hh); [eassumption|cbn; auto..]; try done.
Ltac mishap H := injection H as <-; match goal with Hm : mishaps _ = [] |- _ => cbn in Hm; by apply app_eq_nil in Hm as [_ Hm] end.

(** The steps before the resource is asked for. *)
Lemma advance_early s id x i p fails s' :
  key_set s = Some id -> held s id x -> procs s !! i = Some p -> past p = None ->
  advance s i fails = Some s' -> mishaps s' = [] -> inv s'.
Proof.
  intros Hk Hh Hi Hearly Ha Hm. unfold advance in Ha. rewrite Hi in Ha. cbn [mbind option_bind] in Ha.
  pose proof (live_held s id x) as Hlive. destruct p as [| |id' n|id' late| | | | | | |]; try done.
  - rewrite Hk in Ha. destruct fails; injection Ha as <-; move_on Hh.
  - rewrite Hk in Ha. destruct fails; injection Ha as <-; move_on Hh; naive_solver.
  - destruct (n <? max_tries)%nat; [|injection Ha as <-; move_on Hh].
    rewrite Hlive in Ha by done. case_decide as E; [subst id'|injection Ha as <-; move_on Hh].
    destruct fails; [injection Ha as <-; move_on Hh|]. destruct (otime x) eqn:Et; injection Ha as <-.
    + eapply inv_held; [done|]. by eapply held_ready.
    + move_on Hh. naive_solver.
  - destruct late.
    { destruct (live s id') as [[m y]|]; [destruct fails|]; mishap Ha. }
    pose proof (h_init s id x Hh i id' Hi) as ->. rewrite Hlive, decide_True in Ha by done.
    assert (sets s = {[id := x]}) as Hs by apply Hh.
    assert (mkState (key_set s) {[id := x]} (next_id s) (procs s) (mishaps s) = s) as Hsame
      by (rewrite <- Hs; by destruct s).
    destruct fails; injection Ha as <-; (eapply inv_held; [done|]).
    + pose proof (held_init s id x i x Hh Hi (or_introl eq_refl)) as Hh'. by rewrite Hsame in Hh'.
    + pose proof (held_init s id x i (setval 1 x) Hh Hi (or_intror eq_refl)) as Hh'.
      unfold set_sem. by rewrite Hs, insert_singleton_eq.
Qed.

Lemma advance_held s id x i fails s' :
  key_set s = Some id -> held s id x -> advance s i fails = Some s' -> mishaps s' = [] -> inv s'.
Proof.
  intros Hk Hh Ha Hm. destruct (procs s !! i) as [p|] eqn:Hi; [|unfold advance in Ha; by rewrite Hi in Ha].
  destruct (past p) as [id'|] eqn:Hp; [|by eapply advance_early].
  pose proof (h_past s id x Hh i p id' Hi Hp) as ->.
  unfold advance in Ha. rewrite Hi in Ha. cbn [mbind option_bind] in Ha. pose proof (live_held s id x) as Hlive.
  destruct p as [| | | |id'|id'|id'|id'|id'|id'|]; try done; injection Hp as ->.
  - injection Ha as <-. move_on Hh.
  - rewrite Hlive, decide_True in Ha by done. destruct fails; [mishap Ha|].
    destruct (decide (0 < semval x)) as [Hv|]; [|by rewrite option_guard_False in Ha].
    rewrite option_guard_True in Ha by done. injection Ha as <-. eapply inv_held; [done|].
    eapply held_change; [done..|by left|]. intros Hs. by apply shared_ask.
  - injection Ha as <-. move_on Hh.
  - rewrite Hlive, decide_True in Ha by done. destruct fails; injection Ha as <-; [move_on Hh|].
    eapply inv_held; [done|]. eapply held_change; [done..|by left|]. intros Hs. by apply shared_free.
  - rewrite Hlive, decide_True in Ha by done. destruct fails; [injection Ha as <-; move_on Hh|mishap Ha].
  - rewrite Hlive, decide_True in Ha by done. injection Ha as <-.
    eapply inv_held; [done|]. eapply held_change; [done..|by right|]. intros Hs. by apply shared_undo.
Qed.

(** Mishaps are never forgotten. *)
Lemma mishaps_kept s i fails s' : advance s i fails = Some s' -> exists l, mishaps s' = mishaps s ++ l.
Proof.
  unfold advance. destruct (procs s !! i) as [p|]; [|done]. cbn [mbind option_bind].
  intros Ha. destruct p; repeat case_match; simplify_option_eq;
    (by eexists) || (exists []; by rewrite app_nil_r).
Qed.

Lemma sem_step_inv s s' : inv s -> step s s' -> inv s'.
Proof.
  intros Hinv (i & fails & Ha). assert (mishaps s' = [] -> inv s') as Hgoal; [|by intros Hm; apply Hgoal].
  intros Hm. destruct (mishaps_kept s i fails s' Ha) as [l Hl]. rewrite Hm in Hl.
  symmetry in Hl. apply app_eq_nil in Hl as [Hm0 _]. specialize (Hinv Hm0).
  destruct (key_set s) as [id|] eqn:Hk.
  - destruct Hinv as [x Hh]. by eapply advance_held.
  - destruct Hinv as [Hs Hall]. unfold advance in Ha. destruct (procs s !! i) as [p|] eqn:Hi; [|done].
    destruct (Hall i p Hi) as [-> | ->]; [|done]. cbn [mbind option_bind] in Ha. rewrite Hk in Ha.
    destruct fails; injection Ha as <-.
    + intros _. change (key_set (goto i Exit s)) with (key_set s). rewrite Hk. split; [done|]. intros j q Hj. at_proc; [by right|]. by apply Hall in Hj.
    + eapply inv_held; [done|]. by apply inv_create.
Qed.

Lemma sem_reachable_inv n s : rtc step (start n) s -> inv s.
Proof.
  intros Hr. assert (inv (start n)) as Hi.
  { intros _. split; [done|]. intros i p Hp. cbn in Hp. apply lookup_replicate in Hp as [-> _]. by left. }
  induction Hr as [|s s1 s2 Hstep _ IH]; [done|]. apply IH. by eapply sem_step_inv.
Qed.

(** C25: mutual exclusion: however many processes run the program and however
    their calls interleave and fail, as long as no process has initialised a set
    that it did not create, gone on after a failed [semop] or removed the set, at
    most one process is between its two [semop] calls. *)
Theorem semaphore_excludes n s i j p q :
  rtc step (start n) s -> mishaps s = [] ->
  procs s !! i = Some p -> procs s !! j = Some q -> inside p = true -> inside q = true -> i = j.
Proof.
  intros Hr Hm Hi Hj Hp Hq. destruct (decide (i = j)) as [|Hne]; [done|exfalso].
  pose proof (sem_reachable_inv n s Hr Hm) as Hinv.
  destruct (key_set s) as [id|].
  - destruct Hinv as [x Hh]. destruct (h_phase s id x Hh) as [Hf|Hs].
    { specialize (fr_past s id x Hf i p Hi). by destruct p. }
    destruct (sh_inside s x Hs i p Hi Hp) as [v Hv], (sh_inside s x Hs j q Hj Hq) as [w Hw].
    destruct (sh_unit s x Hs) as [[Ha _]|(h & Ha & _)]; rewrite Ha in Hv, Hw; [by rewrite lookup_empty in Hv|].
    apply lookup_singleton_Some in Hv as [<- _]. apply lookup_singleton_Some in Hw as [<- _]. done.
  - destruct Hinv as [_ Hall]. by destruct (Hall i p Hi) as [-> | ->].
Qed.

Lemma sem_run_schedule_reaches sched s : rtc step s (run_schedule sched s).
Proof.
  revert s. induction sched as [|i sched IH]; intros s; cbn; [constructor|].
  destruct (advance s i false) as [s'|] eqn:E; cbn; [|apply IH].
  eapply rtc_l; [|apply IH]. by exists i, false.
Qed.

(** The first process is inside, the second waits. *)
Definition first_inside : state := run_schedule [0; 0; 0; 0; 1; 1; 1; 1; 1]%nat (start 2).

Lemma semaphore_excludes_witness :
  procs first_inside = [Use (Some 0%nat); Ask (Some 0%nat)] /\
  forall j q, procs first_inside !! j = Some q -> inside q = true -> j = 0%nat.
Proof.
  split; [vm_compute; reflexivity|]. intros j q Hj Hq.
  apply (semaphore_excludes 2 first_inside j 0 q (Use (Some 0%nat))
    (sem_run_schedule_reaches _ _)); [vm_compute; reflexivity|exact Hj|vm_compute; reflexivity|exact Hq|reflexivity].
Defined.

(** Neither condition can be dropped, although no call is refused.  A process
    that finds [sem_otime] zero three times, because the creator has not yet
    initialised its set, initialises it itself, and the creator's SETVAL then
    gives out the resource a second time; and a process that has finished removes
    the set, which lets one that waits in [semop] go on while another is inside. *)
Theorem semaphore_exclusion_broken :
  (exists sched, let s := run_schedule sched (start 2) in
     mishaps s = [GaveUp] /\ procs s = [Use (Some 0%nat); Use (Some 0%nat)]) /\
  (exists sched, let s := run_schedule sched (start 3) in
     mishaps s = [Removed; AskFailed] /\ procs s = [Exit; Use (Some 0%nat); Use (Some 0%nat)]).
Proof.
  split.
  - exists [0; 1; 1; 1; 1; 1; 1; 1; 1; 1; 0; 0; 0]%nat. vm_compute. split; reflexivity.
  - exists [0; 0; 0; 0; 1; 1; 1; 1; 2; 2; 2; 2; 0; 0; 1; 0; 2; 0]%nat. vm_compute. split; reflexivity.
Qed.
