(* ===== verification/MsgQueue.v ===== *)
(** * MsgQueue: the System V message queue of net/messagequeue/main.c

    The program sends itself one message and reads it back.  The kernel's queues
    are in the state, because they outlive the program; [Refuse] says which calls
    it refuses for reasons of its own (permissions, limits). *)

From S2P Require Import Prelude Bytes.

(** A queue: its messages, oldest first, each with its type, and [msg_qbytes]. *)
Record queue := mkQueue { messages : list (Z * list byte); qbytes : Z }.

(** What the program prints. *)
Inductive line :=
  | CreateError | SendError | ReadError | ReadBytes (n : Z) | SetError | UnlinkError
  | StatError
  | Stat (cbytes qnum qbytes : Z).

(** The queue the key leads to, and the terminal. *)
Record mq_state := mkMq { the_queue : option queue; output : list line }.

Inductive mq_call := Msgget | Msgsnd | Msgrcv | MsgctlSet | MsgctlRmid | MsgctlStat.
Class Refuse := refuse : mq_call -> bool.

Definition say (l : line) : prog mq_state unit :=
  modify (fun s => mkMq (the_queue s) (output s ++ [l])).
Definition set_queue (q : option queue) : prog mq_state unit :=
  modify (fun s => mkMq q (output s)).

Section Program.
Context `{Refuse} `{Host}.

(** What lies on the stack: the three bytes of padding at the end of [msg_sbuf]
    and the byte after it. *)
Context (padding : list byte) (beyond : byte).

(** [struct { int mtype; char mtext[1]; }] as [msgsnd] sees it. *)
Definition msg_sbuf (mtype : Z) (mtext0 : byte) : list byte :=
  mem_image 4 mtype ++ mtext0 :: padding ++ [beyond].

(** [msgsnd(msgid, msgp, msgsz, IPC_NOWAIT)]: the kernel takes [msgp] for a
    [struct { long mtype; char mtext[]; }]; the type must be positive and the
    message fit in the queue. *)
Definition msgsnd (msgp : list byte) (msgsz : Z) : prog mq_state Z :=
  s ← get_st;
  mtype ← lift (mem_read 0 8 msgp);
  mtext ← lift (mem_read 8 msgsz msgp);
  let t := int64 (image_value mtype) in
  match the_queue s with
  | None => mret (-1)
  | Some q =>
      if refuse Msgsnd || (t <? 1)
         || (qbytes q <? foldr Z.add 0 (zlen ∘ snd <$> messages q) + msgsz)
      then mret (-1)
      else set_queue (Some (mkQueue (messages q ++ [(t, mtext)]) (qbytes q))) ;; mret 0
  end.

(** [msgrcv(msgid, &msg_rbuf, msgsz, msgtyp, IPC_NOWAIT|MSG_NOERROR)] for a
    positive [msgtyp]: the first message of that type, cut to [msgsz] bytes. *)
Definition msgrcv (msgsz msgtyp : Z) : prog mq_state Z :=
  s ← get_st;
  match the_queue s with
  | None => mret (-1)
  | Some q =>
      if refuse Msgrcv then mret (-1)
      else match list_find (fun m => m.1 = msgtyp) (messages q) with
           | Some (i, (_, data)) =>
               set_queue (Some (mkQueue (delete i (messages q)) (qbytes q))) ;;
               mret (Z.min msgsz (zlen data))
           | None => mret (-1)
           end
  end.

(** [msg_stat]: prints what [IPC_STAT] returns. *)
Definition msg_stat : prog mq_state unit :=
  s ← get_st;
  match the_queue s with
  | Some q =>
      if refuse MsgctlStat then say StatError
      else say (Stat (foldr Z.add 0 (zlen ∘ snd <$> messages q)) (zlen (messages q)) (qbytes q))
  | None => say StatError
  end.

Definition default_qbytes : Z := 16384.
Definition new_qbytes : Z := 16388.

Definition main : prog mq_state unit :=
  s ← get_st;
  match the_queue s with
  | Some _ => say CreateError                (* EEXIST: IPC_CREAT|IPC_EXCL *)
  | None =>
      if refuse Msgget then say CreateError
      else
        set_queue (Some (mkQueue [] default_qbytes)) ;;
        msg_stat ;;
        reval ← msgsnd (msg_sbuf 10 Byte.x61) 1;
        when_ (reval =? -1) (say SendError) ;;
        msg_stat ;;
        reval ← msgrcv 4 10;
        (if reval =? -1 then say ReadError else say (ReadBytes reval)) ;;
        msg_stat ;;
        s ← get_st;
        if refuse MsgctlSet then say SetError
        else
          set_queue ((fun q => mkQueue (messages q) new_qbytes) <$> the_queue s) ;;
          msg_stat ;;
          if refuse MsgctlRmid then say UnlinkError else set_queue None
  end.
End Program.
