(* ===== verification/MsgQueueTheorems.v ===== *)
(** * MsgQueueTheorems: what net/messagequeue/main.c does with its message *)

From S2P Require Import Prelude Bytes MsgQueue.

#[local] Instance little_endian : Host := LittleEndian.

Section Theorems.
Context `{Refuse} (padding : list byte) (beyond : byte).

(** The type the kernel reads: the four bytes of the [int], the text and the
    padding. *)
Lemma sent_type :
  length padding = 3%nat ->
  let image := msg_sbuf padding beyond 10 Byte.x61 in
  exists mtype, mem_read 0 8 image = Ok mtype /\ mem_read 8 1 image = Ok [beyond] /\
    int64 (image_value mtype) <> 10.
Proof.
  intros Hp. destruct padding as [|b0 [|b1 [|b2 [|]]]]; try done. clear Hp. cbv zeta.
  exists (le_bytes 4 10 ++ [Byte.x61; b0; b1; b2]). split; [done|]. split; [done|].
  pose proof (le_value_range [b0; b1; b2]) as Hr. unfold zlen in Hr. cbn [length] in Hr.
  change (256 ^ Z.of_nat 3) with (2 ^ 24) in Hr. set (pad := le_value _) in Hr.
  assert (image_value (le_bytes 4 10 ++ [Byte.x61; b0; b1; b2]) = 10 + 2 ^ 32 * (97 + 256 * pad)) as ->.
  { unfold image_value, pad. cbn [host_order little_endian le_bytes app le_value].
    rewrite !Z_of_byte_of_Z. change (Z_of_byte Byte.x61) with 97.
    change (10 mod 256) with 10. change (10 / 256) with 0. change (0 mod 256) with 0.
    change (0 / 256) with 0. change (0 / 256) with 0. change (0 mod 256) with 0. lia. }
  unfold int64, signed. intros E.
  pose proof (Z.div_mod (10 + 2 ^ 32 * (97 + 256 * pad) + two63) (2 * two63)). lia.
Qed.

Lemma runs_say l s (Q : unit -> mq_state -> Prop) :
  runs (say l) s Q <-> Q tt (mkMq (the_queue s) (output s ++ [l])).
Proof. done. Qed.

Lemma runs_set_queue q s (Q : unit -> mq_state -> Prop) :
  runs (set_queue q) s Q <-> Q tt (mkMq q (output s)).
Proof. done. Qed.

(** Printing what says nothing about a received message. *)
Definition tells (s s' : mq_state) (o : list line) : Prop :=
  the_queue s' = the_queue s /\ output s' = output s ++ o.

Lemma msg_stat_spec s :
  runs msg_stat s (fun _ s' => exists l, tells s s' [l] /\ forall n, l <> ReadBytes n).
Proof.
  unfold msg_stat. run_steps. destruct (the_queue s) as [q|] eqn:Eq; [destruct (refuse MsgctlStat)|];
    rewrite runs_say; eexists; (split; [split; cbn; by rewrite ?Eq|done]).
Qed.

(** Nothing the program sends has the type it asks for. *)
Definition foreign (s : mq_state) : Prop :=
  exists q, the_queue s = Some q /\ Forall (fun m => m.1 <> 10) (messages q).

Lemma msgsnd_spec s :
  length padding = 3%nat -> foreign s ->
  runs (msgsnd (msg_sbuf padding beyond 10 Byte.x61) 1) s (fun _ s' => foreign s' /\ output s' = output s).
Proof.
  intros Hp (q & Hq & Hall). destruct (sent_type Hp) as (mtype & E1 & E2 & Hne).
  unfold msgsnd. run_steps. rewrite E1. run_steps. rewrite E2. run_steps. rewrite Hq.
  destruct (_ || _ || _); [by split; [exists q|]|]. run_steps. rewrite runs_set_queue, runs_ret.
  split; [|done]. eexists. split; [done|]. cbn. apply Forall_app. split; [done|by repeat constructor].
Qed.

Lemma msgrcv_spec s :
  foreign s -> runs (msgrcv 4 10) s (fun reval s' => reval = -1 /\ s' = s).
Proof.
  intros (q & Hq & Hall). unfold msgrcv. run_steps. rewrite Hq. destruct (refuse Msgrcv); [done|].
  destruct (list_find _ _) as [[i m]|] eqn:E; [|done].
  apply list_find_Some in E as (Hi & Hm & _). by apply (Forall_lookup_1 _ _ _ _ Hall) in Hi.
Qed.

Lemma tells_trans s1 s2 s3 o1 o2 : tells s1 s2 o1 -> tells s2 s3 o2 -> tells s1 s3 (o1 ++ o2).
Proof. intros [H1 H2] [H3 H4]. split; [congruence|]. by rewrite H4, H2, app_assoc. Qed.

Lemma send_report r s :
  runs (when_ (r =? -1) (say SendError)) s (fun _ s' => exists o, tells s s' o /\ forall n, ReadBytes n ∉ o).
Proof.
  rewrite runs_when. destruct (r =? -1); [rewrite runs_say; exists [SendError]|exists []]; (split; [split; cbn; by rewrite ?app_nil_r|set_solver]).
Qed.

(** The end of the program: new attributes, then removal. *)
Lemma clean_up s :
  foreign s ->
  runs (s' ← get_st;
        if refuse MsgctlSet then say SetError
        else set_queue ((fun q => mkQueue (messages q) new_qbytes) <$> the_queue s') ;;
             msg_stat ;;
             if refuse MsgctlRmid then say UnlinkError else set_queue None) s
    (fun _ s' => exists o, output s' = output s ++ o /\ (forall n, ReadBytes n ∉ o) /\
       (the_queue s' = None <-> refuse MsgctlSet = false /\ refuse MsgctlRmid = false)).
Proof.
  intros (q & Hq & _). run_steps. destruct (refuse MsgctlSet).
  { rewrite runs_say. exists [SetError]. cbn. rewrite Hq. split; [done|]. split; [set_solver|naive_solver]. }
  rewrite runs_bind, runs_set_queue. run_using (msg_stat_spec (mkMq ((fun q => mkQueue (messages q) new_qbytes) <$> the_queue s) (output s))).
  intros _ s2 (l & [Hq2 Ho2] & Hl). cbn in Hq2, Ho2. rewrite Hq in Hq2. cbn in Hq2.
  destruct (refuse MsgctlRmid).
  - rewrite runs_say. exists [l; UnlinkError]. cbn. rewrite Ho2, Hq2, <- app_assoc.
    split; [done|]. split; [|naive_solver]. intros n. specialize (Hl n). set_solver.
  - rewrite runs_set_queue. exists [l]. cbn. rewrite Ho2. split; [done|]. split; [|naive_solver].
    intros n. specialize (Hl n). set_solver.
Qed.

(** One run of the program, from the creation of the queue on. *)
Lemma message_run s :
  length padding = 3%nat -> the_queue s = None -> refuse Msgget = false ->
  runs (main padding beyond) s (fun _ s' => exists o,
    output s' = output s ++ o /\ ReadError ∈ o /\ (forall n, ReadBytes n ∉ o) /\
    (the_queue s' = None <-> refuse MsgctlSet = false /\ refuse MsgctlRmid = false)).
Proof.
  intros Hp Hq Hget. unfold main. run_steps. rewrite Hq, Hget, runs_bind, runs_set_queue.
  set (s1 := mkMq _ _). assert (foreign s1) as Hf1 by (eexists; by split).
  assert (output s1 = output s) as Ho1 by done. clearbody s1.
  run_using (msg_stat_spec s1). intros _ s2 (l1 & [Hq2 Ho2] & Hl1).
  assert (foreign s2) as Hf2 by (unfold foreign; by rewrite Hq2).
  run_using (msgsnd_spec s2 Hp Hf2). intros r1 s3 (Hf3 & Ho3).
  rewrite runs_bind. eapply runs_mono; [by apply (send_report r1 s3)|]. cbn beta.
  intros _ s4 (o4 & [Hq4 Ho4] & Hl4). assert (foreign s4) as Hf4 by (unfold foreign; by rewrite Hq4).
  run_using (msg_stat_spec s4). intros _ s5 (l5 & [Hq5 Ho5] & Hl5).
  assert (foreign s5) as Hf5 by (unfold foreign; by rewrite Hq5).
  run_using (msgrcv_spec s5 Hf5). intros r2 s6 (-> & ->).
  change (-1 =? -1) with true. cbn iota. rewrite runs_bind, runs_say. set (s7 := mkMq _ _).
  assert (tells s5 s7 [ReadError]) as [Hq7 Ho7] by done. clearbody s7.
  run_using (msg_stat_spec s7). intros _ s8 (l8 & [Hq8 Ho8] & Hl8). run_steps.
  eapply runs_mono; [apply (clean_up s8); unfold foreign; by rewrite Hq8, Hq7|]. cbn beta.
  intros _ s9 (o9 & Ho9 & Hl9 & Hiff).
  exists (l1 :: o4 ++ l5 :: ReadError :: l8 :: o9). split; [|split; [set_solver|split; [|exact Hiff]]].
  - rewrite Ho9, Ho8, Ho7, Ho5, Ho4, Ho3, Ho2, Ho1. by rewrite <- !app_assoc.
  - intros n. rewrite !elem_of_cons, elem_of_app, !elem_of_cons. specialize (Hl1 n). specialize (Hl5 n).
    specialize (Hl8 n). specialize (Hl9 n). specialize (Hl4 n). naive_solver.
Qed.

(** The message is never read back.  The program gives the kernel a structure
    whose first member is an [int] where the kernel reads an eight-byte type, so
    the type sent holds the text and the padding in its upper half.  Whatever
    that padding is and whatever the kernel refuses, once the queue is created
    the program prints "read msg error" and never a number of bytes read; and the
    queue is removed exactly when the kernel permits to set its attributes and
    then to remove it: a refused IPC_SET leaves it behind. *)
Theorem message_is_never_received s :
  length padding = 3%nat -> the_queue s = None -> refuse Msgget = false ->
  runs (main padding beyond) s (fun _ s' => exists o,
    output s' = output s ++ o /\ ReadError ∈ o /\ (forall n, ReadBytes n ∉ o) /\
    (the_queue s' = None <-> refuse MsgctlSet = false /\ refuse MsgctlRmid = false)).
Proof. apply message_run. Qed.

(** Without the privilege to raise [msg_qbytes] the program returns before it
    removes the queue, and the next run does nothing but print "msg create
    error". *)
Theorem second_run_cannot_create s :
  length padding = 3%nat -> the_queue s = None -> refuse Msgget = false -> refuse MsgctlSet = true ->
  runs (main padding beyond ;; main padding beyond) s (fun _ s' => exists o,
    output s' = output s ++ o ++ [CreateError] /\ ReadError ∈ o /\ the_queue s' <> None).
Proof.
  intros Hp Hq Hget Hset. rewrite runs_bind. eapply runs_mono; [by apply message_run|]. cbn beta.
  intros _ s1 (o & Ho & Herr & _ & Hiff). unfold main. run_steps.
  destruct (the_queue s1) as [q|] eqn:E; [|destruct (proj1 Hiff eq_refl) as [E' _]; congruence].
  rewrite runs_say. exists o. cbn.
  rewrite Ho, E, app_assoc. done.
Qed.
End Theorems.

(** ** An unprivileged run *)

Definition unprivileged : Refuse := fun c => match c with MsgctlSet => true | _ => false end.
Definition no_queue : mq_state := mkMq None [].
Definition zeros : list byte := replicate 3 Byte.x00.

Lemma message_is_never_received_witness :
  runs (main (H := unprivileged) zeros Byte.x00) no_queue (fun _ s' => exists o,
    output s' = output no_queue ++ o /\ ReadError ∈ o /\ (forall n, ReadBytes n ∉ o) /\
    (the_queue s' = None <-> true = false /\ false = false)).
Proof.
  exact (message_is_never_received (H := unprivileged) zeros Byte.x00 no_queue eq_refl eq_refl eq_refl).
Defined.

Lemma second_run_cannot_create_witness :
  runs (main (H := unprivileged) zeros Byte.x00 ;; main (H := unprivileged) zeros Byte.x00) no_queue
    (fun _ s' => exists o, output s' = output no_queue ++ o ++ [CreateError] /\ ReadError ∈ o /\
       the_queue s' <> None).
Proof.
  exact (second_run_cannot_create (H := unprivileged) zeros Byte.x00 no_queue eq_refl eq_refl eq_refl eq_refl).
Defined.
