(* ===== verification/Processes.v ===== *)
(** * Processes: fork, pipes and a shared semaphore

    The programs under net/pipe, net/fork.cpp and net/semaphore/a.c are a few
    processes that fork, talk through pipes or share a semaphore.  The code of a
    process is a [code]: its next call and, for each result, what it does then.
    A step of the machine is one call of one process. *)

From stdpp Require Import relations.
From S2P Require Import Prelude Bytes.

(** The two ends of a pipe.  A descriptor is named by the pipe and the end it
    was opened for: the programs open nothing after their pipes, so a closed
    number never comes back. *)
Inductive pend := Rd | Wr.
Definition desc : Type := nat * pend.

#[export] Instance pend_eq_dec : EqDecision pend.
Proof. solve_decision. Defined.
#[export] Instance pend_countable : Countable pend.
Proof.
  refine (inj_countable' (fun e => match e with Rd => true | Wr => false end)
    (fun b : bool => if b then Rd else Wr) _).
  by intros [].
Defined.

(** The semaphore in shared memory: never made one, with this value, destroyed. *)
Inductive semaphore := NoSem | SemValue (v : Z) | SemGone.

(** What using it means when it has no value; POSIX leaves both undefined. *)
Definition misuse (s : semaphore) : fault :=
  match s with SemGone => Undefined UseAfterFree | _ => Undefined OtherUB end.

(** How a process ends. *)
Inductive outcome :=
  | Exited (status : Z)
  | Killed               (* by SIGPIPE *)
  | Broken (f : fault).  (* undefined behaviour *)

(** [L] is what the program prints. *)
Inductive code (L : Type) :=
  | CStop (o : outcome)
  | CSpin                                            (* while (1); *)
  | CSay (l : L) (k : code L)
  | CTry (ok failed : code L)                        (* a call that may fail *)
  | CPipe (p : nat) (ok failed : code L)
  | CFork (child parent failed : code L)
  | CClose (d : desc) (k : code L)
  | CWrite (d : desc) (data : list byte) (k : bool -> code L)
  | CRead (d : desc) (n : nat) (k : option (list byte) -> code L)
  | CWait (k : code L)                               (* wait(NULL) *)
  | CSemInit (v : Z) (ok failed : code L)
  | CPost (k : code L)
  | CSemWait (k : code L)
  | CSemDestroy (k : code L).
Arguments CStop {L}.
Arguments CSpin {L}.
Arguments CSay {L}.
Arguments CTry {L}.
Arguments CPipe {L}.
Arguments CFork {L}.
Arguments CClose {L}.
Arguments CWrite {L}.
Arguments CRead {L}.
Arguments CWait {L}.
Arguments CSemInit {L}.
Arguments CPost {L}.
Arguments CSemWait {L}.
Arguments CSemDestroy {L}.

Section Machine.
Context {L : Type}.
Implicit Type c k : code L.

Record proc := mkProc {
  p_code : code L;
  p_fds : gset desc;
  p_parent : option nat;
  p_over : bool;       (* it has ended, with the outcome of its [CStop] *)
  p_reaped : bool      (* its parent has waited for it *)
}.

(** The bytes in each pipe, the semaphore, the processes in the order of their
    creation, and what each has printed. *)
Record machine := mkMachine {
  m_pipes : gmap nat (list byte);
  m_sem : semaphore;
  m_procs : list proc;
  m_out : list (nat * L)
}.
Implicit Type m : machine.

Definition set_proc (i : nat) (p : proc) m : machine :=
  mkMachine (m_pipes m) (m_sem m) (<[i := p]> (m_procs m)) (m_out m).
Definition set_pipe (p : nat) (data : list byte) m : machine :=
  mkMachine (<[p := data]> (m_pipes m)) (m_sem m) (m_procs m) (m_out m).
Definition set_sem (v : semaphore) m : machine :=
  mkMachine (m_pipes m) v (m_procs m) (m_out m).
Definition add_out (i : nat) (l : L) m : machine :=
  mkMachine (m_pipes m) (m_sem m) (m_procs m) (m_out m ++ [(i, l)]).
Definition add_proc (p : proc) m : machine :=
  mkMachine (m_pipes m) (m_sem m) (m_procs m ++ [p]) (m_out m).

Definition with_code (c : code L) (p : proc) : proc :=
  mkProc c (p_fds p) (p_parent p) (p_over p) (p_reaped p).
Definition with_fds (fds : gset desc) (p : proc) : proc :=
  mkProc (p_code p) fds (p_parent p) (p_over p) (p_reaped p).
Definition ended (p : proc) : proc := mkProc (p_code p) ∅ (p_parent p) true (p_reaped p).
Definition reaped (p : proc) : proc := mkProc (p_code p) (p_fds p) (p_parent p) (p_over p) true.

(** Does any process still have this end open? *)
Definition open_somewhere (d : desc) m : bool :=
  existsb (fun p => bool_decide (d ∈ p_fds p)) (m_procs m).

(** A process [i] has forked and not waited for. *)
Definition is_child (i : nat) (p : proc) : bool :=
  bool_decide (p_parent p = Some i) && negb (p_reaped p).

(** Process [i] makes its next call; [fails] says that the kernel refuses it for
    lack of resources.  [None]: it waits, spins or has ended. *)
Definition advance m (i : nat) (fails : bool) : option machine :=
  p ← m_procs m !! i;
  if p_over p then None else
  let go c := Some (set_proc i (with_code c p) m) in
  match p_code p with
  | CStop _ => Some (set_proc i (ended p) m)
  | CSpin => None
  | CSay l k => Some (add_out i l (set_proc i (with_code k p) m))
  | CTry ok failed => go (if fails then failed else ok)
  | CPipe n ok failed =>
      if fails then go failed
      else Some (set_pipe n [] (set_proc i (with_code ok (with_fds ({[(n, Rd); (n, Wr)]} ∪ p_fds p) p)) m))
  | CFork child parent failed =>
      if fails then go failed
      else Some (add_proc (mkProc child (p_fds p) (Some i) false false) (set_proc i (with_code parent p) m))
  | CClose d k => Some (set_proc i (with_code k (with_fds (p_fds p ∖ {[d]}) p)) m)
  | CWrite d data k =>
      if decide (d ∈ p_fds p) then
        if open_somewhere (d.1, Rd) m
        then Some (set_pipe d.1 (default [] (m_pipes m !! d.1) ++ data) (set_proc i (with_code (k true) p) m))
        else go (CStop Killed)
      else go (k false)
  | CRead d n k =>
      if decide (d ∈ p_fds p) then
        match default [] (m_pipes m !! d.1) with
        | [] => if open_somewhere (d.1, Wr) m then None else go (k (Some []))
        | data => Some (set_pipe d.1 (drop n data) (set_proc i (with_code (k (Some (take n data))) p) m))
        end
      else go (k None)
  | CWait k =>
      match list_find (fun q => is_child i q && p_over q) (m_procs m) with
      | Some (j, q) => Some (set_proc i (with_code k p) (set_proc j (reaped q) m))
      | None => if existsb (is_child i) (m_procs m) then None else go k
      end
  | CSemInit v ok failed =>
      if fails then go failed else Some (set_sem (SemValue v) (set_proc i (with_code ok p) m))
  | CPost k =>
      match m_sem m with
      | SemValue v => Some (set_sem (SemValue (v + 1)) (set_proc i (with_code k p) m))
      | s => go (CStop (Broken (misuse s)))
      end
  | CSemWait k =>
      match m_sem m with
      | SemValue v =>
          if 0 <? v then Some (set_sem (SemValue (v - 1)) (set_proc i (with_code k p) m)) else None
      | s => go (CStop (Broken (misuse s)))
      end
  | CSemDestroy k =>
      match m_sem m with
      | SemValue _ => Some (set_sem SemGone (set_proc i (with_code k p) m))
      | s => go (CStop (Broken (misuse s)))
      end
  end.

Definition step m m' : Prop := exists i fails, advance m i fails = Some m'.
Definition stuck m : Prop := forall i fails, advance m i fails = None.

(** One process about to run [c]. *)
Definition boot c : machine := mkMachine ∅ NoSem [mkProc c ∅ None false false] [].

(** Process [i] has ended with this outcome. *)
Definition over_with (o : outcome) (p : proc) : Prop := p_over p = true /\ p_code p = CStop o.

(** Running a schedule in which no call fails. *)
Fixpoint run_schedule (sched : list nat) m : machine :=
  match sched with
  | [] => m
  | i :: sched' => run_schedule sched' (default m (advance m i false))
  end.

(** Nobody is killed and nobody's behaviour is undefined. *)
Definition unharmed (p : proc) : Prop :=
  match p_code p with CStop Killed | CStop (Broken _) => False | _ => True end.

(** [stuck], decided. *)
Definition stuck_here m : bool :=
  forallb (fun i => negb (bool_decide (is_Some (advance m i true)) || bool_decide (is_Some (advance m i false))))
    (seq 0 (length (m_procs m))).

Lemma stuck_here_stuck m : stuck_here m = true -> stuck m.
Proof.
  intros Hall i fails. destruct (m_procs m !! i) as [p|] eqn:Hi; [|unfold advance; by rewrite Hi].
  unfold stuck_here in Hall. rewrite forallb_forall in Hall. specialize (Hall i).
  rewrite in_seq in Hall. apply lookup_lt_Some in Hi.
  specialize (Hall ltac:(lia)). apply negb_true_iff, orb_false_iff in Hall as [Ht Hf].
  apply bool_decide_eq_false in Ht, Hf. apply eq_None_not_Some. by destruct fails.
Qed.

Lemma schedule_steps sched m : exists n, nsteps step n m (run_schedule sched m).
Proof.
  revert m. induction sched as [|i sched IH]; intros m; [exists 0%nat; constructor|]. cbn.
  destruct (advance m i false) as [m'|] eqn:E; cbn; [|apply IH].
  destruct (IH m') as [n Hn]. exists (S n). eapply nsteps_l; [|exact Hn]. by exists i, false.
Qed.
End Machine.
Arguments proc : clear implicits.
Arguments machine : clear implicits.
