(* ===== verification/ProcessPrograms.v ===== *)
(** * ProcessPrograms: net/pipe/pipe.cpp, net/pipe/pipe2.cpp, net/fork.cpp and
    net/semaphore/a.c *)

From S2P Require Import Prelude Bytes Processes.

(** ** net/pipe/pipe.cpp *)
Module Pipe.
Inductive line :=
  | Child | Parent | Parent2222 | Perror | WriteErr | ReadEnd
  | Stdout (data : list byte).   (* write(STDOUT_FILENO, ...) *)

Definition recv_pipefd : nat := 0.
Definition send_pipefd : nat := 1.

(** "nihao" *)
Definition msg : list byte := [Byte.x6e; Byte.x69; Byte.x68; Byte.x61; Byte.x6f].
Definition newline : list byte := [Byte.x0a].

Definition EXIT_SUCCESS : Z := 0.
Definition EXIT_FAILURE : Z := 1.
Definition failure : code line := CSay Perror (CStop (Exited EXIT_FAILURE)).

Definition child : code line :=
  CSay Child
  (CClose (recv_pipefd, Wr)
  (CClose (send_pipefd, Rd)
  (CRead (recv_pipefd, Rd) 1 (fun r =>
     let rest := CSay ReadEnd (CSay (Stdout newline) (CStop (Exited EXIT_SUCCESS))) in
     match r with
     | Some (b :: _) => CSay (Stdout [b]) rest
     | _ => rest
     end)))).

Definition parent : code line :=
  CSay Parent
  (CClose (recv_pipefd, Rd)
  (CClose (send_pipefd, Wr)
  (CWrite (recv_pipefd, Wr) msg (fun ok =>
     let rest := CSay Parent2222 (CWait (CStop (Exited EXIT_SUCCESS))) in
     if ok then rest else CSay WriteErr rest)))).

Definition main : code line :=
  CPipe recv_pipefd (CPipe send_pipefd (CFork child parent failure) failure) failure.
End Pipe.

(** ** net/pipe/pipe2.cpp *)
Module Pipe2.
Inductive line :=
  | ParentStart (loop : nat) | ParentPid | WriteErr | PidEnd
  | ChildStart (loop : nat) | Kkk | Jjj | ReadErr
  | Receive (buf : list byte).

Definition MAX_PID_CNT : nat := 3.

(** [pinfo[loop].recv_pipefd] and [pinfo[loop].send_pipefd] *)
Definition recv_pipefd (loop : nat) : nat := 2 * loop.
Definition send_pipefd (loop : nat) : nat := 2 * loop + 1.

(** "i am your father" *)
Definition msg : list byte :=
  [Byte.x69; Byte.x20; Byte.x61; Byte.x6d; Byte.x20; Byte.x79; Byte.x6f; Byte.x75; Byte.x72;
   Byte.x20; Byte.x66; Byte.x61; Byte.x74; Byte.x68; Byte.x65; Byte.x72].

Section Main.
(** What the 256 bytes of [buf] hold: nothing initialises them. *)
Context (buf : list byte).

Definition child_close (loop i : nat) (k : code line) : code line :=
  if decide (i = loop) then CSay Jjj (CClose (recv_pipefd i, Wr) k)
  else CSay Kkk (CClose (recv_pipefd i, Rd) (CClose (recv_pipefd i, Wr) k)).

Definition child_read (loop : nat) : code line :=
  CRead (recv_pipefd loop, Rd) 1 (fun r =>
    match r with
    | None => CSay ReadErr CSpin
    | Some data =>
        match c_string (data ++ drop (length data) buf) with
        | Some str => CSay (Receive str) CSpin
        | None => CStop (Broken (Undefined OutOfBounds))
        end
    end).

Definition child (loop : nat) : code line :=
  CSay (ChildStart loop) (foldr (child_close loop) (child_read loop) (seq 0 MAX_PID_CNT)).

Definition err : code line := CStop (Exited (-1)).

(** The second loop, with [todo] rounds left. *)
Fixpoint fork_loop (todo loop : nat) : code line :=
  match todo with
  | O => CStop (Exited 0)
  | S todo' =>
      CFork (child loop)
        (CSay (ParentStart loop) (CSay ParentPid
        (CClose (recv_pipefd loop, Rd)
        (CWrite (recv_pipefd loop, Wr) msg (fun ok =>
           let rest := CSay PidEnd (fork_loop todo' (S loop)) in
           if ok then rest else CSay WriteErr rest)))))
        err
  end.

Definition main : code line :=
  foldr (fun loop k => CPipe (recv_pipefd loop) (CPipe (send_pipefd loop) k err) err)
    (fork_loop MAX_PID_CNT 0) (seq 0 MAX_PID_CNT).
End Main.
End Pipe2.

(** ** net/fork.cpp *)
Module Fork.
Inductive line := ParentStart (loop : nat) | ParentPid | ChildStart (loop : nat) | PidEnd.

Definition MAX_PID_CNT : nat := 2.

Fixpoint fork_loop (todo loop : nat) : code line :=
  match todo with
  | O => CStop (Exited 0)
  | S todo' =>
      let rest := CSay PidEnd (fork_loop todo' (S loop)) in
      CFork (CSay (ChildStart loop) rest) (CSay (ParentStart loop) (CSay ParentPid rest)) rest
  end.

Definition main : code line := fork_loop MAX_PID_CNT 0.
End Fork.

(** ** net/semaphore/a.c *)
Module SharedSem.
Inductive line :=
  | InitFail
  | Xx (child : bool) | Dash (child : bool) | Plus (child : bool)   (* "xx", "---", "+++" *)
  | Step (child : bool) (count : nat).

(** [for (count = 0; count < 10; count++) printf("step ...")] *)
Definition steps (child : bool) (k : code line) : code line :=
  foldr (fun count k => CSay (Step child count) k) k (seq 0 10).

Definition finish : code line := CSemDestroy (CStop (Exited 0)).

Definition critical (who : bool) (k : code line) : code line :=
  CSay (Dash who)
  (CSemWait
  (CSay (Dash who)
  (steps who
  (CSay (Plus who)
  (CPost
  (CSay (Plus who) k)))))).

Definition child : code line :=
  CSay (Xx true) (CPost (critical true finish)).
Definition parent : code line :=
  CSay (Xx false) (critical false finish).

(** The failing branch of [fork] does nothing but destroy the semaphore. *)
Definition after_init : code line := CFork child parent finish.

Definition main : code line :=
  CTry (CSemInit 0 after_init (CSay InitFail after_init)) (CStop (Exited (-1))).
End SharedSem.
