(* ===== verification/PipeProtocol.v ===== *)
(** * PipeProtocol: a parent that sends one message down a pipe to each child

    What pipe.cpp and pipe2.cpp have in common, as a protocol: two predicates on
    the code of a process, recursive in its calls, say what it may do next, and
    the whole system of a parent and children that keep to them never faults and
    never blocks.  That a program keeps to the protocol is then a computation. *)

From stdpp Require Import relations.
From S2P Require Import Prelude Bytes Processes.

(** The protocol's parameters. *)
Class Protocol (L : Type) := {
  chan : nat -> nat;               (* the pipe of child [j] *)
  msg_first : byte;
  msg_rest : list byte;            (* the message, its first byte and the rest *)
  shown : L -> bool;               (* the lines that show what was received *)
  expect : list L;                 (* those of one child *)
  spins : bool;                    (* children end in [while (1)], or they exit *)
  status_of : nat -> Z -> bool     (* statuses with which the parent exits after n children *)
}.
Class ProtocolLaws (L : Type) `{Protocol L} := chan_inj : Inj (=) (=) chan.
#[export] Existing Instance chan_inj.

Section Protocol.
Context {L : Type} `{ProtocolLaws L}.
Implicit Types (c : code L) (m : machine L) (fds : gset desc).

Definition msg : list byte := msg_first :: msg_rest.

(** ** Keeping to the protocol *)

(** A child that has received: it still shows the lines [r]. *)
Fixpoint tail c (r : list L) : Prop :=
  match c with
  | CStop (Exited _) => spins = false /\ r = []
  | CSpin => spins = true /\ r = []
  | CSay l k => if shown l then exists r', r = l :: r' /\ tail k r' else tail k r
  | _ => False
  end.

(** Child [j] before that. *)
Fixpoint child_pre (j : nat) c fds : Prop :=
  match c with
  | CSay l k => shown l = false /\ child_pre j k fds
  | CClose d k => child_pre j k (fds ∖ {[d]})
  | CRead d n k => d = (chan j, Rd) /\ d ∈ fds /\ n = 1%nat /\ tail (k (Some [msg_first])) expect
  | _ => False
  end.

(** The parent when it has forked [f] children and sent [w] messages. *)
Fixpoint parent_pre (f w : nat) c fds : Prop :=
  match c with
  | CStop (Exited z) => f = w /\ status_of f z = true
  | CSay l k => parent_pre f w k fds
  | CPipe n ok failed => f = 0%nat /\ parent_pre f w ok ({[(n, Rd); (n, Wr)]} ∪ fds) /\ parent_pre f w failed fds
  | CFork ch pa failed =>
      f = w /\ child_pre f ch fds /\ parent_pre (S f) w pa fds /\ parent_pre f w failed fds
  | CClose d k => parent_pre f w k (fds ∖ {[d]})
  | CWrite d data k => d = (chan w, Wr) /\ d ∈ fds /\ f = S w /\ data = msg /\ parent_pre f (S w) (k true) fds
  | CWait k => f = w /\ spins = false /\ parent_pre f w k fds
  | _ => False
  end.

Lemma child_pre_reads j c fds : child_pre j c fds -> (chan j, Rd) ∈ fds.
Proof.
  revert fds. induction c; intros fds; cbn; try done.
  - intros [_ Hk]. by apply IHc.
  - intros Hk%IHc. set_solver.
  - by intros (-> & ? & _).
Qed.

Lemma parent_pre_writes w c fds : parent_pre (S w) w c fds -> (chan w, Wr) ∈ fds.
Proof.
  revert fds. induction c as [o| | | |p ok IHok er IHer| | | | | | | | |]; intros fds; cbn; try done.
  - destruct o; try done. by intros [? _]; lia.
  - apply IHc.
  - by intros [? _].
  - by intros [? _]; lia.
  - intros Hk%IHc. set_solver.
  - by intros (-> & ? & _).
  - by intros [? _]; lia.
Qed.

(** ** The invariant *)

(** What process [i] has shown. *)
Definition showed (i : nat) m : list L :=
  snd <$> filter (fun x => x.1 = i /\ shown x.2 = true) (m_out m).

Definition parent_ok (f w : nat) (p : proc L) : Prop :=
  if p_over p then f = w /\ exists z, p_code p = CStop (Exited z) /\ status_of f z = true
  else parent_pre f w (p_code p) (p_fds p).

(** A child that waits for its message, that shows it, that has ended. *)
Inductive child_ok (w j : nat) (buffered : list byte) (out : list L) (p : proc L) : Prop :=
  | waiting : p_over p = false -> child_pre j (p_code p) (p_fds p) -> out = [] ->
      (j < w -> buffered = msg)%nat -> child_ok w j buffered out p
  | showing r : p_over p = false -> tail (p_code p) r -> out ++ r = expect -> (j < w)%nat ->
      child_ok w j buffered out p
  | finished z : p_over p = true -> p_code p = CStop (Exited z) -> out = expect -> (j < w)%nat ->
      spins = false -> child_ok w j buffered out p.

Definition contents m (j : nat) : list byte := default [] (m_pipes m !! chan j).

Record inv m (f w : nat) : Prop := mkInv {
  i_parent : exists p, m_procs m !! 0%nat = Some p /\ p_parent p = None /\ parent_ok f w p;
  i_count : length (m_procs m) = S f;
  i_sent : (w <= f <= S w)%nat;
  i_child j p : m_procs m !! S j = Some p ->
    p_parent p = Some 0%nat /\ child_ok w j (contents m j) (showed (S j) m) p;
  i_empty j : (w <= j)%nat -> contents m j = [];
  i_quiet j : (f <= j)%nat -> showed (S j) m = []
}.

Lemma showed_add_out i j l m :
  showed i (add_out j l m) = showed i m ++ (if decide (j = i) then if shown l then [l] else [] else []).
Proof.
  unfold showed, add_out. cbn [m_out]. rewrite filter_app, fmap_app. f_equal. cbn.
  destruct (shown l); repeat case_decide; naive_solver.
Qed.

Lemma open_by m d i p : m_procs m !! i = Some p -> d ∈ p_fds p -> open_somewhere d m = true.
Proof.
  intros Hi Hd. apply existsb_exists. exists p. split.
  - by apply list_elem_of_In, list_elem_of_lookup_2 with i.
  - by apply bool_decide_eq_true.
Qed.

(** ** Steps of the parent *)

(** What a step of the parent leaves of the children. *)
Lemma children_kept m m' f w w' :
  inv m f w -> (forall j, m_procs m' !! S j = m_procs m !! S j) ->
  (forall j, showed (S j) m' = showed (S j) m) ->
  (w' = w \/ w' = S w) ->
  (forall j, (j < f)%nat -> contents m' j = if decide (w <= j < w')%nat then msg else contents m j) ->
  forall j p, m_procs m' !! S j = Some p ->
    p_parent p = Some 0%nat /\ child_ok w' j (contents m' j) (showed (S j) m') p.
Proof.
  intros Hinv Hp Hs Hw Hc j p Hj. rewrite Hp in Hj. destruct (i_child m f w Hinv j p Hj) as [Hpar Hok].
  assert (j < f)%nat as Hlt by (apply lookup_lt_Some in Hj; rewrite (i_count m f w Hinv) in Hj; lia).
  split; [done|]. rewrite Hs, Hc by done. destruct Hok as [Ho Hpre Hout Hmsg|r Ho Ht Hout Hlt'|z Ho Hz Hout Hlt' Hsp].
  - apply waiting; [done..|]. intros Hjw. case_decide; [done|]. apply Hmsg. lia.
  - eapply showing; [done..|lia].
  - eapply finished; [done..|lia|done].
Qed.

Lemma parent_moves m f w w' p p' m' :
  inv m f w -> m_procs m !! 0%nat = Some p -> m_procs m' = <[0%nat := p']> (m_procs m) ->
  parent_ok f w' p' -> p_parent p' = p_parent p -> m_out m' = m_out m \/ (exists l, m_out m' = m_out m ++ [(0%nat, l)]) ->
  (w' = w \/ w' = S w) -> (w' <= f <= S w')%nat ->
  (forall j, contents m' j = if decide (w <= j < w')%nat then msg else contents m j) ->
  inv m' f w'.
Proof.
  intros Hinv Hp Hprocs Hok Hpar Hout Hw Hf Hc.
  assert (forall j, showed (S j) m' = showed (S j) m) as Hshow.
  { intros j. unfold showed. destruct Hout as [->|[l ->]]; [done|].
    rewrite filter_app, fmap_app. cbn. case_decide; [naive_solver|]. by rewrite app_nil_r. }
  split; [| |done| | |].
  - exists p'. rewrite Hpar. destruct (i_parent m f w Hinv) as (p0 & Hp0 & Hnone & _).
    split; [|split; [congruence|done]]. rewrite Hprocs. apply list_lookup_insert_eq. by eapply lookup_lt_Some.
  - rewrite Hprocs, length_insert. apply (i_count m f w Hinv).
  - eapply children_kept; [done| |done|done|auto]. intros j. by rewrite Hprocs, list_lookup_insert_ne.
  - intros j Hj. rewrite Hc. case_decide; [lia|]. apply (i_empty m f w Hinv). lia.
  - intros j Hj. rewrite Hshow. by apply (i_quiet m f w Hinv).
Qed.

(** ** A bound on the steps left *)

Fixpoint work c : nat :=
  match c with
  | CStop _ => 1
  | CSay _ k | CClose _ k | CWait k => S (work k)
  | CPipe _ ok failed => S (work ok + work failed)
  | CFork ch pa failed => S (work ch + work pa + work failed)
  | CWrite _ _ k => S (work (k true))
  | CRead _ _ k => S (work (k (Some [msg_first])))
  | _ => 0
  end.

Definition work_left (p : proc L) : nat := if p_over p then 0 else work (p_code p).
Definition total m : nat := sum_list_with work_left (m_procs m).

(** What every step does. *)
Definition progress m m' : Prop := (exists f w, inv m' f w) /\ (total m' < total m)%nat.

Lemma work_update m m' i p p' :
  m_procs m !! i = Some p -> m_procs m' = <[i := p']> (m_procs m) -> (work_left p' < work_left p)%nat ->
  (total m' < total m)%nat.
Proof.
  intros Hi Hm Hlt. unfold total. rewrite Hm. pose proof (sum_update work_left (m_procs m) i p p' Hi). lia.
Qed.

Ltac less_work Ho Hc := unfold work_left; cbn; rewrite Ho, Hc; cbn; lia.

(** The usual step: one more call of the parent's code, nothing sent. *)
Lemma parent_goes m f w p p' m' :
  inv m f w -> m_procs m !! 0%nat = Some p -> m_procs m' = <[0%nat := p']> (m_procs m) ->
  parent_ok f w p' -> p_parent p' = p_parent p -> m_out m' = m_out m \/ (exists l, m_out m' = m_out m ++ [(0%nat, l)]) ->
  (forall j, contents m' j = contents m j) -> (work_left p' < work_left p)%nat ->
  progress m m'.
Proof.
  intros Hinv Hp Hprocs Hok Hpar Hout Hc Hlt. split; [|by eapply work_update].
  exists f, w. eapply parent_moves; [done..|by left| |].
  - apply (i_sent m f w Hinv).
  - intros j. rewrite Hc. case_decide; [lia|done].
Qed.

Lemma parent_pipes m f w p n ok failed :
  inv m f w -> m_procs m !! 0%nat = Some p -> p_over p = false -> p_code p = CPipe n ok failed ->
  progress m (set_pipe n [] (set_proc 0 (with_code ok (with_fds ({[(n, Rd); (n, Wr)]} ∪ p_fds p) p)) m)).
Proof.
  intros Hinv Hp Ho Hc. destruct (i_parent m f w Hinv) as (p0 & Hp0 & _ & Hok). simplify_eq.
  unfold parent_ok in Hok. rewrite Ho, Hc in Hok. destruct Hok as (-> & Hpre & _).
  assert (w = 0)%nat as -> by (pose proof (i_sent m _ _ Hinv); lia).
  eapply parent_goes; [done..| |done|by left| |].
  - unfold parent_ok. cbn. by rewrite Ho.
  - intros j. rewrite (i_empty m _ _ Hinv j) by lia. unfold contents, set_pipe. cbn [m_pipes set_proc].
    destruct (decide (n = chan j)) as [->|Hne]; [by rewrite lookup_insert_eq|].
    rewrite lookup_insert_ne by done. apply (i_empty m _ _ Hinv j). lia.
  - less_work Ho Hc.
Qed.

Lemma parent_forks m f w p ch pa failed :
  inv m f w -> m_procs m !! 0%nat = Some p -> p_over p = false -> p_code p = CFork ch pa failed ->
  progress m (add_proc (mkProc ch (p_fds p) (Some 0%nat) false false) (set_proc 0 (with_code pa p) m)).
Proof.
  intros Hinv Hp Ho Hc. destruct (i_parent m f w Hinv) as (p0 & Hp0 & Hnone & Hok). simplify_eq.
  unfold parent_ok in Hok. rewrite Ho, Hc in Hok. destruct Hok as (-> & Hch & Hpa & _).
  pose proof (i_count m _ _ Hinv) as Hlen. split.
  - exists (S w), w. split; [| |lia| | |].
    + exists (with_code pa p). split; [|split; [done|unfold parent_ok; cbn; by rewrite Ho]].
      cbn. rewrite lookup_app_l by (rewrite length_insert; lia). apply list_lookup_insert_eq. lia.
    + cbn. rewrite length_app, length_insert, Hlen. cbn. lia.
    + intros j q Hj. cbn in Hj. apply lookup_app_Some in Hj as [Hj|[Hge Hj]].
      * rewrite list_lookup_insert_ne in Hj by done. by apply (i_child m _ _ Hinv).
      * rewrite length_insert, Hlen in *. apply list_lookup_singleton_Some in Hj as [Hj <-].
        assert (j = w) as -> by lia. split; [done|]. apply waiting; [done..| |lia].
        by apply (i_quiet m _ _ Hinv).
    + apply (i_empty m _ _ Hinv).
    + intros j Hj. apply (i_quiet m _ _ Hinv). lia.
  - unfold total. cbn. rewrite sum_list_with_app. cbn.
    pose proof (sum_update work_left (m_procs m) 0 p (with_code pa p) Hp) as Hs.
    unfold work_left in Hs at 2 4. cbn in Hs. rewrite Ho, Hc in Hs. cbn in Hs.
    change (work_left (mkProc ch (p_fds p) (Some 0%nat) false false)) with (work ch). lia.
Qed.

Lemma parent_writes m f w p d data k :
  inv m f w -> m_procs m !! 0%nat = Some p -> p_over p = false -> p_code p = CWrite d data k ->
  open_somewhere (d.1, Rd) m = true /\
  progress m (set_pipe d.1 (default [] (m_pipes m !! d.1) ++ data) (set_proc 0 (with_code (k true) p) m)).
Proof.
  intros Hinv Hp Ho Hc. destruct (i_parent m f w Hinv) as (p0 & Hp0 & Hnone & Hok). simplify_eq.
  unfold parent_ok in Hok. rewrite Ho, Hc in Hok. destruct Hok as (-> & Hd & -> & -> & Hpre).
  pose proof (i_count m _ _ Hinv) as Hlen. split.
  - destruct (lookup_lt_is_Some_2 (m_procs m) (S w)) as [q Hq]; [lia|].
    destruct (i_child m _ _ Hinv w q Hq) as [_ [? Hch _ _|r _ _ _ ?|z _ _ _ ? _]]; [|lia|lia].
    eapply open_by; [done|]. by eapply child_pre_reads.
  - split; [|eapply work_update; [done..|less_work Ho Hc]].
    exists (S w), (S w). eapply parent_moves; [done..| |done|by left|by right|lia|].
    + unfold parent_ok. cbn. by rewrite Ho.
    + intros j. unfold contents. cbn [m_pipes set_pipe set_proc fst]. destruct (decide (j = w)) as [->|Hne].
      * rewrite lookup_insert_eq, decide_True by lia. pose proof (i_empty m _ _ Hinv w ltac:(lia)) as He.
        unfold contents in He. by rewrite He.
      * rewrite lookup_insert_ne by (by intros ?%(inj chan)). rewrite decide_False by lia. done.
Qed.

(** [wait] reaps one of the children. *)
Lemma parent_reaps m f w p k j q :
  inv m f w -> m_procs m !! 0%nat = Some p -> p_over p = false -> p_code p = CWait k ->
  m_procs m !! j = Some q -> is_child 0 q = true ->
  progress m (set_proc 0 (with_code k p) (set_proc j (reaped q) m)).
Proof.
  intros Hinv Hp Ho Hc Hj Hchild. destruct (i_parent m f w Hinv) as (p0 & Hp0 & Hnone & Hok). simplify_eq.
  unfold is_child in Hchild. apply andb_true_iff in Hchild as [Hpar%bool_decide_eq_true _].
  destruct j as [|j]; [simplify_eq; congruence|].
  pose proof (i_count m _ _ Hinv) as Hlen.
  set (m1 := set_proc (S j) (reaped q) m).
  assert (inv m1 f w) as Hinv1.
  { split; [| |apply (i_sent m _ _ Hinv)| |apply (i_empty m _ _ Hinv)|apply (i_quiet m _ _ Hinv)].
    - exists p. cbn. by rewrite list_lookup_insert_ne.
    - cbn. by rewrite length_insert.
    - intros i x Hi. cbn in Hi. apply insert_lookup_Some in Hi as [[Hi ->]|[_ Hi]].
      + injection Hi as ->. destruct (i_child m _ _ Hinv j q Hj) as [Hp1 Hok1]. split; [done|].
        destruct Hok1; [by apply waiting|by eapply showing|by eapply finished].
      + by apply (i_child m _ _ Hinv). }
  assert (m_procs m1 !! 0%nat = Some p) as Hp1 by (cbn; by rewrite list_lookup_insert_ne).
  assert (total m1 = total m) as Htotal.
  { unfold total, m1. cbn. pose proof (sum_update work_left (m_procs m) (S j) q (reaped q) Hj) as Hs.
    change (work_left (reaped q)) with (work_left q) in Hs. lia. }
  unfold progress. rewrite <- Htotal. fold (progress m1 (set_proc 0 (with_code k p) m1)).
  unfold parent_ok in Hok. rewrite Ho, Hc in Hok. destruct Hok as (-> & Hsp & Hpre).
  eapply parent_goes; [done..| |done|by left|done|].
  - unfold parent_ok. cbn. by rewrite Ho.
  - less_work Ho Hc.
Qed.

(** The parent goes on with the code [c], as it is or failing. *)
Lemma parent_code m f w p c m' :
  inv m f w -> m_procs m !! 0%nat = Some p -> p_over p = false ->
  m_procs m' = m_procs (set_proc 0 (with_code c p) m) -> m_pipes m' = m_pipes m ->
  parent_pre f w c (p_fds p) -> (work c < work (p_code p))%nat ->
  m_out m' = m_out m \/ (exists l, m_out m' = m_out m ++ [(0%nat, l)]) ->
  progress m m'.
Proof.
  intros Hinv Hp Ho Hprocs Hpipes Hpre Hlt Hout. eapply (parent_goes m f w p (with_code c p)); [done..| |done|done| |].
  - unfold parent_ok. cbn. by rewrite Ho.
  - intros j. unfold contents. by rewrite Hpipes.
  - unfold work_left. cbn. by rewrite Ho.
Qed.

Lemma parent_step m f w fails m' : inv m f w -> advance m 0 fails = Some m' -> progress m m'.
Proof.
  intros Hinv Ha. destruct (i_parent m f w Hinv) as (p & Hp & Hnone & Hok).
  unfold advance in Ha. rewrite Hp in Ha. cbn [mbind option_bind] in Ha.
  unfold parent_ok in Hok. destruct (p_over p) eqn:Ho; [done|].
  destruct (p_code p) as [o| |l k|ok er|n ok er|ch pa er|d k|d data k|d n k|k|v ok er|k|k|k] eqn:Hc; try done.
  - destruct o; try done. injection Ha as <-. eapply parent_goes; [done..| |done|by left|done|].
    + unfold parent_ok. cbn. rewrite Hc. destruct Hok. by eauto.
    + less_work Ho Hc.
  - injection Ha as <-. eapply parent_code; [done..|rewrite Hc; cbn; lia|right; by eexists].
  - destruct fails; injection Ha as <-; [|by eapply parent_pipes].
    eapply parent_code; [done..|apply Hok|rewrite Hc; cbn; lia|by left].
  - destruct fails; injection Ha as <-; [|by eapply parent_forks].
    eapply parent_code; [done..|apply Hok|rewrite Hc; cbn; lia|by left].
  - injection Ha as <-. eapply parent_goes; [done..| |done|by left|done|].
    + unfold parent_ok. cbn. by rewrite Ho.
    + less_work Ho Hc.
  - destruct (parent_writes m f w p d data k Hinv Hp Ho Hc) as [Hopen Hgo]. rewrite Hopen in Ha.
    rewrite decide_True in Ha by apply Hok. by injection Ha as <-.
  - destruct (list_find _ _) as [[j q]|] eqn:Hf.
    + injection Ha as <-. apply list_find_Some in Hf as (Hj & Hq%Is_true_true & _).
      apply andb_true_iff in Hq as [Hq _]. by eapply parent_reaps.
    + destruct (existsb _ _); [done|]. injection Ha as <-.
      eapply parent_code; [done..|apply Hok|rewrite Hc; cbn; lia|by left].
Qed.

(** ** Steps of a child *)

Lemma child_moves m f w j p p' m' :
  inv m f w -> m_procs m !! S j = Some p -> m_procs m' = <[S j := p']> (m_procs m) ->
  p_parent p' = p_parent p -> (work_left p' < work_left p)%nat ->
  m_out m' = m_out m \/ (exists l, m_out m' = m_out m ++ [(S j, l)]) ->
  (forall i, i <> j -> contents m' i = contents m i) -> (w <= j -> contents m' j = contents m j)%nat ->
  child_ok w j (contents m' j) (showed (S j) m') p' ->
  progress m m'.
Proof.
  intros Hinv Hj Hprocs Hpar Hlt Hout Hc Hcj Hok. split; [|by eapply work_update].
  exists f, w. pose proof (i_count m f w Hinv) as Hlen.
  assert (forall i, i <> j -> showed (S i) m' = showed (S i) m) as Hshow.
  { intros i Hi. unfold showed. destruct Hout as [->|[l ->]]; [done|].
    rewrite filter_app, fmap_app. cbn. case_decide; [naive_solver|]. by rewrite app_nil_r. }
  split; [| |apply (i_sent m f w Hinv)| | |].
  - rewrite Hprocs, list_lookup_insert_ne by done. apply (i_parent m f w Hinv).
  - by rewrite Hprocs, length_insert.
  - intros i x Hi. rewrite Hprocs in Hi. apply insert_lookup_Some in Hi as [[[= ->] ->]|[Hne Hi]].
    + split; [|done]. rewrite Hpar. apply (i_child m f w Hinv j p Hj).
    + assert (i <> j) by congruence. rewrite Hc, Hshow by done. by apply (i_child m f w Hinv).
  - intros i Hi. destruct (decide (i = j)) as [->|Hne].
    + rewrite Hcj by done. by apply (i_empty m f w Hinv).
    + rewrite Hc by done. by apply (i_empty m f w Hinv).
  - intros i Hi. apply lookup_lt_Some in Hj. rewrite Hshow by lia. by apply (i_quiet m f w Hinv).
Qed.

(** A child blocked on its pipe: the parent is about to write to it, so that it
    has the other end open. *)
Lemma pipe_has_writer m f w j p :
  inv m f w -> m_procs m !! S j = Some p -> (w <= j)%nat -> open_somewhere (chan j, Wr) m = true.
Proof.
  intros Hinv Hj Hw. pose proof (i_sent m f w Hinv) as Hs. apply lookup_lt_Some in Hj.
  rewrite (i_count m f w Hinv) in Hj. assert (j = w /\ f = S w) as [-> ->] by lia.
  destruct (i_parent m _ _ Hinv) as (p0 & Hp0 & _ & Hok). eapply open_by; [done|].
  unfold parent_ok in Hok. destruct (p_over p0); [by destruct Hok; lia|]. by eapply parent_pre_writes.
Qed.

Lemma showed_say j l m i p :
  showed j (add_out j l (set_proc i p m)) = showed j m ++ (if shown l then [l] else []).
Proof. rewrite showed_add_out, decide_True by done. done. Qed.

(** A child that has not received. *)
Lemma child_waits m f w j p fails m' :
  inv m f w -> m_procs m !! S j = Some p -> p_over p = false -> child_pre j (p_code p) (p_fds p) ->
  showed (S j) m = [] -> (j < w -> contents m j = msg)%nat ->
  advance m (S j) fails = Some m' -> progress m m'.
Proof.
  intros Hinv Hj Ho Hpre Hout Hmsg Ha. unfold advance in Ha. rewrite Hj in Ha.
  cbn [mbind option_bind] in Ha. rewrite Ho in Ha.
  destruct (p_code p) as [o| |l k|ok er|n ok er|ch pa er|d k|d data k|d n k|k|v ok er|k|k|k] eqn:Hc; try done.
  - injection Ha as <-. destruct Hpre as [Hl Hpre].
    eapply (child_moves m f w j p (with_code k p)); [done..|less_work Ho Hc|right; by eexists|done|done|].
    apply waiting; [done..| |done]. by rewrite showed_say, Hout, Hl.
  - injection Ha as <-.
    eapply (child_moves m f w j p (with_code k (with_fds (p_fds p ∖ {[d]}) p)));
      [done..|less_work Ho Hc|by left|done|done|]. by apply waiting.
  - destruct Hpre as (-> & Hd & -> & Ht). rewrite decide_True in Ha by done. cbn [fst] in Ha.
    destruct (decide (w <= j)%nat) as [Hw|Hw].
    { pose proof (i_empty m f w Hinv j Hw) as He. unfold contents in He. rewrite He in Ha.
      by rewrite (pipe_has_writer m f w j p) in Ha. }
    pose proof (Hmsg ltac:(lia)) as He. unfold contents in He. rewrite He in Ha. cbn in Ha. injection Ha as <-.
    eapply (child_moves m f w j p (with_code (k (Some [msg_first])) p));
      [done..|less_work Ho Hc|by left| |lia|].
    + intros i Hi. unfold contents. cbn [m_pipes set_pipe set_proc].
      by rewrite lookup_insert_ne by (by intros ?%(inj chan)).
    + eapply showing; [done..| |lia]. change (showed (S j) m ++ expect = expect). by rewrite Hout.
Qed.

(** A child that has received. *)
Lemma child_shows m f w j p r fails m' :
  inv m f w -> m_procs m !! S j = Some p -> p_over p = false -> tail (p_code p) r ->
  showed (S j) m ++ r = expect -> (j < w)%nat ->
  advance m (S j) fails = Some m' -> progress m m'.
Proof.
  intros Hinv Hj Ho Ht Hout Hw Ha. unfold advance in Ha. rewrite Hj in Ha.
  cbn [mbind option_bind] in Ha. rewrite Ho in Ha.
  destruct (p_code p) as [o| |l k|ok er|n ok er|ch pa er|d k|d data k|d n k|k|v ok er|k|k|k] eqn:Hc; try done.
  - destruct o as [z| |]; try done. destruct Ht as [Hsp ->]. injection Ha as <-. rewrite app_nil_r in Hout.
    eapply (child_moves m f w j p (ended p)); [done..|less_work Ho Hc|by left|done|done|].
    by eapply finished.
  - injection Ha as <-. cbn in Ht.
    eapply (child_moves m f w j p (with_code k p)); [done..|less_work Ho Hc|right; by eexists|done|done|].
    destruct (shown l) eqn:Hl.
    + destruct Ht as (r' & -> & Ht). eapply (showing _ _ _ _ _ r'); [done..| |done].
      rewrite showed_say, Hl, <- app_assoc. exact Hout.
    + eapply showing; [done..| |done]. rewrite showed_say, Hl, app_nil_r. exact Hout.
Qed.

Lemma protocol_step m f w m' : inv m f w -> step m m' -> progress m m'.
Proof.
  intros Hinv (i & fails & Ha). destruct i as [|j]; [by eapply parent_step|].
  destruct (m_procs m !! S j) as [p|] eqn:Hj; [|unfold advance in Ha; by rewrite Hj in Ha].
  destruct (i_child m f w Hinv j p Hj) as [_ [Ho Hpre Hout Hmsg|r Ho Ht Hout Hw|z Ho _ _ _ _]].
  - by eapply child_waits.
  - by eapply child_shows.
  - unfold advance in Ha. rewrite Hj in Ha. cbn in Ha. by rewrite Ho in Ha.
Qed.

Lemma protocol_steps m f w n m' :
  inv m f w -> nsteps step n m m' -> (exists f' w', inv m' f' w') /\ (n + total m' <= total m)%nat.
Proof.
  intros Hinv Hn. revert f w Hinv. induction Hn as [m|n m m1 m2 Hstep _ IH]; intros f w Hinv; [eauto with lia|].
  destruct (protocol_step m f w m1 Hinv Hstep) as [(f1 & w1 & Hinv1) Hlt].
  destruct (IH f1 w1 Hinv1) as [Hex Hle]. split; [done|lia].
Qed.

(** ** Where the system stops *)

Lemma inv_unharmed m f w i p : inv m f w -> m_procs m !! i = Some p -> unharmed p.
Proof.
  intros Hinv Hi. unfold unharmed. destruct i as [|j].
  - destruct (i_parent m f w Hinv) as (p0 & Hp0 & _ & Hok). simplify_eq. unfold parent_ok in Hok.
    destruct (p_over p); [by destruct Hok as (_ & z & -> & _)|]. by destruct (p_code p) as [[]| | | | | | | | | | | | |].
  - destruct (i_child m f w Hinv j p Hi) as [_ [_ Hpre _ _|r _ Ht _ _|z _ -> _ _ _]]; [| |done];
      by destruct (p_code p) as [[]| | | | | | | | | | | | |].
Qed.

(** The lines shown by a child are the beginning of what is expected. *)
Lemma inv_showed m f w j : inv m f w -> (showed (S j) m) `prefix_of` expect.
Proof.
  intros Hinv. destruct (m_procs m !! S j) as [p|] eqn:Hj.
  - destruct (i_child m f w Hinv j p Hj) as [_ [_ _ -> _|r _ _ <- _|z _ _ -> _ _]];
      [apply prefix_nil|by apply prefix_app_r|done].
  - apply lookup_ge_None in Hj. rewrite (i_count m f w Hinv) in Hj.
    rewrite (i_quiet m f w Hinv) by lia. apply prefix_nil.
Qed.

(** A child at rest: it spins or it has exited, and has shown everything. *)
Definition at_rest (p : proc L) : Prop :=
  if spins then p_over p = false /\ p_code p = CSpin
  else exists z, over_with (Exited z) p.

Lemma stuck_code m i p :
  stuck m -> m_procs m !! i = Some p -> p_over p = false ->
  match p_code p with
  | CSpin => True
  | CRead d _ _ => d ∈ p_fds p -> default [] (m_pipes m !! d.1) = []
  | CWait _ => existsb (is_child i) (m_procs m) = true /\
      forall j q, m_procs m !! j = Some q -> is_child i q = true -> p_over q = false
  | CSemWait _ => True
  | _ => False
  end.
Proof.
  intros Hs Hi Ho. specialize (Hs i false). unfold advance in Hs. rewrite Hi in Hs.
  cbn [mbind option_bind] in Hs. rewrite Ho in Hs. destruct (p_code p); try done.
  - destruct (decide _); [destruct (open_somewhere _ _); done|done].
  - intros Hd. rewrite decide_True in Hs by done. by destruct (default [] _).
  - destruct (list_find _ _) as [[j q]|] eqn:Hf; [done|]. destruct (existsb _ _); [|done].
    split; [done|]. intros j q Hj Hq. apply list_find_None in Hf.
    apply (Forall_lookup_1 _ _ _ _ Hf) in Hj. rewrite Hq in Hj. cbn in Hj. by destruct (p_over q).
  - by destruct (m_sem m).
  - by destruct (m_sem m).
Qed.

Lemma stuck_child m f w j p :
  inv m f w -> stuck m -> m_procs m !! S j = Some p -> (j < w)%nat ->
  at_rest p /\ showed (S j) m = expect.
Proof.
  intros Hinv Hs Hj Hw. unfold at_rest, over_with.
  destruct (i_child m f w Hinv j p Hj) as [_ [Ho Hpre Hout Hmsg|r Ho Ht Hout _|z Ho Hz Hout _ ->]]; [| |by eauto].
  - pose proof (stuck_code m (S j) p Hs Hj Ho) as Hst. destruct (p_code p); try done.
    destruct Hpre as (-> & Hd & _ & _). specialize (Hst Hd). specialize (Hmsg Hw).
    unfold contents in Hmsg. cbn in Hst. by rewrite Hmsg in Hst.
  - pose proof (stuck_code m (S j) p Hs Hj Ho) as Hst. destruct (p_code p); try done.
    destruct Ht as [-> ->]. by rewrite app_nil_r in Hout.
Qed.

Lemma stuck_parent m f w p :
  inv m f w -> stuck m -> m_procs m !! 0%nat = Some p ->
  f = w /\ exists z, over_with (Exited z) p /\ status_of f z = true.
Proof.
  intros Hinv Hs Hp. destruct (i_parent m f w Hinv) as (p0 & Hp0 & Hnone & Hok). simplify_eq.
  unfold parent_ok in Hok. destruct (p_over p) eqn:Ho.
  { destruct Hok as (-> & z & Hz & Hst). split; [done|]. exists z. done. }
  pose proof (stuck_code m 0 p Hs Hp Ho) as Hst. destruct (p_code p); try done.
  destruct Hok as (-> & Hsp & _), Hst as [Hex Hno]. exfalso.
  apply existsb_exists in Hex as (q & Hq%list_elem_of_In & Hch).
  apply list_elem_of_lookup_1 in Hq as [[|j] Hj].
  { unfold is_child in Hch. apply andb_true_iff in Hch as [Hch%bool_decide_eq_true _]. congruence. }
  pose proof (lookup_lt_Some _ _ _ Hj) as Hlt. rewrite (i_count m _ _ Hinv) in Hlt.
  destruct (stuck_child m w w j q Hinv Hs Hj ltac:(lia)) as [Hr _]. unfold at_rest in Hr. rewrite Hsp in Hr.
  destruct Hr as (z & Hq & _). specialize (Hno _ _ Hj Hch). congruence.
Qed.

(** The protocol delivers: where the system stops, the parent has exited and each
    of its children is at rest after showing what it was sent. *)
Lemma stuck_delivered m f w :
  inv m f w -> stuck m ->
  exists p cs z, m_procs m = p :: cs /\ over_with (Exited z) p /\ status_of (length cs) z = true /\
    forall j q, cs !! j = Some q -> at_rest q /\ showed (S j) m = expect.
Proof.
  intros Hinv Hs. pose proof (i_count m f w Hinv) as Hlen.
  destruct (m_procs m) as [|p cs] eqn:Hm; [done|]. injection Hlen as Hlen.
  assert (m_procs m !! 0%nat = Some p) as Hp by by rewrite Hm.
  destruct (stuck_parent m f w p Hinv Hs Hp) as (-> & z & Hz & Hst).
  exists p, cs, z. split; [done|]. split; [done|]. split; [by rewrite Hlen|]. intros j q Hj.
  apply (stuck_child m w w); [done|done|by rewrite Hm|]. apply lookup_lt_Some in Hj. lia.
Qed.

Lemma inv_boot c : parent_pre 0 0 c ∅ -> inv (boot c) 0 0.
Proof.
  intros Hc. split; [|done|lia| | |done].
  - by eexists.
  - intros j p Hj. cbn in Hj. by destruct j.
  - intros j _. unfold contents. cbn. done.
Qed.

(** Everything at once, for a program that keeps to the protocol. *)
Lemma protocol_holds c n m :
  parent_pre 0 0 c ∅ -> nsteps step n (boot c) m ->
  (n <= work c)%nat /\ Forall unharmed (m_procs m) /\ (forall j, showed (S j) m `prefix_of` expect) /\
  (stuck m -> exists p cs z, m_procs m = p :: cs /\ over_with (Exited z) p /\ status_of (length cs) z = true /\
     forall j q, cs !! j = Some q -> at_rest q /\ showed (S j) m = expect).
Proof.
  intros Hc Hn. destruct (protocol_steps _ _ _ _ _ (inv_boot c Hc) Hn) as [(f & w & Hinv) Hle].
  split; [unfold total in Hle; cbn in Hle; lia|]. split; [|split].
  - apply Forall_lookup_2. intros i p. by apply (inv_unharmed m f w).
  - intros j. by apply (inv_showed m f w).
  - by apply (stuck_delivered m f w).
Qed.
End Protocol.
