(* ===== verification/PipeTheorems.v ===== *)
(** * PipeTheorems: the pipes of net/pipe deliver

    Both programs keep to the protocol of PipeProtocol, so that in every
    interleaving, and whatever [pipe] and [fork] refuse, nobody is killed by
    SIGPIPE, nobody reads an end of file, and each child gets its byte. *)

From stdpp Require Import relations.
From S2P Require Import Prelude Bytes Processes ProcessPrograms PipeProtocol.

(** A membership among closed sets of descriptors. *)
Ltac descriptor := apply (bool_decide_unpack _); vm_compute; exact I.

(** ** net/pipe/pipe2.cpp *)

Section Pipe2.
Import Pipe2.

(** The string that the uninitialised rest of [buf] happens to hold. *)
Context (buf t : list byte).

Definition is_receive (l : line) : bool := match l with Receive _ => true | _ => false end.

#[local] Instance pipe2_protocol : Protocol line := {
  chan := recv_pipefd;
  msg_first := Byte.x69;
  msg_rest := tl Pipe2.msg;
  shown := is_receive;
  expect := [Receive (Byte.x69 :: t)];
  spins := true;
  status_of n z := if (n =? MAX_PID_CNT)%nat then z =? 0 else (n <? MAX_PID_CNT)%nat && (z =? -1)
}.
#[local] Instance pipe2_protocol_laws : ProtocolLaws line.
Proof. intros i j. unfold chan; cbn. unfold recv_pipefd. lia. Qed.

Hypothesis Hbuf : c_string (drop 1 buf) = Some t.

Lemma pipe2_buffer : c_string ([Byte.x69] ++ drop (length [Byte.x69]) buf) = Some (Byte.x69 :: t).
Proof. cbn [length app c_string]. rewrite decide_False by done. by rewrite Hbuf. Qed.

(** Closing the ends of the other pipes leaves the child its own. *)
Lemma child_closes_others j l fds k :
  (recv_pipefd j, Rd) ∈ fds ->
  (forall fds', (recv_pipefd j, Rd) ∈ fds' -> child_pre j k fds') ->
  child_pre j (foldr (child_close j) k l) fds.
Proof.
  revert fds. induction l as [|i l IH]; intros fds Hd Hk; cbn [foldr]; [by apply Hk|].
  unfold child_close at 1. case_decide as Hi; cbn [child_pre]; (split; [done|]); apply IH; [|done| |done].
  - set_solver.
  - unfold recv_pipefd in *. rewrite !elem_of_difference, !elem_of_singleton.
    split; [split; [done|]|]; intros [=]; lia.
Qed.

Lemma pipe2_child_keeps j fds : (recv_pipefd j, Rd) ∈ fds -> child_pre j (child buf j) fds.
Proof.
  intros Hd. split; [done|]. apply child_closes_others; [done|]. intros fds' Hd'.
  split; [done|]. split; [done|]. split; [done|]. unfold msg_first; cbn [pipe2_protocol].
  rewrite pipe2_buffer. cbn. eauto.
Qed.

Lemma pipe2_keeps_protocol : parent_pre 0 0 (main buf) ∅.
Proof.
  cbn -[child recv_pipefd send_pipefd union difference elem_of].
  repeat match goal with
  | |- _ /\ _ => split
  | |- child_pre _ _ _ => apply pipe2_child_keeps
  | |- _ ∈ _ => descriptor
  | _ => done
  end.
Qed.

Lemma child_close_work j i k :
  work (child_close j i k) = ((if decide (i = j) then 2 else 3) + work k)%nat.
Proof. unfold child_close. by case_decide. Qed.

Lemma pipe2_child_work j : (j < MAX_PID_CNT)%nat -> work (child buf j) = 11%nat.
Proof.
  intros Hj. assert (work (child_read buf j) = 2%nat) as Hr.
  { unfold child_read. cbn [work]. unfold msg_first; cbn [pipe2_protocol]. by rewrite pipe2_buffer. }
  assert (j = 0 \/ j = 1 \/ j = 2)%nat as [-> |[-> | ->]] by (unfold MAX_PID_CNT in Hj; lia);
    unfold child, MAX_PID_CNT; cbn [seq foldr work]; by rewrite !child_close_work, Hr.
Qed.

Lemma pipe2_work : work (main buf) = 67%nat.
Proof. cbn -[child]. rewrite !pipe2_child_work by (unfold MAX_PID_CNT; lia). done. Qed.

Definition received (i : nat) (m : machine line) : list line :=
  snd <$> filter (fun x => x.1 = i /\ is_receive x.2 = true) (m_out m).

(** C24: every interleaving of pipe2.cpp, whatever [pipe] and [fork] refuse, has at
    most 67 steps before everybody is at rest; nobody is killed by SIGPIPE or
    goes wrong on the way; and where it stops, the parent has exited, with status
    0 exactly if it has three children, each child spins, and has printed once
    what it received: the first byte of the message, followed by whatever the
    uninitialised buffer holds up to its first zero, which it must have. *)
Theorem pipe2_delivers n m :
  nsteps step n (boot (main buf)) m ->
  (n <= 67)%nat /\ Forall unharmed (m_procs m) /\
  (stuck m -> exists p children, m_procs m = p :: children /\ (length children <= MAX_PID_CNT)%nat /\
     over_with (Exited (if decide (length children = MAX_PID_CNT) then 0 else -1)) p /\
     forall j q, children !! j = Some q ->
       p_over q = false /\ p_code q = CSpin /\ received (S j) m = [Receive (Byte.x69 :: t)]).
Proof.
  intros Hn. destruct (protocol_holds (main buf) n m pipe2_keeps_protocol Hn) as (Hle & Hok & _ & Hstuck).
  rewrite pipe2_work in Hle. split; [done|]. split; [done|]. intros Hs.
  destruct (Hstuck Hs) as (p & cs & z & Hm & Hz & Hst & Hcs). exists p, cs. split; [done|].
  unfold status_of in Hst; cbn [pipe2_protocol] in Hst. split; [|split].
  - destruct (length cs =? MAX_PID_CNT)%nat eqn:E; [apply Nat.eqb_eq in E; lia|].
    apply andb_true_iff in Hst as [?%Nat.ltb_lt _]. lia.
  - case_decide as E; [rewrite E in Hst; apply Z.eqb_eq in Hst; by subst z|].
    apply Nat.eqb_neq in E. rewrite E in Hst. apply andb_true_iff in Hst as [_ ?%Z.eqb_eq]. by subst z.
  - intros j q Hj. destruct (Hcs j q Hj) as [[Ho Hc] Hout]. split; [done|]. split; [done|]. exact Hout.
Qed.
End Pipe2.

(** A run in which the kernel refuses nothing and everybody takes turns. *)
Definition turns (n : nat) (procs : list nat) : list nat := mjoin (replicate n procs).
Definition zeroed : list byte := replicate 256 Byte.x00.
Definition pipe2_end : machine Pipe2.line := run_schedule (turns 70 [0; 1; 2; 3]%nat) (boot (Pipe2.main zeroed)).

Lemma pipe2_delivers_witness :
  exists n p children, (n <= 67)%nat /\ m_procs pipe2_end = p :: children /\ length children = 3%nat /\
    forall j q, children !! j = Some q -> received (S j) pipe2_end = [Pipe2.Receive [Byte.x69]].
Proof.
  destruct (schedule_steps (turns 70 [0; 1; 2; 3]%nat) (boot (Pipe2.main zeroed))) as [n Hn].
  destruct (pipe2_delivers zeroed [] ltac:(vm_compute; reflexivity) n pipe2_end Hn) as (Hle & _ & Hs).
  destruct (Hs (stuck_here_stuck pipe2_end ltac:(vm_compute; reflexivity))) as (p & cs & Hm & _ & _ & Hcs).
  exists n, p, cs. split; [exact Hle|]. split; [exact Hm|]. split.
  - assert (length (m_procs pipe2_end) = 4%nat) as Hlen by (vm_compute; reflexivity).
    rewrite Hm in Hlen. cbn in Hlen. lia.
  - intros j q Hj. apply (Hcs j q Hj).
Defined.

(** ** net/pipe/pipe.cpp *)

Section Pipe.
Import Pipe.

Definition is_stdout (l : line) : bool := match l with Stdout _ => true | _ => false end.

#[local] Instance pipe_protocol : Protocol line := {
  chan i := (2 * i)%nat;
  msg_first := Byte.x6e;
  msg_rest := tl Pipe.msg;
  shown := is_stdout;
  expect := [Stdout [Byte.x6e]; Stdout newline];
  spins := false;
  status_of n z := if (n =? 1)%nat then z =? EXIT_SUCCESS else (n =? 0)%nat && (z =? EXIT_FAILURE)
}.
#[local] Instance pipe_protocol_laws : ProtocolLaws line.
Proof. intros i j. unfold chan; cbn. lia. Qed.

Lemma pipe_keeps_protocol : parent_pre 0 0 main ∅.
Proof.
  cbn -[recv_pipefd send_pipefd union difference elem_of].
  repeat match goal with
  | |- _ /\ _ => split
  | |- exists _, _ => eexists
  | |- _ ∈ _ => descriptor
  | _ => done
  end.
Qed.

Definition printed (i : nat) (m : machine line) : list line :=
  snd <$> filter (fun x => x.1 = i /\ is_stdout x.2 = true) (m_out m).

(** Every interleaving of pipe.cpp, whatever [pipe] and [fork] refuse, has at
    most 24 steps; nobody is killed by SIGPIPE; and where it stops, the parent has
    exited: with success after its child has received the first byte of the
    message, written it with a newline to standard output and exited, or with
    failure and without a child. *)
Theorem pipe_delivers n m :
  nsteps step n (boot main) m ->
  (n <= 24)%nat /\ Forall unharmed (m_procs m) /\
  (stuck m ->
    (exists p, m_procs m = [p] /\ over_with (Exited EXIT_FAILURE) p) \/
    (exists p q, m_procs m = [p; q] /\ over_with (Exited EXIT_SUCCESS) p /\ (exists z, over_with (Exited z) q) /\
       printed 1 m = [Stdout [Byte.x6e]; Stdout newline])).
Proof.
  intros Hn. destruct (protocol_holds main n m pipe_keeps_protocol Hn) as (Hle & Hok & _ & Hstuck).
  split; [exact Hle|]. split; [done|]. intros Hs.
  destruct (Hstuck Hs) as (p & cs & z & Hm & Hz & Hst & Hcs). unfold status_of in Hst; cbn [pipe_protocol] in Hst.
  destruct cs as [|q [|q' cs]]; cbn in Hst; [left|right|done].
  - apply Z.eqb_eq in Hst as ->. by exists p.
  - apply Z.eqb_eq in Hst as ->. exists p, q. destruct (Hcs 0%nat q eq_refl) as [Hrest Hout].
    split; [done|]. split; [done|]. split; [exact Hrest|exact Hout].
Qed.
End Pipe.

Definition pipe_end : machine Pipe.line := run_schedule (turns 20 [0; 1]%nat) (boot Pipe.main).

Lemma pipe_delivers_witness :
  exists n p q, (n <= 24)%nat /\ m_procs pipe_end = [p; q] /\
    printed 1 pipe_end = [Pipe.Stdout [Byte.x6e]; Pipe.Stdout Pipe.newline].
Proof.
  destruct (schedule_steps (turns 20 [0; 1]%nat) (boot Pipe.main)) as [n Hn].
  destruct (pipe_delivers n pipe_end Hn) as (Hle & _ & Hs).
  assert (length (m_procs pipe_end) = 2%nat) as Hlen by (vm_compute; reflexivity).
  destruct (Hs (stuck_here_stuck pipe_end ltac:(vm_compute; reflexivity))) as [(p & Hm & _)|(p & q & Hm & _ & _ & Hout)].
  - exfalso. rewrite Hm in Hlen. cbn in Hlen. lia.
  - exists n, p, q. split; [exact Hle|]. split; [exact Hm|exact Hout].
Defined.
