(* ===== verification/ProcessBounds.v ===== *)
(** * ProcessBounds: code without loops makes boundedly many calls

    For code that neither reads, writes, waits for a child nor spins, the calls
    left are counted by recursion, and each step of the machine makes one. *)

From stdpp Require Import relations.
From S2P Require Import Prelude Processes.

Section Bounds.
Context {L : Type}.
Implicit Types (c : code L) (m : machine L).

Fixpoint simple c : Prop :=
  match c with
  | CStop _ => True
  | CSay _ k | CClose _ k | CPost k | CSemWait k | CSemDestroy k => simple k
  | CTry ok er | CPipe _ ok er | CSemInit _ ok er => simple ok /\ simple er
  | CFork ch pa er => simple ch /\ simple pa /\ simple er
  | _ => False
  end.

Fixpoint calls c : nat :=
  match c with
  | CSay _ k | CClose _ k | CPost k | CSemWait k | CSemDestroy k => S (calls k)
  | CTry ok er | CPipe _ ok er | CSemInit _ ok er => S (Nat.max (calls ok) (calls er))
  | CFork ch pa er => S (Nat.max (calls ch + calls pa) (calls er))
  | _ => 1
  end.

Lemma calls_pos c : (0 < calls c)%nat.
Proof. destruct c; cbn; lia. Qed.

Definition calls_of (p : proc L) : nat := if p_over p then 0 else calls (p_code p).
Definition calls_left m : nat := sum_list_with calls_of (m_procs m).
Definition all_simple m : Prop := Forall (fun p => simple (p_code p)) (m_procs m).

Lemma sum_set (g : proc L -> nat) m i p q :
  m_procs m !! i = Some p ->
  (sum_list_with g (m_procs (set_proc i q m)) + g p = sum_list_with g (m_procs m) + g q)%nat.
Proof. apply sum_update. Qed.

Lemma sum_add (g : proc L -> nat) p m :
  sum_list_with g (m_procs (add_proc p m)) = (sum_list_with g (m_procs m) + g p)%nat.
Proof. cbn. rewrite sum_list_with_app. cbn. lia. Qed.

(** A step: process [i] goes on with code that has fewer calls left, and may have
    forked. *)
Definition goes_on m i p m' : Prop :=
  exists q, m_procs m' = m_procs (set_proc i q m) /\ simple (p_code q) /\ (calls_of q < calls (p_code p))%nat.
Definition forks m i p m' : Prop :=
  exists ch q, m_procs m' = m_procs (set_proc i q m) ++ [ch] /\ simple (p_code q) /\ simple (p_code ch) /\
    (calls_of q + calls_of ch < calls (p_code p))%nat.

Ltac goes q Ho Hc :=
  exists q; split; [reflexivity|]; unfold calls_of; cbn; rewrite ?Ho, ?Hc; cbn;
  repeat split; (tauto || lia).

Ltac goes_wrong p Ho Hc :=
  match goal with |- context[CStop (Broken ?f)] => goes (with_code (CStop (Broken f)) p) Ho Hc end.

Lemma simple_advance m i p fails m' :
  m_procs m !! i = Some p -> simple (p_code p) -> advance m i fails = Some m' ->
  p_over p = false /\ (goes_on m i p m' \/ forks m i p m').
Proof.
  intros Hi Hp Ha. unfold advance in Ha. rewrite Hi in Ha. cbn [mbind option_bind] in Ha.
  destruct (p_over p) eqn:Ho; [done|]. split; [done|]. unfold goes_on, forks.
  destruct (p_code p) as [o| |l k|ok er|n ok er|ch pa er|d k|d data k|d n k|k|v ok er|k|k|k] eqn:Hc; try done; cbn in Hp.
  - left. injection Ha as <-. goes (ended p) Ho Hc.
  - left. injection Ha as <-. goes (with_code k p) Ho Hc.
  - left. destruct fails; injection Ha as <-; [goes (with_code er p) Ho Hc|goes (with_code ok p) Ho Hc].
  - left. destruct fails; injection Ha as <-; [goes (with_code er p) Ho Hc|].
    goes (with_code ok (with_fds ({[(n, Rd); (n, Wr)]} ∪ p_fds p) p)) Ho Hc.
  - destruct fails; injection Ha as <-; [left; goes (with_code er p) Ho Hc|right].
    exists (mkProc ch (p_fds p) (Some i) false false). goes (with_code pa p) Ho Hc.
  - left. injection Ha as <-. goes (with_code k (with_fds (p_fds p ∖ {[d]}) p)) Ho Hc.
  - left. destruct fails; injection Ha as <-; [goes (with_code er p) Ho Hc|goes (with_code ok p) Ho Hc].
  - left. pose proof (calls_pos k). destruct (m_sem m) as [|v|]; injection Ha as <-;
      [goes_wrong p Ho Hc|goes (with_code k p) Ho Hc|goes_wrong p Ho Hc].
  - left. pose proof (calls_pos k). destruct (m_sem m) as [|v|]; [|destruct (0 <? v); [|done]|]; injection Ha as <-;
      [goes_wrong p Ho Hc|goes (with_code k p) Ho Hc|goes_wrong p Ho Hc].
  - left. pose proof (calls_pos k). destruct (m_sem m) as [|v|]; injection Ha as <-;
      [goes_wrong p Ho Hc|goes (with_code k p) Ho Hc|goes_wrong p Ho Hc].
Qed.

Lemma simple_step m i fails m' :
  all_simple m -> advance m i fails = Some m' -> all_simple m' /\ (calls_left m' < calls_left m)%nat.
Proof.
  intros Hall Ha. destruct (m_procs m !! i) as [p|] eqn:Hi; [|unfold advance in Ha; by rewrite Hi in Ha].
  destruct (simple_advance m i p fails m' Hi (Forall_lookup_1 _ _ _ _ Hall Hi) Ha)
    as [Ho [(q & Hm & Hq & Hlt)|(ch & q & Hm & Hq & Hch & Hlt)]];
    unfold all_simple, calls_left; rewrite Hm; pose proof (sum_set calls_of m i p q Hi) as Hs;
    unfold calls_of in Hs at 2; rewrite Ho in Hs.
  - split; [by apply Forall_insert|lia].
  - split; [apply Forall_app; split; [by apply Forall_insert|by apply Forall_singleton]|].
    rewrite sum_list_with_app. cbn [sum_list_with]. lia.
Qed.

Lemma simple_steps m k m' :
  all_simple m -> nsteps step k m m' -> all_simple m' /\ (k + calls_left m' <= calls_left m)%nat.
Proof.
  intros Hall Hk. revert Hall. induction Hk as [m|k m m1 m2 (i & fails & Ha) _ IH]; intros Hall; [done|].
  destruct (simple_step m i fails m1 Hall Ha) as [Hall1 Hlt]. destruct (IH Hall1) as [Hall2 Hle].
  split; [done|lia].
Qed.

Lemma simple_bounded c k m : simple c -> nsteps step k (boot c) m -> (k <= calls c)%nat.
Proof.
  intros Hc Hk. destruct (simple_steps (boot c) k m) as [_ Hle]; [by apply Forall_singleton|done|].
  unfold calls_left in Hle at 2. cbn in Hle. lia.
Qed.
End Bounds.
