(* ===== verification/ForkTheorems.v ===== *)
(** * ForkTheorems: how many processes net/fork.cpp makes

    Each round of the loop doubles the processes, because the children go on with
    it.  What the code of a process can still become is counted by recursion on
    the code; a step keeps the sum over the processes. *)

From stdpp Require Import relations.
From S2P Require Import Prelude Processes ProcessPrograms ProcessBounds.
Import Fork.

Implicit Types (c : code line) (m : machine line).

(** Code that only prints, forks and exits. *)
Fixpoint plain c : Prop :=
  match c with
  | CStop (Exited 0) => True
  | CSay _ k => plain k
  | CFork ch pa er => plain ch /\ plain pa /\ plain er
  | _ => False
  end.

(** The processes it becomes and the lines these print, counted with a weight,
    when no [fork] fails. *)
Fixpoint family c : nat :=
  match c with CSay _ k => family k | CFork ch pa _ => family ch + family pa | _ => 1 end.
Fixpoint says (g : line -> nat) c : nat :=
  match c with CSay l k => g l + says g k | CFork ch pa _ => says g ch + says g pa | _ => 0 end.
Definition families m : nat := sum_list_with (fun p => family (p_code p)) (m_procs m).
Definition printed (g : line -> nat) m : nat := sum_list_with (fun x => g x.2) (m_out m).
Definition left_to_say (g : line -> nat) m : nat := sum_list_with (fun p => says g (p_code p)) (m_procs m).

(** The lines that end with "<<<"; all lines. *)
Definition is_end (l : line) : nat := match l with PidEnd => 1 | _ => 0 end.
Definition any_line (_ : line) : nat := 1.

Lemma printed_all m : printed any_line m = length (m_out m).
Proof. unfold printed. induction (m_out m) as [|x l IH]; [done|]. cbn. by rewrite IH. Qed.

Definition plain_proc (p : proc line) : Prop :=
  plain (p_code p) /\ (p_over p = true -> exists o, p_code p = CStop o).
Definition all_plain m : Prop := Forall plain_proc (m_procs m).

Lemma loop_counts n loop :
  plain (fork_loop n loop) /\ family (fork_loop n loop) = (2 ^ n)%nat /\
  (says is_end (fork_loop n loop) + 2 = 2 ^ S n)%nat /\
  (says any_line (fork_loop n loop) + 5 = 5 * 2 ^ n)%nat /\ (calls (fork_loop n loop) + 6 = 7 * 2 ^ n)%nat.
Proof.
  revert loop. induction n as [|n IH]; intros loop; [done|].
  destruct (IH (S loop)) as (H1 & H2 & H3 & H4 & H5).
  cbn -[Nat.pow Nat.max] in *. rewrite !Nat.pow_succ_r' in *. split_and!; try done; lia.
Qed.

(** ** One step *)

(** The calls of plain code. *)
Lemma plain_advance m i fails m' p :
  all_plain m -> m_procs m !! i = Some p -> advance m i fails = Some m' ->
  (exists o, p_code p = CStop o /\ p_over p = false /\ m' = set_proc i (ended p) m) \/
  (exists l k, p_code p = CSay l k /\ p_over p = false /\ plain k /\
     m' = add_out i l (set_proc i (with_code k p) m)) \/
  (exists ch pa er, p_code p = CFork ch pa er /\ p_over p = false /\ plain ch /\ plain pa /\ plain er /\
     m' = if fails then set_proc i (with_code er p) m
          else add_proc (mkProc ch (p_fds p) (Some i) false false) (set_proc i (with_code pa p) m)).
Proof.
  intros Hall Hi Ha. destruct (Forall_lookup_1 _ _ _ _ Hall Hi) as [Hp _].
  unfold advance in Ha. rewrite Hi in Ha. cbn [mbind option_bind] in Ha.
  destruct (p_over p); [done|]. destruct (p_code p); try done.
  - left. injection Ha as <-. by eexists.
  - right. left. injection Ha as <-. by do 2 eexists.
  - right. right. destruct Hp as (? & ? & ?). do 3 eexists. split_and!; [done..|]. by destruct fails; injection Ha.
Qed.

Lemma plain_kept m i fails m' : all_plain m -> advance m i fails = Some m' -> all_plain m'.
Proof.
  intros Hall Ha. destruct (m_procs m !! i) as [p|] eqn:Hi; [|unfold advance in Ha; by rewrite Hi in Ha].
  assert (forall q, plain_proc q -> Forall plain_proc (<[i := q]> (m_procs m))) as Hset
    by (intros q Hq; by apply Forall_insert).
  destruct (plain_advance m i fails m' p Hall Hi Ha)
    as [(o & Hc & _ & ->)|[(l & k & Hc & Ho & Hk & ->)|(ch & pa & er & Hc & Ho & Hch & Hpa & Her & ->)]].
  - apply Hset. split; [by apply (Forall_lookup_1 _ _ _ _ Hall Hi)|]. intros _. by exists o.
  - apply Hset. split; [done|]. cbn. congruence.
  - destruct fails; [apply Hset; split; [done|cbn; congruence]|].
    unfold all_plain. cbn [m_procs add_proc set_proc]. apply Forall_app. split; [|by apply Forall_singleton].
    apply Hset. split; [done|]. cbn. congruence.
Qed.

Lemma step_counts g m i m' :
  all_plain m -> advance m i false = Some m' ->
  families m' = families m /\ (printed g m' + left_to_say g m' = printed g m + left_to_say g m)%nat.
Proof.
  intros Hall Ha. destruct (m_procs m !! i) as [p|] eqn:Hi; [|unfold advance in Ha; by rewrite Hi in Ha].
  unfold families, left_to_say, printed.
  pose proof (fun q => sum_set (fun p => family (p_code p)) m i p q Hi) as Hf.
  pose proof (fun q => sum_set (fun p => says g (p_code p)) m i p q Hi) as He.
  destruct (plain_advance m i false m' p Hall Hi Ha)
    as [(o & Hc & _ & ->)|[(l & k & Hc & _ & _ & ->)|(ch & pa & er & Hc & _ & _ & _ & _ & ->)]].
  - specialize (Hf (ended p)). specialize (He (ended p)). cbn in *. lia.
  - specialize (Hf (with_code k p)). specialize (He (with_code k p)). cbn in *. rewrite Hc in *. cbn in *.
    rewrite sum_list_with_app. cbn. lia.
  - rewrite !sum_add. specialize (Hf (with_code pa p)). specialize (He (with_code pa p)).
    cbn in *. rewrite Hc in *. cbn in *. lia.
Qed.

Lemma plain_simple c : plain c -> simple c.
Proof. induction c; cbn; naive_solver. Qed.

(** ** Executions *)

(** A step in which no call fails. *)
Definition good_step m m' : Prop := exists i, advance m i false = Some m'.

Lemma steps_plain m k m' :
  all_plain m -> nsteps step k m m' -> all_plain m'.
Proof.
  intros Hall Hk. revert Hall. induction Hk as [m|k m m1 m2 (i & fails & Ha) _ IH]; intros Hall; [done|].
  by apply IH, (plain_kept m i fails m1).
Qed.

Lemma good_steps_count g m m' :
  all_plain m -> rtc good_step m m' ->
  all_plain m' /\ families m' = families m /\
  (printed g m' + left_to_say g m' = printed g m + left_to_say g m)%nat.
Proof.
  intros Hall Hr. revert Hall. induction Hr as [m|m m1 m2 [i Ha] _ IH]; intros Hall; [done|].
  destruct (IH (plain_kept m i false m1 Hall Ha)) as (Hall2 & Hf & He).
  destruct (step_counts g m i m1 Hall Ha) as [Hf1 He1]. split; [done|]. lia.
Qed.

(** Where plain code stops, everybody has exited. *)
Lemma plain_stuck m : all_plain m -> stuck m -> Forall (over_with (Exited 0)) (m_procs m).
Proof.
  intros Hall Hs. apply Forall_lookup_2. intros i p Hi.
  destruct (Forall_lookup_1 _ _ _ _ Hall Hi) as [Hp Hover]. specialize (Hs i true).
  unfold advance in Hs. rewrite Hi in Hs. cbn [mbind option_bind] in Hs. unfold over_with.
  destruct (p_over p) eqn:Ho; [|by destruct (p_code p)].
  destruct (Hover eq_refl) as [o Hc]. rewrite Hc in *. by destruct o as [[]| |].
Qed.

Lemma over_counts g l :
  Forall (over_with (Exited 0)) l ->
  sum_list_with (fun p => family (p_code p)) l = length l /\ sum_list_with (fun p => says g (p_code p)) l = 0%nat.
Proof.
  induction 1 as [|p l [_ Hc] _ [IH1 IH2]]; [done|]. cbn. rewrite Hc, IH1, IH2. done.
Qed.

(** What has been printed and what is left is what there was to print. *)
Lemma all_said g c m :
  plain c -> rtc good_step (boot c) m -> Forall (over_with (Exited 0)) (m_procs m) ->
  length (m_procs m) = family c /\ printed g m = says g c.
Proof.
  intros Hc Hgood Hover. assert (all_plain (boot c)) as Hall by (apply Forall_singleton; by split).
  destruct (good_steps_count g _ _ Hall Hgood) as (_ & Hf & He). destruct (over_counts g _ Hover) as [Hl Hz].
  unfold families, left_to_say, printed in *. cbn in Hf, He. lia.
Qed.

(** C28: fork.cpp with a loop of [n] rounds (main has [MAX_PID_CNT], two) always
    ends, after at most 7 * 2^n - 6 calls of all its processes together, and when
    no [fork] fails there are then 2^n processes, all exited with status 0, which
    have printed 5 * 2^n - 5 lines, 2^(n+1) - 2 of them those that end with "<<<":
    the children go on with the loop instead of leaving it. *)
Theorem fork_doubles n m k :
  nsteps step k (boot (fork_loop n 0)) m ->
  (k + 6 <= 7 * 2 ^ n)%nat /\
  (stuck m -> Forall (over_with (Exited 0)) (m_procs m)) /\
  (stuck m -> rtc good_step (boot (fork_loop n 0)) m ->
     length (m_procs m) = (2 ^ n)%nat /\ (length (m_out m) + 5 = 5 * 2 ^ n)%nat /\
     (printed is_end m + 2 = 2 ^ S n)%nat).
Proof.
  intros Hk. destruct (loop_counts n 0) as (Hplain & Hfam & Hends & Hlines & Hcalls).
  assert (all_plain (boot (fork_loop n 0))) as Hall by (apply Forall_singleton; by split).
  pose proof (steps_plain _ _ _ Hall Hk) as Hall'.
  pose proof (simple_bounded _ _ _ (plain_simple _ Hplain) Hk) as Hle. split; [lia|].
  split; [by apply plain_stuck|]. intros Hs Hgood. pose proof (plain_stuck m Hall' Hs) as Hover.
  destruct (all_said is_end _ m Hplain Hgood Hover) as [-> ->].
  destruct (all_said any_line _ m Hplain Hgood Hover) as [_ Hp]. rewrite <- printed_all, Hp.
  split_and!; [done|exact Hlines|exact Hends].
Qed.

Definition fork_end : machine line :=
  run_schedule (mjoin (replicate 9 [0; 1; 2; 3]%nat)) (boot (fork_loop MAX_PID_CNT 0)).

Lemma schedule_good sched m : rtc good_step m (run_schedule sched m).
Proof.
  revert m. induction sched as [|i sched IH]; intros m; [constructor|]. cbn.
  destruct (advance m i false) as [m'|] eqn:E; cbn; [|apply IH]. eapply rtc_l; [by exists i|apply IH].
Qed.

Lemma fork_doubles_witness :
  exists k, (k + 6 <= 28)%nat /\ length (m_procs fork_end) = 4%nat /\
    length (m_out fork_end) = 15%nat /\ printed is_end fork_end = 6%nat.
Proof.
  destruct (schedule_steps (mjoin (replicate 9 [0; 1; 2; 3]%nat)) (boot (fork_loop MAX_PID_CNT 0))) as [k Hk].
  destruct (fork_doubles MAX_PID_CNT fork_end k Hk) as (Hle & _ & Hend).
  destruct (Hend (stuck_here_stuck fork_end ltac:(vm_compute; reflexivity)) (schedule_good _ _)) as (Hn & Hl & He).
  exists k. split; [exact Hle|]. split; [exact Hn|].
  change (5 * 2 ^ MAX_PID_CNT)%nat with 20%nat in Hl. change (2 ^ S MAX_PID_CNT)%nat with 8%nat in He. lia.
Defined.
