(* ===== verification/SharedSemTheorems.v ===== *)
(** * SharedSemTheorems: what the semaphore of net/semaphore/a.c protects

    Parent and child print their steps one after the other; and one of them uses
    the semaphore after the other has destroyed it. *)

From stdpp Require Import relations.
From S2P Require Import Prelude Processes ProcessPrograms ProcessBounds.
Import SharedSem.

Implicit Types (c : code line) (m : machine line) (p q : proc line).

(** ** The code, by recursion on its calls *)

(** How much it still adds to the semaphore. *)
Fixpoint balance c : Z :=
  match c with
  | CPost k => balance k + 1
  | CSemWait k => balance k - 1
  | CSay _ k => balance k
  | CFork ch pa _ => balance ch + balance pa
  | _ => 0
  end.

(** It prints no step before its next use of the semaphore. *)
Fixpoint idle c : bool :=
  match c with
  | CSay (Step _ _) _ => false
  | CSay _ k => idle k
  | _ => true
  end.

Definition stops c : bool := match c with CStop _ => true | _ => false end.
Definition destroyed_use : outcome := Broken (misuse SemGone).
Definition uninitialised_use : outcome := Broken (misuse NoSem).

(** It holds the unit of the semaphore wherever it prints steps, none where it
    waits, and never more than one; it ends by destroying the semaphore. *)
Fixpoint fair c : Prop :=
  0 <= balance c /\ (idle c = false -> balance c = 1) /\
  match c with
  | CStop _ => True
  | CSay _ k | CPost k => stops k = false /\ fair k
  | CSemWait k => balance k = 1 /\ stops k = false /\ fair k
  | CSemDestroy k => k = CStop (Exited 0)
  | _ => False
  end.

Lemma fair_balance c : fair c -> 0 <= balance c.
Proof. by destruct c; intros [? _]. Qed.

Lemma fair_holds c : fair c -> idle c = false -> balance c = 1.
Proof. by destruct c; intros (_ & ? & _). Qed.

Lemma child_fair : fair child.
Proof. cbn. repeat split; done || lia. Qed.

Lemma parent_fair : fair parent.
Proof. cbn. repeat split; done || lia. Qed.

(** ** Two processes and a semaphore *)

(** A call of one of them: the semaphore and its code, before and after. *)
Inductive move : semaphore -> code line -> semaphore -> code line -> Prop :=
  | m_stop s o : move s (CStop o) s (CStop o)
  | m_say s l k : move s (CSay l k) s k
  | m_post v k : move (SemValue v) (CPost k) (SemValue (v + 1)) k
  | m_wait v k : 0 < v -> move (SemValue v) (CSemWait k) (SemValue (v - 1)) k
  | m_destroy v k : move (SemValue v) (CSemDestroy k) SemGone k
  | m_misuse s c : (forall v, s <> SemValue v) -> stops c = false -> idle c = true ->
      move s c s (CStop (Broken (misuse s))).

Lemma advance_move m i p fails m' :
  fair (p_code p) -> m_procs m !! i = Some p -> advance m i fails = Some m' ->
  exists q, m_procs m' = <[i := q]> (m_procs m) /\ p_over p = false /\
    (p_over q = true -> stops (p_code q) = true) /\ move (m_sem m) (p_code p) (m_sem m') (p_code q).
Proof.
  intros Hf Hi Ha. unfold advance in Ha. rewrite Hi in Ha. cbn [mbind option_bind] in Ha.
  destruct (p_over p) eqn:Ho; [done|].
  destruct (p_code p) as [o| |l k| | | | | | | | |k|k|k] eqn:Hc; try (by destruct Hf as (_ & _ & [])).
  - injection Ha as <-. exists (ended p). cbn. rewrite Hc. split_and!; [done..|constructor].
  - injection Ha as <-. exists (with_code k p). cbn. rewrite Ho. split_and!; [done..|constructor].
  - destruct (m_sem m) as [|v|] eqn:Hs; injection Ha as <-;
      [exists (with_code (CStop uninitialised_use) p)|exists (with_code k p)|exists (with_code (CStop destroyed_use) p)];
      cbn; rewrite Ho, ?Hs; (split_and!; [done..|by constructor]).
  - destruct (m_sem m) as [|v|] eqn:Hs; [|destruct (0 <? v) eqn:Hv; [|done]|]; injection Ha as <-;
      [exists (with_code (CStop uninitialised_use) p)|exists (with_code k p)|exists (with_code (CStop destroyed_use) p)];
      cbn; rewrite Ho, ?Hs; (split_and!; [done..|constructor; done || lia]).
  - destruct (m_sem m) as [|v|] eqn:Hs; injection Ha as <-;
      [exists (with_code (CStop uninitialised_use) p)|exists (with_code k p)|exists (with_code (CStop destroyed_use) p)];
      cbn; rewrite Ho, ?Hs; (split_and!; [done..|by constructor]).
Qed.

(** Which has exited as it meant to. *)
Definition exits c : nat := match c with CStop (Exited _) => 1 | _ => 0 end.

(** How a process can have ended, given what has become of the semaphore. *)
Definition ending (s : semaphore) c : Prop :=
  match c with
  | CStop o =>
      match s with
      | NoSem => o = uninitialised_use
      | SemValue _ => False
      | SemGone => o = Exited 0 \/ o = destroyed_use
      end
  | _ => True
  end.

Lemma ending_running s c : stops c = false -> ending s c /\ exits c = 0%nat.
Proof. by destruct c. Qed.

Lemma value_running v c : ending (SemValue v) c -> stops c = false.
Proof. by destruct c. Qed.

Definition duo (s : semaphore) c d : Prop :=
  fair c /\ fair d /\ ending s c /\ ending s d /\
  match s with
  | SemValue v => 0 <= v /\ v + balance c + balance d = 1
  | NoSem => idle c = true \/ idle d = true
  | SemGone => (idle c = true \/ idle d = true) /\ (exits c + exits d = 1)%nat
  end.

Lemma duo_sym s c d : duo s c d -> duo s d c.
Proof.
  intros (Hc & Hd & Hec & Hed & Hs). do 4 (split; [done|]). destruct s as [|v|]; [tauto|lia|].
  destruct Hs as [Hi ?]. split; [tauto|lia].
Qed.

Lemma not_both_hold v c d :
  fair c -> fair d -> 0 <= v -> v + balance c + balance d = 1 -> idle c = true \/ idle d = true.
Proof.
  intros Hc Hd Hv Hs. destruct (idle c) eqn:Ec; [by left|]. destruct (idle d) eqn:Ed; [by right|].
  pose proof (fair_holds c Hc Ec). pose proof (fair_holds d Hd Ed). lia.
Qed.

Lemma duo_move s c d s' c' : duo s c d -> move s c s' c' -> duo s' c' d.
Proof.
  intros (Hc & Hd & Hec & Hed & Hs) Hm. destruct Hm as [s o|s l k|v k|v k Hv|v k|s c Hno Hst Hi].
  - done.
  - destruct Hc as (_ & _ & Hst & Hk). destruct (ending_running s k Hst) as [Hek Hx].
    do 4 (split; [done|]). assert (idle (CSay l k) = true -> idle k = true) as Hidle by (cbn; by destruct l).
    destruct s as [|v|]; [tauto|done|]. cbn [exits] in Hs. rewrite Hx. tauto.
  - destruct Hc as (_ & _ & Hst & Hk), Hs as [Hv Hb]. cbn in Hb.
    destruct (ending_running (SemValue (v + 1)) k Hst). apply value_running in Hed.
    destruct (ending_running (SemValue (v + 1)) d Hed). do 4 (split; [done|]). lia.
  - destruct Hc as (_ & _ & _ & Hst & Hk), Hs as [_ Hb]. cbn in Hb.
    destruct (ending_running (SemValue (v - 1)) k Hst). apply value_running in Hed.
    destruct (ending_running (SemValue (v - 1)) d Hed). do 4 (split; [done|]). lia.
  - destruct Hc as (_ & _ & ->). apply value_running in Hed. destruct (ending_running SemGone d Hed) as [? Hx].
    split; [repeat split; auto; done|]. do 2 (split; [done || by left|]). split; [done|].
    split; [by left|]. cbn. by rewrite Hx.
  - destruct (ending_running s c Hst) as [_ Hx].
    split; [repeat split; auto; done|]. split; [done|]. destruct s as [|v|]; [| by edestruct Hno|].
    + do 2 (split; [done|]). by left.
    + split; [by right|]. split; [done|]. split; [by left|]. rewrite Hx in Hs. apply Hs.
Qed.

(** ** The program *)

Definition init_sem : code line := CSemInit 0 after_init (CSay InitFail after_init).

(** Before the fork, or without it. *)
Inductive alone : semaphore -> code line -> Prop :=
  | al_main : alone NoSem main
  | al_init : alone NoSem init_sem
  | al_fail : alone NoSem (CSay InitFail after_init)
  | al_fork s : s = NoSem \/ s = SemValue 0 -> alone s after_init
  | al_finish s : s = NoSem \/ s = SemValue 0 -> alone s finish
  | al_stop s o : s = NoSem \/ s = SemGone -> alone s (CStop o).

Definition over_stops p : Prop := p_over p = true -> stops (p_code p) = true.

Inductive inv m : Prop :=
  | inv_alone p : m_procs m = [p] -> over_stops p -> alone (m_sem m) (p_code p) -> inv m
  | inv_duo p q : m_procs m = [p; q] -> over_stops p -> over_stops q ->
      duo (m_sem m) (p_code p) (p_code q) -> inv m.

Lemma alone_step m p fails m' :
  m_procs m = [p] -> over_stops p -> alone (m_sem m) (p_code p) -> advance m 0 fails = Some m' -> inv m'.
Proof.
  intros Hp Hover Hal Ha. unfold advance in Ha. rewrite Hp in Ha. cbn [lookup list_lookup mbind option_bind] in Ha.
  destruct (p_over p) eqn:Ho; [done|].
  assert (over_stops p -> forall c, over_stops (with_code c p)) as Hnew by (intros _ c; unfold over_stops; cbn; congruence).
  remember (p_code p) as c eqn:Hc. remember (m_sem m) as s eqn:Hs.
  destruct Hal as [| | |s Hs'|s Hs'|s o Hs'].
  - destruct fails; injection Ha as <-; eapply inv_alone; cbn; rewrite ?Hp, <- ?Hs; eauto; constructor; auto.
  - destruct fails; injection Ha as <-; eapply inv_alone; cbn; rewrite ?Hp, <- ?Hs; eauto; constructor; auto.
  - injection Ha as <-. eapply inv_alone; cbn; rewrite ?Hp, <- ?Hs; eauto; constructor; auto.
  - destruct fails; injection Ha as <-.
    + eapply inv_alone; cbn; rewrite ?Hp, <- ?Hs; eauto; by constructor.
    + eapply inv_duo; cbn; rewrite ?Hp, <- ?Hs; eauto; [done|].
      split; [apply parent_fair|]. split; [apply child_fair|]. by destruct Hs' as [-> | ->]; cbn; auto.
  - cbn in Ha. destruct s; injection Ha as <-; eapply inv_alone; cbn; rewrite ?Hp, <- ?Hs; eauto; constructor; auto.
  - injection Ha as <-. eapply (inv_alone _ (ended p)); cbn; rewrite ?Hp, <- ?Hs; [done| |].
    + intros _. cbn. by rewrite <- Hc.
    + rewrite <- Hc. by constructor.
Qed.

Lemma duo_step m p q i fails m' :
  m_procs m = [p; q] -> over_stops p -> over_stops q -> duo (m_sem m) (p_code p) (p_code q) ->
  advance m i fails = Some m' -> inv m'.
Proof.
  intros Hpq Hp Hq Hduo Ha. destruct i as [|[|i]].
  - destruct (advance_move m 0 p fails m') as (p' & Hm & _ & Hp' & Hmove); [apply Hduo|by rewrite Hpq|done|].
    rewrite Hpq in Hm. eapply inv_duo; [exact Hm|done|done|]. by eapply duo_move.
  - destruct (advance_move m 1 q fails m') as (q' & Hm & _ & Hq' & Hmove); [apply Hduo|by rewrite Hpq|done|].
    rewrite Hpq in Hm. eapply inv_duo; [exact Hm|done|done|]. eapply duo_sym, duo_move; [|done]. by apply duo_sym.
  - unfold advance in Ha. by rewrite Hpq in Ha.
Qed.

Lemma shared_step m m' : inv m -> step m m' -> inv m'.
Proof.
  intros [p Hp Ho Hal|p q Hpq Hp Hq Hduo] (i & fails & Ha); [|by eapply duo_step].
  destruct i as [|i]; [by eapply alone_step|]. unfold advance in Ha. by rewrite Hp in Ha.
Qed.

Lemma shared_reachable m : rtc step (boot main) m -> inv m.
Proof.
  intros Hr. assert (inv (boot main)) as Hb by (eapply inv_alone; [done..|constructor]).
  induction Hr as [|m m1 m2 Hs _ IH]; [done|]. apply IH. by eapply shared_step.
Qed.

Lemma alone_idle s c : alone s c -> idle c = true.
Proof. by intros []. Qed.

(** C26: parent and child of a.c exclude each other: in every interleaving, and
    whatever [mmap], [sem_init] and [fork] answer, at most one of them is at a
    point where it will print one of its ten steps before it next uses the
    semaphore. *)
Theorem steps_exclude m i j p q :
  rtc step (boot main) m -> m_procs m !! i = Some p -> m_procs m !! j = Some q ->
  idle (p_code p) = false -> idle (p_code q) = false -> i = j.
Proof.
  intros Hr Hi Hj Hp Hq. destruct (shared_reachable m Hr) as [p0 Hm _ Hal|p0 q0 Hm _ _ (Hc & Hd & Hs)];
    rewrite Hm in Hi, Hj.
  - destruct i, j; try done.
  - assert (idle (p_code p0) = true \/ idle (p_code q0) = true) as Hidle.
    { destruct Hs as (_ & _ & Hs). destruct (m_sem m) as [|v|]; [apply Hs| |apply Hs].
      destruct Hs as [Hv Hb]. by eapply not_both_hold. }
    destruct i as [|[|i]], j as [|[|j]]; try done; simplify_eq/=; destruct Hidle; congruence.
Qed.

(** ** Where it stops *)

Lemma stuck_over m i p :
  stuck m -> m_procs m !! i = Some p -> simple (p_code p) -> (forall v, m_sem m <> SemValue v) -> p_over p = true.
Proof.
  intros Hs Hi Hsimple Hsem. specialize (Hs i true). unfold advance in Hs. rewrite Hi in Hs.
  cbn [mbind option_bind] in Hs. destruct (p_over p); [done|].
  destruct (m_sem m); [|by edestruct Hsem|]; by destruct (p_code p).
Qed.

(** A process of the pair that cannot move while the semaphore has a value waits
    for it. *)
Lemma stuck_waits m i p v :
  stuck m -> m_procs m !! i = Some p -> over_stops p -> fair (p_code p) -> stops (p_code p) = false ->
  m_sem m = SemValue v -> v <= 0 /\ balance (p_code p) = 0.
Proof.
  intros Hs Hi Ho Hf Hst Hsem. specialize (Hs i true). unfold advance in Hs. rewrite Hi, Hsem in Hs.
  cbn [mbind option_bind] in Hs. destruct (p_over p) eqn:E; [by rewrite Ho in Hst|].
  destruct (p_code p); try done; try (by destruct Hf as (_ & _ & [])).
  destruct (0 <? v) eqn:Hv; [done|]. destruct Hf as (_ & _ & Hb & _). cbn. lia.
Qed.

Lemma alone_stuck m p :
  stuck m -> m_procs m = [p] -> over_stops p -> alone (m_sem m) (p_code p) -> p_over p = true.
Proof.
  intros Hs Hm Ho Hal. destruct (p_over p) eqn:E; [done|]. specialize (Hs 0%nat true).
  unfold advance in Hs. rewrite Hm in Hs. cbn in Hs. rewrite E in Hs.
  inversion Hal as [Hx Hx'|Hx Hx'|Hx Hx'|s Hx Hy Hx'|s Hx Hy Hx'|s o Hx Hy Hx']; rewrite <- Hx' in Hs; try done.
  cbn in Hs. by destruct (m_sem m).
Qed.

Lemma main_simple : simple main.
Proof. cbn. tauto. Qed.

(** Both have ended, as what became of the semaphore allows. *)
Lemma duo_over s p q :
  duo s (p_code p) (p_code q) -> p_over p = true -> p_over q = true -> over_stops p -> over_stops q ->
  match s with
  | NoSem => over_with uninitialised_use p /\ over_with uninitialised_use q
  | SemValue _ => False
  | SemGone => (over_with (Exited 0) p /\ over_with destroyed_use q) \/
               (over_with destroyed_use p /\ over_with (Exited 0) q)
  end.
Proof.
  intros (_ & _ & Hep & Heq & Hd) Hpo Hqo Hp Hq. specialize (Hp Hpo). specialize (Hq Hqo). unfold over_with.
  destruct (p_code p); try done. destruct (p_code q); try done. cbn in Hep, Heq.
  destruct s as [|v|]; [by subst|done|]. destruct Hd as [_ Hx].
  destruct Hep as [-> | ->], Heq as [-> | ->]; cbn in Hx; [lia|by left|by right|lia].
Qed.

(** C27: the parent and child of a.c both destroy their one semaphore: every
    interleaving ends, after at most 43 calls, with everybody's end, and when
    there are two processes and [sem_init] succeeded, one of them exits after
    destroying the semaphore and the other has used it after that, were it only
    to destroy it again; if [sem_init] failed, which is only printed, both have
    used a semaphore that was never initialised. *)
Theorem destroyed_semaphore_is_used k m :
  nsteps step k (boot main) m ->
  (k <= 43)%nat /\
  (stuck m ->
     Forall (fun p => p_over p = true) (m_procs m) /\
     ((length (m_procs m) <= 1)%nat \/
      exists p q, m_procs m = [p; q] /\
        match m_sem m with
        | NoSem => over_with (Broken (Undefined OtherUB)) p /\ over_with (Broken (Undefined OtherUB)) q
        | SemValue _ => False
        | SemGone => (over_with (Exited 0) p /\ over_with (Broken (Undefined UseAfterFree)) q) \/
                     (over_with (Broken (Undefined UseAfterFree)) p /\ over_with (Exited 0) q)
        end)).
Proof.
  intros Hk. split; [by apply (simple_bounded main k m main_simple)|]. intros Hs.
  destruct (simple_steps (boot main) k m) as [Hsimple _]; [by apply Forall_singleton, main_simple|done|].
  assert (inv m) as [p Hm Ho Hal|p q Hm Hp Hq Hduo] by (apply shared_reachable, rtc_nsteps; eauto).
  - rewrite Hm. split; [|by left]. apply Forall_singleton. by eapply alone_stuck.
  - assert (forall v, m_sem m <> SemValue v) as Hsem.
    { intros v Hv. destruct Hduo as (Hc & Hd & Hec & Hed & Hb). rewrite Hv in Hec, Hed, Hb.
      apply value_running in Hec, Hed.
      destruct (stuck_waits m 0 p v) as [? ?]; [done|by rewrite Hm|done..|].
      destruct (stuck_waits m 1 q v) as [? ?]; [done|by rewrite Hm|done..|]. lia. }
    unfold all_simple in Hsimple. rewrite Hm in Hsimple. apply Forall_cons in Hsimple as [Hps [Hqs _]%Forall_cons].
    assert (p_over p = true) as Hpo by (by apply (stuck_over m 0); rewrite ?Hm).
    assert (p_over q = true) as Hqo by (by apply (stuck_over m 1); rewrite ?Hm).
    rewrite Hm. split; [by repeat constructor|]. right. exists p, q. split; [done|]. by apply duo_over.
Qed.

(** Everybody takes turns; and a point where the child prints and the parent
    waits. *)
Definition shared_end : machine line := run_schedule (mjoin (replicate 40 [0; 1]%nat)) (boot main).
Definition shared_mid : machine line := run_schedule (replicate 7 0%nat ++ replicate 10 1%nat) (boot main).

Lemma steps_exclude_witness :
  exists p q, m_procs shared_mid = [p; q] /\ idle (p_code q) = false /\ idle (p_code p) = true.
Proof.
  destruct (m_procs shared_mid) as [|p [|q [|r l]]] eqn:E; [vm_compute in E; discriminate..| |vm_compute in E; discriminate].
  assert (idle <$> (p_code <$> m_procs shared_mid) = [true; false]) as Hi by (vm_compute; reflexivity).
  rewrite E in Hi. injection Hi as _ Hq. exists p, q. split; [reflexivity|]. split; [exact Hq|].
  destruct (idle (p_code p)) eqn:Hp; [reflexivity|exfalso].
  destruct (schedule_steps (replicate 7 0%nat ++ replicate 10 1%nat) (boot main)) as [n Hn].
  assert (0 = 1)%nat as Habs; [|lia].
  apply (steps_exclude shared_mid 0 1 p q); [apply rtc_nsteps; exists n; exact Hn|rewrite E; reflexivity..|exact Hp|exact Hq].
Defined.

(** The same with [sem_init] refused. *)
Definition uninitialised_end : machine line :=
  run_schedule (mjoin (replicate 40 [0; 1]%nat)) (default (boot main) (advance (run_schedule [0%nat] (boot main)) 0 true)).

Lemma shared_end_reached : exists k, nsteps step k (boot main) shared_end.
Proof. apply schedule_steps. Qed.

Lemma uninitialised_end_reached : exists k, nsteps step k (boot main) uninitialised_end.
Proof.
  apply rtc_nsteps. transitivity (run_schedule [0%nat] (boot main));
    [apply rtc_nsteps, schedule_steps|].
  eapply rtc_l; [|apply rtc_nsteps, schedule_steps]. exists 0%nat, true. reflexivity.
Qed.

Lemma destroyed_semaphore_is_used_witness :
  (exists p q, m_procs shared_end = [p; q] /\
     ((over_with (Exited 0) p /\ over_with (Broken (Undefined UseAfterFree)) q) \/
      (over_with (Broken (Undefined UseAfterFree)) p /\ over_with (Exited 0) q))) /\
  (exists p q, m_procs uninitialised_end = [p; q] /\
     over_with (Broken (Undefined OtherUB)) p /\ over_with (Broken (Undefined OtherUB)) q).
Proof.
  destruct shared_end_reached as [k Hk], uninitialised_end_reached as [j Hj]. split.
  - destruct (destroyed_semaphore_is_used k shared_end Hk) as [_ Hs].
    destruct (Hs (stuck_here_stuck shared_end ltac:(vm_compute; reflexivity))) as [_ [Hlen|(p & q & Hm & He)]].
    + exfalso. vm_compute in Hlen. lia.
    + exists p, q. split; [exact Hm|]. change (m_sem shared_end) with SemGone in He. exact He.
  - destruct (destroyed_semaphore_is_used j uninitialised_end Hj) as [_ Hs].
    destruct (Hs (stuck_here_stuck uninitialised_end ltac:(vm_compute; reflexivity))) as [_ [Hlen|(p & q & Hm & He)]].
    + exfalso. vm_compute in Hlen. lia.
    + exists p, q. split; [exact Hm|]. change (m_sem uninitialised_end) with NoSem in He. exact He.
Defined.
