(* ===== verification/Stl.v ===== *)
(** * Stl: the container exercise c++/stl.cpp

    A vector is its elements and its capacity, a list and a deque their elements,
    a set its elements in ascending order.  What the C++ standard leaves to the
    library is a parameter: how much a vector allocates, and what [std::remove]
    leaves behind the elements it keeps. *)

From S2P Require Import Prelude Bytes.

Class StdLib := {
  allocated : Z -> Z;                       (* capacity after allocating for n elements *)
  left_over : Z -> list Z -> list Z         (* the rest of the range after std::remove *)
}.
(** What the program prints: the titles, and the containers and numbers. *)
Inductive line :=
  | Title (s : string)
  | Elements (l : list Z)
  | Sizes (size capacity : Z).

Record vec := mkVec { elems : list Z; capacity : Z }.

Record state := mkState { v : vec; l : list Z; s : list Z; out : list line }.

Abbreviation M := (prog state).

(** An iterator of [v] after it has been passed to [erase] is invalid.  A
    [strict] execution faults when it is used; the other takes it for the pointer
    that it is in practice. *)
Record iterator := mkIter { pos : Z; valid : bool }.

Section Program.
Context `{StdLib} (strict : bool).

Definition say (x : line) : M unit := modify (fun st => mkState (v st) (l st) (s st) (out st ++ [x])).
Definition set_v (w : vec) : M unit := modify (fun st => mkState w (l st) (s st) (out st)).

(** Every use of an iterator. *)
Definition use (it : iterator) : M Z :=
  if strict && negb (valid it) then fail (Undefined OtherUB) else mret (pos it).

(** [vec.erase(first, end)] and [vec.erase(it)] *)
Definition erase_to_end (first : Z) : M unit :=
  st ← get_st; set_v (mkVec (take (Z.to_nat first) (elems (v st))) (capacity (v st))).
Definition erase (it : iterator) : M unit :=
  p ← use it;
  st ← get_st;
  assert_storage ((0 <=? p) && (p <? zlen (elems (v st)))) ;;
  set_v (mkVec (delete (Z.to_nat p) (elems (v st))) (capacity (v st))).

(** [std::remove(vec.begin(), vec.end(), x)]: the new end. *)
Definition std_remove (x : Z) : M Z :=
  st ← get_st;
  let kept := filter (.≠ x) (elems (v st)) in
  set_v (mkVec (kept ++ left_over x (elems (v st))) (capacity (v st))) ;;
  mret (zlen kept).

(** Lines 63-69: [for (auto it = vec.begin(); it != vec.end();)] *)
Fixpoint erase_loop (fuel : nat) (x : Z) (it : iterator) : M unit :=
  match fuel with
  | O => fail OutOfFuel
  | S fuel' =>
      p ← use it;
      st ← get_st;
      if p =? zlen (elems (v st)) then mret tt
      else
        e ← unwrap (Undefined OutOfBounds) (elems (v st) !! Z.to_nat p);
        if decide (e = x) then erase it ;; erase_loop fuel' x (mkIter p false)
        else erase_loop fuel' x (mkIter (p + 1) (valid it))
  end.

(** [l.remove(x)] *)
Definition list_remove (x : Z) : M unit :=
  modify (fun st => mkState (v st) (filter (.≠ x) (l st)) (s st) (out st)).

(** [std::vector<int>(vec.begin(), vec.end()).swap(vec)] *)
Definition shrink : M unit :=
  st ← get_st; set_v (mkVec (elems (v st)) (allocated (zlen (elems (v st))))).

(** [vec.reserve(n)] *)
Definition reserve (n : Z) : M unit :=
  st ← get_st;
  when_ (capacity (v st) <? n) (set_v (mkVec (elems (v st)) (allocated n))).

(** [std::set::insert] *)
Fixpoint set_insert (x : Z) (t : list Z) : list Z :=
  match t with
  | [] => [x]
  | y :: t' => if x <? y then x :: t else if x =? y then t else y :: set_insert x t'
  end.

Definition say_vec : M unit := say (Title "vec :") ;; st ← get_st; say (Elements (elems (v st))).
Definition say_list : M unit := say (Title "list :") ;; st ← get_st; say (Elements (l st)).
Definition say_sizes : M unit := st ← get_st; say (Sizes (zlen (elems (v st))) (capacity (v st))).

Definition initial : list Z := [1; 1; 2; 2; 3; 3; 4; 4; 5; 6].

(** The declarations and the loop of lines 34-42. *)
Definition start : state :=
  mkState (mkVec initial (allocated (zlen initial))) initial
    (foldl (fun t i => set_insert (Z.of_nat i) t) [] (seq 0 11)) [].

Definition main (fuel : nat) : M unit :=
  say_vec ;; say_list ;;
  say (Title "set :") ;; st ← get_st; say (Elements (s st)) ;;
  e ← std_remove 3; erase_to_end e ;;
  say (Title "vec erase 3") ;; say_vec ;;
  say (Title "vec erase 4") ;; erase_loop fuel 4 (mkIter 0 true) ;;
  say_vec ;;
  say (Title "list erase 3") ;; list_remove 3 ;; say_list ;;
  say_sizes ;; shrink ;; say_sizes ;; reserve 100 ;; say_sizes ;;
  set_v (mkVec [] (allocated 0)) ;; say_sizes.
End Program.
