(* ===== verification/StlTheorems.v ===== *)
(** * StlTheorems: erasing from a vector, three ways *)

From S2P Require Import Prelude Bytes Stl.

Section Theorems.
Context `{StdLib}.

Definition with_elems (l' : list Z) (st : state) : state :=
  mkState (mkVec l' (capacity (v st))) (l st) (s st) (out st).

(** The element after [pre]. *)
Lemma at_element pre e post (l0 : list Z) :
  l0 = pre ++ e :: post ->
  (zlen pre =? zlen l0) = false /\ l0 !! Z.to_nat (zlen pre) = Some e /\
  ((0 <=? zlen pre) && (zlen pre <? zlen l0)) = true.
Proof.
  intros ->. rewrite zlen_app. unfold zlen. rewrite Nat2Z.id. cbn [length]. split_and!.
  - apply Z.eqb_neq. lia.
  - by rewrite lookup_app_r, Nat.sub_diag.
  - apply andb_true_iff. split; [apply Z.leb_le|apply Z.ltb_lt]; lia.
Qed.

(** The loop in front of the rest [post] of the vector, [pre] behind it. *)
Lemma erase_loop_from x pre post b fuel st :
  elems (v st) = pre ++ post -> (length post < fuel)%nat ->
  runs (erase_loop false fuel x (mkIter (zlen pre) b)) st (fun _ st' =>
    st' = with_elems (pre ++ filter (.≠ x) post) st).
Proof.
  revert pre b fuel st. induction post as [|e post IH]; intros pre b fuel st Hst Hfuel;
    (destruct fuel as [|fuel]; [cbn in Hfuel; lia|]); cbn [erase_loop]; unfold use; cbn [andb]; run_steps; cbn [pos].
  - replace ((zlen pre =? zlen (elems (v st)))) with true by (rewrite Hst, app_nil_r; by rewrite Z.eqb_refl).
    rewrite runs_ret, filter_nil, <- Hst. by destruct st as [[] ? ? ?].
  - destruct (at_element pre e post _ Hst) as (E1 & E2 & E3). rewrite E1.
    rewrite runs_bind, runs_unwrap. exists e. split; [exact E2|]. rewrite filter_cons. cbn [length] in Hfuel.
    case_decide as Hx.
    + subst e. rewrite decide_False by tauto. unfold erase, use; cbn [andb]. run_steps. cbn [pos].
      rewrite E3.
      cbn [assert_storage]. unfold set_v. run_steps.
      eapply runs_mono; [apply IH; [|lia]|].
      * cbn. rewrite Hst. unfold zlen. rewrite Nat2Z.id.
        rewrite delete_middle. done.
      * cbn. by intros _ st' ->.
    + rewrite decide_True by done. cbn [pos valid].
      replace (zlen pre + 1) with (zlen (pre ++ [e])) by (rewrite zlen_app; done).
      eapply runs_mono; [apply IH; [by rewrite <- app_assoc|lia]|]. cbn. intros _ st' ->.
      by rewrite <- app_assoc.
Qed.

(** Three ways of erasing every [x]: [erase] of what [std::remove] leaves, the
    loop that erases one element at a time, and [list::remove] all keep the other
    elements in their order, whatever [std::remove] leaves behind the new end; the
    capacity does not change, and the loop ends after one round per element. *)
Theorem erasing_filters x st fuel :
  (length (elems (v st)) < fuel)%nat ->
  runs (e ← std_remove x; erase_to_end e) st
    (fun _ st' => st' = with_elems (filter (.≠ x) (elems (v st))) st) /\
  runs (erase_loop false fuel x (mkIter 0 true)) st
    (fun _ st' => st' = with_elems (filter (.≠ x) (elems (v st))) st) /\
  runs (list_remove x) st (fun _ st' => st' = mkState (v st) (filter (.≠ x) (l st)) (s st) (out st)).
Proof.
  intros Hfuel. split; [|split; [|done]].
  - unfold std_remove, erase_to_end, set_v. run_steps. cbn. unfold with_elems. do 2 f_equal.
    unfold zlen. rewrite Nat2Z.id. apply take_app_length.
  - by apply (erase_loop_from x []).
Qed.

(** The strict loop after it has erased: [it] is used again. *)
Lemma erase_loop_strict x pre post fuel st :
  elems (v st) = pre ++ post -> x ∈ post -> (length post < fuel)%nat ->
  ends (erase_loop true fuel x (mkIter (zlen pre) true)) st (Undefined OtherUB).
Proof.
  revert pre fuel st. induction post as [|e post IH]; intros pre fuel st Hst Hx Hfuel; [by apply not_elem_of_nil in Hx|].
  destruct fuel as [|fuel]; [cbn in Hfuel; lia|]. cbn [length] in Hfuel.
  destruct (at_element pre e post _ Hst) as (E1 & E2 & E3).
  unfold ends. cbn [erase_loop]. unfold use, mbind, prog_bind. cbn -[zlen Z.to_nat lookup].
  rewrite E1. cbn -[zlen Z.to_nat lookup]. rewrite E2. cbn -[zlen Z.to_nat lookup].
  case_decide as Hex.
  - unfold erase, use, mbind, prog_bind. cbn -[zlen Z.to_nat lookup]. rewrite E3. cbn. destruct fuel; [lia|done].
  - apply elem_of_cons in Hx as [Hx|Hx]; [congruence|].
    replace (zlen pre + 1) with (zlen (pre ++ [e])) by (rewrite zlen_app; done).
    apply IH; [by rewrite <- app_assoc|done|lia].
Qed.

(** The loop is undefined by the standard as soon as it erases: [erase]
    invalidates the iterator, which the next round compares and reads. *)
Theorem erase_loop_is_undefined x st fuel :
  x ∈ elems (v st) -> (length (elems (v st)) < fuel)%nat ->
  ends (erase_loop true fuel x (mkIter 0 true)) st (Undefined OtherUB).
Proof. intros Hx Hfuel. by apply (erase_loop_strict x [] (elems (v st))). Qed.

Ltac go := repeat (run_step; cbn [v l s out elems capacity]).

(** What stl.cpp prints, when the capacity after [reserve(100)] is [reserved]. *)
Definition printed (reserved : Z) : list line :=
    [Title "vec :"; Elements initial; Title "list :"; Elements initial;
     Title "set :"; Elements [0; 1; 2; 3; 4; 5; 6; 7; 8; 9; 10];
     Title "vec erase 3"; Title "vec :"; Elements [1; 1; 2; 2; 4; 4; 5; 6];
     Title "vec erase 4"; Title "vec :"; Elements [1; 1; 2; 2; 5; 6];
     Title "list erase 3"; Title "list :"; Elements [1; 1; 2; 2; 4; 4; 5; 6];
     Sizes 6 (allocated 10); Sizes 6 (allocated 6);
     Sizes 6 reserved; Sizes 0 (allocated 0)].

(** The output of stl.cpp, where only the capacities depend on the library. *)
Theorem stl_output :
  runs (main false 9) start (fun _ st' =>
    out st' = printed (if allocated 6 <? 100 then allocated 100 else allocated 6)).
Proof.
  unfold main, say_vec, say_list, say_sizes, say, reserve, shrink, list_remove, std_remove, erase_to_end, set_v.
  go.
  eapply runs_mono; [apply (erase_loop_from 4 [] [1; 1; 2; 2; 4; 4; 5; 6]); [reflexivity|vm_compute; lia]|cbn beta].
  intros _ st ->. change ([] ++ _) with [1; 1; 2; 2; 5; 6]. unfold with_elems. go. rewrite runs_when. cbn [v capacity].
  change (zlen [1; 1; 2; 2; 5; 6]) with 6. destruct (allocated 6 <? 100); go; vm_compute; reflexivity.
Qed.
End Theorems.

(** A library that allocates exactly and moves the kept elements to the front. *)
#[local] Instance exact_library : StdLib := {
  allocated n := n;
  left_over x l := drop (length (filter (.≠ x) l)) l
}.

Lemma erasing_filters_witness :
  runs (e ← std_remove 3; erase_to_end e) start
    (fun _ st' => st' = with_elems [1; 1; 2; 2; 4; 4; 5; 6] start) /\
  runs (erase_loop false 11 4 (mkIter 0 true)) start
    (fun _ st' => st' = with_elems [1; 1; 2; 2; 3; 3; 5; 6] start).
Proof.
  split.
  - exact (proj1 (erasing_filters 3 start 11 ltac:(vm_compute; lia))).
  - exact (proj1 (proj2 (erasing_filters 4 start 11 ltac:(vm_compute; lia)))).
Defined.

Lemma erase_loop_is_undefined_witness :
  ends (erase_loop true 11 4 (mkIter 0 true)) start (Undefined OtherUB).
Proof.
  apply erase_loop_is_undefined; [|vm_compute; lia].
  apply (bool_decide_unpack _). vm_compute. exact I.
Defined.
