(* ===== verification/Datagram.v ===== *)
(** * Datagram: the UDP programs net/udp/udpconnectcli.cpp, udpcli.cpp and udpserv.cpp

    The kernel answers the calls on the datagram socket; [inet_ntop] and the
    standard input are parameters too.  Buffers are lists of bytes with their C
    size, so that every write is checked against it. *)

From S2P Require Import Prelude Bytes Kernel.

(** ** Text *)

Definition digit (n : Z) : byte := byte_of_Z (48 + n).

(** The digits of [n], which has at most [fuel] of them. *)
Fixpoint digits (fuel : nat) (n : Z) : list byte :=
  match fuel with
  | O => []
  | S fuel' => (if n <? 10 then [] else digits fuel' (n / 10)) ++ [digit (n mod 10)]
  end.

(** [%d] of an [int]: ten digits and a sign are enough. *)
Definition decimal (n : Z) : list byte :=
  if n <? 0 then Byte.x2d :: digits 10 (- n) else digits 10 n.

(** ** The kernel's side *)

Inductive dcall : Type -> Type :=
  | DSocket : dcall Z
  | DReuseAddr (fd : Z) : dcall unit
  | DRcvBuf (fd n : Z) : dcall unit
  | DBind (fd : Z) (addr : sockaddr_in) : dcall unit
  | DConnect (fd : Z) (addr : sockaddr_in) : dcall unit
  | DGetsockname (fd : Z) : dcall sockaddr_in
  | DSend (fd : Z) (data : list byte) : dcall Z
  | DSendTo (fd : Z) (data : list byte) (addr : sockaddr_in) : dcall Z
  | DRecv (fd n : Z) : dcall (list byte)
  | DClose (fd : Z) : dcall unit.

Class DatagramKernel (K : Type) := d_exec : forall A, dcall A -> K -> sysres A * K.
Arguments d_exec {K _ A} c k.

(** The datagram is cut to the size of the buffer; the family of a name is a
    [sa_family_t]. *)
Class DatagramLaws (K : Type) `{DatagramKernel K} := {
  law_drecv fd n k data : 0 <= n -> (d_exec (DRecv fd n) k).1 = SysOk data -> zlen data <= n;
  law_name fd k addr : (d_exec (DGetsockname fd) k).1 = SysOk addr -> 0 <= sin_family addr < two16
}.

(** The text of an IPv4 address. *)
Class InetNtop := inet_ntop : Z -> list byte.
Class InetNtopLaws `{InetNtop} := {
  law_ntop_text addr : nonzero (inet_ntop addr);
  law_ntop_length addr : zlen (inet_ntop addr) <= 15    (* 255.255.255.255 *)
}.
Class InetAddress := inet_aton : list byte -> option Z.

(** ** The programs' state *)

Inductive line :=
  | ArgNotEnough | SocketError | Input (text : list byte) | InputPrompt | ConnectErr | SocketNameError
  | Address (text : list byte) (len : Z)
  | WriteError | Errno | ReadError | Received (text : list byte) | Closed
  | SockError | OptionError | BindError | OptSetError | OptGetError | ServStart | RecvBuf (n len : Z) | Receive (count : Z).

Record dstate (K : Type) := DState {
  d_kernel : K;
  d_str : list byte;            (* static char str[128] *)
  d_input : list (list byte);   (* the lines still to be read from cin *)
  d_out : list line
}.
Arguments DState {K}.
Arguments d_kernel {K}.
Arguments d_str {K}.
Arguments d_input {K}.
Arguments d_out {K}.

Section Programs.
Context {K : Type} `{DatagramKernel K} `{InetNtop} `{InetAddress} `{Host}.
Implicit Type s : dstate K.
Abbreviation M := (prog (dstate K)).

Definition say (x : line) : M unit :=
  modify (fun s => DState (d_kernel s) (d_str s) (d_input s) (d_out s ++ [x])).
Definition set_str (str : list byte) : M unit :=
  modify (fun s => DState (d_kernel s) str (d_input s) (d_out s)).

Definition dsys {A} (c : dcall A) : M (sysres A) := fun s =>
  let '(r, k) := d_exec c (d_kernel s) in Ok (r, DState k (d_str s) (d_input s) (d_out s)).

(** [snprintf(buf, sizeof(buf), ...)] with this output. *)
Definition snprintf (buf text : list byte) : result (list byte) :=
  mem_write 0 (take (length buf - 1) text ++ [Byte.x00]) buf.

(** [strcat(dst, src)]: both must be terminated and the result fit. *)
Definition strcat (dst src : list byte) : result (list byte) :=
  match c_string dst, c_string src with
  | Some d, Some t => mem_write (zlen d) (t ++ [Byte.x00]) dst
  | _, _ => Err (Undefined OutOfBounds)
  end.

(** "sock_ntop: unknown AF_xxx: %d, len %d" *)
Definition unknown_text : list byte :=
  [Byte.x73; Byte.x6f; Byte.x63; Byte.x6b; Byte.x5f; Byte.x6e; Byte.x74; Byte.x6f; Byte.x70; Byte.x3a; Byte.x20;
   Byte.x75; Byte.x6e; Byte.x6b; Byte.x6e; Byte.x6f; Byte.x77; Byte.x6e; Byte.x20;
   Byte.x41; Byte.x46; Byte.x5f; Byte.x78; Byte.x78; Byte.x78; Byte.x3a; Byte.x20].
Definition len_text : list byte := [Byte.x2c; Byte.x20; Byte.x6c; Byte.x65; Byte.x6e; Byte.x20].

(** Lines 13-35, for any contents [portstr0] of the uninitialised [portstr]:
    [str], or [None] for a null pointer. *)
Definition sock_ntop (portstr0 : list byte) (sa : sockaddr_in) (salen : Z) : M (option (list byte)) :=
  s ← get_st;
  let str := d_str s in
  if sin_family sa =? AF_INET then
    let text := inet_ntop (sin_addr sa) in
    if zlen str <? zlen text + 1 then mret None            (* ENOSPC *)
    else
      str ← lift (mem_write 0 (text ++ [Byte.x00]) str);
      (if negb (ntohs (sin_port sa) =? 0) then
         portstr ← lift (snprintf portstr0 (Byte.x3a :: decimal (ntohs (sin_port sa))));
         str ← lift (strcat str portstr);
         set_str str
       else set_str str) ;;
      s ← get_st; mret (Some (d_str s))
  else
    str ← lift (snprintf str (unknown_text ++ decimal (sin_family sa) ++ len_text ++ decimal (int32 salen)));
    set_str str ;; mret (Some str).

(** Printing a [char*]. *)
Definition print_ptr (p : option (list byte)) (f : list byte -> line) : M unit :=
  str ← unwrap (Undefined NullDeref) p;
  text ← unwrap (Undefined OutOfBounds) (c_string str);
  say (f text).

(** ** net/udp/udpconnectcli.cpp *)

Definition MAXLEN : Z := 256.

(** [cin.getline(sendbuf, MAXLEN)] into zeros: at most 255 bytes of a line.  At
    the end of the input, and for ever after a longer line, it stores nothing. *)
Definition getline (buf : list byte) : M (list byte) :=
  s ← get_st;
  match d_input s with
  | [] => mret buf
  | text :: rest =>
      let rest := if zlen text <=? MAXLEN - 1 then rest else [] in
      modify (fun s => DState (d_kernel s) (d_str s) rest (d_out s)) ;;
      lift (mem_write 0 (take (Z.to_nat (MAXLEN - 1)) text ++ [Byte.x00]) buf)
  end.

(** One round of lines 56-83, for the socket and the server; what lies in the
    uninitialised [portstr], [cliaddr] and [len] is [garbage].  [false]: exit(1). *)
Record garbage := Garbage { g_portstr : list byte; g_cliaddr : sockaddr_in; g_len : Z }.

(** Lines 68-72.  The kernel writes as many bytes of the name as [len] says, all
    of it or only a part, which any [g_cliaddr] stands for. *)
Definition own_name (g : garbage) (sockfd : Z) : M (sockaddr_in * Z) :=
  name ← dsys (DGetsockname sockfd);
  when_ (ret_unit name =? -1) (say SocketNameError) ;;
  mret match name with
       | SysOk addr => (if 16 <=? g_len g then addr else g_cliaddr g, 16)
       | SysErr _ => (g_cliaddr g, g_len g)
       end.

Definition round (g : garbage) (sockfd : Z) (servaddr : sockaddr_in) : M bool :=
  say InputPrompt ;;
  sendbuf ← getline (replicate 257 Byte.x00);
  input ← unwrap (Undefined OutOfBounds) (c_string sendbuf);
  say (Input input) ;;
  connected ← dsys (DConnect sockfd servaddr);
  if ret_unit connected =? -1 then say ConnectErr ;; mret false
  else
    '(cliaddr, len) ← own_name g sockfd;
    text ← sock_ntop (g_portstr g) cliaddr len;
    print_ptr text (fun t => Address t len) ;;
    sent ← dsys (DSend sockfd sendbuf);
    when_ (ret_int sent <? 0) (say WriteError) ;;
    say Errno ;;
    received ← dsys (DRecv sockfd MAXLEN);
    recvbuff ← (match received with
                | SysOk data => lift (mem_write 0 data (replicate 257 Byte.x00))
                | SysErr _ => say ReadError ;; mret (replicate 257 Byte.x00)
                end);
    answer ← unwrap (Undefined OutOfBounds) (c_string recvbuff);
    say (Received answer) ;;
    mret true.

(** [ch] never changes, so the loop ends only with exit. *)
Fixpoint rounds (fuel : nat) (g : nat -> garbage) (sockfd : Z) (servaddr : sockaddr_in) : M Z :=
  match fuel with
  | O => fail OutOfFuel
  | S fuel' =>
      go ← round (g fuel') sockfd servaddr;
      if go : bool then rounds fuel' g sockfd servaddr else mret 1
  end.

(** [main] for its arguments after the program's name; [atoi] of the second is
    [port]. *)
Definition main (fuel : nat) (g : nat -> garbage) (argv : list (list byte)) (atoi : list byte -> Z) : M Z :=
  match argv with
  | [] => say ArgNotEnough ;; mret 0
  | host :: rest =>
      sock ← dsys DSocket;
      when_ (ret_int sock <? 0) (say SocketError) ;;
      port ← unwrap (Undefined NullDeref) (head rest);
      let servaddr := SockAddr AF_INET (htons (uint16 (atoi port))) (default 0 (inet_aton host)) in
      rounds fuel g (ret_int sock) servaddr
  end.

(** ** net/udp/udpcli.cpp

    It calls [sock_ntop] without declaring it, which is an argument here. *)

Definition CLI_MAXLEN : Z := 1024.

(** Lines 39-44 for [n] rounds. *)
Fixpoint flood (n : nat) (sockfd : Z) (sendbuf : list byte) (servaddr : sockaddr_in) : M unit :=
  match n with
  | O => mret tt
  | S n' =>
      bytes ← lift (mem_read 0 CLI_MAXLEN sendbuf);
      sent ← dsys (DSendTo sockfd bytes servaddr);
      when_ (ret_int sent <? 0) (say WriteError) ;;
      flood n' sockfd sendbuf servaddr
  end.

(** [main]; [sendbuf] is uninitialised too. *)
Definition cli_main (ntop : sockaddr_in -> Z -> M (option (list byte))) (g : garbage) (sendbuf : list byte)
    (argv : list (list byte)) (atoi : list byte -> Z) : M Z :=
  match argv with
  | [] => say ArgNotEnough ;; mret 0
  | host :: rest =>
      sock ← dsys DSocket;
      when_ (ret_int sock <? 0) (say SocketError) ;;
      port ← unwrap (Undefined NullDeref) (head rest);
      let servaddr := SockAddr AF_INET (htons (uint16 (atoi port))) (default 0 (inet_aton host)) in
      '(cliaddr, len) ← own_name g (ret_int sock);
      text ← ntop cliaddr len;
      print_ptr text (fun t => Address t len) ;;
      flood 2000 (ret_int sock) sendbuf servaddr ;;
      say Closed ;;
      _ ← dsys (DClose (ret_int sock));
      mret 0
  end.

(** ** net/udp/udpserv.cpp *)

(** Lines 53-65: [n] rounds of the loop from [count]; any result but 0 counts. *)
Fixpoint serve (n : nat) (listenfd count : Z) : M Z :=
  match n with
  | O => mret count
  | S n' =>
      r ← dsys (DRecv listenfd 1024);
      r' ← (match r with
            | SysOk data => _ ← lift (mem_write 0 data (replicate 1025 Byte.x00)); mret (zlen data)
            | SysErr _ => mret (-1)
            end);
      if r' =? 0 then serve n' listenfd count
      else
        let count' := uint32 (count + 1) in
        say (Receive count') ;; serve n' listenfd count'
  end.

(** [main], with [n] rounds of the loop; [None] for an early return.  The address
    is compared with -1, which [inet_aton] never returns. *)
Definition serv_main (n : nat) : M (option Z) :=
  sock ← dsys DSocket;
  if ret_int sock =? -1 then say SockError ;; mret None else
  let listenfd := ret_int sock in
  reuse ← dsys (DReuseAddr listenfd);
  if ret_unit reuse =? -1 then say OptionError ;; mret None else
  let servaddr := SockAddr AF_INET (htons 6543)
    (default 0 (inet_aton [Byte.x31; Byte.x32; Byte.x37; Byte.x2e; Byte.x30; Byte.x2e; Byte.x30; Byte.x2e; Byte.x31])) in
  bound ← dsys (DBind listenfd servaddr);
  if ret_unit bound =? -1 then say BindError ;; mret None else
  buffered ← dsys (DRcvBuf listenfd (1024 * 10));
  when_ (negb (ret_unit buffered =? 0)) (say OptSetError) ;;
  (* getsockopt with a length of 0 stores nothing in n and 0 in len *)
  say ServStart ;; say (RecvBuf (1024 * 10) 0) ;;
  count ← serve n listenfd 0; mret (Some count).
End Programs.
