(* ===== verification/DatagramTheorems.v ===== *)
(** * DatagramTheorems: the buffers of the UDP programs hold what is put in them *)

From S2P Require Import Prelude Bytes Kernel Datagram Safety.

(** ** Decimal numbers *)

(** The number that digits stand for. *)
Definition digits_value (l : list byte) : Z := foldl (fun n b => 10 * n + (Z_of_byte b - 48)) 0 l.

Lemma digit_value n : 0 <= n < 10 -> Z_of_byte (digit n) = 48 + n.
Proof. intros Hn. unfold digit. rewrite Z_of_byte_of_Z, Z.mod_small; lia. Qed.

Lemma nonzero_value b : Z_of_byte b <> 0 -> b <> Byte.x00.
Proof. by intros Hb ->. Qed.

Lemma digits_spec fuel n :
  (0 < fuel)%nat -> 0 <= n < 10 ^ Z.of_nat fuel -> digits_value (digits fuel n) = n /\ nonzero (digits fuel n).
Proof.
  revert n. induction fuel as [|fuel IH]; intros n Hf Hn; [lia|]. cbn [digits].
  pose proof (Z.mod_pos_bound n 10 ltac:(lia)) as Hm. pose proof (digit_value (n mod 10) Hm) as Hd.
  assert (digit (n mod 10) <> Byte.x00) as Hz by (apply nonzero_value; lia).
  destruct (n <? 10) eqn:E.
  - apply Z.ltb_lt in E. cbn [app]. split; [|by apply Forall_singleton].
    unfold digits_value. cbn [foldl]. rewrite Hd, Z.mod_small; lia.
  - apply Z.ltb_ge in E. rewrite Nat2Z.inj_succ, Z.pow_succ_r in Hn by lia.
    pose proof (Z.div_mod n 10 ltac:(lia)) as Hdm.
    assert (0 <= n / 10 < 10 ^ Z.of_nat fuel) as Hq by (split; [apply Z.div_pos|apply Z.div_lt_upper_bound]; lia).
    destruct fuel as [|fuel]; [cbn in Hq; lia|]. destruct (IH (n / 10) ltac:(lia) Hq) as [Hv Hnz].
    split; [|apply Forall_app; split; [done|by apply Forall_singleton]].
    unfold digits_value in *. rewrite foldl_app, Hv. cbn [foldl]. rewrite Hd. lia.
Qed.

(** A number below 10^k has at most k digits, whatever the fuel. *)
Lemma digits_length fuel k n :
  (0 < k)%nat -> 0 <= n < 10 ^ Z.of_nat k -> (length (digits fuel n) <= k)%nat.
Proof.
  revert k n. induction fuel as [|fuel IH]; intros k n Hk Hn; cbn [digits]; [cbn; lia|].
  rewrite length_app. cbn [length]. destruct (n <? 10) eqn:E; [cbn; lia|]. apply Z.ltb_ge in E.
  destruct k as [|k]; [lia|]. rewrite Nat2Z.inj_succ, Z.pow_succ_r in Hn by lia.
  assert (0 <= n / 10 < 10 ^ Z.of_nat k) as Hq by (split; [apply Z.div_pos|apply Z.div_lt_upper_bound]; lia).
  destruct k as [|k]; [cbn in Hq; pose proof (Z.div_mod n 10 ltac:(lia)); pose proof (Z.mod_pos_bound n 10 ltac:(lia)); lia|].
  specialize (IH (S k) (n / 10) ltac:(lia) Hq). lia.
Qed.

Lemma decimal_nonzero n : - two31 <= n < two32 -> nonzero (decimal n).
Proof.
  intros Hn. unfold decimal. destruct (n <? 0) eqn:E.
  - apply Z.ltb_lt in E. constructor; [done|]. apply digits_spec; [lia|]. change (Z.of_nat 10) with 10. lia.
  - apply Z.ltb_ge in E. apply digits_spec; [lia|]. change (Z.of_nat 10) with 10. lia.
Qed.

(** A port has at most five digits. *)
Lemma decimal_port n : 0 <= n < two16 -> zlen (decimal n) <= 5.
Proof.
  intros Hn. unfold decimal. destruct (n <? 0) eqn:E; [apply Z.ltb_lt in E; lia|].
  pose proof (digits_length 10 5 n ltac:(lia) ltac:(change (10 ^ Z.of_nat 5) with 100000; lia)) as Hl.
  unfold zlen. lia.
Qed.

(** ** Writing text into buffers *)

Lemma write_text text buf :
  zlen text < zlen buf ->
  mem_write 0 (text ++ [Byte.x00]) buf = Ok (text ++ Byte.x00 :: drop (S (length text)) buf).
Proof.
  intros Hl. rewrite mem_write_Ok by (rewrite ?zlen_app; unfold zlen in *; cbn [length]; lia).
  f_equal. unfold splice. cbn [Z.to_nat take]. rewrite length_app, <- app_assoc. cbn [app length Nat.add].
  replace (length text + 1)%nat with (S (length text)) by lia. done.
Qed.

Lemma length_written text buf :
  zlen text < zlen buf -> length (text ++ Byte.x00 :: drop (S (length text)) buf) = length buf.
Proof. unfold zlen. intros. rewrite length_app. cbn [length]. rewrite length_drop. lia. Qed.

Lemma snprintf_text buf text :
  0 < zlen buf ->
  snprintf buf text = Ok (take (length buf - 1) text ++
    Byte.x00 :: drop (S (length (take (length buf - 1) text))) buf).
Proof. intros Hb. apply write_text. unfold zlen in *. rewrite length_take. lia. Qed.

Lemma strcat_text d r t r' :
  nonzero d -> nonzero t -> (length t <= length r)%nat ->
  strcat (d ++ Byte.x00 :: r) (t ++ Byte.x00 :: r') = Ok (d ++ t ++ Byte.x00 :: drop (length t) r).
Proof.
  intros Hd Ht Hl. unfold strcat. rewrite !c_string_nonzero by done.
  rewrite mem_write_Ok by (rewrite ?zlen_app; unfold zlen; cbn [length]; rewrite ?length_app; cbn [length]; lia).
  f_equal. unfold splice. unfold zlen. rewrite Nat2Z.id, take_app_length. f_equal.
  rewrite length_app. cbn [length].
  replace (length d + (length t + 1))%nat with (length (d ++ [Byte.x00]) + length t)%nat
    by (rewrite length_app; cbn [length]; lia).
  replace (d ++ Byte.x00 :: r) with ((d ++ [Byte.x00]) ++ r) by by rewrite <- app_assoc.
  by rewrite <- drop_drop, drop_app_length, <- app_assoc.
Qed.

Section Programs.
Context {K : Type} `{DatagramLaws K} `{InetNtopLaws} `{InetAddress} `{Host}.
Implicit Type s : dstate K.

(** ** sock_ntop *)

(** The text it makes. *)
Definition ntop_text (sa : sockaddr_in) (salen : Z) : list byte :=
  if sin_family sa =? AF_INET then
    inet_ntop (sin_addr sa) ++
      (if ntohs (sin_port sa) =? 0 then [] else Byte.x3a :: decimal (ntohs (sin_port sa)))
  else take 127 (unknown_text ++ decimal (sin_family sa) ++ len_text ++ decimal (int32 salen)).

Lemma ntohs_range z : 0 <= ntohs z < two16.
Proof.
  unfold ntohs, hton. destruct host_order.
  - pose proof (le_value_range (rev (le_bytes 2 z))) as Hr. unfold zlen in Hr.
    rewrite length_rev, length_le_bytes in Hr. exact Hr.
  - pose proof (le_value_range (le_bytes 2 z)) as Hr. unfold zlen in Hr. rewrite length_le_bytes in Hr. exact Hr.
Qed.

Definition str_of (p : list byte) s : dstate K := DState (d_kernel s) p (d_input s) (d_out s).

Lemma sock_ntop_spec portstr sa salen s :
  length portstr = 8%nat -> length (d_str s) = 128%nat -> 0 <= sin_family sa < two16 ->
  runs (sock_ntop portstr sa salen) s (fun p s' => exists str,
    p = Some str /\ s' = str_of str s /\ length str = 128%nat /\ c_string str = Some (ntop_text sa salen)).
Proof.
  intros Hps Hstr Hfam. unfold sock_ntop, ntop_text. run_steps.
  destruct (sin_family sa =? AF_INET) eqn:Efam.
  - pose proof (law_ntop_text (sin_addr sa)) as Hnz. pose proof (law_ntop_length (sin_addr sa)) as Hlen.
    assert ((zlen (d_str s) <? zlen (inet_ntop (sin_addr sa)) + 1) = false) as ->
      by (apply Z.ltb_ge; unfold zlen in *; lia).
    rewrite write_text by (unfold zlen in *; lia). run_steps.
    set (text := inet_ntop (sin_addr sa)) in *. unfold set_str.
    destruct (ntohs (sin_port sa) =? 0) eqn:Eport; cbn [negb].
    + run_steps. eexists. split; [done|]. split; [done|]. split.
      * cbn [d_str]. rewrite length_written by (unfold zlen in *; lia). done.
      * rewrite app_nil_r. by apply c_string_nonzero.
    + pose proof (ntohs_range (sin_port sa)) as Hport. pose proof (decimal_port _ Hport) as Hdec.
      assert (nonzero (decimal (ntohs (sin_port sa)))) as Hdnz by (apply decimal_nonzero; lia).
      rewrite snprintf_text by (unfold zlen; lia). rewrite Hps.
      rewrite (take_ge (Byte.x3a :: _)) by (cbn [length]; unfold zlen in Hdec; lia). run_steps.
      assert (nonzero (Byte.x3a :: decimal (ntohs (sin_port sa)))) as Htnz by by constructor.
      rewrite strcat_text by (rewrite ?length_drop; cbn [length]; unfold zlen in *; done || lia). run_steps.
      eexists. split; [done|]. split; [done|]. split.
      * cbn [d_str]. rewrite !length_app. cbn [length]. rewrite !length_drop. unfold zlen in *. lia.
      * rewrite app_assoc. apply c_string_nonzero. by apply Forall_app.
  - rewrite snprintf_text by (unfold zlen; lia). run_steps. rewrite Hstr. cbn [Nat.sub]. unfold set_str. run_steps.
    eexists. split; [done|]. split; [done|]. split.
    + rewrite length_written; [done|]. unfold zlen. rewrite length_take. lia.
    + apply c_string_nonzero, Forall_take. repeat (apply Forall_app; split).
      * repeat constructor; done.
      * apply decimal_nonzero. lia.
      * repeat constructor; done.
      * apply decimal_nonzero. pose proof (signed_range two31 salen ltac:(lia)). unfold int32. lia.
Qed.

(** C29: for every socket address and whatever is in its buffers, [sock_ntop] stays
    within [str] and [portstr], and returns in [str] the terminated text: the
    IPv4 address, with a colon and the port unless it is zero, or the message
    about another family, cut to 127 bytes. *)
Theorem sock_ntop_text portstr sa salen s :
  length portstr = 8%nat -> length (d_str s) = 128%nat -> 0 <= sin_family sa < two16 ->
  runs (sock_ntop portstr sa salen) s (fun p s' => exists str,
    p = Some str /\ s' = str_of str s /\ length str = 128%nat /\ c_string str = Some (ntop_text sa salen)).
Proof. apply sock_ntop_spec. Qed.

(** ** The connected client *)

Lemma c_string_terminated (l : list byte) r :
  exists t, c_string (l ++ Byte.x00 :: r) = Some t /\ c_string (l ++ [Byte.x00]) = Some t.
Proof.
  induction l as [|b l (t & IH1 & IH2)]; [by exists []|]. cbn. destruct (decide (b = Byte.x00)); [by exists []|].
  exists (b :: t). by rewrite IH1, IH2.
Qed.

(** Writing at the beginning of zeros leaves a terminated string. *)
Lemma write_zeros data n :
  zlen data < Z.of_nat n ->
  exists buf t, mem_write 0 data (replicate n Byte.x00) = Ok buf /\ length buf = n /\
    c_string buf = Some t /\ c_string (data ++ [Byte.x00]) = Some t.
Proof.
  intros Hl. unfold zlen in Hl. rewrite mem_write_Ok by (unfold zlen; rewrite ?length_replicate; lia).
  destruct (c_string_terminated data (replicate (n - length data - 1) Byte.x00)) as (t & Ht1 & Ht2).
  exists (data ++ Byte.x00 :: replicate (n - length data - 1) Byte.x00), t. split_and!; [|..|done|done].
  - f_equal. unfold splice. change (Z.to_nat 0) with 0%nat. cbn [take app Nat.add]. rewrite drop_replicate.
    destruct (n - length data)%nat as [|k] eqn:E; [lia|]. cbn. by rewrite Nat.sub_0_r.
  - rewrite length_app. cbn [length]. rewrite length_replicate. lia.
Qed.

Lemma runs_dsys {A} (c : dcall A) s Q :
  runs (dsys c) s Q <->
  Q (d_exec c (d_kernel s)).1 (DState (d_exec c (d_kernel s)).2 (d_str s) (d_input s) (d_out s)).
Proof. unfold runs, dsys. by destruct (d_exec c (d_kernel s)). Qed.

Definition sized s : Prop := length (d_str s) = 128%nat.
Definition garbage_ok (g : garbage) : Prop :=
  length (g_portstr g) = 8%nat /\ 0 <= sin_family (g_cliaddr g) < two16.

Lemma getline_runs s :
  sized s -> runs (getline (replicate 257 Byte.x00)) s (fun buf s' =>
    sized s' /\ d_out s' = d_out s /\ length buf = 257%nat /\ exists t, c_string buf = Some t).
Proof.
  intros Hs. unfold getline. run_steps. destruct (d_input s) as [|text rest].
  - rewrite runs_ret. split; [done|]. split; [done|]. split; [apply length_replicate|]. by exists [].
  - run_steps. destruct (write_zeros (take (Z.to_nat (MAXLEN - 1)) text ++ [Byte.x00]) 257) as (buf & t & Hw & Hl & Ht & _).
    { unfold zlen, MAXLEN. rewrite length_app, length_take. cbn [length]. lia. }
    rewrite Hw, runs_lift_Ok. eauto.
Qed.

(** What a round prints last: the answer, as far as its first zero. *)
Definition answered s : Prop :=
  exists data answer, zlen data <= MAXLEN /\ c_string (data ++ [Byte.x00]) = Some answer /\
    last (d_out s) = Some (Received answer).

(** A socket's own name, or garbage of its type. *)
Lemma own_name_runs g fd s :
  garbage_ok g -> sized s ->
  runs (own_name g fd) s (fun r s' => sized s' /\ 0 <= sin_family r.1 < two16).
Proof.
  intros [Hport Hfam] Hs. unfold own_name, say. rewrite runs_bind, runs_dsys.
  set (name := (d_exec (DGetsockname fd) (d_kernel s)).1) in *. rewrite runs_bind.
  apply (runs_mono _ _ (fun _ s' => sized s')); [by destruct (_ =? -1)|]. intros _ s2 Hs2. rewrite runs_ret.
  split; [done|]. destruct name as [a|e] eqn:En; [|done]. pose proof (law_name fd (d_kernel s) a En).
  by destruct (16 <=? g_len g).
Qed.

Lemma round_runs g fd addr s :
  garbage_ok g -> sized s ->
  runs (round g fd addr) s (fun go s' => sized s' /\ (go = true -> answered s')).
Proof.
  intros [Hport Hfam] Hs. unfold round, say. run_steps.
  run_using getline_runs; [done|]. intros buf s1 (Hs1 & _ & _ & t & Ht). rewrite Ht.
  rewrite runs_bind, runs_unwrap. exists t. split; [done|]. run_steps. rewrite runs_dsys. cbn [d_kernel d_str].
  destruct (ret_unit _ =? -1); [by run_steps|].
  run_using own_name_runs; [done..|]. intros [sa len] s2 [Hs2 Hsa].
  run_using sock_ntop_spec; [done..|]. intros p s3 (str & -> & -> & Hl & Hstr). unfold print_ptr. cbn [unwrap].
  run_steps. rewrite Hstr. cbn [unwrap]. unfold say. run_steps. rewrite runs_dsys. run_steps.
  apply (runs_mono _ _ (fun _ s' => sized s')); [by destruct (_ <? 0)|]. intros _ s4 Hs4.
  run_steps. rewrite runs_dsys. cbn [d_kernel d_str d_input d_out].
  set (answer := (d_exec (DRecv fd MAXLEN) (d_kernel s4)).1) in *.
  assert (exists data, zlen data <= MAXLEN /\ match answer with SysOk d => d = data | SysErr _ => data = [] end)
    as (data & Hdata & Hanswer).
  { destruct answer as [d|e] eqn:Ea; [|by exists []]. exists d. split; [|done]. by apply law_drecv in Ea. }
  destruct (write_zeros data 257) as (buf' & t' & Hw & _ & Ht' & Hans); [unfold MAXLEN in Hdata; lia|].
  destruct answer as [d|e]; subst.
  - rewrite Hw. run_steps. rewrite Ht'. cbn [unwrap]. run_steps. split; [done|]. intros _.
    exists data, t'. split; [done|]. split; [done|]. cbn. by rewrite last_snoc.
  - run_steps. split; [done|]. intros _. exists [], []. split; [done|]. split; [done|]. cbn. by rewrite last_snoc.
Qed.

Lemma rounds_safe fuel g fd addr s :
  (forall i, garbage_ok (g i)) -> sized s ->
  safe (eq OutOfFuel) (rounds fuel g fd addr) s (fun z s' => z = 1).
Proof.
  intros Hg. revert s. induction fuel as [|fuel IH]; intros s Hs; [done|]. cbn [rounds].
  apply safe_bind. eapply safe_mono; [apply safe_runs, round_runs; [apply Hg|done]|].
  intros go s1 [Hs1 _]. destruct go; [by apply IH|done].
Qed.

(** The connected UDP client stays inside its buffers: whatever is typed,
    whatever the kernel answers and whatever its uninitialised variables hold,
    with two arguments it ends only by [exit(1)], with none only by returning 0,
    and otherwise runs on; and each answer it prints is what it received, as far
    as the first zero.  With one argument it hands a null pointer to [atoi]. *)
Theorem client_stays_in_bounds fuel g argv atoi s :
  (forall i, garbage_ok (g i)) -> sized s ->
  (length argv <> 1%nat -> safe (eq OutOfFuel) (main fuel g argv atoi) s (fun z s' => z = Z.of_nat (length argv) `min` 1)) /\
  (forall host, argv = [host] -> ends (main fuel g argv atoi) s (Undefined NullDeref)) /\
  (forall i fd addr, runs (round (g i) fd addr) s (fun go s' => go = true -> answered s')).
Proof.
  intros Hg Hs. split; [|split].
  - intros Hargv. destruct argv as [|host [|port rest]]; [done|done|]. unfold main.
    apply safe_bind. apply safe_runs, runs_dsys. apply safe_bind.
    apply (safe_mono _ _ _ (fun _ s' => sized s')); [apply safe_when; by destruct (_ <? 0)|]. intros _ s2 Hs2.
    apply safe_bind, safe_runs. cbn [head unwrap]. rewrite runs_ret.
    eapply safe_mono; [by apply rounds_safe|]. intros z s3 ->. rewrite Z.min_r; [done|cbn [length]; lia].
  - intros host ->. unfold ends, main, mbind, prog_bind, dsys. destruct (d_exec DSocket (d_kernel s)) as [r k].
    by destruct (ret_int r <? 0).
  - intros i fd addr. eapply runs_mono; [apply round_runs; [apply Hg|done]|]. by intros go s' [_ ?].
Qed.

(** ** The flooding client *)

(** What becomes of the kernel in [n] sends, and how many of them it refuses. *)
Fixpoint flooded (n : nat) (fd : Z) (data : list byte) (addr : sockaddr_in) (k : K) : K * nat :=
  match n with
  | O => (k, O)
  | S n' =>
      let '(r, k1) := d_exec (DSendTo fd data addr) k in
      let '(k2, refused) := flooded n' fd data addr k1 in
      (k2, (if ret_int r <? 0 then S refused else refused))
  end.

Lemma flood_runs n fd sendbuf addr s :
  CLI_MAXLEN <= zlen sendbuf ->
  runs (flood n fd sendbuf addr) s (fun _ s' =>
    let '(k, refused) := flooded n fd (slice 0 CLI_MAXLEN sendbuf) addr (d_kernel s) in
    s' = DState k (d_str s) (d_input s) (d_out s ++ replicate refused WriteError)).
Proof.
  intros Hlen. assert (0 <= 0 /\ 0 <= CLI_MAXLEN) as [? ?] by (unfold CLI_MAXLEN; lia).
  revert s. induction n as [|n IH]; intros s; cbn [flood flooded].
  { rewrite runs_ret. destruct s. cbn. by rewrite app_nil_r. }
  rewrite mem_read_Ok by lia. run_steps. rewrite runs_dsys.
  destruct (d_exec (DSendTo fd _ addr) (d_kernel s)) as [r k]. cbn [fst snd].
  rewrite runs_bind, runs_when. destruct (ret_int r <? 0).
  - unfold say. run_steps. eapply runs_mono; [apply IH|]. cbn [d_kernel d_str d_input d_out].
    intros _ s'. destruct (flooded n fd _ addr k) as [k2 refused]. intros ->. by rewrite <- app_assoc.
  - eapply runs_mono; [apply IH|]. cbn [d_kernel d_str d_input d_out].
    intros _ s'. by destruct (flooded n fd _ addr k) as [k2 refused].
Qed.

(** The flooding client stays inside its buffers and sends its 1024 bytes of
    garbage two thousand times, whatever is refused: one line for each refusal;
    then it closes its socket and returns. *)
Theorem flood_never_stops_early g sendbuf host port atoi s :
  garbage_ok g -> sized s -> CLI_MAXLEN <= zlen sendbuf ->
  let servaddr := SockAddr AF_INET (htons (uint16 (atoi port))) (default 0 (inet_aton host)) in
  runs (cli_main (sock_ntop (g_portstr g)) g sendbuf [host; port] atoi) s (fun z s' =>
    z = 0 /\ exists fd k before, let '(k', refused) := flooded 2000 fd (slice 0 CLI_MAXLEN sendbuf) servaddr k in
      d_kernel s' = (d_exec (DClose fd) k').2 /\ d_out s' = before ++ replicate refused WriteError ++ [Closed]).
Proof.
  intros Hg Hs Hbuf servaddr. unfold cli_main. rewrite runs_bind, runs_dsys.
  set (fd := ret_int _). rewrite runs_bind.
  apply (runs_mono _ _ (fun _ s' => sized s')); [unfold say; by destruct (fd <? 0)|]. intros _ s2 Hs2.
  cbn [head unwrap]. run_steps. run_using own_name_runs; [done..|]. intros [sa len] s3 [Hs3 Hsa].
  run_using sock_ntop_spec; [apply Hg|done|done|]. intros p s4 (str & -> & -> & Hl & Hstr). unfold print_ptr, say. cbn [unwrap].
  run_steps. rewrite Hstr. cbn [unwrap]. run_steps. fold servaddr.
  run_using flood_runs; [done|]. intros _ s5. cbn [d_kernel d_str d_input d_out str_of].
  destruct (flooded 2000 fd _ servaddr (d_kernel s3)) as [k' refused] eqn:E. intros ->. run_steps. rewrite runs_dsys.
  cbn [d_kernel d_out]. rewrite runs_ret. split; [done|].
  exists fd, (d_kernel s3), (d_out s3 ++ [Address (ntop_text sa len) len]). rewrite E. clear E.
  split; [done|]. cbn [d_out]. symmetry. apply app_assoc.
Qed.

(** ** The server's count *)

(** Udpserv counts every round whose result is not zero, failures included:
    against a kernel that refuses every call it counts all of them, modulo 2^32. *)
Lemma serve_counts_failures n fd count s :
  (forall m k, exists e k', d_exec (DRecv fd m) k = (SysErr e, k')) -> 0 <= count < two32 ->
  runs (serve n fd count) s (fun c _ => c = uint32 (count + Z.of_nat n)).
Proof.
  intros Hfail. revert count s. induction n as [|n IH]; intros count s Hc; cbn [serve].
  { rewrite runs_ret. unfold uint32. rewrite Z.mod_small; lia. }
  rewrite runs_bind, runs_dsys. destruct (Hfail 1024 (d_kernel s)) as (e & k' & ->). cbn [fst].
  run_steps. unfold say. cbn [Z.eqb]. run_steps.
  eapply runs_mono; [apply IH; unfold uint32; apply Z.mod_pos_bound; lia|]. cbn beta. intros c _ ->.
  unfold uint32. rewrite Zplus_mod_idemp_l. f_equal. lia.
Qed.
End Programs.

(** ** A concrete client *)

(** A kernel that answers every datagram with one byte. *)
#[local] Instance answering : DatagramKernel unit := fun A c k =>
  match c in dcall A return sysres A * unit with
  | DSocket => (SysOk 3, k)
  | DReuseAddr _ | DRcvBuf _ _ | DBind _ _ | DConnect _ _ | DClose _ => (SysOk tt, k)
  | DGetsockname _ => (SysOk (SockAddr AF_INET 0 16777343), k)
  | DSend _ data | DSendTo _ data _ => (SysOk (zlen data), k)
  | DRecv _ n => (if n <? 1 then SysErr EINVAL else SysOk [Byte.x6f], k)
  end.
#[local] Instance answering_laws : DatagramLaws unit.
Proof.
  split.
  - intros fd n k data _. cbn. destruct (n <? 1) eqn:E; [done|]. apply Z.ltb_ge in E. by intros [= <-].
  - intros fd k addr [= <-]. vm_compute. split; [discriminate|reflexivity].
Qed.
(** "127.0.0.1" for every address. *)
#[local] Instance local_text : InetNtop := fun _ =>
  [Byte.x31; Byte.x32; Byte.x37; Byte.x2e; Byte.x30; Byte.x2e; Byte.x30; Byte.x2e; Byte.x31].
#[local] Instance local_text_laws : InetNtopLaws.
Proof. split; intros addr; [repeat constructor; done|by vm_compute]. Qed.
#[local] Instance local_aton : InetAddress := fun _ => Some 16777343.
#[local] Instance local_host : Host := LittleEndian.

Definition fresh_state : dstate unit := DState tt (replicate 128 Byte.x00) [[Byte.x68; Byte.x69]] [].
Definition some_garbage : garbage := Garbage (replicate 8 Byte.xff) (SockAddr 0 0 0) 0.

Lemma sock_ntop_text_witness :
  runs (sock_ntop (replicate 8 Byte.xff) (SockAddr AF_INET (htons 6543) 0) 16) fresh_state (fun p s' => exists str,
    p = Some str /\ s' = str_of str fresh_state /\ length str = 128%nat /\
    c_string str = Some (local_text 0 ++ [Byte.x3a; Byte.x36; Byte.x35; Byte.x34; Byte.x33])).
Proof.
  exact (sock_ntop_text (replicate 8 Byte.xff) (SockAddr AF_INET (htons 6543) 0) 16 fresh_state
    eq_refl eq_refl ltac:(vm_compute; split; [discriminate|reflexivity])).
Defined.

Lemma client_stays_in_bounds_witness :
  safe (eq OutOfFuel) (main 3 (fun _ => some_garbage) [[]; []] (fun _ => 6543)) fresh_state (fun z _ => z = 1) /\
  ends (main 3 (fun _ => some_garbage) [[]] (fun _ => 6543)) fresh_state (Undefined NullDeref).
Proof.
  assert (forall i : nat, garbage_ok some_garbage) as Hg by (intros i; vm_compute; split; [|split]; [reflexivity|discriminate|reflexivity]).
  split.
  - exact (proj1 (client_stays_in_bounds 3 (fun _ => some_garbage) [[]; []] (fun _ => 6543) fresh_state Hg eq_refl)
      ltac:(discriminate)).
  - exact (proj1 (proj2 (client_stays_in_bounds 3 (fun _ => some_garbage) [[]] (fun _ => 6543) fresh_state Hg eq_refl))
      [] eq_refl).
Defined.
