(* ===== verification/Daemon.v ===== *)
(** * Daemon: net/daemon/daemon.cpp and net/udp/udpservdaemon.cpp

    A process is its descriptor table and what it changes on the way to becoming
    a daemon.  The kernel gives out the lowest free descriptor. *)

From S2P Require Import Prelude Bytes.

(** What a descriptor is open on. *)
Inductive file := Terminal | Inherited (id : Z) | LogSocket | UdpSocket.

#[export] Instance file_eq_dec : EqDecision file.
Proof. solve_decision. Defined.

Record process := mkProcess {
  table : gmap Z file;
  session : bool;           (* it has called setsid *)
  sighup_handled : bool;
  at_root : bool;           (* chdir("/") *)
  umask_zero : bool;
  log_fd : option Z;        (* syslog's connection *)
  cout_bad : bool;          (* badbit: a stream that has failed drops what it is given *)
  cerr_bad : bool;
  pending : bool;           (* text of printf in the buffer of stdout *)
  written : list (Z * option file)   (* writes: the descriptor and what it was open on *)
}.

Abbreviation M := (prog process).

Definition set_table (t : gmap Z file) (p : process) : process :=
  mkProcess t (session p) (sighup_handled p) (at_root p) (umask_zero p) (log_fd p) (cout_bad p) (cerr_bad p) (pending p) (written p).
(** [setsid], [signal(SIGHUP, handle_sig)] *)
Definition set_leader (sid sighup : bool) (p : process) : process :=
  mkProcess (table p) sid sighup (at_root p) (umask_zero p) (log_fd p) (cout_bad p) (cerr_bad p) (pending p) (written p).
(** [chdir("/")], [umask(0)] *)
Definition set_place (root zero : bool) (p : process) : process :=
  mkProcess (table p) (session p) (sighup_handled p) root zero (log_fd p) (cout_bad p) (cerr_bad p) (pending p) (written p).
Definition set_log_fd (fd : Z) (p : process) : process :=
  mkProcess (table p) (session p) (sighup_handled p) (at_root p) (umask_zero p) (Some fd) (cout_bad p) (cerr_bad p) (pending p) (written p).
Definition set_bad (out err : bool) (p : process) : process :=
  mkProcess (table p) (session p) (sighup_handled p) (at_root p) (umask_zero p) (log_fd p) out err (pending p) (written p).
Definition set_pending (b : bool) (p : process) : process :=
  mkProcess (table p) (session p) (sighup_handled p) (at_root p) (umask_zero p) (log_fd p) (cout_bad p) (cerr_bad p)
    b (written p).
Definition add_written (w : Z * option file) (p : process) : process :=
  mkProcess (table p) (session p) (sighup_handled p) (at_root p) (umask_zero p) (log_fd p) (cout_bad p) (cerr_bad p)
    (pending p) (written p ++ [w]).

(** The lowest free descriptor from [fd] on. *)
Fixpoint free_from (fuel : nat) (fd : Z) (t : gmap Z file) : Z :=
  match fuel with
  | O => fd
  | S fuel' => if decide (is_Some (t !! fd)) then free_from fuel' (fd + 1) t else fd
  end.
Definition lowest_free (t : gmap Z file) : Z := free_from (size t) 0 t.

Definition open_file (f : file) : M Z :=
  p ← get_st;
  let fd := lowest_free (table p) in
  modify (set_table (<[fd := f]> (table p))) ;; mret fd.

Definition close (fd : Z) : M unit := modify (fun p => set_table (delete fd (table p)) p).

(** A datagram socket without a peer refuses [write], as a closed descriptor does. *)
Definition accepts (o : option file) : bool :=
  match o with Some UdpSocket | None => false | Some _ => true end.

(** [write] to a descriptor, from [perror] or a flushed stream: whether it
    succeeds. *)
Definition write (fd : Z) : M bool :=
  p ← get_st;
  modify (add_written (fd, table p !! fd)) ;; mret (accepts (table p !! fd)).

Definition maxfd : nat := 1024.

(** Lines 29-31. *)
Definition close_loop : M unit := for_each (fun loop => close (Z.of_nat loop)) (seq 0 maxfd).

(** [daemon_init], in a process to which the two [fork]s return [pid1] and
    [pid2]; [None] when it exits.  A failed [fork], -1, is taken for a child.
    [openlog] opens nothing yet. *)
Definition daemon_init (pid1 pid2 : Z) : M (option Z) :=
  if 0 <? pid1 then mret None
  else
    modify (fun p => set_leader true (sighup_handled p) p) ;;
    modify (fun p => set_leader (session p) true p) ;;
    if 0 <? pid2 then mret None
    else
      modify (fun p => set_place true (umask_zero p) p) ;;
      modify (fun p => set_place (at_root p) true p) ;;
      close_loop ;;
      mret (Some 0).

(** [syslog]: the first call connects, if there is a daemon to connect to. *)
Definition syslog (logd : bool) : M unit :=
  p ← get_st;
  match log_fd p with
  | Some fd => _ ← write fd; mret tt
  | None =>
      if logd then
        fd ← open_file LogSocket;
        modify (set_log_fd fd) ;;
        _ ← write fd; mret tt
      else mret tt
  end.

(** [handle_sig] *)
Definition handle_sig (logd : bool) : M unit := syslog logd.

(** ** udpservdaemon.cpp *)

(** [cout] shares the buffer of [stdout], which takes what [printf] prints; a
    flush empties it with one [write], and what that refuses is lost. *)
Definition flush_out : M unit :=
  ok ← write 1; modify (fun p => set_pending false (set_bad (negb ok) (cerr_bad p) p)).

(** [exit] flushes what is left. *)
Definition leave : M unit := p ← get_st; when_ (pending p) flush_out.

Section Program.
(** Whether [cerr] is tied to [cout], which it flushes then before it writes: so
    it is since C++11, and was not before. *)
Context (tied : bool).

(** A line to [cout], which [endl] flushes, and one to [cerr], which keeps
    nothing back. *)
Definition cout_line : M unit := p ← get_st; if cout_bad p then mret tt else flush_out.
Definition cerr_line : M unit :=
  p ← get_st;
  if cerr_bad p then mret tt
  else
    when_ (tied && pending p) flush_out ;;
    ok ← write 2; modify (fun p => set_bad (cout_bad p) (negb ok) p).

(** Lines 21-24.  [None]: the process has exited. *)
Definition serv_start (logd : bool) (pid1 pid2 : Z) : M (option Z) :=
  r ← daemon_init pid1 pid2;
  match r with
  | None => mret None
  | Some _ =>
      syslog logd ;;
      modify (set_pending true) ;;       (* printf("print xxxx") *)
      _ ← write 2;                       (* perror("print xxxx") *)
      mret (Some 0)
  end.

(** What the kernel says: whether lines 26, 31, 43, 48 and 52 succeed, and what
    the [recvfrom]s return. *)
Record answers := Answers {
  a_socket : bool; a_reuse : bool; a_bound : bool; a_rcvbuf : bool; a_getopt : bool;
  a_received : list Z
}.

(** Lines 58-70 for these results: any but 0 counts. *)
Fixpoint serve (results : list Z) (count : Z) : M Z :=
  match results with
  | [] => mret count
  | n :: rest =>
      if n =? 0 then serve rest count
      else let count' := uint32 (count + 1) in cout_line ;; serve rest count'
  end.

(** Lines 30-71: [None] for an early return, which leaves the program.  [inet_aton] never returns -1. *)
Definition serv_loop (a : answers) : M (option Z) :=
  if negb (a_reuse a) then cerr_line ;; leave ;; mret None
  else if negb (a_bound a) then cerr_line ;; leave ;; mret None
  else
    when_ (negb (a_rcvbuf a)) cerr_line ;;
    when_ (negb (a_getopt a)) cerr_line ;;
    cout_line ;; cout_line ;;
    count ← serve (a_received a) 0; mret (Some count).

Definition serv_main (logd : bool) (pid1 pid2 : Z) (a : answers) : M (option Z) :=
  r ← serv_start logd pid1 pid2;
  match r with
  | None => leave ;; mret None
  | Some _ =>
      if negb (a_socket a) then cerr_line ;; leave ;; mret None
      else listenfd ← open_file UdpSocket; serv_loop a
  end.
End Program.
