(* ===== verification/DaemonTheorems.v ===== *)
(** * DaemonTheorems: what a daemon's descriptors are *)

From S2P Require Import Prelude Bytes Daemon.

Implicit Type p : process.

(** ** The lowest free descriptor *)

Lemma free_from_spec fuel fd t :
  fd <= free_from fuel fd t /\ forall x, fd <= x < free_from fuel fd t -> is_Some (t !! x).
Proof.
  revert fd. induction fuel as [|fuel IH]; intros fd; cbn; [split; [lia|intros x Hx; lia]|].
  case_decide as Hd; [|split; [lia|intros x Hx; lia]]. destruct (IH (fd + 1)) as [Hle Hall].
  split; [lia|]. intros x Hx. destruct (decide (x = fd)) as [->|]; [done|]. apply Hall. lia.
Qed.

Lemma free_from_at fuel fd t : t !! fd = None -> free_from fuel fd t = fd.
Proof. intros Hd. destruct fuel; cbn; [done|]. rewrite decide_False; [done|]. rewrite Hd. by intros []. Qed.

Lemma lowest_free_0 t : t !! 0 = None -> lowest_free t = 0.
Proof. apply free_from_at. Qed.

Lemma lowest_free_1 t : is_Some (t !! 0) -> t !! 1 = None -> lowest_free t = 1.
Proof.
  intros H0 H1. unfold lowest_free. destruct (size t) as [|n] eqn:E.
  - apply map_size_empty_inv in E as ->. rewrite lookup_empty in H0. by destruct H0.
  - cbn. rewrite decide_True by done. by apply free_from_at.
Qed.

(** ** daemon_init *)

Definition above (t : gmap Z file) : gmap Z file := filter (fun x => Z.of_nat maxfd <= x.1) t.

Lemma close_each n from p :
  runs (for_each (fun loop => close (Z.of_nat loop)) (seq from n)) p (fun _ p' =>
    p' = set_table (table p') p /\
    forall fd, table p' !! fd = if decide (Z.of_nat from <= fd < Z.of_nat (from + n)) then None else table p !! fd).
Proof.
  revert from p. induction n as [|n IH]; intros from p; cbn [seq for_each].
  { rewrite runs_ret. split; [by destruct p|]. intros fd. rewrite decide_False by lia. done. }
  rewrite runs_bind. cbn beta. unfold close at 1. rewrite runs_modify. eapply runs_mono; [apply IH|]. cbn beta. intros _ p' [Hp Hfd].
  split; [by rewrite Hp|]. intros fd. rewrite Hfd. cbn [table set_table].
  destruct (decide (Z.of_nat from = fd)) as [<-|Hne].
  - rewrite (decide_True (P := _ <= _ < Z.of_nat (from + S n))) by lia. case_decide; [done|apply lookup_delete_eq].
  - rewrite lookup_delete_ne by done. repeat case_decide; lia || done.
Qed.

Definition nonnegative (t : gmap Z file) : Prop := forall fd, is_Some (t !! fd) -> 0 <= fd.

Lemma close_loop_runs p :
  nonnegative (table p) -> runs close_loop p (fun _ p' => p' = set_table (above (table p)) p).
Proof.
  intros Hnn. eapply runs_mono; [apply close_each|]. cbn beta. intros _ p' [Hp Hfd]. rewrite Hp.
  f_equal. apply map_eq. intros fd. rewrite Hfd. unfold above. case_decide as Hr.
  - symmetry. apply map_lookup_filter_None. right. intros f _ Hx. cbn in Hx. unfold maxfd in *. lia.
  - destruct (table p !! fd) as [f|] eqn:E; symmetry.
    + apply map_lookup_filter_Some. split; [done|]. cbn. pose proof (Hnn fd ltac:(by eexists)). unfold maxfd in *. lia.
    + apply map_lookup_filter_None. by left.
Qed.

Lemma above_low t fd : fd < Z.of_nat maxfd -> above t !! fd = None.
Proof. intros Hfd. apply map_lookup_filter_None. right. intros f _ Hx. cbn in Hx. lia. Qed.

Ltac go := repeat (run_step; cbn [set_table set_leader set_place set_log_fd set_bad set_pending add_written
  table session sighup_handled at_root umask_zero log_fd cout_bad cerr_bad pending written]).

(** The table after [syslog], and after [socket]. *)
Definition log_table (logd : bool) (t : gmap Z file) : gmap Z file :=
  if logd then <[0 := LogSocket]> (above t) else above t.
Definition daemon_table (logd : bool) (t : gmap Z file) : gmap Z file :=
  <[(if logd then 1 else 0) := UdpSocket]> (log_table logd t).

Lemma log_table_low logd t fd : 0 < fd < Z.of_nat maxfd -> log_table logd t !! fd = None.
Proof. intros Hfd. destruct logd; cbn; rewrite ?lookup_insert_ne by lia; apply above_low; lia. Qed.

Lemma log_table_free logd t : lowest_free (log_table logd t) = if logd then 1 else 0.
Proof.
  destruct logd.
  - apply lowest_free_1; [cbn; rewrite lookup_insert_eq; by eexists|apply log_table_low; unfold maxfd; lia].
  - apply lowest_free_0, above_low. unfold maxfd. lia.
Qed.

Lemma daemon_table_2 logd t : daemon_table logd t !! 2 = None.
Proof. unfold daemon_table. rewrite lookup_insert_ne by (destruct logd; lia). apply log_table_low. unfold maxfd. lia. Qed.

Lemma daemon_table_1 logd t : daemon_table logd t !! 1 = if logd then Some UdpSocket else None.
Proof.
  unfold daemon_table. destruct logd; [by rewrite lookup_insert_eq|].
  rewrite lookup_insert_ne by lia. apply log_table_low. unfold maxfd. lia.
Qed.

(** The daemon after lines 21-24. *)
Definition started (logd : bool) p : process :=
  mkProcess (log_table logd (table p)) true true true true (if logd then Some 0 else None) (cout_bad p) (cerr_bad p)
    true (written p ++ (if logd then [(0, Some LogSocket)] else []) ++ [(2, None)]).

Lemma serv_start_runs logd pid1 pid2 p :
  nonnegative (table p) -> log_fd p = None -> pid1 <= 0 -> pid2 <= 0 ->
  runs (serv_start logd pid1 pid2) p (fun r p' => r = Some 0 /\ p' = started logd p).
Proof.
  intros Hnn Hlog H1 H2. unfold serv_start, daemon_init.
  rewrite (proj2 (Z.ltb_ge 0 pid1)), (proj2 (Z.ltb_ge 0 pid2)) by done. go.
  eapply runs_mono; [by apply close_loop_runs|]. cbn beta. intros _ p1 ->. cbn [table set_place set_leader]. go.
  unfold syslog, open_file, write. go. cbn [log_fd set_place set_leader]. rewrite Hlog. unfold started. destruct logd; go.
  - rewrite (lowest_free_0 (above (table p))) by (apply above_low; unfold maxfd; lia). go. split; [done|].
    rewrite lookup_insert_eq, lookup_insert_ne, above_low by (done || unfold maxfd; lia).
    unfold add_written. cbn. by rewrite <- app_assoc.
  - split; [done|]. rewrite above_low by (unfold maxfd; lia). unfold add_written. cbn. by rewrite Hlog.
Qed.

(** A stream is told once that its descriptor takes nothing. *)
Definition flush_told p : process :=
  set_pending false (set_bad true (cerr_bad p) (add_written (1, table p !! 1) p)).
Definition out_told p : process := if cout_bad p then p else flush_told p.
Definition left_told p : process := if pending p then flush_told p else p.
Definition err_told (tied : bool) p : process :=
  if cerr_bad p then p
  else let p1 := if tied then left_told p else p in set_bad (cout_bad p1) true (add_written (2, None) p1).

Lemma flush_out_runs p (Q : unit -> process -> Prop) :
  accepts (table p !! 1) = false -> runs flush_out p Q <-> Q tt (flush_told p).
Proof. intros H1. unfold flush_out, write, flush_told. go. by rewrite H1. Qed.

Lemma cout_line_runs p (Q : unit -> process -> Prop) :
  accepts (table p !! 1) = false -> runs cout_line p Q <-> Q tt (out_told p).
Proof. intros H1. unfold cout_line, out_told. go. destruct (cout_bad p); go; [done|]. by apply flush_out_runs. Qed.

Lemma leave_runs p (Q : unit -> process -> Prop) :
  accepts (table p !! 1) = false -> runs leave p Q <-> Q tt (left_told p).
Proof. intros H1. unfold leave, left_told. go. destruct (pending p); cbn [when_]; [by apply flush_out_runs|done]. Qed.

Lemma cerr_line_runs tied p (Q : unit -> process -> Prop) :
  table p !! 2 = None -> accepts (table p !! 1) = false ->
  runs (cerr_line tied) p Q <-> Q tt (err_told tied p).
Proof.
  intros H2 H1. unfold cerr_line, err_told, left_told. go. destruct (cerr_bad p); go; [done|].
  destruct tied, (pending p); cbn [andb when_]; rewrite ?flush_out_runs by done; unfold write; go;
    cbn [flush_told table set_pending set_bad add_written]; by rewrite H2.
Qed.

Lemma out_told_again p : cout_bad p = true -> out_told p = p.
Proof. intros E. unfold out_told. by rewrite E. Qed.

Lemma err_told_again tied p : cerr_bad p = true -> err_told tied p = p.
Proof. intros E. unfold err_told. by rewrite E. Qed.

Definition counted (results : list Z) : Z := zlen (filter (fun n => n <> 0) results).

Lemma serve_silent results count p :
  cout_bad p = true -> 0 <= count < two32 ->
  runs (serve results count) p (fun r p' => r = uint32 (count + counted results) /\ p' = p).
Proof.
  intros Hbad. revert count. induction results as [|n rest IH]; intros count Hc; cbn [serve].
  { rewrite runs_ret. split; [|done]. unfold counted, zlen, uint32. cbn. rewrite Z.add_0_r. by rewrite Z.mod_small. }
  unfold counted. rewrite filter_cons. destruct (Z.eqb_spec n 0) as [->|Hne].
  - rewrite decide_False by (intros Hx; by apply Hx). by apply IH.
  - rewrite decide_True by done. rewrite runs_bind. unfold cout_line. run_step. rewrite runs_get, Hbad, runs_ret.
    eapply runs_mono; [apply IH; unfold uint32; apply Z.mod_pos_bound; lia|]. cbn beta. intros r p' [-> ->].
    split; [|done]. fold (counted rest). unfold zlen. cbn [length]. fold (zlen (filter (fun n => n <> 0) rest)).
    unfold counted, uint32. rewrite Zplus_mod_idemp_l. f_equal. unfold zlen. lia.
Qed.

Lemma err_told_twice tied p : err_told tied (err_told tied p) = err_told tied p.
Proof. apply err_told_again. unfold err_told. by destruct (cerr_bad p) eqn:E. Qed.

Lemma out_told_twice p : out_told (out_told p) = out_told p.
Proof. apply out_told_again. unfold out_told. by destruct (cout_bad p) eqn:E. Qed.

Lemma err_told_table tied p : table (err_told tied p) = table p.
Proof. unfold err_told, left_told. by destruct (cerr_bad p), tied, (pending p). Qed.

Lemma out_told_table p : table (out_told p) = table p.
Proof. unfold out_told. by destruct (cout_bad p). Qed.

(** The program behind its socket: what is counted, and what is told. *)
Definition loop_told (tied : bool) (a : answers) p : process :=
  if a_reuse a && a_bound a
  then out_told (if a_rcvbuf a && a_getopt a then p else err_told tied p)
  else left_told (err_told tied p).

Lemma loop_tail results p :
  accepts (table p !! 1) = false ->
  runs (cout_line ;; cout_line ;; (count ← serve results 0; mret (Some count))) p
    (fun r p' => r = Some (uint32 (counted results)) /\ p' = out_told p).
Proof.
  intros H1. rewrite runs_bind, cout_line_runs by done.
  rewrite runs_bind, cout_line_runs by (by rewrite out_told_table). rewrite out_told_twice, runs_bind.
  eapply runs_mono; [apply serve_silent; [|lia]|].
  - unfold out_told. by destruct (cout_bad p) eqn:E.
  - cbn beta. intros r p' [-> ->]. by rewrite runs_ret.
Qed.

Lemma serv_loop_runs tied a p :
  table p !! 2 = None -> accepts (table p !! 1) = false ->
  runs (serv_loop tied a) p (fun r p' =>
    r = (if a_reuse a && a_bound a then Some (uint32 (counted (a_received a))) else None) /\ p' = loop_told tied a p).
Proof.
  intros H2 H1. unfold serv_loop, loop_told, when_.
  pose proof (err_told_table tied p) as Ht.
  destruct (a_reuse a), (a_bound a); cbn [andb negb];
    try (rewrite runs_bind, cerr_line_runs, runs_bind, leave_runs, runs_ret by (rewrite ?Ht; done); done).
  assert (Htail : runs (cout_line ;; cout_line ;; (count ← serve (a_received a) 0; mret (Some count))) (err_told tied p)
    (fun r p' => r = Some (uint32 (counted (a_received a))) /\ p' = out_told (err_told tied p)))
    by (apply loop_tail; by rewrite Ht).
  destruct (a_rcvbuf a), (a_getopt a); cbn [andb negb]; rewrite ?runs_bind.
  - by apply loop_tail.
  - rewrite runs_ret. by rewrite runs_bind, cerr_line_runs.
  - by rewrite cerr_line_runs.
  - by rewrite cerr_line_runs, runs_bind, cerr_line_runs, err_told_twice by (rewrite ?Ht; done).
Qed.

(** The order of the line on standard error, if there is one, and the one write
    to standard output. *)
Definition told (tied : bool) (out : Z * option file) (err : list (Z * option file)) : list (Z * option file) :=
  if tied then out :: err else err ++ [out].

Lemma loop_told_written tied a p :
  cout_bad p = false -> cerr_bad p = false -> pending p = true ->
  table (loop_told tied a p) = table p /\
  written (loop_told tied a p) = written p ++ told tied (1, table p !! 1)
    (if a_reuse a && a_bound a && a_rcvbuf a && a_getopt a then [] else [(2, None)]).
Proof.
  destruct p as [t ? ? ? ? ? co ce pe w]. cbn [cout_bad cerr_bad pending]. intros -> -> ->.
  unfold loop_told, out_told, err_told, left_told, told.
  destruct (a_reuse a), (a_bound a), (a_rcvbuf a), (a_getopt a), tied; cbn; by rewrite <- ?app_assoc.
Qed.

(** C32: the UDP daemon whole.  Every parent exits with its descriptors as they were.
    The daemon has closed every descriptor below 1024 and kept those above; the
    log connection, if there is one, becomes descriptor 0 and the UDP socket the
    next, which is what standard output writes to when there is a log.  Whatever
    the kernel answers, after the log and [perror] it tries to write one error at
    most and exactly once to standard output: what [printf] left in its buffer, by
    the first flush of [cout] or at exit (before the error where [cerr] is tied
    to [cout], after it where not).  All of it is refused; and if its socket is
    up, the daemon then counts its datagrams in silence. *)
Theorem daemon_socket_is_stdout tied logd p pid1 pid2 a :
  nonnegative (table p) -> log_fd p = None -> cout_bad p = false -> cerr_bad p = false -> pending p = false ->
  (0 < pid1 \/ 0 < pid2 ->
     runs (serv_main tied logd pid1 pid2 a) p (fun r p' =>
       r = None /\ table p' = table p /\ written p' = written p)) /\
  (pid1 <= 0 -> pid2 <= 0 ->
     let up := a_socket a && a_reuse a && a_bound a in
     let out := (1, if a_socket a && logd then Some UdpSocket else None) in
     let err := if up && a_rcvbuf a && a_getopt a then [] else [(2, None)] in
     runs (serv_main tied logd pid1 pid2 a) p (fun r p' =>
       r = (if up then Some (uint32 (counted (a_received a))) else None) /\
       table p' = (if a_socket a then daemon_table logd (table p) else log_table logd (table p)) /\
       written p' = written p ++ (if logd then [(0, Some LogSocket)] else []) ++ [(2, None)]
         ++ (if tied then out :: err else err ++ [out]) /\
       accepts out.2 = false)).
Proof.
  intros Hnn Hlog Hco Hce Hpe. split.
  - intros Hpid. unfold serv_main, serv_start, daemon_init. destruct (0 <? pid1) eqn:E1; go; [unfold leave; go; by rewrite Hpe|].
    destruct (0 <? pid2) eqn:E2; go; [unfold leave; go; cbn [pending set_leader]; by rewrite Hpe|]. apply Z.ltb_ge in E1, E2. lia.
  - intros H1 H2 up out err. unfold serv_main. rewrite runs_bind.
    eapply runs_mono; [by apply serv_start_runs|]. cbn beta. intros r p1 [-> ->]. subst up out err.
    destruct (a_socket a); cbn [negb andb].
    + rewrite runs_bind. unfold open_file. go. cbn [started table]. rewrite log_table_free.
      eapply runs_mono; [apply serv_loop_runs; cbn [table set_table]|].
      * apply daemon_table_2.
      * fold (daemon_table logd (table p)). rewrite daemon_table_1. by destruct logd.
      * cbn beta. intros r p' [-> ->]. split; [done|].
        destruct (loop_told_written tied a (set_table (daemon_table logd (table p)) (started logd p))) as [Et Ew]; [done..|].
        split; [exact Et|]. cbn [set_table written started table] in Ew.
        rewrite daemon_table_1 in Ew. rewrite <- !app_assoc in Ew. split; [exact Ew|by destruct logd].
    + assert (log_table logd (table p) !! 1 = None) as Hl1 by (apply log_table_low; unfold maxfd; lia).
      assert (log_table logd (table p) !! 2 = None) as Hl2 by (apply log_table_low; unfold maxfd; lia).
      rewrite runs_bind, cerr_line_runs by (by cbn [started table]; rewrite ?Hl1).
      rewrite runs_bind, leave_runs by (rewrite err_told_table; cbn [started table]; by rewrite Hl1).
      rewrite runs_ret. unfold err_told, left_told. cbn [started cerr_bad pending]. rewrite Hce.
      destruct tied; cbn; rewrite Hl1; split_and!; try done; by rewrite <- !app_assoc.
Qed.

(** Started from a shell, with a descriptor inherited above the bound. *)
Definition shell_process : process :=
  mkProcess (<[0 := Terminal]> (<[1 := Terminal]> (<[2 := Terminal]> {[1500 := Inherited 7]})))
    false false false false None false false false [].

(** Every call succeeds but the one for the size of the receive buffer. *)
Definition sample_answers : answers := Answers true true true false true [5; 0; -1; 12].

Lemma daemon_socket_is_stdout_witness :
  runs (serv_main true true 17 0 sample_answers) shell_process (fun r _ => r = None) /\
  runs (serv_main true true 0 (-1) sample_answers) shell_process (fun r p' =>
    r = Some 3 /\ table p' = <[1 := UdpSocket]> (<[0 := LogSocket]> {[1500 := Inherited 7]}) /\
    written p' = [(0, Some LogSocket); (2, None); (1, Some UdpSocket); (2, None)]).
Proof.
  assert (nonnegative (table shell_process)) as Hnn.
  { intros fd. cbn [table shell_process].
    destruct (decide (fd = 0)) as [->|]; [lia|]. rewrite lookup_insert_ne by done.
    destruct (decide (fd = 1)) as [->|]; [lia|]. rewrite lookup_insert_ne by done.
    destruct (decide (fd = 2)) as [->|]; [lia|]. rewrite lookup_insert_ne by done.
    intros [f Hf]. apply lookup_singleton_Some in Hf as [<- _]. lia. }
  split.
  - destruct (daemon_socket_is_stdout true true shell_process 17 0 sample_answers Hnn eq_refl eq_refl eq_refl eq_refl) as [Hexit _].
    eapply runs_mono; [apply Hexit; left; lia|]. cbn beta. intros r p' [Hr _]. exact Hr.
  - destruct (daemon_socket_is_stdout true true shell_process 0 (-1) sample_answers Hnn eq_refl eq_refl eq_refl eq_refl) as [_ Hrun].
    eapply runs_mono; [apply Hrun; lia|]. cbn beta. intros r p' (Hr & Ht & Hw & _).
    split; [exact Hr|]. split; [rewrite Ht; vm_compute; reflexivity|exact Hw].
Defined.
