(* ===== verification/Serv.v ===== *)
(** * Serv: the forking TCP server net/test/serv.cpp and its client cli.cpp

    The server accepts, forks, and lets the child talk to the connection while
    the parent closes it.  What [fork] returns is an argument: the same code runs
    on as the parent and as the child.  Of the client only the beginning is here:
    it writes outside an array before its first call. *)

From S2P Require Import Prelude Bytes Kernel NetHost.

Definition MAXLEN : Z := 1024.

Section Serv.
Context {K : Type} `{Kernel Z K} `{Host} `{InetAton}.
Abbreviation M := (prog (net_state K)).

(** Lines 21-49: the listening descriptor, or [None] for an early return. *)
Definition setup : M (option Z) :=
  sock ← nsys SysSocket;
  let listenfd := ret_int sock in
  if listenfd =? -1 then mret None else
  let '(aton, addr) := match inet_aton "127.0.0.1" with
                       | Some a => (1, a) | None => (0, 0) end in
  if aton =? -1 then mret None else
  let servaddr := SockAddr AF_INET (htons (uint16 6543)) addr in
  bound ← nsys (SysBind listenfd servaddr);
  if ret_unit bound =? -1 then mret None else
  heard ← nsys (SysListen listenfd 128);
  if ret_unit heard =? -1 then mret None else mret (Some listenfd).

(** Lines 61-70: [while (connfd)]; [buf] holds 1025 bytes and is never cleared. *)
Fixpoint child_loop (fuel : nat) (connfd : Z) (buf : list byte) : M unit :=
  match fuel with
  | O => fail OutOfFuel
  | S fuel' =>
      if connfd =? 0 then mret tt
      else
        r ← nsys (SysRecv connfd MAXLEN);
        match r with
        | SysOk data =>
            buf' ← lift (mem_write 0 data buf);
            if 0 <? zlen data then
              print_string buf' ;;
              write_ connfd nihao ;;
              child_loop fuel' connfd buf'
            else mret tt
        | SysErr _ => mret tt
        end
  end.

(** Lines 60-72: the child, which then exits with 0. *)
Definition child (fuel : nat) (listenfd connfd : Z) (buf : list byte) : M unit :=
  call_ (SysClose listenfd) ;; child_loop fuel connfd buf ;; call_ (SysClose connfd).

(** Lines 51-74: one round, in a process to which [fork] returns [pid]; the
    result is the status with which the process exits.  A failed [accept] is not
    noticed. *)
Definition round (fuel : nat) (listenfd pid : Z) (buf : list byte) : M (option Z) :=
  accepted ← nsys (SysAccept listenfd);
  let connfd := match accepted with SysOk (fd, _) => fd | SysErr _ => -1 end in
  if pid =? -1 then mret (Some 1)
  else if pid =? 0 then child fuel listenfd connfd buf ;; mret (Some 0)
  else call_ (SysClose connfd) ;; mret None.

(** The rounds of one process, for what its [fork]s return. *)
Fixpoint rounds (fuel : nat) (listenfd : Z) (pids : list Z) (buf : list byte) : M (option Z) :=
  match pids with
  | [] => mret None
  | pid :: pids' =>
      r ← round fuel listenfd pid buf;
      match r with Some status => mret (Some status) | None => rounds fuel listenfd pids' buf end
  end.
End Serv.

(** ** cli.cpp *)

Definition CLI_MAXLEN : Z := 256.

(** Lines 22-26: the loop over both halves of [sendbuf] and the store behind it. *)
Definition fill_sendbuf : prog (list byte) unit :=
  for_each (fun loop =>
      buf ← get_st;
      buf ← lift (mem_write (Z.of_nat loop) [Byte.x61] buf);
      buf ← lift (mem_write (Z.of_nat loop + 128) [Byte.x62] buf);
      modify (fun _ => buf)) (seq 0 128) ;;
  buf ← get_st;
  buf ← lift (mem_write 512 [Byte.x00] buf);
  modify (fun _ => buf).
