(* ===== verification/ServTheorems.v ===== *)
(** * ServTheorems: the descriptors of the forking server *)

From S2P Require Import Prelude Bytes Kernel NetHost Serv ScriptKernel Safety NetTheorems Serv2Theorems.

Section Theorems.
Context {K : Type} `{KernelLaws Z K} `{Host} `{InetAton}.
Implicit Type s : net_state K.

Definition opens s : gset Z := k_open (n_kernel s).
Definition sent s : Z -> list byte := k_sent (n_kernel s).

(** Descriptors are not negative. *)
Definition sane s : Prop := forall fd, fd ∈ opens s -> 0 <= fd.

Lemma close_opens fd s : opens (net_after (SysClose fd) s) = (opens s ∖ {[fd]}) /\ sent (net_after (SysClose fd) s) = sent s.
Proof.
  unfold opens, sent. rewrite !net_after_kernel. pose proof (law_close fd (n_kernel s)) as Hc.
  destruct (sys_exec (SysClose fd) (n_kernel s)) as [r k]. cbn. by destruct Hc as (-> & _ & ->).
Qed.

Lemma recv_opens fd n s : opens (net_after (SysRecv fd n) s) = opens s /\ sent (net_after (SysRecv fd n) s) = sent s.
Proof. unfold opens, sent. rewrite !net_after_kernel. by destruct (law_quiet (SysRecv fd n) (n_kernel s) eq_refl) as (-> & _ & ->). Qed.

Lemma write_opens fd data s : opens (net_after (SysWrite fd data) s) = opens s.
Proof.
  unfold opens. rewrite net_after_kernel. pose proof (law_write fd data (n_kernel s)) as Hw.
  destruct (sys_exec (SysWrite fd data) (n_kernel s)) as [r k]. cbn. by destruct Hw as [-> _].
Qed.

(** What [accept] answers, and what it opens. *)
Lemma accept_opens lfd s :
  let connfd := match net_answer (SysAccept lfd) s with SysOk (fd, _) => fd | SysErr _ => -1 end in
  sane s -> ((opens (net_after (SysAccept lfd) s) ∖ {[connfd]}) = opens s) /\ ~ (connfd ∈ opens s) /\
  sent (net_after (SysAccept lfd) s) = sent s /\ sane (net_after (SysAccept lfd) s).
Proof.
  intros connfd Hs. unfold opens, sent, sane in *. subst connfd. unfold net_answer. unfold opens. rewrite net_after_kernel.
  pose proof (law_accept lfd (n_kernel s)) as Ha. destruct (sys_exec (SysAccept lfd) (n_kernel s)) as [r k]. cbn.
  destruct Ha as (_ & Hsent & Ho). destruct r as [[fd addr]|e].
  - destruct Ho as (Hfd & Hnew & ->). split; [set_solver|]. split; [done|]. split; [done|]. set_solver.
  - rewrite Ho. assert (-1 ∉ k_open (n_kernel s)) by (intros Hin; specialize (Hs _ Hin); lia).
    split; [set_solver|]. by split.
Qed.

(** A write that does not meet a closed connection. *)
Lemma write_eq fd data s :
  net_answer (SysWrite fd data) s <> SysErr EPIPE -> write_ fd data s = Ok (tt, net_after (SysWrite fd data) s).
Proof.
  intros Hne. unfold write_. rewrite (bind_eq _ _ _ _ _ (nsys_eq _ _)).
  destruct (net_answer (SysWrite fd data) s) as [n|e]; [done|]. by rewrite (proj2 (Z.eqb_neq e EPIPE)) by congruence.
Qed.

(** The buffer of a child: its last byte, which no message reaches, is zero. *)
Definition terminated (buf : list byte) : Prop := exists pre, buf = pre ++ [Byte.x00] /\ zlen pre = MAXLEN.

Lemma terminated_write buf data :
  terminated buf -> zlen data <= MAXLEN ->
  mem_write 0 data buf = Ok (splice 0 data buf) /\ terminated (splice 0 data buf) /\
  exists line, c_string (splice 0 data buf) = Some line.
Proof.
  intros (pre & -> & Hpre) Hd. pose proof (zlen_nonneg data).
  split; [|rewrite splice_front by lia; split; [|apply c_string_last]].
  - apply mem_write_Ok; [lia|]. rewrite zlen_app. change (zlen [Byte.x00]) with 1. lia.
  - exists (data ++ drop (length data) pre). split; [done|]. rewrite zlen_app.
    unfold zlen in *. rewrite length_drop. lia.
Qed.

(** How a child can come to an end other than [exit]: it has not, or its client is
    gone when it writes. *)
Definition lost (f : fault) : Prop := f = OutOfFuel \/ f = SigPipe.

Lemma write_keeps fd data s (Q : unit -> net_state K -> Prop) :
  Q tt (net_after (SysWrite fd data) s) -> safe lost (write_ fd data) s Q.
Proof. intros HQ. unfold write_. apply safe_bind, safe_nsys. repeat case_match; try exact HQ. by right. Qed.

(** The loop of the child opens and closes nothing; it ends or goes on. *)
Lemma child_loop_opens fuel connfd buf s :
  terminated buf -> safe lost (child_loop fuel connfd buf) s (fun _ s' => opens s' = opens s).
Proof.
  revert buf s. induction fuel as [|fuel IH]; intros buf s Hbuf; cbn [child_loop]; [by left|].
  destruct (connfd =? 0); [done|]. apply safe_bind, safe_nsys.
  destruct (recv_opens connfd MAXLEN s) as [Hr _].
  pose proof (law_recv connfd MAXLEN (n_kernel s)) as Hlaw. unfold net_answer.
  destruct (sys_exec (SysRecv connfd MAXLEN) (n_kernel s)).1 as [data|e]; [|exact Hr].
  destruct (terminated_write buf data Hbuf) as (-> & Hbuf' & line & Hline); [by apply Hlaw|].
  apply safe_bind, safe_lift; [|done]. intros buf' [= <-]. case_match; [|exact Hr].
  apply safe_bind. unfold print_string. rewrite Hline. apply safe_bind, safe_ret, safe_modify.
  apply safe_bind, write_keeps. eapply safe_mono; [by apply IH|cbn beta]. intros _ s' ->.
  by rewrite write_opens.
Qed.

(** One round of a parent. *)
Lemma parent_round fuel listenfd pid buf s :
  sane s -> 0 < pid ->
  runs (round fuel listenfd pid buf) s (fun status s' => status = None /\ opens s' = opens s /\ sent s' = sent s).
Proof.
  intros Hs Hpid. unfold round, runs. rewrite (bind_eq _ _ _ _ _ (nsys_eq _ _)).
  destruct (accept_opens listenfd s Hs) as (Ho & _ & Hsent & _).
  set (connfd := match net_answer (SysAccept listenfd) s with SysOk (fd, _) => fd | SysErr _ => -1 end) in *.
  rewrite (proj2 (Z.eqb_neq pid (-1))), (proj2 (Z.eqb_neq pid 0)) by lia.
  rewrite (bind_eq _ _ _ _ _ (call_eq _ _)). split; [done|].
  destruct (close_opens connfd (net_after (SysAccept listenfd) s)) as [-> ->]. by rewrite Ho, Hsent.
Qed.

(** The round of a child. *)
Lemma child_round fuel listenfd buf s :
  sane s -> terminated buf ->
  safe lost (round fuel listenfd 0 buf) s (fun status s' =>
    status = Some 0 /\ opens s' = (opens s ∖ {[listenfd]})).
Proof.
  intros Hs Hbuf. unfold round. apply safe_bind, safe_nsys.
  destruct (accept_opens listenfd s Hs) as (Ho & _ & _ & _).
  set (connfd := match net_answer (SysAccept listenfd) s with SysOk (fd, _) => fd | SysErr _ => -1 end) in *.
  apply safe_bind. unfold child. apply safe_bind, safe_call, safe_bind.
  eapply safe_mono; [by apply child_loop_opens|cbn beta]. intros _ s1 Ho1. apply safe_call, safe_ret. split; [done|].
  rewrite (proj1 (close_opens connfd s1)), Ho1, (proj1 (close_opens listenfd _)), <- Ho. set_solver.
Qed.

(** C30: serv.cpp neither leaks descriptors nor keeps the connections it hands to
    its children: whatever the kernel answers, any number of rounds as a parent ends
    without a fault and with open exactly what was open at first, and has sent
    nothing; and a child of the last of them either is still talking to its client or
    has exited with 0 and closed the listening descriptor and its connection, unless
    its client left before it wrote and SIGPIPE ended it; with a buffer whose last
    byte is zero nothing else can happen to it.  A failed [accept]
    is no exception: it costs a fork, whose child reads from descriptor -1. *)
Theorem rounds_keep_descriptors fuel listenfd parents buf s :
  sane s -> Forall (Z.lt 0) parents ->
  runs (rounds fuel listenfd parents buf) s (fun status s' =>
    status = None /\ opens s' = opens s /\ sent s' = sent s) /\
  (terminated buf ->
   safe lost (rounds fuel listenfd (parents ++ [0]) buf) s (fun status s' =>
     status = Some 0 /\ opens s' = (opens s ∖ {[listenfd]}))).
Proof.
  intros Hs Hall. revert s Hs. induction Hall as [|pid pids Hpid _ IH]; intros s Hs; cbn [app rounds].
  - split; [done|]. intros Hbuf. apply safe_bind. eapply safe_mono; [by apply child_round|cbn beta].
    by intros status s' [-> Ho].
  - assert (forall s1, opens s1 = opens s -> sane s1) as Hsane by (unfold sane; by intros s1 ->).
    pose proof (parent_round fuel listenfd pid buf s Hs Hpid) as Hr. split; [|intros Hbuf].
    + rewrite runs_bind. eapply runs_mono; [exact Hr|cbn beta]. intros ? s1 (-> & Ho & Hsent).
      destruct (IH s1 (Hsane s1 Ho)) as [IHp _]. by rewrite <- Ho, <- Hsent.
    + apply safe_bind. eapply safe_mono; [apply safe_runs, Hr|cbn beta]. intros ? s1 (-> & Ho & _).
      destruct (IH s1 (Hsane s1 Ho)) as [_ IHc]. rewrite <- Ho. by apply IHc.
Qed.

(** A child prints more than it received: behind a shorter message stands the
    end of the one before, because the buffer is not cleared. *)
Theorem serv_prints_stale_bytes fuel connfd d1 d2 rest s :
  connfd <> 0 -> nonzero d1 -> nonzero d2 -> zlen d2 < zlen d1 -> d2 <> [] ->
  zlen d1 + 1 + zlen rest = MAXLEN + 1 ->
  net_answer (SysRecv connfd MAXLEN) s = SysOk d1 ->
  (let s1 := net_after (SysWrite connfd nihao) (add_printed d1 (net_after (SysRecv connfd MAXLEN) s)) in
   net_answer (SysWrite connfd nihao) (add_printed d1 (net_after (SysRecv connfd MAXLEN) s)) <> SysErr EPIPE /\
   net_answer (SysRecv connfd MAXLEN) s1 = SysOk d2 /\
   net_answer (SysWrite connfd nihao) (add_printed (d2 ++ drop (length d2) d1) (net_after (SysRecv connfd MAXLEN) s1))
     <> SysErr EPIPE) ->
  forall buf, length buf = S (length d1 + length rest) -> drop (length d1) buf = Byte.x00 :: rest ->
  exists s2, n_printed s2 = n_printed s ++ [d1; d2 ++ drop (length d2) d1] /\
    child_loop (S (S fuel)) connfd buf s = child_loop fuel connfd ((d2 ++ drop (length d2) d1) ++ Byte.x00 :: rest) s2.
Proof.
  intros Hfd Hn1 Hn2 Hlt Hne2 Hsize Ha1 (Hw1 & Ha2 & Hw2) buf Hlen Hdrop.
  assert (forall f b d txt s0, net_answer (SysRecv connfd MAXLEN) s0 = SysOk d -> d <> [] -> zlen d <= zlen b ->
    c_string (d ++ drop (length d) b) = Some txt ->
    net_answer (SysWrite connfd nihao) (add_printed txt (net_after (SysRecv connfd MAXLEN) s0)) <> SysErr EPIPE ->
    child_loop (S f) connfd b s0 = child_loop f connfd (d ++ drop (length d) b)
      (net_after (SysWrite connfd nihao) (add_printed txt (net_after (SysRecv connfd MAXLEN) s0)))) as Hstep.
  { intros f b d txt s0 Ha Hne Hle Ht Hw. cbn [child_loop]. rewrite (proj2 (Z.eqb_neq connfd 0)) by done.
    rewrite (bind_eq _ _ _ _ _ (nsys_eq _ _)), Ha, mem_write_0 by done.
    rewrite (bind_eq _ _ _ (d ++ drop (length d) b) (net_after (SysRecv connfd MAXLEN) s0)) by done.
    rewrite (proj2 (Z.ltb_lt 0 _)) by (destruct d; [done|unfold zlen; cbn; lia]).
    rewrite (bind_eq _ _ _ tt (add_printed txt (net_after (SysRecv connfd MAXLEN) s0)))
      by (unfold print_string; by rewrite Ht).
    by rewrite (bind_eq _ _ _ _ _ (write_eq _ _ _ Hw)). }
  assert (d1 <> []) as Hne1 by (intros ->; unfold zlen in Hlt; cbn in Hlt; lia).
  rewrite (Hstep (S fuel) buf d1 d1) by (done || (unfold zlen; lia) || (rewrite Hdrop; by apply c_string_nonzero)).
  rewrite Hdrop.
  assert (drop (length d2) (d1 ++ Byte.x00 :: rest) = drop (length d2) d1 ++ Byte.x00 :: rest) as Hd2
    by (apply drop_app_le; unfold zlen in Hlt; lia).
  assert (nonzero (d2 ++ drop (length d2) d1)) as Hnn by (apply Forall_app; split; [done|by apply Forall_drop]).
  rewrite (Hstep fuel (d1 ++ Byte.x00 :: rest) d2 (d2 ++ drop (length d2) d1));
    [|done|done|rewrite zlen_app; pose proof (zlen_nonneg (Byte.x00 :: rest)); lia|
     rewrite Hd2, app_assoc; by apply c_string_nonzero|done].
  rewrite Hd2, app_assoc. eexists. split; [|reflexivity].
  repeat (rewrite (proj2 (net_after_rest _ _)); cbn [n_printed add_printed]). by rewrite <- app_assoc.
Qed.
End Theorems.

(** ** The client *)

Lemma bind_ok {S A B} (m : prog S A) (k : A -> prog S B) s a s' : m s = Ok (a, s') -> (m ≫= k) s = k a s'.
Proof. unfold mbind, prog_bind. by intros ->. Qed.

(** One round of the loop stays inside the array. *)
Lemma fill_round i (b : list byte) :
  length b = 257%nat -> (i < 128)%nat ->
  exists b', length b' = 257%nat /\
    (buf ← get_st; buf ← lift (mem_write (Z.of_nat i) [Byte.x61] buf);
     buf ← lift (mem_write (Z.of_nat i + 128) [Byte.x62] buf); modify (fun _ => buf)) b = Ok (tt, b').
Proof.
  intros Hb Hi. exists (splice (Z.of_nat i + 128) [Byte.x62] (splice (Z.of_nat i) [Byte.x61] b)).
  change (zlen [Byte.x61]) with 1.
  assert (zlen b = 257) as Hz by (unfold zlen; lia).
  assert (zlen (splice (Z.of_nat i) [Byte.x61] b) = 257) as H1
    by (rewrite zlen_splice; [done|lia|change (zlen [Byte.x61]) with 1; lia]).
  split.
  - assert (zlen (splice (Z.of_nat i + 128) [Byte.x62] (splice (Z.of_nat i) [Byte.x61] b)) = 257) as H2;
      [|unfold zlen in H2; lia]. rewrite zlen_splice; [done|lia|change (zlen [Byte.x62]) with 1; lia].
  - unfold mbind, prog_bind, get_st, lift, modify.
    rewrite mem_write_Ok by (change (zlen [Byte.x61]) with 1; lia).
    rewrite mem_write_Ok by (change (zlen [Byte.x62]) with 1; lia). done.
Qed.

(** Cli.cpp stores its terminator at index 512 of an array of 257 bytes: it is
    undefined before it has made a call. *)
Lemma client_writes_outside buf : length buf = 257%nat -> ends fill_sendbuf buf (Undefined OutOfBounds).
Proof.
  intros Hl. unfold ends, fill_sendbuf. set (body := fun loop : nat => _).
  assert (forall l b, length b = 257%nat -> Forall (fun i => i < 128)%nat l ->
    exists b', for_each body l b = Ok (tt, b') /\ length b' = 257%nat) as Hloop.
  { induction l as [|i l IH]; intros b Hb Hall; [by exists b|]. inversion Hall as [|? ? Hi Hall']; subst.
    destruct (fill_round i b Hb Hi) as (b1 & Hb1 & E). cbn [for_each]. rewrite (bind_ok _ _ _ _ _ E). by apply IH. }
  destruct (Hloop (seq 0 128) buf Hl) as (b' & Hb & Hl').
  { apply Forall_forall. intros i Hi%elem_of_seq. lia. }
  rewrite (bind_ok _ _ _ tt b' Hb). unfold mbind, prog_bind, get_st, lift, mem_write, in_bounds, zlen. rewrite Hl'. done.
Qed.

(** ** A server with one client *)

#[local] Existing Instance net_host.
#[local] Existing Instance net_inet.

(** The listening descriptor is 3; the client says "hi" and "x", and leaves. *)
Definition serv_up : net_state (script Z) :=
  ran setup (net_start [SysOk hello; SysOk [Byte.x78]; SysOk []] [] [SysOk (7, client_addr)] []).
Definition blank : list byte := replicate 1025 Byte.x00.

Lemma serv_up_sane : sane serv_up.
Proof.
  intros fd. assert (opens serv_up = {[3]}) as -> by (vm_compute; reflexivity).
  intros ->%elem_of_singleton. lia.
Qed.

Lemma rounds_keep_descriptors_witness :
  runs (rounds 4 3 [99; 100] blank) serv_up (fun status s' =>
    status = None /\ opens s' = opens serv_up /\ sent s' = sent serv_up) /\
  safe lost (rounds 4 3 [0] blank) serv_up (fun status s' =>
    status = Some 0 /\ opens s' = (opens serv_up ∖ {[3]})) /\
  sk_sent_by (n_kernel (ran (rounds 4 3 [0] blank) serv_up)) 7 = nihao ++ nihao.
Proof.
  split; [|split; [|vm_compute; reflexivity]].
  - exact (proj1 (rounds_keep_descriptors 4 3 [99; 100] blank serv_up serv_up_sane ltac:(repeat constructor))).
  - apply (proj2 (rounds_keep_descriptors 4 3 [] blank serv_up serv_up_sane ltac:(constructor))).
    by exists (replicate 1024 Byte.x00).
Defined.

Lemma serv_prints_stale_bytes_witness :
  let s := ran (_ ← nsys (SysAccept 3); mret tt) serv_up in
  exists s2, n_printed s2 = [hello; [Byte.x78; Byte.x69]] /\
    child_loop 3 7 blank s = child_loop 1 7 ([Byte.x78; Byte.x69] ++ replicate 1023 Byte.x00) s2.
Proof.
  cbv zeta. set (s := ran (_ ← nsys (SysAccept 3); mret tt) serv_up).
  apply (serv_prints_stale_bytes 1 7 hello [Byte.x78] (replicate 1022 Byte.x00) s).
  - discriminate.
  - repeat constructor; discriminate.
  - repeat constructor; discriminate.
  - vm_compute. reflexivity.
  - discriminate.
  - vm_compute. reflexivity.
  - vm_compute. reflexivity.
  - split; [vm_compute; discriminate|]. split; vm_compute; [reflexivity|discriminate].
  - vm_compute. reflexivity.
  - vm_compute. reflexivity.
Defined.

Lemma client_writes_outside_witness :
  ends fill_sendbuf (replicate 257 Byte.x00) (Undefined OutOfBounds).
Proof. apply client_writes_outside. reflexivity. Defined.
