(* ===== verification/Signals.v ===== *)
(** * Signals: net/sig/main.c and the handlers of net/myser2/net.cpp

    A process has handlers, a mask and a set of pending signals, which holds a
    signal once however often it was raised. *)

From S2P Require Import Prelude.

(** The numbers of Linux. *)
Definition SIGHUP : Z := 1.
Definition SIGINT : Z := 2.
Definition SIGQUIT : Z := 3.
Definition SIGILL : Z := 4.
Definition SIGBUS : Z := 7.
Definition SIGFPE : Z := 8.
Definition SIGPIPE : Z := 13.
Definition SIGTERM : Z := 15.
Definition SIGCHLD : Z := 17.

Record signals (H : Type) := Signals {
  handlers : gmap Z H;
  blocked : gset Z;
  pending : gset Z
}.
Arguments Signals {H}.
Arguments handlers {H}.
Arguments blocked {H}.
Arguments pending {H}.

Section Calls.
Context {H : Type}.
Implicit Types (s : signals H) (sig : Z) (set : gset Z).

(** A new program has no handlers; it keeps the mask of its parent. *)
Definition fresh (mask : gset Z) : signals H := Signals ∅ mask ∅.

Definition sigaction sig (h : H) s : signals H := Signals (<[sig := h]> (handlers s)) (blocked s) (pending s).
Definition set_mask set s : signals H := Signals (handlers s) set (pending s).
(** [sigprocmask(SIG_BLOCK, set)] and [sigprocmask(SIG_UNBLOCK, set)] *)
Definition sig_block set s : signals H := set_mask (blocked s ∪ set) s.
Definition sig_unblock set s : signals H := set_mask (blocked s ∖ set) s.

Definition raise sig s : signals H := Signals (handlers s) (blocked s) ({[sig]} ∪ pending s).
Definition accepted sig s : signals H := Signals (handlers s) (blocked s) (pending s ∖ {[sig]}).

(** What is pending and not blocked. *)
Definition deliverable s : gset Z := pending s ∖ blocked s.

(** [fork] copies handlers and mask; nothing is pending in the child. *)
Definition inherited s : signals H := Signals (handlers s) (blocked s) ∅.

Inductive delivery := Runs (h : H) | Ignored | Kills.

(** The default action of the signals used here is to end the process, except
    for [SIGCHLD]. *)
Definition delivery_of sig s : delivery :=
  match handlers s !! sig with
  | Some h => Runs h
  | None => if sig =? SIGCHLD then Ignored else Kills
  end.
End Calls.
Arguments delivery : clear implicits.

(** ** net/sig/main.c *)
Module SigMain.

Inductive handler := kill_handler | sigcld_handler.
Inductive line := SigFpe (sig : Z) | SigChild (sig : Z) | Cccccc11 | Cccccc22 | Pppppp11 | Pppppp22.

#[export] Instance line_eq_dec : EqDecision line.
Proof. solve_decision. Defined.

(** What a handler prints. *)
Definition says (h : handler) (sig : Z) : line :=
  match h with kill_handler => SigFpe sig | sigcld_handler => SigChild sig end.

(** Lines 16-25. *)
Definition set_up (mask : gset Z) : signals handler :=
  sigaction SIGCHLD sigcld_handler (sig_block {[SIGFPE]} (sigaction SIGFPE kill_handler (fresh mask))).

Inductive who := Parent | Child.

#[export] Instance who_eq_dec : EqDecision who.
Proof. solve_decision. Defined.

(** The next call of a process; only the parent comes by [Kill]. *)
Inductive pc := Print11 | Kill | Sleep | Print22 | Return | Gone.

#[export] Instance pc_eq_dec : EqDecision pc.
Proof. solve_decision. Defined.

Record process := Process { p_pc : pc; p_sig : signals handler; p_out : list line }.
Record state := State { parent : process; child : process }.

Definition process_of (w : who) (s : state) : process := match w with Parent => parent s | Child => child s end.
Definition set_process (w : who) (p : process) (s : state) : state :=
  match w with Parent => State p (child s) | Child => State (parent s) p end.

Definition goto (c : pc) (p : process) : process := Process c (p_sig p) (p_out p).
Definition say (l : line) (p : process) : process := Process (p_pc p) (p_sig p) (p_out p ++ [l]).
Definition raise_in (sig : Z) (p : process) : process := Process (p_pc p) (raise sig (p_sig p)) (p_out p).

(** The end of a process; the child's is told to the parent. *)
Definition die (w : who) (s : state) : state :=
  let s := set_process w (goto Gone (process_of w s)) s in
  match w with Parent => s | Child => set_process Parent (raise_in SIGCHLD (parent s)) s end.

(** A call of [w]; before it returns, every signal that can be has been
    delivered.  The processes sleep for ten seconds at most. *)
Definition call (w : who) (s : state) : option state :=
  let p := process_of w s in
  guard (deliverable (p_sig p) = ∅);;
  match p_pc p with
  | Print11 =>
      Some (set_process w (match w with
                           | Parent => goto Kill (say Pppppp11 p)
                           | Child => goto Sleep (say Cccccc11 p)
                           end) s)
  | Kill => Some (set_process w (goto Sleep p) (set_process Child (raise_in SIGFPE (child s)) s))
  | Sleep => Some (set_process w (goto Print22 p) s)
  | Print22 => Some (set_process w (goto Return (say (match w with Parent => Pppppp22 | Child => Cccccc22 end) p)) s)
  | Return => Some (die w s)
  | Gone => None
  end.

(** The delivery of [sig] to [w]: a handler runs, and ends a sleep. *)
Definition deliver (w : who) (sig : Z) (s : state) : option state :=
  let p := process_of w s in
  guard (p_pc p <> Gone);; guard (sig ∈ deliverable (p_sig p));;
  let p' := Process (p_pc p) (accepted sig (p_sig p)) (p_out p) in
  match delivery_of sig (p_sig p) with
  | Runs h => Some (set_process w (say (says h sig) (if decide (p_pc p = Sleep) then goto Print22 p' else p')) s)
  | Ignored => Some (set_process w p' s)
  | Kills => Some (die w (set_process w p' s))
  end.

Inductive step (s : state) : state -> Prop :=
  | StepCall w s' : call w s = Some s' -> step s s'
  | StepDeliver w sig s' : deliver w sig s = Some s' -> step s s'.

(** [main] from the [fork]: the two processes, or the result when it fails. *)
Definition main (forks : bool) (mask : gset Z) : state + Z :=
  let s := set_up mask in
  if forks then inl (State (Process Print11 s []) (Process Print11 (inherited s) [])) else inr (-1).
End SigMain.

(** ** The handlers of net/myser2/net.cpp *)
Module Reaper.

Inductive handler := sigterm_handler | sighup_handler | sigpipe_handler | sigchild_handler.

(** Lines 33-57 of [init_proc], were they reached, which set no other flag than [SA_RESTART] and
    [SA_SIGINFO]: a handler runs with its own signal blocked. *)
Definition init_signals (mask : gset Z) : signals handler :=
  sig_unblock {[SIGBUS; SIGILL; SIGCHLD; SIGFPE]}
    (sigaction SIGCHLD sigchild_handler
    (sigaction SIGHUP sighup_handler
    (sigaction SIGPIPE sigpipe_handler
    (sigaction SIGQUIT sigterm_handler
    (sigaction SIGTERM sigterm_handler
    (sigaction SIGINT sigterm_handler (fresh mask))))))).

(** A line: a handler's name, or a child with its status. *)
Inductive line := Ran (h : handler) | Reaped (h : handler) (pid status : Z).

(** A handler that runs, the child it has found and not yet printed, and the mask
    to which it returns. *)
Record frame := Frame { f_handler : handler; f_found : option (Z * Z); f_saved : gset Z }.

Record server := Server {
  sv_sig : signals handler;
  sv_stack : list frame;         (* the handlers that run, the innermost first *)
  sv_zombies : list (Z * Z);     (* children that have ended and not been waited for *)
  sv_exited : list (Z * Z);      (* all that have ended *)
  sv_killed : bool;
  sv_out : list line
}.

(** [waitpid(-1, &status, WNOHANG)] finds any of the zombies. *)
Definition waitpid (choice : nat) (s : server) : option ((Z * Z) * list (Z * Z)) :=
  match sv_zombies s !! choice with
  | Some z => Some (z, delete choice (sv_zombies s))
  | None => None
  end.

Definition pop (s : server) (out : list line) : server :=
  match sv_stack s with
  | [] => s
  | f :: rest => Server (set_mask (f_saved f) (sv_sig s)) rest (sv_zombies s) (sv_exited s) (sv_killed s) (sv_out s ++ out)
  end.

Definition find (z : option (Z * Z)) (zombies : list (Z * Z)) (out : list line) (s : server) : server :=
  match sv_stack s with
  | [] => s
  | f :: rest =>
      Server (sv_sig s) (Frame (f_handler f) z (f_saved f) :: rest) zombies (sv_exited s) (sv_killed s) (sv_out s ++ out)
  end.

(** A step of [while ((pid = waitpid(...)) > 0)] in the innermost handler [f]: it
    prints the child it has found, or asks for another one. *)
Definition wait_step (f : frame) (choice : nat) (s : server) : option server :=
  match f_found f with
  | Some (pid, status) => Some (find None (sv_zombies s) [Reaped (f_handler f) pid status] s)
  | None =>
      if decide (sv_zombies s = []) then Some (pop s [])
      else '(z, rest) ← waitpid choice s; Some (find (Some z) rest [] s)
  end.

(** The innermost handler goes on: the first two print and return, the others
    wait for children until there are no more. *)
Definition handler_step (choice : nat) (s : server) : option server :=
  match sv_stack s with
  | [] => None
  | f :: _ =>
      match f_handler f with
      | (sigterm_handler | sighup_handler) as h => Some (pop s [Ran h])
      | sigpipe_handler | sigchild_handler => wait_step f choice s
      end
  end.

Definition deliver (sig : Z) (s : server) : option server :=
  guard (sig ∈ deliverable (sv_sig s));;
  let s' := Server (accepted sig (sv_sig s)) (sv_stack s) (sv_zombies s) (sv_exited s) (sv_killed s) (sv_out s) in
  match delivery_of sig (sv_sig s) with
  | Runs h =>
      Some (Server (sig_block {[sig]} (sv_sig s')) (Frame h None (blocked (sv_sig s)) :: sv_stack s)
              (sv_zombies s) (sv_exited s) (sv_killed s) (sv_out s))
  | Ignored => Some s'
  | Kills => Some (Server (sv_sig s') (sv_stack s) (sv_zombies s) (sv_exited s) true (sv_out s))
  end.

(** What the server does by itself. *)
Inductive internal (s : server) : server -> Prop :=
  | Handles choice s' : sv_killed s = false -> handler_step choice s = Some s' -> internal s s'
  | Delivers sig s' : sv_killed s = false -> deliver sig s = Some s' -> internal s s'.

(** What happens to it: a child ends, or somebody sends a signal. *)
Inductive external (s : server) : server -> Prop :=
  | Exits pid status :
      external s (Server (raise SIGCHLD (sv_sig s)) (sv_stack s) (sv_zombies s ++ [(pid, status)])
                    (sv_exited s ++ [(pid, status)]) (sv_killed s) (sv_out s))
  | Sent sig :
      external s (Server (raise sig (sv_sig s)) (sv_stack s) (sv_zombies s) (sv_exited s) (sv_killed s) (sv_out s)).

(** The children that the handlers have reported. *)
Definition reported (s : server) : list (Z * Z) :=
  omap (fun l => match l with Reaped _ pid status => Some (pid, status) | Ran _ => None end) (sv_out s).

(** The children that handlers have found and are about to report. *)
Definition found (s : server) : list (Z * Z) := omap f_found (sv_stack s).

(** With the handlers in place.  [init_proc] never gets here as it stands: its loop
    before line 33 dereferences a null queue (Myser.v); this is what the handlers
    do where they are installed. *)
Definition start (mask : gset Z) : server := Server (init_signals mask) [] [] [] false [].
End Reaper.
