(* ===== verification/SignalsTheorems.v ===== *)
(** * SignalsTheorems: a blocked signal, and children that are waited for *)

From stdpp Require Import relations.
From S2P Require Import Prelude Signals.

(** ** net/sig/main.c *)
Module SigMainTheorems.
Import SigMain.
Implicit Types (mask : gset Z) (s : state) (p : process).

(** What a process has printed itself when it comes to [c]. *)
Definition lines (w : who) (c : pc) : list line :=
  let '(l1, l2) := match w with Parent => (Pppppp11, Pppppp22) | Child => (Cccccc11, Cccccc22) end in
  match c with Print11 => [] | Kill | Sleep | Print22 => [l1] | Return | Gone => [l1; l2] end.

#[local] Arguments lines : simpl never.

(** The child prints its own lines only.  The parent may have learnt of its end:
    not yet, on the way, or in a line among its own. *)
Inductive told s : Prop :=
  | NotYet : pending (p_sig (parent s)) = ∅ -> p_out (parent s) = lines Parent (p_pc (parent s)) -> told s
  | OnTheWay : p_pc (child s) = Gone -> pending (p_sig (parent s)) = {[SIGCHLD]} ->
      p_out (parent s) = lines Parent (p_pc (parent s)) -> told s
  | Told a b : p_pc (child s) = Gone -> pending (p_sig (parent s)) = ∅ ->
      p_out (parent s) = a ++ SigChild SIGCHLD :: b -> a ++ b = lines Parent (p_pc (parent s)) -> told s.

Record inv mask s : Prop := {
  i_handlers w : handlers (p_sig (process_of w s)) = handlers (set_up mask);
  i_blocked w : blocked (p_sig (process_of w s)) = mask ∪ {[SIGFPE]};
  i_child : pending (p_sig (child s)) ⊆ {[SIGFPE]};
  i_child_pc : p_pc (child s) <> Kill;
  i_child_out : p_out (child s) = lines Child (p_pc (child s));
  i_told : told s
}.

Definition parent_cost (c : pc) : nat :=
  match c with Print11 => 5 | Kill => 4 | Sleep => 3 | Print22 => 2 | Return => 1 | Gone => 0 end.
Definition child_cost (c : pc) : nat :=
  match c with Print11 => 5 | Kill => 5 | Sleep => 4 | Print22 => 3 | Return => 2 | Gone => 0 end.
(** The calls left, and the delivery of [SIGCHLD]. *)
Definition cost s : nat :=
  parent_cost (p_pc (parent s)) + child_cost (p_pc (child s)) + size (pending (p_sig (parent s))).

Lemma child_quiet mask s : inv mask s -> deliverable (p_sig (child s)) = ∅.
Proof.
  intros Hi. unfold deliverable. rewrite (i_blocked mask s Hi Child : blocked (p_sig (child s)) = _).
  pose proof (i_child mask s Hi). set_solver.
Qed.

Lemma parent_delivers mask s sig :
  inv mask s -> sig ∈ deliverable (p_sig (parent s)) ->
  sig = SIGCHLD /\ p_pc (child s) = Gone /\ pending (p_sig (parent s)) = {[SIGCHLD]} /\
  p_out (parent s) = lines Parent (p_pc (parent s)).
Proof.
  intros Hi Hs. unfold deliverable in Hs.
  destruct (i_told mask s Hi) as [E _|Hg E Ho|a b _ E _ _]; rewrite E in Hs; [set_solver| |set_solver].
  split; [set_solver|done].
Qed.

Lemma sig_start_inv mask s : main true mask = inl s -> inv mask s /\ cost s = 10%nat.
Proof.
  intros [= <-]. split; [|reflexivity].
  constructor; [by intros []|by intros []|cbn; set_solver|done|done|by apply NotYet].
Qed.

Lemma told_parent s p extra :
  told s -> p_sig p = p_sig (parent s) -> p_out p = p_out (parent s) ++ extra ->
  lines Parent (p_pc p) = lines Parent (p_pc (parent s)) ++ extra -> told (State p (child s)).
Proof.
  intros [E Ho|Hg E Ho|a b Hg E Ho Hl] Hs Hout Hp.
  - apply NotYet; cbn; congruence.
  - apply OnTheWay; cbn; congruence.
  - apply (Told _ a (b ++ extra)); cbn; [done|congruence|by rewrite Hout, Ho, <- app_assoc|by rewrite Hp, <- Hl, app_assoc].
Qed.

Lemma inv_parent mask s p extra :
  inv mask s -> p_sig p = p_sig (parent s) -> p_out p = p_out (parent s) ++ extra ->
  lines Parent (p_pc p) = lines Parent (p_pc (parent s)) ++ extra -> inv mask (State p (child s)).
Proof.
  intros [Hh Hb Hc Hpc Hco Ht] Hs Hout Hp. constructor; cbn; [| |done..|by eapply told_parent].
  - intros []; cbn; [rewrite Hs; apply (Hh Parent)|apply (Hh Child)].
  - intros []; cbn; [rewrite Hs; apply (Hb Parent)|apply (Hb Child)].
Qed.

Lemma inv_child mask s p :
  inv mask s -> p_pc (child s) <> Gone ->
  handlers (p_sig p) = handlers (p_sig (child s)) -> blocked (p_sig p) = blocked (p_sig (child s)) ->
  pending (p_sig p) ⊆ {[SIGFPE]} -> p_pc p <> Kill -> p_pc p <> Gone -> p_out p = lines Child (p_pc p) ->
  inv mask (State (parent s) p).
Proof.
  intros [Hh Hb Hc Hpc Hco Ht] Hg Eh Eb Ep Hk Hg' Ho. constructor; cbn; try done.
  - intros []; cbn; [apply (Hh Parent)|rewrite Eh; apply (Hh Child)].
  - intros []; cbn; [apply (Hb Parent)|rewrite Eb; apply (Hb Child)].
  - destruct Ht as [E Hout|Hgone _ _|a b Hgone _ _ _]; [by apply NotYet|done..].
Qed.

(** [SIGFPE] reaches the child before or after its end. *)
Lemma inv_kill mask s : inv mask s -> inv mask (State (parent s) (raise_in SIGFPE (child s))).
Proof.
  intros [Hh Hb Hc Hpc Hco Ht]. constructor; cbn; [| |set_solver|done..|].
  - intros []; cbn; [apply (Hh Parent)|apply (Hh Child)].
  - intros []; cbn; [apply (Hb Parent)|apply (Hb Child)].
  - destruct Ht as [E Hout|Hg E Hout|a b Hg E Hout Hl]; [by apply NotYet|by apply OnTheWay|by apply (Told _ a b)].
Qed.

Lemma inv_child_dies mask s : inv mask s -> p_pc (child s) = Return -> inv mask (die Child s).
Proof.
  intros [Hh Hb Hc Hpc Hco Ht] Hr. constructor; cbn; try done.
  - intros []; cbn; [apply (Hh Parent)|apply (Hh Child)].
  - intros []; cbn; [apply (Hb Parent)|apply (Hb Child)].
  - by rewrite Hco, Hr.
  - destruct Ht as [E Hout|Hgone _ _|a b Hgone _ _ _]; [|congruence..].
    apply OnTheWay; cbn; [done|by rewrite E, (right_id_L ∅ (∪))|done].
Qed.

(** A call keeps the invariant and costs one. *)
Lemma call_inv mask w s s' :
  inv mask s -> call w s = Some s' -> inv mask s' /\ (cost s' < cost s)%nat.
Proof.
  intros Hi. unfold call. case_guard as Hd; [|done]. cbn.
  destruct w; cbn in *.
  - destruct (p_pc (parent s)) eqn:Hpc; intros [= <-]; (split; [|unfold cost; cbn; rewrite Hpc; cbn; lia]).
    + apply (inv_parent mask s _ [Pppppp11]); cbn; [done..|by rewrite Hpc].
    + apply inv_kill in Hi. apply (inv_parent mask (State (parent s) (raise_in SIGFPE (child s))) _ []); cbn;
        [done|done|by rewrite (right_id_L [] (++))|by rewrite Hpc].
    + apply (inv_parent mask s _ []); cbn; [done..|by rewrite (right_id_L [] (++))|by rewrite Hpc].
    + apply (inv_parent mask s _ [Pppppp22]); cbn; [done..|by rewrite Hpc].
    + apply (inv_parent mask s _ []); cbn; [done..|by rewrite (right_id_L [] (++))|by rewrite Hpc].
  - pose proof (i_child mask s Hi) as Hc. pose proof (i_child_out mask s Hi) as Ho.
    destruct (p_pc (child s)) eqn:Hpc; intros [= <-]; cbn in Ho.
    2: by destruct (i_child_pc mask s Hi).
    1-3: split; [|unfold cost; cbn; rewrite Hpc; cbn; lia]; apply inv_child; cbn;
      [done|by rewrite Hpc|done..|by rewrite Ho].
    + split; [by apply inv_child_dies|]. unfold cost. cbn. rewrite Hpc. cbn.
      destruct (i_told mask s Hi) as [E _|Hg _ _|a b Hg _ _ _]; [|congruence..].
      rewrite E, (right_id_L ∅ (∪)), size_singleton, size_empty. lia.
Qed.

Lemma sig_deliver_inv mask w sig s s' :
  inv mask s -> deliver w sig s = Some s' -> inv mask s' /\ (cost s' < cost s)%nat.
Proof.
  intros Hi. unfold deliver. case_guard as Hs; (case_guard as Hg; cbn; [|done]); [|done].
  destruct w; cbn in *; [|rewrite (child_quiet mask s Hi) in Hs; set_solver].
  destruct (parent_delivers mask s sig Hi Hs) as (-> & Hgone & Hp & Ho).
  assert (delivery_of SIGCHLD (p_sig (parent s)) = Runs sigcld_handler) as ->
    by (unfold delivery_of; by rewrite (i_handlers mask s Hi Parent : handlers (p_sig (parent s)) = _)).
  intros [= <-]. split.
  - pose proof Hi as [Hh Hb Hc Hpc Hco Ht].
    constructor; cbn; [| |done..|].
    + intros []; cbn; [|apply (Hh Child)]. destruct (decide _); apply (Hh Parent).
    + intros []; cbn; [|apply (Hb Child)]. destruct (decide _); apply (Hb Parent).
    + apply (Told _ (p_out (parent s)) []); cbn; [done|..]; destruct (decide _) as [E|]; cbn;
        rewrite ?Hp, ?(right_id_L [] (++)), ?Ho, ?E; try done; set_solver.
  - unfold cost. cbn. rewrite Hp. destruct (decide _) as [E|]; cbn; rewrite Hp, ?E; cbn;
      rewrite size_singleton, difference_diag_L, size_empty; lia.
Qed.

Lemma steps_inv mask s0 s n :
  inv mask s0 -> nsteps step n s0 s -> inv mask s /\ (cost s + n <= cost s0)%nat.
Proof.
  intros Hi Hn. revert Hi. induction Hn as [|n s0 s1 s2 Hs _ IH]; intros Hi; [split; [done|lia]|].
  assert (inv mask s1 /\ (cost s1 < cost s0)%nat) as [Hi' Hc]
    by (destruct Hs; [by eapply call_inv|by eapply sig_deliver_inv]).
  destruct (IH Hi'). split; [done|lia].
Qed.

(** A process that has not ended can go on. *)
Lemma process_goes w s : p_pc (process_of w s) <> Gone -> exists s', step s s'.
Proof.
  intros Hg. destruct (set_choose_or_empty (deliverable (p_sig (process_of w s)))) as [[sig Hs]|Hd].
  - destruct (deliver w sig s) as [s'|] eqn:E; [exists s'; by eapply StepDeliver|].
    unfold deliver in E. rewrite !option_guard_True in E by done. cbn in E. by destruct (delivery_of _ _).
  - apply leibniz_equiv in Hd. destruct (call w s) as [s'|] eqn:E; [exists s'; by eapply StepCall|].
    unfold call in E. rewrite option_guard_True in E by done. cbn in E. by destruct (p_pc _).
Qed.

Lemma lines_prefix w c : lines w c `prefix_of` lines w Gone.
Proof. destruct w, c; (by eexists) || by exists []. Qed.

Lemma no_sigfpe w c sig : SigFpe sig ∉ lines w c.
Proof. destruct w, c; unfold lines; rewrite ?not_elem_of_cons; split_and?; try done; apply not_elem_of_nil. Qed.

(** C31: the SIGFPE that net/sig/main.c sends is never handled: with whatever mask
    the program is started and however its two processes interleave, a signal being
    delivered between two calls or in a sleep, they make at most ten calls and
    deliveries; the child prints its two lines in order, the parent its own and at
    most once, after the child's end, that of the SIGCHLD handler; nobody runs the
    handler of SIGFPE, which both have blocked; and nobody stops before the end of
    [main]. *)
Theorem blocked_signal_waits mask s0 s n :
  main true mask = inl s0 -> nsteps step n s0 s ->
  (n <= 10)%nat /\
  p_out (child s) `prefix_of` [Cccccc11; Cccccc22] /\
  (exists a b, a ++ b `prefix_of` [Pppppp11; Pppppp22] /\
     (p_out (parent s) = a ++ b \/ p_out (parent s) = a ++ SigChild SIGCHLD :: b /\ p_pc (child s) = Gone)) /\
  (forall w sig, SigFpe sig ∉ p_out (process_of w s)) /\
  ((forall s', ~ step s s') ->
     p_out (child s) = [Cccccc11; Cccccc22] /\
     filter (fun l => l <> SigChild SIGCHLD) (p_out (parent s)) = [Pppppp11; Pppppp22]).
Proof.
  intros [Hi0 H10]%sig_start_inv Hn. destruct (steps_inv _ _ _ _ Hi0 Hn) as [Hi Hc].
  pose proof (i_child_out mask s Hi) as Ho. pose proof (i_told mask s Hi) as Ht.
  split; [lia|]. split; [rewrite Ho; apply (lines_prefix Child)|]. split; [|split].
  - destruct Ht as [_ Hp|_ _ Hp|a b Hg _ Hp Hl].
    1-2: exists (lines Parent (p_pc (parent s))), []; rewrite (right_id_L [] (++)); split; [apply (lines_prefix Parent)|by left].
    exists a, b. rewrite Hl. split; [apply (lines_prefix Parent)|by right].
  - intros [] sig; cbn; [|rewrite Ho; apply no_sigfpe].
    destruct Ht as [_ ->|_ _ ->|a b _ _ -> Hl]; [apply no_sigfpe..|].
    pose proof (no_sigfpe Parent (p_pc (parent s)) sig) as Hn'. rewrite <- Hl in Hn'. set_solver.
  - intros Hstuck.
    assert (Hgone : forall w, p_pc (process_of w s) = Gone).
    { intros w. destruct (decide (p_pc (process_of w s) = Gone)) as [|Hw]; [done|].
      destruct (process_goes w s Hw) as [s' Hs']. by destruct (Hstuck s'). }
    split; [by rewrite Ho, (Hgone Child : p_pc (child s) = _)|].
    destruct Ht as [_ Hp|_ _ Hp|a b _ _ Hp Hl]; rewrite Hp; [by rewrite (Hgone Parent : p_pc (parent s) = _)..|].
    rewrite filter_app, filter_cons_False by (intros Hne; by apply Hne).
    by rewrite <- filter_app, Hl, (Hgone Parent : p_pc (parent s) = _).
Qed.

(** The executable steps, in the order of a schedule. *)
Definition move := (who * option Z)%type.
Definition make (m : move) (s : state) : option state :=
  match m.2 with None => call m.1 s | Some sig => deliver m.1 sig s end.
Fixpoint run_moves (ms : list move) (s : state) : option state :=
  match ms with [] => Some s | m :: ms' => s' ← make m s; run_moves ms' s' end.

Lemma run_moves_steps ms s s' : run_moves ms s = Some s' -> nsteps step (length ms) s s'.
Proof.
  revert s. induction ms as [|[w o] ms IH]; intros s; cbn; [intros [= <-]; constructor|].
  destruct (make (w, o) s) as [s1|] eqn:E; [|done]. intros Hr. econstructor; [|by apply IH].
  destruct o as [sig|]; [exact (StepDeliver s w sig s1 E)|exact (StepCall s w s1 E)].
Qed.

(** The child ends while the parent sleeps. *)
Definition wakes_parent : list move :=
  [(Parent, None); (Child, None); (Parent, None); (Child, None); (Child, None); (Child, None);
   (Parent, Some SIGCHLD); (Parent, None); (Parent, None)].

Lemma blocked_signal_waits_witness : exists s0 s,
  main true ∅ = inl s0 /\ run_moves wakes_parent s0 = Some s /\
  p_out (parent s) = [Pppppp11; SigChild SIGCHLD; Pppppp22] /\
  forall w sig, SigFpe sig ∉ p_out (process_of w s).
Proof.
  destruct (main true ∅) as [s0|] eqn:E0; [|discriminate].
  destruct (run_moves wakes_parent s0) as [s|] eqn:E; [|injection E0 as <-; vm_compute in E; discriminate].
  exists s0, s. split; [done|]. split; [done|]. split.
  - injection E0 as <-. vm_compute in E. by injection E as <-.
  - exact (proj1 (proj2 (proj2 (proj2 (blocked_signal_waits ∅ s0 s _ E0 (run_moves_steps _ _ _ E)))))).
Defined.
End SigMainTheorems.

(** ** The handlers of net/myser2/net.cpp *)
Module ReaperTheorems.
Import Reaper.
Implicit Types (mask : gset Z) (s : server) (f : frame).

Definition reaping (h : handler) : bool :=
  match h with sigpipe_handler | sigchild_handler => true | _ => false end.

#[local] Arguments reported : simpl never.

(** Under the handlers that run lies the mask of the server. *)
Fixpoint unwinds (base now : gset Z) (stack : list frame) : Prop :=
  match stack with [] => now = base | f :: rest => unwinds base (f_saved f) rest end.

Record inv mask s : Prop := {
  i_handlers : handlers (sv_sig s) = handlers (init_signals mask);
  i_unwinds : unwinds (blocked (init_signals mask)) (blocked (sv_sig s)) (sv_stack s);
  i_zombies : sv_zombies s = [] \/ SIGCHLD ∈ pending (sv_sig s) \/ Exists (fun f => reaping (f_handler f)) (sv_stack s);
  i_found : Forall (fun f => is_Some (f_found f) -> reaping (f_handler f) = true) (sv_stack s);
  i_reported : reported s ++ found s ++ sv_zombies s ≡ₚ sv_exited s
}.

(** Deliveries, the handlers' returns, the children to be found and to be printed. *)
Definition work s : nat :=
  2 * size (pending (sv_sig s)) + length (sv_stack s) + 2 * length (sv_zombies s) + length (found s).

Lemma reported_app s out :
  reported (pop s out) = match sv_stack s with [] => reported s | _ => reported s ++ reported (Server (sv_sig s) [] [] [] false out) end.
Proof. unfold reported, pop. destruct (sv_stack s); [done|]. cbn. by rewrite omap_app. Qed.

Lemma pop_inv mask s f rest out :
  inv mask s -> sv_stack s = f :: rest -> reported (Server (sv_sig s) [] [] [] false out) = [] ->
  f_found f = None -> (sv_zombies s = [] \/ reaping (f_handler f) = false) ->
  inv mask (pop s out) /\ (work (pop s out) < work s)%nat.
Proof.
  intros [Hh Hu Hz Hfo Hr] E Hout Hnone Hf. pose proof (reported_app s out) as Hrep.
  rewrite E, Hout, app_nil_r in Hrep.
  assert (found s = omap f_found rest) as Hfound by (unfold found; rewrite E; cbn; by rewrite Hnone).
  unfold work. rewrite Hfound. unfold pop in *. rewrite E in *. apply Forall_cons in Hfo as [_ Hfo].
  split; [constructor; cbn; [done|done| |done|by rewrite Hrep, <- Hr, Hfound]|unfold found; cbn; lia].
  destruct Hf as [Hf|Hf]; [by left|]. destruct Hz as [Hz|[Hz|Hz]]; [by left|by right; left|].
  right; right. apply Exists_cons in Hz as [Hz|Hz]; [by rewrite Hf in Hz|done].
Qed.

Lemma wait_inv mask choice s s' f rest :
  inv mask s -> sv_stack s = f :: rest -> reaping (f_handler f) = true ->
  wait_step f choice s = Some s' -> inv mask s' /\ (work s' < work s)%nat.
Proof.
  intros Hi E Hre. unfold wait_step. destruct (f_found f) as [[pid status]|] eqn:Ef.
  - intros [= <-]. destruct Hi as [Hh Hu Hz Hfo Hr].
    assert (found s = (pid, status) :: omap f_found rest) as Hfound by (unfold found; rewrite E; cbn; by rewrite Ef).
    unfold work, find. rewrite Hfound. rewrite E in *. apply Forall_cons in Hfo as [_ Hfo].
    split; [|unfold found; cbn; lia]. constructor; cbn; [done|done| |by constructor|].
    + destruct Hz as [Hz|[Hz|Hz]]; [by left|by right; left|]. right; right. apply Exists_cons. left. cbn. by rewrite Hre.
    + etransitivity; [|exact Hr]. rewrite Hfound. unfold reported, found. cbn. rewrite omap_app. cbn.
      by rewrite <- app_assoc.
  - destruct (decide (sv_zombies s = [])) as [Hz|Hz].
    { intros [= <-]. eapply pop_inv; [done..|by left]. }
    unfold waitpid. destruct (sv_zombies s !! choice) as [z|] eqn:Ec; [|done]. intros [= <-].
    destruct Hi as [Hh Hu Hzs Hfo Hr]. apply delete_Permutation in Ec.
    assert (found s = omap f_found rest) as Hfound by (unfold found; rewrite E; cbn; by rewrite Ef).
    apply Permutation_length in Ec as Hlen. cbn in Hlen.
    unfold work, find. rewrite Hfound. rewrite E in *. apply Forall_cons in Hfo as [_ Hfo].
    split; [|unfold found; cbn; lia]. constructor; cbn; [done|done| |by constructor|].
    + right; right. apply Exists_cons. left. cbn. by rewrite Hre.
    + etransitivity; [|exact Hr]. rewrite Hfound. unfold reported, found. cbn. rewrite app_nil_r.
      apply Permutation_app_head. rewrite Permutation_middle. apply Permutation_app_head. by symmetry.
Qed.

Lemma handler_inv mask choice s s' :
  inv mask s -> handler_step choice s = Some s' -> inv mask s' /\ (work s' < work s)%nat.
Proof.
  intros Hi. unfold handler_step. destruct (sv_stack s) as [|f rest] eqn:E; [done|].
  pose proof (i_found mask s Hi) as Hfo. rewrite E in Hfo. apply Forall_cons in Hfo as [Hfo _].
  destruct (f_handler f) eqn:Ef; [| |intros Hw; eapply (wait_inv mask choice s s' f rest Hi E); [|exact Hw]; by rewrite Ef..].
  all: intros [= <-]; eapply pop_inv; [done..| |right; by rewrite Ef].
  all: destruct (f_found f); [by discriminate Hfo; eexists|done].
Qed.

Lemma reap_deliver_inv mask sig s s' :
  inv mask s -> deliver sig s = Some s' -> inv mask s' /\ (work s' < work s)%nat.
Proof.
  intros [Hh Hu Hz Hfo Hr]. unfold deliver. case_guard as Hs; [|done]. cbn.
  unfold deliverable in Hs. apply elem_of_difference in Hs as [Hp Hb].
  assert (Hsize : (size (pending (sv_sig s) ∖ {[sig]}) + 1 = size (pending (sv_sig s)))%nat).
  { rewrite size_difference, size_singleton by set_solver.
    assert (size (pending (sv_sig s)) <> 0)%nat by (rewrite size_empty_iff; set_solver). lia. }
  assert (Hkept : sig <> SIGCHLD -> sv_zombies s = [] \/ SIGCHLD ∈ pending (sv_sig s) ∖ {[sig]} \/
            Exists (fun f => reaping (f_handler f)) (sv_stack s)).
  { intros Hne. destruct Hz as [Hz|[Hz|Hz]]; [by left|right; left; set_solver|by right; right]. }
  unfold delivery_of. rewrite Hh. destruct (decide (sig = SIGCHLD)) as [->|Hne].
  - change (handlers (init_signals mask) !! SIGCHLD) with (Some sigchild_handler). intros [= <-].
    split; [|unfold work, found; cbn; lia].
    constructor; cbn; [done|done|right; right; by constructor|by constructor; [intros []|]|done].
  - specialize (Hkept Hne). destruct (handlers _ !! sig) as [h|]; [|destruct (Z.eqb_spec sig SIGCHLD); [done|]];
      intros [= <-]; (split; [|unfold work, found; cbn; lia]); constructor; cbn; try done.
    2:{ by constructor; [intros []|]. }
    destruct Hkept as [Hk|[Hk|Hk]]; [by left|by right; left|right; right; by constructor].
Qed.

Lemma external_inv mask s s' : inv mask s -> external s s' -> inv mask s'.
Proof.
  intros [Hh Hu Hz Hfo Hr] [pid status|sig]; constructor; cbn; try done.
  - right; left. set_solver.
  - unfold reported, found in *. cbn. by rewrite !app_assoc, <- (app_assoc (omap _ _)), Hr.
  - destruct Hz as [Hz|[Hz|Hz]]; [by left|right; left; set_solver|by right; right].
Qed.

Lemma internal_inv mask s s' : inv mask s -> internal s s' -> inv mask s' /\ (work s' < work s)%nat.
Proof. intros Hi []; [by eapply handler_inv|by eapply reap_deliver_inv]. Qed.

Lemma reap_reachable_inv mask s : rtc (fun a b => internal a b \/ external a b) (start mask) s -> inv mask s.
Proof.
  intros Hr. assert (Hi : inv mask (start mask)) by (constructor; cbn; auto).
  revert Hi. induction Hr as [|s s1 s2 [Hs|Hs] _ IH]; intros Hi; [done|..]; apply IH.
  - by eapply internal_inv.
  - by eapply external_inv.
Qed.

Lemma internal_bounded mask s s' n : inv mask s -> nsteps internal n s s' -> (work s' + n <= work s)%nat.
Proof.
  intros Hi Hn. revert Hi. induction Hn as [|n s s1 s2 Hs _ IH]; intros Hi; [lia|].
  destruct (internal_inv _ _ _ Hi Hs) as [Hi' Hw]. specialize (IH Hi'). lia.
Qed.

(** When nothing goes on by itself, every handler has returned and no child is
    left, for [init_proc] unblocks [SIGCHLD]. *)
Lemma quiet_reaped mask s :
  inv mask s -> sv_killed s = false -> (forall s', ~ internal s s') -> sv_stack s = [] /\ sv_zombies s = [].
Proof.
  intros [Hh Hu Hz _ _] Hk Hq.
  assert (Hstack : sv_stack s = []).
  { destruct (sv_stack s) as [|f rest] eqn:E; [done|exfalso].
    destruct (handler_step 0 s) as [s'|] eqn:Eh; [by destruct (Hq s'); eapply Handles|].
    unfold handler_step, wait_step, waitpid in Eh. rewrite E in Eh.
    destruct (f_handler f), (f_found f) as [[]|], (decide (sv_zombies s = [])); try done;
      destruct (sv_zombies s) as [|[]]; done. }
  split; [done|]. rewrite Hstack in *. destruct Hz as [|[Hz|Hz]]; [done| |by apply Exists_nil in Hz].
  destruct (deliver SIGCHLD s) as [s'|] eqn:Ed; [by destruct (Hq s'); eapply Delivers|].
  unfold deliver, delivery_of in Ed. rewrite Hh, option_guard_True in Ed; [done|].
  cbn in Hu. unfold deliverable. rewrite Hu. cbn. set_solver.
Qed.

(** myser2's handlers, once they are installed (init_proc does not get so far, see
    [start]): with whatever mask the server starts, and whenever and in whatever
    order children end, signals arrive, merge and nest, every child that has
    ended is still to be waited for, or has been found by a handler that is about
    to report it, or has been reported, once; the server's own steps are bounded,
    and when there are none left, no handler runs and every child is reported; and
    none of the six signals that are caught ends the server. *)
Theorem children_are_reaped mask s :
  rtc (fun a b => internal a b \/ external a b) (start mask) s ->
  reported s ++ found s ++ sv_zombies s ≡ₚ sv_exited s /\
  (forall n s', nsteps internal n s s' ->
     (n <= 2 * size (pending (sv_sig s)) + length (sv_stack s) + 2 * length (sv_zombies s) + length (found s))%nat) /\
  (sv_killed s = false -> (forall s', ~ internal s s') -> sv_stack s = [] /\ reported s ≡ₚ sv_exited s) /\
  (forall sig s', sig ∈ [SIGHUP; SIGINT; SIGQUIT; SIGPIPE; SIGTERM; SIGCHLD] ->
     deliver sig s = Some s' -> sv_killed s' = sv_killed s).
Proof.
  intros Hi%reap_reachable_inv. split; [apply Hi|]. split; [|split].
  - intros n s' Hn. pose proof (internal_bounded _ _ _ _ Hi Hn). unfold work in *. lia.
  - intros Hk Hq. destruct (quiet_reaped _ _ Hi Hk Hq) as [Hs Hz]. split; [done|].
    rewrite <- (i_reported _ _ Hi), Hz. unfold found. rewrite Hs. cbn. by rewrite app_nil_r.
  - intros sig s' Hsig. unfold deliver, delivery_of. case_guard; [|done]. cbn. rewrite (i_handlers _ _ Hi).
    rewrite !elem_of_cons in Hsig. destruct_or!; subst; [intros [= <-]; done..|set_solver].
Qed.

(** The steps, in the order of a schedule. *)
Inductive happening := Ends (pid status : Z) | Delivered (sig : Z) | Continues.

Definition happens (e : happening) (s : server) : option server :=
  match e with
  | Ends pid status =>
      Some (Server (raise SIGCHLD (sv_sig s)) (sv_stack s) (sv_zombies s ++ [(pid, status)])
              (sv_exited s ++ [(pid, status)]) (sv_killed s) (sv_out s))
  | Delivered sig => if sv_killed s then None else deliver sig s
  | Continues => if sv_killed s then None else handler_step 0 s
  end.
Fixpoint run_happenings (es : list happening) (s : server) : option server :=
  match es with [] => Some s | e :: es' => s' ← happens e s; run_happenings es' s' end.

Lemma run_happenings_rtc es s s' :
  run_happenings es s = Some s' -> rtc (fun a b => internal a b \/ external a b) s s'.
Proof.
  revert s. induction es as [|e es IH]; intros s; cbn; [by intros [= <-]|].
  destruct (happens e s) as [s1|] eqn:E; [|done]. intros Hr. apply rtc_l with s1; [|by apply IH].
  destruct e; cbn in E; [right; injection E as <-; constructor|left..];
    destruct (sv_killed s) eqn:Ek; [done| |done|]; [by eapply Delivers|by eapply Handles].
Qed.

(** Three children end; the SIGCHLD of the second and third merge, while the
    handler runs for the first. *)
Definition three_end : list happening :=
  [Ends 101 0; Delivered SIGCHLD; Continues; Ends 102 256; Ends 103 9; Continues; Continues; Continues; Continues;
   Continues; Continues; Delivered SIGCHLD; Continues].

Lemma children_are_reaped_witness : exists s,
  rtc (fun a b => internal a b \/ external a b) (start ∅) s /\
  reported s = [(101, 0); (102, 256); (103, 9)] /\ reported s ++ found s ++ sv_zombies s ≡ₚ sv_exited s.
Proof.
  destruct (run_happenings three_end (start ∅)) as [s|] eqn:E; [|vm_compute in E; discriminate].
  pose proof (run_happenings_rtc _ _ _ E) as Hr. exists s. split; [exact Hr|]. split.
  - vm_compute in E. by injection E as <-.
  - exact (proj1 (children_are_reaped ∅ s Hr)).
Defined.
End ReaperTheorems.
