(* ===== verification/Copying.v ===== *)
(** * Copying: c++/c++_copy_constructor.cpp

    The program is C++98: the assignment operator takes a reference that is not
    const, which [vector::erase] of C++11 cannot use.  Every construction,
    assignment and destruction prints a line; here it also names the objects. *)

From S2P Require Import Prelude.

(** The objects: variables by name, the parameter of [func], the default argument
    of [resize], and the elements of the vector by their index. *)
Inductive object := Var (name : string) | Parameter_tmp | Default_argument | Element (i : nat).

#[export] Instance object_eq_dec : EqDecision object.
Proof. solve_decision. Defined.

Inductive event :=
  | Constructs (o : object)            (* [datas()] *)
  | Copies (o from : object)           (* [datas(datas& i)] *)
  | Assigns (o from : object)          (* [datas operator =] *)
  | Destroys (o : object)              (* [~datas()] *)
  | Says (line : string).

Definition line_of (e : event) : string :=
  match e with
  | Constructs _ => "[datas()]"
  | Copies _ _ => "[datas(datas& i)]"
  | Assigns _ _ => "[datas operator =]"
  | Destroys _ => "[~datas()]"
  | Says l => l
  end.

(** [func(arg)], by value. *)
Definition func (arg : object) : list event :=
  [Copies Parameter_tmp arg; Says "func"; Destroys Parameter_tmp].

(** [vec.resize(n)] of an empty vector: [n] copies of its default argument. *)
Definition resize (n : nat) : list event :=
  Constructs Default_argument :: map (fun i => Copies (Element i) Default_argument) (seq 0 n)
  ++ [Destroys Default_argument].

(** [vec.erase(vec.begin())] of [n] elements: each is assigned the next one and
    the last is destroyed. *)
Definition erase_begin (n : nat) : list event :=
  map (fun i => Assigns (Element i) (Element (S i))) (seq 0 (n - 1)) ++ [Destroys (Element (n - 1))].

(** The destructor of a vector of [n] elements. *)
Definition vector_dtor (n : nat) : list event := map (fun i => Destroys (Element i)) (seq 0 n).

Definition main : list event :=
  [Constructs (Var "tmp");
   Says "datas a(tmp):"; Copies (Var "a") (Var "tmp");
   Says "datas b=tmp:"; Copies (Var "b") (Var "tmp");
   Says "a=tmp:"; Assigns (Var "a") (Var "tmp");
   Says "func(tmp):"]%string ++ func (Var "tmp") ++
  [Says "vector resize:"] ++ resize 3 ++
  [Says "vector erase:"] ++ erase_begin 3 ++
  vector_dtor 2 ++ [Destroys (Var "b"); Destroys (Var "a"); Destroys (Var "tmp")].
