(* ===== verification/CopyingTheorems.v ===== *)
(** * CopyingTheorems: every object is made once and destroyed once *)

From S2P Require Import Prelude Copying.

(** The objects that live after an event; [None] when it uses one that does not
    live, or makes one that does. *)
Definition lives (live : list object) (e : event) : option (list object) :=
  match e with
  | Constructs o => guard (o ∉ live);; Some (o :: live)
  | Copies o from => guard (from ∈ live);; guard (o ∉ live);; Some (o :: live)
  | Assigns o from => guard (from ∈ live);; guard (o ∈ live);; Some live
  | Destroys o => guard (o ∈ live);; Some (filter (fun x => x <> o) live)
  | Says _ => Some live
  end.

Fixpoint lifetime (live : list object) (es : list event) : option (list object) :=
  match es with [] => Some live | e :: es' => live' ← lives live e; lifetime live' es' end.

(** The program uses only objects that live, makes none twice and leaves none; its
    lines. *)
Lemma copying_balances :
  lifetime [] main = Some [] /\
  map line_of main =
    ["[datas()]"; "datas a(tmp):"; "[datas(datas& i)]"; "datas b=tmp:"; "[datas(datas& i)]";
     "a=tmp:"; "[datas operator =]"; "func(tmp):"; "[datas(datas& i)]"; "func"; "[~datas()]";
     "vector resize:"; "[datas()]"; "[datas(datas& i)]"; "[datas(datas& i)]"; "[datas(datas& i)]"; "[~datas()]";
     "vector erase:"; "[datas operator =]"; "[datas operator =]"; "[~datas()]";
     "[~datas()]"; "[~datas()]"; "[~datas()]"; "[~datas()]"; "[~datas()]"]%string.
Proof. split; reflexivity. Qed.
