(* ===== verification/Unixdomain.v ===== *)
(** * Unixdomain: net/unixdomain/unixdomain.cpp

    The program compares where it means to assign, so that it works on variables
    without a value; any value stands for them here. *)

From S2P Require Import Prelude Bytes Kernel.

Inductive ucall : Type -> Type :=
  | USocket : ucall Z
  | UUnlink : ucall unit
  | UBind (fd : Z) : ucall unit        (* to UNIXSTR_PATH *)
  | UListen (fd n : Z) : ucall unit
  | UAccept (fd : Z) : ucall Z
  | URecv (fd n : Z) : ucall (list byte)
  | USend (fd : Z) (data : list byte) : ucall Z.

Class UnixKernel (K : Type) := u_exec : forall A, ucall A -> K -> sysres A * K.
Arguments u_exec {K _ A} c k.

(** What is received fits the buffer; no call works on a descriptor that is not
    open, and only [socket] and [accept] open one. *)
Class UnixLaws (K : Type) `{UnixKernel K} (u_open : K -> gset Z) := {
  law_urecv fd n k data : 0 <= n -> (u_exec (URecv fd n) k).1 = SysOk data -> zlen data <= n;
  law_ubind fd k : fd ∉ u_open k -> exists e, (u_exec (UBind fd) k).1 = SysErr e;
  law_unlink k : u_open (u_exec UUnlink k).2 = u_open k;
  law_usocket k : match (u_exec USocket k).1 with
                  | SysOk fd => u_open (u_exec USocket k).2 = {[fd]} ∪ u_open k
                  | SysErr _ => u_open (u_exec USocket k).2 = u_open k
                  end
}.

Inductive line := SigChild | AcceptErr | RecvErr | SendErr.

(** The process: [errno], what was printed, and what was given to [send]. *)
Record ustate (K : Type) := UState {
  u_kernel : K;
  u_errno : Z;
  u_out : list line;
  u_replies : list (Z * list byte)
}.
Arguments UState {K}.
Arguments u_kernel {K}.
Arguments u_errno {K}.
Arguments u_out {K}.
Arguments u_replies {K}.

Section Program.
Context {K : Type} `{UnixKernel K}.
Implicit Type s : ustate K.
Abbreviation M := (prog (ustate K)).

Definition say (l : line) : M unit :=
  modify (fun s => UState (u_kernel s) (u_errno s) (u_out s ++ [l]) (u_replies s)).

(** A call that succeeds leaves [errno] as it was. *)
Definition usys {A} (c : ucall A) : M (sysres A) := fun s =>
  let '(r, k) := u_exec c (u_kernel s) in
  Ok (r, UState k (match r with SysOk _ => u_errno s | SysErr e => e end) (u_out s) (u_replies s)).

(** [handle_sigcld] *)
Definition handle_sigcld : M unit := say SigChild.

Definition BUFLEN : Z := 2046.

(** Lines 36-52, in a round in which [buf] holds [buf0] at first: [n == recv(...)]
    is 0 or 1, and never negative. *)
Definition round (sockfd : Z) (buf0 : list byte) : M unit :=
  r ← usys (UAccept sockfd);
  let connfd := ret_int r in
  e ← gets u_errno;
  if negb (connfd =? 0) && (e =? EINTR) then mret tt
  else
    when_ (negb (connfd =? 0)) (say AcceptErr) ;;
    let n := 0 in
    got ← usys (URecv connfd BUFLEN);
    buf ← (match got with
           | SysOk data => lift (mem_write 0 data buf0)
           | SysErr _ => mret buf0
           end);
    let ret := match got with SysOk data => zlen data | SysErr _ => -1 end in
    if (if n =? ret then 1 else 0) <? 0 then say RecvErr
    else
      modify (fun s => UState (u_kernel s) (u_errno s) (u_out s) (u_replies s ++ [(connfd, buf)])) ;;
      sent ← usys (USend connfd buf);
      when_ (ret_int sent <? 0) (say SendErr).

(** The loop, for as many rounds as there are contents of [buf]. *)
Definition rounds (sockfd : Z) (bufs : list (list byte)) : M unit := for_each (round sockfd) bufs.

(** [main] up to its loop: [sockfd] is what the variable holds, [ignored] whether
    SIGCHLD was ignored when the program started, which [signal] then returns.
    The result of an early return, or [None]. *)
Definition setup (sockfd : Z) (ignored : bool) : M (option Z) :=
  sock ← usys USocket;
  if sockfd =? ret_int sock then mret (Some (-1)) else
  _ ← usys UUnlink;
  bound ← usys (UBind sockfd);
  if negb (ret_unit bound =? 0) then mret (Some (-1)) else
  heard ← usys (UListen sockfd 1024);
  if negb (ret_unit heard =? 0) then mret (Some (-1)) else
  if ignored then mret (Some (-1)) else mret None.

Definition main (sockfd : Z) (ignored : bool) (bufs : list (list byte)) : M (option Z) :=
  r ← setup sockfd ignored;
  match r with
  | Some code => mret (Some code)
  | None => rounds sockfd bufs ;; mret None
  end.
End Program.
