(* ===== verification/UnixdomainTheorems.v ===== *)
(** * UnixdomainTheorems: a server on an unknown descriptor *)

From S2P Require Import Prelude Bytes Kernel Unixdomain.

Section Program.
Context {K : Type} `{UnixKernel K} (u_open : K -> gset Z) `{!UnixLaws K u_open}.
Implicit Type s : ustate K.

Lemma runs_usys {A} (c : ucall A) s (Q : sysres A -> ustate K -> Prop) :
  runs (usys c) s Q <->
  Q (u_exec c (u_kernel s)).1
    (UState (u_exec c (u_kernel s)).2
       (match (u_exec c (u_kernel s)).1 with SysOk _ => u_errno s | SysErr e => e end) (u_out s) (u_replies s)).
Proof. unfold runs, usys. by destruct (u_exec c (u_kernel s)). Qed.

Ltac go := repeat (run_step; cbn [u_kernel u_errno u_out u_replies]).

(** The loop never faults, and every reply has the whole size of the buffer. *)
Lemma unix_round_runs sockfd buf0 s :
  zlen buf0 = BUFLEN ->
  runs (round sockfd buf0) s (fun _ s' =>
    u_replies s' = u_replies s \/
    exists fd data, u_replies s' = u_replies s ++ [(fd, data ++ drop (length data) buf0)] /\ zlen data <= BUFLEN).
Proof.
  intros Hbuf. unfold round. rewrite runs_bind, runs_usys. set (r := (u_exec (UAccept sockfd) (u_kernel s)).1).
  set (k := (u_exec (UAccept sockfd) (u_kernel s)).2). rewrite runs_bind, runs_gets. cbn [u_errno].
  destruct (_ && _); [rewrite runs_ret; by left|]. unfold say. rewrite runs_bind.
  apply (runs_mono _ _ (fun _ s' => u_replies s' = u_replies s)); [by destruct (ret_int r =? 0)|].
  intros _ s1 Hs1. rewrite runs_bind, runs_usys. rewrite runs_bind.
  set (got := (u_exec (URecv (ret_int r) BUFLEN) (u_kernel s1)).1).
  assert (exists data, zlen data <= BUFLEN /\ match got with SysOk d => d = data | SysErr _ => data = [] end)
    as (data & Hdata & Hgot).
  { destruct got as [d|e] eqn:Eg; [|by exists []]. exists d. split; [|done]. by eapply law_urecv. }
  assert (forall (Q : list byte -> ustate K -> Prop) s2, Q (data ++ drop (length data) buf0) s2 ->
    runs (match got with SysOk d => lift (mem_write 0 d buf0) | SysErr _ => mret buf0 end) s2 Q) as Hstore.
  { intros Q s2 HQ. destruct got as [d|e]; subst; [|exact HQ].
    rewrite mem_write_Ok by lia. rewrite runs_lift_Ok. exact HQ. }
  apply Hstore. assert (forall ret, ((if 0 =? ret then 1 else 0) <? 0) = false) as -> by (intros ret; by destruct (0 =? ret)).
  go. rewrite runs_usys. rewrite runs_when.
  destruct (_ <? 0); go; right; exists (ret_int r), data; by rewrite Hs1.
Qed.

(** A variable that holds no open descriptor ends the program, which has made a
    socket that it does not use and removed the path. *)
Lemma unknown_descriptor_is_refused sockfd ignored bufs s :
  sockfd ∉ u_open (u_kernel s) ->
  runs (main sockfd ignored bufs) s (fun r s' =>
    r = Some (-1) /\ u_out s' = u_out s /\ u_replies s' = u_replies s).
Proof.
  intros Hfd. unfold main, setup. rewrite !runs_bind, runs_usys.
  pose proof (law_usocket (u_kernel s)) as Hsock. destruct (u_exec USocket (u_kernel s)) as [r k]. cbn [fst snd] in *.
  destruct (Z.eqb_spec sockfd (ret_int r)) as [|Hne]; [by rewrite !runs_ret|].
  rewrite runs_bind, runs_usys. cbn [u_kernel]. rewrite runs_bind, runs_usys. cbn [u_kernel].
  pose proof (law_unlink k) as Hk. set (k2 := (u_exec UUnlink k).2) in *.
  destruct (law_ubind sockfd k2) as [e Ee].
  - rewrite Hk. destruct r as [fd|]; rewrite Hsock; [|done]. cbn in Hne. set_solver.
  - by rewrite Ee.
Qed.

(** The loop, once it is reached, never faults and never takes its "recv err"
    branch; every reply has the size of the buffer: what was received, which may
    be nothing, and behind it what the uninitialised buffer held. *)
Lemma replies_are_whole_buffers sockfd bufs s :
  Forall (fun buf => zlen buf = BUFLEN) bufs -> Forall (fun r => zlen r.2 = BUFLEN) (u_replies s) ->
  runs (rounds sockfd bufs) s (fun _ s' => Forall (fun r => zlen r.2 = BUFLEN) (u_replies s')).
Proof.
  revert s. induction bufs as [|buf bufs IH]; intros s Hbufs Hs; cbn [rounds for_each]; [done|].
  apply Forall_cons in Hbufs as [Hbuf Hbufs]. rewrite runs_bind. eapply runs_mono; [by apply unix_round_runs|]. cbn beta.
  intros _ s1 [E|(fd & data & E & Hd)]; apply IH; rewrite ?E; [done..|done|].
  apply Forall_app. split; [done|]. apply Forall_singleton. cbn [snd].
  unfold zlen in *. rewrite length_app, length_drop. lia.
Qed.

(** After an interrupted [accept] the connections that follow are not served: a
    call that succeeds leaves [errno] at [EINTR]. *)
Lemma interruption_sticks sockfd bufs s :
  (forall k, match (u_exec (UAccept sockfd) k).1 with SysOk fd => fd <> 0 | SysErr e => e = EINTR end) ->
  u_errno s = EINTR ->
  runs (rounds sockfd bufs) s (fun _ s' => u_errno s' = EINTR /\ u_out s' = u_out s /\ u_replies s' = u_replies s).
Proof.
  intros Hk. revert s. induction bufs as [|buf bufs IH]; intros s He; cbn [rounds for_each]; [done|].
  rewrite runs_bind. unfold round. rewrite runs_bind, runs_usys. rewrite runs_bind, runs_gets. cbn [u_errno].
  specialize (Hk (u_kernel s)). destruct (u_exec (UAccept sockfd) (u_kernel s)) as [r k]. cbn [fst snd] in *.
  assert (negb (ret_int r =? 0) && ((match r with SysOk _ => u_errno s | SysErr e => e end) =? EINTR) = true) as ->.
  { destruct r as [fd|e]; cbn; subst; rewrite ?He; [|done]. by destruct (Z.eqb_spec fd 0). }
  rewrite runs_ret. eapply runs_mono; [apply IH; by destruct r|]. cbn. tauto.
Qed.
End Program.
