(* ===== verification/Virtual.v ===== *)
(** * Virtual: virtual calls (c++/test_virtual_constructor_destructor.cpp,
    c++/test_c++_constructor.cpp, c++/test_dynamic_virtual.cpp)

    Classes with one base each, as the list of a class and its bases, the most
    derived first.  While a constructor or a destructor runs, the dynamic type of
    the object is the class it belongs to. *)

From S2P Require Import Prelude.

(** A member function's body: what it prints and the members it calls on
    [this]. *)
Inductive stmt := Print (line : string) | Call (m : string).

Record method := Method { me_virtual : bool; me_body : list stmt }.

Record klass := Klass {
  cl_name : string;
  cl_ctor : list stmt;
  cl_dtor : list stmt;
  cl_virtual_dtor : bool;
  cl_methods : list (string * method)
}.

(** A class with its bases. *)
Abbreviation hierarchy := (list klass).

(** What is printed, with the class whose body prints it. *)
Definition event : Type := string * string.

Fixpoint find_method (m : string) (l : list (string * method)) : option method :=
  match l with
  | [] => None
  | (n, x) :: l' => if decide (n = m) then Some x else find_method m l'
  end.

(** Name lookup from a class outwards: the method and the hierarchy of its class. *)
Fixpoint lookup_method (m : string) (h : hierarchy) : option (hierarchy * method) :=
  match h with
  | [] => None
  | c :: bases =>
      match find_method m (cl_methods c) with
      | Some x => Some (h, x)
      | None => lookup_method m bases
      end
  end.

(** A method is virtual when it or one that it overrides is declared so. *)
Fixpoint is_virtual (m : string) (h : hierarchy) : bool :=
  match h with
  | [] => false
  | c :: bases =>
      match find_method m (cl_methods c) with Some x => me_virtual x | None => false end || is_virtual m bases
  end.

Definition owner (h : hierarchy) : string := match h with [] => "" | c :: _ => cl_name c end.

(** The bodies of the class [static] run on an object of dynamic type [dyn];
    [None] when the fuel is not enough or a name is unknown. *)
Fixpoint exec (fuel : nat) (dyn static : hierarchy) (body : list stmt) : option (list event) :=
  match fuel with
  | O => None
  | S fuel' =>
      match body with
      | [] => Some []
      | Print line :: rest => cons (owner static, line) <$> exec fuel' dyn static rest
      | Call m :: rest =>
          '(h, x) ← lookup_method m (if is_virtual m static then dyn else static);
          called ← exec fuel' dyn h (me_body x);
          after ← exec fuel' dyn static rest;
          Some (called ++ after)
      end
  end.

(** The bases are constructed first, each as an object of its own class. *)
Fixpoint construct (fuel : nat) (h : hierarchy) : option (list event) :=
  match h with
  | [] => Some []
  | c :: bases =>
      before ← construct fuel bases;
      own ← exec fuel h h (cl_ctor c);
      Some (before ++ own)
  end.

Fixpoint destroy (fuel : nat) (h : hierarchy) : option (list event) :=
  match h with
  | [] => Some []
  | c :: bases =>
      own ← exec fuel h h (cl_dtor c);
      after ← destroy fuel bases;
      Some (own ++ after)
  end.

(** [p->m()] through a pointer to [static]. *)
Definition call (fuel : nat) (dyn static : hierarchy) (m : string) : option (list event) :=
  exec fuel dyn static [Call m].

(** [delete p] through a pointer to [static]: with a virtual destructor the whole
    object; without one it is undefined, unless the types are the same. *)
Definition delete_through (fuel : nat) (dyn static : hierarchy) : option (list event) :=
  if existsb cl_virtual_dtor static then destroy fuel dyn
  else if decide (owner dyn = owner static) then destroy fuel dyn
  else None.

(** [dynamic_cast<target *>(p) != NULL] *)
Definition dynamic_cast (target : string) (dyn : hierarchy) : bool :=
  existsb (fun c => bool_decide (cl_name c = target)) dyn.

(** ** test_virtual_constructor_destructor.cpp *)
Module CtorDtor.
Definition base : klass :=
  Klass "base" [Print "base constructor"; Call "init"] [Print "base destructor"; Call "des"] true
    [("init", Method true [Print "base init"]); ("des", Method true [Print "base des"])]%string.
Definition derive : klass :=
  Klass "derive" [Print "derive constructor"] [Print "derive destructor"; Call "des"] true
    [("init", Method true [Print "derive init"]); ("des", Method true [Print "derive des"])]%string.

(** [base* p = new derive(); delete p;] *)
Definition main (fuel : nat) : option (list event) :=
  made ← construct fuel [derive; base];
  gone ← delete_through fuel [derive; base] [base];
  Some (made ++ gone).
End CtorDtor.

(** ** test_c++_constructor.cpp *)
Module NonVirtualInit.
Definition base : klass :=
  Klass "base" [Call "init"] [] false
    [("init", Method false [Call "func"]); ("func", Method true [Print "base func"])]%string.
Definition derive : klass :=
  Klass "derive" [] [] false [("func", Method true [Print "derive func"])]%string.

(** [derive d; d.init();] *)
Definition main (fuel : nat) : option (list event) :=
  made ← construct fuel [derive; base];
  called ← call fuel [derive; base] [derive; base] "init";
  gone ← destroy fuel [derive; base];
  Some (made ++ called ++ gone).
End NonVirtualInit.

(** ** test_dynamic_virtual.cpp *)
Module DynamicCast.
Definition base : klass := Klass "base" [] [] true [].
Definition derive : klass := Klass "derive" [] [] true [].

(** [base* p = new derive(); if (dynamic_cast<derive*>(p) != NULL) ...] *)
Definition main (fuel : nat) : option (list event) :=
  made ← construct fuel [derive; base];
  Some (made ++ if dynamic_cast "derive" [derive; base] then [("main", "dynamic_cast succ")]%string else []).
End DynamicCast.
