(* ===== verification/VirtualTheorems.v ===== *)
(** * VirtualTheorems: which overrider a constructor reaches *)

From S2P Require Import Prelude Virtual.

Implicit Types (h dyn static bases : hierarchy).

Definition names h : list string := cl_name <$> h.

Lemma lookup_method_suffix m h h' x : lookup_method m h = Some (h', x) -> h' `suffix_of` h /\ h' <> [].
Proof.
  induction h as [|c h IH]; cbn; [done|]. destruct (find_method m (cl_methods c)).
  - intros [= <- <-]. split; [done|discriminate].
  - intros [Hs Hne]%IH. split; [by apply suffix_cons_r|done].
Qed.

Lemma owner_suffix h h' : h' `suffix_of` h -> h' <> [] -> owner h' ∈ names h.
Proof.
  intros [l ->] Hne. destruct h' as [|c h']; [done|]. unfold names. rewrite fmap_app. cbn.
  apply elem_of_app. right. by left.
Qed.

(** The bodies that run belong to the dynamic type or its bases. *)
Lemma exec_owners fuel dyn static body evs :
  static `suffix_of` dyn -> static <> [] ->
  exec fuel dyn static body = Some evs -> Forall (fun e => e.1 ∈ names dyn) evs.
Proof.
  revert static body evs. induction fuel as [|fuel IH]; intros static body evs Hs Hne; cbn; [done|].
  destruct body as [|[line|m] rest]; [by intros [= <-]|..].
  - destruct (exec fuel dyn static rest) as [l|] eqn:E; [|done]. intros [= <-].
    constructor; [by apply owner_suffix|]. by apply (IH static rest).
  - destruct (lookup_method m _) as [[h x]|] eqn:El; [|done]. cbn.
    destruct (exec fuel dyn h (me_body x)) as [l1|] eqn:E1; [|done]. cbn.
    destruct (exec fuel dyn static rest) as [l2|] eqn:E2; [|done]. cbn. intros [= <-].
    apply lookup_method_suffix in El as [Hh Hh0].
    assert (h `suffix_of` dyn) by (destruct (is_virtual m static); [done|by etrans]).
    apply Forall_app. split; [by apply (IH h (me_body x))|by apply (IH static rest)].
Qed.

Lemma names_mono h h' : h' `suffix_of` h -> forall n, n ∈ names h' -> n ∈ names h.
Proof. intros [l ->] n Hn. unfold names. rewrite fmap_app. apply elem_of_app. by right. Qed.

Lemma construct_owners fuel h evs :
  construct fuel h = Some evs -> Forall (fun e => e.1 ∈ names h) evs.
Proof.
  revert evs. induction h as [|c h IH]; intros evs; cbn; [by intros [= <-]|].
  destruct (construct fuel h) as [l1|] eqn:E1; [|done]. cbn.
  destruct (exec fuel (c :: h) (c :: h) (cl_ctor c)) as [l2|] eqn:E2; [|done]. intros [= <-].
  apply Forall_app. split; [|by eapply (exec_owners fuel (c :: h) (c :: h))].
  eapply Forall_impl; [by apply IH|]. intros e He. by right.
Qed.

Lemma destroy_owners fuel h evs :
  destroy fuel h = Some evs -> Forall (fun e => e.1 ∈ names h) evs.
Proof.
  revert evs. induction h as [|c h IH]; intros evs; cbn; [by intros [= <-]|].
  destruct (exec fuel (c :: h) (c :: h) (cl_dtor c)) as [l1|] eqn:E1; [|done]. cbn.
  destruct (destroy fuel h) as [l2|] eqn:E2; [|done]. intros [= <-].
  apply Forall_app. split; [by eapply (exec_owners fuel (c :: h) (c :: h))|].
  eapply Forall_impl; [by apply IH|]. intros e He. by right.
Qed.

(** Virtual calls stay below the class at work: in any hierarchy, whatever its
    methods call, constructing an object runs first what constructing an object
    of its base runs, and destroying it runs last what destroying that runs; in
    both parts only bodies of the base and its own bases run, never an overrider
    of the derived class. *)
Theorem overriders_wait fuel c bases evs :
  (construct fuel (c :: bases) = Some evs ->
     exists before own, evs = before ++ own /\ construct fuel bases = Some before /\
       Forall (fun e => e.1 ∈ names bases) before) /\
  (destroy fuel (c :: bases) = Some evs ->
     exists own after, evs = own ++ after /\ destroy fuel bases = Some after /\
       Forall (fun e => e.1 ∈ names bases) after).
Proof.
  split; cbn.
  - destruct (construct fuel bases) as [l1|] eqn:E1; [|done]. cbn.
    destruct (exec _ _ _ _) as [l2|]; [|done]. intros [= <-]. exists l1, l2.
    split; [done|]. split; [done|]. by eapply construct_owners.
  - destruct (exec _ _ _ _) as [l1|]; [|done]. cbn.
    destruct (destroy fuel bases) as [l2|] eqn:E2; [|done]. intros [= <-]. exists l1, l2.
    split; [done|]. split; [done|]. by eapply destroy_owners.
Qed.

Lemma overriders_wait_witness :
  exists before own, CtorDtor.main 5 <> None /\
    construct 5 [CtorDtor.derive; CtorDtor.base] = Some (before ++ own) /\
    construct 5 [CtorDtor.base] = Some before /\
    Forall (fun e => e.1 ∈ names [CtorDtor.base]) before.
Proof.
  destruct (proj1 (overriders_wait 5 CtorDtor.derive [CtorDtor.base]
    [("base", "base constructor"); ("base", "base init"); ("derive", "derive constructor")]%string) eq_refl)
    as (before & own & E & Hb & Hall).
  exists before, own. split; [vm_compute; discriminate|]. split; [rewrite <- E; reflexivity|]. split; [exact Hb|exact Hall].
Defined.

(** What the three programs print. *)
Definition printed (o : option (list event)) : option (list string) := option_map (map snd) o.

Lemma virtual_programs_print :
  printed (CtorDtor.main 5) =
    Some ["base constructor"; "base init"; "derive constructor";
          "derive destructor"; "derive des"; "base destructor"; "base des"]%string /\
  printed (NonVirtualInit.main 5) = Some ["base func"; "derive func"]%string /\
  printed (DynamicCast.main 5) = Some ["dynamic_cast succ"]%string.
Proof. split_and!; reflexivity. Qed.
