(* ===== verification/Features.v ===== *)
(** * Features: the tour of C++11 in c++/c++11_test.cpp

    The variadic template [print], the template [Pow] that computes while it is
    compiled, and [main], one definition per block.  Variables that a block shares
    by reference are integers of a store; the others are bound by name.  What the
    standard leaves open is a parameter.

    Not modelled: the templates and classes that nothing instantiates ([print]
    apart), the blocks without output or effect on other
    blocks that only convert values (tuples, doubles, brace initialisation) and
    the random number, which is not used. *)

From Stdlib Require Import Ascii.
From stdpp Require Import pretty.
From S2P Require Import Prelude Bytes.

(** ** [print] (lines 260-273) *)

Module Variadic.

Section Print.
(** The values of the template's parameter types. *)
Context {V : Type}.

(** What a call does: characters and values go to [cout], and at most one call of
    the C function [printf] is made, whose format begins at an offset of [s]. *)
Inductive effect :=
  | Put (c : byte)
  | PutValue (v : V)
  | CallPrintf (format : nat) (args : list V).

Inductive outcome := Returns | Throws_logic_error.

Definition deref (s : list byte) (i : nat) : prog (list effect) byte :=
  unwrap (Undefined OutOfBounds) (s !! i).

Definition emit (e : effect) : prog (list effect) unit := modify (fun es => es ++ [e]).

(** The [while] loop, with [s] at [i]; what follows the loop is the [throw]. *)
Fixpoint print_loop (fuel : nat) (s : list byte) (i : nat) (value : V) (args : list V) :
    prog (list effect) outcome :=
  match fuel with
  | O => fail OutOfFuel
  | S fuel' =>
      c ← deref s i;
      if decide (c = Byte.x00) then mret Throws_logic_error
      else if decide (c = Byte.x25) then
        d ← deref s (i + 1)%nat;                               (* [*(++s)] *)
        if decide (d = Byte.x25) then
          emit (Put d) ;; print_loop fuel' s (i + 2)%nat value args
        else
          emit (PutValue value) ;;
          e ← deref s (i + 1)%nat;
          emit (CallPrintf (if decide (e = Byte.x00) then i + 1 else i + 2)%nat args) ;;
          mret Returns
      else emit (Put c) ;; print_loop fuel' s (i + 1)%nat value args
  end.

Definition print (s : list byte) (value : V) (args : list V) : prog (list effect) outcome :=
  print_loop (length s) s 0%nat value args.
End Print.
End Variadic.

(** ** [Pow<B, N>] (lines 192-202)

    A constant expression of type [int]: one that leaves the type does not
    compile.  A negative [N] never reaches the specialisation that ends the
    recursion, so that [N] is a natural number here. *)
Definition constant (z : Z) : option Z := if (- two31 <=? z) && (z <? two31) then Some z else None.

Fixpoint Pow (B : Z) (N : nat) : option Z :=
  match N with
  | O => Some 1
  | S N' => p ← Pow B N'; constant (B * p)
  end.

(** ** The program *)

Class Cxx := {
  shown_address : nat -> string;       (* what [%x] makes of the n-th pointer it is given *)
  moved_from : string -> string;       (* the contents of a string that was moved from *)
  sizeof_float : Z
}.

(** The integers of the program that are used through references, and what it has
    printed. *)
Record state := mkState { ints : list Z; out : list string }.

Abbreviation M := (prog state).

Definition nl : string := String "010"%char "".


Definition say (line : string) : M unit := modify (fun st => mkState (ints st) (out st ++ [line])).

(** The result of an operation on [int]: signed overflow is undefined. *)
Definition int_of (z : Z) : M Z :=
  match constant z with Some n => mret n | None => fail (Undefined OtherUB) end.

(** [int x = z;], and uses of a reference to it. *)
Definition new_int (z : Z) : M nat :=
  st ← get_st; modify (fun st => mkState (ints st ++ [z]) (out st)) ;; mret (length (ints st)).
Definition read_int (r : nat) : M Z :=
  st ← get_st; unwrap (Undefined UseAfterFree) (ints st !! r).
Definition write_int (r : nat) (z : Z) : M unit :=
  modify (fun st => mkState (<[r := z]> (ints st)) (out st)).

(** [r = r op n], the value computed in [int]. *)
Definition update_int (r : nat) (op : Z -> Z) : M unit :=
  z ← read_int r; z' ← int_of (op z); write_int r z'.

(** *** Functions *)

Definition GetFive : Z := 5.
Definition adjacent (x y : Z) : bool := y <? x.

(** The overloads of [foo]; a null pointer constant converts to [char*] only. *)
Inductive foo_argument := A_null | A_char_ptr | A_int.
Definition foo (a : foo_argument) : M unit :=
  match a with
  | A_null | A_char_ptr => say ("foo char*" +:+ nl)
  | A_int => say ("foo int" +:+ nl)
  end.

(** [f] increments what its reference refers to. *)
Definition f (r : nat) : M unit := update_int r (fun z => z + 1).

(** [g(f, t)]: its second parameter is a copy of [t], of an [int] a new object, of
    [std::ref(i)] another reference to [i]. *)
Inductive wrapped := By_value (z : Z) | By_ref (r : nat).
Definition g (fn : nat -> M unit) (t : wrapped) : M unit :=
  match t with
  | By_value z => r ← new_int z; fn r
  | By_ref r => fn r
  end.

Definition FuncName (x y : Z) : M Z := int_of (x + y).

(** *** Classes *)

(** [SomeType] and its delegating constructors. *)
Record SomeType := mkSomeType { number : Z; name : string }.
Definition SomeType_0 : SomeType := mkSomeType 0 "invalid".
Definition SomeType_1 (i : Z) : SomeType := mkSomeType i "guest".

Definition BaseClass_ctor : M unit := say ("BaseClass constructor" +:+ nl).
Definition DerivedClass_ctor : M unit := BaseClass_ctor.

(** [SomeClass]: the member's initialiser, unless a constructor has its own. *)
Definition SomeClass_iValue (iNewValue : option Z) : Z := default 5 iNewValue.

(** [Base::some_func(float)], overridden in [Derived]; [some_func(int)] is another
    function, which a [Base*] does not reach. *)
Inductive some_class := Is_Base | Is_Derived.
Definition some_func_float (dynamic : some_class) : M unit :=
  match dynamic with
  | Is_Base => say ("Base  some_func float" +:+ nl)
  | Is_Derived => say ("Derived some_func float" +:+ nl)
  end.

(** The classes [A] and [B]; [B] has no destructor of its own. *)
Inductive member_class := A | B.
Definition ctor (c : member_class) : M unit :=
  say (match c with A => "A constructor" | B => "B constructor" end +:+ nl).
Definition copy_ctor (c : member_class) : M unit :=
  say (match c with A => "A copy constructor" | B => "B copy constructor" end +:+ nl).
Definition dtor (c : member_class) : M unit :=
  match c with A => say ("A destructor" +:+ nl) | B => mret tt end.

(** [ClassName<bases...>]: its constructor initialises each base from a named
    parameter, an lvalue, so that the copy constructors run; the bases are
    destroyed in the opposite order. *)
Definition ClassName_ctor (bases : list member_class) : M unit := for_each copy_ctor bases.
Definition ClassName_dtor (bases : list member_class) : M unit := for_each dtor (rev bases).

(** [SomeStruct2<Args...>::size] *)
Definition SomeStruct2_size {T} (Args : list T) : Z := Z.of_nat (length Args).

(** *** The standard library *)

(** [regex_search] for a class of characters: the first match, one character
    long. *)
Fixpoint regex_search (class : list ascii) (target : string) : option string :=
  match target with
  | EmptyString => None
  | String c target' => if decide (c ∈ class) then Some (String c "") else regex_search class target'
  end.

(** [std::function<int(int, int)>], empty or with a target. *)
Definition function2 : Type := option (Z -> Z -> M Z).
Definition call2 (fn : function2) (x y : Z) : M Z :=
  match fn with Some t => t x y | None => fail BadFunctionCall end.
(** [std::function<bool(short, short)>] in it: the arguments are converted to
    [short], the result to [int]; an empty one gives an empty one. *)
Definition of_short (fn : option (Z -> Z -> M bool)) : function2 :=
  t ← fn; Some (fun x y => b ← t (int16 x) (int16 y); mret (if b : bool then 1 else 0)).

(** *** [main], block by block *)

Section Program.
Context `{Cxx}.

(** Lines 325-336 *)
Definition moves : M unit :=
  let foo := "foo-string"%string in
  let bar := "bar-string"%string in
  say ("foo's addr " +:+ shown_address 0 +:+ " bar's addr " +:+ shown_address 1 +:+ " " +:+ nl) ;;
  let myvector := [foo; bar] in
  let bar := moved_from bar in
  s0 ← unwrap (Undefined OutOfBounds) (myvector !! 0%nat);
  s1 ← unwrap (Undefined OutOfBounds) (myvector !! 1%nat);
  say ("in vector " +:+ s0 +:+ "'s addr " +:+ shown_address 2 +:+ " "
       +:+ s1 +:+ "'s addr " +:+ shown_address 3 +:+ nl) ;;
  say ("foo is " +:+ foo +:+ "  bar is " +:+ bar +:+ nl).

(** Lines 352-360 *)
Definition deduction : M unit :=
  let otherVariable := "hello world"%string in
  let otherIntegerVariable := 5 in
  say ("otherVaiable is " +:+ otherVariable +:+ " otherIntegerVariable  is "
       +:+ pretty otherIntegerVariable +:+ nl).

(** Lines 361-373: the loop over references, and the one over iterators. *)
Definition double_all (my_vec : list nat) : M unit := for_each (fun x => update_int x (fun z => z * 2)) my_vec.
Definition range_for : M unit :=
  let my_vec := [1; 2; 3; 4; 5] in
  refs ← foldr (fun z k => r ← new_int z; rs ← k; mret (r :: rs)) (mret []) my_vec;
  double_all refs ;;
  say "my_vec is " ;;
  for_each (fun x => z ← read_int x; say (pretty z +:+ " ")) refs ;;
  say nl.

(** Lines 374-389: the second lambda is made and never called. *)
Definition lambdas : M unit :=
  let someList := [1; 2; 3; 4] in
  total ← new_int 0;
  for_each (fun x => update_int total (fun z => z + x)) someList ;;
  t ← read_int total; say ("total is " +:+ pretty t +:+ nl) ;;
  write_int total 0 ;;
  let value := 5 in
  let _closure : M unit := update_int total (fun z => z + 2 * value) in
  t ← read_int total; say ("total is " +:+ pretty t +:+ nl).

(** Lines 390-394 *)
Definition trailing_type : M unit :=
  z ← FuncName 1 2; say ("SomeStruct .FuncName is " +:+ pretty z +:+ nl).

(** Lines 395-402 *)
Definition constructors : M unit :=
  let a := mkSomeType 1 "string" in
  let b := SomeType_1 1 in
  let c := SomeType_0 in
  say ("a " +:+ pretty (number a) +:+ " " +:+ name a +:+ "    b " +:+ pretty (number b) +:+ " " +:+ name b
       +:+ "  c  " +:+ pretty (number c) +:+ " " +:+ name c +:+ nl) ;;
  DerivedClass_ctor ;;
  let e := SomeClass_iValue None in
  say ("SomeClass default value is " +:+ pretty e +:+ nl).

(** Lines 403-407 *)
Definition overriding : M unit := some_func_float Is_Derived.

(** Lines 408-414 *)
Definition null_pointer : M unit := foo A_null.

(** Lines 435-438 *)
Definition size_of_member : M unit := say ("BasicStruct's y sizeof is  " +:+ pretty sizeof_float +:+ nl).

(** Lines 445-454: the objects are destroyed in the opposite order at the end. *)
Definition variadic_bases : M unit :=
  ctor A ;; ctor B ;;
  say ("A B init finish" +:+ nl) ;;
  ClassName_ctor [A; B] ;;
  say ("SomeStruct2 size is " +:+ pretty (SomeStruct2_size ["int"; "float"; "char"]%string) +:+ nl) ;;
  ClassName_dtor [A; B] ;; dtor B ;; dtor A.

(** Lines 482-501: the class in [reg_esp], and the only part of the match. *)
Definition delimiters : list ascii := [" "; ","; "."; "009"; "010"; ";"; ":"]%char.
Definition regular_expression : M unit :=
  match regex_search delimiters "Polytechnic University of Turin " with
  | Some str => say (str +:+ nl)
  | None => mret tt
  end.

(** Lines 502-509 *)
Definition shared_pointers : M unit := ctor A ;; dtor A.

(** Lines 517-524 *)
Definition references : M unit :=
  i ← new_int 0;
  z ← read_int i; g f (By_value z) ;;
  z ← read_int i; say (pretty z +:+ nl) ;;
  g f (By_ref i) ;;
  z ← read_int i; say (pretty z +:+ nl).

(** Lines 525-548, and what [func] is at the end. *)
Definition functions : M function2 :=
  let add : Z -> Z -> M Z := fun x y => int_of (x + y) in
  let func : function2 := Some add in
  a ← call2 func 1 2;
  let func2 : option (Z -> Z -> M bool) := None in
  let '(func, func2) :=
    match func2 with
    | None =>
        let func2 := Some (fun x y => mret (adjacent x y)) in
        let car : Z -> Z -> M bool := fun x y => mret true in
        (of_short (Some car), func2)
    | Some _ => (func, func2)
    end in
  let func := of_short func2 in
  mret func.

(** Lines 549-552 *)
Definition quartic_of_three : option Z := Pow 3 4.

Definition main : M Z :=
  moves ;; deduction ;; range_for ;; lambdas ;; trailing_type ;; constructors ;; overriding ;;
  null_pointer ;; size_of_member ;; variadic_bases ;; regular_expression ;; shared_pointers ;;
  references ;; _ ← functions; mret 0.
End Program.
