(* ===== verification/FeaturesTheorems.v ===== *)
(** * FeaturesTheorems: what c/c++11_test.cpp's [print], [Pow] and [main] do *)

From stdpp Require Import pretty.
From S2P Require Import Prelude Bytes Features.

(** ** [print] against a description of formats *)

Module VariadicTheorems.
Import Variadic.

(** The text in front of the first directive, with [%%] for a percent sign, and
    what follows that directive: its percent sign and one character, if there is
    one. *)
Fixpoint directive (l : list byte) : list byte * option (list byte) :=
  match l with
  | [] => ([], None)
  | c :: l' =>
      if decide (c = Byte.x25) then
        match l' with
        | [] => ([], Some [])
        | d :: l'' =>
            if decide (d = Byte.x25) then (let '(t, r) := directive l'' in (Byte.x25 :: t, r))
            else ([], Some l'')
        end
      else (let '(t, r) := directive l' in (c :: t, r))
  end.

Section Print.
Context {V : Type}.

(** What [print] must do with the format [l] in [s]. *)
Definition prints (s : list byte) (l : list byte) (value : V) (args : list V) (o : outcome)
    (es : list (effect (V := V))) : Prop :=
  match directive l with
  | (t, None) => o = Throws_logic_error /\ es = map Put t
  | (t, Some rest) =>
      o = Returns /\ exists k,
        es = map Put t ++ [PutValue value; CallPrintf k args] /\ c_string (drop k s) = Some rest
  end.

Lemma deref_at s pre c r i es (Q : byte -> list effect -> Prop) :
  s = pre ++ c :: r -> i = length pre -> runs (deref (V := V) s i) es Q <-> Q c es.
Proof.
  intros -> ->. unfold deref. rewrite runs_unwrap. rewrite list_lookup_middle by done.
  split; [intros (x & [= <-] & HQ); done|eauto].
Qed.

Lemma runs_emit (e : effect) es (Q : unit -> list (effect (V := V)) -> Prop) :
  runs (emit e) es Q <-> Q tt (es ++ [e]).
Proof. done. Qed.

(** More characters in front. *)
Lemma prints_cons s l value args o es c l0 :
  prints s l value args o es ->
  directive l0 = (let '(t, r) := directive l in (c :: t, r)) ->
  prints s l0 value args o (Put c :: es).
Proof.
  unfold prints. intros Hp ->. destruct (directive l) as [t [rest|]].
  - destruct Hp as (-> & k & -> & Hk). split; [done|]. by exists k.
  - by destruct Hp as [-> ->].
Qed.

Lemma print_loop_from n s l pre r i value args es fuel :
  (length l <= n)%nat -> (length l < fuel)%nat -> nonzero l ->
  s = pre ++ l ++ Byte.x00 :: r -> i = length pre ->
  runs (print_loop fuel s i value args) es (fun o es' =>
    exists new, es' = es ++ new /\ prints s l value args o new).
Proof.
  revert l pre i es fuel. induction n as [n IH] using lt_wf_ind; intros l pre i es fuel Hn Hfuel Hl Hs Hi.
  assert (forall l' pre' c i' fuel',
    directive l = (let '(t, r) := directive l' in (c :: t, r)) ->
    (length l' < length l)%nat -> (length l' < fuel')%nat -> nonzero l' ->
    s = pre' ++ l' ++ Byte.x00 :: r -> i' = length pre' ->
    runs (print_loop fuel' s i' value args) (es ++ [Put c]) (fun o es' =>
      exists new, es' = es ++ new /\ prints s l value args o new)) as Hrest.
  { intros l' pre' c i' fuel' Hdir Hlt Hfuel' Hl' Hs' Hi'.
    eapply runs_mono; [apply (IH (length l') ltac:(lia) l' pre'); done|cbn beta].
    intros o es' (new & -> & Hp). exists (Put c :: new). split; [by rewrite <- app_assoc|].
    by eapply prints_cons. }
  clear IH. destruct fuel as [|fuel]; [lia|]. cbn [print_loop]. rewrite runs_bind.
  destruct l as [|c l']; cbn [app length] in *.
  { rewrite (deref_at s pre Byte.x00 r) by done. rewrite decide_True by done.
    exists []. by rewrite app_nil_r. }
  apply Forall_cons in Hl as [Hc Hl].
  rewrite (deref_at s pre c (l' ++ Byte.x00 :: r)) by done. rewrite decide_False by done.
  case_decide as Hpc.
  2:{ rewrite runs_bind, runs_emit. apply (Hrest l' (pre ++ [c])); [|lia|lia|done| |].
      - cbn [directive]. by rewrite decide_False.
      - by rewrite <- app_assoc.
      - rewrite length_app. cbn. lia. }
  subst c. rewrite runs_bind. destruct l' as [|d l'']; cbn [app length] in *.
  - rewrite (deref_at s (pre ++ [Byte.x25]) Byte.x00 r) by (rewrite ?length_app; subst; rewrite <- ?app_assoc; done).
    rewrite decide_False by done. rewrite runs_bind, runs_emit, runs_bind.
    rewrite (deref_at s (pre ++ [Byte.x25]) Byte.x00 r) by (rewrite ?length_app; subst; rewrite <- ?app_assoc; done).
    rewrite decide_True by done. rewrite runs_bind, runs_emit, runs_ret.
    exists [PutValue value; CallPrintf (i + 1)%nat args]. split; [by rewrite <- app_assoc|].
    unfold prints. cbn. split; [done|]. exists (i + 1)%nat. split; [done|].
    subst. by rewrite drop_app_add.
  - apply Forall_cons in Hl as [Hd Hl].
    assert (s = (pre ++ [Byte.x25]) ++ d :: l'' ++ Byte.x00 :: r) as Hs2 by (subst; by rewrite <- app_assoc).
    assert ((i + 1)%nat = length (pre ++ [Byte.x25])) as Hi2 by (subst; by rewrite length_app).
    rewrite (deref_at _ _ _ _ _ _ _ Hs2 Hi2). case_decide as Hdp.
    + subst d. rewrite runs_bind, runs_emit.
      apply (Hrest l'' (pre ++ [Byte.x25; Byte.x25])); [|lia|lia|done| |].
      * done.
      * subst. by rewrite <- app_assoc.
      * rewrite length_app. cbn. lia.
    + rewrite runs_bind, runs_emit, runs_bind, (deref_at _ _ _ _ _ _ _ Hs2 Hi2), decide_False by done.
      rewrite runs_bind, runs_emit, runs_ret.
      exists [PutValue value; CallPrintf (i + 2)%nat args]. split; [by rewrite <- app_assoc|].
      unfold prints. cbn [directive]. rewrite decide_True, decide_False by done.
      split; [done|]. exists (i + 2)%nat. split; [done|].
      subst. rewrite drop_app_add. cbn. by apply c_string_nonzero.
Qed.

(** For every format that a zero byte ends, whatever lies behind it, [print]
    reads nothing outside it.  It writes the text in front of the first directive,
    then its value, and leaves everything behind that directive to one call of the
    C function [printf], with the other arguments; the exception for surplus
    arguments is thrown only when there is no directive at all. *)
Theorem print_formats l r (value : V) (args : list V) :
  nonzero l ->
  runs (print (l ++ Byte.x00 :: r) value args) [] (fun o es =>
    match directive l with
    | (t, None) => o = Throws_logic_error /\ es = map Put t
    | (t, Some rest) =>
        o = Returns /\ exists k,
          es = map Put t ++ [PutValue value; CallPrintf k args] /\
          c_string (drop k (l ++ Byte.x00 :: r)) = Some rest
    end).
Proof.
  intros Hl. unfold print.
  eapply runs_mono; [apply (print_loop_from (length l) _ l [] r); [done| |done..]|].
  - rewrite length_app. cbn. lia.
  - intros o es (new & -> & Hp). exact Hp.
Qed.
End Print.

(** ["50%% of %d"] with two values: the second is left to [printf], with nothing in
    the format for it. *)
Lemma print_formats_witness :
  runs (print [Byte.x35; Byte.x25; Byte.x25; Byte.x25; Byte.x64; Byte.x00] 7 [8]) [] (fun o es =>
    o = Returns /\ exists k,
      es = [Put Byte.x35; Put Byte.x25; PutValue 7; CallPrintf k [8]] /\
      c_string (drop k [Byte.x35; Byte.x25; Byte.x25; Byte.x25; Byte.x64; Byte.x00]) = Some []).
Proof.
  apply (print_formats [Byte.x35; Byte.x25; Byte.x25; Byte.x25; Byte.x64] [] 7 [8]).
  repeat constructor; discriminate.
Defined.
End VariadicTheorems.

(** ** [Pow] *)

(** [Pow<B, N>::value] is the N-th power of [B] when that is an [int], and does
    not compile otherwise: no partial product leaves the type before. *)
Theorem Pow_is_power B N :
  Pow B N = if (- two31 <=? B ^ Z.of_nat N) && (B ^ Z.of_nat N <? two31) then Some (B ^ Z.of_nat N) else None.
Proof.
  change (Pow B N = constant (B ^ Z.of_nat N)).
  induction N as [|N IH]; [done|]. cbn [Pow]. rewrite IH.
  rewrite Nat2Z.inj_succ, Z.pow_succ_r by lia. set (p := B ^ Z.of_nat N).
  destruct (constant p) eqn:E; unfold constant in E; case_match eqn:Hr; simplify_eq; cbn; [done|].
  apply andb_false_iff in Hr. rewrite Z.leb_gt, Z.ltb_ge in Hr.
  assert (B <> 0 /\ B <> 1 /\ B <> -1) as (H0 & H1 & H2).
  { subst p. split_and!; intros ->.
    - destruct N; [cbn in Hr; lia|]. rewrite Z.pow_0_l in Hr; lia.
    - rewrite Z.pow_1_l in Hr; lia.
    - pose proof (Z.abs_pow (-1) (Z.of_nat N)) as Ha. rewrite Z.pow_1_l in Ha; lia. }
  symmetry. unfold constant. case_match eqn:Hc; [|done]. apply andb_true_iff in Hc. rewrite Z.leb_le, Z.ltb_lt in Hc.
  nia.
Qed.

(** ** References *)

Lemma runs_update_int r op st z :
  ints st !! r = Some z -> - two31 <= op z < two31 ->
  runs (update_int r op) st (fun _ st' => st' = mkState (<[r := op z]> (ints st)) (out st)).
Proof.
  intros Hr Hop. unfold update_int, read_int, int_of, constant. repeat run_step.
  rewrite runs_unwrap. exists z. split; [done|]. rewrite runs_bind.
  replace ((- two31 <=? op z) && (op z <? two31)) with true; [done|].
  symmetry. apply andb_true_iff. rewrite Z.leb_le, Z.ltb_lt. lia.
Qed.

(** [g(f, i)] increments a copy: every integer the program has keeps its value.
    [g(f, std::ref(i))] increments [i] and nothing else. *)
Theorem g_wraps_references i z st :
  ints st !! i = Some z -> - two31 <= z + 1 < two31 ->
  runs (g f (By_value z)) st (fun _ st' =>
    out st' = out st /\ forall r z', ints st !! r = Some z' -> ints st' !! r = Some z') /\
  runs (g f (By_ref i)) st (fun _ st' =>
    out st' = out st /\ forall r, ints st' !! r = if decide (r = i) then Some (z + 1) else ints st !! r).
Proof.
  intros Hi Hz. split; cbn [g].
  - unfold new_int. rewrite runs_bind. repeat run_step.
    eapply runs_mono; [apply (runs_update_int _ (fun z => z + 1) _ z); [|done]|].
    { cbn. by apply list_lookup_middle. }
    intros _ st' ->. cbn. split; [done|]. intros r z' Hr.
    pose proof (lookup_lt_Some _ _ _ Hr). rewrite list_lookup_insert_ne by lia. by apply lookup_app_l_Some.
  - eapply runs_mono; [by apply (runs_update_int i (fun z => z + 1) st z)|].
    intros _ st' ->. cbn. split; [done|]. intros r. case_decide as Hr.
    + subst r. apply list_lookup_insert_eq. by eapply lookup_lt_Some.
    + by apply list_lookup_insert_ne.
Qed.

(** The loop over references doubles each of its integers, once where they are
    different. *)
Lemma double_all_doubles refs st :
  NoDup refs ->
  Forall (fun r => exists z, ints st !! r = Some z /\ - two31 <= z * 2 < two31) refs ->
  runs (double_all refs) st (fun _ st' => out st' = out st /\
    forall r, ints st' !! r = if decide (r ∈ refs) then Z.mul 2 <$> ints st !! r else ints st !! r).
Proof.
  intros Hnd. revert st. induction Hnd as [|r refs Hr Hnd IH]; intros st Hall.
  { cbn. split; [done|]. intros r. by rewrite decide_False by apply not_elem_of_nil. }
  apply Forall_cons in Hall as [(z & Hz & Hb) Hall]. unfold double_all. cbn [for_each].
  rewrite runs_bind. eapply runs_mono; [by apply (runs_update_int r (fun z => z * 2) st z)|cbn beta].
  intros _ st' ->. fold (double_all refs). set (st1 := mkState _ _).
  assert (forall r', r' <> r -> ints st1 !! r' = ints st !! r') as Hne.
  { intros r' Hr'. cbn. by rewrite list_lookup_insert_ne by done. }
  assert (ints st1 !! r = Some (z * 2)) as Heq.
  { cbn. apply list_lookup_insert_eq. by eapply lookup_lt_Some. }
  eapply runs_mono; [apply (IH st1)|cbn beta].
  - eapply Forall_impl; [apply Forall_and; split; [exact Hall|apply Forall_forall; intros x Hx; exact Hx]|].
    intros x [(z' & Hz' & Hb') Hx]. exists z'. rewrite Hne; [done|]. by intros ->.
  - intros _ st' [Hout Hst']. split; [done|]. intros r'. rewrite Hst'.
    destruct (decide (r' = r)) as [->|Hr'].
    + rewrite decide_False by done. rewrite decide_True by apply list_elem_of_here.
      rewrite Heq, Hz. cbn. f_equal. lia.
    + rewrite Hne by done. destruct (decide (r' ∈ refs)) as [Hin|Hin].
      * rewrite decide_True; [done|]. by apply list_elem_of_further.
      * rewrite decide_False; [done|]. rewrite elem_of_cons. tauto.
Qed.

(** ** The program *)

Section Program.
Context `{Cxx}.

(** No empty [func] is called, and at the end it is [adjacent], its arguments
    reduced to [short]. *)
Theorem functions_end_with_adjacent st :
  runs functions st (fun fn st' => st' = st /\
    forall x y, runs (call2 fn x y) st (fun z st' => st' = st /\ z = if int16 y <? int16 x then 1 else 0)).
Proof. unfold functions. cbn. split; [done|]. intros x y. by unfold adjacent. Qed.

(** The lines of [main]. *)
Definition main_text : list string :=
  ["foo's addr " +:+ shown_address 0 +:+ " bar's addr " +:+ shown_address 1 +:+ " " +:+ nl;
   "in vector foo-string's addr " +:+ shown_address 2 +:+ " bar-string's addr " +:+ shown_address 3 +:+ nl;
   "foo is foo-string  bar is " +:+ moved_from "bar-string" +:+ nl;
   "otherVaiable is hello world otherIntegerVariable  is 5" +:+ nl;
   "my_vec is "; "2 "; "4 "; "6 "; "8 "; "10 "; nl;
   "total is 10" +:+ nl; "total is 0" +:+ nl;
   "SomeStruct .FuncName is 3" +:+ nl;
   "a 1 string    b 1 guest  c  0 invalid" +:+ nl;
   "BaseClass constructor" +:+ nl; "SomeClass default value is 5" +:+ nl;
   "Derived some_func float" +:+ nl; "foo char*" +:+ nl;
   "BasicStruct's y sizeof is  " +:+ pretty sizeof_float +:+ nl;
   "A constructor" +:+ nl; "B constructor" +:+ nl; "A B init finish" +:+ nl;
   "A copy constructor" +:+ nl; "B copy constructor" +:+ nl; "SomeStruct2 size is 3" +:+ nl;
   "A destructor" +:+ nl; "A destructor" +:+ nl;
   " " +:+ nl;
   "A constructor" +:+ nl; "A destructor" +:+ nl;
   "0" +:+ nl; "1" +:+ nl]%string.

(** [main] ends, returns 0 and prints
    these lines; only the addresses, the moved-from string and the size of a
    [float] depend on the implementation. *)
Theorem features_output :
  runs main (mkState [] []) (fun ret st' => ret = 0 /\ out st' = main_text).
Proof.
  unfold main, size_of_member, main_text. generalize (pretty sizeof_float) as size. intros size.
  vm_compute. split; reflexivity.
Qed.
End Program.

(** [Pow<3, 4>] *)
Example quartic_value : quartic_of_three = Some 81.
Proof. reflexivity. Qed.
