(* ===== verification/SharedMem.v ===== *)
(** * SharedMem: two processes on one shared mapping (net/semaphore/b.c)

    Parent and child work on the same ten records, without any synchronisation but
    [sleep].  The mapping is shared, so that every access of either process is a
    step of its own.  The program is C of before C99: functions and [main]'s result
    are implicitly declared. *)

From S2P Require Import Prelude Bytes.

(** [people]; [name] has four bytes. *)
Record people := mkPeople { name : list byte; age : Z }.

Inductive process := Parent | Child.

#[export] Instance process_eq_dec : EqDecision process.
Proof. solve_decision. Defined.

(** What a process does next. *)
Inductive action :=
  | CopyName (i : nat) (temp : byte)    (* memcpy(p_map[i].name, &temp, 2) *)
  | SetAge (i : nat) (n : Z)
  | ReadAge (i : nat)                   (* the child's printf *)
  | ReadFirst                           (* the parent's printf *)
  | Say (text : string)
  | Munmap.

#[export] Instance action_eq_dec : EqDecision action.
Proof. solve_decision. Defined.

Inductive line :=
  | PersonIs (i : nat) (n : Z)          (* "child read: the %d people's age is %d" *)
  | FirstIs (n : Z)                     (* "parent read: the first people,s age is %d" *)
  | Text (text : string).

(** Lines 19-23, to [exit]. *)
Definition child_actions : list action := map ReadAge (seq 0 5) ++ [SetAge 0 100; Munmap].

(** Lines 25-36: [temp] is incremented before its use. *)
Definition parent_actions : list action :=
  flat_map (fun i => [CopyName i (byte_of_Z (97 + 1 + Z.of_nat i)); SetAge i (20 + Z.of_nat i)]) (seq 0 5)
  ++ [ReadFirst; Say "umap"; Munmap; Say "umap ok"].

(** A process: what it has still to do, and whether its mapping exists. *)
Record proc := mkProc { todo : list action; mapped : bool }.

Record machine := mkMachine {
  memory : list people;
  parent : proc;
  child : proc;
  out : list (process * line)
}.

Definition proc_of (who : process) (m : machine) : proc :=
  match who with Parent => parent m | Child => child m end.
Definition set_proc (who : process) (p : proc) (m : machine) : machine :=
  match who with
  | Parent => mkMachine (memory m) p (child m) (out m)
  | Child => mkMachine (memory m) (parent m) p (out m)
  end.
Definition set_memory (mem : list people) (m : machine) : machine :=
  mkMachine mem (parent m) (child m) (out m).
Definition print (who : process) (l : line) (m : machine) : machine :=
  mkMachine (memory m) (parent m) (child m) (out m ++ [(who, l)]).

Section Program.
(** [memcpy] reads two bytes at [&temp], one more than [temp] has: this is what
    lies behind it. *)
Variable behind : byte.

(** The record [i] of the mapping, which must exist. *)
Definition record_at (p : proc) (i : nat) (m : machine) : result people :=
  if mapped p then
    match memory m !! i with Some r => Ok r | None => Err (Undefined OutOfBounds) end
  else Err (Undefined UseAfterFree).

Definition perform (who : process) (p : proc) (a : action) (m : machine) : result machine :=
  match a with
  | CopyName i temp =>
      match record_at p i m with
      | Ok r => Ok (set_memory (<[i := mkPeople (temp :: behind :: drop 2 (name r)) (age r)]> (memory m)) m)
      | Err f => Err f
      end
  | SetAge i n =>
      match record_at p i m with
      | Ok r => Ok (set_memory (<[i := mkPeople (name r) n]> (memory m)) m)
      | Err f => Err f
      end
  | ReadAge i =>
      match record_at p i m with Ok r => Ok (print who (PersonIs (i + 1) (age r)) m) | Err f => Err f end
  | ReadFirst =>
      match record_at p 0 m with Ok r => Ok (print who (FirstIs (age r)) m) | Err f => Err f end
  | Say text => Ok (print who (Text text) m)
  | Munmap => Ok (set_proc who (mkProc (todo p) false) m)
  end.

(** The process [who] takes its next step; [None] when it has ended. *)
Definition advance (who : process) (m : machine) : option (result machine) :=
  let p := proc_of who m in
  match todo p with
  | [] => None
  | a :: rest =>
      let p' := mkProc rest (mapped p) in
      Some (perform who p' a (set_proc who p' m))
  end.

(** Lines 14-16: [mmap] gives ten zeroed records; a failed [fork] leaves the
    parent alone. *)
Definition main (forks : bool) : machine :=
  mkMachine (replicate 10 (mkPeople (replicate 4 Byte.x00) 0))
    (mkProc parent_actions true)
    (mkProc (if forks then child_actions else []) true) [].

(** A schedule: who takes the next step. *)
Fixpoint run_schedule (sched : list process) (m : machine) : option (result machine) :=
  match sched with
  | [] => Some (Ok m)
  | who :: sched' =>
      match advance who m with
      | Some (Ok m') => run_schedule sched' m'
      | r => r
      end
  end.
End Program.
