(* ===== verification/SharedMemTheorems.v ===== *)
(** * SharedMemTheorems: what the processes of net/semaphore/b.c can see *)

From S2P Require Import Prelude Bytes SharedMem.

Definition temp_at (i : nat) : byte := byte_of_Z (98 + Z.of_nat i).

(** What the child does when there is one. *)
Definition child_todo (forks : bool) : list action := if forks then child_actions else [].

Section Theorems.
Variable behind : byte.
Variable forks : bool.

(** ** The code of the two processes *)

(** Before its next action a process has never done it, has its mapping, and reads
    what it reads at the right time: the parent the first age after it has set it,
    the child every age before it sets the first. *)
Definition timely (who : process) (a : action) (rest : list action) : Prop :=
  (a ∉ rest) /\
  match who, a with
  | Parent, CopyName i c => (i < 5)%nat /\ c = temp_at i /\ Munmap ∈ rest
  | Parent, SetAge i n => (i < 5)%nat /\ n = 20 + Z.of_nat i /\ Munmap ∈ rest
  | Parent, ReadFirst => (SetAge 0 20 ∉ rest) /\ Munmap ∈ rest
  | Child, ReadAge i => (i < 5)%nat /\ (SetAge 0 100 ∈ rest) /\ Munmap ∈ rest
  | Child, SetAge i n => i = 0%nat /\ n = 100 /\ Munmap ∈ rest
  | Parent, Say _ | _, Munmap => True
  | _, _ => False
  end.

Fixpoint good (who : process) (l : list action) : Prop :=
  match l with [] => True | a :: rest => timely who a rest /\ good who rest end.

Ltac by_membership :=
  first [ apply (bool_decide_unpack _); vm_compute; exact I
        | intros ?%(bool_decide_pack _); vm_compute in *; done ].

Lemma parent_good : good Parent parent_actions.
Proof. cbn -[elem_of]. unfold timely. repeat split; try lia; by_membership. Qed.

Lemma child_good : good Child (child_todo forks).
Proof. destruct forks; cbn -[elem_of]; [|done]. unfold timely. repeat split; try lia; by_membership. Qed.

(** ** The memory and the output at any time *)

(** The record [i] when the parent has still to do [pt] and the child [ct]. *)
Definition name_ok (pt : list action) (i : nat) (n : list byte) : Prop :=
  n = if decide ((i < 5)%nat /\ CopyName i (temp_at i) ∉ pt)
      then [temp_at i; behind; Byte.x00; Byte.x00] else replicate 4 Byte.x00.

Definition age_ok (pt ct : list action) (i : nat) (n : Z) : Prop :=
  (n = 0 /\ ((i < 5)%nat -> SetAge i (20 + Z.of_nat i) ∈ pt)) \/
  ((i < 5)%nat /\ n = 20 + Z.of_nat i /\ SetAge i (20 + Z.of_nat i) ∉ pt) \/
  (forks = true /\ i = 0%nat /\ n = 100 /\ SetAge 0 100 ∉ ct).

Definition memory_ok (pt ct : list action) (mem : list people) : Prop :=
  length mem = 10%nat /\
  forall i r, mem !! i = Some r -> name_ok pt i (name r) /\ age_ok pt ct i (age r).

(** The child prints ages that nobody has set or that the parent has set; the
    parent its own first age or the child's. *)
Definition line_ok (l : process * line) : Prop :=
  match l.2 with
  | PersonIs j n => exists i, j = (i + 1)%nat /\ (n = 0 \/ n = 20 + Z.of_nat i)
  | FirstIs n => n = 20 \/ (forks = true /\ n = 100)
  | Text _ => True
  end.

(** The call that prints a line. *)
Definition call_of (l : line) : action :=
  match l with PersonIs j _ => ReadAge (j - 1) | FirstIs _ => ReadFirst | Text t => Say t end.
Definition prints (a : action) : bool :=
  match a with ReadAge _ | ReadFirst | Say _ => true | _ => false end.
Definition calls (who : process) (o : list (process * line)) : list action :=
  map (fun l => call_of l.2) (filter (fun l => l.1 = who) o).
Definition start_of (who : process) : list action :=
  match who with Parent => parent_actions | Child => child_todo forks end.

Record inv (m : machine) : Prop := {
  inv_good who : good who (todo (proc_of who m));
  inv_mapped who : Munmap ∈ todo (proc_of who m) -> mapped (proc_of who m) = true;
  inv_memory : memory_ok (todo (parent m)) (todo (child m)) (memory m);
  inv_lines : Forall line_ok (out m);
  inv_calls who :
    calls who (out m) ++ filter (fun a => prints a) (todo (proc_of who m)) = filter (fun a => prints a) (start_of who);
  inv_forks : forks = false -> todo (child m) = []
}.

Lemma inv_main : inv (main forks).
Proof.
  split.
  - intros []; [apply parent_good|apply child_good].
  - by intros [].
  - split; [done|]. intros i r (-> & Hi)%lookup_replicate. unfold name_ok, age_ok. cbn [name age].
    rewrite decide_False; [split; [done|left; split; [done|]]|].
    + intros Hi5. do 5 (destruct i as [|i]; [by_membership|]). lia.
    + intros [Hi5 Hn]. apply Hn. clear Hn. do 5 (destruct i as [|i]; [by_membership|]). lia.
  - constructor.
  - unfold start_of. intros []; [done|]. by destruct forks.
  - by intros ->.
Qed.

Lemma calls_snoc who who' l o :
  calls who (o ++ [(who', l)]) = calls who o ++ (if decide (who' = who) then [call_of l] else []).
Proof.
  unfold calls. rewrite filter_app, map_app. f_equal. rewrite filter_cons. cbn. by case_decide.
Qed.

(** ** One step *)

Lemma runs_record p i m :
  mapped p = true -> length (memory m) = 10%nat -> (i < 5)%nat ->
  exists r, memory m !! i = Some r /\ record_at p i m = Ok r.
Proof.
  intros Hp Hm Hi. destruct (lookup_lt_is_Some_2 (memory m) i) as [r Hr]; [lia|].
  exists r. split; [done|]. unfold record_at. by rewrite Hp, Hr.
Qed.

(** A record changes, the others satisfy what they did. *)
Lemma memory_ok_insert pt ct pt' ct' mem i r :
  memory_ok pt ct mem -> mem !! i = Some r ->
  forall r', name_ok pt' i (name r') /\ age_ok pt' ct' i (age r') ->
  (forall j n, j <> i -> name_ok pt j n -> name_ok pt' j n) ->
  (forall j n, j <> i -> age_ok pt ct j n -> age_ok pt' ct' j n) ->
  memory_ok pt' ct' (<[i := r']> mem).
Proof.
  intros [Hlen Hmem] Hr r' Hr' Hn Ha. split; [by rewrite length_insert|].
  intros j rj. destruct (decide (j = i)) as [->|Hj].
  - rewrite list_lookup_insert_eq by by eapply lookup_lt_Some. by intros [= <-].
  - rewrite list_lookup_insert_ne by done. intros Hl. destruct (Hmem _ _ Hl). auto.
Qed.

Lemma memory_ok_weaken pt ct pt' ct' mem :
  memory_ok pt ct mem ->
  (forall j n, name_ok pt j n -> name_ok pt' j n) ->
  (forall j n, age_ok pt ct j n -> age_ok pt' ct' j n) ->
  memory_ok pt' ct' mem.
Proof. intros [Hlen Hmem] Hn Ha. split; [done|]. intros j rj Hl. destruct (Hmem _ _ Hl). auto. Qed.

Lemma name_ok_pop a pt j n : a <> CopyName j (temp_at j) -> name_ok (a :: pt) j n -> name_ok pt j n.
Proof.
  unfold name_ok. intros Ha ->. repeat case_decide; rewrite ?elem_of_cons in *; try done; naive_solver.
Qed.

Lemma age_ok_pop_parent a pt ct j n :
  a <> SetAge j (20 + Z.of_nat j) -> age_ok (a :: pt) ct j n -> age_ok pt ct j n.
Proof. unfold age_ok. rewrite !elem_of_cons. naive_solver. Qed.

Lemma age_ok_pop_child a pt ct j n :
  a <> SetAge 0 100 -> age_ok pt (a :: ct) j n -> age_ok pt ct j n.
Proof. unfold age_ok. rewrite !elem_of_cons. naive_solver. Qed.

(** What a step must do to keep the invariant. *)
Lemma inv_step who a rest mp mem' new m m' :
  inv m -> todo (proc_of who m) = a :: rest ->
  m' = set_proc who (mkProc rest mp) (mkMachine mem' (parent m) (child m) (out m ++ new)) ->
  (Munmap ∈ rest -> mp = true) ->
  memory_ok (todo (parent m')) (todo (child m')) mem' ->
  Forall line_ok new ->
  new = [] /\ prints a = false \/ (exists l, new = [(who, l)] /\ prints a = true /\ call_of l = a) ->
  inv m'.
Proof.
  intros [Hgood Hmap Hmem Hlines Hcalls Hforks] Ha Hm' Hmp Hmem' Hnew Hcall.
  assert (todo (proc_of who m') = rest) as Hrest by by rewrite Hm'; destruct who.
  assert (forall who', who' <> who -> proc_of who' m' = proc_of who' m) as Hother
    by by intros who' Hne; rewrite Hm'; destruct who, who'.
  assert (memory m' = mem' /\ out m' = out m ++ new) as [Hm1 Hm2] by by rewrite Hm'; destruct who.
  split.
  - intros who'. destruct (decide (who' = who)) as [->|Hne]; [|by rewrite Hother].
    rewrite Hrest. specialize (Hgood who). rewrite Ha in Hgood. apply Hgood.
  - intros who'. destruct (decide (who' = who)) as [->|Hne]; [|by rewrite Hother; auto].
    rewrite Hrest. intros Hin. rewrite Hm'. destruct who; cbn; auto.
  - by rewrite Hm1.
  - rewrite Hm2. by apply Forall_app.
  - intros who'. rewrite Hm2. destruct (decide (who' = who)) as [->|Hne].
    + rewrite Hrest, <- (Hcalls who), Ha, filter_cons.
      destruct Hcall as [[-> Hp]|(l & -> & Hp & Hl)]; rewrite Hp; cbn.
      * by rewrite app_nil_r.
      * rewrite calls_snoc, decide_True by done. rewrite <- app_assoc, Hl. done.
    + rewrite Hother by done. rewrite <- (Hcalls who'). f_equal.
      destruct Hcall as [[-> _]|(l & -> & _)]; [by rewrite app_nil_r|].
      rewrite calls_snoc, decide_False by congruence. by rewrite app_nil_r.
  - intros Hf. specialize (Hforks Hf). destruct who.
    + pose proof (Hother Child ltac:(done)) as Hc. cbn in Hc. by rewrite Hc.
    + cbn in Ha. by rewrite Ha in Hforks.
Qed.

(** The action [a] of [who], whose rest is [rest]. *)
Definition keeps_inv (who : process) (a : action) (rest : list action) (m : machine) : Prop :=
  let p' := mkProc rest (mapped (proc_of who m)) in
  exists m', perform behind who p' a (set_proc who p' m) = Ok m' /\ inv m'.

Lemma timely_head who a rest m : inv m -> todo (proc_of who m) = a :: rest -> timely who a rest.
Proof. intros Hinv Ha. pose proof (inv_good m Hinv who) as Hg. rewrite Ha in Hg. apply Hg. Qed.

Lemma still_mapped who a rest m :
  inv m -> todo (proc_of who m) = a :: rest -> Munmap ∈ rest -> mapped (proc_of who m) = true.
Proof. intros Hinv Ha Hin. apply inv_mapped; [done|]. rewrite Ha. by apply list_elem_of_further. Qed.

(** An action that reads or writes the record [i] finds it. *)
Lemma record_found who a rest m i :
  inv m -> todo (proc_of who m) = a :: rest -> Munmap ∈ rest -> (i < 5)%nat ->
  let p' := mkProc rest (mapped (proc_of who m)) in
  exists r, memory m !! i = Some r /\ record_at p' i (set_proc who p' m) = Ok r.
Proof.
  intros Hinv Ha Hin Hi p'. destruct (runs_record p' i (set_proc who p' m)) as (r & Hr & Hr').
  - by eapply still_mapped.
  - destruct who; apply (inv_memory m Hinv).
  - done.
  - exists r. split; [by destruct who|done].
Qed.

(** An action that leaves the memory as it is. *)
Lemma memory_ok_same who a rest m :
  inv m -> todo (proc_of who m) = a :: rest ->
  (forall i c, a <> CopyName i c) -> (forall i n, a <> SetAge i n) ->
  memory_ok (match who with Parent => rest | Child => todo (parent m) end)
    (match who with Parent => todo (child m) | Child => rest end) (memory m).
Proof.
  intros Hinv Ha Hn Hs. pose proof (inv_memory m Hinv) as Hmem.
  destruct who; cbn [proc_of] in Ha; rewrite Ha in Hmem; (eapply memory_ok_weaken; [exact Hmem| |]); intros j n;
    first [by apply name_ok_pop|by apply age_ok_pop_parent|done|by apply age_ok_pop_child].
Qed.

Ltac record_of who Hinv Ha i Hi Hun r Hr :=
  let Hr' := fresh in
  destruct (record_found who _ _ _ i Hinv Ha Hun Hi) as (r & Hr & Hr'); unfold keeps_inv; cbn zeta; cbn [perform]; rewrite Hr'; clear Hr';
  eexists; split; [done|].
Ltac step_of who Hinv Ha new :=
  eapply (inv_step who _ _ _ _ new);
  [exact Hinv|exact Ha|cbn; by rewrite ?app_nil_r|exact (still_mapped who _ _ _ Hinv Ha)
  |cbn [todo parent child set_memory set_proc memory print]| |].

Lemma copy_name_step m i c rest :
  inv m -> todo (parent m) = CopyName i c :: rest -> keeps_inv Parent (CopyName i c) rest m.
Proof.
  intros Hinv Ha. destruct (timely_head Parent _ _ _ Hinv Ha) as (Hnew & Hi & -> & Hun).
  record_of Parent Hinv Ha i Hi Hun r Hr. step_of Parent Hinv Ha (@nil (process * line)); [|done|by left].
  pose proof (inv_memory m Hinv) as Hmem. rewrite Ha in Hmem.
  destruct (proj2 Hmem _ _ Hr) as [Hname Hage]. eapply memory_ok_insert; [exact Hmem|exact Hr| | |].
  - split; [|by eapply age_ok_pop_parent; [|exact Hage]]. unfold name_ok in *. cbn [name].
    rewrite decide_True by done. rewrite Hname, decide_False; [done|].
    intros [_ Hn]. apply Hn. apply list_elem_of_here.
  - intros j n Hj. apply name_ok_pop. congruence.
  - intros j n _. by apply age_ok_pop_parent.
Qed.

Lemma set_age_step m i n rest :
  inv m -> todo (parent m) = SetAge i n :: rest -> keeps_inv Parent (SetAge i n) rest m.
Proof.
  intros Hinv Ha. destruct (timely_head Parent _ _ _ Hinv Ha) as (Hnew & Hi & -> & Hun).
  record_of Parent Hinv Ha i Hi Hun r Hr. step_of Parent Hinv Ha (@nil (process * line)); [|done|by left].
  pose proof (inv_memory m Hinv) as Hmem. rewrite Ha in Hmem.
  destruct (proj2 Hmem _ _ Hr) as [Hname Hage]. eapply memory_ok_insert; [exact Hmem|exact Hr| | |].
  - split; [by eapply name_ok_pop; [|exact Hname]|]. right. by left.
  - intros j n _. by apply name_ok_pop.
  - intros j n Hj. apply age_ok_pop_parent. congruence.
Qed.

Lemma child_set_age_step m i n rest :
  inv m -> todo (child m) = SetAge i n :: rest -> keeps_inv Child (SetAge i n) rest m.
Proof.
  intros Hinv Ha. destruct (timely_head Child _ _ _ Hinv Ha) as (Hnew & -> & -> & Hun).
  assert (forks = true) as Hf.
  { apply not_false_iff_true. intros Hf. pose proof (inv_forks m Hinv Hf). congruence. }
  record_of Child Hinv Ha 0%nat (ltac:(lia) : (0 < 5)%nat) Hun r Hr. step_of Child Hinv Ha (@nil (process * line)); [|done|by left].
  pose proof (inv_memory m Hinv) as Hmem. destruct (proj2 Hmem _ _ Hr) as [Hname Hage].
  eapply memory_ok_insert; [exact Hmem|exact Hr| | |].
  - split; [done|]. right. right. done.
  - by intros j n _.
  - intros j n Hj. unfold age_ok. naive_solver.
Qed.

Lemma read_first_step m rest :
  inv m -> todo (parent m) = ReadFirst :: rest -> keeps_inv Parent ReadFirst rest m.
Proof.
  intros Hinv Ha. destruct (timely_head Parent _ _ _ Hinv Ha) as (Hnew & Hset & Hun).
  record_of Parent Hinv Ha 0%nat (ltac:(lia) : (0 < 5)%nat) Hun r Hr. step_of Parent Hinv Ha [(Parent, FirstIs (age r))].
  - by apply (memory_ok_same Parent _ _ _ Hinv Ha).
  - apply Forall_singleton. pose proof (inv_memory m Hinv) as Hmem. rewrite Ha in Hmem.
    destruct (proj2 Hmem _ _ Hr) as [_ Hage]. unfold line_ok, age_ok in *. cbn [snd].
    destruct Hage as [[_ Hage]|[(_ & -> & _)|(Hf & _ & -> & _)]]; [|by left|by right].
    specialize (Hage ltac:(lia)). apply elem_of_cons in Hage as [?|?]; done.
  - right. by eexists.
Qed.

Lemma read_age_step m i rest :
  inv m -> todo (child m) = ReadAge i :: rest -> keeps_inv Child (ReadAge i) rest m.
Proof.
  intros Hinv Ha. destruct (timely_head Child _ _ _ Hinv Ha) as (Hnew & Hi & Hset & Hun).
  record_of Child Hinv Ha i Hi Hun r Hr. step_of Child Hinv Ha [(Child, PersonIs (i + 1) (age r))].
  - by apply (memory_ok_same Child _ _ _ Hinv Ha).
  - apply Forall_singleton. pose proof (inv_memory m Hinv) as Hmem. rewrite Ha in Hmem.
    destruct (proj2 Hmem _ _ Hr) as [_ Hage]. unfold line_ok, age_ok in *. cbn [snd].
    exists i. split; [done|].
    destruct Hage as [[-> _]|[(_ & -> & _)|(_ & _ & _ & Hct)]]; [by left|by right|].
    destruct Hct. by apply list_elem_of_further.
  - right. eexists. split; [done|]. split; [done|]. cbn. f_equal. lia.
Qed.

Lemma say_step m text rest :
  inv m -> todo (parent m) = Say text :: rest -> keeps_inv Parent (Say text) rest m.
Proof.
  intros Hinv Ha. eexists. split; [done|]. step_of Parent Hinv Ha [(Parent, Text text)].
  - by apply (memory_ok_same Parent _ _ _ Hinv Ha).
  - by apply Forall_singleton.
  - right. by eexists.
Qed.

Lemma munmap_step who m rest :
  inv m -> todo (proc_of who m) = Munmap :: rest -> keeps_inv who Munmap rest m.
Proof.
  intros Hinv Ha. destruct (timely_head _ _ _ _ Hinv Ha) as [Hnew _]. eexists. split; [done|].
  eapply (inv_step who _ rest false (memory m) []); [exact Hinv|exact Ha| |done| |done|by left].
  - destruct who; cbn; by rewrite app_nil_r.
  - destruct who; [by apply (memory_ok_same Parent _ _ _ Hinv Ha)|by apply (memory_ok_same Child _ _ _ Hinv Ha)].
Qed.

(** No step faults, and every step keeps the invariant. *)
Lemma advance_inv who m r :
  inv m -> advance behind who m = Some r -> exists m', r = Ok m' /\ inv m'.
Proof.
  intros Hinv Hadv. unfold advance in Hadv.
  destruct (todo (proc_of who m)) as [|a rest] eqn:Ha; [done|]. simplify_eq.
  pose proof (timely_head _ _ _ _ Hinv Ha) as Ht.
  destruct who, a; try (by destruct Ht).
  - by apply copy_name_step.
  - by apply set_age_step.
  - by apply read_first_step.
  - by apply say_step.
  - by apply munmap_step.
  - by apply child_set_age_step.
  - by apply read_age_step.
  - by apply munmap_step.
Qed.

(** ** Every execution *)

Definition left_to_do (m : machine) : nat := length (todo (parent m)) + length (todo (child m)).

Lemma advance_left who m m' :
  inv m -> advance behind who m = Some (Ok m') -> left_to_do m = S (left_to_do m').
Proof.
  intros Hinv Hadv. unfold advance in Hadv. unfold left_to_do.
  destruct (todo (proc_of who m)) as [|a rest] eqn:Ha; [done|]. injection Hadv as Hp.
  enough (todo (parent m') = (match who with Parent => rest | Child => todo (parent m) end) /\
          todo (child m') = (match who with Parent => todo (child m) | Child => rest end)) as [-> ->].
  { destruct who; cbn in Ha; rewrite Ha; cbn; lia. }
  destruct who, a; cbn in Hp; repeat case_match; by simplify_eq.
Qed.

(** The end of every execution. *)
Definition finished (m : machine) : Prop :=
  (forall who, calls who (out m) = filter (fun a => prints a) (start_of who)) /\
  forall i r, memory m !! i = Some r ->
    if decide (i < 5)%nat
    then name r = [temp_at i; behind; Byte.x00; Byte.x00] /\
         (age r = 20 + Z.of_nat i \/ (forks = true /\ i = 0%nat /\ age r = 100))
    else r = mkPeople (replicate 4 Byte.x00) 0.

Lemma inv_finished m : inv m -> left_to_do m = 0%nat -> finished m.
Proof.
  intros [_ _ [_ Hmem] _ Hcalls _] Hleft. unfold left_to_do in Hleft.
  assert (todo (parent m) = [] /\ todo (child m) = []) as [Hp Hc].
  { split; apply length_zero_iff_nil; lia. }
  rewrite Hp, Hc in Hmem. split.
  - intros who. rewrite <- (Hcalls who).
    replace (todo (proc_of who m)) with (@nil action) by by destruct who. by rewrite app_nil_r.
  - intros i r Hr. destruct (Hmem _ _ Hr) as [Hname Hage]. unfold name_ok, age_ok in *.
    rewrite !elem_of_nil in Hage. destruct (decide (i < 5)%nat) as [Hi|Hi]; cycle 1.
    + rewrite decide_False in Hname by tauto. destruct r as [n a]. cbn in *. naive_solver.
    + rewrite decide_True in Hname by (split; [done|apply not_elem_of_nil]). split; [done|]. naive_solver.
Qed.

Lemma run_schedule_inv sched m :
  inv m ->
  match run_schedule behind sched m with
  | Some (Ok m') => inv m' /\ left_to_do m = (length sched + left_to_do m')%nat
  | Some (Err _) => False
  | None => True
  end.
Proof.
  revert m. induction sched as [|who sched IH]; intros m Hinv; cbn [run_schedule]; [done|].
  destruct (advance behind who m) as [r|] eqn:Hadv; [|done].
  destruct (advance_inv _ _ _ Hinv Hadv) as (m' & -> & Hinv').
  pose proof (advance_left _ _ _ Hinv Hadv). specialize (IH m' Hinv').
  destruct (run_schedule behind sched m') as [[m''|]|]; cbn [length]; [|done..].
  destruct IH. split; [done|lia].
Qed.

Lemma someone_goes_on m : left_to_do m <> 0%nat -> exists who r, advance behind who m = Some r.
Proof.
  unfold left_to_do. intros Hleft. destruct (todo (parent m)) as [|a rest] eqn:Hp.
  - exists Child. unfold advance. cbn [proc_of]. destruct (todo (child m)); [done|]. by eexists.
  - exists Parent. unfold advance. cbn [proc_of]. rewrite Hp. by eexists.
Qed.

(** However the two processes of b.c interleave, no access leaves the mapping or
    comes after [munmap]; after 21 steps (14 without a child) both have ended, each
    having printed all of its lines in order.  The child reads each age as 0 or as
    what the parent gives it, the parent the first one as 20 or as the child's 100,
    and that is what the memory holds in the end. *)
Theorem shared_memory_outcomes sched :
  match run_schedule behind sched (main forks) with
  | Some (Err _) => False
  | Some (Ok m) =>
      Forall line_ok (out m) /\
      (length sched + left_to_do m = if forks then 21 else 14)%nat /\
      (if decide (left_to_do m = 0%nat) then finished m
       else exists who r, advance behind who m = Some r)
  | None => True
  end.
Proof.
  pose proof (run_schedule_inv sched (main forks) inv_main) as Hrun.
  destruct (run_schedule behind sched (main forks)) as [[m|]|]; [|done..].
  destruct Hrun as [Hinv Hlen]. split; [by apply inv_lines|]. split.
  - rewrite <- Hlen. by destruct forks.
  - case_decide; [by apply inv_finished|by apply someone_goes_on].
Qed.
End Theorems.

(** The order that the calls of [sleep] are meant to give, and a child that runs
    first: it reads ages that nobody has set, and its own is overwritten. *)
Example slept_order :
  let sched := replicate 10 Parent ++ replicate 7 Child ++ replicate 4 Parent in
  match run_schedule Byte.x00 sched (main true) with
  | Some (Ok m) => map snd (out m) = [PersonIs 1 20; PersonIs 2 21; PersonIs 3 22; PersonIs 4 23; PersonIs 5 24;
                       FirstIs 100; Text "umap"; Text "umap ok"]
  | _ => False
  end.
Proof. vm_compute. reflexivity. Qed.

Example hasty_child :
  let sched := replicate 7 Child ++ replicate 14 Parent in
  match run_schedule Byte.x00 sched (main true) with
  | Some (Ok m) => map snd (out m) = [PersonIs 1 0; PersonIs 2 0; PersonIs 3 0; PersonIs 4 0; PersonIs 5 0;
                       FirstIs 20; Text "umap"; Text "umap ok"]
  | _ => False
  end.
Proof. vm_compute. reflexivity. Qed.
